(* ===== verification/_CoqProject ===== *)
-Q . S2P
Prelude.v
Naming.v
ArtifactName.v
DaemonTypes.v
ArtifactStore.v
Registry.v
RegistryInv.v
RegistryProps.v
RegistrySeq.v
IdAlloc.v
IdClaimProtocol.v
Cgroup.v
Sweep.v
NetAddr.v
Tap.v
Segment.v
Words.v
Cmdline.v
Reaper.v
PathLib.v
Rootfs.v
RootfsProps.v
RootfsPack.v
Features.v
Lifecycle.v
LifecycleProps.v
LaunchContract.v
Wire.v
Fault.v
Client.v
Handle.v
Serve.v
ServeProps.v
Mux.v
Netif.v
Intake.v
Cassette.v
Egress.v
UserNet.v
UserNetProps.v
Broker.v
Privilege.v
Bridge.v
BridgeProps.v
