(* ===== verification/Prelude.v ===== *)
(** * vmcell: a verification development

    vmcell runs untrusted work in micro-VMs.  A library ([crates/vmcell]) builds
    guest images and launches VMs through one of several hypervisors; a daemon
    ([crates/vmcell-daemon]) owns VMs and uploaded artifacts on behalf of HTTP
    clients; a steward ([crates/vmcell-steward]) is PID 1 or a service inside the
    guest and executes what the host asks over vsock.  What a careful reader of
    this code worries about is not one formula but ownership: two tasks on one VM
    handle, two processes on one id, a name that escapes its directory, a failure
    half-way that leaves something behind, a sweep that removes what is in use, an
    image that misses what was baked into it.  These are the subjects here.

    ** The parts and the files

    Every file models source files under [src/crates]; definitions keep the
    source's names.  This file is the shared base: [Result] with its [?]
    ([let?]), machine integers as [N] with their bounds, byte strings and the
    [str] methods the code uses, and the lemmas about them.

    - Names.  [Naming.v] is [vmcell/src/naming.rs] and [trailing_id]:
      composition of every per-VM resource name and the reading of an id back
      from it.  [ArtifactName.v] is [vmcell-daemon/src/name.rs].
    - The daemon.  [DaemonTypes.v] is [dto.rs] and [error.rs].
      [ArtifactStore.v] is [artifact_store.rs]: the store directory as a finite
      map, every verb a function on it, every system call allowed to fail.
      [Registry.v] is [registry.rs]: each method is a tree of atomic commands
      ([prog]) and a machine interleaves any number of them and cancels them at
      await points; [RegistryInv.v] has the invariant, [RegistryProps.v] the
      theorems over every reachable state, [RegistrySeq.v] what one undisturbed
      operation does.
    - Ids.  [IdAlloc.v] is the allocators of [vmcell/src/orchestrator.rs] and
      the vsock CIDs of [vmm/mod.rs], call by call.  [IdClaimProtocol.v] is the
      lock-file protocol under them, system call by system call, between
      processes that crash and pids that are reused; the sweep runs beside it.
    - Resources.  [Cgroup.v] is [metrics.rs].  [NetAddr.v] is the address maps of
      [net/mod.rs], [Tap.v] is [net/tap.rs] and [Segment.v] is [net/segment.rs]:
      the kernel's network state with calls that fail, the [Netlink] seam as a
      class with its laws, its production implementation as the instance that
      discharges them, and the clients proved against the class.  [Sweep.v] is
      [sweep_orphans] with its helpers and the daemon's passes over it.
    - Host and guest.  [Cmdline.v] is both ends of the kernel command line:
      [config.rs] and [vmcell-protocol] write it, [vmcell-steward/src/options.rs]
      reads it; [Words.v] has the facts about splitting lines.  [Reaper.v] is the
      exit-status coordinator of [vmcell-steward/src/lib.rs] with its threads and
      the kernel's processes.
    - A VM's life.  [Features.v] is [feature.rs] and what decides what a cell can
      do.  [Lifecycle.v] is [MicroVm]'s [start], [restore], [shutdown] and [Drop]
      in [orchestrator.rs], a state monad over the models of ids, CIDs,
      namespaces, segments, slices and scratch directories, with a log of what is
      taken and released; [LifecycleProps.v] has its invariant and
      [LaunchContract.v] its theorems.  [Handle.v] is the rest of the handle:
      [steward] with the resync a restored guest is owed, [snapshot], and the
      grace window.
    - The control plane.  [Wire.v] is [vmcell-protocol] and the framing of both
      ends, [Fault.v] is [vmm/fault.rs], the reading of the guest's console,
      [Client.v] is [steward/mod.rs], the host's client, and [Mux.v] is
      [steward/session.rs], its multiplexer of sessions.  [Serve.v] is a
      connection of the guest's steward ([serve.rs], [session.rs], [exec.rs],
      [run.rs]) as a step function of its threads, [ServeProps.v] its invariant
      and theorems.  [Netif.v] is [netif.rs] and [handle_resync]: the identity a
      restored guest is given, against the [NetOps] trait as a class with laws
      and the ioctl layer as its instance.
    - Guest images.  [PathLib.v] is the used part of [std::path] and of lossy
      UTF-8.  [Rootfs.v] is the merge of [artifact/tar2erofs.rs] and the
      injection rules of [artifact/rootfs/mod.rs], [RootfsProps.v] its theorems,
      [RootfsPack.v] the two emitters.

    They meet where the program composes them: the registry's in-use scan reads
    the store's names; the allocators' claims are what the sweep asks before it
    removes a name that [Naming.v] composed and [Cgroup.v] or [Tap.v] created;
    the command line carries the addresses of [NetAddr.v] and [Segment.v]; a
    launch composes the allocators, the network, the slices and the feature set;
    a session of [Mux.v] is followed from the child that [Serve.v] starts to what
    the caller's [wait] returns.

    ** What the theorems show

    - Exclusion and accounting under interleaving: one task at a time inside a
      VM handle, no VM lost, no deadlock, a snapshot's prefix pinned while it is
      written; one live holder per id whatever crashes, and the protocol a
      refinement of an atomic claim; a segment's slots exactly its members'; an
      exit status delivered only to the waiter that spawned the child, and none
      lost within the bound of the table; every child of a guest connection
      killed with it, and no frame of a session after its exit.
    - All or nothing: uploads, slices, namespaces and segments either are there
      completely or leave nothing behind, for every pattern of failing calls,
      with the double failures that are excepted spelled out; a launch that
      fails, or is shut down, releases each resource once, never one that another
      still lives in, and leaves the host as it was.
    - Who is answered: a client never takes the answer of an abandoned request
      for that of another, a restored guest is given its identity before it is
      asked anything, a session receives exactly its own frames, and a closed
      connection fails every call instead of hanging it; what a guest
      acknowledges of a resync is so.
    - Exactness: the sweep removes exactly what its specification allows and
      never an owned resource; the merged image is the OCI specification's, with
      every injection in it; the packed tree and the written archive are the
      merged tree; the hinted allocator is the full scan; chunking an upload and
      iterating a hash map make no difference.
    - Round trips and bounds: command line, resource names, file names, sidecars,
      kernel statistics, feature manifests, frames and error kinds are read back
      as written; names fit the kernel's limits, addresses their subnets, the
      store its quota; connecting, respawning and waiting for a shutdown end
      within their budgets.
    - Flaws, each as a theorem, most of them a concrete run: among them
      [destroying_overwritten], [delete_races_snapshot],
      [cancelled_snapshot_sticks], [sweep_races_claim],
      [busy_slice_reported_removed], [quota_overshoot_by_sidecar],
      [reserved_status_is_pruned], [lossy_names_collide],
      [dot_whiteout_removes_parent], [mode_changes_type],
      [sub_microsecond_delay_is_a_noop], [shutdown_leaves_children],
      [dropped_mux_recv_hangs], [unreadable_routes_lose_gateway] and
      [connect_overruns_budget].

    ** Conventions

    Pure functions are functions; code with effects passes its state; fallible
    code returns [result] with an error type that keeps the kind and drops the
    message; log lines are dropped.  A host interface (file system, kernel,
    launcher, libraries) is a parameter: a class or a function that says what
    each call answers, so that a theorem over all of them covers every failure;
    where the code relies on a documented law, the law is a field of the class
    and a concrete instance shows that it can hold.

    Recursion is structural except where fuel is named: [trim_loop],
    [split_ws_loop] and [utf8_chunks] take the length of the string, and each
    round consumes a byte; [read_msgs] the length of the stream, and a frame has
    four bytes at least; [ensure_parents] takes the length of the path, and
    each round drops a component; [connect_fuel] is the budget over the back-off
    floor and [grace_loop] the window over the poll step, and both theorems say
    that the loop ends within it; [wait] takes the length of the queue;
    [control_plane_gate] and [dir_bytes_loop] have the bounds of the
    source itself.  Step relations are unbounded; [bounded] in [Reaper.v] keeps
    the 64-bit generation counter below half its range, where the serial-number
    comparison of the source is meant to work.

    ** Not modelled

    The hypervisor backends, the virtio-fs service, the user-mode network stack
    and the egress proxy drive external programs or protocol libraries, and what
    they do is those programs' behaviour; to a launch they are parameters that
    may fail at any call.  HTTP routing and JSON are hyper, axum and serde; the
    encoding of a message is postcard, a class with its round-trip law.  The image
    pipeline's downloads, builds and caches, the command-line tools, the benches
    and the vendored vhost crates are left out.  Of the steward, the routing of
    stdin and window sizes, the accept loop, the mounts and the layout of the
    structs handed to an ioctl are not modelled.  Of [VmConfigBuilder::build], the checks that guard the
    command line are modelled; the others are independent comparisons of single
    fields. *)

From stdpp Require Export prelude gmap strings pretty.
From Stdlib Require Export Ascii.

#[export] Set Default Goal Selector "!".

(** ** Rust's [Result] *)

Inductive result (E A : Type) : Type :=
| Ok (a : A)
| Err (e : E).
Arguments Ok {E A} _.
Arguments Err {E A} _.

Declare Scope rust_scope.
Delimit Scope rust_scope with rust.
Open Scope rust_scope.

(** [let? x := e in k] is Rust's [let x = e?; k]. *)
Notation "'let?' x ':=' e 'in' k" :=
  (match e with Ok x => k | Err err => Err err end)
  (at level 10, x pattern, e at level 100, k at level 200) : rust_scope.

Definition is_ok {E A} (r : result E A) : bool :=
  match r with Ok _ => true | Err _ => false end.

Definition is_err {E A} (r : result E A) : bool := negb (is_ok r).

(** Rust's [Option::ok_or]. *)
Definition ok_or {E A} (o : option A) (e : E) : result E A :=
  match o with Some a => Ok a | None => Err e end.

#[export] Instance result_eq_dec {E A} `{EqDecision E, EqDecision A} : EqDecision (result E A).
Proof. solve_decision. Defined.

(** ** Machine integers

    An unsigned [w]-bit Rust integer is an [N]; operations that can leave the
    range are written with the behaviour the source chooses. *)

Definition umax (w : N) : N := (2 ^ w - 1)%N.
Definition u8_max : N := Eval vm_compute in umax 8.
Definition u32_max : N := Eval vm_compute in umax 32.
Definition u64_max : N := Eval vm_compute in umax 64.

(** [a.saturating_add(b)] and [a.saturating_sub(b)] at [u64]. *)
Definition sat_add64 (a b : N) : N := N.min u64_max (a + b).
Definition sat_sub (a b : N) : N := (a - b)%N.

(** [a.wrapping_add(b)] and [a.wrapping_mul(b)] at [u64]. *)
Definition wrap64 (a : N) : N := (a mod 2 ^ 64)%N.

(** ** Bytes and strings

    A Rust [str] is the byte string of its UTF-8 encoding. *)

Definition byte_N (c : ascii) : N := N_of_ascii c.

Definition is_ascii_digit (c : ascii) : bool :=
  (48 <=? byte_N c)%N && (byte_N c <=? 57)%N.
Definition is_ascii_lower (c : ascii) : bool :=
  (97 <=? byte_N c)%N && (byte_N c <=? 122)%N.
Definition is_ascii_upper (c : ascii) : bool :=
  (65 <=? byte_N c)%N && (byte_N c <=? 90)%N.
Definition is_ascii_alphanumeric (c : ascii) : bool :=
  is_ascii_digit c || is_ascii_lower c || is_ascii_upper c.

Fixpoint bytes (s : string) : list ascii :=
  match s with
  | EmptyString => []
  | String c s' => c :: bytes s'
  end.

Definition str_len (s : string) : N := N.of_nat (String.length s).

(** [s.starts_with(p)]. *)
Fixpoint starts_with (p s : string) : bool :=
  match p, s with
  | EmptyString, _ => true
  | String a p', String b s' => bool_decide (a = b) && starts_with p' s'
  | String _ _, EmptyString => false
  end.

(** [s.strip_prefix(p)]. *)
Fixpoint strip_prefix (p s : string) : option string :=
  match p, s with
  | EmptyString, _ => Some s
  | String a p', String b s' => if decide (a = b) then strip_prefix p' s' else None
  | String _ _, EmptyString => None
  end.

(** [s.strip_suffix(x)]. *)
Fixpoint strip_suffix (x s : string) : option string :=
  if decide (s = x) then Some EmptyString else
  match s with
  | EmptyString => None
  | String c s' => String c <$> strip_suffix x s'
  end.

(** [s.ends_with(x)]. *)
Definition ends_with (x s : string) : bool := bool_decide (is_Some (strip_suffix x s)).

(** The last occurrence of [c] splits [s]: Rust's [rsplit_once]. *)
Fixpoint rsplit_once (c : ascii) (s : string) : option (string * string) :=
  match s with
  | EmptyString => None
  | String a s' =>
      match rsplit_once c s' with
      | Some (l, r) => Some (String a l, r)
      | None => if decide (a = c) then Some (EmptyString, s') else None
      end
  end.

(** The first item of [s.rsplit(c)]. *)
Definition rsplit_first (c : ascii) (s : string) : string :=
  match rsplit_once c s with Some (_, r) => r | None => s end.

(** The first occurrence of [c] splits [s]: Rust's [split_once]. *)
Fixpoint split_once (c : ascii) (s : string) : option (string * string) :=
  match s with
  | EmptyString => None
  | String a s' =>
      if decide (a = c) then Some (EmptyString, s') else
      match split_once c s' with
      | Some (l, r) => Some (String a l, r)
      | None => None
      end
  end.

(** The UTF-8 encodings of the characters with the Unicode [White_Space]
    property, the ones [str::trim] removes. *)
Definition utf8 (l : list N) : string :=
  foldr (λ n s, String (ascii_of_N n) s) EmptyString l.

Definition whitespace_chars : list string :=
  utf8 <$> [[9]; [10]; [11]; [12]; [13]; [32]; [194; 133]; [194; 160]; [225; 154; 128];
    [226; 128; 128]; [226; 128; 129]; [226; 128; 130]; [226; 128; 131]; [226; 128; 132];
    [226; 128; 133]; [226; 128; 134]; [226; 128; 135]; [226; 128; 136]; [226; 128; 137];
    [226; 128; 138]; [226; 128; 168]; [226; 128; 169]; [226; 128; 175]; [226; 129; 159];
    [227; 128; 128]]%N.

(** One whitespace character off one end, if there is one. *)
Definition strip_ws (strip : string → string → option string) (s : string) : option string :=
  head (omap (λ w, strip w s) whitespace_chars).
Notation strip_whitespace := (strip_ws strip_prefix).

(** Repeatedly strip a whitespace character from one end; a byte string of
    length [n] needs at most [n] rounds. *)
Fixpoint trim_loop (strip : string → string → option string) (fuel : nat) (s : string) : string :=
  match fuel with
  | O => s
  | S fuel' =>
      match strip_ws strip s with
      | Some s' => trim_loop strip fuel' s'
      | None => s
      end
  end.

Definition trim_start (s : string) : string := trim_loop strip_prefix (String.length s) s.
Definition trim_end (s : string) : string := trim_loop strip_suffix (String.length s) s.

(** [s.trim()]. *)
Definition str_trim (s : string) : string := trim_end (trim_start s).

(** [s.replace(a, b)] for characters. *)
Fixpoint replace_char (a b : ascii) (s : string) : string :=
  match s with
  | EmptyString => EmptyString
  | String c s' => String (if decide (c = a) then b else c) (replace_char a b s')
  end.

(** [s.split(c)]: always at least one item. *)
Fixpoint str_split (c : ascii) (s : string) : list string :=
  match s with
  | EmptyString => [EmptyString]
  | String a s' =>
      if decide (a = c) then EmptyString :: str_split c s' else
      match str_split c s' with
      | h :: t => String a h :: t
      | [] => [String a EmptyString]
      end
  end.

(** [parts.join(sep)]. *)
Fixpoint str_join (sep : string) (l : list string) : string :=
  match l with
  | [] => ""
  | [x] => x
  | x :: l => x +:+ sep +:+ str_join sep l
  end.

(** [s.lines()]: a line ends at a newline, with a carriage return before the
    newline dropped; the text after the last newline is a line unless empty. *)
Fixpoint lines_of (parts : list string) : list string :=
  match parts with
  | [] => []
  | [last] => if decide (last = EmptyString) then [] else [last]
  | p :: rest => default p (strip_suffix (utf8 [13%N]) p) :: lines_of rest
  end.
Definition str_lines (s : string) : list string := lines_of (str_split (ascii_of_N 10) s).

(** [s.split_whitespace()]: the maximal runs without whitespace. *)
Fixpoint split_ws_loop (fuel : nat) (s : string) : list string :=
  match fuel with
  | O => [s]
  | S fuel =>
      match strip_whitespace s with
      | Some s' => EmptyString :: split_ws_loop fuel s'
      | None =>
          match s with
          | EmptyString => [EmptyString]
          | String a s' =>
              match split_ws_loop fuel s' with
              | h :: t => String a h :: t
              | [] => [String a EmptyString]
              end
          end
      end
  end.
Definition split_whitespace (s : string) : list string :=
  filter (λ x, x ≠ EmptyString) (split_ws_loop (S (String.length s)) s).

(** [s.split_ascii_whitespace()]. *)
Definition is_ascii_whitespace (c : ascii) : bool :=
  bool_decide (byte_N c ∈ [9; 10; 12; 13; 32]%N).
Fixpoint split_on (p : ascii → bool) (s : string) : list string :=
  match s with
  | EmptyString => [EmptyString]
  | String a s' =>
      if p a then EmptyString :: split_on p s' else
      match split_on p s' with
      | h :: t => String a h :: t
      | [] => [String a EmptyString]
      end
  end.
Definition split_ascii_whitespace (s : string) : list string :=
  filter (λ x, x ≠ EmptyString) (split_on is_ascii_whitespace s).

(** [s.trim_start_matches(c)]. *)
Fixpoint trim_start_matches (c : ascii) (s : string) : string :=
  match s with
  | EmptyString => EmptyString
  | String a s' => if decide (a = c) then trim_start_matches c s' else s
  end.

(** ** Decimal rendering and parsing *)

Definition digit_val (c : ascii) : option N :=
  if is_ascii_digit c then Some (byte_N c - 48)%N else None.

(** The accumulating loop of [u32::from_str]/[u64::from_str]: [max] is the
    type's largest value, and leaving the range is an error. *)
Fixpoint parse_digits (max acc : N) (s : string) : option N :=
  match s with
  | EmptyString => Some acc
  | String c s' =>
      match digit_val c with
      | None => None
      | Some d =>
          let acc' := (acc * 10 + d)%N in
          if (acc' <=? max)%N then parse_digits max acc' s' else None
      end
  end.

(** [s.parse::<uN>().ok()]: one leading [+] is accepted, an empty string or a
    lone sign is refused. *)
Definition parse_uint (max : N) (s : string) : option N :=
  match s with
  | EmptyString => None
  | String "+" EmptyString => None
  | String "+" s' => parse_digits max 0 s'
  | _ => parse_digits max 0 s
  end.

(** [uN::from_str_radix(_, 16)]. *)
Definition hex_value (c : ascii) : option N :=
  let n := byte_N c in
  if is_ascii_digit c then Some (n - 48)%N
  else if (97 <=? n)%N && (n <=? 102)%N then Some (n - 87)%N
  else if (65 <=? n)%N && (n <=? 70)%N then Some (n - 55)%N
  else None.

Fixpoint hex_digits (max acc : N) (s : string) : option N :=
  match s with
  | EmptyString => Some acc
  | String c s =>
      d ← hex_value c;
      let acc := (acc * 16 + d)%N in
      if (max <? acc)%N then None else hex_digits max acc s
  end.

Definition parse_hex (max : N) (s : string) : option N :=
  match s with
  | EmptyString | String "+" EmptyString => None
  | String "+" s => hex_digits max 0 s
  | s => hex_digits max 0 s
  end.

(** A lowercase hex digit, and [{:02x}] of a byte. *)
Definition hex_char (n : N) : ascii :=
  ascii_of_N (if (n <? 10)%N then 48 + n else 87 + n)%N.
Definition hex2 (n : N) : string :=
  String (hex_char (n / 16)) (String (hex_char (n mod 16)) EmptyString).

(** ** Lemmas on strings *)

Lemma append_cons c a b : String c a +:+ b = String c (a +:+ b).
Proof. done. Qed.

Lemma append_nil_l b : "" +:+ b = b.
Proof. done. Qed.

Lemma append_nil_r s : s +:+ "" = s.
Proof. induction s as [|c s IH]; [done|]. by rewrite append_cons, IH. Qed.

Lemma append_assoc a b c : (a +:+ b) +:+ c = a +:+ b +:+ c.
Proof. induction a as [|x a IH]; [done|]. by rewrite !append_cons, IH. Qed.

Lemma append_inj_l a b c : a +:+ b = a +:+ c → b = c.
Proof.
  induction a as [|x a IH]; [done|]. rewrite !append_cons. intros [= H]. by apply IH.
Qed.

Lemma length_append a b : String.length (a +:+ b) = String.length a + String.length b.
Proof. induction a as [|x a IH]; [done|]. rewrite append_cons. cbn. by rewrite IH. Qed.

Lemma bytes_append a b : bytes (a +:+ b) = bytes a ++ bytes b.
Proof. induction a as [|x a IH]; [done|]. rewrite append_cons. cbn. by rewrite IH. Qed.

Lemma length_bytes s : length (bytes s) = String.length s.
Proof. induction s; cbn; auto. Qed.

Lemma starts_with_spec p s : starts_with p s = true ↔ ∃ t, s = p +:+ t.
Proof.
  revert s. induction p as [|a p IH]; intros s; cbn.
  { split; [|done]. eauto. }
  destruct s as [|b s]; cbn.
  { split; [done|]. intros [t [=]]. }
  rewrite andb_true_iff, bool_decide_eq_true, IH. split.
  - intros [-> [t ->]]. by exists t.
  - intros [t [= -> ->]]. split; [done|]. by exists t.
Qed.

Lemma starts_with_append p s : starts_with p (p +:+ s) = true.
Proof. apply starts_with_spec. by exists s. Qed.

Lemma strip_suffix_spec x s r : strip_suffix x s = Some r ↔ s = r +:+ x.
Proof.
  revert r. induction s as [|c s IH]; intros r; cbn; case_decide as H; subst.
  - split; [by intros [= <-]|]. rewrite append_nil_r. by intros <-.
  - split; [done|]. destruct r; rewrite ?append_nil_l, ?append_cons; [by intros <-|done].
  - split; [by intros [= <-]|]. destruct r as [|d r]; [done|].
    intros Hr. exfalso. apply (f_equal String.length) in Hr.
    rewrite length_append in Hr. cbn in Hr. lia.
  - rewrite fmap_Some. split.
    + intros (r' & Hr & ->). apply IH in Hr as ->. done.
    + destruct r as [|d r]; rewrite ?append_nil_l, ?append_cons; [by intros <-|].
      intros [= -> Hs]. exists r. by rewrite IH.
Qed.

Lemma strip_prefix_spec p s r : strip_prefix p s = Some r ↔ s = p +:+ r.
Proof.
  revert s. induction p as [|a p IH]; intros s; cbn.
  { rewrite append_nil_l. naive_solver. }
  destruct s as [|b s]; [rewrite append_cons; done|]. rewrite append_cons.
  case_decide as H; [|naive_solver]. subst. rewrite IH. naive_solver.
Qed.

Lemma append_inj_r a b c : b +:+ a = c +:+ a → b = c.
Proof.
  intros Heq. assert (strip_suffix a (b +:+ a) = Some b) as H1 by (by apply strip_suffix_spec).
  assert (strip_suffix a (b +:+ a) = Some c) as H2 by (by apply strip_suffix_spec).
  congruence.
Qed.

Lemma ends_with_spec x s : ends_with x s = true ↔ ∃ r, s = r +:+ x.
Proof.
  unfold ends_with. rewrite bool_decide_eq_true. unfold is_Some.
  by setoid_rewrite strip_suffix_spec.
Qed.

Lemma rsplit_once_None c s : rsplit_once c s = None ↔ c ∉ bytes s.
Proof.
  induction s as [|a s IH]; cbn.
  { split; [intros _; apply not_elem_of_nil|done]. }
  rewrite not_elem_of_cons. destruct (rsplit_once c s) as [[l r]|].
  - split; [done|]. intros [_ H]. by apply IH in H.
  - case_decide; split; try done.
    + by intros [? _].
    + intros _. split; [done|]. by apply IH.
Qed.

Lemma rsplit_once_append c a b :
  c ∉ bytes b → rsplit_once c (a +:+ String c b) = Some (a, b).
Proof.
  intros Hb. induction a as [|x a IH]; rewrite ?append_nil_l, ?append_cons; cbn.
  - apply rsplit_once_None in Hb. rewrite Hb. by rewrite decide_True.
  - by rewrite IH.
Qed.

Lemma rsplit_once_Some c s l r : rsplit_once c s = Some (l, r) → s = l +:+ String c r ∧ c ∉ bytes r.
Proof.
  revert l r. induction s as [|a s IH]; cbn; [done|]. intros l r.
  destruct (rsplit_once c s) as [[l' r']|] eqn:E.
  - intros [= <- <-]. destruct (IH _ _ eq_refl) as [-> ?]. done.
  - case_decide; [|done]. intros [= <- <-]. subst.
    split; [done|]. by apply rsplit_once_None.
Qed.

Lemma rsplit_first_append c a b : c ∉ bytes b → rsplit_first c (a +:+ String c b) = b.
Proof. intros H. unfold rsplit_first. by rewrite rsplit_once_append. Qed.

Lemma split_once_Some c s l r : split_once c s = Some (l, r) → s = l +:+ String c r ∧ c ∉ bytes l.
Proof.
  revert l r. induction s as [|a s IH]; cbn; [done|]. intros l r. case_decide as Ha.
  - intros [= <- <-]. subst. split; [done|]. apply not_elem_of_nil.
  - destruct (split_once c s) as [[l' r']|]; [|done]. intros [= <- <-].
    destruct (IH _ _ eq_refl) as [-> Hl]. split; [done|].
    cbn. rewrite not_elem_of_cons. done.
Qed.

Lemma split_once_append c a b : c ∉ bytes a → split_once c (a +:+ String c b) = Some (a, b).
Proof.
  induction a as [|x a IH]; rewrite ?append_nil_l, ?append_cons; cbn.
  { by rewrite decide_True. }
  rewrite not_elem_of_cons. intros [Hx Ha]. rewrite decide_False by congruence.
  by rewrite IH.
Qed.

(** ** Lemmas on decimals *)

Lemma pretty_N_char_digit d : (d < 10)%N → digit_val (pretty_N_char d) = Some d.
Proof.
  intros Hd.
  assert (d = 0 ∨ d = 1 ∨ d = 2 ∨ d = 3 ∨ d = 4 ∨ d = 5 ∨ d = 6 ∨ d = 7 ∨ d = 8 ∨ d = 9)%N by lia.
  by destruct_or!; subst d.
Qed.

Lemma pretty_N_char_is_digit d : is_ascii_digit (pretty_N_char d) = true.
Proof. unfold pretty_N_char. by repeat case_match. Qed.

Lemma pretty_go_digits n s :
  Forall is_ascii_digit (bytes s) → Forall is_ascii_digit (bytes (pretty_N_go n s)).
Proof.
  revert s. induction (N.lt_wf_0 n) as [n _ IH]; intros s Hs.
  assert (n = 0 ∨ 0 < n)%N as [->|Hn] by lia; [by rewrite pretty_N_go_0|].
  rewrite pretty_N_go_step by done. apply IH; [by apply N.div_lt|].
  cbn. constructor; [|done]. by rewrite pretty_N_char_is_digit.
Qed.

Lemma pretty_digits (n : N) : Forall is_ascii_digit (bytes (pretty n)).
Proof.
  unfold pretty, pretty_N. case_decide.
  - repeat constructor.
  - apply pretty_go_digits. constructor.
Qed.

Lemma pretty_no_char c (n : N) : is_ascii_digit c = false → c ∉ bytes (pretty n).
Proof.
  intros Hc Hin. pose proof (pretty_digits n) as H.
  rewrite Forall_forall in H. apply H in Hin. by rewrite Hc in Hin.
Qed.

Lemma pretty_go_nonempty n s : s ≠ "" → pretty_N_go n s ≠ "".
Proof.
  revert s. induction (N.lt_wf_0 n) as [n _ IH]; intros s Hs.
  assert (n = 0 ∨ 0 < n)%N as [->|Hn] by lia; [by rewrite pretty_N_go_0|].
  rewrite pretty_N_go_step by done. apply IH; [by apply N.div_lt|done].
Qed.

Lemma pretty_nonempty (n : N) : pretty n ≠ "".
Proof.
  unfold pretty, pretty_N. case_decide; [done|].
  rewrite pretty_N_go_step by lia. by apply pretty_go_nonempty.
Qed.

Lemma parse_digits_go max n s :
  (n <= max)%N → parse_digits max 0 (pretty_N_go n s) = parse_digits max n s.
Proof.
  revert s. induction (N.lt_wf_0 n) as [n _ IH]; intros s Hn.
  assert (n = 0 ∨ 0 < n)%N as [->|Hpos] by lia; [by rewrite pretty_N_go_0|].
  assert (n = 10 * (n `div` 10) + n `mod` 10)%N as Hdm by (by apply N.div_mod).
  assert (n `mod` 10 < 10)%N as Hm by (by apply N.mod_lt).
  assert (n `div` 10 < n)%N as Hd by (by apply N.div_lt).
  rewrite pretty_N_go_step by done. rewrite IH by lia.
  cbn. rewrite pretty_N_char_digit by done.
  replace (n `div` 10 * 10 + n `mod` 10)%N with n by lia.
  case_match eqn:E; [done|]. apply N.leb_gt in E. lia.
Qed.

Lemma parse_uint_digits max s :
  s ≠ "" → Forall is_ascii_digit (bytes s) → parse_uint max s = parse_digits max 0 s.
Proof.
  destruct s as [|c s]; [done|]. intros _ [Hc _]%Forall_cons.
  destruct c as [[] [] [] [] [] [] [] []]; cbn in Hc; done.
Qed.

(** Parsing a rendered number gives it back, when it fits the type. *)
Lemma parse_pretty max (n : N) : (n <= max)%N → parse_uint max (pretty n) = Some n.
Proof.
  intros Hn. rewrite parse_uint_digits; [|apply pretty_nonempty|apply pretty_digits].
  unfold pretty, pretty_N. case_decide as H0.
  - subst n. cbn. destruct max; done.
  - rewrite parse_digits_go by done. done.
Qed.

Lemma parse_digits_bound max acc s n :
  (acc <= max)%N → parse_digits max acc s = Some n → (n <= max)%N.
Proof.
  revert acc. induction s as [|c s IH]; cbn; intros acc Hacc.
  { by intros [= <-]. }
  destruct (digit_val c); [|done]. case_match eqn:E; [|done].
  apply N.leb_le in E. by apply IH.
Qed.

Lemma parse_uint_bound max s n : parse_uint max s = Some n → (n <= max)%N.
Proof.
  unfold parse_uint. intros H.
  repeat case_match; try discriminate; eapply parse_digits_bound; try exact H; lia.
Qed.

Lemma pretty_go_length k n s :
  (n < 10 ^ N.of_nat k)%N → String.length (pretty_N_go n s) ≤ k + String.length s.
Proof.
  revert n s. induction k as [|k IH]; intros n s Hn.
  { change (10 ^ N.of_nat 0)%N with 1%N in Hn.
    assert (n = 0)%N as -> by lia. by rewrite pretty_N_go_0. }
  assert (n = 0 ∨ 0 < n)%N as [->|Hpos] by lia; [rewrite pretty_N_go_0; lia|].
  rewrite pretty_N_go_step by done. etrans.
  - apply IH. rewrite Nat2N.inj_succ, N.pow_succ_r' in Hn. by apply N.Div0.div_lt_upper_bound.
  - cbn. lia.
Qed.

(** A number below [10 ^ k] is rendered with at most [k] digits. *)
Lemma pretty_length k (n : N) :
  (0 < k) → (n < 10 ^ N.of_nat k)%N → String.length (pretty n) ≤ k.
Proof.
  intros Hk Hn. unfold pretty, pretty_N. case_decide; [cbn; lia|].
  etrans; [by apply pretty_go_length|]. cbn. lia.
Qed.

(** ** Lemmas on trimming *)

(** A printable ASCII byte: neither whitespace nor part of any whitespace
    character's encoding. *)
Definition is_graphic (c : ascii) : bool := (33 <=? byte_N c)%N && (byte_N c <=? 126)%N.

Lemma pretty_graphic (n : N) : Forall is_graphic (bytes (pretty n)).
Proof.
  eapply Forall_impl; [apply pretty_digits|]. intros c.
  unfold is_graphic, is_ascii_digit. rewrite !andb_True, !Is_true_true, !N.leb_le. lia.
Qed.

Lemma graphic_lit_app a b :
  forallb is_graphic (bytes a) = true → Forall is_graphic (bytes b) → Forall is_graphic (bytes (a +:+ b)).
Proof.
  intros Ha Hb. rewrite bytes_append. apply Forall_app. split; [|done].
  apply Forall_forall. intros x Hx. rewrite forallb_forall in Ha. apply Is_true_true. apply Ha.
  by apply list_elem_of_In.
Qed.

Lemma graphic_app a b :
  Forall is_graphic (bytes a) → Forall is_graphic (bytes b) → Forall is_graphic (bytes (a +:+ b)).
Proof. intros. rewrite bytes_append. by apply Forall_app. Qed.

Lemma whitespace_not_graphic w : w ∈ whitespace_chars → ¬ Forall is_graphic (bytes w).
Proof.
  assert (Forall (λ w, forallb is_graphic (bytes w) = false) whitespace_chars) as Hall.
  { refine (bool_decide_unpack _ _). vm_compute. exact I. }
  intros Hw HF. rewrite Forall_forall in Hall. specialize (Hall w Hw). cbn in Hall.
  apply forallb_True in HF.
  by rewrite Hall in HF.
Qed.

Lemma trim_loop_graphic strip fuel s :
  (∀ w r, strip w s = Some r → ∃ l r', bytes s = l ++ bytes w ++ r') →
  Forall is_graphic (bytes s) → trim_loop strip fuel s = s.
Proof.
  intros Hstrip Hs. destruct fuel as [|fuel]; [done|]. cbn [trim_loop]. unfold strip_ws.
  destruct (omap _ _) as [|x l] eqn:E; [done|]. exfalso.
  assert (x ∈ omap (λ w, strip w s) whitespace_chars) as Hx by (rewrite E; apply list_elem_of_here).
  apply list_elem_of_omap in Hx as (w & Hw & Hr). destruct (Hstrip _ _ Hr) as (l1 & r1 & Hb).
  apply (whitespace_not_graphic w Hw). rewrite Hb in Hs.
  by apply Forall_app in Hs as [_ [? _]%Forall_app].
Qed.

Lemma strip_whitespace_graphic s : Forall is_graphic (bytes s) → strip_whitespace s = None.
Proof.
  intros Hs. unfold strip_ws.
  destruct (omap _ _) as [|x l] eqn:E; [done|]. exfalso.
  assert (x ∈ omap (λ w, strip_prefix w s) whitespace_chars) as Hx by (rewrite E; apply list_elem_of_here).
  apply list_elem_of_omap in Hx as (w & Hw & ->%strip_prefix_spec).
  apply (whitespace_not_graphic w Hw). rewrite bytes_append in Hs. by apply Forall_app in Hs as [? _].
Qed.

(** Trimming a string of printable ASCII bytes changes nothing. *)
Lemma str_trim_graphic s : Forall is_graphic (bytes s) → str_trim s = s.
Proof.
  intros Hs. unfold str_trim, trim_start, trim_end.
  assert (trim_loop strip_prefix (String.length s) s = s) as ->.
  { apply trim_loop_graphic; [|done]. intros w r ->%strip_prefix_spec.
    exists [], (bytes r). by rewrite bytes_append. }
  apply trim_loop_graphic; [|done]. intros w r ->%strip_suffix_spec.
  exists (bytes r), []. by rewrite bytes_append, app_nil_r.
Qed.

Lemma str_trim_pretty (n : N) : str_trim (pretty n) = pretty n.
Proof.
  apply str_trim_graphic. eapply Forall_impl; [apply pretty_digits|].
  intros c. unfold is_graphic, is_ascii_digit. rewrite !andb_True, !Is_true_true, !N.leb_le. lia.
Qed.

Lemma hex_char_inj x y : (x < 16)%N → (y < 16)%N → hex_char x = hex_char y → x = y.
Proof.
  intros Hx Hy Hxy. apply (f_equal byte_N) in Hxy. unfold hex_char, byte_N in Hxy.
    destruct (N.ltb_spec x 10), (N.ltb_spec y 10);
      rewrite N_ascii_embedding in Hxy by lia; rewrite N_ascii_embedding in Hxy by lia; lia.
Qed.

Lemma hex2_inj x y : (x < 256)%N → (y < 256)%N → hex2 x = hex2 y → x = y.
Proof.
  intros Hx Hy [= Hd Hm].
  apply hex_char_inj in Hd; [|by apply N.Div0.div_lt_upper_bound..].
  apply hex_char_inj in Hm; [|by apply N.mod_lt..].
  by rewrite (N.div_mod' x 16), (N.div_mod' y 16), Hd, Hm.
Qed.

(** *** Splitting rendered text back *)

Lemma strip_whitespace_cons a s : is_graphic a = true → strip_whitespace (String a s) = None.
Proof.
  intros Ha. unfold strip_ws.
  destruct (omap _ _) as [|x l] eqn:E; [done|]. exfalso.
  assert (x ∈ omap (λ w, strip_prefix w (String a s)) whitespace_chars) as Hx
    by (rewrite E; apply list_elem_of_here).
  apply list_elem_of_omap in Hx as (w & Hw & Hr).
  assert (Forall (λ w, is_graphic <$> head (bytes w) = Some false) whitespace_chars) as Hall.
  { refine (bool_decide_unpack _ _). vm_compute. exact I. }
  rewrite Forall_forall in Hall. specialize (Hall w Hw).
  destruct w as [|b w]; [done|]. cbn in Hr, Hall. case_match; simplify_eq. congruence.
Qed.

(** The separators the kernel's files use. *)
Definition is_sep (c : ascii) : bool := (byte_N c =? 32)%N || (byte_N c =? 10)%N || (byte_N c =? 9)%N.

Lemma strip_whitespace_sep c s : is_sep c = true → strip_whitespace (String c s) = Some s.
Proof.
  unfold is_sep. intros [[H|H]%orb_true_iff|H]%orb_true_iff; apply N.eqb_eq in H;
    [assert (c = ascii_of_N 32) as ->|assert (c = ascii_of_N 10) as ->|assert (c = ascii_of_N 9) as ->];
    try (rewrite <- (ascii_N_embedding c); by f_equal); by destruct s.
Qed.

Lemma split_ws_loop_word fuel w c s :
  Forall is_graphic (bytes w) → is_sep c = true → String.length (w +:+ String c s) ≤ fuel →
  ∃ fuel', String.length s ≤ fuel' ∧
    split_ws_loop fuel (w +:+ String c s) = w :: split_ws_loop fuel' s.
Proof.
  revert fuel. induction w as [|a w IH]; intros fuel Hw Hc Hf.
  - rewrite append_nil_l in Hf |- *. cbn [String.length] in Hf. destruct fuel as [|fuel]; [lia|].
    exists fuel. split; [lia|]. cbn [split_ws_loop]. by rewrite strip_whitespace_sep.
  - rewrite append_cons in Hf |- *. cbn [String.length] in Hf. destruct fuel as [|fuel]; [lia|].
    cbn in Hw. apply Forall_cons in Hw as [Ha Hw]. destruct (IH fuel Hw Hc) as (fuel' & ? & Heq); [lia|].
    exists fuel'. split; [done|]. cbn [split_ws_loop].
    rewrite strip_whitespace_cons by (by destruct (is_graphic a)). by rewrite Heq.
Qed.

Lemma split_ws_loop_last fuel w :
  Forall is_graphic (bytes w) → String.length w ≤ fuel → split_ws_loop fuel w = [w].
Proof.
  revert fuel. induction w as [|a w IH]; intros fuel Hw Hf.
  - by destruct fuel.
  - destruct fuel as [|fuel]; [cbn in Hf; lia|]. cbn in Hw, Hf. apply Forall_cons in Hw as [Ha Hw].
    cbn [split_ws_loop]. rewrite strip_whitespace_cons by (by destruct (is_graphic a)).
    by rewrite IH by (done || lia).
Qed.

(** Words, each followed by a separator, and a last word. *)
Definition render_words (ws : list (string * ascii)) (last : string) : string :=
  foldr (λ '(w, c) r, w +:+ String c r) last ws.

Lemma split_whitespace_render ws last :
  Forall (λ '(w, c), w ≠ EmptyString ∧ Forall is_graphic (bytes w) ∧ is_sep c = true) ws →
  Forall is_graphic (bytes last) →
  split_whitespace (render_words ws last) = ws.*1 ++ filter (λ x, x ≠ EmptyString) [last].
Proof.
  intros Hws Hlast. unfold split_whitespace.
  assert (∀ fuel, String.length (render_words ws last) ≤ fuel →
    filter (λ x, x ≠ EmptyString) (split_ws_loop fuel (render_words ws last)) =
      ws.*1 ++ filter (λ x, x ≠ EmptyString) [last]) as H; [|apply H; lia].
  induction Hws as [|[w c] ws (Hne & Hg & Hc) _ IH]; intros fuel Hf.
  { cbn [render_words foldr fmap list_fmap app]. by rewrite split_ws_loop_last. }
  cbn [render_words foldr] in Hf |- *. fold (render_words ws last) in Hf |- *.
  destruct (split_ws_loop_word fuel w c (render_words ws last)) as (fuel' & Hf' & ->); [done..|].
  rewrite filter_cons, decide_True by done. cbn [fmap list_fmap fst app]. f_equal. by apply IH.
Qed.

Lemma str_split_append c a b : c ∉ bytes a → str_split c (a +:+ String c b) = a :: str_split c b.
Proof.
  induction a as [|x a IH]; cbn [bytes]; intros Ha.
  - rewrite append_nil_l. cbn. by rewrite decide_True.
  - apply not_elem_of_cons in Ha as [Hx Ha]. rewrite append_cons. cbn [str_split].
    rewrite decide_False by congruence. by rewrite IH.
Qed.

Lemma str_split_nonempty c s : str_split c s ≠ [].
Proof. destruct s as [|a s]; cbn; [done|]. case_decide; [done|]. by destruct (str_split c s). Qed.

Lemma str_join_split c s : str_join (String c "") (str_split c s) = s.
Proof.
  induction s as [|a s IH]; [done|]. cbn. pose proof (str_split_nonempty c s) as Hne.
  case_decide as Ha.
  - subst a. destruct (str_split c s) as [|h t] eqn:E; [done|].
    change (String c (str_join (String c "") (h :: t)) = String c s). by rewrite IH.
  - destruct (str_split c s) as [|h [|h' t]]; [done| |]; cbn in *; by rewrite <- IH.
Qed.

Lemma str_split_no_char c s x : x ∈ str_split c s → c ∉ bytes x.
Proof.
  revert x. induction s as [|a s IH]; intros x; cbn.
  - rewrite list_elem_of_singleton. intros ->. by apply not_elem_of_nil.
  - case_decide as Ha.
    + rewrite elem_of_cons. intros [->|Hx]; [by apply not_elem_of_nil|by apply IH].
    + destruct (str_split c s) as [|h t].
      * rewrite list_elem_of_singleton. intros ->. cbn. set_solver.
      * rewrite elem_of_cons. intros [->|Hx]; [|apply IH; by constructor].
        cbn. apply not_elem_of_cons. split; [congruence|]. apply IH. by constructor.
Qed.

Lemma str_split_word c s : c ∉ bytes s → str_split c s = [s].
Proof.
  induction s as [|a s IH]; intros H; [done|]. cbn in *. apply not_elem_of_cons in H as [Ha Hs].
  rewrite decide_False by congruence. by rewrite IH.
Qed.

Lemma str_split_join c l : l ≠ [] → Forall (λ x, c ∉ bytes x) l → str_split c (str_join (String c "") l) = l.
Proof.
  intros Hne Hl. induction Hl as [|x l Hx Hl IH]; [done|]. destruct l as [|y l].
  - by apply str_split_word.
  - change (str_join (String c "") (x :: y :: l)) with (x +:+ String c (str_join (String c "") (y :: l))).
    rewrite str_split_append by done. by rewrite IH.
Qed.

Lemma str_join_app sep l1 l2 :
  l1 ≠ [] → l2 ≠ [] → str_join sep (l1 ++ l2) = str_join sep l1 +:+ sep +:+ str_join sep l2.
Proof.
  intros H1 H2. induction l1 as [|x l1 IH]; [done|]. destruct l1 as [|y l1].
  - cbn. by destruct l2.
  - change (str_join sep ((x :: y :: l1) ++ l2)) with (x +:+ sep +:+ str_join sep ((y :: l1) ++ l2)).
    change (str_join sep (x :: y :: l1)) with (x +:+ sep +:+ str_join sep (y :: l1)).
    rewrite IH by done. by rewrite !append_assoc.
Qed.

Lemma str_split_app c a b : str_split c (a +:+ String c b) = str_split c a ++ str_split c b.
Proof.
  induction a as [|x a IH]; [rewrite append_nil_l; cbn [str_split]; by rewrite decide_True|].
  rewrite append_cons. cbn [str_split]. rewrite IH.
  case_decide; [done|]. destruct (str_split c a) as [|h t] eqn:E; [by apply str_split_nonempty in E|done].
Qed.

(** Lines, each ended by a newline. *)
Definition render_lines (ls : list string) : string :=
  foldr (λ l r, l +:+ String (ascii_of_N 10) r) EmptyString ls.

Definition is_line (l : string) : Prop :=
  ascii_of_N 10 ∉ bytes l ∧ strip_suffix (utf8 [13%N]) l = None.

Lemma str_lines_render ls : Forall is_line ls → str_lines (render_lines ls) = ls.
Proof.
  unfold str_lines. induction 1 as [|l ls [Hn Hr] Hls IH]; [done|].
  cbn [render_lines foldr]. fold (render_lines ls). rewrite str_split_append by done.
  destruct (str_split (ascii_of_N 10) (render_lines ls)) as [|h t] eqn:E.
  { exfalso. revert E. generalize (render_lines ls). intros [|a s]; cbn; [done|].
    case_decide; [done|]. by destruct (str_split _ s). }
  change (lines_of (l :: h :: t)) with (default l (strip_suffix (utf8 [13%N]) l) :: lines_of (h :: t)).
  rewrite Hr, <- IH. done.
Qed.

(** Bytes that may appear inside a line: printable, a space or a tab. *)
Definition is_inline (c : ascii) : bool := is_graphic c || (byte_N c =? 32)%N || (byte_N c =? 9)%N.

Lemma inline_is_line l : Forall is_inline (bytes l) → is_line l.
Proof.
  intros Hl. rewrite Forall_forall in Hl. split.
  - intros Hin. by apply Hl in Hin.
  - destruct (strip_suffix (utf8 [13%N]) l) as [r|] eqn:E; [|done].
    apply strip_suffix_spec in E as ->. exfalso. apply (Hl (ascii_of_N 13)).
    rewrite bytes_append. cbn. set_solver.
Qed.

Lemma graphic_inline s : Forall is_graphic (bytes s) → Forall is_inline (bytes s).
Proof. intros. eapply Forall_impl; [done|]. intros c. unfold is_inline. destruct (is_graphic c); done. Qed.

Lemma trim_loop_S strip fuel s :
  trim_loop strip (S fuel) s =
    match strip_ws strip s with Some s' => trim_loop strip fuel s' | None => s end.
Proof. done. Qed.

Lemma newline_whitespace : utf8 [10%N] ∈ whitespace_chars.
Proof. refine (bool_decide_unpack _ _). vm_compute. exact I. Qed.

(** No other whitespace character ends in a newline byte. *)
Lemma whitespace_last v :
  v ∈ whitespace_chars → v = utf8 [10%N] ∨ v ≠ EmptyString ∧ last (bytes v) ≠ Some (ascii_of_N 10).
Proof.
  assert (Forall (λ v, v = utf8 [10%N] ∨ v ≠ EmptyString ∧ last (bytes v) ≠ Some (ascii_of_N 10))
    whitespace_chars) as Hf.
  { refine (bool_decide_unpack _ _). vm_compute. exact I. }
  rewrite Forall_forall in Hf. apply Hf.
Qed.

Lemma strip_last_newline w : strip_ws strip_suffix (w +:+ utf8 [10%N]) = Some w.
Proof.
  unfold strip_ws.
  assert (∀ x, x ∈ omap (λ v, strip_suffix v (w +:+ utf8 [10%N])) whitespace_chars → x = w) as Hall.
  { intros x (v & Hv & Hx%strip_suffix_spec)%list_elem_of_omap.
    destruct (whitespace_last v Hv) as [->|[Hv0 Hc]].
    - symmetry. by eapply append_inj_r.
    - apply (f_equal (λ z, last (bytes z))) in Hx. rewrite !bytes_append, !last_app in Hx.
      destruct (last (bytes v)) as [c|] eqn:E; [by rewrite <- Hx in Hc|].
      apply last_None in E. by destruct v. }
  assert (w ∈ omap (λ v, strip_suffix v (w +:+ utf8 [10%N])) whitespace_chars) as Hin.
  { apply list_elem_of_omap. exists (utf8 [10%N]). split; [apply newline_whitespace|].
    by apply strip_suffix_spec. }
  destruct (omap _ whitespace_chars) as [|x l]; [by apply not_elem_of_nil in Hin|].
  cbn. f_equal. apply Hall. left.
Qed.

Lemma trim_start_eq s : trim_start s = trim_loop strip_prefix (String.length s) s.
Proof. done. Qed.
Lemma trim_end_eq s : trim_end s = trim_loop strip_suffix (String.length s) s.
Proof. done. Qed.
Lemma str_trim_eq s : str_trim s = trim_end (trim_start s).
Proof. done. Qed.

Lemma trim_start_head a s : is_graphic a = true → trim_start (String a s) = String a s.
Proof.
  intros Ha. rewrite trim_start_eq.
  assert (∀ n, trim_loop strip_prefix n (String a s) = String a s) as H; [|apply H].
  intros [|n]; [done|]. by rewrite trim_loop_S, strip_whitespace_cons.
Qed.

Lemma trim_end_newline w : Forall is_graphic (bytes w) → trim_end (w +:+ utf8 [10%N]) = w.
Proof.
  intros Hs. rewrite trim_end_eq.
  assert (∀ n, trim_loop strip_suffix (S n) (w +:+ utf8 [10%N]) = w) as H.
  { intros n. rewrite trim_loop_S, strip_last_newline.
    apply trim_loop_graphic; [|done]. intros v r ->%strip_suffix_spec.
    exists (bytes r), []. by rewrite bytes_append, app_nil_r. }
  rewrite length_append, Nat.add_comm. apply H.
Qed.

(** A printable word ended by a newline trims to the word. *)
Lemma str_trim_newline s :
  s ≠ EmptyString → Forall is_graphic (bytes s) → str_trim (s +:+ utf8 [10%N]) = s.
Proof.
  intros Hne Hs. rewrite str_trim_eq. destruct s as [|a s]; [done|].
  rewrite append_cons, trim_start_head; [rewrite <- append_cons; by apply trim_end_newline|].
  cbn in Hs. apply Forall_cons in Hs as [Ha _]. by destruct (is_graphic a).
Qed.

(** ** Filters *)

Lemma filter_all {A} (P : A → Prop) `{!∀ x, Decision (P x)} l : Forall P l → filter P l = l.
Proof. induction 1 as [|x l Hx _ IH]; [done|]. rewrite filter_cons, decide_True by done. by rewrite IH. Qed.

Lemma filter_agree {A} (P Q : A → Prop) `{!∀ x, Decision (P x), !∀ x, Decision (Q x)} (l : list A) :
  (∀ x, x ∈ l → P x ↔ Q x) → filter P l = filter Q l.
Proof.
  induction l as [|x l IH]; intros Hag; [done|]. rewrite !filter_cons, IH by (intros y Hy; apply Hag; by right).
  rewrite (decide_ext (P x) (Q x)) by (apply Hag; left). done.
Qed.

(** ** Automation *)

Create HintDb vmcell.
Create Rewrite HintDb vmcell.
#[export] Hint Resolve starts_with_append pretty_nonempty pretty_digits : vmcell.
#[export] Hint Rewrite append_nil_r append_assoc length_append bytes_append : vmcell.

(** Split the boolean connectives in the hypotheses and the goal. *)
Ltac bsimp :=
  repeat match goal with
  | H : _ && _ = true |- _ => apply andb_true_iff in H as [? H]
  | H : negb _ = true |- _ => apply negb_true_iff in H
  | H : negb _ = false |- _ => apply negb_false_iff in H
  | H : bool_decide _ = true |- _ => apply bool_decide_eq_true in H
  | H : bool_decide _ = false |- _ => apply bool_decide_eq_false in H
  | H : (_ <=? _)%N = true |- _ => apply N.leb_le in H
  | H : (_ <=? _)%N = false |- _ => apply N.leb_gt in H
  | H : (_ <? _)%N = true |- _ => apply N.ltb_lt in H
  | H : (_ <? _)%N = false |- _ => apply N.ltb_ge in H
  | H : (_ =? _)%N = true |- _ => apply N.eqb_eq in H
  | H : (_ =? _)%N = false |- _ => apply N.eqb_neq in H
  end.
