(* ===== verification/Naming.v ===== *)
(** * Host-resource names

    Models [crates/vmcell/src/naming.rs], the one place that composes the name
    of every per-VM host resource from the operator's prefix, and
    [trailing_id] of [orchestrator.rs], the parser the orphan sweep reads the
    id back with.  The theorems say that composer and sweep agree: every
    composed name is matched by its own class's filter, gives its id back, is
    matched by no other class or fleet, and fits the kernel's name budget. *)

From S2P Require Import Prelude.

Definition DEFAULT_RESOURCE_PREFIX : string := "vmcell".
Definition MAX_INTERFACE_NAME_LEN : N := 15.
Definition MAX_RESOURCE_PREFIX_LEN : N := 6.

(** Why a prefix is refused; the source's message is erased, its offending byte
    is kept. *)
Inductive prefix_error :=
| PrefixEmpty
| PrefixTooLong
| PrefixBadByte (b : N).

#[export] Instance prefix_error_eq_dec : EqDecision prefix_error.
Proof. solve_decision. Defined.

Definition validate_resource_prefix (prefix : string) : result prefix_error unit :=
  if decide (prefix = "") then Err PrefixEmpty else
  if (MAX_RESOURCE_PREFIX_LEN <? str_len prefix)%N then Err PrefixTooLong else
  match List.find (λ b, negb (is_ascii_alphanumeric b)) (bytes prefix) with
  | Some bad => Err (PrefixBadByte (byte_N bad))
  | None => Ok tt
  end.

Definition netns_name (prefix : string) (vmid : N) : string :=
  prefix +:+ "-net-" +:+ pretty vmid.
Definition tap_name (prefix : string) (vmid : N) : string :=
  prefix +:+ "-tap-" +:+ pretty vmid.
Definition cgroup_slice_name (prefix : string) (vmid : N) : string :=
  prefix +:+ "-vm-" +:+ pretty vmid.
Definition scratch_dir_name (prefix : string) (pid vmid : N) : string :=
  prefix +:+ "-vm-" +:+ pretty pid +:+ "-" +:+ pretty vmid.
Definition segment_netns_name (prefix : string) (segid : N) : string :=
  prefix +:+ "-seg-" +:+ pretty segid.
Definition segment_bridge_name (prefix : string) (segid : N) : string :=
  prefix +:+ "-br-" +:+ pretty segid.

Definition netns_sweep_prefix (prefix : string) : string := prefix +:+ "-net-".
Definition segment_netns_sweep_prefix (prefix : string) : string := prefix +:+ "-seg-".
Definition vm_resource_sweep_prefix (prefix : string) : string := prefix +:+ "-vm-".

(** [name.rsplit('-').next()?.parse().ok()] at [u32]. *)
Definition trailing_id (name : string) : option N :=
  parse_uint u32_max (rsplit_first "-" name).

(** ** The resource classes the sweeps scan

    The four swept classes, the name each resource of a class carries and the
    filter its scan applies. *)

Inductive resource_class := PerVmNetns | SegmentNetns | CgroupSlice | ScratchDir.

#[export] Instance resource_class_eq_dec : EqDecision resource_class.
Proof. solve_decision. Defined.

Definition class_name (k : resource_class) (prefix : string) (pid id : N) : string :=
  match k with
  | PerVmNetns => netns_name prefix id
  | SegmentNetns => segment_netns_name prefix id
  | CgroupSlice => cgroup_slice_name prefix id
  | ScratchDir => scratch_dir_name prefix pid id
  end.

Definition class_filter (k : resource_class) (prefix : string) : string :=
  match k with
  | PerVmNetns => netns_sweep_prefix prefix
  | SegmentNetns => segment_netns_sweep_prefix prefix
  | CgroupSlice | ScratchDir => vm_resource_sweep_prefix prefix
  end.

(** The prefixes [validate_resource_prefix] accepts. *)
Definition valid_prefix (p : string) : Prop := validate_resource_prefix p = Ok tt.

#[export] Instance valid_prefix_dec p : Decision (valid_prefix p) := decide (_ = _).

(** ** Validation *)

Lemma valid_prefix_spec p :
  valid_prefix p ↔
  p ≠ "" ∧ (str_len p <= MAX_RESOURCE_PREFIX_LEN)%N ∧ Forall is_ascii_alphanumeric (bytes p).
Proof.
  unfold valid_prefix, validate_resource_prefix. case_decide as H0.
  { split; [done|]. naive_solver. }
  destruct (N.ltb_spec MAX_RESOURCE_PREFIX_LEN (str_len p)) as [Hl|Hl].
  { split; [done|]. lia. }
  destruct (List.find _ _) as [bad|] eqn:E.
  - split; [done|]. intros (_ & _ & H). apply List.find_some in E as [Hin Hb].
    rewrite Forall_forall in H. apply list_elem_of_In, H in Hin.
    apply negb_true_iff in Hb. by rewrite Hb in Hin.
  - split; [|done]. intros _. split_and!; [done..|].
    apply Forall_forall. intros x Hx. apply list_elem_of_In in Hx.
    pose proof (List.find_none _ _ E x Hx) as Hn. apply negb_false_iff in Hn. by rewrite Hn.
Qed.

Lemma valid_prefix_no_dash p : valid_prefix p → "-"%char ∉ bytes p.
Proof.
  intros (_ & _ & H)%valid_prefix_spec Hin. rewrite Forall_forall in H.
  by apply H in Hin.
Qed.

(** Two strings cut at their first dash agree on both halves. *)
Lemma dash_split_inj p q a b :
  "-"%char ∉ bytes p → "-"%char ∉ bytes q →
  p +:+ String "-" a = q +:+ String "-" b → p = q ∧ a = b.
Proof.
  intros Hp Hq H. pose proof (split_once_append "-" p a Hp) as E1.
  rewrite H, split_once_append in E1 by done. by simplify_eq.
Qed.

Lemma trailing_id_append a id :
  (id <= u32_max)%N → trailing_id (a +:+ String "-" (pretty id)) = Some id.
Proof.
  intros Hid. unfold trailing_id. rewrite rsplit_first_append by by apply pretty_no_char.
  by apply parse_pretty.
Qed.

(** Every name of a class splits at its last dash into a stem and the id. *)
Lemma class_name_trailing k p pid id :
  ∃ stem, class_name k p pid id = stem +:+ String "-" (pretty id).
Proof.
  destruct k; cbn;
    [exists (p +:+ "-net")|exists (p +:+ "-seg")|exists (p +:+ "-vm")
    |exists (p +:+ "-vm-" +:+ pretty pid)];
    by rewrite ?append_assoc.
Qed.

(** Every name starts with the prefix, a dash and the class's own stem. *)
Lemma class_name_shape k p pid id :
  ∃ rest, class_name k p pid id = p +:+ String "-"
    ((match k with PerVmNetns => "net-" | SegmentNetns => "seg-" | _ => "vm-" end) +:+ rest).
Proof.
  destruct k; cbn; eexists; unfold netns_name, segment_netns_name, cgroup_slice_name,
    scratch_dir_name; reflexivity.
Qed.

(** A filter matches a composed name only within its fleet and its stem. *)
Lemma filter_match_class k1 k2 p q pid id :
  valid_prefix p → valid_prefix q →
  starts_with (class_filter k1 p) (class_name k2 q pid id) = true →
  p = q ∧ class_filter k1 p = class_filter k2 q.
Proof.
  intros Hp%valid_prefix_no_dash Hq%valid_prefix_no_dash [t Ht]%starts_with_spec.
  destruct (class_name_shape k2 q pid id) as [rest Hr]. rewrite Hr in Ht.
  assert (class_filter k1 p +:+ t = p +:+ String "-"
    ((match k1 with PerVmNetns => "net-" | SegmentNetns => "seg-" | _ => "vm-" end) +:+ t)) as E
    by (destruct k1; cbn; unfold netns_sweep_prefix, segment_netns_sweep_prefix,
        vm_resource_sweep_prefix; by rewrite append_assoc).
  rewrite E in Ht. symmetry in Ht. apply dash_split_inj in Ht as [-> Ht]; [|done..].
  split; [done|]. by destruct k1, k2.
Qed.

(** ** Properties *)

(** The load-bearing agreement between the naming sites and the orphan
    sweep: whatever the prefix, every name the host composes for a swept class
    is matched by that class's scan filter, and the id the sweep parses back
    from it is the id it was composed from. *)
Theorem sweep_reads_back_composed_names k p pid id :
  (id <= u32_max)%N →
  starts_with (class_filter k p) (class_name k p pid id) = true ∧
  trailing_id (class_name k p pid id) = Some id.
Proof.
  intros Hid. split.
  - apply starts_with_spec. destruct k; cbn; eexists; unfold netns_name, segment_netns_name,
      cgroup_slice_name, scratch_dir_name, netns_sweep_prefix, segment_netns_sweep_prefix,
      vm_resource_sweep_prefix; by rewrite append_assoc.
  - destruct (class_name_trailing k p pid id) as [stem ->]. by apply trailing_id_append.
Qed.

Lemma sweep_reads_back_composed_names_witness :
  (207 <= u32_max)%N ∧
  starts_with (class_filter ScratchDir "acme") (class_name ScratchDir "acme" 4242 207) = true ∧
  trailing_id (class_name ScratchDir "acme" 4242 207) = Some 207%N.
Proof. split; [done|]. apply (sweep_reads_back_composed_names ScratchDir "acme" 4242 207). done. Defined.

(** Fleet isolation.  Under two accepted prefixes, a scan filter matches a
    composed name only if the fleets are the same and the classes share their
    stem; so a sweep never sees another operator's resources, and the segment
    scan never sees a per-VM namespace (the two id spaces stay apart). *)
Theorem sweep_filter_isolation k1 k2 p q pid id :
  valid_prefix p → valid_prefix q →
  starts_with (class_filter k1 p) (class_name k2 q pid id) = true →
  p = q ∧ class_filter k1 p = class_filter k2 q.
Proof. apply filter_match_class. Qed.

Lemma sweep_filter_isolation_witness :
  valid_prefix "vmcell" ∧ "vmcell" = "vmcell" ∧
  class_filter CgroupSlice "vmcell" = class_filter ScratchDir "vmcell".
Proof.
  split; [vm_compute; reflexivity|].
  apply (sweep_filter_isolation CgroupSlice ScratchDir "vmcell" "vmcell" 7 8);
    vm_compute; reflexivity.
Defined.

(** Every interface name the host composes for an accepted prefix and an id
    inside the addressing ceiling fits the kernel's [IFNAMSIZ - 1] budget, so no
    tap or bridge is ever created under a truncated name; the budget is exactly
    spent by the longest tap name. *)
Theorem interface_names_fit p id :
  valid_prefix p → (id <= 9999)%N →
  (str_len (tap_name p id) <= MAX_INTERFACE_NAME_LEN)%N ∧
  (str_len (segment_bridge_name p id) < MAX_INTERFACE_NAME_LEN)%N.
Proof.
  intros (_ & Hp & _)%valid_prefix_spec Hid.
  assert (String.length (pretty id) ≤ 4) as Hd by (apply pretty_length; [lia|]; cbn; lia).
  unfold str_len, MAX_RESOURCE_PREFIX_LEN in *.
  unfold tap_name, segment_bridge_name, MAX_INTERFACE_NAME_LEN.
  rewrite !length_append. cbn. lia.
Qed.

Lemma interface_names_fit_witness :
  valid_prefix "vmcell" ∧ (9999 <= 9999)%N ∧
  ((str_len (tap_name "vmcell" 9999) <= MAX_INTERFACE_NAME_LEN)%N ∧
   (str_len (segment_bridge_name "vmcell" 9999) < MAX_INTERFACE_NAME_LEN)%N) ∧
  str_len (tap_name "vmcell" 9999) = MAX_INTERFACE_NAME_LEN.
Proof.
  split; [vm_compute; reflexivity|]. split; [done|]. split; [|vm_compute; reflexivity].
  apply (interface_names_fit "vmcell" 9999); [vm_compute; reflexivity|done].
Defined.

(** Composed names identify their resource: for accepted prefixes, two
    resources of one class with the same name belong to the same fleet and have
    the same id, and two scratch directories also have the same owning pid. *)
Theorem class_name_inj k p q pid1 pid2 id1 id2 :
  valid_prefix p → valid_prefix q →
  class_name k p pid1 id1 = class_name k q pid2 id2 →
  p = q ∧ id1 = id2 ∧ (k = ScratchDir → pid1 = pid2).
Proof.
  intros Hp%valid_prefix_no_dash Hq%valid_prefix_no_dash H.
  destruct k; cbn in H; unfold netns_name, segment_netns_name, cgroup_slice_name,
    scratch_dir_name in H; apply dash_split_inj in H as [-> H]; try done;
    split; try done.
  4: change ("vm-" +:+ pretty pid1 +:+ "-" +:+ pretty id1 =
             "vm-" +:+ pretty pid2 +:+ "-" +:+ pretty id2) in H;
     apply append_inj_l in H;
     apply dash_split_inj in H as [H1 H2]; [|by apply pretty_no_char..];
     split; [by apply (inj pretty)|]; intros _; by apply (inj pretty).
  all: first [change ("net-" +:+ pretty id1 = "net-" +:+ pretty id2) in H
             |change ("seg-" +:+ pretty id1 = "seg-" +:+ pretty id2) in H
             |change ("vm-" +:+ pretty id1 = "vm-" +:+ pretty id2) in H];
    apply append_inj_l in H; split; [by apply (inj pretty)|done].
Qed.

Lemma class_name_inj_witness :
  valid_prefix "acme" ∧ "acme" = "acme" ∧ (7 = 7)%N ∧ (ScratchDir = ScratchDir → (3 = 3)%N).
Proof.
  split; [vm_compute; reflexivity|].
  apply (class_name_inj ScratchDir "acme" "acme" 3 3 7 7); vm_compute; reflexivity.
Defined.
