(* ===== verification/ArtifactName.v ===== *)
(** * Artifact names

    Models [crates/vmcell-daemon/src/name.rs]: the one predicate that turns a
    client-supplied name into a path of the artifact store.  The theorems say
    that an accepted name is a single ordinary path component (so the resolved
    path is a direct child of the store, never an escape from it), that the
    name and its digest sidecar both fit [NAME_MAX], and that no name the store
    keeps for itself can be accepted. *)

From S2P Require Import Prelude.
From Stdlib Require Import Decidable.

Definition NAME_MAX : N := 255.
Definition SHA256_SIDECAR_SUFFIX : string := ".sha256".
Definition MAX_ARTIFACT_NAME_LEN : N := NAME_MAX - str_len SHA256_SIDECAR_SUFFIX.

Inductive InvalidName :=
| InvalidEmpty
| TooLong
| DotOrDotDot
| LeadingDashOrDot
| IllegalByte (b : ascii)
| ReservedSuffix.

#[export] Instance InvalidName_eq_dec : EqDecision InvalidName.
Proof. solve_decision. Defined.

Definition is_allowed_byte (b : ascii) : bool :=
  is_ascii_alphanumeric b ||
  bool_decide (b = ".")%char || bool_decide (b = "_")%char || bool_decide (b = "-")%char.

Definition is_reserved_sidecar_name (name : string) : bool :=
  ends_with SHA256_SIDECAR_SUFFIX name.

(** The [for &b in name.as_bytes()] loop: the first byte outside the allowlist. *)
Fixpoint check_bytes (bs : list ascii) : result InvalidName unit :=
  match bs with
  | [] => Ok tt
  | b :: bs' => if is_allowed_byte b then check_bytes bs' else Err (IllegalByte b)
  end.

Definition validate_artifact_name (name : string) : result InvalidName unit :=
  if decide (name = "") then Err InvalidEmpty else
  if (MAX_ARTIFACT_NAME_LEN <? str_len name)%N then Err TooLong else
  if decide (name = "." ∨ name = "..") then Err DotOrDotDot else
  if (match bytes name with "-" :: _ | "." :: _ => true | _ => false end)%char
  then Err LeadingDashOrDot else
  let? _ := check_bytes (bytes name) in
  if is_reserved_sidecar_name name then Err ReservedSuffix else
  Ok tt.

(** [Path::join] on Unix: an absolute right side replaces, otherwise one
    separator is inserted unless the left side is empty or ends in one. *)
Definition path_join (dir name : string) : string :=
  if starts_with "/" name then name
  else if decide (dir = "") then name
  else if ends_with "/" dir then dir +:+ name
  else dir +:+ "/" +:+ name.

Definition resolve_artifact_path (dir name : string) : result InvalidName string :=
  let? _ := validate_artifact_name name in
  Ok (path_join dir name).

(** The path components the kernel walks: the non-empty pieces between
    slashes, [.] dropped. *)
Fixpoint split_slash (cur s : string) : list string :=
  match s with
  | EmptyString => [cur]
  | String c s' =>
      if decide (c = "/"%char) then cur :: split_slash "" s'
      else split_slash (cur +:+ String c "") s'
  end.

Definition path_components (p : string) : list string :=
  filter (λ c, c ≠ "" ∧ c ≠ ".") (split_slash "" p).

Definition valid_name (name : string) : Prop := validate_artifact_name name = Ok tt.

#[export] Instance valid_name_dec name : Decision (valid_name name) := decide (_ = _).

(** ** What an accepted name is *)

Lemma check_bytes_Ok bs : check_bytes bs = Ok tt ↔ Forall is_allowed_byte bs.
Proof.
  induction bs as [|b bs IH]; cbn; [done|].
  rewrite Forall_cons. destruct (is_allowed_byte b); cbn; [|naive_solver].
  rewrite IH. naive_solver.
Qed.

Lemma valid_name_spec name :
  valid_name name ↔
  (name ≠ "" ∧ (str_len name <= MAX_ARTIFACT_NAME_LEN)%N ∧
   Forall is_allowed_byte (bytes name) ∧
   is_reserved_sidecar_name name = false ∧
   (∀ c s, name = String c s → c ≠ "-"%char ∧ c ≠ "."%char)).
Proof.
  unfold valid_name, validate_artifact_name. case_decide as He; [naive_solver|].
  destruct (N.ltb_spec MAX_ARTIFACT_NAME_LEN (str_len name)) as [Hl|Hl].
  { split; [done|]. intros (_ & ? & _). lia. }
  case_decide as Hd.
  { split; [done|]. intros (_ & _ & _ & _ & H).
    destruct Hd as [-> | ->]; by destruct (H _ _ eq_refl). }
  destruct name as [|c s]; [done|].
  change (bytes (String c s)) with (c :: bytes s).
  destruct (decide (c = "-"%char ∨ c = "."%char)) as [Hc|Hc].
  { destruct Hc as [-> | ->]; (split; [done|]); intros (_ & _ & _ & _ & H);
      by destruct (H _ _ eq_refl). }
  assert ((match c :: bytes s with "-" :: _ | "." :: _ => true | _ => false end)%char = false)
    as ->.
  { apply Decidable.not_or in Hc as [? ?].
    destruct c as [[] [] [] [] [] [] [] []]; try done; congruence. }
  pose proof (check_bytes_Ok (c :: bytes s)) as Hb.
  destruct (check_bytes (c :: bytes s)) as [[]|e].
  - destruct (is_reserved_sidecar_name _); [naive_solver|].
    split; [|done]. intros _. split_and!; try done; [by apply Hb|].
    intros c' s' [= <- <-]. by apply Decidable.not_or in Hc.
  - split; [done|]. intros (_ & _ & H & _). apply Hb in H. done.
Qed.

Lemma valid_name_no_slash name : valid_name name → "/"%char ∉ bytes name.
Proof.
  intros (_ & _ & H & _)%valid_name_spec Hin. rewrite Forall_forall in H. by apply H in Hin.
Qed.

Lemma valid_name_not_special name : valid_name name → name ≠ "" ∧ name ≠ "." ∧ name ≠ "..".
Proof.
  intros (Hne & _ & _ & _ & Hc)%valid_name_spec. split; [done|].
  split; intros ->; by destruct (Hc _ _ eq_refl).
Qed.

(** ** Paths *)

Lemma split_slash_no_slash cur s :
  "/"%char ∉ bytes s → split_slash cur s = [cur +:+ s].
Proof.
  revert cur. induction s as [|c s IH]; intros cur; cbn.
  { by rewrite append_nil_r. }
  rewrite not_elem_of_cons. intros [Hc Hs]. rewrite decide_False by congruence.
  rewrite IH by done. by rewrite append_assoc.
Qed.

Lemma split_slash_append cur a b :
  split_slash cur (a +:+ String "/" b) = split_slash cur a ++ split_slash "" b.
Proof.
  revert cur. induction a as [|c a IH]; intros cur; rewrite ?append_nil_l, ?append_cons; cbn.
  { by rewrite decide_True. }
  case_decide; [|apply IH]. by rewrite IH.
Qed.

Lemma path_components_dir_slash a : path_components (a +:+ "/") = path_components a.
Proof.
  unfold path_components. rewrite (split_slash_append "" a ""), filter_app. cbn.
  rewrite decide_False by naive_solver. by rewrite app_nil_r.
Qed.

Lemma path_components_append a b :
  path_components (a +:+ "/" +:+ b) = path_components a ++ path_components b.
Proof.
  change (a +:+ "/" +:+ b) with (a +:+ String "/" b).
  unfold path_components. by rewrite split_slash_append, filter_app.
Qed.

Lemma path_components_single name :
  "/"%char ∉ bytes name → name ≠ "" → name ≠ "." → path_components name = [name].
Proof.
  intros Hs Hne Hdot. unfold path_components. rewrite split_slash_no_slash by done.
  rewrite append_nil_l. cbn. by rewrite decide_True.
Qed.

(** Confinement of the artifact store.  Whatever the store directory and
    whatever a client sends, a name that resolves resolves to the store
    directory's own path extended by exactly one component, the name itself,
    which is not [..]: no verb can reach outside the store. *)
Theorem resolved_path_is_direct_child dir name p :
  resolve_artifact_path dir name = Ok p →
  path_components p = path_components dir ++ [name] ∧ name ≠ "..".
Proof.
  unfold resolve_artifact_path.
  destruct (validate_artifact_name name) as [[]|] eqn:Hv; [|done]. intros [= <-].
  pose proof (valid_name_no_slash name Hv) as Hs.
  destruct (valid_name_not_special name Hv) as (Hne & Hdot & Hdd).
  split; [|done]. unfold path_join.
  destruct (starts_with "/" name) eqn:Hsl.
  { apply starts_with_spec in Hsl as [t ->]. exfalso. apply Hs.
    rewrite bytes_append. apply elem_of_app. left. by apply list_elem_of_here. }
  rewrite <- (path_components_single name) by done.
  case_decide as Hd; [by subst dir|].
  destruct (ends_with "/" dir) eqn:He.
  - apply ends_with_spec in He as [d ->].
    rewrite append_assoc, path_components_append, path_components_dir_slash.
    by rewrite (path_components_single name).
  - by rewrite path_components_append.
Qed.

Lemma resolved_path_is_direct_child_witness :
  resolve_artifact_path "/srv/art/" "rootfs.erofs" = Ok "/srv/art/rootfs.erofs" ∧
  (path_components "/srv/art/rootfs.erofs" = path_components "/srv/art/" ++ ["rootfs.erofs"] ∧
   "rootfs.erofs" ≠ "..").
Proof.
  split; [vm_compute; reflexivity|].
  apply (resolved_path_is_direct_child "/srv/art/" "rootfs.erofs"). vm_compute. reflexivity.
Defined.

(** An accepted name fits twice: as the artifact's file name and as its
    digest sidecar's, both inside [NAME_MAX]; and the sidecar's name is itself
    never an accepted artifact name, so no upload can shadow a digest record. *)
Theorem sidecar_fits_and_is_reserved name :
  valid_name name →
  (str_len name <= NAME_MAX)%N ∧
  (str_len (name +:+ SHA256_SIDECAR_SUFFIX) <= NAME_MAX)%N ∧
  ¬ valid_name (name +:+ SHA256_SIDECAR_SUFFIX).
Proof.
  intros (_ & Hl & _)%valid_name_spec. unfold MAX_ARTIFACT_NAME_LEN, str_len in *.
  rewrite length_append. unfold NAME_MAX in *. cbn in *. split_and!; [lia..|].
  intros (_ & _ & _ & Hr & _)%valid_name_spec. unfold is_reserved_sidecar_name in Hr.
  apply not_true_iff_false in Hr. apply Hr, ends_with_spec. by exists name.
Qed.

Lemma sidecar_fits_and_is_reserved_witness :
  valid_name "k1" ∧ (str_len "k1" <= NAME_MAX)%N ∧
  (str_len ("k1" +:+ SHA256_SIDECAR_SUFFIX) <= NAME_MAX)%N ∧
  ¬ valid_name ("k1" +:+ SHA256_SIDECAR_SUFFIX).
Proof.
  split; [vm_compute; reflexivity|].
  apply (sidecar_fits_and_is_reserved "k1"). vm_compute. reflexivity.
Defined.

(** A name starting with a dot is never accepted: the upload temp files and the
    scratch directory are unnameable from the network. *)
Lemma dot_name_invalid s : ¬ valid_name (String "." s).
Proof.
  intros (_ & _ & _ & _ & H)%valid_name_spec. by destruct (H _ _ eq_refl).
Qed.

Lemma reserved_invalid name : is_reserved_sidecar_name name = true → ¬ valid_name name.
Proof. intros H (_ & _ & _ & Hr & _)%valid_name_spec. congruence. Qed.

#[export] Hint Resolve dot_name_invalid reserved_invalid valid_name_no_slash : vmcell.
