(* ===== verification/DaemonTypes.v ===== *)
(** * The daemon's wire and error types

    Models the parts of [crates/vmcell-daemon/src/dto.rs] and [error.rs] the
    registry and the store are written in: the lifecycle states, the create
    request with its defaults, and the one error type with its single mapping
    to a wire kind and an HTTP status.  Error messages are erased; the reason
    an artifact name was refused is kept. *)

From S2P Require Import Prelude ArtifactName.

Inductive VmState := Booting | Ready | Paused | Snapshotting | Destroying.

#[export] Instance VmState_eq_dec : EqDecision VmState.
Proof. solve_decision. Defined.

Inductive NetMode := NetNone | NetPrivileged | NetUnprivileged.

#[export] Instance NetMode_eq_dec : EqDecision NetMode.
Proof. solve_decision. Defined.

Definition snapshot_eligible (n : NetMode) : bool :=
  match n with NetUnprivileged => false | _ => true end.

Inductive StewardPlacementDto :=
| PlacePid1
| PlaceService (port : N)
| PlaceNone.

#[export] Instance StewardPlacementDto_eq_dec : EqDecision StewardPlacementDto.
Proof. solve_decision. Defined.

Definition control_plane_retained (p : StewardPlacementDto) : bool :=
  match p with PlaceNone => false | _ => true end.

Record DiskIoLimitDto := {
  bandwidth_bytes_per_sec : option N;
  iops : option N;
}.

Record ExtraDiskSpec := {
  ds_name : string;
  ds_io_limit : option DiskIoLimitDto;
  ds_writable : bool;
}.

Record CreateVmRequest := {
  rq_kernel : string;
  rq_rootfs : string;
  rq_vcpus : N;
  rq_mem_mib : N;
  rq_net : NetMode;
  rq_snapshotting : bool;
  rq_restore_from : option string;
  rq_command : option (list string);
  rq_ephemeral : bool;
  rq_extra_disks : list ExtraDiskSpec;
  rq_extra_kernel_args : list string;
  rq_init : option string;
  rq_steward_placement : option StewardPlacementDto;
}.

Definition default_vcpus : N := 2.
Definition default_mem_mib : N := 512.

(** [CreateVmRequest::create] and the [run] one-shot built on it. *)
Definition create_request (kernel rootfs : string) : CreateVmRequest := {|
  rq_kernel := kernel;
  rq_rootfs := rootfs;
  rq_vcpus := default_vcpus;
  rq_mem_mib := default_mem_mib;
  rq_net := NetNone;
  rq_snapshotting := false;
  rq_restore_from := None;
  rq_command := None;
  rq_ephemeral := false;
  rq_extra_disks := [];
  rq_extra_kernel_args := [];
  rq_init := None;
  rq_steward_placement := None;
|}.

Definition run_request (kernel rootfs : string) (command : list string) : CreateVmRequest := {|
  rq_kernel := kernel;
  rq_rootfs := rootfs;
  rq_vcpus := default_vcpus;
  rq_mem_mib := default_mem_mib;
  rq_net := NetNone;
  rq_snapshotting := false;
  rq_restore_from := None;
  rq_command := Some command;
  rq_ephemeral := true;
  rq_extra_disks := [];
  rq_extra_kernel_args := [];
  rq_init := None;
  rq_steward_placement := None;
|}.

Record VmInfo := {
  vi_id : string;
  vi_state : VmState;
  vi_vmid : N;
  vi_kernel : string;
  vi_rootfs : string;
  vi_vcpus : N;
  vi_mem_mib : N;
}.

(** ** Errors *)

Inductive DaemonError :=
| ENotFound
| EAlreadyExists
| EInUse
| EConflict
| EInvalidName (e : InvalidName)
| EBadRequest
| EUnauthorized
| EForbidden
| EUnsupported
| EPayloadTooLarge
| EInternal.

#[export] Instance DaemonError_eq_dec : EqDecision DaemonError.
Proof. solve_decision. Defined.

Inductive ErrorKind :=
| KNotFound | KAlreadyExists | KInUse | KConflict | KInvalidName | KBadRequest
| KUnauthorized | KForbidden | KUnsupported | KPayloadTooLarge | KInternal.

#[export] Instance ErrorKind_eq_dec : EqDecision ErrorKind.
Proof. solve_decision. Defined.

Definition error_kind (e : DaemonError) : ErrorKind :=
  match e with
  | ENotFound => KNotFound
  | EAlreadyExists => KAlreadyExists
  | EInUse => KInUse
  | EConflict => KConflict
  | EInvalidName _ => KInvalidName
  | EBadRequest => KBadRequest
  | EUnauthorized => KUnauthorized
  | EForbidden => KForbidden
  | EUnsupported => KUnsupported
  | EPayloadTooLarge => KPayloadTooLarge
  | EInternal => KInternal
  end.

(** The roster the [error_kinds!] macro expands to. *)
Definition error_kinds_all : list ErrorKind :=
  [KNotFound; KAlreadyExists; KInUse; KConflict; KInvalidName; KBadRequest;
   KUnauthorized; KForbidden; KUnsupported; KPayloadTooLarge; KInternal].

Definition kind_as_str (k : ErrorKind) : string :=
  match k with
  | KNotFound => "not_found"
  | KAlreadyExists => "already_exists"
  | KInUse => "in_use"
  | KConflict => "conflict"
  | KInvalidName => "invalid_name"
  | KBadRequest => "bad_request"
  | KUnauthorized => "unauthorized"
  | KForbidden => "forbidden"
  | KUnsupported => "unsupported"
  | KPayloadTooLarge => "payload_too_large"
  | KInternal => "internal"
  end.

Definition kind_status_code (k : ErrorKind) : N :=
  match k with
  | KNotFound => 404
  | KAlreadyExists | KInUse | KConflict => 409
  | KInvalidName | KBadRequest => 400
  | KUnauthorized => 401
  | KForbidden => 403
  | KUnsupported => 501
  | KPayloadTooLarge => 413
  | KInternal => 500
  end.

Definition kind_from_wire (s : string) : option ErrorKind :=
  List.find (λ k, bool_decide (kind_as_str k = s)) error_kinds_all.

(** The outward face of an error: status, wire kind, and whether the 401
    challenge header is attached ([IntoResponse]). *)
Definition into_response (e : DaemonError) : N * string * bool :=
  let kind := error_kind e in
  (kind_status_code kind, kind_as_str kind, bool_decide (kind = KUnauthorized)).

(** The error type of the [vmcell] library, as far as the daemon's conversion
    distinguishes it. *)
Inductive VmcellError := VUnsupported | VCapabilityUnavailable | VConfig | VOther.

Definition from_vmcell_error (e : VmcellError) : DaemonError :=
  match e with
  | VUnsupported | VCapabilityUnavailable => EUnsupported
  | VConfig => EBadRequest
  | VOther => EInternal
  end.

(** The wire round trip of an error: the kind string a client receives
    names exactly one kind, the one the daemon sent, so a client that matches
    on it recovers the status the server answered with; and the challenge
    header goes with 401 only. *)
Theorem error_wire_roundtrip (e : DaemonError) :
  kind_from_wire (into_response e).1.2 = Some (error_kind e) ∧
  (kind_status_code <$> kind_from_wire (into_response e).1.2) = Some (into_response e).1.1 ∧
  ((into_response e).2 = true ↔ (into_response e).1.1 = 401%N).
Proof. destruct e; split_and!; vm_compute; split; done. Qed.
