(* ===== verification/ArtifactStore.v ===== *)
(** * The artifact store

    Models [crates/vmcell-daemon/src/artifact_store.rs] over the store
    directory seen as a finite map from entry names to nodes.  Every verb is a
    function on that map: streaming create (open, chunks, publish), info,
    list, delete, usage, the quota predicate and the residue collector.

    The host is the interface [StoreEnv]: the digest of the [sha2] crate, the
    order in which a directory is read, and which system calls fail, so every
    error branch of the source is a branch here.  The name [tempfile] picks for
    an upload is an argument of the operations that create one.  Entry names
    are UTF-8, as the allowlist makes every name the store itself writes. *)

From S2P Require Import Prelude ArtifactName DaemonTypes.
From Stdlib Require Import Sorted.

Definition UPLOAD_TEMP_PREFIX : string := ".vmcelld-tmp.".
Definition SCRATCH_DIR_NAME : string := ".vmcell-scratch".
Definition MAX_STORE_WALK_DEPTH : nat := 4.

(** What a symbolic link resolves to. *)
Inductive link_target := LFile (data : string) | LDir | LDangling.

(** A directory entry.  [age] is how far in the past the file's mtime is, in
    seconds; [None] when it is unreadable or in the future. *)
Inductive node :=
| NFile (data : string) (age : option N)
| NDir (children : list (string * node))
| NLink (len : N) (target : link_target)
| NOther.

(** The system calls that can fail, by call site. *)
Inductive io_op :=
| IoReadDir (path : string) | IoStat (path : string)
| IoTempfile | IoWrite (at_byte : N) | IoFlush | IoPersist
| IoSidecar | IoRollback | IoRemoveFile | IoRemoveDir | IoRemoveSidecar
| IoGcRemove (name : string).

(** The host the store runs on.  [remove_dir_all] that fails half-way leaves
    [rm_partial] of the directory's children. *)
Class StoreEnv := {
  sha256 : string → list ascii;
  io_fails : io_op → bool;
  read_dir : gmap string node → list (string * node);
  rm_partial : list (string * node) → list (string * node);
  sha256_length data : length (sha256 data) = 32;
  read_dir_perm fs : read_dir fs ≡ₚ map_to_list fs;
}.

Record GcReport := {
  orphan_sidecars : list string;
  abandoned_uploads : list string;
  bytes_freed : N;
}.

Record ArtifactInfo := {
  ai_name : string;
  ai_size_bytes : N;
  ai_sha256 : string;
}.

Record StoreUsage := {
  used_bytes : N;
  su_quota_bytes : option N;
  artifact_count : N;
  snapshot_prefix_count : N;
}.

(** The store's configuration. *)
Record ArtifactStore := {
  max_bytes : N;
  quota_bytes : option N;
}.

Definition open_store (max : N) : ArtifactStore := {| max_bytes := max; quota_bytes := None |}.
Definition with_quota (st : ArtifactStore) (q : option N) : ArtifactStore :=
  {| max_bytes := max_bytes st; quota_bytes := q |}.

(** An upload in progress: the temp file's own name in the directory stands
    for the [NamedTempFile]; the bytes accepted so far stand for the hasher. *)
Record ArtifactWriter := {
  w_name : string;
  w_tmp : string;
  w_hashed : string;
  w_written : N;
  w_limit : N;
}.

(** ** File-system predicates *)

(** [Path::exists] and [Path::is_file] follow symbolic links. *)
Definition node_exists (nd : node) : bool :=
  match nd with NLink _ LDangling => false | _ => true end.
Definition node_is_file (nd : node) : bool :=
  match nd with NFile _ _ => true | NLink _ (LFile _) => true | _ => false end.
Definition node_is_dir (nd : node) : bool :=
  match nd with NDir _ => true | NLink _ LDir => true | _ => false end.
(** [Metadata::len] of the entry itself. *)
Definition node_len (nd : node) : N :=
  match nd with
  | NFile d _ => str_len d
  | NLink n _ => n
  | NDir _ | NOther => 0
  end.
(** [Metadata::len] of what the entry resolves to. *)
Definition node_stat_len (nd : node) : option N :=
  match nd with
  | NFile d _ => Some (str_len d)
  | NLink _ (LFile d) => Some (str_len d)
  | NLink _ LDangling => None
  | NDir _ | NLink _ LDir | NOther => Some 0%N
  end.
(** The bytes [std::fs::read] sees. *)
Definition node_read (nd : node) : option string :=
  match nd with NFile d _ => Some d | NLink _ (LFile d) => Some d | _ => None end.

Definition fs_exists (fs : gmap string node) (name : string) : bool :=
  match fs !! name with Some nd => node_exists nd | None => false end.
Definition fs_is_file (fs : gmap string node) (name : string) : bool :=
  match fs !! name with Some nd => node_is_file nd | None => false end.
Definition fs_is_dir (fs : gmap string node) (name : string) : bool :=
  match fs !! name with Some nd => node_is_dir nd | None => false end.

(** Whether the entry's mtime is at least [min_age] in the past. *)
Definition older_than (age : option N) (min_age : N) : bool :=
  match age with Some a => (min_age <=? a)%N | None => false end.

Definition sidecar_path (name : string) : string := name +:+ SHA256_SIDECAR_SUFFIX.
Definition artifact_of (sidecar : string) : string :=
  default sidecar (strip_suffix SHA256_SIDECAR_SUFFIX sidecar).

(** [ArtifactStore::path_for]: the validated single join; the path is named by
    its last component. *)
Definition path_for (name : string) : result DaemonError string :=
  match validate_artifact_name name with
  | Ok _ => Ok name
  | Err e => Err (EInvalidName e)
  end.

Definition store_exists (fs : gmap string node) (name : string) : bool :=
  match path_for name with Ok p => fs_is_file fs p | Err _ => false end.

(** ** Usage and quota *)

Section usage.
Context `{StoreEnv}.

(** The loop of [dir_bytes] over one directory; [sub_bytes] measures a
    subdirectory. *)
Fixpoint dir_bytes_loop (sub_bytes : string → list (string * node) → result DaemonError N)
    (dir : string) (total : N) (children : list (string * node)) : result DaemonError N :=
  match children with
  | [] => Ok total
  | (name, nd) :: rest =>
      let path := path_join dir name in
      if io_fails (IoStat path) then Err EInternal else
      match nd with
      | NDir sub =>
          let? b := sub_bytes path sub in
          dir_bytes_loop sub_bytes dir (sat_add64 total b) rest
      | _ => dir_bytes_loop sub_bytes dir (sat_add64 total (node_len nd)) rest
      end
  end.

(** Bytes held under a directory; deeper than the cap is an error. *)
Fixpoint dir_bytes (depth : nat) (dir : string) (children : list (string * node))
    : result DaemonError N :=
  match depth with
  | O => Err EInternal
  | S depth' =>
      if io_fails (IoReadDir dir) then Err EInternal else
      dir_bytes_loop (dir_bytes depth') dir 0 children
  end.

(** One entry of the [usage] loop. *)
Definition usage_entry (acc : N * N * N) (name : string) (nd : node)
    : result DaemonError (N * N * N) :=
  let '(used, artifacts, prefixes) := acc in
  if io_fails (IoStat name) then Err EInternal else
  match nd with
  | NLink _ _ => Ok (sat_add64 used (node_len nd), artifacts, prefixes)
  | NDir children =>
      if decide (name = SCRATCH_DIR_NAME) then Ok acc else
      let? b := dir_bytes MAX_STORE_WALK_DEPTH name children in
      Ok (sat_add64 used b, artifacts, (prefixes + 1)%N)
  | _ =>
      let counted := negb (is_reserved_sidecar_name name) && is_ok (path_for name) in
      Ok (sat_add64 used (node_len nd),
          if counted then (artifacts + 1)%N else artifacts, prefixes)
  end.

Fixpoint usage_loop (acc : N * N * N) (l : list (string * node))
    : result DaemonError (N * N * N) :=
  match l with
  | [] => Ok acc
  | (name, nd) :: l' => let? acc' := usage_entry acc name nd in usage_loop acc' l'
  end.

Definition usage (st : ArtifactStore) (fs : gmap string node) : result DaemonError StoreUsage :=
  if io_fails (IoReadDir ".") then Err EInternal else
  let? acc := usage_loop (0, 0, 0)%N (read_dir fs) in
  Ok {| used_bytes := acc.1.1; su_quota_bytes := quota_bytes st;
        artifact_count := acc.1.2; snapshot_prefix_count := acc.2 |}.

Definition check_quota_headroom (st : ArtifactStore) (fs : gmap string node)
    : result DaemonError (option N) :=
  match quota_bytes st with
  | None => Ok None
  | Some quota =>
      let? u := usage st fs in
      if (quota <=? used_bytes u)%N then Err EPayloadTooLarge
      else Ok (Some (quota - used_bytes u)%N)
  end.
End usage.

(** ** Hex rendering of a digest *)

Definition hex_byte (b : ascii) : string :=
  String (hex_char (byte_N b / 16)) (String (hex_char (byte_N b mod 16)) "").

Fixpoint hex_digest (digest : list ascii) : string :=
  match digest with
  | [] => ""
  | b :: bs => hex_byte b +:+ hex_digest bs
  end.

Definition is_ascii_hexdigit (c : ascii) : bool :=
  is_ascii_digit c ||
  ((97 <=? byte_N c)%N && (byte_N c <=? 102)%N) || ((65 <=? byte_N c)%N && (byte_N c <=? 70)%N).

(** [read_sidecar]: the sidecar's trimmed contents when they are 64 hex
    digits.  ([read_to_string] also refuses bytes that are not UTF-8, but
    whitespace around hex digits always is.) *)
Definition read_sidecar (fs : gmap string node) (name : string) : option string :=
  match fs !! sidecar_path name with
  | Some nd =>
      match node_read nd with
      | Some raw =>
          let s := str_trim raw in
          if bool_decide (str_len s = 64%N) && forallb is_ascii_hexdigit (bytes s)
          then Some s else None
      | None => None
      end
  | None => None
  end.

(** ** Verbs *)

Section verbs.
Context `{StoreEnv}.

Definition hex_sha256 (data : string) : string := hex_digest (sha256 data).

(** [create_streaming]: refuse before a byte is read, then open the temp
    file. *)
Definition create_streaming (st : ArtifactStore) (fs : gmap string node) (name tmp : string)
    : result DaemonError (ArtifactWriter * gmap string node) :=
  if is_reserved_sidecar_name name then Err EBadRequest else
  let? path := path_for name in
  if fs_exists fs path then Err EAlreadyExists else
  let? headroom := check_quota_headroom st fs in
  let limit :=
    match headroom with
    | Some h => if (h <? max_bytes st)%N then h else max_bytes st
    | None => max_bytes st
    end in
  if io_fails IoTempfile then Err EInternal else
  Ok ({| w_name := name; w_tmp := tmp; w_hashed := ""; w_written := 0; w_limit := limit |},
      <[tmp := NFile "" (Some 0%N)]> fs).

(** Dropping a writer removes its temp file. *)
Definition drop_writer (w : ArtifactWriter) (fs : gmap string node) : gmap string node :=
  delete (w_tmp w) fs.

Definition write_chunk (w : ArtifactWriter) (fs : gmap string node) (chunk : string)
    : result DaemonError (ArtifactWriter * gmap string node) :=
  let total := sat_add64 (w_written w) (str_len chunk) in
  if (w_limit w <? total)%N then Err EPayloadTooLarge else
  if io_fails (IoWrite (w_written w)) then Err EInternal else
  let data := w_hashed w +:+ chunk in
  Ok ({| w_name := w_name w; w_tmp := w_tmp w; w_hashed := data;
         w_written := total; w_limit := w_limit w |},
      <[w_tmp w := NFile data (Some 0%N)]> fs).

(** [write_sidecar]: temp file plus an overwriting rename, which a directory
    at the destination refuses. *)
Definition write_sidecar (fs : gmap string node) (name digest : string)
    : result DaemonError (gmap string node) :=
  if io_fails IoSidecar then Err EInternal else
  match fs !! sidecar_path name with
  | Some (NDir _) => Err EInternal
  | _ => Ok (<[sidecar_path name := NFile digest (Some 0%N)]> fs)
  end.

(** [finish]: flush, no-clobber rename, sidecar, rollback.  The writer is
    consumed, so every exit leaves no temp file. *)
Definition finish (w : ArtifactWriter) (fs : gmap string node)
    : result DaemonError ArtifactInfo * gmap string node :=
  if io_fails IoFlush then (Err EInternal, drop_writer w fs) else
  match fs !! w_name w with
  | Some _ => (Err EAlreadyExists, drop_writer w fs)
  | None =>
      if io_fails IoPersist then (Err EInternal, drop_writer w fs) else
      let fs1 := <[w_name w := NFile (w_hashed w) (Some 0%N)]> (drop_writer w fs) in
      let digest := hex_sha256 (w_hashed w) in
      match write_sidecar fs1 (w_name w) digest with
      | Err e => (Err e, if io_fails IoRollback then fs1 else delete (w_name w) fs1)
      | Ok fs2 => (Ok {| ai_name := w_name w; ai_size_bytes := w_written w; ai_sha256 := digest |},
                   fs2)
      end
  end.

(** Feed a list of chunks, dropping the writer at the first refusal, then
    publish: the ingest loop of [stream_body_into_store]. *)
Fixpoint write_chunks (w : ArtifactWriter) (fs : gmap string node) (chunks : list string)
    : result DaemonError ArtifactInfo * gmap string node :=
  match chunks with
  | [] => finish w fs
  | c :: cs =>
      match write_chunk w fs c with
      | Err e => (Err e, drop_writer w fs)
      | Ok (w', fs') => write_chunks w' fs' cs
      end
  end.

Definition upload (st : ArtifactStore) (fs : gmap string node) (name tmp : string)
    (chunks : list string) : result DaemonError ArtifactInfo * gmap string node :=
  match create_streaming st fs name tmp with
  | Err e => (Err e, fs)
  | Ok (w, fs') => write_chunks w fs' chunks
  end.

(** [create]: the streaming path with one chunk. *)
Definition store_create (st : ArtifactStore) (fs : gmap string node) (name tmp : string)
    (data : string) : result DaemonError ArtifactInfo * gmap string node :=
  upload st fs name tmp [data].

(** The size is [metadata]'s, which follows links; the digest is the
    sidecar's, or a hash of the body when there is none. *)
Definition artifact_info (fs : gmap string node) (name : string) : result DaemonError ArtifactInfo :=
  let? nd := ok_or (fs !! name) EInternal in
  let? len := ok_or (node_stat_len nd) EInternal in
  let? digest := match read_sidecar fs name with
                 | Some d => Ok d
                 | None => let? data := ok_or (node_read nd) EInternal in Ok (hex_sha256 data)
                 end in
  Ok {| ai_name := name; ai_size_bytes := len; ai_sha256 := digest |}.

Definition info (fs : gmap string node) (name : string) : result DaemonError ArtifactInfo :=
  if is_reserved_sidecar_name name then Err ENotFound else
  let? path := path_for name in
  if negb (fs_is_file fs path) then Err ENotFound else
  artifact_info fs name.

(** The [list] loop: what survives its filters, then the sort by name. *)
Definition list_entry (fs : gmap string node) (e : string * node) : option ArtifactInfo :=
  let '(name, nd) := e in
  if negb (node_is_file nd) then None else
  if is_reserved_sidecar_name name then None else
  if is_err (path_for name) then None else
  match artifact_info fs name with Ok i => Some i | Err _ => None end.

(** [sort_by] on the name: an insertion sort on the byte order. *)
Fixpoint insert_info (x : ArtifactInfo) (l : list ArtifactInfo) : list ArtifactInfo :=
  match l with
  | [] => [x]
  | y :: l' => if String.leb (ai_name x) (ai_name y) then x :: l else y :: insert_info x l'
  end.

Definition sort_infos (l : list ArtifactInfo) : list ArtifactInfo := foldr insert_info [] l.

Definition list_artifacts (fs : gmap string node) : result DaemonError (list ArtifactInfo) :=
  if io_fails (IoReadDir ".") then Err EInternal else
  Ok (sort_infos (omap (list_entry fs) (read_dir fs))).

(** Best effort: a missing sidecar, a directory in its place or a failing
    [remove_file] is logged only. *)
Definition remove_sidecar (fs : gmap string node) (path : string) : gmap string node :=
  if io_fails IoRemoveSidecar then fs else
  match fs !! sidecar_path path with
  | Some (NDir _) | None => fs
  | Some _ => delete (sidecar_path path) fs
  end.

Definition store_delete (fs : gmap string node) (name : string)
    : result DaemonError unit * gmap string node :=
  if is_reserved_sidecar_name name then (Err ENotFound, fs) else
  match path_for name with
  | Err e => (Err e, fs)
  | Ok path =>
      match fs !! path with
      | None => (Err ENotFound, fs)
      | Some (NDir children) =>
          if io_fails IoRemoveDir
          then (Err EInternal, <[path := NDir (rm_partial children)]> fs)
          else (Ok tt, delete path fs)
      | Some (NFile _ _) =>
          if io_fails IoRemoveFile then (Err EInternal, fs)
          else (Ok tt, remove_sidecar (delete path fs) path)
      | Some _ => (Err ENotFound, fs)
      end
  end.

(** ** Residue collection *)

(** Whether the artifact a sidecar belongs to is there; stripping the suffix
    off the bare [.sha256] leaves the store directory itself. *)
Definition artifact_present (fs : gmap string node) (sidecar : string) : bool :=
  bool_decide (artifact_of sidecar = "") || fs_exists fs (artifact_of sidecar).

(** [Some true] for an abandoned upload, [Some false] for an orphan sidecar. *)
Definition gc_class (fs : gmap string node) (name : string) (nd : node) : option bool :=
  match nd with
  | NFile _ _ =>
      let abandoned_upload := starts_with UPLOAD_TEMP_PREFIX name in
      let orphan_sidecar := is_reserved_sidecar_name name && negb (artifact_present fs name) in
      if negb abandoned_upload && negb orphan_sidecar then None else Some abandoned_upload
  | _ => None
  end.

Definition node_age (nd : node) : option N :=
  match nd with NFile _ a => a | _ => None end.

Definition gc_report_add (report : GcReport) (abandoned : bool) (name : string) (len : N)
    : GcReport :=
  {| bytes_freed := sat_add64 (bytes_freed report) len;
     abandoned_uploads := if abandoned then abandoned_uploads report ++ [name]
                          else abandoned_uploads report;
     orphan_sidecars := if abandoned then orphan_sidecars report
                        else orphan_sidecars report ++ [name] |}.

Fixpoint gc_loop (min_age : N) (report : GcReport) (fs : gmap string node)
    (entries : list (string * node)) : result DaemonError GcReport * gmap string node :=
  match entries with
  | [] => (Ok report, fs)
  | (name, nd) :: rest =>
      if io_fails (IoStat name) then (Err EInternal, fs) else
      match gc_class fs name nd with
      | None => gc_loop min_age report fs rest
      | Some abandoned =>
          if negb (older_than (node_age nd) min_age) then gc_loop min_age report fs rest else
          if io_fails (IoGcRemove name) then gc_loop min_age report fs rest else
          gc_loop min_age (gc_report_add report abandoned name (node_len nd))
            (delete name fs) rest
      end
  end.

Definition collect_residue (fs : gmap string node) (min_age : N)
    : result DaemonError GcReport * gmap string node :=
  if io_fails (IoReadDir ".") then (Err EInternal, fs) else
  gc_loop min_age {| orphan_sidecars := []; abandoned_uploads := []; bytes_freed := 0 |}
    fs (read_dir fs).
End verbs.

(** ** Digests *)

Lemma hex_char_hexdigit n : (n < 16)%N → is_ascii_hexdigit (hex_char n) = true.
Proof.
  intros Hn. assert (∀ k, k < 16 → is_ascii_hexdigit (hex_char (N.of_nat k)) = true) as H.
  { intros k Hk. do 16 (destruct k as [|k]; [reflexivity|]). lia. }
  rewrite <- (N2Nat.id n). apply H. lia.
Qed.

Lemma byte_N_lt c : (byte_N c < 256)%N.
Proof. destruct c as [[] [] [] [] [] [] [] []]; vm_compute; done. Qed.

Lemma hex_digest_bytes d : Forall is_ascii_hexdigit (bytes (hex_digest d)).
Proof.
  induction d as [|b d IH]; [constructor|]. cbn [hex_digest]. rewrite bytes_append.
  apply Forall_app. split; [|done]. cbn. pose proof (byte_N_lt b).
  repeat constructor; apply Is_true_true, hex_char_hexdigit.
  - by apply N.Div0.div_lt_upper_bound.
  - by apply N.mod_lt.
Qed.

Lemma hex_digest_length d : str_len (hex_digest d) = (2 * N.of_nat (length d))%N.
Proof.
  unfold str_len. induction d as [|b d IH]; [done|]. cbn [hex_digest].
  rewrite length_append. cbn in *. lia.
Qed.

Lemma hexdigit_graphic c : is_ascii_hexdigit c → is_graphic c.
Proof. destruct c as [[] [] [] [] [] [] [] []]; vm_compute; done. Qed.

Lemma hex_digest_inj d1 d2 : hex_digest d1 = hex_digest d2 → d1 = d2.
Proof.
  revert d2. induction d1 as [|a d1 IH]; intros [|b d2]; cbn [hex_digest];
    unfold hex_byte; rewrite ?append_cons, ?append_nil_l; try done.
  intros [= Ha Hb Hd]. f_equal; [|by apply IH]. clear -Ha Hb.
  pose proof (byte_N_lt a). pose proof (byte_N_lt b).
  apply hex_char_inj in Ha; [|by apply N.Div0.div_lt_upper_bound..].
  apply hex_char_inj in Hb; [|by apply N.mod_lt..].
  assert (byte_N a = byte_N b) as Hab.
  { rewrite (N.div_mod (byte_N a) 16), (N.div_mod (byte_N b) 16) by done. congruence. }
  apply (f_equal ascii_of_N) in Hab. unfold byte_N in Hab. by rewrite !ascii_N_embedding in Hab.
Qed.

Section digest.
Context `{StoreEnv}.

Lemma read_sidecar_hex fs name d age :
  fs !! sidecar_path name = Some (NFile (hex_sha256 d) age) →
  read_sidecar fs name = Some (hex_sha256 d).
Proof.
  intros Hfs. unfold read_sidecar. rewrite Hfs. cbn [node_read].
  pose proof (hex_digest_bytes (sha256 d)) as Hb.
  rewrite str_trim_graphic by (eapply Forall_impl; [exact Hb|apply hexdigit_graphic]).
  unfold hex_sha256. rewrite bool_decide_eq_true_2.
  - apply forallb_True, Is_true_true in Hb. by rewrite Hb.
  - rewrite hex_digest_length, sha256_length. done.
Qed.
End digest.

(** ** Names inside the store *)

Lemma path_for_Ok name p : path_for name = Ok p ↔ valid_name name ∧ p = name.
Proof.
  unfold path_for, valid_name. destruct (validate_artifact_name name) as [[]|]; naive_solver.
Qed.

Lemma sidecar_ne name : sidecar_path name ≠ name.
Proof.
  intros H. apply (f_equal String.length) in H. unfold sidecar_path in H.
  rewrite length_append in H. cbn in H. lia.
Qed.

Lemma sidecar_inj a b : sidecar_path a = sidecar_path b → a = b.
Proof. apply append_inj_r. Qed.

Lemma sidecar_reserved name : is_reserved_sidecar_name (sidecar_path name) = true.
Proof. apply ends_with_spec. by exists name. Qed.

Lemma sidecar_not_valid name m : valid_name m → sidecar_path name ≠ m.
Proof. intros Hm <-. by apply (reserved_invalid _ (sidecar_reserved name)). Qed.

Lemma artifact_of_sidecar name : artifact_of (sidecar_path name) = name.
Proof.
  unfold artifact_of.
  assert (strip_suffix SHA256_SIDECAR_SUFFIX (sidecar_path name) = Some name) as ->
    by (by apply strip_suffix_spec). done.
Qed.

Lemma temp_name_shape tmp : starts_with UPLOAD_TEMP_PREFIX tmp = true → ∃ s, tmp = String "." s.
Proof. intros [t ->]%starts_with_spec. eexists. reflexivity. Qed.

Lemma temp_ne_valid tmp name :
  starts_with UPLOAD_TEMP_PREFIX tmp = true → valid_name name → tmp ≠ name.
Proof. intros [s ->]%temp_name_shape Hv <-. by apply dot_name_invalid in Hv. Qed.

Lemma temp_ne_sidecar tmp name :
  starts_with UPLOAD_TEMP_PREFIX tmp = true → valid_name name → tmp ≠ sidecar_path name.
Proof.
  intros [s ->]%temp_name_shape Hv Heq. destruct name as [|c r]; [done|].
  unfold sidecar_path in Heq. rewrite append_cons in Heq. injection Heq as <- _.
  by apply dot_name_invalid in Hv.
Qed.

#[export] Hint Resolve sidecar_ne sidecar_not_valid temp_ne_valid temp_ne_sidecar : vmcell.

(** ** Uploads *)

Definition concat_chunks (chunks : list string) : string := foldr String.append "" chunks.

Section uploads.
Context `{StoreEnv}.

Definition published (fs : gmap string node) (name data : string) : gmap string node :=
  <[sidecar_path name := NFile (hex_sha256 data) (Some 0%N)]>
    (<[name := NFile data (Some 0%N)]> fs).

(** A writer over the directory [fs0] that has accepted [w_hashed]. *)
Definition writer_on (fs0 : gmap string node) (w : ArtifactWriter) (fs : gmap string node) : Prop :=
  fs0 !! w_tmp w = None ∧ starts_with UPLOAD_TEMP_PREFIX (w_tmp w) = true ∧
  valid_name (w_name w) ∧ w_written w = str_len (w_hashed w) ∧
  (w_written w <= w_limit w)%N ∧ (w_limit w < u64_max)%N ∧
  fs = <[w_tmp w := NFile (w_hashed w) (Some 0%N)]> fs0.

(** What an upload of [data] held to [limit] may have done to [fs0]. *)
Definition upload_outcome (fs0 : gmap string node) (name data : string) (limit : N)
    (out : result DaemonError ArtifactInfo * gmap string node) : Prop :=
  match out with
  | (Ok i, fs') =>
      fs0 !! name = None ∧ (str_len data <= limit)%N ∧
      i = {| ai_name := name; ai_size_bytes := str_len data; ai_sha256 := hex_sha256 data |} ∧
      fs' = published fs0 name data
  | (Err _, fs') =>
      fs' = fs0 ∨
      (io_fails IoRollback = true ∧ fs0 !! name = None ∧
       fs' = <[name := NFile data (Some 0%N)]> fs0)
  end.

Lemma drop_writer_on fs0 w fs : writer_on fs0 w fs → drop_writer w fs = fs0.
Proof. intros (Htmp & _ & _ & _ & _ & _ & ->). unfold drop_writer. by rewrite delete_insert_id. Qed.

Lemma finish_outcome fs0 w fs :
  writer_on fs0 w fs → upload_outcome fs0 (w_name w) (w_hashed w) (w_limit w) (finish w fs).
Proof.
  intros Hw. pose proof (drop_writer_on _ _ _ Hw) as Hdrop.
  destruct Hw as (Htmp & Hpre & Hv & Hlen & Hle & _ & Hfs). unfold finish. rewrite Hdrop.
  destruct (io_fails IoFlush); [by left|].
  assert (fs !! w_name w = fs0 !! w_name w) as ->.
  { rewrite Hfs, lookup_insert_ne; [done|]. by apply temp_ne_valid. }
  destruct (fs0 !! w_name w) eqn:Hname; [by left|].
  destruct (io_fails IoPersist); [by left|].
  unfold write_sidecar. rewrite lookup_insert_ne by (symmetry; apply sidecar_ne).
  assert (∀ e, upload_outcome fs0 (w_name w) (w_hashed w) (w_limit w)
    (Err e, if io_fails IoRollback
            then <[w_name w := NFile (w_hashed w) (Some 0%N)]> fs0
            else delete (w_name w) (<[w_name w := NFile (w_hashed w) (Some 0%N)]> fs0)))
    as Hroll.
  { intros e. cbn. destruct (io_fails IoRollback); [by right|]. left.
    by rewrite delete_insert_id. }
  destruct (io_fails IoSidecar); [apply Hroll|].
  destruct (fs0 !! sidecar_path (w_name w)) as [[]|]; try apply Hroll;
    cbn; rewrite Hlen in *; done.
Qed.

(** One chunk either fits and is appended, or the upload ends. *)
Lemma write_chunk_on fs0 w fs c :
  writer_on fs0 w fs →
  (∃ e, write_chunk w fs c = Err e) ∨
  ∃ w' fs', write_chunk w fs c = Ok (w', fs') ∧ writer_on fs0 w' fs' ∧
    w_name w' = w_name w ∧ w_limit w' = w_limit w ∧ w_hashed w' = w_hashed w +:+ c.
Proof.
  intros (Htmp & Hpre & Hv & Hlen & Hle & Hmax & Hfs). unfold write_chunk.
  case_match eqn:E; [by eauto|]. case_match; [by eauto|]. right. bsimp.
  do 2 eexists. split; [done|]. unfold writer_on. cbn. split_and!; try done.
  - unfold sat_add64, str_len in *. cbn. rewrite length_append. lia.
  - by rewrite Hfs, insert_insert_eq.
Qed.

Lemma write_chunks_outcome chunks fs0 w fs :
  writer_on fs0 w fs →
  upload_outcome fs0 (w_name w) (w_hashed w +:+ concat_chunks chunks) (w_limit w)
    (write_chunks w fs chunks).
Proof.
  revert w fs. induction chunks as [|c cs IH]; intros w fs Hw; cbn [write_chunks concat_chunks foldr].
  - rewrite append_nil_r. by apply finish_outcome.
  - destruct (write_chunk_on fs0 w fs c Hw) as [[e ->]|(w' & fs' & -> & Hw' & <- & <- & Hh)].
    + left. by apply drop_writer_on.
    + rewrite <- append_assoc, <- Hh. by apply IH.
Qed.

(** Opening an upload: the name is free and valid, and the ceiling is the
    lower of the cap and the headroom. *)
Lemma create_streaming_on st fs name tmp w fs' :
  (max_bytes st < u64_max)%N → fs !! tmp = None → starts_with UPLOAD_TEMP_PREFIX tmp = true →
  create_streaming st fs name tmp = Ok (w, fs') →
  writer_on fs w fs' ∧ w_name w = name ∧ w_hashed w = "" ∧ (w_limit w <= max_bytes st)%N ∧
  (∀ q u, quota_bytes st = Some q → usage st fs = Ok u →
     (used_bytes u < q)%N ∧ (w_limit w <= q - used_bytes u)%N).
Proof.
  intros Hmax Htmp Hpre. unfold create_streaming.
  destruct (is_reserved_sidecar_name name); [done|].
  destruct (path_for name) as [p|] eqn:Hp; [|done]. apply path_for_Ok in Hp as [Hv ->].
  destruct (fs_exists fs name); [done|].
  destruct (check_quota_headroom st fs) as [hr|] eqn:Hq; [|done].
  destruct (io_fails IoTempfile); [done|]. intros [= <- <-].
  set (limit := match hr with Some h => _ | None => _ end).
  assert (limit <= max_bytes st)%N as Hlim.
  { subst limit. destruct hr as [h|]; [case_match|]; bsimp; lia. }
  unfold writer_on. cbn [w_name w_tmp w_hashed w_written w_limit].
  split_and!; try done; [lia..|]. subst limit.
  intros q u Hqq Hu. unfold check_quota_headroom in Hq. rewrite Hqq, Hu in Hq.
  destruct (N.leb_spec q (used_bytes u)); [done|]. injection Hq as <-.
  split; [done|]. case_match; bsimp; lia.
Qed.

Lemma upload_outcome_max st fs name tmp chunks :
  (max_bytes st < u64_max)%N → fs !! tmp = None → starts_with UPLOAD_TEMP_PREFIX tmp = true →
  upload_outcome fs name (concat_chunks chunks) (max_bytes st) (upload st fs name tmp chunks).
Proof.
  intros Hmax Htmp Hpre. unfold upload.
  destruct (create_streaming st fs name tmp) as [[w fs']|e] eqn:Hc; [|by left].
  destruct (create_streaming_on _ _ _ _ _ _ Hmax Htmp Hpre Hc) as (Hw & <- & Hh & Hl & _).
  pose proof (write_chunks_outcome chunks _ _ _ Hw) as Ho. rewrite Hh, append_nil_l in Ho.
  destruct (write_chunks w fs' chunks) as [[i|e] fs'']; cbn in *; naive_solver lia.
Qed.
End uploads.

(** ** Usage against a reference measure *)

(** All the bytes under an entry, to any depth and without saturation. *)
Fixpoint tree_bytes (nd : node) : N :=
  match nd with
  | NDir children =>
      (fix go (l : list (string * node)) : N :=
         match l with [] => 0 | (_, n) :: l' => tree_bytes n + go l' end)%N children
  | _ => node_len nd
  end.

(** How many directory levels there are under an entry. *)
Fixpoint tree_height (nd : node) : nat :=
  match nd with
  | NDir children =>
      S ((fix go (l : list (string * node)) : nat :=
         match l with [] => 0 | (_, n) :: l' => tree_height n `max` go l' end) children)
  | _ => 0
  end.

Definition entry_bytes (e : string * node) : N :=
  match e.2 with
  | NDir _ => if decide (e.1 = SCRATCH_DIR_NAME) then 0 else tree_bytes e.2
  | _ => tree_bytes e.2
  end%N.

Definition sum_bytes (l : list (string * node)) : N := foldr (λ e n, entry_bytes e + n)%N 0%N l.

Definition store_bytes (fs : gmap string node) : N := sum_bytes (map_to_list fs).

(** The entries [usage] counts as artifacts and as snapshot prefixes. *)
Definition counts_as_artifact (e : string * node) : Prop :=
  (match e.2 with NFile _ _ | NOther => True | _ => False end) ∧ valid_name e.1.
Definition counts_as_prefix (e : string * node) : Prop :=
  (match e.2 with NDir _ => True | _ => False end) ∧ e.1 ≠ SCRATCH_DIR_NAME.

#[export] Instance counts_as_artifact_dec e : Decision (counts_as_artifact e).
Proof. unfold counts_as_artifact. destruct (e.2); apply _. Defined.
#[export] Instance counts_as_prefix_dec e : Decision (counts_as_prefix e).
Proof. unfold counts_as_prefix. destruct (e.2); apply _. Defined.

Lemma sum_bytes_perm l1 l2 : l1 ≡ₚ l2 → sum_bytes l1 = sum_bytes l2.
Proof. unfold sum_bytes. induction 1; cbn; lia. Qed.

Lemma store_bytes_split fs k v :
  fs !! k = Some v → store_bytes fs = (entry_bytes (k, v) + store_bytes (delete k fs))%N.
Proof.
  intros Hk. unfold store_bytes. rewrite <- (sum_bytes_perm _ _ (map_to_list_delete _ _ _ Hk)). done.
Qed.

Lemma store_bytes_insert fs k v :
  (store_bytes (<[k := v]> fs) <= entry_bytes (k, v) + store_bytes fs)%N.
Proof.
  rewrite (store_bytes_split (<[k:=v]> fs) k v) by apply lookup_insert_eq.
  rewrite delete_insert_eq. destruct (fs !! k) as [x|] eqn:Hk.
  - rewrite (store_bytes_split fs k x Hk). lia.
  - rewrite delete_id by done. lia.
Qed.

Section usage_facts.
Context `{StoreEnv}.

Lemma dir_bytes_loop_exact sub_bytes bound dir total children n :
  (∀ p ch n, sub_bytes p ch = Ok n →
     n = N.min u64_max (tree_bytes (NDir ch)) ∧ tree_height (NDir ch) ≤ bound) →
  (total <= u64_max)%N → dir_bytes_loop sub_bytes dir total children = Ok n →
  n = N.min u64_max (total + tree_bytes (NDir children)) ∧ tree_height (NDir children) ≤ S bound.
Proof.
  intros Hsub. revert total. induction children as [|[name nd] ch IH]; intros total Htot.
  { cbn. intros [= <-]. split; lia. }
  cbn [dir_bytes_loop]. destruct (io_fails _); [done|].
  destruct nd as [d a|sub|len t|].
  2: destruct (sub_bytes _ sub) as [b|] eqn:Hb; [apply Hsub in Hb as [-> Hh]|done].
  all: intros [-> Hhs]%IH; [|unfold sat_add64; lia].
  all: unfold sat_add64; cbn [tree_bytes tree_height] in *; split; lia.
Qed.

(** A measured directory was measured whole. *)
Lemma dir_bytes_exact depth dir children n :
  dir_bytes depth dir children = Ok n →
  n = N.min u64_max (tree_bytes (NDir children)) ∧ tree_height (NDir children) ≤ depth.
Proof.
  revert dir children n. induction depth as [|depth IH]; intros dir children n; [done|].
  cbn [dir_bytes]. destruct (io_fails (IoReadDir dir)); [done|].
  intros Hn. eapply dir_bytes_loop_exact in Hn; [done|exact IH|lia].
Qed.

Lemma dir_bytes_total depth dir children :
  (∀ op, io_fails op = false) → tree_height (NDir children) ≤ depth →
  is_ok (dir_bytes depth dir children) = true.
Proof.
  intros Hio. revert dir children. induction depth as [|depth IH]; intros dir children Hh.
  { cbn in Hh. lia. }
  cbn [dir_bytes]. rewrite Hio. generalize 0%N as total.
  induction children as [|[name nd] ch IHch]; intros total; [done|].
  cbn [dir_bytes_loop]. rewrite Hio. cbn [tree_height] in *.
  destruct nd as [d a|sub|len t|]; try (apply IHch; lia).
  assert (is_ok (dir_bytes depth (path_join dir name) sub) = true) as Hs by (apply IH; cbn [tree_height] in *; lia).
  destruct (dir_bytes depth _ sub); [|done]. apply IHch. lia.
Qed.

(** Compare two triples componentwise. *)
Ltac triple := apply (f_equal2 pair); [apply (f_equal2 pair)|].

Definition b2N (b : bool) : N := if b then 1%N else 0%N.

Lemma counted_spec name :
  negb (is_reserved_sidecar_name name) && is_ok (path_for name) = bool_decide (valid_name name).
Proof.
  unfold path_for. case_bool_decide as Hv.
  - unfold valid_name in Hv. rewrite Hv.
    destruct (is_reserved_sidecar_name name) eqn:Hr; [|done]. by apply reserved_invalid in Hr.
  - unfold valid_name in Hv. destruct (validate_artifact_name name) as [[]|]; [done|].
    apply andb_false_r.
Qed.

Lemma usage_entry_exact used arts prefs name nd acc :
  (used <= u64_max)%N → usage_entry (used, arts, prefs) name nd = Ok acc →
  acc = (N.min u64_max (used + entry_bytes (name, nd)),
         arts + b2N (bool_decide (counts_as_artifact (name, nd))),
         prefs + b2N (bool_decide (counts_as_prefix (name, nd))))%N.
Proof.
  intros Hu. unfold usage_entry. rewrite counted_spec. destruct (io_fails _); [done|].
  destruct nd as [d a|ch|len t|].
  - intros [= <-]. rewrite (bool_decide_false (counts_as_prefix _)) by (by intros []).
    rewrite (bool_decide_ext (counts_as_artifact _) (valid_name name)) by (by unfold counts_as_artifact; cbn; tauto).
    cbn [entry_bytes snd fst tree_bytes b2N]. unfold sat_add64.
    triple; [done|case_bool_decide; cbn [b2N]; lia|lia].
  - rewrite (bool_decide_false (counts_as_artifact _)) by (by intros []).
    unfold entry_bytes. cbn [fst snd]. case_decide as Hs.
    + intros [= <-]. rewrite bool_decide_false by (by intros []). cbn [b2N]. triple; lia.
    + destruct (dir_bytes _ name ch) as [b|] eqn:Hb; [|done]. intros [= <-].
      apply dir_bytes_exact in Hb as [-> _]. rewrite bool_decide_true by done.
      unfold sat_add64. cbn [b2N]. triple; lia.
  - intros [= <-]. rewrite !bool_decide_false by (by intros []).
    unfold sat_add64. cbn [entry_bytes snd fst tree_bytes node_len b2N]. triple; lia.
  - intros [= <-]. rewrite (bool_decide_false (counts_as_prefix _)) by (by intros []).
    rewrite (bool_decide_ext (counts_as_artifact _) (valid_name name)) by (by unfold counts_as_artifact; cbn; tauto).
    cbn [entry_bytes snd fst tree_bytes b2N]. unfold sat_add64.
    triple; [done|case_bool_decide; cbn [b2N]; lia|lia].
Qed.

Lemma usage_loop_exact l used arts prefs acc :
  (used <= u64_max)%N → usage_loop (used, arts, prefs) l = Ok acc →
  acc = (N.min u64_max (used + sum_bytes l),
         arts + N.of_nat (length (filter counts_as_artifact l)),
         prefs + N.of_nat (length (filter counts_as_prefix l)))%N.
Proof.
  revert used arts prefs. induction l as [|[name nd] l IH]; intros used arts prefs Hu.
  { cbn [usage_loop sum_bytes foldr filter list_filter length]. intros [= <-]. triple; lia. }
  cbn [usage_loop]. destruct (usage_entry _ name nd) as [acc'|] eqn:He; [|done].
  apply usage_entry_exact in He as ->; [|done]. intros Hl. apply IH in Hl; [|lia].
  rewrite Hl, !filter_cons. clear Hl IH.
  change (sum_bytes ((name, nd) :: l)) with (entry_bytes (name, nd) + sum_bytes l)%N.
  triple; [lia| |]; case_bool_decide; case_decide; try done; cbn [b2N length]; lia.
Qed.
End usage_facts.

(** ** Reading back *)

Section info_facts.
Context `{StoreEnv}.

(** [info] reads the artifact's own entry and, for a file, its sidecar. *)
Lemma info_ext fs1 fs2 m :
  (valid_name m → fs1 !! m = fs2 !! m) →
  (valid_name m → fs_is_file fs1 m = true → fs1 !! sidecar_path m = fs2 !! sidecar_path m) →
  info fs1 m = info fs2 m.
Proof.
  intros Hm Hs. unfold info. destruct (is_reserved_sidecar_name m); [done|].
  destruct (path_for m) as [p|] eqn:Hp; [|done]. apply path_for_Ok in Hp as [Hv ->].
  specialize (Hm Hv). specialize (Hs Hv). unfold fs_is_file in *. rewrite <- Hm.
  destruct (fs1 !! m) as [nd|] eqn:E; [|done]. destruct (node_is_file nd); [|done].
  unfold artifact_info, read_sidecar. rewrite <- Hm, E. by rewrite Hs.
Qed.

Lemma info_absent fs m : valid_name m → fs !! m = None → info fs m = Err ENotFound.
Proof.
  intros Hv Hm. unfold info. destruct (is_reserved_sidecar_name m); [done|].
  destruct (path_for m) as [p|] eqn:Hp.
  - apply path_for_Ok in Hp as [_ ->]. unfold fs_is_file. by rewrite Hm.
  - assert (path_for m = Ok m) by (by apply path_for_Ok). congruence.
Qed.

Lemma info_published fs name data :
  valid_name name →
  info (published fs name data) name =
  Ok {| ai_name := name; ai_size_bytes := str_len data; ai_sha256 := hex_sha256 data |}.
Proof.
  intros Hv. unfold info.
  destruct (is_reserved_sidecar_name name) eqn:Hr; [by apply reserved_invalid in Hr|].
  assert (path_for name = Ok name) as -> by (by apply path_for_Ok).
  assert (published fs name data !! name = Some (NFile data (Some 0%N))) as Hn.
  { unfold published. rewrite lookup_insert_ne by apply sidecar_ne. apply lookup_insert_eq. }
  unfold fs_is_file, artifact_info. rewrite Hn. cbn.
  erewrite read_sidecar_hex by (apply lookup_insert_eq). done.
Qed.

Lemma info_published_frame fs name data m :
  valid_name name → m ≠ name → info (published fs name data) m = info fs m.
Proof.
  intros Hv Hne. apply info_ext.
  - intros Hm. unfold published.
    by rewrite lookup_insert_ne, lookup_insert_ne by eauto with vmcell.
  - intros Hm _. unfold published. rewrite lookup_insert_ne.
    + by rewrite lookup_insert_ne by (apply not_eq_sym; auto with vmcell).
    + intros ?%sidecar_inj. congruence.
Qed.

(** What [info] accepts, entry by entry: the filters of [list]. *)
Lemma list_entry_info fs name nd i :
  fs !! name = Some nd → list_entry fs (name, nd) = Some i ↔ ai_name i = name ∧ info fs name = Ok i.
Proof.
  intros Hn. unfold list_entry, info, fs_is_file.
  assert (∀ j, artifact_info fs name = Ok j → ai_name j = name) as Hname.
  { intros j. unfold artifact_info, ok_or. intros Hj.
    repeat case_match; try discriminate; by injection Hj as <-. }
  destruct (is_reserved_sidecar_name name); [by destruct (node_is_file nd); naive_solver|].
  destruct (path_for name) as [p|] eqn:Hp; cbn; [|by destruct (node_is_file nd); naive_solver].
  apply path_for_Ok in Hp as [_ ->]. rewrite Hn.
  destruct (node_is_file nd); cbn; [|naive_solver].
  destruct (artifact_info fs name); naive_solver.
Qed.

Lemma info_Ok_entry fs name i : info fs name = Ok i → is_Some (fs !! name) ∧ ai_name i = name.
Proof.
  intros Hi. destruct (fs !! name) as [nd|] eqn:Hn.
  - split; [done|]. unfold info in Hi. destruct (is_reserved_sidecar_name name); [done|].
    destruct (path_for name); [|done]. destruct (negb _); [done|].
    unfold artifact_info, ok_or in Hi. repeat case_match; try discriminate; by injection Hi as <-.
  - unfold info in Hi. destruct (is_reserved_sidecar_name name); [done|].
    destruct (path_for name) as [p|] eqn:Hp; [|done]. apply path_for_Ok in Hp as [_ ->].
    unfold fs_is_file in Hi. by rewrite Hn in Hi.
Qed.
End info_facts.

(** ** Sorting *)

Definition info_le (a b : ArtifactInfo) : Prop := String.leb (ai_name a) (ai_name b) = true.

Lemma insert_info_perm x l : insert_info x l ≡ₚ x :: l.
Proof.
  induction l as [|y l IH]; cbn; [done|]. case_match; [done|]. rewrite IH. constructor.
Qed.

Lemma sort_infos_perm l : sort_infos l ≡ₚ l.
Proof.
  induction l as [|x l IH]; cbn; [done|]. rewrite insert_info_perm. by constructor.
Qed.

Lemma info_le_total a b : info_le a b ∨ info_le b a.
Proof. unfold info_le. apply String.leb_total. Qed.

Lemma insert_info_sorted x l : Sorted info_le l → Sorted info_le (insert_info x l).
Proof.
  induction 1 as [|y l Hl IH Hy]; cbn; [by repeat constructor|].
  case_match eqn:E; [by repeat constructor|].
  assert (info_le y x) as Hyx by (destruct (info_le_total x y); unfold info_le in *; congruence).
  constructor; [done|]. destruct Hy as [|z l Hyz]; cbn; [by constructor|].
  case_match; by constructor.
Qed.

Lemma sort_infos_sorted l : Sorted info_le (sort_infos l).
Proof. induction l as [|x l IH]; cbn; [constructor|by apply insert_info_sorted]. Qed.

(** ** Residue *)

Section gc_facts.
Context `{StoreEnv}.

(** Residue of the given age: an abandoned upload, or a sidecar whose
    artifact is absent from [fs']. *)
Definition residue (fs fs' : gmap string node) (min_age : N) (n : string) : Prop :=
  ∃ d a, fs !! n = Some (NFile d a) ∧ older_than a min_age = true ∧
    (starts_with UPLOAD_TEMP_PREFIX n = true ∨
     (is_reserved_sidecar_name n = true ∧ artifact_present fs' n = false)).

Lemma artifact_present_mono fs fs' n :
  (∀ m, fs' !! m = fs !! m ∨ fs' !! m = None) →
  artifact_present fs n = false → artifact_present fs' n = false.
Proof.
  unfold artifact_present, fs_exists. intros Hsub [-> Hf]%orb_false_iff. cbn.
  by destruct (Hsub (artifact_of n)) as [-> | ->].
Qed.

Lemma gc_class_Some fs n nd b :
  gc_class fs n nd = Some b →
  (∃ d a, nd = NFile d a) ∧
  (starts_with UPLOAD_TEMP_PREFIX n = true ∨
   (is_reserved_sidecar_name n = true ∧ artifact_present fs n = false)).
Proof.
  unfold gc_class. destruct nd as [d a| | |]; try done. intros Hc. split; [by eauto|].
  destruct (starts_with _ n); [by left|].
  destruct (is_reserved_sidecar_name n), (artifact_present fs n); naive_solver.
Qed.

(** The pass only deletes, and only residue. *)
Lemma gc_loop_sound min_age entries report fs r fs' :
  (∀ n nd, (n, nd) ∈ entries → fs !! n = Some nd) → NoDup entries.*1 →
  gc_loop min_age report fs entries = (r, fs') →
  ∀ n, fs' !! n = fs !! n ∨ (fs' !! n = None ∧ residue fs fs' min_age n).
Proof.
  revert report fs. induction entries as [|[m nd] rest IH]; intros report fs Hin Hnd; cbn [gc_loop].
  { intros [= <- <-]. by left. }
  cbn in Hnd. apply NoDup_cons in Hnd as [Hm Hnd].
  assert (∀ n nd, (n, nd) ∈ rest → fs !! n = Some nd) as Hin'
    by (intros; apply Hin; by apply list_elem_of_further).
  destruct (io_fails _); [intros [= <- <-]; by left|].
  destruct (gc_class fs m nd) as [b|] eqn:Hc; [|by apply IH].
  destruct (older_than _ _) eqn:Ho; [|by apply IH]. destruct (io_fails _); [by apply IH|].
  cbn [negb]. intros Hgc.
  assert (∀ n nd, (n, nd) ∈ rest → delete m fs !! n = Some nd) as Hin2.
  { intros n nd' Hn. rewrite lookup_delete_ne; [by apply Hin'|]. intros <-.
    apply Hm. apply list_elem_of_fmap. by exists (m, nd'). }
  specialize (IH _ _ Hin2 Hnd Hgc). clear Hgc. rename IH into Hgc.
  assert (∀ k, fs' !! k = fs !! k ∨ fs' !! k = None) as Hsub.
  { intros k. destruct (Hgc k) as [Hk|[Hk _]]; [|by right]. rewrite Hk.
    destruct (decide (m = k)) as [->|]; [right; apply lookup_delete_eq|].
    left. by rewrite lookup_delete_ne. }
  intros n. destruct (decide (m = n)) as [->|Hne].
  - right. assert (fs' !! n = None) as Hn'.
    { destruct (Hgc n) as [-> |[? _]]; [apply lookup_delete_eq|done]. }
    split; [done|]. apply gc_class_Some in Hc as [(d & a & ->) Hcl].
    exists d, a. split_and!; [apply Hin; apply list_elem_of_here|done|].
    destruct Hcl as [|[? ?]]; [by left|right]. split; [done|]. by eapply artifact_present_mono.
  - destruct (Hgc n) as [Hk|[Hk (d & a & Hd & Hrest)]].
    + left. by rewrite lookup_delete_ne in Hk.
    + right. split; [done|]. exists d, a. by rewrite lookup_delete_ne in Hd.
Qed.

(** With no failing system call, all residue goes. *)
Lemma gc_loop_complete min_age entries report fs r fs' n nd :
  (∀ op, io_fails op = false) → NoDup entries.*1 →
  gc_loop min_age report fs entries = (r, fs') →
  is_ok r = true ∧
  ((n, nd) ∈ entries → fs !! n = Some nd → residue fs fs min_age n → fs' !! n = None) ∧
  (fs !! n = None → fs' !! n = None).
Proof.
  intros Hio. revert report fs. induction entries as [|[m md] rest IH];
    intros report fs Hnd; cbn [gc_loop].
  { intros [= <- <-]. split_and!; [done| |done]. by intros ?%not_elem_of_nil. }
  cbn in Hnd. apply NoDup_cons in Hnd as [Hm Hnd]. rewrite !Hio.
  destruct (decide (n = m)) as [->|Hne].
  - assert (residue fs fs min_age m → fs !! m = Some md →
      gc_class fs m md ≠ None ∧ older_than (node_age md) min_age = true) as Hres.
    { intros (d & a & Hd & Ho & Hcl) Hmd. assert (md = NFile d a) as -> by congruence.
      split; [|done]. unfold gc_class. destruct Hcl as [-> |[-> ->]]; [done|].
      by destruct (starts_with _ _). }
    intros Hgc. split_and!.
    + repeat case_match; eapply IH in Hgc as [? _]; done.
    + intros [Heq|Hin]%elem_of_cons Hmd Hr.
      * injection Heq as ->. destruct (Hres Hr Hmd) as [Hc Ho]. rewrite Ho in Hgc.
        destruct (gc_class fs m md); [|done]. cbn in Hgc.
        eapply IH in Hgc as (_ & _ & Hn); [|done]. apply Hn, lookup_delete_eq.
      * exfalso. apply Hm, list_elem_of_fmap. by exists (m, nd).
    + intros Hn. repeat case_match; eapply IH in Hgc as (_ & _ & Hn'); try done; apply Hn';
        rewrite ?lookup_delete_eq; done.
  - intros Hgc. repeat case_match; eapply IH in Hgc as (Hok & Hc & Hn); try done.
    all: split_and!; [done|intros [Heq|Hin]%elem_of_cons Hmd Hr; [naive_solver|]|].
    all: try (by apply Hc); try done.
    + apply Hc; [done|by rewrite lookup_delete_ne|].
      destruct Hr as (d & a & Hd & Ho & Hcl). exists d, a. rewrite lookup_delete_ne by done.
      split_and!; [done..|]. destruct Hcl as [|[? ?]]; [by left|right]. split; [done|].
      eapply artifact_present_mono; [|done]. intros k.
      destruct (decide (m = k)) as [->|]; [right; apply lookup_delete_eq|left].
      by rewrite lookup_delete_ne.
    + intros Hnone. apply Hn. by rewrite lookup_delete_ne.
Qed.

Lemma read_dir_entries fs :
  (∀ n nd, (n, nd) ∈ read_dir fs ↔ fs !! n = Some nd) ∧ NoDup (read_dir fs).*1.
Proof.
  split.
  - intros n nd. by rewrite read_dir_perm, elem_of_map_to_list.
  - rewrite read_dir_perm. apply NoDup_fst_map_to_list.
Qed.

(** An artifact's entry, and a file's sidecar, are never residue. *)
Lemma residue_not_valid fs fs' min_age n : residue fs fs' min_age n → ¬ valid_name n.
Proof.
  intros (d & a & _ & _ & [Hp|[Hr _]]) Hv; [|by apply reserved_invalid in Hr].
  by apply (temp_ne_valid n n Hp Hv).
Qed.

Lemma residue_sidecar fs fs' min_age m :
  valid_name m → residue fs fs' min_age (sidecar_path m) → fs_is_file fs' m = false.
Proof.
  intros Hv (d & a & _ & _ & [Hp|[_ Ha]]); [by apply (temp_ne_sidecar _ m) in Hp|].
  unfold artifact_present in Ha. rewrite artifact_of_sidecar in Ha.
  apply orb_false_iff in Ha as [_ Ha]. unfold fs_exists, fs_is_file in *.
  destruct (fs' !! m) as [[| |? []|]|]; done.
Qed.
End gc_facts.

(** ** The contract of the store *)

Section contract.
Context `{StoreEnv}.

(** Under [finish], chunks have been concatenated: the writer after them all. *)
Lemma write_chunks_concat chunks fs0 w fs :
  (∀ n, io_fails (IoWrite n) = false) → writer_on fs0 w fs →
  write_chunks w fs chunks =
  if (w_limit w <? str_len (w_hashed w +:+ concat_chunks chunks))%N then (Err EPayloadTooLarge, fs0)
  else finish {| w_name := w_name w; w_tmp := w_tmp w;
                 w_hashed := w_hashed w +:+ concat_chunks chunks;
                 w_written := str_len (w_hashed w +:+ concat_chunks chunks);
                 w_limit := w_limit w |}
         (<[w_tmp w := NFile (w_hashed w +:+ concat_chunks chunks) (Some 0%N)]> fs0).
Proof.
  intros Hio. revert w fs. induction chunks as [|c cs IH]; intros w fs Hw.
  - destruct Hw as (_ & _ & _ & Hlen & Hle & _ & ->). destruct w. cbn in *.
    rewrite append_nil_r. subst. destruct (N.ltb_spec w_limit0 (str_len w_hashed0)); [lia|done].
  - cbn [write_chunks concat_chunks foldr]. unfold write_chunk.
    pose proof (drop_writer_on _ _ _ Hw) as Hdrop.
    destruct Hw as (Htmp & Hpre & Hv & Hlen & Hle & Hmax & Hfs). rewrite Hio, Hdrop, Hlen.
    fold (concat_chunks cs). unfold sat_add64.
    destruct (N.ltb_spec (w_limit w) (N.min u64_max (str_len (w_hashed w) + str_len c))) as [Ho|Ho].
    + destruct (N.ltb_spec (w_limit w) (str_len (w_hashed w +:+ c +:+ concat_chunks cs))) as [|Hx];
        [done|]. exfalso. unfold str_len in *. rewrite !length_append in Hx. lia.
    + rewrite <- append_assoc, IH; [done|]. unfold writer_on, str_len in *. cbn.
      rewrite length_append, Hfs, insert_insert_eq. split_and!; try done; lia.
Qed.
End contract.

(** C16: an upload is all or nothing.  Whatever the chunks are and whichever
    system call fails, a successful upload leaves exactly the old directory
    with the artifact and its digest sidecar added, under a name that was free,
    holding the concatenation of the chunks and at most [max_bytes] of them;
    a failed one leaves the directory as it was, the only exception being a
    failed sidecar write whose roll-back also fails. *)
Theorem upload_all_or_nothing `{StoreEnv} st fs name tmp chunks :
  (max_bytes st < u64_max)%N → fs !! tmp = None → starts_with UPLOAD_TEMP_PREFIX tmp = true →
  match upload st fs name tmp chunks with
  | (Ok i, fs') =>
      fs !! name = None ∧ (str_len (concat_chunks chunks) <= max_bytes st)%N ∧
      ai_name i = name ∧ ai_size_bytes i = str_len (concat_chunks chunks) ∧
      ai_sha256 i = hex_sha256 (concat_chunks chunks) ∧
      fs' = published fs name (concat_chunks chunks)
  | (Err _, fs') =>
      fs' = fs ∨
      (io_fails IoRollback = true ∧ fs !! name = None ∧
       fs' = <[name := NFile (concat_chunks chunks) (Some 0%N)]> fs)
  end.
Proof.
  intros Hmax Htmp Hpre.
  pose proof (upload_outcome_max st fs name tmp chunks Hmax Htmp Hpre) as Ho.
  destruct (upload st fs name tmp chunks) as [[i|e] fs']; cbn in Ho; [|done].
  destruct Ho as (? & ? & -> & ?). done.
Qed.

(** A host on which nothing fails and every digest is zero. *)
Definition quiet_host : StoreEnv := {|
  sha256 _ := replicate 32 "000"%char;
  io_fails _ := false;
  read_dir fs := map_to_list fs;
  rm_partial children := children;
  sha256_length _ := eq_refl;
  read_dir_perm fs := Permutation_refl (map_to_list fs);
|}.

Definition demo_store : ArtifactStore := with_quota (open_store 1024) (Some 4096%N).
Definition demo_tmp : string := ".vmcelld-tmp.x7".

Lemma upload_all_or_nothing_witness :
  (max_bytes demo_store < u64_max)%N ∧
  match @upload quiet_host demo_store ∅ "k1" demo_tmp ["ab"; "c"] with
  | (Ok i, fs') =>
      (∅ : gmap string node) !! "k1" = None ∧
      (str_len (concat_chunks ["ab"; "c"]) <= max_bytes demo_store)%N ∧
      ai_name i = "k1" ∧ ai_size_bytes i = str_len (concat_chunks ["ab"; "c"]) ∧
      ai_sha256 i = @hex_sha256 quiet_host (concat_chunks ["ab"; "c"]) ∧
      fs' = @published quiet_host ∅ "k1" (concat_chunks ["ab"; "c"])
  | (Err _, fs') =>
      fs' = ∅ ∨
      (@io_fails quiet_host IoRollback = true ∧ (∅ : gmap string node) !! "k1" = None ∧
       fs' = <["k1" := NFile (concat_chunks ["ab"; "c"]) (Some 0%N)]> ∅)
  end.
Proof.
  split; [vm_compute; reflexivity|].
  apply (@upload_all_or_nothing quiet_host demo_store ∅ "k1" demo_tmp ["ab"; "c"]);
    vm_compute; reflexivity.
Defined.

(** The round trip of an upload: [info] on the stored name answers with
    exactly the record the upload returned, and what [info] says of every
    other name is unchanged. *)
Theorem upload_info_roundtrip `{StoreEnv} st fs name tmp chunks i fs' :
  (max_bytes st < u64_max)%N → fs !! tmp = None → starts_with UPLOAD_TEMP_PREFIX tmp = true →
  upload st fs name tmp chunks = (Ok i, fs') →
  info fs' name = Ok i ∧ ∀ m, m ≠ name → info fs' m = info fs m.
Proof.
  intros Hmax Htmp Hpre Hup.
  pose proof (upload_outcome_max st fs name tmp chunks Hmax Htmp Hpre) as Ho.
  rewrite Hup in Ho. destruct Ho as (_ & _ & -> & ->).
  assert (valid_name name) as Hv.
  { unfold upload, create_streaming in Hup. destruct (is_reserved_sidecar_name name); [done|].
    destruct (path_for name) as [p|] eqn:Hp; [by apply path_for_Ok in Hp as [? _]|done]. }
  split; [by apply info_published|]. intros m Hne. by apply info_published_frame.
Qed.

Lemma upload_info_roundtrip_witness :
  ∃ i fs',
    @upload quiet_host demo_store ∅ "k1" demo_tmp ["ab"; "c"] = (Ok i, fs') ∧
    @info quiet_host fs' "k1" = Ok i ∧
    ∀ m, m ≠ "k1" → @info quiet_host fs' m = @info quiet_host ∅ m.
Proof.
  assert (is_ok (@upload quiet_host demo_store ∅ "k1" demo_tmp ["ab"; "c"]).1 = true) as Hok
    by (vm_compute; reflexivity).
  destruct (@upload quiet_host demo_store ∅ "k1" demo_tmp ["ab"; "c"]) as [[i|e] fs'] eqn:Hu;
    [|discriminate Hok].
  exists i, fs'. split; [reflexivity|].
  apply (@upload_info_roundtrip quiet_host demo_store ∅ "k1" demo_tmp ["ab"; "c"] i fs');
    try (vm_compute; reflexivity). exact Hu.
Defined.

(** The chunking of the network is invisible.  When no write fails, feeding
    an upload any sequence of chunks gives the same answer, the same refusal
    and the same directory as handing [create] their concatenation at once. *)
Theorem chunking_irrelevant `{StoreEnv} st fs name tmp chunks :
  (max_bytes st < u64_max)%N → fs !! tmp = None → starts_with UPLOAD_TEMP_PREFIX tmp = true →
  (∀ n, io_fails (IoWrite n) = false) →
  upload st fs name tmp chunks = store_create st fs name tmp (concat_chunks chunks).
Proof.
  intros Hmax Htmp Hpre Hio. unfold store_create, upload.
  destruct (create_streaming st fs name tmp) as [[w fs']|e] eqn:Hc; [|done].
  destruct (create_streaming_on _ _ _ _ _ _ Hmax Htmp Hpre Hc) as (Hw & _).
  rewrite !(write_chunks_concat _ _ _ _ Hio Hw). cbn [concat_chunks foldr].
  by rewrite append_nil_r.
Qed.

Lemma chunking_irrelevant_witness :
  @upload quiet_host demo_store ∅ "k1" demo_tmp ["ab"; ""; "c"] =
  @store_create quiet_host demo_store ∅ "k1" demo_tmp "abc".
Proof.
  apply (@chunking_irrelevant quiet_host demo_store ∅ "k1" demo_tmp ["ab"; ""; "c"]);
    try (vm_compute; reflexivity).
Defined.

Section usage_walk.
Context `{StoreEnv}.

Lemma usage_loop_heights l acc acc' n ch :
  usage_loop acc l = Ok acc' → (n, NDir ch) ∈ l → n ≠ SCRATCH_DIR_NAME →
  tree_height (NDir ch) ≤ MAX_STORE_WALK_DEPTH.
Proof.
  revert acc. induction l as [|[m nd] l IH]; intros acc; [by intros _ ?%not_elem_of_nil|].
  cbn [usage_loop]. destruct (usage_entry acc m nd) as [acc1|] eqn:He; [|done].
  intros Hl [Heq|Hin]%elem_of_cons Hne; [|by eapply IH]. injection Heq as <- <-.
  unfold usage_entry in He. destruct acc as [[? ?] ?]. destruct (io_fails _); [done|].
  rewrite decide_False in He by done.
  destruct (dir_bytes _ n ch) eqn:Hb; [|done]. by apply dir_bytes_exact in Hb as [_ ?].
Qed.

Lemma usage_loop_total l acc :
  (∀ op, io_fails op = false) →
  (∀ n ch, (n, NDir ch) ∈ l → n ≠ SCRATCH_DIR_NAME → tree_height (NDir ch) ≤ MAX_STORE_WALK_DEPTH) →
  is_ok (usage_loop acc l) = true.
Proof.
  intros Hio. revert acc. induction l as [|[m nd] l IH]; intros acc Hh; [done|].
  assert (∀ acc, is_ok (usage_loop acc l) = true) as Hl.
  { intros acc'. apply IH. intros n ch Hin. apply Hh. by apply list_elem_of_further. }
  cbn [usage_loop]. unfold usage_entry. destruct acc as [[used arts] prefs]. rewrite Hio.
  destruct nd as [d a|ch|len t|]; try apply Hl. case_decide as Hs; [apply Hl|].
  assert (is_ok (dir_bytes MAX_STORE_WALK_DEPTH m ch) = true) as Hd.
  { apply dir_bytes_total; [done|]. apply (Hh m); [apply list_elem_of_here|done]. }
  destruct (dir_bytes _ m ch); [apply Hl|done].
Qed.

Lemma usage_spec st fs u :
  usage st fs = Ok u →
  used_bytes u = N.min u64_max (store_bytes fs) ∧
  artifact_count u = N.of_nat (length (filter counts_as_artifact (map_to_list fs))) ∧
  snapshot_prefix_count u = N.of_nat (length (filter counts_as_prefix (map_to_list fs))) ∧
  su_quota_bytes u = quota_bytes st.
Proof.
  unfold usage. destruct (io_fails _); [done|].
  destruct (usage_loop _ _) as [acc|] eqn:Hl; [|done].
  apply usage_loop_exact in Hl as ->; [|lia]. intros [= <-]. cbn [used_bytes artifact_count
    snapshot_prefix_count su_quota_bytes fst snd].
  unfold store_bytes. rewrite (sum_bytes_perm _ _ (read_dir_perm fs)).
  split_and!; try done; by rewrite read_dir_perm.
Qed.
End usage_walk.

(** [usage] is exact.  When it answers, the byte figure is the (saturating)
    sum over every entry of the directory, to any depth, the scratch directory
    alone excepted; the two counts are those of the valid-named non-link files
    and of the other directories; and no directory was deeper than the walk's
    cap, so there is no short count. *)
Theorem usage_exact `{StoreEnv} st fs u :
  usage st fs = Ok u →
  used_bytes u = N.min u64_max (store_bytes fs) ∧
  artifact_count u = N.of_nat (length (filter counts_as_artifact (map_to_list fs))) ∧
  snapshot_prefix_count u = N.of_nat (length (filter counts_as_prefix (map_to_list fs))) ∧
  (∀ n ch, fs !! n = Some (NDir ch) → n ≠ SCRATCH_DIR_NAME →
     tree_height (NDir ch) ≤ MAX_STORE_WALK_DEPTH).
Proof.
  intros Hu. destruct (usage_spec st fs u Hu) as (? & ? & ? & _). split_and!; try done.
  intros n ch Hn Hne. unfold usage in Hu. destruct (io_fails _); [done|].
  destruct (usage_loop _ _) as [acc|] eqn:Hl; [|done].
  eapply usage_loop_heights; [exact Hl| |done]. by apply read_dir_entries.
Qed.

(** [usage] does answer: when no system call fails and no snapshot prefix
    is deeper than the walk's cap, the measurement succeeds. *)
Theorem usage_total `{StoreEnv} st fs :
  (∀ op, io_fails op = false) →
  (∀ n ch, fs !! n = Some (NDir ch) → n ≠ SCRATCH_DIR_NAME →
     tree_height (NDir ch) ≤ MAX_STORE_WALK_DEPTH) →
  is_ok (usage st fs) = true.
Proof.
  intros Hio Hh. unfold usage. rewrite Hio.
  assert (is_ok (usage_loop (0, 0, 0)%N (read_dir fs)) = true) as Hok.
  { apply usage_loop_total; [done|]. intros n ch Hin. apply Hh. by apply read_dir_entries. }
  by destruct (usage_loop _ _).
Qed.

Definition demo_fs : gmap string node :=
  <["k1" := NFile "abc" (Some 9%N)]> (<["k1.sha256" := NFile "beef" (Some 9%N)]>
  (<["snap" := NDir [("mem", NFile "0123456789" (Some 5%N))]]>
  (<[".vmcell-scratch" := NDir [("d", NFile "zz" None)]]>
  (<[".vmcelld-tmp.old" := NFile "torn" (Some 7200%N)]>
  (<["gone.sha256" := NFile "dead" (Some 7200%N)]> ∅))))).

Lemma usage_exact_witness :
  ∃ u, @usage quiet_host demo_store demo_fs = Ok u ∧
  used_bytes u = N.min u64_max (store_bytes demo_fs) ∧
  artifact_count u = N.of_nat (length (filter counts_as_artifact (map_to_list demo_fs))) ∧
  snapshot_prefix_count u = N.of_nat (length (filter counts_as_prefix (map_to_list demo_fs))) ∧
  (∀ n ch, demo_fs !! n = Some (NDir ch) → n ≠ SCRATCH_DIR_NAME →
     tree_height (NDir ch) ≤ MAX_STORE_WALK_DEPTH).
Proof.
  eexists. split; [vm_compute; reflexivity|].
  apply (@usage_exact quiet_host demo_store demo_fs). vm_compute. reflexivity.
Defined.

Lemma usage_total_witness :
  is_ok (@usage quiet_host demo_store
           (<["snap" := NDir [("mem", NFile "0123456789" (Some 5%N))]]> ∅)) = true.
Proof.
  apply (@usage_total quiet_host demo_store); [reflexivity|].
  intros n ch [[<- [= <-]]|[_ [=]]]%lookup_insert_Some _. vm_compute. lia.
Defined.

Lemma store_bytes_published `{StoreEnv} fs name data :
  (store_bytes (published fs name data) <= store_bytes fs + str_len data + 64)%N.
Proof.
  unfold published. etrans; [apply store_bytes_insert|].
  pose proof (store_bytes_insert fs name (NFile data (Some 0%N))) as Hb.
  unfold entry_bytes in *. cbn [fst snd tree_bytes node_len] in *.
  unfold hex_sha256. rewrite hex_digest_length, sha256_length. lia.
Qed.

(** The quota.  An upload that succeeds held its bytes to the headroom
    measured when it was opened; the store afterwards is within the quota plus
    the 64 bytes of the digest sidecar, which the headroom does not reserve. *)
Theorem upload_within_quota `{StoreEnv} st fs name tmp chunks i fs' q u :
  (max_bytes st < u64_max)%N → fs !! tmp = None → starts_with UPLOAD_TEMP_PREFIX tmp = true →
  quota_bytes st = Some q → (q < u64_max)%N → usage st fs = Ok u →
  upload st fs name tmp chunks = (Ok i, fs') →
  (used_bytes u + ai_size_bytes i <= q)%N ∧
  (∀ u', usage st fs' = Ok u' → used_bytes u' <= q + 64)%N.
Proof.
  intros Hmax Htmp Hpre Hq Hq64 Hu Hup. unfold upload in Hup.
  destruct (create_streaming st fs name tmp) as [[w fs1]|e] eqn:Hc; [|done].
  destruct (create_streaming_on _ _ _ _ _ _ Hmax Htmp Hpre Hc) as (Hw & <- & Hh & _ & Hlim).
  destruct (Hlim q u Hq Hu) as [Hused Hl].
  pose proof (write_chunks_outcome chunks _ _ _ Hw) as Ho. rewrite Hup, Hh, append_nil_l in Ho.
  destruct Ho as (_ & Hlen & -> & ->). cbn [ai_size_bytes]. split; [lia|].
  intros u' Hu'. apply usage_spec in Hu as [Hu _], Hu' as [Hu' _].
  pose proof (store_bytes_published fs (w_name w) (concat_chunks chunks)). lia.
Qed.

Lemma upload_within_quota_witness :
  ∃ i fs' u,
    @upload quiet_host demo_store demo_fs "k2" demo_tmp ["hello"] = (Ok i, fs') ∧
    (used_bytes u + ai_size_bytes i <= 4096)%N ∧
    (∀ u', @usage quiet_host demo_store fs' = Ok u' → used_bytes u' <= 4096 + 64)%N.
Proof.
  assert (is_ok (@upload quiet_host demo_store demo_fs "k2" demo_tmp ["hello"]).1 = true) as Hok
    by (vm_compute; reflexivity).
  assert (is_ok (@usage quiet_host demo_store demo_fs) = true) as Huok by (vm_compute; reflexivity).
  destruct (@upload quiet_host demo_store demo_fs "k2" demo_tmp ["hello"]) as [[i|e] fs'] eqn:Hu;
    [|discriminate Hok].
  destruct (@usage quiet_host demo_store demo_fs) as [u|e] eqn:Hus; [|discriminate Huok].
  exists i, fs', u. split; [reflexivity|].
  apply (@upload_within_quota quiet_host demo_store demo_fs "k2" demo_tmp ["hello"] i fs' 4096 u);
    try (vm_compute; reflexivity); [exact Hus|exact Hu].
Defined.

(** The 64 bytes are real: with a quota of 10 bytes, an accepted five-byte
    upload into an empty store leaves it holding 69 bytes, and every later
    upload is refused. *)
Theorem quota_overshoot_by_sidecar :
  let st := with_quota (open_store 1024) (Some 10%N) in
  let out := @upload quiet_host st ∅ "k1" demo_tmp ["hello"] in
  is_ok out.1 = true ∧
  (used_bytes <$> match @usage quiet_host st out.2 with Ok u => Some u | Err _ => None end) = Some 69%N ∧
  (@upload quiet_host st out.2 "k2" demo_tmp ["x"]).1 = Err EPayloadTooLarge.
Proof. vm_compute. done. Qed.

Lemma omap_names_subset (f : string * node → option ArtifactInfo) l n :
  (∀ e i, f e = Some i → ai_name i = e.1) → n ∈ ai_name <$> omap f l → n ∈ l.*1.
Proof.
  intros Hf. rewrite !list_elem_of_fmap. intros (i & -> & (e & He & Hi)%list_elem_of_omap).
  exists e. split; [by apply Hf|done].
Qed.

Lemma omap_names_NoDup (f : string * node → option ArtifactInfo) l :
  (∀ e i, f e = Some i → ai_name i = e.1) → NoDup l.*1 → NoDup (ai_name <$> omap f l).
Proof.
  intros Hf. induction l as [|e l IH]; cbn; [constructor|]. rewrite NoDup_cons. intros [He Hl].
  destruct (f e) as [i|] eqn:Ei; cbn; [|by apply IH]. constructor; [|by apply IH].
  rewrite (Hf e i Ei). intros Hin. by apply omap_names_subset in Hin.
Qed.

(** [list] and [info] agree: the listing is exactly the set of records
    [info] gives, each name once, in byte order of the names. *)
Theorem list_is_info `{StoreEnv} fs l :
  list_artifacts fs = Ok l →
  (∀ i, i ∈ l ↔ info fs (ai_name i) = Ok i) ∧ NoDup (ai_name <$> l) ∧ Sorted info_le l.
Proof.
  unfold list_artifacts. destruct (io_fails _); [done|]. intros [= <-].
  destruct (read_dir_entries fs) as [Hin Hnd].
  assert (∀ e i, e ∈ read_dir fs → list_entry fs e = Some i ↔ ai_name i = e.1 ∧ info fs e.1 = Ok i)
    as Hent.
  { intros [n nd] i He. apply list_entry_info. by apply Hin. }
  split_and!; [|rewrite sort_infos_perm|apply sort_infos_sorted].
  - intros i. rewrite sort_infos_perm, list_elem_of_omap. split.
    + intros (e & He & Hi). apply Hent in Hi as [-> Hi]; done.
    + intros Hi. destruct (info_Ok_entry _ _ _ Hi) as [[nd Hn] _].
      exists (ai_name i, nd). apply Hin in Hn. split; [done|]. by apply Hent.
  - apply omap_names_NoDup; [|done]. intros [n nd] i. unfold list_entry, artifact_info, ok_or.
    intros Hi. repeat case_match; simplify_eq; done.
Qed.

Lemma list_is_info_witness :
  ∃ l, @list_artifacts quiet_host demo_fs = Ok l ∧
  (∀ i, i ∈ l ↔ @info quiet_host demo_fs (ai_name i) = Ok i) ∧
  NoDup (ai_name <$> l) ∧ Sorted info_le l.
Proof.
  eexists. split; [vm_compute; reflexivity|].
  apply (@list_is_info quiet_host demo_fs). vm_compute. reflexivity.
Defined.

(** Deleting frees exactly one name.  After a successful delete the name
    had an entry, no longer has one and reads back as not found, and [info] of
    every other name is unchanged; a refused or failed delete leaves the
    directory alone, except that an interrupted recursive removal may have
    emptied part of that one snapshot prefix. *)
Theorem delete_exact `{StoreEnv} fs name r fs' :
  store_delete fs name = (r, fs') →
  (∀ m, m ≠ name → info fs' m = info fs m) ∧
  match r with
  | Ok _ => valid_name name ∧ is_Some (fs !! name) ∧ fs' !! name = None ∧
            info fs' name = Err ENotFound
  | Err _ => fs' = fs ∨ ∃ ch, fs !! name = Some (NDir ch) ∧ fs' = <[name := NDir (rm_partial ch)]> fs
  end.
Proof.
  unfold store_delete.
  destruct (is_reserved_sidecar_name name); [intros [= <- <-]; by eauto|].
  destruct (path_for name) as [p|] eqn:Hp; [|intros [= <- <-]; by eauto].
  apply path_for_Ok in Hp as [Hv ->].
  assert (∀ m nd, m ≠ name → info (<[name := nd]> fs) m = info fs m) as Hins.
  { intros m nd Hne. apply info_ext; intros; rewrite lookup_insert_ne; try done.
    apply not_eq_sym. auto with vmcell. }
  assert (∀ m, m ≠ name → info (delete name fs) m = info fs m) as Hdel.
  { intros m Hne. apply info_ext; intros; rewrite lookup_delete_ne; try done.
    apply not_eq_sym. auto with vmcell. }
  destruct (fs !! name) as [[d a|ch|len t|]|] eqn:Hn; try (intros [= <- <-]; by eauto).
  - destruct (io_fails IoRemoveFile); intros [= <- <-]; [split; [done|by left]|].
    assert (remove_sidecar (delete name fs) name !! name = None) as Hnone.
    { unfold remove_sidecar. repeat case_match; rewrite ?lookup_delete_ne by apply sidecar_ne;
        apply lookup_delete_eq. }
    split; [|split_and!; [done|done|done|by apply info_absent]].
    intros m Hne. rewrite <- (Hdel m Hne). unfold remove_sidecar.
    assert (info (delete (sidecar_path name) (delete name fs)) m = info (delete name fs) m) as Hs.
    { apply info_ext; intros; rewrite lookup_delete_ne; auto with vmcell.
      intros ?%sidecar_inj. congruence. }
    by repeat case_match.
  - destruct (io_fails IoRemoveDir); intros [= <- <-].
    { split; [by intros m; apply Hins|]. right. by exists ch. }
    split; [done|]. split_and!; [done|done|apply lookup_delete_eq|].
    apply info_absent; [done|]. apply lookup_delete_eq.
Qed.

Lemma delete_exact_witness :
  ∃ r fs', @store_delete quiet_host demo_fs "k1" = (r, fs') ∧
  (∀ m, m ≠ "k1" → @info quiet_host fs' m = @info quiet_host demo_fs m) ∧
  match r with
  | Ok _ => valid_name "k1" ∧ is_Some (demo_fs !! "k1") ∧ fs' !! "k1" = None ∧
            @info quiet_host fs' "k1" = Err ENotFound
  | Err _ => fs' = demo_fs ∨
      ∃ ch, demo_fs !! "k1" = Some (NDir ch) ∧
            fs' = <["k1" := NDir (@rm_partial quiet_host ch)]> demo_fs
  end.
Proof.
  destruct (@store_delete quiet_host demo_fs "k1") as [r fs'] eqn:Hd.
  exists r, fs'. split; [reflexivity|]. exact (@delete_exact quiet_host demo_fs "k1" r fs' Hd).
Defined.

(** Residue collection is safe.  Whatever fails, and even when the pass
    stops half-way, it removes only regular files at least [min_age] old whose
    name is an upload temp file's or a sidecar's without its artifact; such a
    name is never an artifact's, and [info] answers as before for every
    name. *)
Theorem gc_safe `{StoreEnv} fs min_age r fs' :
  collect_residue fs min_age = (r, fs') →
  (∀ n, fs' !! n = fs !! n ∨
        (fs' !! n = None ∧ residue fs fs' min_age n ∧ ¬ valid_name n)) ∧
  (∀ m, info fs' m = info fs m).
Proof.
  intros Hgc.
  assert (∀ n, fs' !! n = fs !! n ∨ (fs' !! n = None ∧ residue fs fs' min_age n)) as Hs.
  { unfold collect_residue in Hgc. destruct (io_fails _); [injection Hgc as <- <-; by left|].
    destruct (read_dir_entries fs) as [Hin Hnd].
    eapply gc_loop_sound; [|exact Hnd|exact Hgc]. by apply Hin. }
  split.
  - intros n. destruct (Hs n) as [?|[? Hr]]; [by left|right].
    split_and!; [done|done|]. by eapply residue_not_valid.
  - intros m. apply info_ext.
    + intros Hv. destruct (Hs m) as [?|[_ Hr]]; [done|]. by apply residue_not_valid in Hr.
    + intros Hv Hf. destruct (Hs (sidecar_path m)) as [?|[_ Hr]]; [done|].
      apply residue_sidecar in Hr; [congruence|done].
Qed.

Lemma gc_safe_witness :
  ∃ r fs', @collect_residue quiet_host demo_fs 3600 = (r, fs') ∧
  (∀ n, fs' !! n = demo_fs !! n ∨
        (fs' !! n = None ∧ residue demo_fs fs' 3600 n ∧ ¬ valid_name n)) ∧
  (∀ m, @info quiet_host fs' m = @info quiet_host demo_fs m).
Proof.
  destruct (@collect_residue quiet_host demo_fs 3600) as [r fs'] eqn:Hd.
  exists r, fs'. split; [reflexivity|]. exact (@gc_safe quiet_host demo_fs 3600%N r fs' Hd).
Defined.

(** Residue collection is complete: when no system call fails the pass
    succeeds, and every abandoned upload and every sidecar without its artifact
    that has reached the age floor is gone. *)
Theorem gc_complete `{StoreEnv} fs min_age r fs' :
  (∀ op, io_fails op = false) → collect_residue fs min_age = (r, fs') →
  is_ok r = true ∧ ∀ n, residue fs fs min_age n → fs' !! n = None.
Proof.
  intros Hio. unfold collect_residue. rewrite Hio. intros Hgc.
  destruct (read_dir_entries fs) as [Hin Hnd]. split.
  - by eapply (gc_loop_complete _ _ _ _ _ _ "" NOther Hio Hnd) in Hgc as (? & _).
  - intros n Hr. pose proof Hr as (d & a & Hd & _).
    eapply (gc_loop_complete _ _ _ _ _ _ n (NFile d a) Hio Hnd) in Hgc as (_ & Hc & _).
    apply Hc; [by apply Hin|done|done].
Qed.

Lemma gc_complete_witness :
  ∃ r fs', @collect_residue quiet_host demo_fs 3600 = (r, fs') ∧
  is_ok r = true ∧ ∀ n, residue demo_fs demo_fs 3600 n → fs' !! n = None.
Proof.
  destruct (@collect_residue quiet_host demo_fs 3600) as [r fs'] eqn:Hd.
  exists r, fs'. split; [reflexivity|].
  exact (@gc_complete quiet_host demo_fs 3600%N r fs' (λ _, eq_refl) Hd).
Defined.
