(* ===== verification/Registry.v ===== *)
(** * The VM registry: programs and machine

    Models [crates/vmcell-daemon/src/registry.rs], the daemon's table of owned
    VMs.  Every async method of [Registry] is a [prog]: a tree of commands, one
    per step another thread of the runtime can observe (a lock, a read or write
    of a slot's status, a file-system call, a call through the VM handle).  The
    machine runs any number of such programs concurrently, one command at a
    time, and may cancel a task at an await point, which drops what it holds
    the way Rust's destructors do.

    The launcher, the VM handle and the VMM behind it are outside the model:
    the answer of every call to them is part of the scheduled event. *)

From S2P Require Import Prelude ArtifactName DaemonTypes ArtifactStore.

(** ** Identifiers *)

(** [splitmix64] and the opaque id [mint_id] renders from it. *)
Definition splitmix64 (x : N) : N :=
  let x := wrap64 (x + 0x9E3779B97F4A7C15) in
  let z := x in
  let z := wrap64 (N.lxor z (N.shiftr z 30) * 0xBF58476D1CE4E5B9) in
  let z := wrap64 (N.lxor z (N.shiftr z 27) * 0x94D049BB133111EB) in
  N.lxor z (N.shiftr z 31).

(** [format!("{:0k x}")]: [k] lowercase hex digits. *)
Fixpoint hex_fixed (k : nat) (n : N) (acc : string) : string :=
  match k with
  | O => acc
  | S k' => hex_fixed k' (n / 16) (String (hex_char (n mod 16)) acc)
  end.

Definition mint_id (seed n : N) : string :=
  let n := wrap64 n in
  "vm-" +:+ pretty n +:+ "-" +:+ hex_fixed 16 (splitmix64 (N.lxor seed n)) "".

(** ** Slots *)

Record SlotStatus := {
  st_state : VmState;
  st_snapshot_prefix : option string;
}.

(** One owned VM.  [sl_handle] is [VmInner::handle], a VM handle being named by
    its vmid; [sl_lock] is the task that holds the async mutex [inner]. *)
Record VmSlot := {
  sl_id : string;
  sl_vmid : N;
  sl_kernel : string;
  sl_rootfs : string;
  sl_extra_disks : list string;
  sl_vcpus : N;
  sl_mem_mib : N;
  sl_status : SlotStatus;
  sl_handle : option N;
  sl_lock : option N;
}.

Definition set_status (st : SlotStatus) (s : VmSlot) : VmSlot := {|
  sl_id := sl_id s; sl_vmid := sl_vmid s; sl_kernel := sl_kernel s; sl_rootfs := sl_rootfs s;
  sl_extra_disks := sl_extra_disks s; sl_vcpus := sl_vcpus s; sl_mem_mib := sl_mem_mib s;
  sl_status := st; sl_handle := sl_handle s; sl_lock := sl_lock s;
|}.
Definition set_handle (h : option N) (s : VmSlot) : VmSlot := {|
  sl_id := sl_id s; sl_vmid := sl_vmid s; sl_kernel := sl_kernel s; sl_rootfs := sl_rootfs s;
  sl_extra_disks := sl_extra_disks s; sl_vcpus := sl_vcpus s; sl_mem_mib := sl_mem_mib s;
  sl_status := sl_status s; sl_handle := h; sl_lock := sl_lock s;
|}.
Definition set_lock (o : option N) (s : VmSlot) : VmSlot := {|
  sl_id := sl_id s; sl_vmid := sl_vmid s; sl_kernel := sl_kernel s; sl_rootfs := sl_rootfs s;
  sl_extra_disks := sl_extra_disks s; sl_vcpus := sl_vcpus s; sl_mem_mib := sl_mem_mib s;
  sl_status := sl_status s; sl_handle := sl_handle s; sl_lock := o;
|}.

Definition slot_state (s : VmSlot) : VmState := st_state (sl_status s).

Definition set_state (to : VmState) (s : VmSlot) : VmSlot :=
  set_status {| st_state := to; st_snapshot_prefix := st_snapshot_prefix (sl_status s) |} s.

Definition transition_from (from to : VmState) (s : VmSlot) : VmSlot :=
  if decide (slot_state s = from) then set_state to s else s.

Definition set_prefix (p : option string) (s : VmSlot) : VmSlot :=
  set_status {| st_state := slot_state s; st_snapshot_prefix := p |} s.

(** The single delete-in-use predicate. *)
Definition pins (s : VmSlot) (artifact_name : string) : bool :=
  bool_decide (sl_kernel s = artifact_name) || bool_decide (sl_rootfs s = artifact_name) ||
  existsb (λ d, bool_decide (d = artifact_name)) (sl_extra_disks s) ||
  bool_decide (st_snapshot_prefix (sl_status s) = Some artifact_name).

Definition slot_info (s : VmSlot) : VmInfo := {|
  vi_id := sl_id s; vi_state := slot_state s; vi_vmid := sl_vmid s;
  vi_kernel := sl_kernel s; vi_rootfs := sl_rootfs s;
  vi_vcpus := sl_vcpus s; vi_mem_mib := sl_mem_mib s;
|}.

(** The slot [create] builds around a launched handle. *)
Definition new_slot (id : string) (req : CreateVmRequest) (vmid : N) : VmSlot := {|
  sl_id := id; sl_vmid := vmid;
  sl_kernel := rq_kernel req; sl_rootfs := rq_rootfs req;
  sl_extra_disks := ds_name <$> rq_extra_disks req;
  sl_vcpus := rq_vcpus req; sl_mem_mib := rq_mem_mib req;
  sl_status := {| st_state := Ready; st_snapshot_prefix := None |};
  sl_handle := Some vmid; sl_lock := None;
|}.

(** What [create] hands the launcher. *)
Record LaunchSpec := {
  ls_kernel : string;
  ls_rootfs : string;
  ls_vcpus : N;
  ls_mem_mib : N;
  ls_net : NetMode;
  ls_snapshotting : bool;
  ls_restore_from : option string;
  ls_extra_disks : list ExtraDiskSpec;
  ls_extra_kernel_args : list string;
  ls_init : option string;
  ls_steward_placement : StewardPlacementDto;
}.

Inductive VcpuVerb := Pause | Resume.
Definition verb_from (v : VcpuVerb) : VmState := match v with Pause => Ready | Resume => Paused end.
Definition verb_to (v : VcpuVerb) : VmState := match v with Pause => Paused | Resume => Ready end.

(** The calls through a VM handle other than [snapshot] and [shutdown]. *)
Inductive handle_call := HExec | HUsage | HVcpu (v : VcpuVerb).

(** ** Commands

    [B] is the type of the answer.  A slot is named by its location, the
    [Arc]'s identity, for which the number [mint_id] drew serves; a slot is on
    the heap from the moment it is in the table. *)
Inductive cmd : Set → Type :=
(* the VM table, behind its async mutex; the first three take and release it *)
| CLookup (id : string) : cmd (option N)
| CInsert (l : N) (id : string) (req : CreateVmRequest) (vmid : N) : cmd unit
| CRemove (l : N) : cmd unit
| CVmsLock : cmd (list N)
| CVmsUnlock : cmd unit
(* a slot's status, behind its sync mutex, and its immutable identity *)
| CState (l : N) : cmd VmState
| CSetState (l : N) (st : VmState) : cmd unit
| CTransition (l : N) (from to : VmState) : cmd unit
| CInfo (l : N) : cmd VmInfo
| CVmid (l : N) : cmd N
| CPins (l : N) (name : string) : cmd bool
| CPinClaim (l : N) (prefix : string) : cmd unit
| CPinDrop (l : N) : cmd unit
(* a slot's handle, behind its async mutex *)
| CLockInner (l : N) : cmd unit
| CUnlockInner (l : N) : cmd unit
| CHandleMut (l : N) : cmd bool
| CHandleCall (l : N) (call : handle_call) : cmd (result DaemonError N)
| CHandleSnapshot (l : N) (prefix : string) : cmd (result DaemonError unit)
| CTake (l : N) : cmd (option N)
| CShutdown (vmid : N) : cmd (result DaemonError unit)
(* launching *)
| CLaunchBegin : cmd unit
| CLaunch (spec : LaunchSpec) : cmd (result DaemonError N)
| CMint : cmd (N * string)
| CLaunchEnd : cmd unit
| CLaunches : cmd N
(* the artifact store *)
| CResolve (name : string) : cmd (result DaemonError unit)
| CIsDir (name : string) : cmd bool
| CQuota : cmd (result DaemonError unit)
| CMkdir (prefix : string) : cmd (result DaemonError unit)
| CRmdir (prefix : string) : cmd unit
| CReadDir (prefix : string) : cmd (result DaemonError (list string))
| CStoreDelete (name : string) : cmd (result DaemonError unit).

(** The await points, where a task can be cancelled. *)
Definition is_await {B} (c : cmd B) : bool :=
  match c with
  | CLookup _ | CInsert _ _ _ _ | CRemove _ | CVmsLock | CLockInner _ | CHandleCall _ _
  | CHandleSnapshot _ _ | CShutdown _ | CLaunch _ => true
  | _ => false
  end.

(** ** Programs *)

Inductive prog (A : Type) : Type :=
| Ret (a : A)
| Act {B : Set} (c : cmd B) (k : B → prog A).
Arguments Ret {A} _.
Arguments Act {A B} _ _.

#[export] Instance prog_bind : MBind prog :=
  fix bind {A B} (f : A → prog B) (p : prog A) : prog B :=
    match p with
    | Ret a => f a
    | Act c k => Act c (λ b, bind f (k b))
    end.

Definition call {B : Set} (c : cmd B) : prog B := Act c Ret.

(** [let! x := p in q] is [let x = p.await?; q]. *)
Notation "'let!' x ':=' p 'in' q" :=
  (mbind (λ r, match r with Ok x => q | Err err => Ret (Err err) end) p)
  (at level 10, x name, p at level 100, q at level 200) : rust_scope.

(** The scope of a slot's [inner] guard and of a [SnapshotPin]: every exit
    from the body passes through the release. *)
Definition with_inner {A} (l : N) (body : prog A) : prog A :=
  call (CLockInner l) ≫= λ _, body ≫= λ r, call (CUnlockInner l) ≫= λ _, Ret r.

Definition with_pin {A} (l : N) (prefix : string) (body : prog A) : prog A :=
  call (CPinClaim l prefix) ≫= λ _, body ≫= λ r, call (CPinDrop l) ≫= λ _, Ret r.

Definition slot (id : string) : prog (result DaemonError N) :=
  o ← call (CLookup id); Ret (ok_or o ENotFound).

Definition require_state (l : N) (want : VmState) : prog (result DaemonError unit) :=
  st ← call (CState l); Ret (if decide (st = want) then Ok tt else Err EConflict).

(** [handle_mut(&mut inner, id)?.op().await]. *)
Definition handle_mut_call (l : N) (hc : handle_call) : prog (result DaemonError N) :=
  b ← call (CHandleMut l);
  if b : bool then call (CHandleCall l hc) else Ret (Err ENotFound).

Definition exec (id : string) : prog (result DaemonError N) :=
  let! l := slot id in
  let! _ := require_state l Ready in
  with_inner l (
    let! _ := require_state l Ready in
    handle_mut_call l HExec).

Definition stats (id : string) : prog (result DaemonError N) :=
  let! l := slot id in
  with_inner l (handle_mut_call l HUsage).

Definition drive_vcpus (id : string) (verb : VcpuVerb) : prog (result DaemonError VmInfo) :=
  let! l := slot id in
  let! _ := require_state l (verb_from verb) in
  with_inner l (
    let! _ := require_state l (verb_from verb) in
    let! _ := handle_mut_call l (HVcpu verb) in
    _ ← call (CTransition l (verb_from verb) (verb_to verb));
    i ← call (CInfo l);
    Ret (Ok i)).

Definition pause (id : string) := drive_vcpus id Pause.
Definition resume (id : string) := drive_vcpus id Resume.

(** [files.sort()]. *)
Fixpoint insert_string (x : string) (l : list string) : list string :=
  match l with
  | [] => [x]
  | y :: l' => if String.leb x y then x :: l else y :: insert_string x l'
  end.
Definition sort_strings (l : list string) : list string := foldr insert_string [] l.

(** The body of [snapshot] under the pin. *)
Definition snapshot_write (l : N) (prefix : string)
    : prog (result DaemonError (string * list string)) :=
  let! _ := call (CMkdir prefix) in
  b ← call (CHandleMut l);
  result ←
    (if b : bool then
       _ ← call (CSetState l Snapshotting);
       r ← call (CHandleSnapshot l prefix);
       _ ← call (CTransition l Snapshotting Ready);
       Ret r
     else Ret (Err ENotFound));
  _ ← (if is_err result then call (CRmdir prefix) else Ret tt);
  let! _ := Ret result in
  let! files := call (CReadDir prefix) in
  Ret (Ok (prefix, sort_strings files)).

Definition snapshot (id artifact_prefix : string)
    : prog (result DaemonError (string * list string)) :=
  match validate_artifact_name artifact_prefix with
  | Err e => Ret (Err (EInvalidName e))
  | Ok _ =>
      let! _ := call CQuota in
      let! l := slot id in
      let! _ := require_state l Ready in
      with_inner l (
        let! _ := require_state l Ready in
        with_pin l artifact_prefix (snapshot_write l artifact_prefix))
  end.

Definition teardown_slot (l : N) : prog (result DaemonError unit) :=
  _ ← call (CSetState l Destroying);
  with_inner l (
    _ ← call (CRemove l);
    o ← call (CTake l);
    match o with
    | Some h => call (CShutdown h)
    | None => Ret (Ok tt)
    end).

Definition destroy (id : string) : prog (result DaemonError unit) :=
  let! l := slot id in teardown_slot l.

(** [vms.values().any(|s| s.pins(name))]. *)
Fixpoint any_pins (slots : list N) (name : string) : prog bool :=
  match slots with
  | [] => Ret false
  | l :: rest =>
      b ← call (CPins l name);
      if b : bool then Ret true else any_pins rest name
  end.

Definition is_artifact_in_use (name : string) : prog bool :=
  slots ← call CVmsLock;
  b ← any_pins slots name;
  _ ← call CVmsUnlock;
  Ret b.

Definition delete_artifact_if_unused (name : string) : prog (result DaemonError unit) :=
  slots ← call CVmsLock;
  used ← any_pins slots name;
  r ← (if used : bool then Ret (Err EInUse) else call (CStoreDelete name));
  _ ← call CVmsUnlock;
  Ret r.

Fixpoint teardown_each (slots : list N) : prog unit :=
  match slots with
  | [] => Ret tt
  | l :: rest => _ ← teardown_slot l; teardown_each rest
  end.

Definition shutdown_all : prog unit :=
  slots ← call CVmsLock;
  _ ← call CVmsUnlock;
  teardown_each slots.

(** [values().map(f).collect()] under the table's lock. *)
Fixpoint collect {B : Set} (f : N → cmd B) (slots : list N) : prog (list B) :=
  match slots with
  | [] => Ret []
  | l :: rest => x ← call (f l); xs ← collect f rest; Ret (x :: xs)
  end.

Fixpoint insert_vm (x : VmInfo) (l : list VmInfo) : list VmInfo :=
  match l with
  | [] => [x]
  | y :: l' => if String.leb (vi_id x) (vi_id y) then x :: l else y :: insert_vm x l'
  end.

Definition list_vms : prog (list VmInfo) :=
  slots ← call CVmsLock;
  infos ← collect CInfo slots;
  _ ← call CVmsUnlock;
  Ret (foldr insert_vm [] infos).

Definition get (id : string) : prog (result DaemonError VmInfo) :=
  let! l := slot id in
  i ← call (CInfo l);
  Ret (Ok i).

(** The answer is the vmids of the table and the in-flight count. *)
Definition live_ids : prog (list N * N) :=
  slots ← call CVmsLock;
  vmids ← collect CVmid slots;
  n ← call CLaunches;
  _ ← call CVmsUnlock;
  Ret (vmids, n).

(** [resolve_steward_placement]. *)
Definition resolve_steward_placement (req : CreateVmRequest)
    : result DaemonError StewardPlacementDto :=
  match rq_steward_placement req with
  | None => if rq_init req then Err EBadRequest else Ok PlacePid1
  | Some declared =>
      if negb (control_plane_retained declared) then Err EBadRequest else Ok declared
  end.

Fixpoint resolve_disks (disks : list ExtraDiskSpec) : prog (result DaemonError unit) :=
  match disks with
  | [] => Ret (Ok tt)
  | d :: rest => let! _ := call (CResolve (ds_name d)) in resolve_disks rest
  end.

Definition resolve_restore (from : option string) : prog (result DaemonError unit) :=
  match from with
  | None => Ret (Ok tt)
  | Some prefix =>
      match validate_artifact_name prefix with
      | Err e => Ret (Err (EInvalidName e))
      | Ok _ => b ← call (CIsDir prefix); Ret (if b : bool then Ok tt else Err EBadRequest)
      end
  end.

(** Everything [create] refuses before it launches; the answer is the launch
    specification, paths being named by their store entry. *)
Definition create_checks (req : CreateVmRequest) : prog (result DaemonError LaunchSpec) :=
  let! _ := call (CResolve (rq_kernel req)) in
  let! _ := call (CResolve (rq_rootfs req)) in
  if bool_decide (rq_command req = Some []) then Ret (Err EBadRequest) else
  if rq_snapshotting req && negb (snapshot_eligible (rq_net req)) then Ret (Err EBadRequest) else
  let! placement := Ret (resolve_steward_placement req) in
  let! _ := resolve_restore (rq_restore_from req) in
  let! _ := resolve_disks (rq_extra_disks req) in
  Ret (Ok {|
    ls_kernel := rq_kernel req; ls_rootfs := rq_rootfs req;
    ls_vcpus := rq_vcpus req; ls_mem_mib := rq_mem_mib req; ls_net := rq_net req;
    ls_snapshotting := rq_snapshotting req; ls_restore_from := rq_restore_from req;
    ls_extra_disks := rq_extra_disks req; ls_extra_kernel_args := rq_extra_kernel_args req;
    ls_init := rq_init req; ls_steward_placement := placement;
  |}).

(** The launch window, from [LaunchGuard::claim] to its drop. *)
Definition launch (req : CreateVmRequest) (spec : LaunchSpec) : prog (result DaemonError VmInfo) :=
  _ ← call CLaunchBegin;
  r ← call (CLaunch spec);
  match r with
  | Err e => _ ← call CLaunchEnd; Ret (Err e)
  | Ok vmid =>
      fresh ← call CMint;
      let info := slot_info (new_slot fresh.2 req vmid) in
      _ ← call (CInsert fresh.1 fresh.2 req vmid);
      _ ← call CLaunchEnd;
      Ret (Ok info)
  end.

Definition create (req : CreateVmRequest) : prog (result DaemonError (VmInfo * option N)) :=
  let! spec := create_checks req in
  let! info := launch req spec in
  match rq_command req with
  | None => Ret (Ok (info, None))
  | Some _ =>
      outcome ← exec (vi_id info);
      _ ← (if rq_ephemeral req || is_err outcome
           then _ ← destroy (vi_id info); Ret tt else Ret tt);
      Ret (match outcome with Ok o => Ok (info, Some o) | Err e => Err e end)
  end.

(** ** The machine *)

(** What the daemon is configured with: the id seed, the store and its host,
    and the iteration order of the VM table. *)
Class RegistryEnv := {
  seed : N;
  store : ArtifactStore;
  store_host :: StoreEnv;
  hash_order : gmap string N → list N;
  hash_order_perm vms : hash_order vms ≡ₚ (map_to_list vms).*2;
}.

Record Shared := {
  heap : gmap N VmSlot;
  vms : gmap string N;
  vms_lock : option N;
  counter : N;
  launches_in_flight : N;
  fs : gmap string node;
}.

Definition set_heap h s := {| heap := h; vms := vms s; vms_lock := vms_lock s;
  counter := counter s; launches_in_flight := launches_in_flight s; fs := fs s |}.
Definition set_vms v s := {| heap := heap s; vms := v; vms_lock := vms_lock s;
  counter := counter s; launches_in_flight := launches_in_flight s; fs := fs s |}.
Definition set_vms_lock o s := {| heap := heap s; vms := vms s; vms_lock := o;
  counter := counter s; launches_in_flight := launches_in_flight s; fs := fs s |}.
Definition set_counter n s := {| heap := heap s; vms := vms s; vms_lock := vms_lock s;
  counter := n; launches_in_flight := launches_in_flight s; fs := fs s |}.
Definition set_launches n s := {| heap := heap s; vms := vms s; vms_lock := vms_lock s;
  counter := counter s; launches_in_flight := n; fs := fs s |}.
Definition set_fs f s := {| heap := heap s; vms := vms s; vms_lock := vms_lock s;
  counter := counter s; launches_in_flight := launches_in_flight s; fs := f |}.

Definition upd_slot (l : N) (f : VmSlot → VmSlot) (s : Shared) : Shared :=
  set_heap (alter f l (heap s)) s.

(** The outside world's answer to one command: whether a plain system call
    works, what a call to the launcher or the handle returns, and what the VMM
    has written into the snapshot directory. *)
Record ext := {
  x_io : bool;
  x_res : result DaemonError N;
  x_files : list (string * node);
}.

Definition res_unit (r : result DaemonError N) : result DaemonError unit :=
  match r with Ok _ => Ok tt | Err e => Err e end.

(** [Registry::new]. *)
Definition registry_new (files : gmap string node) : Shared := {|
  heap := ∅; vms := ∅; vms_lock := None; counter := 1; launches_in_flight := 0; fs := files;
|}.

Section machine.
Context `{RegistryEnv}.

Definition resolve_existing (f : gmap string node) (name : string) : result DaemonError unit :=
  let? path := path_for name in
  if negb (fs_is_file f path) then Err EBadRequest else Ok tt.

Definition make_dir (f : gmap string node) (prefix : string) (io : bool)
    : result DaemonError unit * gmap string node :=
  match f !! prefix with
  | Some _ => (Err EAlreadyExists, f)
  | None => if io then (Ok tt, <[prefix := NDir []]> f) else (Err EInternal, f)
  end.

(** [remove_dir] succeeds on an empty directory only. *)
Definition remove_empty_dir (f : gmap string node) (prefix : string) (io : bool)
    : gmap string node :=
  match f !! prefix with
  | Some (NDir []) => if io then delete prefix f else f
  | _ => f
  end.

Definition read_back (f : gmap string node) (prefix : string) (io : bool)
    : result DaemonError (list string) :=
  match f !! prefix with
  | Some (NDir children) => if io then Ok children.*1 else Err EInternal
  | _ => Err EInternal
  end.

(** The VMM writes into the directory if it is still there. *)
Definition vmm_writes (f : gmap string node) (prefix : string) (files : list (string * node))
    : gmap string node :=
  match f !! prefix with
  | Some (NDir children) => <[prefix := NDir (children ++ files)]> f
  | _ => f
  end.

(** One command of task [t]; [None] while it is blocked on a lock. *)
Definition exec_cmd (t : N) (x : ext) {B : Set} (c : cmd B) (s : Shared) : option (B * Shared) :=
  match c in cmd B return option (B * Shared) with
  | CLookup id => guard (vms_lock s = None);; Some (vms s !! id, s)
  | CInsert l id req vmid =>
      guard (vms_lock s = None);;
      Some (tt, set_vms (<[id := l]> (vms s)) (set_heap (<[l := new_slot id req vmid]> (heap s)) s))
  | CRemove l =>
      guard (vms_lock s = None);;
      sl ← heap s !! l; Some (tt, set_vms (delete (sl_id sl) (vms s)) s)
  | CVmsLock => guard (vms_lock s = None);; Some (hash_order (vms s), set_vms_lock (Some t) s)
  | CVmsUnlock => Some (tt, set_vms_lock None s)
  | CState l => sl ← heap s !! l; Some (slot_state sl, s)
  | CSetState l st => Some (tt, upd_slot l (set_state st) s)
  | CTransition l from to => Some (tt, upd_slot l (transition_from from to) s)
  | CInfo l => sl ← heap s !! l; Some (slot_info sl, s)
  | CVmid l => sl ← heap s !! l; Some (sl_vmid sl, s)
  | CPins l name => sl ← heap s !! l; Some (pins sl name, s)
  | CPinClaim l prefix => Some (tt, upd_slot l (set_prefix (Some prefix)) s)
  | CPinDrop l => Some (tt, upd_slot l (set_prefix None) s)
  | CLockInner l =>
      sl ← heap s !! l;
      guard (sl_lock sl = None);; Some (tt, upd_slot l (set_lock (Some t)) s)
  | CUnlockInner l => Some (tt, upd_slot l (set_lock None) s)
  | CHandleMut l => sl ← heap s !! l; Some (bool_decide (is_Some (sl_handle sl)), s)
  | CHandleCall l hc => Some (x_res x, s)
  | CHandleSnapshot l prefix =>
      Some (res_unit (x_res x), set_fs (vmm_writes (fs s) prefix (x_files x)) s)
  | CTake l => sl ← heap s !! l; Some (sl_handle sl, upd_slot l (set_handle None) s)
  | CShutdown h => Some (res_unit (x_res x), s)
  | CLaunchBegin => Some (tt, set_launches (launches_in_flight s + 1) s)
  | CLaunch spec => Some (x_res x, s)
  | CMint =>
      let n := counter s in Some ((n, mint_id seed n), set_counter (n + 1) s)
  | CLaunchEnd => Some (tt, set_launches (launches_in_flight s - 1) s)
  | CLaunches => Some (launches_in_flight s, s)
  | CResolve name => Some (resolve_existing (fs s) name, s)
  | CIsDir name => Some (fs_is_dir (fs s) name, s)
  | CQuota => Some (match check_quota_headroom store (fs s) with Ok _ => Ok tt | Err e => Err e end, s)
  | CMkdir prefix => let '(r, f) := make_dir (fs s) prefix (x_io x) in Some (r, set_fs f s)
  | CRmdir prefix => Some (tt, set_fs (remove_empty_dir (fs s) prefix (x_io x)) s)
  | CReadDir prefix => Some (read_back (fs s) prefix (x_io x), s)
  | CStoreDelete name => let '(r, f) := store_delete (fs s) name in Some (r, set_fs f s)
  end%N.
End machine.

(** What a task holds: the guards alive in its scopes, in the combinations the
    programs can be in.  It decides what a cancellation drops. *)
Inductive held :=
| HNone
| HVms
| HInner (l : N)                       (* a slot's [inner] guard *)
| HBorrow (l : N)                      (* ... and the handle borrowed from it *)
| HPin (l : N) (prefix : string)       (* [inner] and a [SnapshotPin] *)
| HBorrowPin (l : N) (prefix : string)
| HDoomed (l : N)                      (* [inner], the slot out of the table *)
| HTaken (l vmid : N)                  (* [inner], and the handle taken out *)
| HLaunch                              (* a [LaunchGuard] *)
| HLaunched (vmid : N)                 (* ... and the new VM's handle *)
| HFresh (l : N) (id : string) (vmid : N).  (* ... in its slot, not yet inserted *)

(** How each command changes what is held; [None] is a command the discipline
    does not allow there. *)
Definition trans {B : Set} (h : held) (c : cmd B) : B → option held :=
  match c in cmd B return B → option held with
  | CLookup _ => λ _, match h with HNone => Some h | _ => None end
  | CInsert l id _ v => λ _, match h with
      | HFresh l' id' v' => if decide (l = l' ∧ id = id' ∧ v = v') then Some HLaunch else None
      | _ => None end
  | CRemove l => λ _, match h with
      | HInner l' => if decide (l = l') then Some (HDoomed l) else None | _ => None end
  | CVmsLock => λ _, match h with HNone => Some HVms | _ => None end
  | CVmsUnlock => λ _, match h with HVms => Some HNone | _ => None end
  | CSetState l st => λ _, match h, st with
      | HNone, Destroying => Some h
      | HBorrowPin l' _, Snapshotting => if decide (l = l') then Some h else None
      | _, _ => None end
  | CPinClaim l p => λ _, match h with
      | HInner l' => if decide (l = l') then Some (HPin l p) else None | _ => None end
  | CPinDrop l => λ _, match h with
      | HPin l' _ => if decide (l = l') then Some (HInner l) else None | _ => None end
  | CLockInner l => λ _, match h with HNone => Some (HInner l) | _ => None end
  | CUnlockInner l => λ _, match h with
      | HInner l' => if decide (l = l') then Some HNone else None | _ => None end
  | CHandleMut l => λ b, match h with
      | HInner l' => if decide (l = l') then Some (if b then HBorrow l else h) else None
      | HPin l' p => if decide (l = l') then Some (if b then HBorrowPin l p else h) else None
      | _ => None end
  | CHandleCall l _ => λ _, match h with
      | HBorrow l' => if decide (l = l') then Some (HInner l) else None | _ => None end
  | CHandleSnapshot l p => λ _, match h with
      | HBorrowPin l' p' => if decide (l = l' ∧ p = p') then Some (HPin l p) else None
      | _ => None end
  | CTake l => λ o, match h with
      | HDoomed l' => if decide (l = l')
                      then Some (match o with Some v => HTaken l v | None => HInner l end) else None
      | _ => None end
  | CShutdown v => λ _, match h with
      | HTaken l v' => if decide (v = v') then Some (HInner l) else None | _ => None end
  | CLaunchBegin => λ _, match h with HNone => Some HLaunch | _ => None end
  | CLaunch _ => λ r, match h with
      | HLaunch => Some (match r with Ok v => HLaunched v | Err _ => HLaunch end) | _ => None end
  | CMint => λ b, match h with HLaunched v => Some (HFresh b.1 b.2 v) | _ => None end
  | CLaunchEnd => λ _, match h with HLaunch => Some HNone | _ => None end
  | CQuota | CResolve _ | CIsDir _ => λ _, match h with HNone => Some h | _ => None end
  | CStoreDelete _ | CVmid _ | CPins _ _ | CLaunches => λ _,
      match h with HVms => Some h | _ => None end
  | CMkdir _ | CRmdir _ | CReadDir _ => λ _, match h with HPin _ _ => Some h | _ => None end
  | CTransition _ from _ => λ _, if decide (from = Destroying) then None else Some h
  | CState _ | CInfo _ => λ _, Some h
  end.

(** Dropping the guards, innermost first. *)
Definition drop_held (h : held) (s : Shared) : Shared :=
  match h with
  | HNone => s
  | HVms => set_vms_lock None s
  | HInner l | HBorrow l | HDoomed l | HTaken l _ => upd_slot l (set_lock None) s
  | HPin l _ | HBorrowPin l _ => upd_slot l (set_lock None) (upd_slot l (set_prefix None) s)
  | HLaunch | HLaunched _ | HFresh _ _ _ => set_launches (launches_in_flight s - 1) s
  end.

(** ** Requests and schedules *)

Inductive request :=
| QCreate (req : CreateVmRequest) | QList | QGet (id : string) | QExec (id : string)
| QStats (id : string) | QPause (id : string) | QResume (id : string)
| QSnapshot (id prefix : string) | QDestroy (id : string)
| QInUse (name : string) | QDelete (name : string) | QLiveIds | QShutdownAll.

Inductive reply :=
| ACreated (r : result DaemonError (VmInfo * option N)) | AList (l : list VmInfo)
| AInfo (r : result DaemonError VmInfo) | ACall (r : result DaemonError N)
| ASnapshot (r : result DaemonError (string * list string)) | AUnit (r : result DaemonError unit)
| ABool (b : bool) | ALive (r : list N * N).

Definition serve (q : request) : prog reply :=
  match q with
  | QCreate req => r ← create req; Ret (ACreated r)
  | QList => r ← list_vms; Ret (AList r)
  | QGet id => r ← get id; Ret (AInfo r)
  | QExec id => r ← exec id; Ret (ACall r)
  | QStats id => r ← stats id; Ret (ACall r)
  | QPause id => r ← pause id; Ret (AInfo r)
  | QResume id => r ← resume id; Ret (AInfo r)
  | QSnapshot id prefix => r ← snapshot id prefix; Ret (ASnapshot r)
  | QDestroy id => r ← destroy id; Ret (AUnit r)
  | QInUse name => r ← is_artifact_in_use name; Ret (ABool r)
  | QDelete name => r ← delete_artifact_if_unused name; Ret (AUnit r)
  | QLiveIds => r ← live_ids; Ret (ALive r)
  | QShutdownAll => _ ← shutdown_all; Ret (AUnit (Ok tt))
  end.

Record task := { t_held : held; t_prog : prog reply }.

Record state := { shared : Shared; tasks : gmap N task }.

Inductive event :=
| Spawn (t : N) (q : request)
| Run (t : N) (x : ext)
| Cancel (t : N).

Section steps.
Context `{RegistryEnv}.

Definition step (s : state) (e : event) : option state :=
  match e with
  | Spawn t q =>
      match tasks s !! t with
      | Some _ => None
      | None => Some {| shared := shared s;
                        tasks := <[t := {| t_held := HNone; t_prog := serve q |}]> (tasks s) |}
      end
  | Run t x =>
      T ← tasks s !! t;
      match t_prog T with
      | Ret _ => None
      | Act c k =>
          '(b, sh) ← exec_cmd t x c (shared s);
          Some {| shared := sh;
                  tasks := <[t := {| t_held := default (t_held T) (trans (t_held T) c b);
                                     t_prog := k b |}]> (tasks s) |}
      end
  | Cancel t =>
      T ← tasks s !! t;
      match t_prog T with
      | Act c _ =>
          if is_await c
          then Some {| shared := drop_held (t_held T) (shared s); tasks := delete t (tasks s) |}
          else None
      | Ret _ => None
      end
  end.

Fixpoint run (s : state) (es : list event) : option state :=
  match es with
  | [] => Some s
  | e :: es' => s' ← step s e; run s' es'
  end.

Definition init_state (files : gmap string node) : state :=
  {| shared := registry_new files; tasks := ∅ |}.

Definition reachable (s : state) : Prop := ∃ files es, run (init_state files) es = Some s.
End steps.
