(* ===== verification/RegistryInv.v ===== *)
(** * The VM registry: discipline and invariant

    Two layers.  [safe] is a typestate discipline: a program is safe when each
    of its commands is issued with exactly the guards that command needs.
    [RInv] relates the shared state to what the tasks hold; every command
    issued under the discipline preserves it, whichever task issues it, and so
    does every cancellation.  The programs of [Registry.v] are all safe, so
    [RInv] holds in every reachable state. *)

From S2P Require Import Prelude ArtifactName DaemonTypes ArtifactStore Registry.

(** ** What the guards say *)

Definition inner_of (h : held) : option N :=
  match h with
  | HInner l | HBorrow l | HPin l _ | HBorrowPin l _ | HDoomed l | HTaken l _ => Some l
  | _ => None
  end.

Definition pin_of (h : held) : option string :=
  match h with HPin _ p | HBorrowPin _ p => Some p | _ => None end.

Definition borrows (h : held) : Prop :=
  match h with HBorrow _ | HBorrowPin _ _ => True | _ => False end.

Definition launching (h : held) : bool :=
  match h with HLaunch | HLaunched _ | HFresh _ _ _ => true | _ => false end.

(** The number of tasks inside the launch window. *)
Definition launch_count (H : gmap N held) : N :=
  N.of_nat (length (filter (λ e : N * held, launching e.2 = true) (map_to_list H))).

Definition bN (b : bool) : N := if b then 1%N else 0%N.

Lemma launch_count_split (H : gmap N held) t h :
  H !! t = Some h → launch_count H = (bN (launching h) + launch_count (delete t H))%N.
Proof.
  intros Ht. unfold launch_count. rewrite <- (map_to_list_delete H t h Ht).
  rewrite filter_cons. cbn [snd]. destruct (launching h); cbn [bN].
  - rewrite decide_True by done. cbn [length]. lia.
  - rewrite decide_False by done. lia.
Qed.

Lemma launch_count_update H t h h' :
  H !! t = Some h →
  (launch_count (<[t := h']> H) + bN (launching h) = launch_count H + bN (launching h'))%N.
Proof.
  intros Ht. rewrite (launch_count_split H t h Ht).
  rewrite (launch_count_split (<[t := h']> H) t h') by apply lookup_insert_eq.
  rewrite delete_insert_eq. lia.
Qed.

Lemma launch_count_insert H t h :
  H !! t = None → launch_count (<[t := h]> H) = (bN (launching h) + launch_count H)%N.
Proof.
  intros Ht. rewrite (launch_count_split (<[t := h]> H) t h) by apply lookup_insert_eq.
  by rewrite delete_insert_id.
Qed.

(** ** Ids *)

Lemma mint_id_inj sd n m : (n < 2 ^ 64)%N → (m < 2 ^ 64)%N → mint_id sd n = mint_id sd m → n = m.
Proof.
  intros Hn Hm. unfold mint_id, wrap64. rewrite !N.mod_small by done.
  intros Heq%append_inj_l.
  assert (∀ k x, split_once "-" (pretty (k : N) +:+ "-" +:+ x) = Some (pretty k, x)) as Hs.
  { intros k x. change (pretty k +:+ "-" +:+ x) with (pretty k +:+ String "-" x).
    apply split_once_append. by apply pretty_no_char. }
  apply (f_equal (split_once "-")) in Heq. rewrite !Hs in Heq.
  injection Heq as Hp _.
  assert (parse_uint u64_max (pretty n) = parse_uint u64_max (pretty m)) as Hpp by (by rewrite Hp).
  unfold u64_max in Hpp. rewrite !parse_pretty in Hpp by lia. by injection Hpp.
Qed.

(** ** The invariant *)

Section invariant.
Context {RE : RegistryEnv}.

(** The guards of the task that owns the slot's [inner] lock. *)
Definition owner_held (H : gmap N held) (sl : VmSlot) : option held := sl_lock sl ≫= λ t, H !! t.

Record slot_ok (sh : Shared) (H : gmap N held) (l : N) (sl : VmSlot) : Prop := {
  ok_id : (l < counter sh)%N ∧ sl_id sl = mint_id seed l;
  ok_lock : ∀ t, sl_lock sl = Some t ↔ (H !! t ≫= inner_of) = Some l;
  ok_pin : st_snapshot_prefix (sl_status sl) = (owner_held H sl ≫= pin_of);
  ok_borrow : ∀ h, owner_held H sl = Some h → borrows h → is_Some (sl_handle sl);
  ok_handle : ∀ v, sl_handle sl = Some v →
    sl_vmid sl = v ∧
    (vms sh !! sl_id sl = Some l ∨ owner_held H sl = Some (HDoomed l));
}.

Record RInv (sh : Shared) (H : gmap N held) : Prop := {
  inv_slot : ∀ l sl, heap sh !! l = Some sl → slot_ok sh H l sl;
  inv_owned : ∀ t l, (H !! t ≫= inner_of) = Some l → is_Some (heap sh !! l);
  inv_table : ∀ id l, vms sh !! id = Some l → ∃ sl, heap sh !! l = Some sl ∧ sl_id sl = id;
  inv_vms_lock : ∀ t, vms_lock sh = Some t ↔ H !! t = Some HVms;
  inv_fresh : ∀ t l id v, H !! t = Some (HFresh l id v) →
    id = mint_id seed l ∧ (l < counter sh)%N ∧ heap sh !! l = None ∧
    (∀ t' id' v', H !! t' = Some (HFresh l id' v') → t' = t);
  inv_launches : launches_in_flight sh = launch_count H;
}.

(** *** Frame lemmas *)

(** The invariant does not look at the files. *)
Lemma RInv_set_fs sh H f : RInv sh H → RInv (set_fs f sh) H.
Proof. intros [Hs ? ? ? ? ?]. split; try done. intros l sl Hl. destruct (Hs l sl Hl). by split. Qed.

(** A slot the step is not about keeps what it had. *)
Lemma slot_ok_other sh sh' H l sl t h' :
  slot_ok sh H l sl → (H !! t ≫= inner_of) ≠ Some l → inner_of h' ≠ Some l →
  (counter sh <= counter sh')%N →
  (vms sh !! sl_id sl = Some l → vms sh' !! sl_id sl = Some l) →
  slot_ok sh' (<[t := h']> H) l sl.
Proof.
  intros [Hid Hlock Hpin Hbor Hhan] Hi Hi' Hc Hv.
  assert (∀ t', sl_lock sl = Some t' → t' ≠ t) as Hne by (intros t' Hl ->; by apply Hlock in Hl).
  assert (owner_held (<[t := h']> H) sl = owner_held H sl) as Hown.
  { unfold owner_held. destruct (sl_lock sl) as [t'|] eqn:E; [|done]. cbn.
    rewrite lookup_insert_ne; [done|]. by apply not_eq_sym, Hne. }
  split; rewrite ?Hown; try done.
  - split; [lia|apply Hid].
  - intros t'. rewrite Hlock. destruct (decide (t = t')) as [->|]; [|by rewrite lookup_insert_ne].
    rewrite lookup_insert_eq. cbn. naive_solver.
  - naive_solver.
Qed.

(** A step that changes neither the state nor the projections of the guards. *)
Lemma RInv_same sh H t h : RInv sh H → H !! t = Some h → RInv sh (<[t := h]> H).
Proof. intros Hi Ht. by rewrite insert_id. Qed.

(** Changing a slot only in fields the invariant does not read. *)
Definition keeps (f : VmSlot → VmSlot) : Prop := ∀ s,
  sl_id (f s) = sl_id s ∧ sl_vmid (f s) = sl_vmid s ∧ sl_handle (f s) = sl_handle s ∧
  sl_lock (f s) = sl_lock s ∧
  st_snapshot_prefix (sl_status (f s)) = st_snapshot_prefix (sl_status s).

Lemma RInv_keeps sh H l f : keeps f → RInv sh H → RInv (upd_slot l f sh) H.
Proof.
  intros Hf [Hs Ho Ht Hv Hfr Hl].
  assert (∀ k sl', alter f l (heap sh) !! k = Some sl' → ∃ sl, heap sh !! k = Some sl ∧
    sl_id sl' = sl_id sl ∧ sl_vmid sl' = sl_vmid sl ∧ sl_handle sl' = sl_handle sl ∧
    sl_lock sl' = sl_lock sl ∧
    st_snapshot_prefix (sl_status sl') = st_snapshot_prefix (sl_status sl)) as Hinv.
  { intros k sl'. rewrite lookup_alter. case_decide as Hlk; [subst k|naive_solver].
    destruct (heap sh !! l) as [sl|]; [|done]. intros [= <-]. exists sl. split; [done|apply Hf]. }
  assert (∀ k sl, heap sh !! k = Some sl → ∃ sl', alter f l (heap sh) !! k = Some sl' ∧
    sl_id sl' = sl_id sl ∧ sl_handle sl' = sl_handle sl) as Hfwd.
  { intros k sl Hk. rewrite lookup_alter. case_decide as Hlk; [subst k|by eauto]. rewrite Hk.
    eexists. split; [done|]. by destruct (Hf sl) as (? & ? & ? & ?). }
  split; cbn; try done.
  - intros k sl' (sl & Hk & E1 & E2 & E3 & E4 & E5)%Hinv.
    destruct (Hs k sl Hk) as [A B C D E].
    split; unfold owner_held in *; rewrite ?E1, ?E2, ?E3, ?E4, ?E5; done.
  - intros t k Hk. destruct (Ho t k Hk) as [sl Hsl]. destruct (Hfwd k sl Hsl) as (? & -> & _). done.
  - intros id k Hk. destruct (Ht id k Hk) as (sl & Hsl & <-).
    destruct (Hfwd k sl Hsl) as (sl' & ? & ? & _). by eauto.
  - intros t k id v Hk. destruct (Hfr t k id v Hk) as (? & ? & Hn & ?).
    rewrite lookup_alter_None. done.
Qed.

Lemma keeps_set_state st : keeps (set_state st).
Proof. by intros s. Qed.
Lemma keeps_transition a b : keeps (transition_from a b).
Proof. intros s. unfold transition_from. by case_decide. Qed.

(** *** Steps of the owner of a slot *)

Lemma owner_is sh H l sl t h :
  slot_ok sh H l sl → H !! t = Some h → inner_of h = Some l →
  sl_lock sl = Some t ∧ owner_held H sl = Some h.
Proof.
  intros Hok Ht Hi. assert (sl_lock sl = Some t) as Hl.
  { apply (ok_lock _ _ _ _ Hok). by rewrite Ht. }
  split; [done|]. unfold owner_held. rewrite Hl. done.
Qed.

Lemma slot_ok_owner sh sh' H l sl sl' t h h' :
  slot_ok sh H l sl → H !! t = Some h → inner_of h = Some l → inner_of h' = Some l →
  counter sh' = counter sh →
  sl_id sl' = sl_id sl → sl_vmid sl' = sl_vmid sl → sl_lock sl' = sl_lock sl →
  st_snapshot_prefix (sl_status sl') = pin_of h' →
  (borrows h' → is_Some (sl_handle sl')) →
  (∀ v, sl_handle sl' = Some v → sl_handle sl = Some v ∧
     (vms sh' = vms sh ∧ h ≠ HDoomed l ∨ h' = HDoomed l)) →
  slot_ok sh' (<[t := h']> H) l sl'.
Proof.
  intros Hok Ht Hi Hi' Hc Eid Evm Elk Hp Hb Hh.
  destruct (owner_is _ _ _ _ _ _ Hok Ht Hi) as [Hl Hown].
  assert (owner_held (<[t := h']> H) sl' = Some h') as Hown'.
  { unfold owner_held. rewrite Elk, Hl. cbn. apply lookup_insert_eq. }
  destruct Hok as [Oid Olk _ _ Oh]. split.
  - by rewrite Hc, Eid.
  - intros t'. rewrite Elk, Olk. destruct (decide (t = t')) as [->|].
    + rewrite lookup_insert_eq, Ht. cbn. naive_solver.
    + by rewrite lookup_insert_ne.
  - by rewrite Hown'.
  - rewrite Hown'. intros ? [= <-]. done.
  - rewrite Hown', Eid, Evm. intros v Hv. destruct (Hh v Hv) as [Hv' Hcase].
    destruct (Oh v Hv') as [? Hwhere]. split; [done|].
    destruct Hcase as [[-> Hnd]| ->]; [|by auto]. destruct Hwhere; [by auto|congruence].
Qed.

(** A step of task [t] that touches one slot and its own guards. *)
Lemma RInv_slot_step sh sh' H l sl sl' t h h' :
  RInv sh H → H !! t = Some h → heap sh !! l = Some sl →
  heap sh' = <[l := sl']> (heap sh) → vms sh' = vms sh → vms_lock sh' = vms_lock sh →
  counter sh' = counter sh → launches_in_flight sh' = launches_in_flight sh →
  (inner_of h = Some l ∨ h = HNone) → (inner_of h' = Some l ∨ h' = HNone) →
  sl_id sl' = sl_id sl → slot_ok sh' (<[t := h']> H) l sl' →
  RInv sh' (<[t := h']> H).
Proof.
  intros Hinv Ht Hsl Eh Ev Evl Ec El Hi Hi' Eid Hok.
  destruct Hinv as [Is Io It Iv If Ila].
  split.
  - intros k sk. rewrite Eh. destruct (decide (l = k)) as [<-|Hne].
    { rewrite lookup_insert_eq. by intros [= <-]. }
    rewrite lookup_insert_ne by done. intros Hk.
    eapply slot_ok_other; [by apply Is|rewrite Ht; cbn; naive_solver|naive_solver|lia|by rewrite Ev].
  - intros t' k. rewrite Eh. destruct (decide (l = k)) as [<-|Hne]; [by rewrite lookup_insert_eq|].
    rewrite (lookup_insert_ne (heap sh)) by done. destruct (decide (t = t')) as [->|].
    + rewrite lookup_insert_eq. cbn. naive_solver.
    + rewrite lookup_insert_ne by done. apply Io.
  - intros id k. rewrite Ev, Eh. intros Hk. destruct (It id k Hk) as (sk & Hsk & Hid).
    destruct (decide (l = k)) as [<-|Hne]; [|rewrite lookup_insert_ne by done; by eauto].
    rewrite lookup_insert_eq. exists sl'. split; [done|]. congruence.
  - intros t'. rewrite Evl, Iv. destruct (decide (t = t')) as [->|]; [|by rewrite lookup_insert_ne].
    rewrite lookup_insert_eq, Ht. naive_solver.
  - assert (∀ t' k id v, <[t := h']> H !! t' = Some (HFresh k id v) →
      t' ≠ t ∧ H !! t' = Some (HFresh k id v)) as Hfr.
    { intros t' k id v. destruct (decide (t = t')) as [->|].
      - rewrite lookup_insert_eq. intros [= ->]. naive_solver.
      - rewrite lookup_insert_ne; done. }
    intros t' k id v [_ Ht']%Hfr. destruct (If t' k id v Ht') as (? & ? & Hk & Hu).
    rewrite Ec, Eh. rewrite lookup_insert_ne by congruence. split_and!; try done.
    intros t2 id2 v2 [_ ?]%Hfr. by eapply Hu.
  - rewrite El, Ila. pose proof (launch_count_update H t h h' Ht).
    assert (launching h = false ∧ launching h' = false) as [E1 E2].
    { split; [destruct h|destruct h']; try done; naive_solver. }
    rewrite E1, E2 in *. cbn in *. lia.
Qed.

(** *** Steps outside the slots *)

(** A step that leaves heap and table alone and changes no slot guard. *)
Lemma RInv_guard_step sh sh' H t h h' :
  RInv sh H → H !! t = Some h →
  heap sh' = heap sh → vms sh' = vms sh → counter sh' = counter sh →
  inner_of h = None → inner_of h' = None →
  (∀ l id v, h' ≠ HFresh l id v) →
  (∀ t', vms_lock sh' = Some t' ↔ <[t := h']> H !! t' = Some HVms) →
  (launches_in_flight sh' + bN (launching h) = launches_in_flight sh + bN (launching h'))%N →
  RInv sh' (<[t := h']> H).
Proof.
  intros [Is Io It Iv If Ila] Ht Eh Ev Ec Hi Hi' Hnf Hvl Hl. split.
  - intros l sl. rewrite Eh. intros Hsl.
    eapply slot_ok_other; [by apply Is|rewrite Ht; cbn; congruence|congruence|lia|by rewrite Ev].
  - intros t' l. rewrite Eh. destruct (decide (t = t')) as [->|].
    + rewrite lookup_insert_eq. cbn. congruence.
    + rewrite lookup_insert_ne by done. apply Io.
  - by rewrite Eh, Ev.
  - done.
  - assert (∀ t' k id v, <[t := h']> H !! t' = Some (HFresh k id v) → H !! t' = Some (HFresh k id v))
      as Hfr.
    { intros t' k id v. destruct (decide (t = t')) as [->|]; [|by rewrite lookup_insert_ne].
      rewrite lookup_insert_eq. intros [= E]. by destruct (Hnf k id v). }
    intros t' l id v Ht'%Hfr. destruct (If t' l id v Ht') as (? & ? & ? & Hu).
    rewrite Eh, Ec. split_and!; try done. intros t2 id2 v2 ?%Hfr. by eapply Hu.
  - pose proof (launch_count_update H t h h' Ht). lia.
Qed.

Lemma vms_lock_frame sh H t h h' :
  RInv sh H → H !! t = Some h → h ≠ HVms → h' ≠ HVms →
  ∀ t', vms_lock sh = Some t' ↔ <[t := h']> H !! t' = Some HVms.
Proof.
  intros Hi Ht Hn Hn' t'. rewrite (inv_vms_lock _ _ Hi). destruct (decide (t = t')) as [->|].
  - rewrite lookup_insert_eq, Ht. naive_solver.
  - by rewrite lookup_insert_ne.
Qed.

Lemma RInv_mint sh H t v :
  RInv sh H → H !! t = Some (HLaunched v) →
  RInv (set_counter (counter sh + 1) sh)
    (<[t := HFresh (counter sh) (mint_id seed (counter sh)) v]> H).
Proof.
  intros Hinv Ht. pose proof Hinv as [Is Io It Iv If Ila].
  assert (∀ l sl, heap sh !! l = Some sl → (l < counter sh)%N) as Hlt.
  { intros l sl Hl. apply (ok_id _ _ _ _ (Is l sl Hl)). }
  assert (heap sh !! counter sh = None) as Hnone.
  { destruct (heap sh !! counter sh) as [sl|] eqn:E; [|done]. apply Hlt in E. lia. }
  split; cbn.
  - intros l sl Hl. eapply slot_ok_other; [by apply Is|by rewrite Ht|done|cbn; lia|done].
  - intros t' l. destruct (decide (t = t')) as [->|]; [by rewrite lookup_insert_eq|].
    rewrite lookup_insert_ne by done. apply Io.
  - done.
  - by apply (vms_lock_frame sh H t (HLaunched v)).
  - intros t' l id w. destruct (decide (t = t')) as [->|Hne].
    + rewrite lookup_insert_eq. intros [= <- <- <-]. split_and!; [done|lia|done|].
      intros t2 id2 v2. destruct (decide (t' = t2)) as [->|]; [done|].
      rewrite lookup_insert_ne by done. intros Hf. destruct (If _ _ _ _ Hf) as (_ & ? & _). lia.
    + rewrite lookup_insert_ne by done. intros Hf.
      destruct (If _ _ _ _ Hf) as (? & ? & ? & Hu). split_and!; [done|lia|done|].
      intros t2 id2 v2. destruct (decide (t = t2)) as [->|]; [|rewrite lookup_insert_ne; by eauto].
      rewrite lookup_insert_eq. intros [= <- <- <-]. lia.
  - rewrite Ila. pose proof (launch_count_update H t _
      (HFresh (counter sh) (mint_id seed (counter sh)) v) Ht). cbn in *. lia.
Qed.

Lemma RInv_insert sh H t l id req v :
  RInv sh H → H !! t = Some (HFresh l id v) → (counter sh <= 2 ^ 64)%N →
  RInv (set_vms (<[id := l]> (vms sh)) (set_heap (<[l := new_slot id req v]> (heap sh)) sh))
    (<[t := HLaunch]> H).
Proof.
  intros Hinv Ht Hc. pose proof Hinv as [Is Io It Iv If Ila].
  destruct (If t l id v Ht) as (Hid & Hlt & Hnone & Huniq).
  assert (∀ k sk, heap sh !! k = Some sk → sl_id sk ≠ id ∧ k ≠ l) as Hother.
  { intros k sk Hk. split; [|congruence]. destruct (ok_id _ _ _ _ (Is k sk Hk)) as [? ->].
    rewrite Hid. intros Heq%mint_id_inj; [|lia..]. congruence. }
  assert (∀ t', (H !! t' ≫= inner_of) ≠ Some l) as Hnot.
  { intros t' Hin. destruct (Io t' l Hin) as [? ?]. congruence. }
  split; cbn.
  - intros k sk. destruct (decide (l = k)) as [<-|Hne].
    + rewrite lookup_insert_eq. intros [= <-]. split; cbn; try done.
      * intros t'. split; [done|]. destruct (decide (t = t')) as [->|];
          [by rewrite lookup_insert_eq|]. rewrite lookup_insert_ne by done. intros Hin.
        by destruct (Hnot t').
      * intros ? [= <-]. split; [done|left]. apply lookup_insert_eq.
    + rewrite lookup_insert_ne by done. intros Hk. destruct (Hother k sk Hk).
      eapply slot_ok_other; [by apply Is|by rewrite Ht|done|done|].
      cbn. by rewrite lookup_insert_ne.
  - intros t' k. destruct (decide (t = t')) as [->|]; [by rewrite lookup_insert_eq|].
    rewrite lookup_insert_ne by done. intros Hk. destruct (Io t' k Hk) as [sk Hsk].
    destruct (Hother k sk Hsk). by rewrite lookup_insert_ne.
  - intros id' k. destruct (decide (id = id')) as [<-|Hne].
    + rewrite lookup_insert_eq. intros [= <-]. rewrite lookup_insert_eq. by eauto.
    + rewrite lookup_insert_ne by done. intros Hk. destruct (It id' k Hk) as (sk & Hsk & ?).
      destruct (Hother k sk Hsk). rewrite lookup_insert_ne by done. by eauto.
  - by apply (vms_lock_frame sh H t (HFresh l id v)).
  - assert (∀ t' k id v, <[t := HLaunch]> H !! t' = Some (HFresh k id v) →
      t ≠ t' ∧ H !! t' = Some (HFresh k id v)) as Hfr.
    { intros t' k id' v'. destruct (decide (t = t')) as [->|];
        [by rewrite lookup_insert_eq|by rewrite lookup_insert_ne]. }
    intros t' k id' v' [Hne Hf]%Hfr. destruct (If _ _ _ _ Hf) as (? & ? & ? & Hu).
    split_and!; try done; [|intros t2 id2 v2 [_ ?]%Hfr; by eapply Hu].
    rewrite lookup_insert_ne; [done|]. intros <-. apply Hne. symmetry. by eapply Huniq.
  - rewrite Ila. pose proof (launch_count_update H t _ HLaunch Ht). cbn in *. lia.
Qed.

Lemma RInv_remove sh H t l sl :
  RInv sh H → H !! t = Some (HInner l) → heap sh !! l = Some sl → (counter sh <= 2 ^ 64)%N →
  RInv (set_vms (delete (sl_id sl) (vms sh)) sh) (<[t := HDoomed l]> H).
Proof.
  intros Hinv Ht Hsl Hc. pose proof Hinv as [Is Io It Iv If Ila].
  assert (∀ k sk, heap sh !! k = Some sk → l ≠ k → sl_id sl ≠ sl_id sk) as Hids.
  { intros k sk Hk Hne. destruct (ok_id _ _ _ _ (Is k sk Hk)) as [? ->].
    destruct (ok_id _ _ _ _ (Is l sl Hsl)) as [? ->].
    intros Heq%mint_id_inj; [congruence|lia..]. }
  split; cbn.
  - intros k sk Hk. destruct (decide (l = k)) as [<-|Hne].
    + assert (sk = sl) as -> by congruence. pose proof (Is l sl Hsl) as Hok.
      eapply slot_ok_owner; try done.
      * rewrite (ok_pin _ _ _ _ Hok). by destruct (owner_is _ _ _ _ _ _ Hok Ht eq_refl) as [_ ->].
      * intros w Hw. split; [done|by right].
    + eapply slot_ok_other; [by apply Is|rewrite Ht; cbn; congruence|cbn; congruence|done|].
      cbn. rewrite lookup_delete_ne; [done|]. by eapply Hids.
  - intros t' k. destruct (decide (t = t')) as [->|].
    + rewrite lookup_insert_eq. cbn. intros [= <-]. by eauto.
    + rewrite lookup_insert_ne by done. apply Io.
  - intros id k [_ Hk]%lookup_delete_Some. by apply It.
  - by apply (vms_lock_frame sh H t (HInner l)).
  - assert (∀ t' k id v, <[t := HDoomed l]> H !! t' = Some (HFresh k id v) →
      H !! t' = Some (HFresh k id v)) as Hfr.
    { intros t' k id' v'. destruct (decide (t = t')) as [->|];
        [by rewrite lookup_insert_eq|by rewrite lookup_insert_ne]. }
    intros t' k id' v' Hf%Hfr. destruct (If _ _ _ _ Hf) as (? & ? & ? & Hu).
    split_and!; try done. intros t2 id2 v2 ?%Hfr. by eapply Hu.
  - rewrite Ila. pose proof (launch_count_update H t _ (HDoomed l) Ht). cbn in *. lia.
Qed.

(** *** Every command preserves the invariant *)

Lemma alter_insert_Some (f : VmSlot → VmSlot) (m : gmap N VmSlot) l sl :
  m !! l = Some sl → alter f l m = <[l := f sl]> m.
Proof.
  intros Hl. apply map_eq. intros k. rewrite lookup_alter.
  destruct (decide (l = k)) as [<-|Hne]; [by rewrite Hl, lookup_insert_eq|].
  by rewrite lookup_insert_ne.
Qed.

(** The owner of slot [l] changes it by [f] and its guards to [h'], staying
    its owner. *)
Lemma RInv_owner_step sh H l sl f t h h' :
  RInv sh H → H !! t = Some h → inner_of h = Some l → inner_of h' = Some l →
  heap sh !! l = Some sl →
  sl_id (f sl) = sl_id sl → sl_vmid (f sl) = sl_vmid sl → sl_lock (f sl) = sl_lock sl →
  st_snapshot_prefix (sl_status (f sl)) = pin_of h' →
  (borrows h' → is_Some (sl_handle (f sl))) →
  (∀ v, sl_handle (f sl) = Some v → sl_handle sl = Some v ∧ (h ≠ HDoomed l ∨ h' = HDoomed l)) →
  RInv (upd_slot l f sh) (<[t := h']> H).
Proof.
  intros Hinv Ht Hi Hi' Hsl Eid Evm Elk Hp Hb Hh.
  eapply (RInv_slot_step sh _ H l sl (f sl) t h h'); try done; cbn.
  - by apply alter_insert_Some.
  - by left.
  - by left.
  - eapply (slot_ok_owner sh); try done; [by apply (inv_slot _ _ Hinv)|].
    intros v Hv. destruct (Hh v Hv) as [? [?|?]]; by auto.
Qed.

(** The special case that only the guards move. *)
Lemma RInv_owner_guard sh H l t h h' :
  RInv sh H → H !! t = Some h → inner_of h = Some l → inner_of h' = Some l →
  pin_of h' = pin_of h → h ≠ HDoomed l →
  (∀ sl, heap sh !! l = Some sl → borrows h' → is_Some (sl_handle sl)) →
  RInv sh (<[t := h']> H).
Proof.
  intros Hinv Ht Hi Hi' Hp Hnd Hb.
  destruct (inv_owned _ _ Hinv t l) as [sl Hsl]; [by rewrite Ht|].
  pose proof (inv_slot _ _ Hinv l sl Hsl) as Hok.
  destruct (owner_is _ _ _ _ _ _ Hok Ht Hi) as [Hl Hown].
  eapply (RInv_slot_step sh sh H l sl sl t h h'); try done; [|by left|by left|].
  - by rewrite insert_id.
  - eapply (slot_ok_owner sh); try done.
    + rewrite (ok_pin _ _ _ _ Hok), Hown, Hp. done.
    + by apply Hb.
    + intros v Hv. by auto.
Qed.

Lemma RInv_lock sh H l sl t :
  RInv sh H → H !! t = Some HNone → heap sh !! l = Some sl → sl_lock sl = None →
  RInv (upd_slot l (set_lock (Some t)) sh) (<[t := HInner l]> H).
Proof.
  intros Hinv Ht Hsl Hfree. pose proof (inv_slot _ _ Hinv l sl Hsl) as [Oid Olk Op Ob Oh].
  unfold owner_held in *. rewrite Hfree in *. cbn in *.
  eapply (RInv_slot_step sh _ H l sl (set_lock (Some t) sl) t HNone); try done; cbn;
    [by apply alter_insert_Some|by right|by left|].
  split; cbn; unfold owner_held; cbn; rewrite ?lookup_insert_eq; try done.
  - intros t'. destruct (decide (t = t')) as [->|Hne]; [by rewrite lookup_insert_eq|].
    rewrite lookup_insert_ne by done. rewrite <- Olk. naive_solver.
  - by intros ? [= <-].
  - intros v Hv. destruct (Oh v Hv) as [? [?|?]]; [by auto|done].
Qed.

Lemma RInv_unlock sh H l t :
  RInv sh H → H !! t = Some (HInner l) →
  RInv (upd_slot l (set_lock None) sh) (<[t := HNone]> H).
Proof.
  intros Hinv Ht. destruct (inv_owned _ _ Hinv t l) as [sl Hsl]; [by rewrite Ht|].
  pose proof (inv_slot _ _ Hinv l sl Hsl) as Hok.
  destruct (owner_is _ _ _ _ _ _ Hok Ht eq_refl) as [Hl Hown].
  destruct Hok as [Oid Olk Op Ob Oh]. rewrite Hown in *.
  eapply (RInv_slot_step sh _ H l sl (set_lock None sl) t (HInner l)); try done; cbn;
    [by apply alter_insert_Some|by left|by right|].
  split; cbn; try done.
  - intros t'. split; [done|]. destruct (decide (t = t')) as [->|Hne];
      [by rewrite lookup_insert_eq|]. rewrite lookup_insert_ne by done.
    rewrite <- Olk, Hl. congruence.
  - intros v Hv. destruct (Oh v Hv) as [? [?|?]]; [by auto|done].
Qed.

(** The location a held slot guard is about is on the heap, with its pin. *)
Lemma owned_slot sh H t h l :
  RInv sh H → H !! t = Some h → inner_of h = Some l →
  ∃ sl, heap sh !! l = Some sl ∧ slot_ok sh H l sl ∧ sl_lock sl = Some t ∧
        owner_held H sl = Some h ∧ st_snapshot_prefix (sl_status sl) = pin_of h.
Proof.
  intros Hinv Ht Hi. destruct (inv_owned _ _ Hinv t l) as [sl Hsl]; [by rewrite Ht|].
  pose proof (inv_slot _ _ Hinv l sl Hsl) as Hok.
  destruct (owner_is _ _ _ _ _ _ Hok Ht Hi) as [Hl Hown].
  exists sl. split_and!; try done. rewrite (ok_pin _ _ _ _ Hok), Hown. done.
Qed.

Lemma cmd_preserves t x {B : Set} (c : cmd B) b sh sh' H h h' :
  RInv sh H → H !! t = Some h → trans h c b = Some h' →
  exec_cmd t x c sh = Some (b, sh') → (counter sh' <= 2 ^ 64)%N →
  RInv sh' (<[t := h']> H).
Proof.
  intros Hinv Ht Htr Hex Hc.
  destruct c; cbn in Htr, Hex;
    repeat match goal with E : context [let '(_, _) := ?e in _] |- _ => destruct e end;
    destruct h; simplify_option_eq;
    repeat match goal with E : match ?st with _ => _ end = Some _ |- _ => destruct st end;
    simplify_option_eq; try (by apply RInv_same);
    try (by apply RInv_same; [apply RInv_set_fs|]);
    try (by apply RInv_same; [apply RInv_keeps; [apply keeps_set_state || apply keeps_transition|]|]).
  all: destruct_and?; subst.
  - by apply RInv_insert.
  - by apply RInv_remove.
  - eapply RInv_guard_step; try done. intros t'. cbn.
    destruct (decide (t = t')) as [->|Hne]; [by rewrite lookup_insert_eq|].
    rewrite lookup_insert_ne by done. rewrite <- (inv_vms_lock _ _ Hinv). naive_solver.
  - eapply RInv_guard_step; try done. intros t'. cbn.
    destruct (decide (t = t')) as [->|Hne]; [by rewrite lookup_insert_eq|].
    rewrite lookup_insert_ne by done. split; [done|]. rewrite <- (inv_vms_lock _ _ Hinv).
    apply (inv_vms_lock _ _ Hinv) in Ht. congruence.
  - destruct (owned_slot _ _ _ _ _ Hinv Ht eq_refl) as (sl & Hsl & _).
    eapply RInv_owner_step; try done. naive_solver.
  - destruct (owned_slot _ _ _ _ _ Hinv Ht eq_refl) as (sl & Hsl & _).
    eapply RInv_owner_step; try done. naive_solver.
  - by eapply RInv_lock.
  - by apply RInv_unlock.
  - case_bool_decide; [|by apply RInv_same].
    eapply RInv_owner_guard; try done. naive_solver.
  - case_bool_decide; [|by apply RInv_same].
    eapply RInv_owner_guard; try done. naive_solver.
  - by eapply RInv_owner_guard.
  - apply RInv_set_fs. by eapply RInv_owner_guard.
  - destruct (owned_slot _ _ _ _ _ Hinv Ht eq_refl) as (sl & Hsl & _ & _ & _ & Hp).
    destruct (sl_handle _); by eapply RInv_owner_step.
  - by eapply RInv_owner_guard.
  - eapply RInv_guard_step; try done; [by apply (vms_lock_frame sh H t HNone)|].
    cbn. lia.
  - destruct (x_res x); [|by apply RInv_same].
    eapply RInv_guard_step; try done. by apply (vms_lock_frame sh' H t HLaunch).
  - by apply RInv_mint.
  - eapply RInv_guard_step; try done; [by apply (vms_lock_frame sh H t HLaunch)|].
    cbn. pose proof (launch_count_split H t HLaunch Ht) as Hs.
    rewrite (inv_launches _ _ Hinv), Hs. cbn. lia.
Qed.

(** *** Spawning and cancelling *)

(** A task that holds nothing can come and go. *)
Lemma RInv_spawn sh H t : RInv sh H → H !! t = None → RInv sh (<[t := HNone]> H).
Proof.
  intros Hinv Ht. pose proof Hinv as [Is Io It Iv If Ila].
  assert (∀ t' h, h ≠ HNone → <[t := HNone]> H !! t' = Some h ↔ H !! t' = Some h) as Hl.
  { intros t' h Hne. destruct (decide (t = t')) as [->|]; [|by rewrite lookup_insert_ne].
    rewrite lookup_insert_eq, Ht. naive_solver. }
  split; try done.
  - intros l sl Hsl. eapply slot_ok_other; [by apply Is|by rewrite Ht|done|done|done].
  - intros t' l Hin. apply (Io t'). destruct (<[t := HNone]> H !! t') as [h|] eqn:E; [|done].
    cbn in Hin. assert (h ≠ HNone) as Hne by (by intros ->). apply Hl in E; [|done]. by rewrite E.
  - intros t'. rewrite Iv. by rewrite Hl.
  - intros t' l id v Hf%Hl; [|done]. destruct (If _ _ _ _ Hf) as (? & ? & ? & Hu).
    split_and!; try done. intros t2 id2 v2 Hf2%Hl; [|done]. by eapply Hu.
  - rewrite launch_count_insert by done. cbn. lia.
Qed.

Lemma RInv_forget sh H t : RInv sh (<[t := HNone]> H) → RInv sh (delete t H).
Proof.
  intros Hinv. pose proof Hinv as [Is Io It Iv If Ila].
  assert (∀ t' h, h ≠ HNone → <[t := HNone]> H !! t' = Some h ↔ delete t H !! t' = Some h) as Hl.
  { intros t' h Hne. destruct (decide (t = t')) as [->|].
    - rewrite lookup_insert_eq, lookup_delete_eq. naive_solver.
    - by rewrite lookup_insert_ne, lookup_delete_ne. }
  assert (∀ t' l, (<[t := HNone]> H !! t' ≫= inner_of) = Some l ↔
                  (delete t H !! t' ≫= inner_of) = Some l) as Hin.
  { intros t' l. destruct (decide (t = t')) as [->|].
    - by rewrite lookup_insert_eq, lookup_delete_eq.
    - by rewrite lookup_insert_ne, lookup_delete_ne. }
  split; try done.
  - intros l sl Hsl. destruct (Is l sl Hsl) as [A B C D E].
    assert (owner_held (<[t := HNone]> H) sl = owner_held (delete t H) sl) as Ho.
    { unfold owner_held. destruct (sl_lock sl) as [t'|] eqn:El; [|done]. cbn.
      pose proof (proj1 (B t') eq_refl) as Hb.
      rewrite lookup_insert_ne, lookup_delete_ne; [done|..];
        intros <-; by rewrite lookup_insert_eq in Hb. }
    split; rewrite <- ?Ho; try done. intros t'. by rewrite <- Hin.
  - intros t' l Hi%Hin. by apply (Io t').
  - intros t'. by rewrite Iv, Hl.
  - intros t' l id v Hf%Hl; [|done]. destruct (If _ _ _ _ Hf) as (? & ? & ? & Hu).
    split_and!; try done. intros t2 id2 v2 Hf2%Hl; [|done]. by eapply Hu.
  - rewrite Ila, (launch_count_split (<[t := HNone]> H) t HNone) by apply lookup_insert_eq.
    by rewrite delete_insert_eq.
Qed.

Lemma RInv_drop_inner sh H t l :
  RInv sh H → H !! t = Some (HInner l) → RInv (upd_slot l (set_lock None) sh) (delete t H).
Proof. intros Hinv Ht. by apply RInv_forget, RInv_unlock. Qed.

Lemma RInv_drop_launch sh H t :
  RInv sh H → H !! t = Some HLaunch →
  RInv (set_launches (launches_in_flight sh - 1) sh) (delete t H).
Proof.
  intros Hinv Ht. apply RInv_forget. eapply RInv_guard_step; try done.
  - by apply (vms_lock_frame sh H t HLaunch).
  - cbn. rewrite (inv_launches _ _ Hinv), (launch_count_split H t HLaunch Ht). cbn. lia.
Qed.

(** The guards a task can hold at an await point. *)
Definition awaitable (h : held) : Prop :=
  match h with HVms | HDoomed _ | HLaunched _ => False | _ => True end.

Lemma trans_awaitable {B : Set} (c : cmd B) b h h' :
  is_await c = true → trans h c b = Some h' → awaitable h.
Proof. destruct c; try done; by destruct h. Qed.

Lemma drop_preserves sh H t h :
  RInv sh H → H !! t = Some h → awaitable h → RInv (drop_held h sh) (delete t H).
Proof.
  intros Hinv Ht Haw.
  assert (∀ l, RInv sh (<[t := HInner l]> H) → RInv (upd_slot l (set_lock None) sh) (delete t H))
    as Hinner.
  { intros l Hi. rewrite <- (delete_insert_eq H t (HInner l)). apply RInv_drop_inner; [done|].
    apply lookup_insert_eq. }
  destruct h as [| |l|l|l p|l p|l|l v| |v|l id v]; try done; cbn.
  - apply RInv_forget. by rewrite insert_id.
  - by apply RInv_drop_inner.
  - apply Hinner. by eapply RInv_owner_guard.
  - destruct (owned_slot _ _ _ _ _ Hinv Ht eq_refl) as (sl & Hsl & _).
    rewrite <- (delete_insert_eq H t (HInner l)). apply RInv_drop_inner; [|apply lookup_insert_eq].
    eapply RInv_owner_step; try done. naive_solver.
  - destruct (owned_slot _ _ _ _ _ Hinv Ht eq_refl) as (sl & Hsl & _).
    rewrite <- (delete_insert_eq H t (HInner l)). apply RInv_drop_inner; [|apply lookup_insert_eq].
    eapply RInv_owner_step; try done. naive_solver.
  - apply Hinner. by eapply RInv_owner_guard.
  - by apply RInv_drop_launch.
  - rewrite <- (delete_insert_eq H t HLaunch). apply (RInv_drop_launch sh); [|apply lookup_insert_eq].
    eapply RInv_guard_step; try done. by apply (vms_lock_frame sh H t (HFresh l id v)).
Qed.
End invariant.

(** ** The discipline *)

(** The slots a command names, and those it tells the program about. *)
Definition cmd_locs {B : Set} (c : cmd B) : list N :=
  match c with
  | CRemove l | CState l | CSetState l _ | CTransition l _ _ | CInfo l | CVmid l | CPins l _
  | CPinClaim l _ | CPinDrop l | CLockInner l | CUnlockInner l | CHandleMut l
  | CHandleCall l _ | CHandleSnapshot l _ | CTake l => [l]
  | _ => []
  end.

Definition learn {B : Set} (c : cmd B) : B → list N :=
  match c in cmd B return B → list N with
  | CLookup _ => λ o, option_list o
  | CVmsLock => λ ls, ls
  | _ => λ _, []
  end.

(** A program that, knowing the slots [K] and holding [h], issues only commands
    the guards allow, about slots it knows, and ends in [Φ]. *)
Fixpoint safe {A} (K : list N) (h : held) (p : prog A) (Φ : list N → held → A → Prop) : Prop :=
  match p with
  | Ret a => Φ K h a
  | Act c k =>
      cmd_locs c ⊆ K ∧
      ∀ b, ∃ h', trans h c b = Some h' ∧ safe (learn c b ++ K) h' (k b) Φ
  end.

Lemma safe_mono {A} (p : prog A) K h (Φ Ψ : list N → held → A → Prop) :
  (∀ K' h a, K ⊆ K' → Φ K' h a → Ψ K' h a) → safe K h p Φ → safe K h p Ψ.
Proof.
  revert K h. induction p as [a|B c k IH]; intros K h HΦ; cbn; [by apply HΦ|].
  intros [Hl Hk]. split; [done|]. intros b. destruct (Hk b) as (h' & ? & ?).
  exists h'. split; [done|]. eapply IH; [|done]. intros K' h2 a HK. apply HΦ. set_solver.
Qed.

Lemma safe_bind {A A'} (p : prog A) (f : A → prog A') K h Φ :
  safe K h p (λ K' h' a, safe K' h' (f a) Φ) → safe K h (p ≫= f) Φ.
Proof.
  revert K h. induction p as [a|B c k IH]; intros K h; cbn; [done|].
  intros [Hl Hk]. split; [done|]. intros b. destruct (Hk b) as (h' & ? & Hs).
  exists h'. split; [done|]. by apply IH.
Qed.

(** Safety of a bind from a contract of its first half that fixes what is held
    afterwards. *)
Lemma safe_seq {A A'} (p : prog A) (f : A → prog A') K h h' (P : list N → A → Prop) Φ :
  safe K h p (λ K' h2 a, h2 = h' ∧ P K' a) →
  (∀ K' a, K ⊆ K' → P K' a → safe K' h' (f a) Φ) →
  safe K h (p ≫= f) Φ.
Proof.
  intros Hp Hf. apply safe_bind. eapply safe_mono; [|exact Hp].
  intros K' h2 a HK [-> HP]. by apply Hf.
Qed.

(** The common postcondition: back to holding [h]. *)
Definition ends {A} (h : held) : list N → held → A → Prop := λ _ h' _, h' = h.

Lemma safe_call {A} {B : Set} (c : cmd B) (f : B → prog A) K h Φ :
  cmd_locs c ⊆ K →
  (∀ b, ∃ h', trans h c b = Some h' ∧ safe (learn c b ++ K) h' (f b) Φ) →
  safe K h (call c ≫= f) Φ.
Proof. done. Qed.

Lemma safe_ends {A A'} (p : prog A) (f : A → prog A') K h h' Φ :
  safe K h p (ends h') → (∀ K' a, K ⊆ K' → safe K' h' (f a) Φ) → safe K h (p ≫= f) Φ.
Proof.
  intros Hp Hf. apply safe_bind. eapply safe_mono; [|exact Hp].
  intros K' h2 a HK Hh. unfold ends in Hh. subst h2. by apply Hf.
Qed.

(** The [?] operator. *)
Lemma safe_try {A A' : Type} (p : prog (result DaemonError A)) (f : A → prog (result DaemonError A'))
    K h h' Φ :
  safe K h p (ends h') → (∀ K' a, K ⊆ K' → safe K' h' (f a) Φ) → (∀ K' e, Φ K' h' (Err e)) →
  safe K h (let! x := p in f x) Φ.
Proof. intros Hp Hf He. eapply safe_ends; [exact Hp|]. intros K' [a|e] ?; [by apply Hf|apply He]. Qed.

Lemma safe_slot {A} (id : string) (f : N → prog (result DaemonError A)) K Φ :
  (∀ K' l, K ⊆ K' → l ∈ K' → safe K' HNone (f l) Φ) → (∀ K' e, Φ K' HNone (Err e)) →
  safe K HNone (let! l := slot id in f l) Φ.
Proof.
  intros Hf He. unfold slot. apply safe_bind, safe_call; [set_solver|].
  intros o. exists HNone. split; [done|]. destruct o as [l|]; cbn; [|by apply He].
  apply Hf; set_solver.
Qed.

Lemma safe_require l want K h : l ∈ K → safe K h (require_state l want) (ends h).
Proof. intros Hl. apply safe_call; [set_solver|]. intros b. by exists h. Qed.

Lemma safe_with_inner {A} l (body : prog A) K :
  l ∈ K → (∀ K', K ⊆ K' → safe K' (HInner l) body (ends (HInner l))) →
  safe K HNone (with_inner l body) (ends HNone).
Proof.
  intros Hl Hb. apply safe_call; [set_solver|]. intros []. exists (HInner l). split; [done|].
  eapply safe_ends; [apply Hb; set_solver|]. intros K' r HK. apply safe_call; [set_solver|].
  intros []. exists HNone. cbn. by rewrite decide_True.
Qed.

Lemma safe_with_pin {A} l prefix (body : prog A) K :
  l ∈ K → (∀ K', K ⊆ K' → safe K' (HPin l prefix) body (ends (HPin l prefix))) →
  safe K (HInner l) (with_pin l prefix body) (ends (HInner l)).
Proof.
  intros Hl Hb. apply safe_call; [set_solver|]. intros []. exists (HPin l prefix). cbn.
  rewrite decide_True by done. split; [done|].
  eapply safe_ends; [apply Hb; set_solver|]. intros K' r HK. apply safe_call; [set_solver|].
  intros []. exists (HInner l). cbn. by rewrite decide_True.
Qed.

Lemma safe_handle_call l hc K : l ∈ K → safe K (HInner l) (handle_mut_call l hc) (ends (HInner l)).
Proof.
  intros Hl. apply safe_call; [set_solver|]. intros b. cbn [trans]. rewrite decide_True by done.
  eexists. split; [done|]. destruct b; [|done]. split; [set_solver|]. intros r.
  exists (HInner l). cbn. by rewrite decide_True.
Qed.

#[export] Hint Resolve safe_require safe_handle_call : vmcell.

(** Solve the membership side conditions left by the lemmas above. *)
Ltac known := set_solver.

Lemma safe_exec id K : safe K HNone (exec id) (ends HNone).
Proof.
  apply safe_slot; [|done]. intros K1 l H1 Hl.
  eapply safe_try; [by apply safe_require| |done]. intros K2 _ H2.
  apply safe_with_inner; [known|]. intros K3 H3.
  eapply safe_try; [apply safe_require; known| |done]. intros K4 _ H4.
  apply safe_handle_call. known.
Qed.

Lemma safe_stats id K : safe K HNone (stats id) (ends HNone).
Proof.
  apply safe_slot; [|done]. intros K1 l H1 Hl.
  apply safe_with_inner; [known|]. intros K2 H2. apply safe_handle_call. known.
Qed.

Lemma safe_drive_vcpus id verb K : safe K HNone (drive_vcpus id verb) (ends HNone).
Proof.
  apply safe_slot; [|done]. intros K1 l H1 Hl.
  eapply safe_try; [by apply safe_require| |done]. intros K2 _ H2.
  apply safe_with_inner; [known|]. intros K3 H3.
  eapply safe_try; [apply safe_require; known| |done]. intros K4 _ H4.
  eapply safe_try; [apply safe_handle_call; known| |done]. intros K5 _ H5.
  apply safe_call; [known|]. intros []. exists (HInner l). split; [by destruct verb|].
  apply safe_call; [known|]. intros i. by exists (HInner l).
Qed.

Lemma safe_snapshot_write l prefix K :
  l ∈ K → safe K (HPin l prefix) (snapshot_write l prefix) (ends (HPin l prefix)).
Proof.
  intros Hl. unfold snapshot_write.
  apply safe_call; [known|]. intros [[]|e]; (exists (HPin l prefix); split; [done|]); [|done].
  apply safe_call; [known|]. intros b. cbn [trans]. rewrite decide_True by done.
  eexists. split; [done|]. eapply (safe_ends _ _ _ _ (HPin l prefix)).
  - destruct b; [|done]. apply safe_call; [known|]. intros []. exists (HBorrowPin l prefix). cbn [trans].
    rewrite decide_True by done. split; [done|]. apply safe_call; [known|]. intros r. exists (HPin l prefix). cbn [trans].
    rewrite decide_True by done. split; [done|].
    apply safe_call; [known|]. intros []. by exists (HPin l prefix).
  - intros K1 r H1. eapply (safe_ends _ _ _ _ (HPin l prefix)).
    + destruct (is_err r); [|done]. split; [known|]. intros []. by exists (HPin l prefix).
    + intros K2 _ H2. destruct r as [[]|e]; [|done]. cbn [mbind prog_bind].
      apply safe_call; [known|]. intros [fl|e]; by exists (HPin l prefix).
Qed.

Lemma safe_snapshot id prefix K : safe K HNone (snapshot id prefix) (ends HNone).
Proof.
  unfold snapshot. destruct (validate_artifact_name prefix); [|done].
  eapply safe_try; [split; [known|]; intros r; by exists HNone| |done]. intros K0 _ H0.
  apply safe_slot; [|done]. intros K1 l H1 Hl.
  eapply safe_try; [by apply safe_require| |done]. intros K2 _ H2.
  apply safe_with_inner; [known|]. intros K3 H3.
  eapply safe_try; [apply safe_require; known| |done]. intros K4 _ H4.
  apply safe_with_pin; [known|]. intros K5 H5. apply safe_snapshot_write. known.
Qed.

Lemma safe_teardown_slot l K : l ∈ K → safe K HNone (teardown_slot l) (ends HNone).
Proof.
  intros Hl. apply safe_call; [known|]. intros []. exists HNone. split; [done|].
  apply safe_with_inner; [known|]. intros K1 H1.
  apply safe_call; [known|]. intros []. exists (HDoomed l). cbn [trans].
  rewrite decide_True by done. split; [done|].
  apply safe_call; [known|]. intros o. cbn [trans]. rewrite decide_True by done.
  eexists. split; [done|]. destruct o as [v|]; [|done].
  split; [known|]. intros r. exists (HInner l). cbn [trans]. by rewrite decide_True.
Qed.

Lemma safe_destroy id K : safe K HNone (destroy id) (ends HNone).
Proof. apply safe_slot; [|done]. intros K1 l H1 Hl. by apply safe_teardown_slot. Qed.

Lemma safe_any_pins slots name K : slots ⊆ K → safe K HVms (any_pins slots name) (ends HVms).
Proof.
  revert K. induction slots as [|l slots IH]; intros K Hs; [done|]. cbn [any_pins].
  apply safe_call; [known|]. intros b. exists HVms. split; [done|]. destruct b; [done|].
  apply IH. cbn. known.
Qed.

Lemma safe_collect {B : Set} (f : N → cmd B) slots K :
  (∀ l, cmd_locs (f l) = [l] ∧ ∀ b, trans HVms (f l) b = Some HVms) → slots ⊆ K →
  safe K HVms (collect f slots) (ends HVms).
Proof.
  intros Hf. revert K. induction slots as [|l slots IH]; intros K Hs; [done|]. cbn [collect].
  apply safe_call.
  { rewrite (proj1 (Hf l)). known. }
  intros b. exists HVms. split; [apply Hf|].
  eapply safe_ends; [apply IH; known|]. done.
Qed.

Lemma safe_is_artifact_in_use name K : safe K HNone (is_artifact_in_use name) (ends HNone).
Proof.
  apply safe_call; [known|]. intros slots. exists HVms. split; [done|].
  eapply safe_ends; [apply safe_any_pins; cbn; known|]. intros K1 b H1.
  apply safe_call; [known|]. intros []. by exists HNone.
Qed.

Lemma safe_delete_artifact name K : safe K HNone (delete_artifact_if_unused name) (ends HNone).
Proof.
  apply safe_call; [known|]. intros slots. exists HVms. split; [done|].
  eapply safe_ends; [apply safe_any_pins; cbn; known|]. intros K1 b H1.
  eapply (safe_ends _ _ _ _ HVms).
  - destruct b; [done|]. split; [known|]. intros r. by exists HVms.
  - intros K2 r H2. apply safe_call; [known|]. intros []. by exists HNone.
Qed.

Lemma safe_teardown_each slots K : slots ⊆ K → safe K HNone (teardown_each slots) (ends HNone).
Proof.
  revert K. induction slots as [|l slots IH]; intros K Hs; [done|]. cbn [teardown_each].
  eapply safe_ends; [apply safe_teardown_slot; known|]. intros K1 _ H1. apply IH. known.
Qed.

Lemma safe_shutdown_all K : safe K HNone shutdown_all (ends HNone).
Proof.
  apply safe_call; [known|]. intros slots. exists HVms. split; [done|].
  apply safe_call; [known|]. intros []. exists HNone. split; [done|].
  apply safe_teardown_each. cbn. known.
Qed.

Lemma safe_list_vms K : safe K HNone list_vms (ends HNone).
Proof.
  apply safe_call; [known|]. intros slots. exists HVms. split; [done|].
  eapply safe_ends; [apply safe_collect; [done|cbn; known]|]. intros K1 infos H1.
  apply safe_call; [known|]. intros []. by exists HNone.
Qed.

Lemma safe_get id K : safe K HNone (get id) (ends HNone).
Proof.
  apply safe_slot; [|done]. intros K1 l H1 Hl. apply safe_call; [known|].
  intros i. by exists HNone.
Qed.

Lemma safe_live_ids K : safe K HNone live_ids (ends HNone).
Proof.
  apply safe_call; [known|]. intros slots. exists HVms. split; [done|].
  eapply safe_ends; [apply safe_collect; [done|cbn; known]|]. intros K1 vmids H1.
  apply safe_call; [known|]. intros n. exists HVms. split; [done|].
  apply safe_call; [known|]. intros []. by exists HNone.
Qed.

Lemma safe_resolve name K : safe K HNone (call (CResolve name)) (ends HNone).
Proof. split; [known|]. intros r. by exists HNone. Qed.

Lemma safe_resolve_disks disks K : safe K HNone (resolve_disks disks) (ends HNone).
Proof.
  revert K. induction disks as [|d disks IH]; intros K; [done|]. cbn [resolve_disks].
  eapply safe_try; [apply safe_resolve|by intros; apply IH|done].
Qed.

Lemma safe_create_checks req K : safe K HNone (create_checks req) (ends HNone).
Proof.
  eapply safe_try; [apply safe_resolve| |done]. intros K1 _ _.
  eapply safe_try; [apply safe_resolve| |done]. intros K2 _ _.
  case_match; [done|]. case_match; [done|].
  destruct (resolve_steward_placement req) as [pl|e]; [|done]. cbn [mbind prog_bind].
  eapply (safe_try _ _ _ _ HNone); [|intros K3 _ _|done].
  - unfold resolve_restore. destruct (rq_restore_from req) as [p|]; [|done].
    destruct (validate_artifact_name p); [|done]. apply safe_call; [known|].
    intros b. by exists HNone.
  - by eapply safe_try; [apply safe_resolve_disks| |].
Qed.

Lemma safe_launch req spec K : safe K HNone (launch req spec) (ends HNone).
Proof.
  apply safe_call; [known|]. intros []. exists HLaunch. split; [done|].
  apply safe_call; [known|]. intros [v|e].
  - exists (HLaunched v). split; [done|].
    apply safe_call; [known|]. intros [l id]. exists (HFresh l id v). split; [done|].
    apply safe_call; [known|]. intros []. exists HLaunch. cbn [trans fst snd].
    rewrite decide_True by done. split; [done|].
    apply safe_call; [known|]. intros []. by exists HNone.
  - exists HLaunch. split; [done|]. apply safe_call; [known|]. intros []. by exists HNone.
Qed.

Lemma safe_create req K : safe K HNone (create req) (ends HNone).
Proof.
  eapply safe_try; [apply safe_create_checks| |done]. intros K1 spec _.
  eapply safe_try; [apply safe_launch| |done]. intros K2 info _.
  destruct (rq_command req); [|done].
  eapply safe_ends; [apply safe_exec|]. intros K3 outcome _.
  eapply (safe_ends _ _ _ _ HNone); [|done].
  destruct (_ || _); [|done]. by eapply safe_ends; [apply safe_destroy|].
Qed.

(** Every request is served by a disciplined program. *)
Lemma safe_serve q K : safe K HNone (serve q) (ends HNone).
Proof.
  destruct q; (eapply safe_ends; [|done]).
  - apply safe_create.
  - apply safe_list_vms.
  - apply safe_get.
  - apply safe_exec.
  - apply safe_stats.
  - apply safe_drive_vcpus.
  - apply safe_drive_vcpus.
  - apply safe_snapshot.
  - apply safe_destroy.
  - apply safe_is_artifact_in_use.
  - apply safe_delete_artifact.
  - apply safe_live_ids.
  - apply safe_shutdown_all.
Qed.

(** ** Reachable states *)

Section reach.
Context {RE : RegistryEnv}.

Definition helds (ts : gmap N task) : gmap N held := t_held <$> ts.

Record Inv (s : state) : Prop := {
  I_shared : RInv (shared s) (helds (tasks s));
  I_safe : ∀ t T, tasks s !! t = Some T →
    ∃ K, (∀ l, l ∈ K → is_Some (heap (shared s) !! l)) ∧
         safe K (t_held T) (t_prog T) (ends HNone);
}.

Lemma counter_mono s e s' : step s e = Some s' → (counter (shared s) <= counter (shared s'))%N.
Proof.
  destruct e as [t q|t x|t]; cbn; intros Hs.
  - case_match; simplify_eq. cbn. lia.
  - destruct (tasks s !! t) as [T|]; [|done]. cbn in Hs. destruct (t_prog T) as [|B c k]; [done|].
    destruct (exec_cmd t x c (shared s)) as [[b sh]|] eqn:He; [|done]. simplify_eq/=.
    destruct c; cbn in He;
      repeat match goal with E : context [let '(_, _) := ?e in _] |- _ => destruct e end;
      simplify_option_eq; cbn; lia.
  - destruct (tasks s !! t) as [T|]; [|done]. cbn in Hs. destruct (t_prog T); [done|].
    case_match; simplify_eq/=. destruct (t_held T); cbn; lia.
Qed.

(** Slots stay on the heap, and what a command tells about is there. *)
Lemma heap_mono t x {B : Set} (c : cmd B) s b s' l :
  exec_cmd t x c s = Some (b, s') → is_Some (heap s !! l) → is_Some (heap s' !! l).
Proof.
  intros He Hl. destruct c; cbn in He;
    repeat match goal with E : context [let '(_, _) := ?e in _] |- _ => destruct e end;
    simplify_option_eq; cbn; try done; try (by rewrite lookup_alter_is_Some).
  by apply lookup_insert_is_Some'; right.
Qed.

Lemma learn_on_heap t x {B : Set} (c : cmd B) s H b s' l :
  RInv s H → exec_cmd t x c s = Some (b, s') → l ∈ learn c b → is_Some (heap s' !! l).
Proof.
  intros Hi He Hl. destruct c; cbn in He, Hl; try (by apply not_elem_of_nil in Hl);
    simplify_option_eq.
  - destruct (vms s' !! id) as [l'|] eqn:Ev; [|by apply not_elem_of_nil in Hl].
    apply list_elem_of_singleton in Hl as ->.
    destruct (inv_table _ _ Hi _ _ Ev) as (sl & Hsl & _). by eauto.
  - rewrite hash_order_perm in Hl. apply list_elem_of_fmap in Hl as ([id l'] & -> & Hin).
    apply elem_of_map_to_list in Hin. destruct (inv_table _ _ Hi _ _ Hin) as (sl & Hsl & _).
    cbn in *. by eauto.
Qed.

Lemma await_answer {B : Set} (c : cmd B) : is_await c = true → ∃ b : B, True.
Proof.
  destruct c; try done; intros _.
  all: try (by exists tt); try (by exists None); try (by exists []); by exists (Err EInternal).
Qed.

Lemma step_preserves s e s' :
  Inv s → step s e = Some s' → (counter (shared s') <= 2 ^ 64)%N → Inv s'.
Proof.
  intros [Hi Hsafe] Hs Hc. destruct e as [t q|t x|t]; cbn in Hs.
  - destruct (tasks s !! t) eqn:Et; [done|]. injection Hs as <-. split; cbn.
    + unfold helds. rewrite fmap_insert. apply RInv_spawn; [done|]. by rewrite lookup_fmap, Et.
    + intros t' T'. rewrite lookup_insert_Some. intros [[<- <-]|[_ Ht']]; [|by eauto].
      exists []. split; [by intros l ?%not_elem_of_nil|apply safe_serve].
  - destruct (tasks s !! t) as [T|] eqn:Et; [|done]. cbn in Hs.
    destruct (t_prog T) as [|B c k] eqn:Ep; [done|].
    destruct (exec_cmd t x c (shared s)) as [[b sh]|] eqn:He; [|done]. injection Hs as <-.
    destruct (Hsafe t T Et) as (K & HK & Hsf). rewrite Ep in Hsf. destruct Hsf as [_ Hsf].
    destruct (Hsf b) as (h' & Htr & Hk). cbn in Hc. rewrite Htr. split; cbn.
    + unfold helds. rewrite fmap_insert. cbn. eapply cmd_preserves; [exact Hi| |exact Htr|exact He|done].
      unfold helds. by rewrite lookup_fmap, Et.
    + intros t' T'. rewrite lookup_insert_Some. intros [[<- <-]|[_ Ht']]; cbn.
      * eexists. split; [|exact Hk]. intros l [Hl|Hl]%elem_of_app.
        -- by eapply learn_on_heap.
        -- eapply heap_mono; [exact He|by apply HK].
      * destruct (Hsafe t' T' Ht') as (K' & HK' & ?). exists K'. split; [|done].
        intros l Hl. eapply heap_mono; [exact He|by apply HK'].
  - destruct (tasks s !! t) as [T|] eqn:Et; [|done]. cbn in Hs.
    destruct (t_prog T) as [|B c k] eqn:Ep; [done|]. destruct (is_await c) eqn:Ea; [|done].
    injection Hs as <-. destruct (Hsafe t T Et) as (K & HK & Hsf). rewrite Ep in Hsf.
    split; cbn.
    + unfold helds. rewrite fmap_delete. apply drop_preserves; [done|by rewrite lookup_fmap, Et|].
      destruct (await_answer c Ea) as [b _]. destruct Hsf as [_ Hsf].
      destruct (Hsf b) as (h' & Htr & _). by eapply trans_awaitable.
    + intros t' T' [_ Ht']%lookup_delete_Some. destruct (Hsafe t' T' Ht') as (K' & HK' & ?).
      exists K'. split; [|done]. intros l Hl. specialize (HK' l Hl).
      destruct (t_held T); cbn; rewrite ?lookup_alter_is_Some; done.
Qed.

Lemma init_inv files : Inv (init_state files).
Proof. split; [split|]; done. Qed.

Lemma run_counter_mono es s s' :
  run s es = Some s' → (counter (shared s) <= counter (shared s'))%N.
Proof.
  revert s. induction es as [|e es IH]; intros s; cbn; [by intros [= ->]|].
  destruct (step s e) as [s1|] eqn:E; [|done]. intros ?%IH. apply counter_mono in E. lia.
Qed.

Lemma run_inv es s s' :
  Inv s → run s es = Some s' → (counter (shared s') <= 2 ^ 64)%N → Inv s'.
Proof.
  revert s. induction es as [|e es IH]; intros s Hi; cbn; [by intros [= <-]|].
  destruct (step s e) as [s1|] eqn:Hs; [|done]. cbn. intros Hr Hc.
  apply (IH s1); [|done|done]. eapply step_preserves; [done|exact Hs|].
  apply run_counter_mono in Hr. lia.
Qed.

(** The invariant holds in every state the daemon can reach, for as long as
    fewer than [2 ^ 64] ids have been minted. *)
Lemma reachable_inv s : reachable s → (counter (shared s) <= 2 ^ 64)%N → Inv s.
Proof. intros (files & es & Hr) Hc. eapply run_inv; [apply init_inv|exact Hr|done]. Qed.
End reach.
