(* ===== verification/RegistryProps.v ===== *)
(** * The VM registry: what it promises

    Theorems about every state the daemon can reach under any interleaving and
    any cancellation: exclusive use of a VM's control channel, the pin that
    protects a snapshot being written, complete accounting of live VMs, ids
    that are never reused, freedom from deadlock, and the one-way doors of the
    lifecycle with the schedules that get through them. *)

From S2P Require Import Prelude ArtifactName DaemonTypes ArtifactStore Registry RegistryInv.

(** The slot whose handle a task is calling, if it is inside such a call. *)
Definition calling (p : prog reply) : option N :=
  match p with
  | Act c _ =>
      match c with CHandleCall l _ | CHandleSnapshot l _ => Some l | _ => None end
  | Ret _ => None
  end.

(** The slot and prefix of the snapshot the VMM is writing for a task. *)
Definition writing (p : prog reply) : option (N * string) :=
  match p with
  | Act c _ => match c with CHandleSnapshot l prefix => Some (l, prefix) | _ => None end
  | Ret _ => None
  end.

(** The slot and id a task is about to put into the table. *)
Definition inserting (p : prog reply) : option (N * string) :=
  match p with
  | Act c _ => match c with CInsert l id _ _ => Some (l, id) | _ => None end
  | Ret _ => None
  end.

Section facts.
Context {RE : RegistryEnv}.

(** A task about to issue [c] holds what the discipline asks for. *)
Lemma inv_held s t T {B : Set} (c : cmd B) k :
  Inv s → tasks s !! t = Some T → t_prog T = Act c k →
  helds (tasks s) !! t = Some (t_held T) ∧ ∀ b, is_Some (trans (t_held T) c b).
Proof.
  intros Hi Ht Hp. destruct (I_safe _ Hi t T Ht) as (K & _ & Hs). rewrite Hp in Hs.
  split; [unfold helds; by rewrite lookup_fmap, Ht|]. intros b.
  destruct Hs as [_ Hs]. destruct (Hs b) as (h' & -> & _). done.
Qed.

Lemma calling_inner s t T l :
  Inv s → tasks s !! t = Some T → calling (t_prog T) = Some l →
  helds (tasks s) !! t = Some (t_held T) ∧ inner_of (t_held T) = Some l ∧ borrows (t_held T).
Proof.
  intros Hi Ht Hc. destruct (t_prog T) as [|B c k] eqn:Hp; [done|].
  destruct (inv_held s t T c k Hi Ht Hp) as [Hh Htr]. split; [done|].
  destruct c; cbn in Hc; try done; injection Hc as ->.
  all: destruct (Htr (Err EInternal)) as [h' Hh']; cbn in Hh'.
  all: destruct (t_held T); try done; cbn; case_decide; naive_solver.
Qed.

Lemma inner_unique s t1 t2 h1 h2 l :
  Inv s → helds (tasks s) !! t1 = Some h1 → helds (tasks s) !! t2 = Some h2 →
  inner_of h1 = Some l → inner_of h2 = Some l → t1 = t2.
Proof.
  intros Hi H1 H2 L1 L2.
  destruct (owned_slot _ _ _ _ _ (I_shared _ Hi) H1 L1) as (sl & Hsl & _ & E1 & _).
  destruct (owned_slot _ _ _ _ _ (I_shared _ Hi) H2 L2) as (sl' & Hsl' & _ & E2 & _).
  congruence.
Qed.
End facts.

(** C1: one operation at a time on a VM's control channel.  In every reachable
    state, two tasks that are inside a call through the handle of the same VM
    are the same task, and the handle is there: no interleaving and no
    cancellation lets a second operation in or a call outlive the teardown. *)
Theorem control_channel_exclusive {RE : RegistryEnv} s t1 t2 T1 T2 l :
  reachable s → (counter (shared s) <= 2 ^ 64)%N →
  tasks s !! t1 = Some T1 → tasks s !! t2 = Some T2 →
  calling (t_prog T1) = Some l → calling (t_prog T2) = Some l →
  t1 = t2 ∧ ∃ sl v, heap (shared s) !! l = Some sl ∧ sl_handle sl = Some v ∧ sl_lock sl = Some t1.
Proof.
  intros Hr Hc H1 H2 C1 C2. pose proof (reachable_inv s Hr Hc) as Hi.
  destruct (calling_inner s t1 T1 l Hi H1 C1) as (L1 & I1 & B1).
  destruct (calling_inner s t2 T2 l Hi H2 C2) as (L2 & I2 & _).
  split; [by eapply inner_unique|].
  destruct (owned_slot _ _ _ _ _ (I_shared _ Hi) L1 I1) as (sl & Hsl & Hok & Hlk & Ho & _).
  destruct (ok_borrow _ _ _ _ Hok _ Ho B1) as [v Hv]. by exists sl, v.
Qed.

(** A snapshot's prefix is pinned for the whole of the write.  Whenever a
    task is inside the VMM's snapshot call on slot [l] with prefix [p], that
    slot is in the table and pins [p], so the delete-in-use scan over the
    table answers yes. *)
Theorem snapshot_prefix_pinned {RE : RegistryEnv} s t T l p :
  reachable s → (counter (shared s) <= 2 ^ 64)%N →
  tasks s !! t = Some T → writing (t_prog T) = Some (l, p) →
  ∃ sl, heap (shared s) !! l = Some sl ∧ vms (shared s) !! sl_id sl = Some l ∧
        l ∈ hash_order (vms (shared s)) ∧ pins sl p = true.
Proof.
  intros Hr Hc Ht Hw. pose proof (reachable_inv s Hr Hc) as Hi.
  destruct (t_prog T) as [|B c k] eqn:Hp; [done|].
  destruct (inv_held s t T _ k Hi Ht Hp) as [Hh Htr].
  assert (t_held T = HBorrowPin l p) as Hheld.
  { destruct c; try done. injection Hw as -> ->. destruct (Htr (Err EInternal)) as [h' Hh']. cbn in Hh'. destruct (t_held T); try done.
    case_decide; naive_solver. }
  rewrite Hheld in Hh.
  destruct (owned_slot _ _ _ _ _ (I_shared _ Hi) Hh eq_refl) as (sl & Hsl & Hok & _ & Ho & Hpin).
  destruct (ok_borrow _ _ _ _ Hok _ Ho I) as [v Hv].
  destruct (ok_handle _ _ _ _ Hok v Hv) as [_ [Htab|Hd]]; [|congruence].
  exists sl. split_and!; try done.
  - rewrite hash_order_perm. apply list_elem_of_fmap. exists (sl_id sl, l).
    by rewrite elem_of_map_to_list.
  - unfold pins. cbn in Hpin. rewrite Hpin, (bool_decide_true (Some p = Some p)) by done. apply orb_true_r.
Qed.

(** A VM is alive while its handle exists: in a slot, or in the hands of a task
    that has just launched it or is tearing it down. *)
Definition alive (s : state) (v : N) : Prop :=
  (∃ l sl, heap (shared s) !! l = Some sl ∧ sl_handle sl = Some v) ∨
  (∃ t T, tasks s !! t = Some T ∧
     (t_held T = HLaunched v ∨ (∃ l id, t_held T = HFresh l id v) ∨ (∃ l, t_held T = HTaken l v))).

(** The vmids of the slots in the table: what [live_ids] collects. *)
Definition table_vmids (sh : Shared) : list N :=
  omap (λ l, sl_vmid <$> heap sh !! l) (map_to_list (vms sh)).*2.

(** A teardown of VM [v] has removed its slot and not finished. *)
Definition tearing_down (s : state) (v : N) : Prop :=
  ∃ t T l, tasks s !! t = Some T ∧
    (t_held T = HTaken l v ∨
     (t_held T = HDoomed l ∧ ∃ sl, heap (shared s) !! l = Some sl ∧ sl_handle sl = Some v)).

(** No live VM is unaccounted for.  The in-flight count is exactly the
    number of launch windows open, and every live VM is listed by the table,
    or covered by a non-zero in-flight count, or already past its slot's
    removal in a teardown. *)
Theorem live_vms_accounted {RE : RegistryEnv} s :
  reachable s → (counter (shared s) <= 2 ^ 64)%N →
  launches_in_flight (shared s) = launch_count (helds (tasks s)) ∧
  ∀ v, alive s v →
    v ∈ table_vmids (shared s) ∨ (0 < launches_in_flight (shared s))%N ∨ tearing_down s v.
Proof.
  intros Hr Hc. pose proof (reachable_inv s Hr Hc) as Hi. pose proof (I_shared _ Hi) as Hs.
  split; [apply (inv_launches _ _ Hs)|].
  assert (∀ t T, tasks s !! t = Some T → launching (t_held T) = true →
    (0 < launches_in_flight (shared s))%N) as Hpos.
  { intros t T Ht Hl. rewrite (inv_launches _ _ Hs).
    rewrite (launch_count_split _ t (t_held T)); [rewrite Hl; cbn; lia|].
    unfold helds. by rewrite lookup_fmap, Ht. }
  intros v [(l & sl & Hsl & Hv)|(t & T & Ht & Hh)].
  - destruct (ok_handle _ _ _ _ (inv_slot _ _ Hs l sl Hsl) v Hv) as [Hvm [Htab|Hd]].
    + left. unfold table_vmids. apply list_elem_of_omap. exists l. rewrite Hsl. cbn.
      split; [|congruence]. apply list_elem_of_fmap. exists (sl_id sl, l).
      by rewrite elem_of_map_to_list.
    + right. right. unfold owner_held in Hd. destruct (sl_lock sl) as [t|]; [|done]. cbn in Hd.
      unfold helds in Hd. rewrite lookup_fmap in Hd.
      destruct (tasks s !! t) as [T|] eqn:Ht; [|done]. injection Hd as Hd.
      exists t, T, l. split; [done|]. right. by eauto.
  - destruct Hh as [Hh|[(l & id & Hh)|(l & Hh)]].
    + right. left. eapply Hpos; [exact Ht|by rewrite Hh].
    + right. left. eapply Hpos; [exact Ht|by rewrite Hh].
    + right. right. exists t, T, l. by auto.
Qed.

(** An id is used once.  Whenever [create] is about to put a slot into the
    table, no entry has that id and the slot's location is new: the insert
    never drops another VM out of the registry. *)
Theorem insert_is_fresh {RE : RegistryEnv} s t T l id :
  reachable s → (counter (shared s) <= 2 ^ 64)%N →
  tasks s !! t = Some T → inserting (t_prog T) = Some (l, id) →
  vms (shared s) !! id = None ∧ heap (shared s) !! l = None.
Proof.
  intros Hr Hc Ht Hw. pose proof (reachable_inv s Hr Hc) as Hi. pose proof (I_shared _ Hi) as Hs.
  destruct (t_prog T) as [|B c k] eqn:Hp; [done|].
  destruct (inv_held s t T _ k Hi Ht Hp) as [Hh Htr].
  assert (∃ v, t_held T = HFresh l id v) as [v Hheld].
  { destruct c; try done. injection Hw as -> ->. destruct (Htr tt) as [h' Hh']. cbn in Hh'. destruct (t_held T); try done.
    case_decide; naive_solver. }
  rewrite Hheld in Hh. destruct (inv_fresh _ _ Hs t l id v Hh) as (-> & Hlt & Hnone & _).
  split; [|done]. destruct (vms (shared s) !! mint_id seed l) as [l'|] eqn:E; [|done].
  destruct (inv_table _ _ Hs _ _ E) as (sl & Hsl & Hid).
  destruct (ok_id _ _ _ _ (inv_slot _ _ Hs l' sl Hsl)) as [Hlt' Hid'].
  rewrite Hid in Hid'. apply mint_id_inj in Hid'; [|lia..]. congruence.
Qed.

(** ** Progress *)

Definition wants_vms {B : Set} (c : cmd B) : bool :=
  match c with CLookup _ | CInsert _ _ _ _ | CRemove _ | CVmsLock => true | _ => false end.

Definition wants_inner {B : Set} (c : cmd B) : option N :=
  match c with CLockInner l => Some l | _ => None end.

Definition unfinished (T : task) : Prop :=
  match t_prog T with Act _ _ => True | Ret _ => False end.

Section progress.
Context {RE : RegistryEnv}.

(** Only the two locks can block a command. *)
Lemma exec_enabled t x {B : Set} (c : cmd B) sh :
  (∀ l, l ∈ cmd_locs c → is_Some (heap sh !! l)) →
  (wants_vms c = true → vms_lock sh = None) →
  (∀ l sl, wants_inner c = Some l → heap sh !! l = Some sl → sl_lock sl = None) →
  is_Some (exec_cmd t x c sh).
Proof.
  intros Hl Hv Hi.
  assert (∀ l, cmd_locs c = [l] → ∃ sl, heap sh !! l = Some sl) as Hloc.
  { intros l E. apply Hl. rewrite E. apply list_elem_of_here. }
  destruct c; cbn in *;
    try (destruct (Hloc _ eq_refl) as [sl Hsl]; rewrite Hsl; cbn);
    rewrite ?option_guard_True by auto; try (by eauto).
  - rewrite option_guard_True by (by eapply Hi). by eauto.
  - by destruct (make_dir _ _ _).
  - by destruct (store_delete _ _).
Qed.

Lemma run_enabled s t T {B : Set} (c : cmd B) k :
  Inv s → tasks s !! t = Some T → t_prog T = Act c k →
  (wants_vms c = true → vms_lock (shared s) = None) →
  (∀ l sl, wants_inner c = Some l → heap (shared s) !! l = Some sl → sl_lock sl = None) →
  ∀ x, is_Some (step s (Run t x)).
Proof.
  intros Hi Ht Hp Hv Hl x. cbn. rewrite Ht. cbn. rewrite Hp.
  destruct (I_safe _ Hi t T Ht) as (K & HK & Hs). rewrite Hp in Hs. destruct Hs as [Hlocs _].
  destruct (exec_enabled t x c (shared s)) as [[b sh] ->]; try done.
  intros l Hin. apply HK. by apply Hlocs.
Qed.

(** A finished task holds nothing. *)
Lemma holding_unfinished s t T :
  Inv s → tasks s !! t = Some T → t_held T ≠ HNone →
  ∃ (B : Set) (c : cmd B) k, t_prog T = Act c k ∧ ∀ b, is_Some (trans (t_held T) c b).
Proof.
  intros Hi Ht Hn. destruct (t_prog T) as [a|B c k] eqn:Hp.
  - destruct (I_safe _ Hi t T Ht) as (K & _ & Hs). rewrite Hp in Hs. by destruct Hn.
  - exists B, c, k. split; [done|]. by eapply (inv_held s t T c k).
Qed.

Lemma helds_lookup s t h :
  helds (tasks s) !! t = Some h → ∃ T, tasks s !! t = Some T ∧ t_held T = h.
Proof.
  unfold helds. rewrite lookup_fmap. destruct (tasks s !! t) as [T|]; [|done].
  intros [= <-]. by exists T.
Qed.
End progress.

(** C30: the registry cannot deadlock.  In every reachable state in which some
    task is not finished, some task can take its next step, whatever the
    launcher, the handles and the file system answer: the two kinds of lock are
    never waited for in a cycle, and the table's lock is never held across an
    await. *)
Theorem no_deadlock {RE : RegistryEnv} s t T :
  reachable s → (counter (shared s) <= 2 ^ 64)%N → tasks s !! t = Some T → unfinished T →
  ∃ t', ∀ x, is_Some (step s (Run t' x)).
Proof.
  intros Hr Hc Ht Hu. pose proof (reachable_inv s Hr Hc) as Hi. pose proof (I_shared _ Hi) as Hs.
  destruct (vms_lock (shared s)) as [tv|] eqn:Hv.
  - pose proof Hv as Hh. apply (inv_vms_lock _ _ Hs), helds_lookup in Hh as (Tv & Htv & Hheld).
    destruct (holding_unfinished s tv Tv Hi Htv) as (B & c & k & Hp & Htr); [by rewrite Hheld|].
    exists tv. rewrite Hheld in Htr.
    assert (wants_vms c = false ∧ wants_inner c = None) as [E1 E2].
    { destruct c; try done; cbn in Htr; by destruct (Htr ltac:(repeat constructor)). }
    eapply run_enabled; try done; rewrite ?E1, ?E2; done.
  - unfold unfinished in Hu. destruct (t_prog T) as [|B c k] eqn:Hp; [done|].
    destruct (wants_inner c) as [l|] eqn:Hw.
    2: { exists t. eapply run_enabled; try done. by rewrite Hw. }
    destruct (heap (shared s) !! l) as [sl|] eqn:Hsl.
    2: { exists t. eapply run_enabled; try done. rewrite Hw. intros ? ? [= <-]. congruence. }
    destruct (sl_lock sl) as [t2|] eqn:Hlk.
    2: { exists t. eapply run_enabled; try done. rewrite Hw. intros ? ? [= <-]. congruence. }
    apply (ok_lock _ _ _ _ (inv_slot _ _ Hs l sl Hsl)) in Hlk.
    destruct (helds (tasks s) !! t2) as [h2|] eqn:Hh2; [|done]. cbn in Hlk.
    apply helds_lookup in Hh2 as (T2 & Ht2 & <-).
    destruct (holding_unfinished s t2 T2 Hi Ht2) as (B2 & c2 & k2 & Hp2 & Htr);
      [by intros E; rewrite E in Hlk|].
    exists t2. eapply run_enabled; try done. intros l' sl' Hw'. exfalso.
    destruct c2; try done. cbn in Htr. destruct (Htr tt) as [h' Hh']. by destruct (t_held T2).
Qed.

(** ** One-way doors *)

(** The command sets slot [l] to [Snapshotting]. *)
Definition marks {B : Set} (c : cmd B) (l : N) : Prop :=
  match c with CSetState l' Snapshotting => l' = l | _ => False end.

Definition next_marks (p : prog reply) (l : N) : Prop :=
  match p with Act c _ => marks c l | Ret _ => False end.

(** How a slot may evolve: its id is fixed, a handle does not come back, and
    [Destroying] is left only where [mark] allows it. *)
Definition evolves (mark : Prop) (sl sl' : VmSlot) : Prop :=
  sl_id sl' = sl_id sl ∧ (sl_handle sl = None → sl_handle sl' = None) ∧
  (slot_state sl = Destroying → slot_state sl' = Destroying ∨ mark).

Section doors.
Context {RE : RegistryEnv}.

Lemma evolves_refl mark sl : evolves mark sl sl.
Proof. unfold evolves. auto. Qed.

Lemma evolves_transition mark from to sl :
  from ≠ Destroying → evolves mark sl (transition_from from to sl).
Proof.
  intros Hf. unfold transition_from. case_decide as E; [|apply evolves_refl].
  split_and!; try done. intros Hd. congruence.
Qed.

Lemma alter_evolves mark f l' (m : gmap N VmSlot) l sl :
  m !! l = Some sl → (l' = l → evolves mark sl (f sl)) →
  ∃ sl', alter f l' m !! l = Some sl' ∧ evolves mark sl sl'.
Proof.
  intros Hl Hf. rewrite lookup_alter. case_decide as E; [subst l'; rewrite Hl; by eauto|].
  exists sl. split; [done|apply evolves_refl].
Qed.

(** What one command can do to a slot that is already on the heap. *)
Lemma cmd_evolves t x {B : Set} (c : cmd B) b sh sh' H h h' l sl :
  RInv sh H → H !! t = Some h → trans h c b = Some h' → exec_cmd t x c sh = Some (b, sh') →
  heap sh !! l = Some sl →
  ∃ sl', heap sh' !! l = Some sl' ∧ evolves (marks c l) sl sl'.
Proof.
  intros Hi Ht Htr He Hsl.
  destruct c; cbn in Htr, He;
    repeat match goal with E : context [let '(_, _) := ?e in _] |- _ => destruct e end;
    simplify_option_eq; cbn; try (by exists sl; split; [done|apply evolves_refl]).
  - destruct h; simplify_option_eq; destruct_and?; subst.
    destruct (inv_fresh _ _ Hi _ _ _ _ Ht) as (_ & _ & Hn & _).
    exists sl. split; [|apply evolves_refl]. rewrite lookup_insert_ne; [done|]. congruence.
  - eapply alter_evolves; [done|]. intros ->. split_and!; try done. intros _.
    destruct h, st; simplify_option_eq; auto.
  - eapply alter_evolves; [done|]. intros ->. by apply evolves_transition.
  - eapply alter_evolves; [done|]. intros ->. split_and!; auto.
  - eapply alter_evolves; [done|]. intros ->. split_and!; auto.
  - eapply alter_evolves; [done|]. intros ->. split_and!; auto.
  - eapply alter_evolves; [done|]. intros ->. split_and!; auto.
  - eapply alter_evolves; [done|]. intros ->. split_and!; auto.
Qed.

Lemma drop_evolves h sh l sl :
  heap sh !! l = Some sl → ∃ sl', heap (drop_held h sh) !! l = Some sl' ∧ evolves False sl sl'.
Proof.
  intros Hsl. assert (∃ sl', heap sh !! l = Some sl' ∧ evolves False sl sl') as Hsame
    by (exists sl; split; [done|apply evolves_refl]).
  destruct h; cbn; try done; try (eapply alter_evolves; [done|]; intros ->; by split_and!; auto).
  all: match goal with |- context [alter ?f ?k (alter ?g ?k _)] =>
    destruct (alter_evolves False g k (heap sh) l sl Hsl) as (sl1 & Hsl1 & E1 & E2 & E3);
      [by intros ->; split_and!; auto|];
    destruct (alter_evolves False f k (alter g k (heap sh)) l sl1 Hsl1)
      as (sl2 & Hsl2 & F1 & F2 & F3); [by intros ->; split_and!; auto|] end.
  all: exists sl2; split; [done|]; split_and!; [congruence|by auto|]; intros Hd;
    destruct (E3 Hd) as [Hd1|]; [by apply F3|done].
Qed.

(** One step of the machine, seen by a slot. *)
Lemma step_evolves s e s' l sl :
  Inv s → step s e = Some s' → heap (shared s) !! l = Some sl →
  ∃ sl', heap (shared s') !! l = Some sl' ∧
    evolves (∃ t x T, e = Run t x ∧ tasks s !! t = Some T ∧ next_marks (t_prog T) l) sl sl'.
Proof.
  intros Hi Hs Hsl. destruct e as [t q|t x|t]; cbn in Hs.
  - destruct (tasks s !! t); [done|]. injection Hs as <-. exists sl. split; [done|].
    apply evolves_refl.
  - destruct (tasks s !! t) as [T|] eqn:Et; [|done]. cbn in Hs.
    destruct (t_prog T) as [|B c k] eqn:Hp; [done|].
    destruct (exec_cmd t x c (shared s)) as [[b sh]|] eqn:He; [|done]. injection Hs as <-.
    destruct (inv_held s t T c k Hi Et Hp) as [Hh Htr]. destruct (Htr b) as [h' Hh'].
    destruct (cmd_evolves t x c b _ _ _ _ _ l sl (I_shared _ Hi) Hh Hh' He Hsl)
      as (sl' & Hsl' & E1 & E2 & E3).
    exists sl'. split; [done|]. split_and!; try done. intros Hd.
    destruct (E3 Hd) as [?|Hm]; [by left|right]. exists t, x, T. by rewrite Hp.
  - destruct (tasks s !! t) as [T|]; [|done]. cbn in Hs. destruct (t_prog T); [done|].
    case_match; [|done]. injection Hs as <-.
    destruct (drop_evolves (t_held T) (shared s) l sl Hsl) as (sl' & ? & E1 & E2 & E3).
    exists sl'. split; [done|]. split_and!; try done. intros Hd. left. by destruct (E3 Hd).
Qed.
End doors.

(** Teardown is final.  Once the handle of a VM has been taken out of its
    slot it never comes back, over any further schedule: a torn-down VM cannot
    be operated again. *)
Theorem torn_down_stays_down {RE : RegistryEnv} s es s' l sl :
  reachable s → run s es = Some s' → (counter (shared s') <= 2 ^ 64)%N →
  heap (shared s) !! l = Some sl → sl_handle sl = None →
  ∃ sl', heap (shared s') !! l = Some sl' ∧ sl_id sl' = sl_id sl ∧ sl_handle sl' = None.
Proof.
  intros (files & es0 & Hr0) Hr Hc.
  assert (Inv s) as Hi.
  { eapply run_inv; [apply init_inv|exact Hr0|]. apply run_counter_mono in Hr. lia. }
  clear Hr0 files es0. revert s sl Hi Hr. induction es as [|e es IH]; intros s sl Hi; cbn.
  { intros [= ->]. by eauto. }
  destruct (step s e) as [s1|] eqn:Hs; [|done]. cbn. intros Hr Hsl Hn.
  destruct (step_evolves s e s1 l sl Hi Hs Hsl) as (sl1 & Hsl1 & E1 & E2 & _).
  assert (Inv s1) as Hi1.
  { eapply step_preserves; [done|exact Hs|]. apply run_counter_mono in Hr. lia. }
  destruct (IH s1 sl1 Hi1 Hr Hsl1 (E2 Hn)) as (sl' & ? & ? & ?).
  exists sl'. split_and!; try done. congruence.
Qed.

(** The [Destroying] door.  A step never moves a VM out of [Destroying],
    with one exception: the task that runs is a snapshot, holding the VM's
    handle lock and its pin, whose next command is the unconditional
    [set_state(Snapshotting)]. *)
Theorem destroying_door {RE : RegistryEnv} s e s' l sl :
  reachable s → (counter (shared s) <= 2 ^ 64)%N → step s e = Some s' →
  heap (shared s) !! l = Some sl → slot_state sl = Destroying →
  ∃ sl', heap (shared s') !! l = Some sl' ∧
    (slot_state sl' = Destroying ∨
     ∃ t x T p, e = Run t x ∧ tasks s !! t = Some T ∧ next_marks (t_prog T) l ∧
                t_held T = HBorrowPin l p).
Proof.
  intros Hr Hc Hs Hsl Hd. pose proof (reachable_inv s Hr Hc) as Hi.
  destruct (step_evolves s e s' l sl Hi Hs Hsl) as (sl' & Hsl' & _ & _ & E).
  exists sl'. split; [done|]. destruct (E Hd) as [?|(t & x & T & -> & Ht & Hm)]; [by left|right].
  exists t, x, T. destruct (t_prog T) as [|B c k] eqn:Hp; [done|].
  destruct (inv_held s t T c k Hi Ht Hp) as [_ Htr]. cbn in Hm.
  destruct c; try done. cbn in Hm. destruct st; try done. subst.
  destruct (Htr tt) as [h' Hh']. cbn in Hh'. destruct (t_held T) as [| | | | |l' p| | | | |]; try done.
  case_decide; [subst|done]. by exists p.
Qed.

(** ** Schedules on a small daemon *)

Definition demo_env : RegistryEnv := {|
  seed := 42;
  store := open_store 1024;
  store_host := quiet_host;
  hash_order m := (map_to_list m).*2;
  hash_order_perm m := Permutation_refl (map_to_list m).*2;
|}.

Definition demo_files : gmap string node :=
  <["k" := NFile "kernel" None]> (<["r" := NFile "rootfs" None]> ∅).

(** Every call works; the launcher's answer is vmid 7. *)
Definition okx : ext := {| x_io := true; x_res := Ok 7%N; x_files := [("state.json", NOther)] |}.
Definition go (t : N) (n : nat) : list event := replicate n (Run t okx).
Definition demo_id : string := mint_id 42 1.

Definition demo_run (es : list event) : state :=
  default (init_state demo_files) (@run demo_env (init_state demo_files) es).

Definition ran (es : list event) : bool :=
  match @run demo_env (init_state demo_files) es with Some _ => true | None => false end.

Definition demo_task (es : list event) (t : N) : task :=
  default {| t_held := HNone; t_prog := Ret (ABool false) |} (tasks (demo_run es) !! t).

Definition has_task (es : list event) (t : N) : bool :=
  match tasks (demo_run es) !! t with Some _ => true | None => false end.

Lemma demo_reachable es : ran es = true → @reachable demo_env (demo_run es).
Proof.
  unfold ran, demo_run, reachable. intros Hr.
  destruct (@run demo_env (init_state demo_files) es) as [s|] eqn:E; [|done].
  by exists demo_files, es.
Qed.

Lemma demo_task_lookup es t :
  has_task es t = true → tasks (demo_run es) !! t = Some (demo_task es t).
Proof. unfold has_task, demo_task. by destruct (tasks (demo_run es) !! t). Qed.

(** The reply of a finished task, and the state of the one VM. *)
Definition demo_reply (es : list event) (t : N) : option reply :=
  match t_prog (demo_task es t) with Ret a => Some a | Act _ _ => None end.
Definition demo_vm_state (es : list event) : option VmState :=
  slot_state <$> heap (shared (demo_run es)) !! 1%N.

(** A VM is created by task 1; task 2 brings a snapshot of it to the VMM call. *)
Definition boot : list event := Spawn 1 (QCreate (create_request "k" "r")) :: go 1 7.
Definition to_pin : list event := boot ++ Spawn 2 (QSnapshot demo_id "snap") :: go 2 5.
Definition to_mark : list event := to_pin ++ go 2 3.
Definition to_write : list event := to_mark ++ go 2 1.

Lemma control_channel_exclusive_witness :
  calling (t_prog (demo_task to_write 2)) = Some 1%N ∧
  (2%N = 2%N ∧ ∃ sl v, heap (shared (demo_run to_write)) !! 1%N = Some sl ∧
     sl_handle sl = Some v ∧ sl_lock sl = Some 2%N).
Proof.
  split; [vm_compute; reflexivity|].
  eapply (@control_channel_exclusive demo_env (demo_run to_write) 2 2
    (demo_task to_write 2) (demo_task to_write 2) 1).
  - apply demo_reachable. vm_compute. reflexivity.
  - vm_compute. discriminate.
  - apply demo_task_lookup. vm_compute. reflexivity.
  - apply demo_task_lookup. vm_compute. reflexivity.
  - vm_compute. reflexivity.
  - vm_compute. reflexivity.
Defined.

Lemma snapshot_prefix_pinned_witness :
  writing (t_prog (demo_task to_write 2)) = Some (1%N, "snap") ∧
  ∃ sl, heap (shared (demo_run to_write)) !! 1%N = Some sl ∧
    vms (shared (demo_run to_write)) !! sl_id sl = Some 1%N ∧
    1%N ∈ @hash_order demo_env (vms (shared (demo_run to_write))) ∧ pins sl "snap" = true.
Proof.
  split; [vm_compute; reflexivity|].
  apply (@snapshot_prefix_pinned demo_env (demo_run to_write) 2 (demo_task to_write 2)).
  - apply demo_reachable. vm_compute. reflexivity.
  - vm_compute. discriminate.
  - apply demo_task_lookup. vm_compute. reflexivity.
  - vm_compute. reflexivity.
Defined.

(** The launcher has answered and the new slot is not in the table yet. *)
Definition to_insert : list event := Spawn 1 (QCreate (create_request "k" "r")) :: go 1 5.

Lemma live_vms_accounted_witness :
  let s := demo_run to_insert in
  (launches_in_flight (shared s) = 1%N ∧ t_held (demo_task to_insert 1) = HFresh 1 demo_id 7) ∧
  launches_in_flight (shared s) = launch_count (helds (tasks s)) ∧
  ∀ v, alive s v →
    v ∈ table_vmids (shared s) ∨ (0 < launches_in_flight (shared s))%N ∨ tearing_down s v.
Proof.
  split; [vm_compute; split; reflexivity|].
  apply (@live_vms_accounted demo_env (demo_run to_insert)).
  - apply demo_reachable. vm_compute. reflexivity.
  - vm_compute. discriminate.
Defined.

Lemma insert_is_fresh_witness :
  inserting (t_prog (demo_task to_insert 1)) = Some (1%N, demo_id) ∧
  vms (shared (demo_run to_insert)) !! demo_id = None ∧
  heap (shared (demo_run to_insert)) !! 1%N = None.
Proof.
  split; [vm_compute; reflexivity|].
  apply (@insert_is_fresh demo_env (demo_run to_insert) 1 (demo_task to_insert 1)).
  - apply demo_reachable. vm_compute. reflexivity.
  - vm_compute. discriminate.
  - apply demo_task_lookup. vm_compute. reflexivity.
  - vm_compute. reflexivity.
Defined.

(** A destroy parked behind the snapshot's lock. *)
Definition to_parked : list event := to_mark ++ Spawn 3 (QDestroy demo_id) :: go 3 2.

Lemma no_deadlock_witness :
  @step demo_env (demo_run to_parked) (Run 3 okx) = None ∧
  ∃ t', ∀ x, is_Some (@step demo_env (demo_run to_parked) (Run t' x)).
Proof.
  split; [vm_compute; reflexivity|].
  apply (@no_deadlock demo_env (demo_run to_parked) 3 (demo_task to_parked 3)).
  - apply demo_reachable. vm_compute. reflexivity.
  - vm_compute. discriminate.
  - apply demo_task_lookup. vm_compute. reflexivity.
  - vm_compute. exact I.
Defined.

(** The VM destroyed, start to finish. *)
Definition destroyed : list event := boot ++ Spawn 2 (QDestroy demo_id) :: go 2 7.

Definition demo_slot (es : list event) : VmSlot :=
  default (new_slot "" (create_request "" "") 0) (heap (shared (demo_run es)) !! 1%N).

Lemma torn_down_stays_down_witness :
  demo_reply destroyed 2 = Some (AUnit (Ok tt)) ∧
  ∃ sl', heap (shared (demo_run destroyed)) !! 1%N = Some sl' ∧
    sl_id sl' = sl_id (demo_slot destroyed) ∧ sl_handle sl' = None.
Proof.
  split; [vm_compute; reflexivity|].
  apply (@torn_down_stays_down demo_env (demo_run destroyed) [] (demo_run destroyed)).
  - apply demo_reachable. vm_compute. reflexivity.
  - reflexivity.
  - vm_compute. discriminate.
  - vm_compute. reflexivity.
  - vm_compute. reflexivity.
Defined.

Definition demo_step (es : list event) (e : event) : state :=
  default (demo_run es) (@step demo_env (demo_run es) e).

Lemma demo_step_Some es e :
  match @step demo_env (demo_run es) e with Some _ => true | None => false end = true →
  @step demo_env (demo_run es) e = Some (demo_step es e).
Proof. unfold demo_step. by destruct (@step demo_env (demo_run es) e). Qed.

Lemma destroying_door_witness :
  slot_state (demo_slot to_parked) = Destroying ∧
  ∃ sl', heap (shared (demo_step to_parked (Run 2 okx))) !! 1%N = Some sl' ∧
    (slot_state sl' = Destroying ∨
     ∃ t x T p, Run 2 okx = Run t x ∧ tasks (demo_run to_parked) !! t = Some T ∧
                next_marks (t_prog T) 1 ∧ t_held T = HBorrowPin 1 p).
Proof.
  split; [vm_compute; reflexivity|].
  apply (@destroying_door demo_env (demo_run to_parked) (Run 2 okx)
    (demo_step to_parked (Run 2 okx)) 1 (demo_slot to_parked)).
  - apply demo_reachable. vm_compute. reflexivity.
  - vm_compute. discriminate.
  - apply demo_step_Some. vm_compute. reflexivity.
  - vm_compute. reflexivity.
  - vm_compute. reflexivity.
Defined.

(** The exception is reachable.  A destroy that marks the VM [Destroying]
    while a snapshot is between its second state check and its own mark is
    overwritten: the VM is then advertised as [Snapshotting] and, once the
    snapshot is done, as [Ready] again, with the teardown still parked. *)
Theorem destroying_overwritten :
  demo_vm_state to_parked = Some Destroying ∧
  demo_vm_state (to_parked ++ go 2 1) = Some Snapshotting ∧
  let done := to_parked ++ go 2 6 ++ Spawn 4 (QGet demo_id) :: go 4 2 in
  demo_reply done 2 = Some (ASnapshot (Ok ("snap", ["state.json"]))) ∧
  (vi_state <$> match demo_reply done 4 with Some (AInfo (Ok i)) => Some i | _ => None end)
    = Some Ready ∧
  demo_reply done 3 = None.
Proof. vm_compute. done. Qed.

(** A delete can remove a prefix that is being written.  A delete whose
    scan passed the VM's slot just before the snapshot claimed its pin still
    unlinks afterwards, since the pin and the directory are made without the
    table's lock: the delete succeeds, the VMM writes into a directory that is
    gone, and the snapshot fails to read it back. *)
Theorem delete_races_snapshot :
  let scanned := to_pin ++ Spawn 3 (QDelete "snap") :: go 3 2 in
  let pinned := scanned ++ go 2 4 in
  writing (t_prog (demo_task pinned 2)) = Some (1%N, "snap") ∧
  pins (demo_slot pinned) "snap" = true ∧
  fs_is_dir (fs (shared (demo_run pinned))) "snap" = true ∧
  let deleted := pinned ++ go 3 2 in
  demo_reply deleted 3 = Some (AUnit (Ok tt)) ∧
  writing (t_prog (demo_task deleted 2)) = Some (1%N, "snap") ∧
  fs_exists (fs (shared (demo_run deleted))) "snap" = false ∧
  demo_reply (deleted ++ go 2 5) 2 = Some (ASnapshot (Err EInternal)).
Proof. vm_compute. done. Qed.

(** A cancelled snapshot leaves its VM unusable.  Dropping the snapshot's
    future during the write releases the lock and the pin but not the state:
    the VM stays [Snapshotting] with no task left to move it, and exec, pause
    and snapshot are refused. *)
Theorem cancelled_snapshot_sticks :
  let cut := to_write ++ [Cancel 2] in
  demo_vm_state cut = Some Snapshotting ∧
  sl_lock (demo_slot cut) = None ∧ st_snapshot_prefix (sl_status (demo_slot cut)) = None ∧
  demo_reply (cut ++ Spawn 3 (QExec demo_id) :: go 3 2) 3 = Some (ACall (Err EConflict)) ∧
  demo_reply (cut ++ Spawn 3 (QPause demo_id) :: go 3 2) 3 = Some (AInfo (Err EConflict)) ∧
  demo_reply (cut ++ Spawn 3 (QResume demo_id) :: go 3 2) 3 = Some (AInfo (Err EConflict)) ∧
  demo_reply (cut ++ Spawn 3 (QSnapshot demo_id "s2") :: go 3 3) 3 =
    Some (ASnapshot (Err EConflict)).
Proof. vm_compute. done. Qed.
