(* ===== verification/RegistrySeq.v ===== *)
(** * The VM registry: undisturbed operations

    What each operation of the registry does from start to finish when no other
    task interferes: the functional contract of [create], [exec], [snapshot],
    [destroy] and [delete_artifact_if_unused] on every branch, for any answers
    of the launcher, the VMM and the file system.  Also what [create] can ever
    ask the launcher for, which no interleaving changes. *)

From S2P Require Import Prelude ArtifactName DaemonTypes ArtifactStore Registry RegistryInv RegistryProps.

Section seq.
Context {RE : RegistryEnv}.

(** Run a program to its end as task [t]; [ora] answers for the outside
    world, by the number of the command. *)
Fixpoint eval {A} (t : N) (ora : nat → ext) (n : nat) (p : prog A) (sh : Shared)
    : option (A * nat * Shared) :=
  match p with
  | Ret a => Some (a, n, sh)
  | Act c k =>
      match exec_cmd t (ora n) c sh with
      | Some (b, sh') => eval t ora (S n) (k b) sh'
      | None => None
      end
  end.

Lemma eval_bind {A A'} t ora n (p : prog A) (f : A → prog A') sh :
  eval t ora n (p ≫= f) sh =
  match eval t ora n p sh with Some (a, n', sh') => eval t ora n' (f a) sh' | None => None end.
Proof.
  revert n sh. induction p as [a|B c k IH]; intros n sh; cbn; [done|].
  destruct (exec_cmd t (ora n) c sh) as [[b sh']|]; [apply IH|done].
Qed.

Lemma eval_call {A} {B : Set} t ora n (c : cmd B) (f : B → prog A) sh :
  eval t ora n (call c ≫= f) sh =
  match exec_cmd t (ora n) c sh with
  | Some (b, sh') => eval t ora (S n) (f b) sh' | None => None end.
Proof. done. Qed.

(** Locking and unlocking around operations that leave the slot alone. *)
Lemma upd_slot_upd l f g sh : upd_slot l f (upd_slot l g sh) = upd_slot l (λ s, f (g s)) sh.
Proof.
  unfold upd_slot, set_heap. cbn. f_equal. apply map_eq. intros k.
  rewrite !lookup_alter. repeat case_decide; try done. by destruct (heap sh !! l).
Qed.

Lemma upd_slot_id l f sh sl :
  heap sh !! l = Some sl → f sl = sl → upd_slot l f sh = sh.
Proof.
  intros Hl Hf. unfold upd_slot, set_heap. destruct sh. cbn in *. f_equal.
  apply map_eq. intros k. rewrite lookup_alter. case_decide; [subst|done].
  by rewrite Hl; cbn; rewrite Hf.
Qed.

(** *** exec *)

(** The VM [id] is slot [l], present, idle and with its handle. *)
Record idle (sh : Shared) (id : string) (l : N) (sl : VmSlot) : Prop := {
  idle_table : vms sh !! id = Some l;
  idle_slot : heap sh !! l = Some sl;
  idle_vms : vms_lock sh = None;
  idle_lock : sl_lock sl = None;
}.

Lemma eval_slot t ora n id sh l sl :
  idle sh id l sl → eval t ora n (slot id) sh = Some (Ok l, S n, sh).
Proof. intros []. unfold slot. cbn. rewrite option_guard_True by done. cbn. by rewrite idle_table0. Qed.

Lemma eval_require t ora n l want sh sl :
  heap sh !! l = Some sl →
  eval t ora n (require_state l want) sh =
  Some (if decide (slot_state sl = want) then Ok tt else Err EConflict, S n, sh).
Proof. intros Hl. unfold require_state. cbn. by rewrite Hl. Qed.

Lemma eval_lock {A} t ora n l (body : prog A) sh sl :
  heap sh !! l = Some sl → sl_lock sl = None →
  eval t ora n (with_inner l body) sh =
  match eval t ora (S n) body (upd_slot l (set_lock (Some t)) sh) with
  | Some (a, n', sh') => Some (a, S n', upd_slot l (set_lock None) sh')
  | None => None
  end.
Proof.
  intros Hl Hk. unfold with_inner. rewrite eval_call. cbn [exec_cmd]. rewrite Hl. cbn [mbind option_bind].
  rewrite option_guard_True by done. rewrite eval_bind. by destruct (eval _ _ _ body _) as [[[a n'] sh']|].
Qed.

Lemma locked_slot t l sh sl :
  heap sh !! l = Some sl → heap (upd_slot l (set_lock (Some t)) sh) !! l = Some (set_lock (Some t) sl).
Proof. intros Hl. cbn. rewrite lookup_alter, decide_True by done. by rewrite Hl. Qed.

Lemma unlock_lock t l sh sl :
  heap sh !! l = Some sl → sl_lock sl = None →
  upd_slot l (set_lock None) (upd_slot l (set_lock (Some t)) sh) = sh.
Proof.
  intros Hl Hk. rewrite upd_slot_upd. eapply upd_slot_id; [exact Hl|].
  destruct sl. cbn in *. by subst.
Qed.

Lemma eval_exec t ora n id sh l sl v :
  idle sh id l sl → slot_state sl = Ready → sl_handle sl = Some v →
  ∃ m n', eval t ora n (exec id) sh = Some (x_res (ora m), n', sh).
Proof.
  intros Hid Hst Hh. pose proof Hid as []. unfold exec.
  rewrite eval_bind, (eval_slot _ _ _ _ _ _ _ Hid).
  rewrite eval_bind, (eval_require _ _ _ _ _ _ _ idle_slot0), decide_True by done.
  rewrite (eval_lock _ _ _ _ _ _ _ idle_slot0 idle_lock0).
  pose proof (locked_slot t l sh sl idle_slot0) as Hl'.
  rewrite eval_bind, (eval_require _ _ _ _ _ _ _ Hl'), decide_True by done.
  unfold handle_mut_call. rewrite eval_call. cbn [exec_cmd]. rewrite Hl'. cbn [mbind option_bind].
  cbn [sl_handle set_lock]. rewrite Hh, bool_decide_true by done. cbn [eval call exec_cmd].
  do 2 eexists. by rewrite (unlock_lock t l sh sl).
Qed.

(** *** destroy *)

Lemma eval_destroy t ora n id sh l sl :
  idle sh id l sl → sl_id sl = id →
  ∃ r n', eval t ora n (destroy id) sh =
    Some (r, n', upd_slot l (λ s, set_lock None (set_handle None (set_state Destroying s)))
                   (set_vms (delete id (vms sh)) sh)).
Proof.
  intros Hid Hsid. pose proof Hid as []. unfold destroy.
  rewrite eval_bind, (eval_slot _ _ _ _ _ _ _ Hid). unfold teardown_slot. rewrite eval_call.
  cbn [exec_cmd]. set (sh1 := upd_slot l (set_state Destroying) sh).
  assert (heap sh1 !! l = Some (set_state Destroying sl)) as H1.
  { cbn. rewrite lookup_alter, decide_True by done. by rewrite idle_slot0. }
  rewrite (eval_lock _ _ _ _ _ _ _ H1) by done.
  pose proof (locked_slot t l sh1 _ H1) as H2. set (sh2 := upd_slot l (set_lock (Some t)) sh1) in *.
  rewrite eval_call. cbn [exec_cmd]. rewrite option_guard_True by done. rewrite H2.
  cbn [mbind option_bind]. rewrite eval_call. cbn [exec_cmd].
  change (heap (set_vms ?d sh2)) with (heap sh2).
  rewrite H2. cbn [mbind option_bind sl_handle set_lock set_state set_status].
  assert (∀ r m, ∃ r' n', Some (r, m, upd_slot l (set_lock None)
    (upd_slot l (set_handle None) (set_vms (delete (sl_id sl) (vms sh2)) sh2))) =
    Some (r' : result DaemonError unit, n' : nat,
      upd_slot l (λ s, set_lock None (set_handle None (set_state Destroying s)))
                   (set_vms (delete id (vms sh)) sh))) as Hfin.
  { intros r m. exists r, m. do 2 f_equal. rewrite Hsid. subst sh2 sh1.
    unfold upd_slot, set_vms, set_heap. cbn. f_equal. apply map_eq. intros k.
    rewrite !lookup_alter. repeat case_decide; try done. by destruct (heap sh !! l). }
  destruct (sl_handle sl) as [v|]; cbn [eval call exec_cmd]; apply Hfin.
Qed.

(** *** create *)

(** The checks read the store only. *)
Lemma eval_resolve_disks t ora n disks sh :
  ∃ r n', eval t ora n (resolve_disks disks) sh = Some (r, n', sh).
Proof.
  revert n. induction disks as [|d disks IH]; intros n; cbn [resolve_disks]; [by cbn; eauto|].
  rewrite eval_call. cbn [exec_cmd]. destruct (resolve_existing _ _); [apply IH|by cbn; eauto].
Qed.

Lemma eval_create_checks t ora n req sh :
  ∃ r n', eval t ora n (create_checks req) sh = Some (r, n', sh).
Proof.
  unfold create_checks. rewrite eval_call. cbn [exec_cmd].
  destruct (resolve_existing _ _); [|by cbn; eauto].
  rewrite eval_call. cbn [exec_cmd]. destruct (resolve_existing _ _); [|by cbn; eauto].
  case_match; [by cbn; eauto|]. case_match; [by cbn; eauto|].
  destruct (resolve_steward_placement req); cbn [mbind prog_bind]; [|by cbn; eauto].
  rewrite eval_bind.
  assert (∀ m, ∃ r n', eval t ora m (resolve_restore (rq_restore_from req)) sh = Some (r, n', sh))
    as Hr.
  { intros m. unfold resolve_restore. destruct (rq_restore_from req) as [p|]; [|by cbn; eauto].
    destruct (validate_artifact_name p); by cbn; eauto. }
  edestruct Hr as ([]& n' & ->); [|by cbn; eauto]. rewrite eval_bind.
  edestruct (eval_resolve_disks t ora) as ([] & n2 & ->); by cbn; eauto.
Qed.

(** The state after a launched VM has been inserted. *)
Definition inserted (sh : Shared) (req : CreateVmRequest) (v : N) : Shared :=
  let n := counter sh in
  let id := mint_id seed n in
  set_vms (<[id := n]> (vms sh))
    (set_heap (<[n := new_slot id req v]> (heap sh)) (set_counter (n + 1) sh)).

Lemma eval_launch t ora n req spec sh :
  vms_lock sh = None →
  ∃ m n', eval t ora n (launch req spec) sh =
    Some (match x_res (ora m) with
          | Ok v => (Ok (slot_info (new_slot (mint_id seed (counter sh)) req v)), n', inserted sh req v)
          | Err e => (Err e, n', sh)
          end).
Proof.
  intros Hv. unfold launch. rewrite eval_call. cbn [exec_cmd]. rewrite eval_call. cbn [exec_cmd].
  exists (S n). destruct (x_res (ora (S n))) as [v|e].
  - rewrite eval_call. cbn [exec_cmd]. rewrite eval_call. cbn [exec_cmd].
    rewrite option_guard_True by done. cbn [mbind option_bind]. rewrite eval_call.
    cbn [exec_cmd eval]. eexists. do 2 f_equal. unfold inserted, set_launches, set_vms, set_heap,
      set_counter. cbn. f_equal. lia.
  - rewrite eval_call. cbn [exec_cmd eval]. eexists. do 2 f_equal. unfold set_launches. destruct sh.
    cbn. f_equal. lia.
Qed.
End seq.

(** [create] leaks nothing.  Run to its end from a consistent state, and
    whatever the launcher, the guest command and the teardown answer, a create
    that returns an error leaves the table and the in-flight count as they
    were; a one-shot ([ephemeral]) that succeeds does too; any other success
    adds exactly the new VM under a fresh id. *)
Theorem create_leaks_nothing {RE : RegistryEnv} t ora n req sh H :
  RInv sh H → vms_lock sh = None → (counter sh < 2 ^ 64)%N →
  ∃ r n' sh', eval t ora n (create req) sh = Some (r, n', sh') ∧
    launches_in_flight sh' = launches_in_flight sh ∧
    match r with
    | Err _ => vms sh' = vms sh
    | Ok (info, _) =>
        vi_id info = mint_id seed (counter sh) ∧ vms sh !! vi_id info = None ∧
        if rq_ephemeral req && bool_decide (is_Some (rq_command req)) then vms sh' = vms sh
        else vms sh' = <[vi_id info := counter sh]> (vms sh)
    end.
Proof.
  intros Hi Hv Hc. unfold create. rewrite eval_bind.
  destruct (eval_create_checks t ora n req sh) as ([spec|e] & n1 & ->); [|by cbn; eauto 10].
  rewrite eval_bind. destruct (eval_launch t ora n1 req spec sh Hv) as (m & n2 & ->).
  destruct (x_res (ora m)) as [v|e]; [|by cbn; eauto 10].
  set (id := mint_id seed (counter sh)).
  assert (vms sh !! id = None) as Hfresh.
  { destruct (vms sh !! id) as [l|] eqn:E; [|done].
    destruct (inv_table _ _ Hi _ _ E) as (sl & Hsl & Hid).
    destruct (ok_id _ _ _ _ (inv_slot _ _ Hi l sl Hsl)) as [Hl Hid'].
    rewrite Hid in Hid'. apply mint_id_inj in Hid'; lia. }
  destruct (rq_command req) as [cmdl|] eqn:Hcmd.
  2: { rewrite andb_false_r. cbn. by eauto 10. }
  rewrite andb_true_r. cbn [vi_id slot_info sl_id new_slot]. fold id.
  assert (idle (inserted sh req v) id (counter sh) (new_slot id req v)) as Hidle.
  { split; cbn; rewrite ?lookup_insert_eq; done. }
  rewrite eval_bind.
  destruct (eval_exec t ora n2 id _ _ _ v Hidle) as (m2 & n3 & ->); [done|done|].
  assert (∀ k, ∃ r' n', eval t ora k (destroy id) (inserted sh req v) = Some (r', n',
    upd_slot (counter sh) (λ s, set_lock None (set_handle None (set_state Destroying s)))
      (set_vms (delete id (vms (inserted sh req v))) (inserted sh req v)))) as Hd.
  { intros k. by eapply eval_destroy. }
  rewrite eval_bind. destruct (rq_ephemeral req || is_err (x_res (ora m2))) eqn:Hcase.
  - rewrite eval_bind. destruct (Hd n3) as (r' & n4 & ->). cbn [eval].
    do 3 eexists. split; [done|]. split; [done|]. cbn. rewrite delete_insert_id by done.
    destruct (x_res (ora m2)); [|done]. split_and!; try done.
    cbn in Hcase. rewrite orb_false_r in Hcase. by rewrite Hcase.
  - cbn [eval]. do 3 eexists. split; [done|]. split; [done|].
    apply orb_false_iff in Hcase as [He Hx]. rewrite He. destruct (x_res (ora m2)); [|done]. done.
Qed.

Lemma create_leaks_nothing_witness :
  ∃ r n' sh',
    @eval demo_env _ 1 (λ _, okx) 0 (create (run_request "k" "r" ["true"])) (registry_new demo_files)
      = Some (r, n', sh') ∧
    launches_in_flight sh' = 0%N ∧
    match r with
    | Err _ => vms sh' = ∅
    | Ok (info, _) =>
        vi_id info = mint_id 42 1 ∧ (∅ : gmap string N) !! vi_id info = None ∧ vms sh' = ∅
    end.
Proof.
  apply (@create_leaks_nothing demo_env 1 (λ _, okx) 0 (run_request "k" "r" ["true"])
    (registry_new demo_files) ∅).
  - apply (@I_shared demo_env _ (@init_inv demo_env demo_files)).
  - reflexivity.
  - vm_compute. reflexivity.
Defined.

(** *** delete *)

(** Whether some slot of the table pins the name. *)
Definition pinned (sh : Shared) (slots : list N) (name : string) : bool :=
  existsb (λ l, match heap sh !! l with Some sl => pins sl name | None => false end) slots.

Section deletes.
Context {RE : RegistryEnv}.

Lemma eval_any_pins t ora n slots name sh :
  (∀ l, l ∈ slots → is_Some (heap sh !! l)) →
  ∃ n', eval t ora n (any_pins slots name) sh = Some (pinned sh slots name, n', sh).
Proof.
  revert n. induction slots as [|l slots IH]; intros n Hs; [by cbn; eauto|].
  cbn [any_pins pinned existsb]. rewrite eval_call. cbn [exec_cmd].
  destruct (Hs l) as [sl Hsl]; [apply list_elem_of_here|]. rewrite Hsl. cbn [mbind option_bind].
  destruct (pins sl name); [by cbn; eauto|]. apply IH. intros k Hk. apply Hs.
  by apply list_elem_of_further.
Qed.

Lemma set_vms_lock_twice a b sh : set_vms_lock a (set_vms_lock b sh) = set_vms_lock a sh.
Proof. done. Qed.

Lemma set_vms_lock_id sh : vms_lock sh = None → set_vms_lock None sh = sh.
Proof. destruct sh. cbn. by intros ->. Qed.
End deletes.

(** [delete_artifact_if_unused] implements its specification.  Undisturbed,
    it answers [InUse] and changes nothing when a VM of the table pins the
    name as kernel, rootfs, extra disk or snapshot prefix, and is otherwise
    exactly the store's delete; the table's lock is free again afterwards. *)
Theorem delete_refines_spec {RE : RegistryEnv} t ora n name sh H :
  RInv sh H → vms_lock sh = None →
  ∃ n', eval t ora n (delete_artifact_if_unused name) sh =
    Some (if pinned sh (map_to_list (vms sh)).*2 name then (Err EInUse, n', sh)
          else let '(r, f) := store_delete (fs sh) name in (r, n', set_fs f sh)).
Proof.
  intros Hi Hv. unfold delete_artifact_if_unused. rewrite eval_call. cbn [exec_cmd].
  rewrite option_guard_True by done. rewrite eval_bind.
  destruct (eval_any_pins t ora (S n) (hash_order (vms sh)) name (set_vms_lock (Some t) sh))
    as (n1 & ->).
  { intros l. rewrite hash_order_perm. intros ([id l'] & -> & Hin)%list_elem_of_fmap.
    apply elem_of_map_to_list in Hin. destruct (inv_table _ _ Hi _ _ Hin) as (sl & Hsl & _).
    cbn in *. by eauto. }
  assert (pinned (set_vms_lock (Some t) sh) (hash_order (vms sh)) name =
          pinned sh (map_to_list (vms sh)).*2 name) as ->.
  { apply eq_iff_eq_true. unfold pinned. rewrite !existsb_exists. cbn.
    by setoid_rewrite <- list_elem_of_In; setoid_rewrite hash_order_perm. }
  rewrite eval_bind. destruct (pinned sh _ name).
  - cbn [eval mbind prog_bind call exec_cmd]. rewrite set_vms_lock_twice, set_vms_lock_id by done.
    by eexists.
  - cbn [eval call exec_cmd]. change (fs (set_vms_lock (Some t) sh)) with (fs sh).
    destruct (store_delete (fs sh) name) as [r f].
    cbn.
    eexists. do 2 f_equal. destruct sh. cbn in *. by subst.
Qed.

Lemma delete_refines_spec_witness :
  ∃ n', @eval demo_env _ 9 (λ _, okx) 0 (delete_artifact_if_unused "k") (shared (demo_run boot)) =
    Some (if pinned (shared (demo_run boot)) (map_to_list (vms (shared (demo_run boot)))).*2 "k"
          then (Err EInUse, n', shared (demo_run boot))
          else let '(r, f) := @store_delete quiet_host (fs (shared (demo_run boot))) "k" in
               (r, n', set_fs f (shared (demo_run boot)))).
Proof.
  apply (@delete_refines_spec demo_env 9 (λ _, okx) 0 "k" (shared (demo_run boot))
    (helds (tasks (demo_run boot)))).
  - apply (@I_shared demo_env). apply (@reachable_inv demo_env).
    + apply demo_reachable. vm_compute. reflexivity.
    + vm_compute. discriminate.
  - vm_compute. reflexivity.
Defined.

(** *** snapshot *)

Section snapshots.
Context {RE : RegistryEnv}.

Lemma set_fs_upd f l g sh : set_fs f (upd_slot l g sh) = upd_slot l g (set_fs f sh).
Proof. done. Qed.
Lemma set_fs_twice f g sh : set_fs f (set_fs g sh) = set_fs f sh.
Proof. done. Qed.

(** What the write under the pin does to the files alone. *)
Definition snapshot_files (f : gmap string node) (prefix : string) (mk wr rm rd : ext)
    : result DaemonError (string * list string) * gmap string node :=
  match make_dir f prefix (x_io mk) with
  | (Err e, f1) => (Err e, f1)
  | (Ok _, f1) =>
      let f2 := vmm_writes f1 prefix (x_files wr) in
      match x_res wr with
      | Err e => (Err e, remove_empty_dir f2 prefix (x_io rm))
      | Ok _ =>
          match read_back f2 prefix (x_io rd) with
          | Ok files => (Ok (prefix, sort_strings files), f2)
          | Err e => (Err e, f2)
          end
      end
  end.

Lemma eval_snapshot_write t ora n l p sh sl v :
  heap sh !! l = Some sl → slot_state sl = Ready → sl_handle sl = Some v →
  ∃ mk wr rm rd n',
    let '(r, f) := snapshot_files (fs sh) p mk wr rm rd in
    eval t ora n (snapshot_write l p) sh = Some (r, n', set_fs f sh).
Proof.
  intros Hl Hst Hh. unfold snapshot_write, snapshot_files. rewrite eval_call. cbn [exec_cmd].
  exists (ora n), (ora (3 + n)), (ora (5 + n)), (ora (5 + n)).
  destruct (make_dir (fs sh) p (x_io (ora n))) as [[[]|e] f1]; [|by cbn; eauto].
  rewrite eval_call. cbn [exec_cmd]. change (heap (set_fs f1 sh)) with (heap sh).
  rewrite Hl. cbn [mbind option_bind]. rewrite Hh, bool_decide_true by done.
  rewrite eval_bind, eval_call. cbn [exec_cmd]. rewrite eval_call. cbn [exec_cmd].
  rewrite eval_call. cbn [exec_cmd eval].
  change (fs (upd_slot l (set_state Snapshotting) (set_fs f1 sh))) with f1.
  set (f2 := vmm_writes f1 p (x_files (ora (S (S (S n)))))).
  assert (upd_slot l (transition_from Snapshotting Ready)
    (set_fs f2 (upd_slot l (set_state Snapshotting) (set_fs f1 sh))) = set_fs f2 sh) as ->.
  { rewrite set_fs_upd, set_fs_twice, upd_slot_upd. eapply upd_slot_id; [exact Hl|].
    unfold transition_from. rewrite decide_True by done. destruct sl as [? ? ? ? ? ? ? [st ?] ? ?].
    cbn in *. by subst. }
  cbn [plus]. destruct (x_res (ora (S (S (S n))))) as [w|e]; cbn [res_unit is_err is_ok negb].
  - cbn [mbind prog_bind eval]. rewrite eval_call. cbn [exec_cmd].
    change (fs (set_fs f2 sh)) with f2.
    fold f2. destruct (read_back f2 p _); cbn; by eauto.
  - cbn. by eauto.
Qed.

Lemma snapshot_files_frame f p mk wr rm rd q :
  q ≠ p → (snapshot_files f p mk wr rm rd).2 !! q = f !! q.
Proof.
  intros Hq. unfold snapshot_files, make_dir.
  assert (∀ g, vmm_writes g p (x_files wr) !! q = g !! q) as Hw.
  { intros g. unfold vmm_writes. repeat case_match; rewrite ?lookup_insert_ne; done. }
  assert (∀ g, remove_empty_dir g p (x_io rm) !! q = g !! q) as Hr.
  { intros g. unfold remove_empty_dir. repeat case_match; rewrite ?lookup_delete_ne; done. }
  repeat case_match; simplify_eq; cbn; rewrite ?Hr, ?Hw, ?lookup_insert_ne; done.
Qed.

Lemma snapshot_files_Ok f p mk wr rm rd r files :
  (snapshot_files f p mk wr rm rd).1 = Ok (r, files) →
  r = p ∧ f !! p = None ∧
  (snapshot_files f p mk wr rm rd).2 !! p = Some (NDir (x_files wr)) ∧
  files = sort_strings (x_files wr).*1.
Proof.
  unfold snapshot_files, make_dir. destruct (f !! p) eqn:Hp; [done|].
  destruct (x_io mk); [|done]. cbn. unfold vmm_writes, read_back. rewrite lookup_insert_eq.
  cbn. destruct (x_res wr); cbn; [|done]. rewrite lookup_insert_eq. destruct (x_io rd); cbn; [|done].
  intros [= <- <-]. by rewrite lookup_insert_eq.
Qed.

Lemma snapshot_files_clean f p mk wr rm rd e :
  (snapshot_files f p mk wr rm rd).1 = Err e → x_res wr = Err e → x_files wr = [] → x_io rm = true →
  (snapshot_files f p mk wr rm rd).2 = f.
Proof.
  unfold snapshot_files, make_dir. intros He Hw Hf Hio. rewrite Hw, Hf, Hio in *.
  destruct (f !! p) eqn:Hp; [done|]. destruct (x_io mk); [|done]. cbn.
  unfold vmm_writes. rewrite lookup_insert_eq. cbn. unfold remove_empty_dir.
  rewrite insert_insert_eq, lookup_insert_eq. by rewrite delete_insert_id.
Qed.
End snapshots.

(** A snapshot of an idle [Ready] VM does exactly what it says.  It touches
    no file outside its prefix and leaves the VM as it was, [Ready], unpinned
    and unlocked; on success the prefix was free, is now a directory holding
    exactly what the VMM wrote, and the reply lists those names in order; a
    snapshot the VMM refused without writing leaves no trace; and a prefix that
    is taken is refused. *)
Theorem snapshot_contract {RE : RegistryEnv} t ora n id p sh l sl v :
  idle sh id l sl → slot_state sl = Ready → sl_handle sl = Some v →
  st_snapshot_prefix (sl_status sl) = None → valid_name p →
  is_ok (check_quota_headroom store (fs sh)) = true →
  ∃ r n' f wr rm, eval t ora n (snapshot id p) sh = Some (r, n', set_fs f sh) ∧
    (∀ q, q ≠ p → f !! q = fs sh !! q) ∧
    (is_Some (fs sh !! p) → r = Err EAlreadyExists ∧ f = fs sh) ∧
    match r with
    | Ok (p', files) => p' = p ∧ fs sh !! p = None ∧ f !! p = Some (NDir (x_files wr)) ∧
                        files = sort_strings (x_files wr).*1
    | Err e => x_res wr = Err e → x_files wr = [] → x_io rm = true → f = fs sh
    end.
Proof.
  intros Hid Hst Hh Hnp Hp Hq. pose proof Hid as []. unfold snapshot.
  unfold valid_name in Hp. rewrite Hp. rewrite eval_call. cbn [exec_cmd].
  destruct (check_quota_headroom store (fs sh)); [|done].
  rewrite eval_bind, (eval_slot _ _ _ _ _ _ _ Hid).
  rewrite eval_bind, (eval_require _ _ _ _ _ _ _ idle_slot0), decide_True by done.
  rewrite (eval_lock _ _ _ _ _ _ _ idle_slot0 idle_lock0).
  pose proof (locked_slot t l sh sl idle_slot0) as Hl'.
  rewrite eval_bind, (eval_require _ _ _ _ _ _ _ Hl'), decide_True by done.
  unfold with_pin. rewrite eval_call. cbn [exec_cmd]. rewrite eval_bind.
  set (sh1 := upd_slot l (set_prefix (Some p)) (upd_slot l (set_lock (Some t)) sh)).
  assert (heap sh1 !! l = Some (set_prefix (Some p) (set_lock (Some t) sl))) as Hl1.
  { subst sh1. cbn in *. rewrite lookup_alter, decide_True by done. by rewrite Hl'. }
  destruct (eval_snapshot_write t ora (S (S (S (S (S (S n)))))) l p sh1 _ v Hl1 Hst Hh)
    as (mk & wr & rm & rd & n' & Hw).
  change (fs sh1) with (fs sh) in Hw.
  pose proof (snapshot_files_frame (fs sh) p mk wr rm rd) as Hfr.
  pose proof (snapshot_files_Ok (fs sh) p mk wr rm rd) as Hok.
  pose proof (snapshot_files_clean (fs sh) p mk wr rm rd) as Hcl.
  assert (is_Some (fs sh !! p) → snapshot_files (fs sh) p mk wr rm rd = (Err EAlreadyExists, fs sh))
    as Hex.
  { intros [nd Hnd]. unfold snapshot_files, make_dir. by rewrite Hnd. }
  destruct (snapshot_files (fs sh) p mk wr rm rd) as [r f]. rewrite Hw. rewrite eval_call.
  cbn [exec_cmd eval]. exists r. eexists. exists f, wr, rm. cbn in *. split.
  - do 2 f_equal. subst sh1. rewrite !set_fs_upd, !upd_slot_upd.
    eapply upd_slot_id; [exact idle_slot0|]. destruct sl as [? ? ? ? ? ? ? [? ?] ? ?]. cbn in *.
    by subst.
  - split_and!; [done|by intros H%Hex; injection H as -> ->|]. destruct r as [[p' files]|e].
    + by apply Hok.
    + by apply Hcl.
Qed.

Lemma snapshot_contract_witness :
  let sh := shared (demo_run boot) in
  ∃ r n' f wr rm,
    @eval demo_env _ 9 (λ _, okx) 0 (snapshot demo_id "snap") sh = Some (r, n', set_fs f sh) ∧
    (∀ q, q ≠ "snap" → f !! q = fs sh !! q) ∧
    (is_Some (fs sh !! "snap") → r = Err EAlreadyExists ∧ f = fs sh) ∧
    match r with
    | Ok (p', files) => p' = "snap" ∧ fs sh !! "snap" = None ∧
        f !! "snap" = Some (NDir (x_files wr)) ∧ files = sort_strings (x_files wr).*1
    | Err e => x_res wr = Err e → x_files wr = [] → x_io rm = true → f = fs sh
    end.
Proof.
  apply (@snapshot_contract demo_env 9 (λ _, okx) 0 demo_id "snap" (shared (demo_run boot))
    1 (demo_slot boot) 7).
  - split; vm_compute; reflexivity.
  - vm_compute. reflexivity.
  - vm_compute. reflexivity.
  - vm_compute. reflexivity.
  - vm_compute. reflexivity.
  - vm_compute. reflexivity.
Defined.

(** ** What reaches the launcher *)

(** Every command a program can issue, whatever the answers, satisfies [P]. *)
Fixpoint all_cmds {A} (P : ∀ B : Set, cmd B → Prop) (p : prog A) : Prop :=
  match p with
  | Ret _ => True
  | Act c k => P _ c ∧ ∀ b, all_cmds P (k b)
  end.

(** [all_cmds] with a postcondition, to reason about sequences. *)
Fixpoint all_then {A} (P : ∀ B : Set, cmd B → Prop) (p : prog A) (Φ : A → Prop) : Prop :=
  match p with
  | Ret a => Φ a
  | Act c k => P _ c ∧ ∀ b, all_then P (k b) Φ
  end.

Lemma all_cmds_bind {A A'} P (p : prog A) (f : A → prog A') :
  all_then P p (λ a, all_cmds P (f a)) → all_cmds P (p ≫= f).
Proof.
  induction p as [a|B c k IH]; cbn; [done|]. intros [Hc Hk]. split; [done|].
  intros b. apply IH, Hk.
Qed.

Lemma all_then_bind {A A'} P (p : prog A) (f : A → prog A') Φ :
  all_then P p (λ a, all_then P (f a) Φ) → all_then P (p ≫= f) Φ.
Proof.
  induction p as [a|B c k IH]; cbn; [done|]. intros [Hc Hk]. split; [done|].
  intros b. apply IH, Hk.
Qed.

Lemma all_then_mono {A} P (p : prog A) (Φ Ψ : A → Prop) :
  (∀ a, Φ a → Ψ a) → all_then P p Φ → all_then P p Ψ.
Proof.
  intros HΦ. induction p as [a|B c k IH]; cbn; [apply HΦ|]. intros [Hc Hk]. split; [done|].
  intros b. apply IH, Hk.
Qed.

Lemma all_then_True {A} P (p : prog A) : all_cmds P p → all_then P p (λ _, True).
Proof. induction p; cbn; naive_solver. Qed.

(** A launch the daemon may ask for on behalf of [req]. *)
Definition launchable (req : CreateVmRequest) (spec : LaunchSpec) : Prop :=
  control_plane_retained (ls_steward_placement spec) = true ∧
  (is_Some (rq_init req) → rq_steward_placement req = Some (ls_steward_placement spec)) ∧
  (ls_snapshotting spec = true → snapshot_eligible (ls_net spec) = true) ∧
  (∀ p, ls_restore_from spec = Some p → valid_name p) ∧
  rq_command req ≠ Some [] ∧
  ls_kernel spec = rq_kernel req ∧ ls_rootfs spec = rq_rootfs req ∧
  ls_extra_disks spec = rq_extra_disks req.

Definition launches_only (req : CreateVmRequest) (B : Set) (c : cmd B) : Prop :=
  match c with CLaunch spec => launchable req spec | _ => True end.

Section asks.
Context (req : CreateVmRequest).
Notation P := (launches_only req).

Lemma checks_ask :
  all_then P (create_checks req) (λ r, ∀ spec, r = Ok spec → launchable req spec).
Proof.
  unfold create_checks. apply all_then_bind. split; [done|]. intros [?|?]; [|done].
  apply all_then_bind. split; [done|]. intros [?|?]; [|done].
  case_bool_decide as Hcmd; [done|]. destruct (_ && _) eqn:Hsnap; [done|].
  destruct (resolve_steward_placement req) as [pl|e] eqn:Hpl; [|done]. cbn [mbind prog_bind].
  apply all_then_bind. apply (all_then_mono _ _
    (λ r, is_ok r = true → ∀ p, rq_restore_from req = Some p → valid_name p)).
  - intros [?|?]; [|done]. intros Hres. apply all_then_bind.
    apply (all_then_mono _ _ (λ _, True)).
    + intros [?|?] _; [|done]. intros spec [= <-]. unfold launchable. cbn.
      unfold resolve_steward_placement in Hpl. split_and!; try done.
      * destruct (rq_steward_placement req) as [d|]; [|by destruct (rq_init req); simplify_eq].
        by destruct (control_plane_retained d) eqn:E; simplify_eq/=.
      * intros [i Hi]. rewrite Hi in Hpl. destruct (rq_steward_placement req) as [d|]; [|done].
        by destruct (control_plane_retained d); simplify_eq/=.
      * intros Hs. rewrite Hs in Hsnap. by destruct (snapshot_eligible (rq_net req)).
      * by apply Hres.
    + clear. induction (rq_extra_disks req) as [|d ds IH]; [done|]. cbn [resolve_disks].
      apply all_then_bind. split; [done|]. by intros [?|?].
  - unfold resolve_restore. destruct (rq_restore_from req) as [p|]; [|done].
    destruct (validate_artifact_name p) as [[]|] eqn:Hv; [|done]. split; [done|].
    intros b _ p' [= <-]. done.
Qed.

Lemma exec_asks id : all_cmds P (exec id).
Proof.
  unfold exec. split; [done|]. intros [l|]; [|done]. cbn [ok_or]. split; [done|]. intros st.
  cbn [mbind prog_bind]. case_decide; [|done]. split; [done|]. intros []. split; [done|].
  intros st'. cbn [mbind prog_bind]. case_decide; [|by split]. split; [done|].
  intros []; [|by split]. split; [done|]. intros r. by split.
Qed.

Lemma destroy_asks id : all_cmds P (destroy id).
Proof.
  unfold destroy. split; [done|]. intros [l|]; [|done]. split; [done|]. intros []. split; [done|].
  intros []. split; [done|]. intros []. split; [done|]. intros [v|]; [|by split].
  split; [done|]. intros r. by split.
Qed.
End asks.

(** The daemon launches only VMs it can own.  Whatever the client sends and
    whatever any check answers, a launch that [create] asks for keeps a steward
    (so the VM can be operated and torn down over its control channel), takes
    the placement from the client whenever an init is given, is snapshottable
    only on an eligible network, restores only from a valid single-component
    prefix, and carries the client's kernel, rootfs and disks. *)
Theorem create_launches_only_owned req : all_cmds (launches_only req) (create req).
Proof.
  unfold create. apply all_cmds_bind. eapply all_then_mono; [|apply checks_ask].
  intros [spec|e] Hspec; [|done]. specialize (Hspec spec eq_refl). apply all_cmds_bind.
  apply (all_then_mono _ _ (λ _, True)).
  - intros [info|e] _; [|done]. destruct (rq_command req); [|done].
    apply all_cmds_bind. apply (all_then_mono _ _ (λ _, True)).
    + intros outcome _. apply all_cmds_bind.
      apply (all_then_mono _ _ (λ _, True)); [done|]. destruct (_ || _); [|done].
      apply all_then_bind, (all_then_mono _ _ (λ _, True)); [done|]. apply all_then_True, destroy_asks.
    + apply all_then_True, exec_asks.
  - unfold launch. split; [done|]. intros []. split; [done|]. intros [v|e].
    + split; [done|]. intros [l id]. split; [done|]. intros []. by split.
    + by split.
Qed.
