(* ===== verification/IdAlloc.v ===== *)
(** * Id allocation

    Models the id allocators of [crates/vmcell/src/orchestrator.rs]
    ([seeded_id_order], [FsIdClaim], [VmidAllocator], [SegmentIdAllocator] and
    the guards over them) and the vsock CID allocator of
    [crates/vmcell/src/vmm/mod.rs], one call at a time.  The interleaving of
    claims by several processes is [IdClaimProtocol.v].

    The claim directory is a map from an id to the contents of its lock file;
    the host (which pids are alive, which system calls fail) is the interface
    [ClaimHost]. *)

From S2P Require Import Prelude.
From Stdlib Require Import Sorted.

Definition MAX_VMID : N := 9999.
Definition MAX_SEGMENT_ID : N := 254.
Definition MIN_GUEST_CID : N := 3.
Definition MAX_GUEST_CID : N := MIN_GUEST_CID + MAX_VMID - 1.

(** The operations of a claim that can fail, as the error message names them. *)
Inductive claim_op := OpMkdir | OpOpen | OpFlock | OpRead | OpRemove | OpWrite | OpLink.

Inductive alloc_error := AConfig | AExhaustion | AIo (op : claim_op) | AVmm.

#[export] Instance claim_op_eq_dec : EqDecision claim_op.
Proof. solve_decision. Defined.
#[export] Instance alloc_error_eq_dec : EqDecision alloc_error.
Proof. solve_decision. Defined.

(** ** The search order *)

(** The ids [1..=max], rotated to start at the clock's sub-second part. *)
Definition seeded_id_order (subsec_nanos max : N) : list N :=
  let start := (subsec_nanos mod max)%N in
  (λ i, (start + N.of_nat i) mod max + 1)%N <$> seq 0 (N.to_nat max).

(** ** Claims across processes *)

Class ClaimHost := {
  self_pid : N;
  pid_alive : N → bool;
  claim_fails : claim_op → N → bool;
  self_pid_u32 : (self_pid <= u32_max)%N;
  self_alive : pid_alive self_pid = true;
}.

(** [FsIdClaim]: no directory in the hermetic mode, otherwise the lock files. *)
Definition FsIdClaim : Type := option (gmap N string).

Inductive IdClaim := LiveOwner | NoLiveOwner | Undeterminable.

#[export] Instance IdClaim_eq_dec : EqDecision IdClaim.
Proof. solve_decision. Defined.

Section claims.
Context {CH : ClaimHost}.

(** [read_to_string] that is neither a success nor [NotFound] (a permission,
    an I/O error, bytes that are not UTF-8) is [claim_fails OpRead]. *)
Definition owner_is_live (locks : gmap N string) (id : N) : result claim_op bool :=
  match locks !! id with
  | None => Ok false
  | Some contents =>
      if claim_fails OpRead id then Err OpRead else
      Ok (match parse_uint u32_max (str_trim contents) with
          | Some pid => pid_alive pid
          | None => false
          end)
  end.

Definition claim_state (claim : FsIdClaim) (id : N) : IdClaim :=
  match claim with
  | None => NoLiveOwner
  | Some locks =>
      match owner_is_live locks id with
      | Ok true => LiveOwner
      | Ok false => NoLiveOwner
      | Err _ => Undeterminable
      end
  end.

(** The hard link of a temp file that already carries our pid. *)
Definition atomic_claim (locks : gmap N string) (id : N)
    : result alloc_error bool * gmap N string :=
  if claim_fails OpWrite id then (Err (AIo OpWrite), locks) else
  match locks !! id with
  | Some _ => (Ok false, locks)
  | None =>
      if claim_fails OpLink id then (Err (AIo OpLink), locks)
      else (Ok true, <[id := pretty self_pid]> locks)
  end.

Definition try_claim (claim : FsIdClaim) (id : N) : result alloc_error bool * FsIdClaim :=
  match claim with
  | None => (Ok true, claim)
  | Some locks =>
      if claim_fails OpMkdir id then (Err (AIo OpMkdir), claim) else
      if claim_fails OpOpen id then (Err (AIo OpOpen), claim) else
      if claim_fails OpFlock id then (Err (AIo OpFlock), claim) else
      match owner_is_live locks id with
      | Ok true => (Ok false, claim)
      | Ok false =>
          match locks !! id with
          | Some _ =>
              if claim_fails OpRemove id then (Err (AIo OpRemove), claim)
              else let '(r, locks') := atomic_claim (delete id locks) id in (r, Some locks')
          | None => let '(r, locks') := atomic_claim locks id in (r, Some locks')
          end
      | Err op => (Err (AIo op), claim)
      end
  end.

(** A failed removal is logged only. *)
Definition release_claim (claim : FsIdClaim) (id : N) : FsIdClaim :=
  match claim with
  | None => None
  | Some locks => if claim_fails OpRemove id then Some locks else Some (delete id locks)
  end.

(** ** The allocators

    [VmidAllocator] and [SegmentIdAllocator] are one law at two ceilings. *)

Record IdAllocator := {
  active : gset N;
  claim : FsIdClaim;
}.

Definition allocator_new : IdAllocator := {| active := ∅; claim := None |}.
Definition allocator_shared (locks : gmap N string) : IdAllocator :=
  {| active := ∅; claim := Some locks |}.

Fixpoint allocate_loop (a : IdAllocator) (ids : list N) : result alloc_error N * IdAllocator :=
  match ids with
  | [] => (Err AExhaustion, a)
  | id :: rest =>
      if decide (id ∈ active a) then allocate_loop a rest else
      match try_claim (claim a) id with
      | (Err e, c) => (Err e, {| active := active a; claim := c |})
      | (Ok true, c) => (Ok id, {| active := {[id]} ∪ active a; claim := c |})
      | (Ok false, c) => allocate_loop {| active := active a; claim := c |} rest
      end
  end.

Definition allocate (max subsec_nanos : N) (a : IdAllocator) : result alloc_error N * IdAllocator :=
  allocate_loop a (seeded_id_order subsec_nanos max).

Definition allocate_vmid := allocate MAX_VMID.
Definition allocate_segid := allocate MAX_SEGMENT_ID.

Definition reserve (a : IdAllocator) (vmid : N) : result alloc_error N * IdAllocator :=
  if negb ((1 <=? vmid)%N && (vmid <=? MAX_VMID)%N) then (Err AConfig, a) else
  if decide (vmid ∈ active a) then (Err AExhaustion, a) else
  match try_claim (claim a) vmid with
  | (Err e, c) => (Err e, {| active := active a; claim := c |})
  | (Ok false, c) => (Err AExhaustion, {| active := active a; claim := c |})
  | (Ok true, c) => (Ok vmid, {| active := {[vmid]} ∪ active a; claim := c |})
  end.

Definition release (a : IdAllocator) (id : N) : IdAllocator :=
  {| active := active a ∖ {[id]}; claim := release_claim (claim a) id |}.

(** ** Guards *)

Record VmidGuard := { g_vmid : N; g_lineage : option N }.

Definition adopt_lineage (g : VmidGuard) (a : IdAllocator) (ancestor : N)
    : result alloc_error unit * VmidGuard * IdAllocator :=
  if decide (ancestor = g_vmid g) then (Ok tt, g, a) else
  match reserve a ancestor with
  | (Ok _, a') => (Ok tt, {| g_vmid := g_vmid g; g_lineage := Some ancestor |}, a')
  | (Err AExhaustion, a') => (Ok tt, g, a')
  | (Err e, a') => (Err e, g, a')
  end.

Definition drop_vmid_guard (g : VmidGuard) (a : IdAllocator) : IdAllocator :=
  let a := match g_lineage g with Some ancestor => release a ancestor | None => a end in
  release a (g_vmid g).

Definition claim_segment (subsec_nanos : N) (a : IdAllocator) := allocate_segid subsec_nanos a.
Definition drop_segment_guard (segid : N) (a : IdAllocator) : IdAllocator := release a segid.
End claims.

(** ** Vsock CIDs *)

(** A [BTreeSet<u32>] is its elements in order. *)
Fixpoint bt_insert (x : N) (l : list N) : list N :=
  match l with
  | [] => [x]
  | y :: l' => if (x <? y)%N then x :: l else if (x =? y)%N then l else y :: bt_insert x l'
  end.

Definition bt_remove (x : N) (l : list N) : list N := filter (λ y, y ≠ x) l.

(** [range(cid..)]. *)
Definition bt_range (cid : N) (l : list N) : list N := filter (λ y, (cid <= y)%N) l.

Record CidPool := {
  cids : list N;
  next_free : N;
}.

Definition cid_allocator_new : CidPool := {| cids := []; next_free := MIN_GUEST_CID |}.

(** The walk over the contiguous live run. *)
Fixpoint cid_walk (cid : N) (range : list N) : N :=
  match range with
  | [] => cid
  | live :: rest => if (cid <? live)%N then cid else cid_walk (live + 1) rest
  end.

Definition cid_allocate (p : CidPool) : result alloc_error N * CidPool :=
  let cid := cid_walk (next_free p) (bt_range (next_free p) (cids p)) in
  if (MAX_GUEST_CID <? cid)%N then (Err AVmm, p)
  else (Ok cid, {| cids := bt_insert cid (cids p); next_free := cid + 1 |}).

Definition cid_reserve (p : CidPool) (cid : N) : result alloc_error N * CidPool :=
  if negb ((MIN_GUEST_CID <=? cid)%N && (cid <=? MAX_GUEST_CID)%N) then (Err AVmm, p) else
  if decide (cid ∈ cids p) then (Err AExhaustion, p)
  else (Ok cid, {| cids := bt_insert cid (cids p); next_free := next_free p |}).

Definition cid_release (p : CidPool) (cid : N) : CidPool :=
  {| cids := bt_remove cid (cids p);
     next_free := if (MIN_GUEST_CID <=? cid)%N && (cid <? next_free p)%N then cid else next_free p |}.

Record CidGuard := { cg_cid : N; cg_baked : option N }.

Definition adopt_baked_cid (g : CidGuard) (p : CidPool) (baked : N)
    : result alloc_error unit * CidGuard * CidPool :=
  if decide (baked = cg_cid g) then (Ok tt, g, p) else
  match cid_reserve p baked with
  | (Ok _, p') => (Ok tt, {| cg_cid := cg_cid g; cg_baked := Some baked |}, p')
  | (Err AExhaustion, p') => (Ok tt, g, p')
  | (Err e, p') => (Err e, g, p')
  end.

Definition drop_cid_guard (g : CidGuard) (p : CidPool) : CidPool :=
  let p := match cg_baked g with Some baked => cid_release p baked | None => p end in
  cid_release p (cg_cid g).

(** ** The search order covers the space *)

Lemma seeded_id_order_elem nanos max id :
  (0 < max)%N → id ∈ seeded_id_order nanos max ↔ (1 <= id <= max)%N.
Proof.
  intros Hmax. unfold seeded_id_order. rewrite list_elem_of_fmap. split.
  - intros (i & -> & _). cbn beta.
    assert ((nanos mod max + N.of_nat i) mod max < max)%N as Hm by (apply N.mod_lt; lia).
    revert Hm. generalize ((nanos mod max + N.of_nat i) mod max)%N. lia.
  - intros Hid. set (start := (nanos mod max)%N).
    assert (start < max)%N as Hs by (apply N.mod_lt; lia).
    exists (N.to_nat ((id - 1 + (max - start)) mod max)). split.
    + rewrite N2Nat.id, N.Div0.add_mod_idemp_r.
      replace (start + (id - 1 + (max - start)))%N with (id - 1 + 1 * max)%N by lia.
      rewrite N.Div0.mod_add, N.mod_small by lia. lia.
    + apply elem_of_seq.
      assert ((id - 1 + (max - start)) mod max < max)%N as Hm by (apply N.mod_lt; lia).
      revert Hm. generalize ((id - 1 + (max - start)) mod max)%N. lia.
Qed.

Lemma seeded_id_order_NoDup nanos max : (0 < max)%N → NoDup (seeded_id_order nanos max).
Proof.
  intros Hmax. unfold seeded_id_order. set (start := (nanos mod max)%N).
  assert (start < max)%N as Hs by (apply N.mod_lt; lia).
  apply NoDup_fmap_2_strong; [|apply NoDup_seq].
  intros i j [_ Hi]%elem_of_seq [_ Hj]%elem_of_seq Heq.
  assert (∀ k, (k < max)%N → ((start + k) mod max)%N =
    if (start + k <? max)%N then (start + k)%N else (start + k - max)%N) as Hm.
  { intros k Hk. destruct (N.ltb_spec (start + k) max); [by apply N.mod_small|].
    symmetry. apply (N.mod_unique _ _ 1); lia. }
  rewrite !Hm in Heq by lia. clearbody start.
  destruct (N.ltb_spec (start + N.of_nat i) max), (N.ltb_spec (start + N.of_nat j) max); lia.
Qed.

(** ** One claim *)

Section claim_facts.
Context {CH : ClaimHost}.

(** The pid a claim writes is the pid the liveness test reads back. *)
Lemma own_lock_live locks id :
  locks !! id = Some (pretty self_pid) → claim_fails OpRead id = false →
  owner_is_live locks id = Ok true.
Proof.
  intros Hl Hr. unfold owner_is_live.
  by rewrite Hl, Hr, str_trim_pretty, parse_pretty, self_alive by apply self_pid_u32.
Qed.

Lemma try_claim_spec claim id :
  match try_claim claim id with
  | (Ok true, claim') =>
      claim_state claim id = NoLiveOwner ∧
      (claim' = (<[id := pretty self_pid]>) <$> claim)
  | (Ok false, claim') => claim_state claim id = LiveOwner ∧ claim' = claim
  | (Err e, claim') =>
      ∃ op, e = AIo op ∧ claim_fails op id = true ∧
        (claim' = claim ∨ claim_state claim id = NoLiveOwner ∧ claim' = (delete id) <$> claim)
  end.
Proof.
  destruct claim as [locks|]; cbn; [|done].
  destruct (claim_fails OpMkdir id) eqn:?; [by eauto 10|].
  destruct (claim_fails OpOpen id) eqn:?; [by eauto 10|].
  destruct (claim_fails OpFlock id) eqn:?; [by eauto 10|].
  destruct (owner_is_live locks id) as [[]|op] eqn:Hlive; [done| |].
  - assert (∀ l, l !! id = None → match atomic_claim l id with
      | (Ok true, l') => l' = <[id := pretty self_pid]> l
      | (Ok false, _) => False
      | (Err e, l') => l' = l ∧ ∃ op, e = AIo op ∧ claim_fails op id = true end) as Hat.
    { intros l Hl. unfold atomic_claim. rewrite Hl. destruct (claim_fails OpWrite id) eqn:?; [by eauto|].
      destruct (claim_fails OpLink id) eqn:?; by eauto. }
    destruct (locks !! id) eqn:Hid.
    + destruct (claim_fails OpRemove id) eqn:?; [by eauto 10|].
      specialize (Hat (delete id locks) (lookup_delete_eq _ _)).
      destruct (atomic_claim (delete id locks) id) as [[[]|e] l']; [|done|].
      * subst l'. by rewrite insert_delete_eq.
      * destruct Hat as [-> (op & -> & ?)]. exists op. by auto 10.
    + specialize (Hat locks Hid). destruct (atomic_claim locks id) as [[[]|e] l']; [by subst|done|].
      destruct Hat as [-> (op & -> & ?)]. exists op. by auto 10.
  - unfold owner_is_live in Hlive. destruct (locks !! id); [|done].
    destruct (claim_fails OpRead id) eqn:?; [|done]. injection Hlive as <-. by eauto 10.
Qed.

(** What the loop of [allocate] can have done when it stops. *)
Lemma allocate_loop_spec ids a :
  match allocate_loop a ids with
  | (Ok id, a') =>
      id ∈ ids ∧ id ∉ active a ∧ claim_state (claim a) id = NoLiveOwner ∧
      active a' = {[id]} ∪ active a ∧ claim a' = (<[id := pretty self_pid]>) <$> claim a
  | (Err AExhaustion, a') =>
      a' = a ∧ ∀ id, id ∈ ids → id ∈ active a ∨ claim_state (claim a) id = LiveOwner
  | (Err e, a') => ∃ op id, e = AIo op ∧ id ∈ ids ∧ claim_fails op id = true ∧ active a' = active a
  end.
Proof.
  induction ids as [|id ids IH]; cbn [allocate_loop]; [by split; [|intros ? ?%not_elem_of_nil]|].
  assert (match allocate_loop a ids with
    | (Ok id', a') => id' ∈ id :: ids ∧ id' ∉ active a ∧ claim_state (claim a) id' = NoLiveOwner ∧
        active a' = {[id']} ∪ active a ∧ claim a' = (<[id' := pretty self_pid]>) <$> claim a
    | (Err AExhaustion, a') => a' = a ∧
        (id ∈ active a ∨ claim_state (claim a) id = LiveOwner →
         ∀ i, i ∈ id :: ids → i ∈ active a ∨ claim_state (claim a) i = LiveOwner)
    | (Err e, a') =>
        ∃ op i, e = AIo op ∧ i ∈ id :: ids ∧ claim_fails op i = true ∧ active a' = active a
    end) as Hrest.
  { destruct (allocate_loop a ids) as [[id'|[]] a'].
    - destruct IH as (? & ?). split; [by right|done].
    - destruct IH as (op & i & ? & ? & ?). exists op, i. rewrite elem_of_cons. naive_solver.
    - destruct IH as [-> IH]. split; [done|]. intros Hid i [-> |Hi]%elem_of_cons; [done|by apply IH].
    - destruct IH as (op' & i & ? & ? & ?). exists op', i. rewrite elem_of_cons. naive_solver.
    - destruct IH as (op & i & ? & ? & ?). exists op, i. rewrite elem_of_cons. naive_solver. }
  case_decide as Hin.
  - destruct (allocate_loop a ids) as [[id'|[]] a']; try done.
    destruct Hrest as [-> H]. split; [done|]. apply H. by left.
  - pose proof (try_claim_spec (claim a) id) as Hc.
    destruct (try_claim (claim a) id) as [[[]|e] c].
    + destruct Hc as [Hs ->]. cbn. split_and!; try done. constructor.
    + destruct Hc as [Hs ->]. assert ({| active := active a; claim := claim a |} = a) as -> by by destruct a.
      destruct (allocate_loop a ids) as [[id'|[]] a']; try done.
      destruct Hrest as [-> H]. split; [done|]. apply H. by right.
    + destruct Hc as (op & -> & Hf & _). exists op, id. split_and!; try done. constructor.
Qed.
End claim_facts.

(** What [allocate] hands out.  An id it returns is in range, was not in
    use in this process and was claimed by no live process; afterwards it is
    in use here and its lock file carries our pid, every other lock file
    being untouched.  [Exhaustion] means that every id of the space is in use
    here or claimed by a live process; any other error is an I/O failure that
    really happened, never a full space in disguise. *)
Theorem allocate_contract {CH : ClaimHost} max nanos a :
  (0 < max)%N →
  match allocate max nanos a with
  | (Ok id, a') =>
      (1 <= id <= max)%N ∧ id ∉ active a ∧ claim_state (claim a) id = NoLiveOwner ∧
      active a' = {[id]} ∪ active a ∧ claim a' = (<[id := pretty self_pid]>) <$> claim a
  | (Err AExhaustion, a') =>
      a' = a ∧ ∀ id, (1 <= id <= max)%N → id ∈ active a ∨ claim_state (claim a) id = LiveOwner
  | (Err e, _) => ∃ op id, e = AIo op ∧ claim_fails op id = true
  end.
Proof.
  intros Hmax. unfold allocate.
  pose proof (allocate_loop_spec (seeded_id_order nanos max) a) as Hs.
  destruct (allocate_loop a (seeded_id_order nanos max)) as [[id|[]] a'].
  - destruct Hs as (Hin & ?). by apply seeded_id_order_elem in Hin.
  - destruct Hs as (op & id & ? & _ & ? & _). by eauto.
  - destruct Hs as [-> Hall]. split; [done|]. intros id Hid. apply Hall.
    by apply seeded_id_order_elem.
  - destruct Hs as (op' & id & ? & _ & ? & _). by eauto.
  - destruct Hs as (op & id & ? & _ & ? & _). by eauto.
Qed.

(** A host where pids below 100 are alive, we are pid 42, and nothing fails. *)
Definition demo_claims : ClaimHost.
Proof.
  refine {| self_pid := 42; pid_alive p := (p <? 100)%N; claim_fails _ _ := false |};
    vm_compute; [discriminate|reflexivity].
Defined.

(** Id 2 is held by live pid 7, id 3 by a dead pid, id 4 by an empty file. *)
Definition demo_locks : gmap N string :=
  <[2%N := "7"]> (<[3%N := "500"]> (<[4%N := ""]> ∅)).

Definition demo_alloc : IdAllocator := {| active := {[1%N]}; claim := Some demo_locks |}.

Lemma allocate_contract_witness :
  (allocate (CH := demo_claims) 4 1 demo_alloc).1 = Ok 3%N ∧
  ∃ a', allocate (CH := demo_claims) 4 1 demo_alloc = (Ok 3%N, a') ∧
    active a' = {[3%N]} ∪ active demo_alloc ∧
    claim a' = Some (<[3%N := pretty (self_pid (ClaimHost := demo_claims))]> demo_locks).
Proof.
  assert ((allocate (CH := demo_claims) 4 1 demo_alloc).1 = Ok 3%N) as H by (vm_compute; reflexivity).
  split; [exact H|].
  pose proof (allocate_contract (CH := demo_claims) 4 1 demo_alloc eq_refl) as C.
  destruct (allocate (CH := demo_claims) 4 1 demo_alloc) as [r a']. cbn in H. subst r.
  exists a'. destruct C as (_ & _ & _ & Ha & Hc). auto.
Defined.

(** A claimed id reads back as claimed: after [allocate] or [reserve]
    succeeds on a shared allocator, the sweeps' liveness test on the same
    directory answers [LiveOwner] for that id. *)
Theorem claim_reads_back {CH : ClaimHost} locks ids act id a' :
  (∀ i, claim_fails OpRead i = false) →
  allocate_loop {| active := act; claim := Some locks |} ids = (Ok id, a') →
  claim_state (claim a') id = LiveOwner.
Proof.
  intros Hr Ha. pose proof (allocate_loop_spec ids {| active := act; claim := Some locks |}) as Hs.
  rewrite Ha in Hs. destruct Hs as (_ & _ & _ & _ & ->). cbn.
  by rewrite own_lock_live by (rewrite ?lookup_insert_eq; done).
Qed.

Lemma claim_reads_back_witness :
  @claim_state demo_claims (Some (<[3%N := "42"]> demo_locks)) 3 = LiveOwner.
Proof.
  apply (@claim_reads_back demo_claims demo_locks [2; 3]%N ∅ 3
    {| active := {[3%N]} ∪ ∅; claim := Some (<[3%N := "42"]> demo_locks) |}).
  - reflexivity.
  - vm_compute. reflexivity.
Defined.

(** ** Guards give back what they took *)

Lemma reserve_spec {CH : ClaimHost} a id :
  match reserve a id with
  | (Ok _, a') => id ∉ active a ∧ active a' = {[id]} ∪ active a
  | (Err _, a') => active a' = active a
  end.
Proof.
  unfold reserve. destruct (negb _); [done|]. destruct (decide (id ∈ active a)); [done|].
  destruct (try_claim (claim a) id) as [[[]|e] c]; done.
Qed.

Lemma reserve_Ok {CH : ClaimHost} a id x a' : reserve a id = (Ok x, a') → x = id.
Proof.
  unfold reserve. destruct (negb _); [done|]. case_decide; [done|].
  destruct (try_claim (claim a) id) as [[[]|e] c]; naive_solver.
Qed.

(** A restored VM's guard releases exactly the ids it took.  Whether or not
    it adopted its ancestor's id, and whatever the adoption answered, dropping
    the guard leaves in use exactly what was in use before, less its own id:
    in particular an ancestor id somebody else holds stays held. *)
Theorem guard_releases_exactly {CH : ClaimHost} vmid a ancestor r g' a' :
  adopt_lineage {| g_vmid := vmid; g_lineage := None |} a ancestor = (r, g', a') →
  active (drop_vmid_guard g' a') = active a ∖ {[vmid]}.
Proof.
  unfold adopt_lineage, drop_vmid_guard. cbn. case_decide as He.
  { intros [= <- <- <-]. done. }
  pose proof (reserve_spec a ancestor) as Hr.
  destruct (reserve a ancestor) as [[x|e] a1].
  - intros [= <- <- <-]. cbn. destruct Hr as [Hn ->]. set_solver.
  - destruct e; intros [= <- <- <-]; cbn; by rewrite Hr.
Qed.

Definition demo_guarded : result alloc_error unit * VmidGuard * IdAllocator :=
  adopt_lineage (CH := demo_claims) {| g_vmid := 5; g_lineage := None |} demo_alloc 3.

Lemma guard_releases_exactly_witness :
  g_lineage demo_guarded.1.2 = Some 3%N ∧
  active (drop_vmid_guard (CH := demo_claims) demo_guarded.1.2 demo_guarded.2) =
    active demo_alloc ∖ {[5%N]}.
Proof.
  split; [vm_compute; reflexivity|].
  apply (guard_releases_exactly (CH := demo_claims) 5 demo_alloc 3 demo_guarded.1.1).
  unfold demo_guarded. destruct (adopt_lineage _ _ _) as [[? ?] ?]. reflexivity.
Defined.

(** ** The CID pool *)

(** The live CIDs are a sorted set of valid guest CIDs, and everything below
    the hint is live: this is what makes starting the walk at the hint safe. *)
Definition cid_pool_ok (p : CidPool) : Prop :=
  StronglySorted N.lt (cids p) ∧
  Forall (λ c, MIN_GUEST_CID <= c <= MAX_GUEST_CID)%N (cids p) ∧
  (MIN_GUEST_CID <= next_free p <= MAX_GUEST_CID + 1)%N ∧
  ∀ c, (MIN_GUEST_CID <= c < next_free p)%N → c ∈ cids p.

Lemma bt_insert_elem x l y : y ∈ bt_insert x l ↔ y = x ∨ y ∈ l.
Proof.
  induction l as [|z l IH]; cbn; [set_solver|].
  destruct (N.ltb_spec x z); [set_solver|]. destruct (N.eqb_spec x z); [set_solver|].
  rewrite elem_of_cons, IH. set_solver.
Qed.

Lemma bt_insert_sorted x l : StronglySorted N.lt l → StronglySorted N.lt (bt_insert x l).
Proof.
  induction 1 as [|z l Hs IH Hall]; cbn; [by repeat constructor|].
  destruct (N.ltb_spec x z).
  - constructor; [by constructor|]. constructor; [done|].
    eapply Forall_impl; [exact Hall|]. cbn. lia.
  - destruct (N.eqb_spec x z); [by constructor|]. constructor; [done|].
    rewrite Forall_forall in Hall |- *. intros y [->|Hy]%bt_insert_elem; [lia|by auto].
Qed.

Lemma filter_sorted (P : N → Prop) `{!∀ x, Decision (P x)} l :
  StronglySorted N.lt l → StronglySorted N.lt (filter P l).
Proof.
  induction 1 as [|z l Hs IH Hall]; [by constructor|].
  rewrite filter_cons. case_decide; [|done]. constructor; [done|].
  rewrite Forall_forall in Hall |- *. intros y [_ Hy]%list_elem_of_filter. by auto.
Qed.

(** The walk stops at the first CID of the range that is not live. *)
Lemma cid_walk_spec cid l :
  StronglySorted N.lt l → Forall (N.le cid) l →
  (cid <= cid_walk cid l)%N ∧ cid_walk cid l ∉ l ∧
  ∀ c, (cid <= c < cid_walk cid l)%N → c ∈ l.
Proof.
  intros Hs. revert cid. induction Hs as [|z l Hs IH Hall]; intros cid Hf; cbn.
  { split; [lia|]. split; [apply not_elem_of_nil|]. lia. }
  apply Forall_cons in Hf as [Hz Hf]. rewrite Forall_forall in Hall.
  destruct (N.ltb_spec cid z) as [Hlt|Hge].
  - split; [lia|]. split; [|lia]. intros [->|Hin]%elem_of_cons; [lia|].
    apply Hall in Hin. lia.
  - assert (z = cid) as -> by lia. destruct (IH (cid + 1)%N) as (H1 & H2 & H3).
    { rewrite Forall_forall. intros y Hy%Hall. lia. }
    split; [lia|]. split; [by intros [Heq|?]%elem_of_cons; [lia|]|].
    intros c Hc. destruct (N.eq_dec c cid) as [->|]; [by left|]. right. apply H3. lia.
Qed.

Inductive cid_op := CidAllocate | CidReserve (cid : N) | CidRelease (cid : N).

Definition cid_apply (p : CidPool) (op : cid_op) : CidPool :=
  match op with
  | CidAllocate => (cid_allocate p).2
  | CidReserve cid => (cid_reserve p cid).2
  | CidRelease cid => cid_release p cid
  end.

(** The pool after a sequence of calls. *)
Definition cid_history (ops : list cid_op) : CidPool := foldl cid_apply cid_allocator_new ops.

Lemma cid_allocate_walk p :
  cid_pool_ok p →
  let cid := cid_walk (next_free p) (bt_range (next_free p) (cids p)) in
  (next_free p <= cid <= MAX_GUEST_CID + 1)%N ∧ cid ∉ cids p ∧
  ∀ c, (MIN_GUEST_CID <= c < cid)%N → c ∈ cids p.
Proof.
  intros (Hs & Hr & Hn & Hlow). cbn zeta. unfold bt_range. set (l := filter _ _).
  destruct (cid_walk_spec (next_free p) l) as (H1 & H2 & H3).
  { by apply filter_sorted. }
  { apply Forall_forall. by intros y [? _]%list_elem_of_filter. }
  assert (∀ c, (MIN_GUEST_CID <= c < cid_walk (next_free p) l)%N → c ∈ cids p) as Hall.
  { intros c Hc. destruct (N.lt_ge_cases c (next_free p)) as [|Hge]; [by apply Hlow; lia|].
    by assert (c ∈ l) as [_ ?]%list_elem_of_filter by (apply H3; lia). }
  split_and!; [done| | |done].
  - destruct (N.le_gt_cases (cid_walk (next_free p) l) (MAX_GUEST_CID + 1)) as [|Hgt]; [done|].
    rewrite Forall_forall in Hr. specialize (Hr (MAX_GUEST_CID + 1)%N).
    destruct Hr as [_ Hr]; [apply Hall|]; lia.
  - contradict H2. apply list_elem_of_filter. by split.
Qed.

Lemma bt_insert_Forall (P : N → Prop) x l : P x → Forall P l → Forall P (bt_insert x l).
Proof. rewrite !Forall_forall. intros ?? y [->|?]%bt_insert_elem; auto. Qed.

Lemma filter_Forall (P Q : N → Prop) `{!∀ x, Decision (Q x)} l : Forall P l → Forall P (filter Q l).
Proof. rewrite !Forall_forall. intros Hl y [_ ?]%list_elem_of_filter; auto. Qed.

Lemma cid_apply_ok p op : cid_pool_ok p → cid_pool_ok (cid_apply p op).
Proof.
  intros Hp. pose proof (cid_allocate_walk p Hp) as Hw. pose proof Hp as (Hs & Hr & Hn & Hlow).
  destruct op as [|cid|cid]; cbn.
  - unfold cid_allocate. cbn zeta in Hw |- *. revert Hw. generalize (cid_walk (next_free p) (bt_range (next_free p) (cids p))).
    intros cid (H1 & H2 & H3). destruct (N.ltb_spec MAX_GUEST_CID cid); [done|].
    split_and!; cbn; [by apply bt_insert_sorted|apply bt_insert_Forall; [lia|done]|lia|lia|].
    intros c Hc. apply bt_insert_elem. destruct (N.eq_dec c cid); [by left|right; apply H3; lia].
  - unfold cid_reserve.
    destruct (N.leb_spec MIN_GUEST_CID cid), (N.leb_spec cid MAX_GUEST_CID); try done. cbn [negb andb].
    case_decide; [done|].
    split_and!; cbn; [by apply bt_insert_sorted|apply bt_insert_Forall; [lia|done]|lia|lia|].
    intros c Hc. apply bt_insert_elem. right. by apply Hlow.
  - unfold cid_release, bt_remove.
    destruct (N.leb_spec MIN_GUEST_CID cid), (N.ltb_spec cid (next_free p));
    (split_and!; cbn; [by apply filter_sorted|by apply filter_Forall|lia|lia|];
     intros c Hc; apply list_elem_of_filter; split; [lia|apply Hlow; lia]).
Qed.

Lemma cid_history_ok ops : cid_pool_ok (cid_history ops).
Proof.
  unfold cid_history.
  assert (cid_pool_ok cid_allocator_new) as Hi.
  { split_and!; cbn; [constructor|constructor|done|done|lia]. }
  revert Hi. generalize cid_allocator_new. induction ops as [|op ops IH]; [done|].
  intros p Hp. apply IH. by apply cid_apply_ok.
Qed.

(** After any sequence of calls, [CidAllocator::allocate] started from its
    hint hands out the lowest free guest CID, the same one a scan of the whole
    range would find, and fails only when every guest CID is live. *)
Theorem cid_allocate_lowest_free ops :
  match cid_allocate (cid_history ops) with
  | (Ok cid, p') =>
      (MIN_GUEST_CID <= cid <= MAX_GUEST_CID)%N ∧ cid ∉ cids (cid_history ops) ∧
      (∀ c, (MIN_GUEST_CID <= c < cid)%N → c ∈ cids (cid_history ops)) ∧
      ∀ c, c ∈ cids p' ↔ c = cid ∨ c ∈ cids (cid_history ops)
  | (Err _, p') =>
      p' = cid_history ops ∧
      ∀ c, (MIN_GUEST_CID <= c <= MAX_GUEST_CID)%N → c ∈ cids (cid_history ops)
  end.
Proof.
  pose proof (cid_history_ok ops) as Hp. revert Hp. generalize (cid_history ops). intros p Hp.
  pose proof (cid_allocate_walk p Hp) as Hw. pose proof Hp as (_ & _ & Hn & _).
  unfold cid_allocate. cbn zeta in Hw |- *. revert Hw. generalize (cid_walk (next_free p) (bt_range (next_free p) (cids p))).
  intros cid (H1 & H2 & H3). destruct (N.ltb_spec MAX_GUEST_CID cid).
  - split; [done|]. intros c Hc. apply H3. lia.
  - split_and!; [lia|lia|done|done|]. intros c. apply bt_insert_elem.
Qed.

(** A restored VM's CID guard gives back exactly its own CID and the baked
    CID it took itself; a baked CID reserved by another VM stays reserved. *)
Theorem cid_guard_releases_exactly cid baked p r g' p' :
  adopt_baked_cid {| cg_cid := cid; cg_baked := None |} p baked = (r, g', p') →
  ∀ c, c ∈ cids (drop_cid_guard g' p') ↔ c ∈ cids p ∧ c ≠ cid.
Proof.
  unfold adopt_baked_cid, drop_cid_guard. cbn [cg_cid]. case_decide.
  { intros [= <- <- <-] c. cbn [cg_baked cg_cid cid_release cids].
    unfold bt_remove. rewrite list_elem_of_filter. tauto. }
  unfold cid_reserve. destruct (negb _).
  { intros [= <- <- <-] c. cbn [cg_baked cg_cid cid_release cids].
    unfold bt_remove. rewrite list_elem_of_filter. tauto. }
  case_decide as Hin; intros [= <- <- <-] c; cbn [cg_baked cg_cid cid_release cids];
    unfold bt_remove; rewrite !list_elem_of_filter;
    [tauto|]. rewrite bt_insert_elem. split; [naive_solver|].
  intros [Hc ?]. split_and!; [done|congruence|by right].
Qed.

Definition demo_pool : CidPool := cid_history [CidAllocate; CidAllocate; CidReserve 7; CidRelease 3].

Lemma cid_guard_releases_exactly_witness :
  (adopt_baked_cid {| cg_cid := 4; cg_baked := None |} demo_pool 9).1.2 =
    {| cg_cid := 4; cg_baked := Some 9%N |} ∧
  ∀ c, c ∈ cids (drop_cid_guard {| cg_cid := 4; cg_baked := Some 9%N |}
      (cid_reserve demo_pool 9).2) ↔ c ∈ cids demo_pool ∧ c ≠ 4%N.
Proof.
  split; [vm_compute; reflexivity|].
  apply (cid_guard_releases_exactly 4 9 demo_pool (Ok ())). vm_compute. reflexivity.
Defined.
