(* ===== verification/IdClaimProtocol.v ===== *)
(** * The cross-process id claim, system call by system call

    [FsIdClaim] of [crates/vmcell/src/orchestrator.rs] under interleaving: any
    number of processes with any number of threads claim, hold, release and
    crash on one id.  [pstep] has one rule per system call of [try_claim],
    [atomic_claim] and [release], plus I/O failures, process starts (with pid
    reuse) and crashes.  The id is fixed: the files of distinct ids are
    disjoint. *)

From S2P Require Import Prelude IdAlloc.

(** Where a thread is: outside, waiting for [flock], under it before the
    liveness read, after reading "no live owner", after removing the stale
    lock, after writing the temp file, with its answer decided, and holding
    the id after [try_claim] returned [Ok(true)]. *)
Inductive pc :=
  | PIdle | PCoord | PLocked | PDead | PFree | PTmp | PDone (won : bool) | PHold.

#[export] Instance pc_eq_dec : EqDecision pc.
Proof. solve_decision. Defined.

Record world := {
  lockf : option string;       (** [<id>.lock] *)
  flock : option N;            (** the thread holding [<id>.coord] *)
  alive : gset N;              (** pids with a [/proc] entry *)
  threads : gmap N (N * pc);   (** a thread's process and position *)
}.

Definition content_live (pids : gset N) (contents : string) : bool :=
  match parse_uint u32_max (str_trim contents) with
  | Some pid => bool_decide (pid ∈ pids)
  | None => false
  end.

Definition lock_live (w : world) : bool := default false (content_live (alive w) <$> lockf w).

Definition put (t p : N) (c : pc) (w : world) : world :=
  {| lockf := lockf w; flock := flock w; alive := alive w; threads := <[t := (p, c)]> (threads w) |}.
Definition set_lockf (l : option string) (w : world) : world :=
  {| lockf := l; flock := flock w; alive := alive w; threads := threads w |}.
Definition set_flock (f : option N) (w : world) : world :=
  {| lockf := lockf w; flock := f; alive := alive w; threads := threads w |}.

(** Dropping the coordination file. *)
Definition unlock (t : N) (w : world) : world :=
  if decide (flock w = Some t) then set_flock None w else w.

(** The kernel's view of a process death: its threads and its [flock] go, its
    lock file stays. *)
Definition crash (pid : N) (w : world) : world := {|
  lockf := lockf w;
  flock := match flock w with
           | Some t => if decide (fst <$> threads w !! t = Some pid) then None else Some t
           | None => None
           end;
  alive := alive w ∖ {[pid]};
  threads := filter (λ '(_, (p, _)), p ≠ pid) (threads w);
|}.

(** The positions in which a system call of [try_claim] can fail. *)
Definition can_fail (c : pc) : bool :=
  match c with PCoord | PLocked | PDead | PFree | PTmp => true | _ => false end.

Inductive pstep (w : world) : world → Prop :=
  | S_process pid :
      pid ∉ alive w → (pid <= u32_max)%N →
      pstep w {| lockf := lockf w; flock := flock w; alive := {[pid]} ∪ alive w; threads := threads w |}
  | S_thread t pid :
      pid ∈ alive w → threads w !! t = None → pstep w (put t pid PIdle w)
  | S_open t p : threads w !! t = Some (p, PIdle) → pstep w (put t p PCoord w)
  | S_flock t p :
      threads w !! t = Some (p, PCoord) → flock w = None →
      pstep w (put t p PLocked (set_flock (Some t) w))
  | S_read_live t p :
      threads w !! t = Some (p, PLocked) → lock_live w = true → pstep w (put t p (PDone false) w)
  | S_read_dead t p :
      threads w !! t = Some (p, PLocked) → lock_live w = false → pstep w (put t p PDead w)
  | S_remove t p :
      threads w !! t = Some (p, PDead) → pstep w (put t p PFree (set_lockf None w))
  | S_write t p : threads w !! t = Some (p, PFree) → pstep w (put t p PTmp w)
  | S_link t p :
      threads w !! t = Some (p, PTmp) → lockf w = None →
      pstep w (put t p (PDone true) (set_lockf (Some (pretty p)) w))
  | S_link_exists t p :
      threads w !! t = Some (p, PTmp) → lockf w ≠ None → pstep w (put t p (PDone false) w)
  | S_unlock t p won :
      threads w !! t = Some (p, PDone won) →
      pstep w (put t p (if won then PHold else PIdle) (unlock t w))
  | S_fail t p c :
      threads w !! t = Some (p, c) → can_fail c = true → pstep w (put t p PIdle (unlock t w))
  | S_release t p :
      threads w !! t = Some (p, PHold) → pstep w (put t p PIdle (set_lockf None w))
  | S_release_fails t p :
      threads w !! t = Some (p, PHold) → pstep w (put t p PIdle w)
  | S_crash pid : pid ∈ alive w → pstep w (crash pid w).

Definition world0 (stale : option string) : world :=
  {| lockf := stale; flock := None; alive := ∅; threads := ∅ |}.

(** Any lock file may be left over from before. *)
Definition preach (w : world) : Prop := ∃ stale, rtc pstep (world0 stale) w.

(** ** The invariant *)

Definition critical (c : pc) : bool :=
  match c with PLocked | PDead | PFree | PTmp | PDone _ => true | _ => false end.
Definition owns (c : pc) : bool :=
  match c with PDone true | PHold => true | _ => false end.
Definition stealing (c : pc) : bool :=
  match c with PDead | PFree | PTmp => true | _ => false end.
Definition emptied (c : pc) : bool :=
  match c with PFree | PTmp => true | _ => false end.

Record WInv (w : world) : Prop := {
  wi_pid t p c : threads w !! t = Some (p, c) → p ∈ alive w;
  wi_alive p : p ∈ alive w → (p <= u32_max)%N;
  wi_crit t p c : threads w !! t = Some (p, c) → critical c = true → flock w = Some t;
  wi_flock t : flock w = Some t → ∃ p c, threads w !! t = Some (p, c) ∧ critical c = true;
  wi_owns t p c : threads w !! t = Some (p, c) → owns c = true → lockf w = Some (pretty p);
  wi_steal t p c t' p' c' :
    threads w !! t = Some (p, c) → threads w !! t' = Some (p', c') →
    stealing c = true → owns c' = false;
  wi_empty t p c : threads w !! t = Some (p, c) → emptied c = true → lockf w = None;
  wi_one t p c t' p' c' :
    threads w !! t = Some (p, c) → threads w !! t' = Some (p', c') →
    owns c = true → owns c' = true → t = t';
}.

Lemma content_live_pretty pids p :
  p ∈ pids → (p <= u32_max)%N → content_live pids (pretty p) = true.
Proof.
  intros Hp Hle. unfold content_live. rewrite str_trim_pretty, parse_pretty by done.
  by apply bool_decide_true.
Qed.

(** The lock of a holder reads as live. *)
Lemma owner_lock_live w t p c :
  WInv w → threads w !! t = Some (p, c) → owns c = true → lock_live w = true.
Proof.
  intros HI Ht Ho. unfold lock_live. rewrite (wi_owns _ HI _ _ _ Ht Ho). cbn.
  apply content_live_pretty; [|apply (wi_alive _ HI)]; by eapply wi_pid.
Qed.

Ltac world_cases :=
  repeat match goal with
  | H : <[_:=_]> _ !! _ = Some _ |- _ =>
      apply lookup_insert_Some in H as [[? ?]|[? H]]; simplify_eq
  end.

(** Moving one thread of a good world keeps it good when the new position and
    the new files satisfy the invariant locally. *)
Lemma put_inv w t p c0 c l f :
  WInv w → threads w !! t = Some (p, c0) →
  (critical c = true ↔ f = Some t) →
  (f = flock w ∨ (flock w = None ∨ flock w = Some t) ∧ (f = None ∨ f = Some t)) →
  (l = lockf w ∨ ∀ t' p' c', t' ≠ t → threads w !! t' = Some (p', c') →
     owns c' = false ∧ (emptied c' = true → l = None)) →
  (owns c = true → l = Some (pretty p) ∧
     ∀ t' p' c', t' ≠ t → threads w !! t' = Some (p', c') → owns c' = false ∧ stealing c' = false) →
  (stealing c = true → ∀ t' p' c', t' ≠ t → threads w !! t' = Some (p', c') → owns c' = false) →
  (emptied c = true → l = None) →
  WInv (put t p c (set_lockf l (set_flock f w))).
Proof.
  intros HI Ht Hc Hf Hl Ho Hs He.
  split; cbn.
  - intros t' p' c' H; world_cases; by eauto using wi_pid.
  - apply (wi_alive _ HI).
  - intros t' p' c' H Hcr; world_cases; [by apply Hc|].
    pose proof (wi_crit _ HI _ _ _ H Hcr). naive_solver.
  - intros t' ->. destruct (decide (t' = t)) as [->|Hne].
    + exists p, c. rewrite lookup_insert_eq. split; [done|]. by apply Hc.
    + rewrite lookup_insert_ne by done. apply (wi_flock _ HI). naive_solver.
  - intros t' p' c' H Hown; world_cases; [by apply Ho|].
    destruct Hl as [->|Hl]; [by eapply wi_owns|].
    destruct (Hl _ _ _ ltac:(done) H). congruence.
  - intros t1 p1 c1 t2 p2 c2 H1 H2 Hst. world_cases; eauto using wi_steal.
    + match goal with H : stealing ?x = true |- _ => by destruct x end.
    + match goal with |- owns ?x = _ => destruct (owns x) eqn:Hown; [|done] end.
      destruct (Ho eq_refl) as [_ Hoth]. destruct (Hoth _ _ _ ltac:(done) H1). congruence.
  - intros t' p' c' H Hem; world_cases; [by apply He|].
    destruct Hl as [->|Hl]; [by eapply wi_empty|]. by destruct (Hl _ _ _ ltac:(done) H); auto.
  - intros t1 p1 c1 t2 p2 c2 H1 H2 Ho1 Ho2. world_cases; eauto using wi_one;
      destruct (Ho ltac:(done)) as [_ Hoth]; exfalso;
      match goal with H : threads w !! _ = _ |- _ =>
        destruct (Hoth _ _ _ ltac:(done) H); congruence end.
Qed.

Lemma not_critical c : critical c = false → stealing c = false ∧ emptied c = false.
Proof. by destruct c. Qed.

(** Under the [flock], every other thread is outside the critical section. *)
Lemma others_outside w t p c t' p' c' :
  WInv w → threads w !! t = Some (p, c) → critical c = true →
  t' ≠ t → threads w !! t' = Some (p', c') → critical c' = false.
Proof.
  intros HI Ht Hc Hne Ht'. destruct (critical c') eqn:Hc'; [|done].
  pose proof (wi_crit _ HI _ _ _ Ht Hc). pose proof (wi_crit _ HI _ _ _ Ht' Hc'). congruence.
Qed.

Lemma unlock_flock w t p c :
  WInv w → threads w !! t = Some (p, c) →
  unlock t w = set_flock (if critical c then None else flock w) w ∧
  (critical c = false → flock w ≠ Some t).
Proof.
  intros HI Ht. assert (critical c = false → flock w ≠ Some t) as Hn.
  { intros Hc Hf. destruct (wi_flock _ HI _ Hf) as (? & ? & ? & ?). congruence. }
  split; [|done]. unfold unlock. destruct (critical c) eqn:Hc.
  - by rewrite decide_True by (by eapply wi_crit).
  - rewrite decide_False by auto. by destruct w.
Qed.

(** A thread that leaves for the idle position, its [flock] dropped. *)
Lemma leave_inv w t p c :
  WInv w → threads w !! t = Some (p, c) → WInv (put t p PIdle (unlock t w)).
Proof.
  intros HI Ht. destruct (unlock_flock w t p c HI Ht) as [-> Hn].
  refine (put_inv w t p c PIdle (lockf w) _ HI Ht _ _ _ _ _ _); try done; [| |by left].
  - split; [done|]. destruct (critical c); [done|]. by intros ?%Hn.
  - destruct (critical c) eqn:Hc; [|by left]. right. split; [right|by left]. by eapply wi_crit.
Qed.

(** A holder is the only one to own the id, and nobody is stealing it. *)
Lemma owner_alone w t p c t' p' c' :
  WInv w → threads w !! t = Some (p, c) → owns c = true →
  t' ≠ t → threads w !! t' = Some (p', c') → owns c' = false ∧ stealing c' = false.
Proof.
  intros HI Ht Ho Hne Ht'. split.
  - destruct (owns c') eqn:?; [|done]. by destruct Hne; eapply wi_one.
  - destruct (stealing c') eqn:Hst; [|done].
    pose proof (wi_steal _ HI _ _ _ _ _ _ Ht' Ht Hst). congruence.
Qed.

Lemma thread_inv w t pid :
  WInv w → pid ∈ alive w → threads w !! t = None → WInv (put t pid PIdle w).
Proof.
  intros HI Hp Hn. split; cbn.
  - intros t' p' c' H; world_cases; by eauto using wi_pid.
  - apply (wi_alive _ HI).
  - intros t' p' c' H Hc; world_cases; by eauto using wi_crit.
  - intros t' Hf. destruct (wi_flock _ HI _ Hf) as (p' & c' & Ht' & ?).
    exists p', c'. rewrite lookup_insert_ne by congruence. done.
  - intros t' p' c' H Ho; world_cases; by eauto using wi_owns.
  - intros t1 p1 c1 t2 p2 c2 H1 H2 Hs; world_cases; by eauto using wi_steal.
  - intros t' p' c' H He; world_cases; by eauto using wi_empty.
  - intros t1 p1 c1 t2 p2 c2 H1 H2 Ho1 Ho2; world_cases; by eauto using wi_one.
Qed.

Lemma crash_inv w pid : WInv w → WInv (crash pid w).
Proof.
  intros HI.
  assert (∀ t p c, threads (crash pid w) !! t = Some (p, c) →
    threads w !! t = Some (p, c) ∧ p ≠ pid) as Hback.
  { cbn. intros t p c [??]%map_lookup_filter_Some. done. }
  split.
  - intros t p c [H Hne]%Hback. cbn. pose proof (wi_pid _ HI _ _ _ H). set_solver.
  - cbn. intros p [Hp _]%elem_of_difference. by apply (wi_alive _ HI).
  - intros t p c [H Hne]%Hback Hc. cbn. rewrite (wi_crit _ HI _ _ _ H Hc), H. cbn.
    by rewrite decide_False by congruence.
  - cbn. intros t. destruct (flock w) as [t0|] eqn:Hf; [|done]. case_decide as Hd; [done|].
    intros [= <-]. destruct (wi_flock _ HI _ Hf) as (p & c & Ht & Hc). exists p, c.
    split; [|done]. apply map_lookup_filter_Some. split; [done|]. rewrite Ht in Hd. cbn in Hd. congruence.
  - intros t p c [H _]%Hback Ho. by eapply (wi_owns _ HI).
  - intros t1 p1 c1 t2 p2 c2 [H1 _]%Hback [H2 _]%Hback. by eapply (wi_steal _ HI).
  - intros t p c [H _]%Hback He. by eapply (wi_empty _ HI).
  - intros t1 p1 c1 t2 p2 c2 [H1 _]%Hback [H2 _]%Hback. by eapply (wi_one _ HI).
Qed.

(** A step inside the critical section that touches neither file. *)
Lemma crit_inv w t p c0 c :
  WInv w → threads w !! t = Some (p, c0) → critical c0 = true → critical c = true →
  (owns c = true → owns c0 = true) →
  (stealing c = true → ∀ t' p' c', t' ≠ t → threads w !! t' = Some (p', c') → owns c' = false) →
  (emptied c = true → lockf w = None) →
  WInv (put t p c w).
Proof.
  intros HI Ht Hc0 Hc Ho Hs He.
  refine (put_inv w t p c0 c (lockf w) (flock w) HI Ht _ _ _ _ Hs He); [|by left|by left|].
  - split; [|done]. intros _. by eapply wi_crit.
  - intros Hown. specialize (Ho Hown). split; [by eapply wi_owns|].
    intros t2 p2 c2 Hne H2. by apply (owner_alone w t p c0 t2 p2 c2).
Qed.

Lemma link_inv w t p :
  WInv w → threads w !! t = Some (p, PTmp) →
  WInv (put t p (PDone true) (set_lockf (Some (pretty p)) w)).
Proof.
  intros HI Ht.
  assert (∀ t' p' c', t' ≠ t → threads w !! t' = Some (p', c') →
    owns c' = false ∧ stealing c' = false ∧ emptied c' = false) as Hoth.
  { intros t' p' c' Hne Ht'. split; [by eapply (wi_steal _ HI t p PTmp)|].
    apply not_critical. by apply (others_outside w t p PTmp t' p' c'). }
  refine (put_inv w t p PTmp (PDone true) _ (flock w) HI Ht _ _ _ _ _ _); try done.
  - split; [|done]. intros _. by eapply wi_crit.
  - by left.
  - right. intros t' p' c' Hne Ht'. destruct (Hoth _ _ _ Hne Ht') as (? & ? & ?). split; congruence.
  - intros _. split; [done|]. intros t' p' c' Hne Ht'. destruct (Hoth _ _ _ Hne Ht') as (? & ? & ?). done.
Qed.

Lemma drop_lock_inv w t p c0 c :
  WInv w → threads w !! t = Some (p, c0) → critical c = critical c0 →
  (∀ t' p' c', t' ≠ t → threads w !! t' = Some (p', c') → owns c' = false) →
  owns c = false →
  WInv (put t p c (set_lockf None w)).
Proof.
  intros HI Ht Hc Hoth Ho.
  refine (put_inv w t p c0 c None (flock w) HI Ht _ _ _ _ _ _); [|by left| |congruence|by auto|done].
  - rewrite Hc. split; [by eapply wi_crit|].
    intros Hf. destruct (wi_flock _ HI _ Hf) as (? & ? & ? & ?). congruence.
  - right. by eauto.
Qed.

(** A step between two positions outside, or out of the critical section with
    the answer in hand. *)
Lemma outside_inv w t p c0 c f :
  WInv w → threads w !! t = Some (p, c0) → critical c = false → f = (if critical c0 then None else flock w) →
  owns c = owns c0 ∨ owns c = false →
  WInv (put t p c (set_flock f w)).
Proof.
  intros HI Ht Hc -> Ho. destruct (unlock_flock w t p c0 HI Ht) as [_ Hn].
  destruct (not_critical _ Hc) as [Hst Hem].
  refine (put_inv w t p c0 c (lockf w) _ HI Ht _ _ _ _ _ _); [| |by left| |congruence|congruence].
  - split; [congruence|]. destruct (critical c0); [done|]. by intros ?%Hn.
  - destruct (critical c0) eqn:Hc0; [|by left]. right. split; [right; by eapply wi_crit|by left].
  - intros Hown. assert (owns c0 = true) as Ho0 by (destruct Ho; congruence).
    split; [by eapply wi_owns|]. intros t2 p2 c2 Hne H2.
    by apply (owner_alone w t p c0 t2 p2 c2).
Qed.

Lemma pstep_inv w w' : pstep w w' → WInv w → WInv w'.
Proof.
  intros Hstep HI. inversion Hstep as
    [pid Hnew Hle|t pid Hp Hn|t p Ht|t p Ht Hf|t p Ht Hl|t p Ht Hl|t p Ht|t p Ht|t p Ht Hl
    |t p Ht Hl|t p won Ht|t p c Ht Hc|t p Ht|t p Ht|pid Hp]; subst w'.
  - destruct HI. split; cbn; eauto; set_solver.
  - by apply thread_inv.
  - by apply (outside_inv w t p PIdle PCoord (flock w)); auto.
  - refine (put_inv w t p PCoord PLocked (lockf w) (Some t) HI Ht _ _ _ _ _ _); try done; [|by left].
    right. auto.
  - by apply (crit_inv w t p PLocked).
  - apply (crit_inv w t p PLocked); try done. intros _ t' p' c' _ Ht'.
    destruct (owns c') eqn:Ho; [|done].
    pose proof (owner_lock_live w t' p' c' HI Ht' Ho). congruence.
  - apply (drop_lock_inv w t p PDead); try done. intros t' p' c' _ Ht'. by apply (wi_steal _ HI t p PDead t' p' c').
  - apply (crit_inv w t p PFree); try done; intros _; [|by apply (wi_empty _ HI t p PFree)].
    intros t' p' c' _ Ht'. by apply (wi_steal _ HI t p PFree t' p' c').
  - by apply link_inv.
  - by apply (crit_inv w t p PTmp).
  - destruct won; [|by eapply leave_inv].
    destruct (unlock_flock w t p _ HI Ht) as [-> _].
    by apply (outside_inv w t p (PDone true) PHold); auto.
  - by eapply leave_inv.
  - apply (drop_lock_inv w t p PHold); try done. intros t' p' c' Hne Ht'. by apply (owner_alone w t p PHold t' p' c').
  - apply (outside_inv w t p PHold PIdle (flock w)); auto.
  - by apply crash_inv.
Qed.

Lemma preach_inv w : preach w → WInv w.
Proof.
  intros [stale Hr]. cut (WInv (world0 stale)).
  { revert Hr. induction 1 as [|x y z Hs _ IH]; [done|]. intros. by eapply IH, pstep_inv. }
  split; cbn; intros *; rewrite ?lookup_empty; try done; set_solver.
Qed.

(** ** What the protocol promises *)

(** C2: Exactly one winner.  However claims, releases, failures and crashes of
    any number of processes interleave, and whatever lock file was left over,
    at most one thread holds the id; while it does, the lock file names its
    process and the liveness test of every claimer and every sweep answers
    "live". *)
Theorem one_live_holder w t p t' p' :
  preach w → threads w !! t = Some (p, PHold) → threads w !! t' = Some (p', PHold) →
  t = t' ∧ lockf w = Some (pretty p) ∧ lock_live w = true.
Proof.
  intros HI%preach_inv Ht Ht'. split_and!.
  - by eapply (wi_one _ HI).
  - by eapply (wi_owns _ HI).
  - by eapply owner_lock_live.
Qed.

(** The abstract contract: an id is free or owned by one thread, and only a
    free id is acquired. *)
Inductive id_step : option N → option N → Prop :=
  | id_acquire t : id_step None (Some t)
  | id_release t : id_step (Some t) None
  | id_stutter o : id_step o o.

Definition owned_by (w : world) (o : option N) : Prop :=
  ∀ t, o = Some t ↔ ∃ p c, threads w !! t = Some (p, c) ∧ owns c = true.

Lemma owned_by_none w : owned_by w None ↔ ∀ t p c, threads w !! t = Some (p, c) → owns c = false.
Proof.
  split.
  - intros H t p c Ht. destruct (owns c) eqn:Ho; [|done].
    assert (None = Some t) by (apply H; eauto). done.
  - intros H t. split; [done|]. intros (p & c & Ht & Ho). apply H in Ht. congruence.
Qed.

Lemma owned_by_some w t p c :
  WInv w → threads w !! t = Some (p, c) → owns c = true → owned_by w (Some t).
Proof.
  intros HI Ht Ho t'. split; [intros [= <-]; by eauto|].
  intros (p' & c' & Ht' & Ho'). f_equal. by eapply (wi_one _ HI).
Qed.

Lemma owned_by_exists w : WInv w → ∃ o, owned_by w o.
Proof.
  intros HI.
  destruct (map_choose_or_empty (filter (λ '(_, (_, c)), owns c = true) (threads w)))
    as [(t & [p c] & [Ht Ho]%map_lookup_filter_Some)|Hnone].
  - exists (Some t). by eapply owned_by_some.
  - exists None. apply owned_by_none. intros t p c Ht. destruct (owns c) eqn:Ho; [|done].
    assert (filter (λ '(_, (_, c)), owns c = true) (threads w) !! t = Some (p, c)) as Hf
      by (by apply map_lookup_filter_Some).
    by rewrite Hnone, lookup_empty in Hf.
Qed.

(** Two worlds whose threads own the same things are owned alike. *)
Lemma owned_by_same w w' o :
  (∀ t, (∃ p c, threads w' !! t = Some (p, c) ∧ owns c = true) ↔
        (∃ p c, threads w !! t = Some (p, c) ∧ owns c = true)) →
  owned_by w o → owned_by w' o.
Proof. intros H Ho t. rewrite H. apply Ho. Qed.

Lemma put_same w w' t p c0 c o :
  threads w' = <[t := (p, c)]> (threads w) → threads w !! t = Some (p, c0) → owns c = owns c0 →
  owned_by w o → owned_by w' o.
Proof.
  intros Hw Ht Ho. apply owned_by_same. intros t'. rewrite Hw.
  destruct (decide (t' = t)) as [->|]; [rewrite lookup_insert_eq|by rewrite lookup_insert_ne].
  split; intros (? & ? & ? & ?); simplify_eq; eexists _, _; split; eauto; congruence.
Qed.

Lemma unlock_threads t w : threads (unlock t w) = threads w.
Proof. unfold unlock. by case_decide. Qed.

(** Leaving the owning positions frees the id. *)
Lemma put_frees w w' t p c0 c :
  WInv w → threads w !! t = Some (p, c0) → owns c0 = true →
  threads w' = <[t := (p, c)]> (threads w) → owns c = false → owned_by w' None.
Proof.
  intros HI Ht Ho Hw Hc. apply owned_by_none. rewrite Hw. intros t' p' c' H.
  apply lookup_insert_Some in H as [[_ [= <- <-]]|[Hne H]]; [done|].
  by eapply (owner_alone w t p c0 t' p' c').
Qed.

(** C28: The system calls implement the atomic contract.  Every step of the
    protocol is invisible or acquires a free id or gives up an owned one, so an
    id is never taken over from a live owner. *)
Theorem claim_refines_atomic w w' o :
  preach w → owned_by w o → pstep w w' →
  ∃ o', id_step o o' ∧ owned_by w' o'.
Proof.
  intros HI%preach_inv Ho Hstep.
  assert (WInv w') as HI' by (by eapply pstep_inv).
  assert (∀ t p c0 c, threads w' = <[t := (p, c)]> (threads w) → threads w !! t = Some (p, c0) →
    owns c = owns c0 → ∃ o', id_step o o' ∧ owned_by w' o') as Hsame.
  { intros t p c0 c Hw Ht Hc. exists o. split; [constructor|]. by eapply put_same. }
  assert (∀ t p c0 c, threads w !! t = Some (p, c0) → owns c0 = true →
    threads w' = <[t := (p, c)]> (threads w) → owns c = false →
    ∃ o', id_step o o' ∧ owned_by w' o') as Hfree.
  { intros t p c0 c Ht Hc0 Hw Hc. exists None. split; [|by apply (put_frees w w' t p c0 c)].
    assert (o = Some t) as -> by (apply Ho; eauto). constructor. }
  inversion Hstep as
    [pid Hnew Hle|t pid Hp Hn|t p Ht|t p Ht Hf|t p Ht Hl|t p Ht Hl|t p Ht|t p Ht|t p Ht Hl
    |t p Ht Hl|t p won Ht|t p c Ht Hc|t p Ht|t p Ht|pid Hp]; subst w'.
  all: try (by eapply Hsame; [cbn; rewrite ?unlock_threads; reflexivity|exact Ht|done]).
  all: try (by eapply Hfree; [exact Ht|done|cbn; reflexivity|done]).
  - exists o. split; [constructor|done].
  - exists o. split; [constructor|]. revert Ho. apply owned_by_same. intros t'. cbn.
    destruct (decide (t' = t)) as [->|]; [rewrite lookup_insert_eq, Hn|by rewrite lookup_insert_ne].
    split; intros (? & ? & ? & ?); simplify_eq; done.
  - exists (Some t). split.
    + assert (owned_by w None) as Hn.
      { apply owned_by_none. intros t' p' c' Ht'. by apply (wi_steal _ HI t p PTmp t' p' c'). }
      destruct o as [t0|]; [|constructor]. destruct (proj1 (Ho t0) eq_refl) as (p0 & c0 & Ht0 & Hc0).
      pose proof (proj1 (owned_by_none w) Hn _ _ _ Ht0). congruence.
    + eapply (owned_by_some _ t p (PDone true)); [done|apply lookup_insert_eq|done].
  - eapply Hsame; [cbn; rewrite unlock_threads; reflexivity|exact Ht|by destruct won].
  - eapply Hsame; [cbn; rewrite unlock_threads; reflexivity|exact Ht|by destruct c].
  - destruct (owned_by_exists _ HI') as [o' Ho']. exists o'. split; [|done].
    assert (∀ t, o' = Some t → o = Some t) as Hsub.
    { intros t Ht. apply Ho' in Ht as (p & c & [Ht _]%map_lookup_filter_Some & ?).
      apply Ho. by eauto. }
    destruct o' as [t|]; [rewrite (Hsub t eq_refl); constructor|].
    destruct o; constructor.
Qed.

(** Under the coordination lock the link cannot lose.  A thread that has
    removed the stale lock and written its temp file finds the lock path free:
    the [AlreadyExists] answer of the link is unreachable between claimers. *)
Theorem link_finds_path_free w t p :
  preach w → threads w !! t = Some (p, PTmp) → lockf w = None ∧ flock w = Some t.
Proof.
  intros HI%preach_inv Ht. split; [by eapply (wi_empty _ HI)|by eapply (wi_crit _ HI)].
Qed.

Lemma put_lookup t p c w : threads (put t p c w) !! t = Some (p, c).
Proof. apply lookup_insert_eq. Qed.

(** A crash never wedges an id.  Whenever the coordination lock is free and
    no live process is named by the lock file (its owner crashed, or released
    it), a claimer that runs alone and meets no I/O error ends up holding it. *)
Theorem crashed_owner_reclaimable w t p :
  preach w → flock w = None → lock_live w = false → threads w !! t = Some (p, PIdle) →
  ∃ w', rtc pstep w w' ∧ threads w' !! t = Some (p, PHold) ∧ lockf w' = Some (pretty p).
Proof.
  intros _ Hf Hl Ht. eexists. split.
  - eapply rtc_l; [by apply (S_open w t p)|].
    eapply rtc_l; [by apply (S_flock _ t p); [apply put_lookup|]|].
    eapply rtc_l; [by apply (S_read_dead _ t p); [apply put_lookup|]|].
    eapply rtc_l; [by apply (S_remove _ t p), put_lookup|].
    eapply rtc_l; [by apply (S_write _ t p), put_lookup|].
    eapply rtc_l; [by apply (S_link _ t p); [apply put_lookup|]|].
    eapply rtc_l; [by apply (S_unlock _ t p true), put_lookup|]. reflexivity.
  - split; [apply put_lookup|]. cbn. unfold unlock. by case_decide.
Qed.

(** ** Concrete runs *)

(** An executable rendering of the rules, to run schedules by evaluation. *)
Inductive move :=
  | MProcess (pid : N) | MThread (t pid : N) | MGo (t : N) | MRelease (t : N) | MCrash (pid : N).

Definition go_thread (t p : N) (c : pc) (w : world) : option world :=
  match c with
  | PIdle => Some (put t p PCoord w)
  | PCoord => if decide (flock w = None) then Some (put t p PLocked (set_flock (Some t) w)) else None
  | PLocked => Some (put t p (if lock_live w then PDone false else PDead) w)
  | PDead => Some (put t p PFree (set_lockf None w))
  | PFree => Some (put t p PTmp w)
  | PTmp =>
      match lockf w with
      | None => Some (put t p (PDone true) (set_lockf (Some (pretty p)) w))
      | Some _ => Some (put t p (PDone false) w)
      end
  | PDone won => Some (put t p (if won then PHold else PIdle) (unlock t w))
  | PHold => None
  end.

Definition move_step (w : world) (m : move) : option world :=
  match m with
  | MProcess pid =>
      if decide (pid ∉ alive w) then if (pid <=? u32_max)%N then
        Some {| lockf := lockf w; flock := flock w; alive := {[pid]} ∪ alive w; threads := threads w |}
      else None else None
  | MThread t pid =>
      if decide (pid ∈ alive w) then
        if decide (threads w !! t = None) then Some (put t pid PIdle w) else None
      else None
  | MGo t => '(p, c) ← threads w !! t; go_thread t p c w
  | MRelease t =>
      '(p, c) ← threads w !! t;
      if decide (c = PHold) then Some (put t p PIdle (set_lockf None w)) else None
  | MCrash pid => if decide (pid ∈ alive w) then Some (crash pid w) else None
  end.

Fixpoint moves (w : world) (ms : list move) : option world :=
  match ms with
  | [] => Some w
  | m :: ms => w' ← move_step w m; moves w' ms
  end.

Lemma go_thread_sound w t p c w' :
  threads w !! t = Some (p, c) → go_thread t p c w = Some w' → pstep w w'.
Proof.
  intros Ht H. destruct c as [| | | | | |won|]; cbn in H.
  - simplify_eq. by constructor.
  - case_decide; simplify_eq. by constructor.
  - destruct (lock_live w) eqn:?; simplify_eq; by constructor.
  - simplify_eq. by constructor.
  - simplify_eq. by constructor.
  - destruct (lockf w) eqn:?; simplify_eq; by constructor; try congruence.
  - simplify_eq. by constructor.
  - done.
Qed.

Lemma move_step_sound w m w' : move_step w m = Some w' → pstep w w'.
Proof.
  destruct m as [pid|t pid|t|t|pid]; cbn; intros H.
  - case_decide; [|done]. destruct (N.leb_spec pid u32_max); simplify_eq. by constructor.
  - repeat case_decide; simplify_eq. by constructor.
  - apply bind_Some in H as ([p c] & ? & ?). by eapply go_thread_sound.
  - apply bind_Some in H as ([p c] & ? & ?). case_decide; simplify_eq. by constructor.
  - case_decide; simplify_eq. by constructor.
Qed.

Lemma moves_sound ms w w' : moves w ms = Some w' → rtc pstep w w'.
Proof.
  revert w. induction ms as [|m ms IH]; cbn; intros w H; [by simplify_eq|].
  apply bind_Some in H as (w1 & ?%move_step_sound & ?). eapply rtc_l; eauto.
Qed.

(** Process 7 left a lock and died; processes 10 and 11 race for the id. *)
Definition demo_race (ms : list move) : option world :=
  moves (world0 (Some "7")) ([MProcess 10; MThread 1 10; MProcess 11; MThread 2 11] ++ ms).

Definition climb (t : N) (n : nat) : list move := replicate n (MGo t).

Definition demo_world (ms : list move) : world := default (world0 None) (demo_race ms).

Lemma demo_preach ms : is_Some (demo_race ms) → preach (demo_world ms).
Proof.
  intros [w Hw]. exists (Some "7"). unfold demo_world. rewrite Hw. cbn. by eapply moves_sound.
Qed.

(** Thread 1 won; thread 2 read its lock and left. *)
Definition demo_held : world := demo_world (climb 1 1 ++ climb 2 1 ++ climb 1 6 ++ climb 2 3).

Lemma one_live_holder_witness :
  threads demo_held !! 2%N = Some (11%N, PIdle) ∧
  1%N = 1%N ∧ lockf demo_held = Some (pretty 10%N) ∧ lock_live demo_held = true.
Proof.
  split; [vm_compute; reflexivity|].
  apply (one_live_holder demo_held 1 10 1 10);
    [apply demo_preach; vm_compute; eauto| |]; vm_compute; reflexivity.
Defined.

Definition demo_tmp_written : world := demo_world (climb 1 5).

Lemma claim_refines_atomic_witness :
  ∃ o', id_step None o' ∧
    owned_by (put 1 10 (PDone true) (set_lockf (Some (pretty 10%N)) demo_tmp_written)) o'.
Proof.
  apply (claim_refines_atomic demo_tmp_written).
  - apply demo_preach. vm_compute. eauto.
  - apply owned_by_none. intros t p c Ht. destruct (owns c) eqn:Ho; [|reflexivity].
    assert (map_Forall (λ _ (x : N * pc), owns x.2 = false) (threads demo_tmp_written)) as Hf.
    { refine (bool_decide_unpack _ _). vm_compute. exact I. }
    rewrite <- (Hf _ _ Ht), <- Ho. reflexivity.
  - apply S_link; vm_compute; reflexivity.
Defined.

Lemma link_finds_path_free_witness :
  lockf demo_tmp_written = None ∧ flock demo_tmp_written = Some 1%N.
Proof.
  apply (link_finds_path_free demo_tmp_written 1 10); [apply demo_preach; vm_compute; eauto|].
  vm_compute. reflexivity.
Defined.

(** Process 10 won and crashed while holding the id. *)
Definition demo_crashed : world := demo_world (climb 1 7 ++ [MCrash 10]).

Lemma crashed_owner_reclaimable_witness :
  ∃ w', rtc pstep demo_crashed w' ∧ threads w' !! 2%N = Some (11%N, PHold) ∧
    lockf w' = Some (pretty 11%N).
Proof.
  apply (crashed_owner_reclaimable demo_crashed 2 11);
    [apply demo_preach; vm_compute; eauto| | |]; vm_compute; reflexivity.
Defined.

(** ** Releasing an id that is not held

    [VmidAllocator::release] takes any id and removes its lock file without
    asking whose it is.  The guards only release what they took; this is why
    they have to. *)

Inductive loose_step (w : world) : world → Prop :=
  | L_step w' : pstep w w' → loose_step w w'
  | L_release_unheld t p :
      threads w !! t = Some (p, PIdle) → loose_step w (put t p PIdle (set_lockf None w)).

(** The guard discipline is needed.  One release of an id by a thread that
    does not hold it is enough for two live threads to hold the same id. *)
Theorem unheld_release_breaks_exclusion :
  ∃ w, rtc loose_step (world0 None) w ∧
    threads w !! 1%N = Some (10%N, PHold) ∧ threads w !! 2%N = Some (11%N, PHold).
Proof.
  assert (∀ w w', rtc pstep w w' → rtc loose_step w w') as Hl.
  { induction 1; [reflexivity|]. eapply rtc_l; [by apply L_step|done]. }
  set (ms := [MProcess 10; MThread 1 10; MProcess 11; MThread 2 11] ++ climb 1 7).
  set (w1 := default (world0 None) (moves (world0 None) ms)).
  set (w2 := put 2 11 PIdle (set_lockf None w1)).
  exists (default (world0 None) (moves w2 (climb 2 7))). split; [|split; vm_compute; reflexivity].
  transitivity w1; [apply Hl, (moves_sound ms); vm_compute; reflexivity|].
  eapply rtc_l; [apply (L_release_unheld w1 2 11); vm_compute; reflexivity|].
  apply Hl, (moves_sound (climb 2 7)). vm_compute. reflexivity.
Qed.

(** ** A sweep beside the claimers

    The cgroup arm of [sweep_orphans] lists a slice, reads the claim of its id
    ([may_reclaim]) and then removes the slice ([delete_slice], an [rmdir] that
    a populated slice refuses), without the coordination lock.  A claimer that
    holds the id calls [create_slice] (a [create_dir_all], so a leftover slice
    is adopted) and later [add_task]. *)

Record swept := {
  sw_world : world;
  slice : bool;            (** the slice directory exists *)
  slice_user : option N;   (** the holder that created or adopted it *)
  populated : bool;        (** a task was added *)
  saw_free : bool;         (** the sweep listed the slice and read its id as unclaimed *)
}.

Inductive sweep_step (s : swept) : swept → Prop :=
  | SW_claim w' :
      pstep (sw_world s) w' →
      sweep_step s {| sw_world := w'; slice := slice s; slice_user := slice_user s;
                      populated := populated s; saw_free := saw_free s |}
  | SW_create_slice t p :
      threads (sw_world s) !! t = Some (p, PHold) →
      sweep_step s {| sw_world := sw_world s; slice := true; slice_user := Some t;
                      populated := populated s; saw_free := saw_free s |}
  | SW_add_task t :
      slice s = true → slice_user s = Some t →
      sweep_step s {| sw_world := sw_world s; slice := true; slice_user := Some t;
                      populated := true; saw_free := saw_free s |}
  | SW_check :
      slice s = true →
      sweep_step s {| sw_world := sw_world s; slice := true; slice_user := slice_user s;
                      populated := populated s; saw_free := negb (lock_live (sw_world s)) |}
  | SW_delete :
      saw_free s = true → populated s = false →
      sweep_step s {| sw_world := sw_world s; slice := false; slice_user := slice_user s;
                      populated := false; saw_free := false |}.

(** Process 7 died and left its lock and its slice. *)
Definition swept0 : swept :=
  {| sw_world := world0 (Some "7"); slice := true; slice_user := None;
     populated := false; saw_free := false |}.

(** The sweep's check and its removal are two steps.  An orphaned slice whose
    id reads as unclaimed can be adopted by a process that claims the id before
    the sweep removes it: the sweep then removes the slice of a live holder,
    whose claim reads as live at that moment. *)
Theorem sweep_races_claim :
  ∃ s s' t p, rtc sweep_step swept0 s ∧ sweep_step s s' ∧
    threads (sw_world s) !! t = Some (p, PHold) ∧ lock_live (sw_world s) = true ∧
    slice s = true ∧ slice_user s = Some t ∧ slice s' = false ∧ sw_world s' = sw_world s.
Proof.
  assert (∀ w w' a u o b, rtc pstep w w' →
    rtc sweep_step {| sw_world := w; slice := a; slice_user := u; populated := o; saw_free := b |}
      {| sw_world := w'; slice := a; slice_user := u; populated := o; saw_free := b |}) as Hl.
  { induction 1 as [|x y z Hs _ IH]; [reflexivity|]. eapply rtc_l; [by apply (SW_claim _ y)|done]. }
  exists {| sw_world := demo_world (climb 1 7); slice := true; slice_user := Some 1%N;
            populated := false; saw_free := true |}.
  eexists _, 1%N, 10%N. split_and!; [|by apply SW_delete|..]; try (vm_compute; reflexivity).
  eapply rtc_l; [by apply SW_check|].
  eapply rtc_r; [apply (Hl _ (demo_world (climb 1 7)))|].
  - apply (moves_sound ([MProcess 10; MThread 1 10; MProcess 11; MThread 2 11] ++ climb 1 7)).
    vm_compute. reflexivity.
  - apply (SW_create_slice {| sw_world := demo_world (climb 1 7) |} 1 10). vm_compute. reflexivity.
Qed.
