(* ===== verification/Cgroup.v ===== *)
(** * Per-VM cgroup slices

    Models [crates/vmcell/src/metrics.rs]: where a slice goes
    ([cgroup_base_from_proc], [vm_slice_name], [vm_slice_scan_depth]), how its
    limits are applied ([try_apply_limit_at], [apply_requested_limits],
    [create_slice_at], [remove_cgroup_leaf], [delete_slice], [add_task]) and how
    its counters are read ([read_stats_at] and the parsers).

    The cgroup tree is a set of directories (named relative to the mount) and
    the contents of their control files; what the kernel accepts is the
    interface [CgroupHost]. *)

From S2P Require Import Prelude Naming.

(** ** Placement *)

Definition cgroup_base_from_proc (contents : string) : option string :=
  match head (omap (strip_prefix "0::") (str_lines contents)) with
  | None => None
  | Some rest =>
      let path := trim_start_matches "/" rest in
      let base := default path (strip_suffix "/supervisor" path) in
      if decide (base = "") then None else Some base
  end.

(** [proc] is what reading [/proc/self/cgroup] answers. *)
Definition vm_slice_name (proc : option string) (prefix : string) (vmid : N) : string :=
  let leaf := cgroup_slice_name prefix vmid in
  match proc ≫= cgroup_base_from_proc with
  | Some base => base +:+ "/" +:+ leaf
  | None => leaf
  end.

Definition path_components (path : string) : list string :=
  filter (λ c, c ≠ "") (str_split "/" path).

Definition vm_slice_scan_depth (slice_name : string) : N :=
  let components := N.of_nat (length (path_components slice_name)) in
  N.max (if (components <=? u8_max)%N then components else u8_max) 1.

(** ** Limit values *)

Definition cpu_quota_period (cpu_max_pct : N) : N * N := ((cpu_max_pct * 100000 / 100)%N, 100000%N).
Definition mem_hard_limit_bytes (mem_max_mib : N) : N := N.shiftl mem_max_mib 20.
Definition render_pids_max (pids_max : N) : string := pretty pids_max.

Record IoMax := {
  device : string;
  rbps : option N;
  wbps : option N;
  riops : option N;
  wiops : option N;
}.

Record ResourceLimits := {
  mem_max_mib : option N;
  cpu_max_pct : option N;
  pids_max : option N;
  io_max : option IoMax;
}.

Definition io_rule (key : string) (v : option N) : list string :=
  match v with Some n => [key +:+ "=" +:+ pretty n] | None => [] end.

Definition io_rules (io : IoMax) : list string :=
  io_rule "rbps" (rbps io) ++ io_rule "wbps" (wbps io) ++
  io_rule "riops" (riops io) ++ io_rule "wiops" (wiops io).

Definition newline : string := utf8 [10%N].

Definition render_io_max (io : IoMax) : option string :=
  match io_rules io with
  | [] => None
  | rules => Some (device io +:+ " " +:+ str_join " " rules +:+ newline)
  end.

Definition controller_listed (listing controller : string) : bool :=
  bool_decide (controller ∈ split_whitespace listing).

(** ** The tree *)

Inductive errno := EINVAL | ENODEV | ENOENT | EOPNOTSUPP | ENOTEMPTY | EBUSY | EOTHER.

#[export] Instance errno_eq_dec : EqDecision errno.
Proof. solve_decision. Defined.

Inductive cg_error := CgroupErr | CapabilityUnavailable.

Record cgfs := {
  dirs : gset string;
  files : gmap (string * string) string;
}.

(** What the kernel decides: whether a directory can be made, what a write to a
    control file answers, whether enabling a controller on a parent takes
    effect, which slices have members, and whether the tree is a plain
    filesystem, where control files are directory entries. *)
Class CgroupHost := {
  mkdir_fails : string → bool;
  write_err : string * string → string → option errno;
  enable_effective : string → string → bool;
  busy : string → bool;
  plain_fs : bool;
}.

Definition classify_limit_write_err (e : errno) : cg_error :=
  match e with
  | EINVAL | ENODEV => CgroupErr
  | ENOENT | EOPNOTSUPP => CgroupErr
  | _ => CapabilityUnavailable
  end.

(** [Path::parent] of a relative name. *)
Definition path_parent (name : string) : option string :=
  if decide (name = "") then None
  else Some (match rsplit_once "/" name with Some (p, _) => p | None => "" end).

Definition SUBTREE_CONTROL : string := "cgroup.subtree_control".

Section ops.
Context {CH : CgroupHost}.

Definition delegated (fs : cgfs) (parent controller : string) : bool :=
  match files fs !! (parent, SUBTREE_CONTROL) with
  | Some listing => controller_listed listing controller
  | None => false
  end.

(** The [+controller] write: the kernel adds it to the effective set, or
    silently does not. *)
Definition enable_controller (fs : cgfs) (parent controller : string) : cgfs :=
  if enable_effective parent controller then
    {| dirs := dirs fs;
       files := partial_alter (λ o, Some (default "" o +:+ " " +:+ controller))
                  (parent, SUBTREE_CONTROL) (files fs) |}
  else fs.

Definition write_limit (fs : cgfs) (name file value : string) : result cg_error unit * cgfs :=
  match write_err (name, file) value with
  | Some e => (Err (classify_limit_write_err e), fs)
  | None => (Ok tt, {| dirs := dirs fs; files := <[(name, file) := value]> (files fs) |})
  end.

Definition try_apply_limit_at (name controller file value : string) (fs : cgfs)
    : result cg_error unit * cgfs :=
  match path_parent name with
  | Some parent =>
      let fs := if delegated fs parent controller then fs
                else enable_controller fs parent controller in
      if delegated fs parent controller then write_limit fs name file value
      else (Err CapabilityUnavailable, fs)
  | None => write_limit fs name file value
  end.

(** Sequencing with [?]. *)
Definition seq_ok (m k : cgfs → result cg_error unit * cgfs) (fs : cgfs)
    : result cg_error unit * cgfs :=
  match m fs with
  | (Ok _, fs) => k fs
  | (Err e, fs) => (Err e, fs)
  end.
Local Notation "m ;;? k" := (seq_ok m k) (at level 60, right associativity).

Definition done_ok (fs : cgfs) : result cg_error unit * cgfs := (Ok tt, fs).

Definition apply_requested_limits (name : string) (limits : ResourceLimits)
    : cgfs → result cg_error unit * cgfs :=
  (match mem_max_mib limits with
   | Some mem =>
       try_apply_limit_at name "memory" "memory.max" (pretty (mem_hard_limit_bytes mem)) ;;?
       try_apply_limit_at name "memory" "memory.swap.max" "0" ;;?
       try_apply_limit_at name "memory" "memory.oom.group" "1"
   | None => done_ok
   end) ;;?
  (match cpu_max_pct limits with
   | Some cpu =>
       let '(quota, period) := cpu_quota_period cpu in
       try_apply_limit_at name "cpu" "cpu.max" (pretty quota +:+ " " +:+ pretty period)
   | None => done_ok
   end) ;;?
  (match pids_max limits with
   | Some pids => try_apply_limit_at name "pids" "pids.max" (render_pids_max pids)
   | None => done_ok
   end) ;;?
  (match io_max limits ≫= render_io_max with
   | Some io_str => try_apply_limit_at name "io" "io.max" (trim_end io_str)
   | None => done_ok
   end).

(** [name] and its ancestors: the directories [create_dir_all] makes. *)
Definition ancestors (name : string) : list string :=
  (λ k, str_join "/" (take k (str_split "/" name))) <$> seq 1 (length (str_split "/" name)).

Definition is_below (d d' : string) : bool := starts_with (d +:+ "/") d'.

Definition rmdir (d : string) (fs : cgfs) : result errno cgfs :=
  if decide (d ∉ dirs fs) then Err ENOENT else
  if busy d then Err EBUSY else
  if decide (filter (λ d', is_below d d' = true) (dirs fs) ≠ ∅) then Err ENOTEMPTY else
  if plain_fs && bool_decide (filter (λ '((d', _), _), d' = d) (files fs) ≠ ∅) then Err ENOTEMPTY else
  Ok {| dirs := dirs fs ∖ {[d]}; files := filter (λ '((d', _), _), d' ≠ d) (files fs) |}.

(** The fallback sweeps the depth-1 files and retries once. *)
Definition remove_cgroup_leaf (d : string) (fs : cgfs) : result errno unit * cgfs :=
  match rmdir d fs with
  | Ok fs' => (Ok tt, fs')
  | Err ENOTEMPTY =>
      let fs := if plain_fs
                then {| dirs := dirs fs; files := filter (λ '((d', _), _), d' ≠ d) (files fs) |}
                else fs in
      match rmdir d fs with
      | Ok fs' => (Ok tt, fs')
      | Err e => (Err e, fs)
      end
  | Err e => (Err e, fs)
  end.

Definition create_slice_at (name : string) (limits : ResourceLimits) (fs : cgfs)
    : result cg_error unit * cgfs :=
  let preexisting := bool_decide (name ∈ dirs fs) in
  if mkdir_fails name then (Err CgroupErr, fs) else
  let fs := {| dirs := list_to_set (ancestors name) ∪ dirs fs; files := files fs |} in
  let '(applied, fs) := apply_requested_limits name limits fs in
  if is_err applied && negb preexisting then (applied, (remove_cgroup_leaf name fs).2)
  else (applied, fs).

(** A failed [rmdir] is logged only: the answer is [Ok] for any named slice. *)
Definition delete_slice (name : string) (fs : cgfs) : result cg_error unit * cgfs :=
  if decide (name = "") then (Err CgroupErr, fs)
  else (Ok tt, match rmdir name fs with Ok fs' => fs' | Err _ => fs end).

Definition add_task (name : string) (pid : N) (fs : cgfs) : result cg_error unit * cgfs :=
  if decide (name = "") then (Err CgroupErr, fs) else
  match write_err (name, "cgroup.procs") (pretty pid) with
  | Some _ => (Err CgroupErr, fs)
  | None =>
      (Ok tt, {| dirs := dirs fs; files := <[(name, "cgroup.procs") := pretty pid]> (files fs) |})
  end.
End ops.

(** ** Counters *)

Record ResourceUsage := {
  mem_peak_mib : N;
  mem_current_mib : N;
  cpu_usec : N;
  io_read_bytes : N;
  io_write_bytes : N;
  mem_limit_enforced : bool;
  mem_read_ok : bool;
  cpu_read_ok : bool;
  io_read_ok : bool;
}.

Definition io_field (acc : N * N) (field : string) : N * N :=
  match strip_prefix "rbytes=" field ≫= parse_uint u64_max with
  | Some v => (sat_add64 acc.1 v, acc.2)
  | None =>
      match strip_prefix "wbytes=" field ≫= parse_uint u64_max with
      | Some v => (acc.1, sat_add64 acc.2 v)
      | None => acc
      end
  end.

Definition parse_io_stat_bytes (contents : string) : N * N :=
  foldl (λ acc line, foldl io_field acc (split_whitespace line)) (0, 0)%N (str_lines contents).

Definition parse_cpu_usage_usec (contents : string) : option N :=
  head (omap (λ line, strip_prefix "usage_usec " line ≫= λ s, parse_uint u64_max (str_trim s))
    (str_lines contents)).

(** [read] answers the contents of a control file of the slice, if readable. *)
Definition read_stats_at (read : string → option string) : ResourceUsage :=
  let counter file := read file ≫= λ s, parse_uint u64_max (str_trim s) in
  let mib v := (v / 1024 / 1024)%N in
  let current := counter "memory.current" in
  let peak := counter "memory.peak" in
  let io := parse_io_stat_bytes <$> read "io.stat" in
  let cpu := read "cpu.stat" ≫= parse_cpu_usage_usec in
  {| mem_peak_mib := default 0%N (mib <$> peak);
     mem_current_mib := default 0%N (mib <$> current);
     cpu_usec := default 0%N cpu;
     io_read_bytes := default 0%N (fst <$> io);
     io_write_bytes := default 0%N (snd <$> io);
     mem_limit_enforced :=
       default false ((λ s, controller_listed s "memory") <$> read "cgroup.controllers");
     mem_read_ok := bool_decide (is_Some current) && bool_decide (is_Some peak);
     cpu_read_ok := bool_decide (is_Some cpu);
     io_read_ok := bool_decide (is_Some io) |}.

(** ** Limits: lemmas *)

(** The control-file writes a set of limits asks for, in order. *)
Definition limit_writes (limits : ResourceLimits) : list (string * string * string) :=
  (match mem_max_mib limits with
   | Some mem => [("memory", "memory.max", pretty (mem_hard_limit_bytes mem));
                  ("memory", "memory.swap.max", "0"); ("memory", "memory.oom.group", "1")]
   | None => []
   end) ++
  (match cpu_max_pct limits with
   | Some cpu => [("cpu", "cpu.max",
       pretty (cpu_quota_period cpu).1 +:+ " " +:+ pretty (cpu_quota_period cpu).2)]
   | None => []
   end) ++
  (match pids_max limits with Some pids => [("pids", "pids.max", render_pids_max pids)] | None => [] end) ++
  (match io_max limits ≫= render_io_max with
   | Some io_str => [("io", "io.max", trim_end io_str)]
   | None => []
   end).

Section facts.
Context {CH : CgroupHost}.

Fixpoint apply_all (name : string) (ws : list (string * string * string))
    : cgfs → result cg_error unit * cgfs :=
  match ws with
  | [] => done_ok
  | (c, f, v) :: ws => seq_ok (try_apply_limit_at name c f v) (apply_all name ws)
  end.

Lemma apply_all_app name l1 l2 fs :
  apply_all name (l1 ++ l2) fs = seq_ok (apply_all name l1) (apply_all name l2) fs.
Proof.
  revert fs. induction l1 as [|[[c f] v] l1 IH]; intros fs; [done|].
  cbn [app apply_all]. unfold seq_ok. destruct (try_apply_limit_at name c f v fs) as [[[]|] fs1]; [|done].
  apply IH.
Qed.

Lemma seq_ok_ext m m' k k' fs :
  (∀ fs, m fs = m' fs) → (∀ fs, k fs = k' fs) → seq_ok m k fs = seq_ok m' k' fs.
Proof. intros Hm Hk. unfold seq_ok. rewrite Hm. destruct (m' fs) as [[]]; auto. Qed.

Lemma seq_ok_done m fs : seq_ok m done_ok fs = m fs.
Proof. unfold seq_ok, done_ok. by destruct (m fs) as [[[]|]]. Qed.

Lemma apply_requested_all name limits fs :
  apply_requested_limits name limits fs = apply_all name (limit_writes limits) fs.
Proof.
  unfold apply_requested_limits, limit_writes. rewrite apply_all_app.
  apply seq_ok_ext; clear fs; intros fs.
  { destruct (mem_max_mib limits); [|done]. cbn. do 2 (apply seq_ok_ext; [done|]; intros).
    by rewrite seq_ok_done. }
  rewrite apply_all_app. apply seq_ok_ext; clear fs; intros fs.
  { destruct (cpu_max_pct limits); [|done]. cbn. by rewrite seq_ok_done. }
  rewrite apply_all_app. apply seq_ok_ext; clear fs; intros fs.
  { destruct (pids_max limits); [|done]. cbn. by rewrite seq_ok_done. }
  destruct (io_max limits ≫= render_io_max); [|done]. cbn. by rewrite seq_ok_done.
Qed.

Lemma try_apply_frame name c f v fs :
  f ≠ SUBTREE_CONTROL →
  let '(r, fs') := try_apply_limit_at name c f v fs in
  dirs fs' = dirs fs ∧
  (∀ d f', (d, f') ≠ (name, f) → f' ≠ SUBTREE_CONTROL → files fs' !! (d, f') = files fs !! (d, f')) ∧
  (r = Ok tt → files fs' !! (name, f) = Some v) ∧
  (r ≠ Ok tt → files fs' !! (name, f) = files fs !! (name, f)).
Proof.
  intros Hf. unfold try_apply_limit_at, write_limit.
  assert (∀ fs1, dirs fs1 = dirs fs →
    (∀ d f', f' ≠ SUBTREE_CONTROL → files fs1 !! (d, f') = files fs !! (d, f')) →
    let '(r, fs') := match write_err (name, f) v with
      | Some e => (Err (classify_limit_write_err e), fs1)
      | None => (Ok tt, {| dirs := dirs fs1; files := <[(name, f) := v]> (files fs1) |}) end in
    dirs fs' = dirs fs ∧
    (∀ d f', (d, f') ≠ (name, f) → f' ≠ SUBTREE_CONTROL → files fs' !! (d, f') = files fs !! (d, f')) ∧
    (r = Ok tt → files fs' !! (name, f) = Some v) ∧
    (r ≠ Ok tt → files fs' !! (name, f) = files fs !! (name, f))) as Hw.
  { intros fs1 Hd Hfr. destruct (write_err (name, f) v); cbn; split_and!; auto.
    - done.
    - intros d f' Hne ?. rewrite lookup_insert_ne by congruence. auto.
    - intros _. apply lookup_insert_eq.
    - done. }
  destruct (path_parent name) as [parent|]; [|by apply Hw].
  set (fs1 := if delegated fs parent c then fs else enable_controller fs parent c).
  assert (dirs fs1 = dirs fs ∧
    ∀ d f', f' ≠ SUBTREE_CONTROL → files fs1 !! (d, f') = files fs !! (d, f')) as [Hd Hfr].
  { unfold fs1, enable_controller. destruct (delegated fs parent c); [done|].
    destruct (enable_effective parent c); [|done]. split; [done|]. intros d f' Hne. cbn.
    apply lookup_partial_alter_ne. congruence. }
  destruct (delegated fs1 parent c); [by apply Hw|]. split_and!; auto. done.
Qed.

(** Writes to distinct files all survive, and touch nothing outside the slice
    but the parents' [subtree_control]. *)
Lemma apply_all_frame name ws fs :
  NoDup (ws.*1.*2) → Forall (λ w, w.1.2 ≠ SUBTREE_CONTROL) ws →
  let '(r, fs') := apply_all name ws fs in
  dirs fs' = dirs fs ∧
  (∀ d f', (d ≠ name ∨ f' ∉ ws.*1.*2) → f' ≠ SUBTREE_CONTROL →
     files fs' !! (d, f') = files fs !! (d, f')) ∧
  (r = Ok tt → ∀ c f v, (c, f, v) ∈ ws → files fs' !! (name, f) = Some v).
Proof.
  revert fs. induction ws as [|[[c f] v] ws IH]; intros fs Hnd Hsub.
  { cbn. split_and!; [done..|]. intros _ ??? []%not_elem_of_nil. }
  apply NoDup_cons in Hnd as [Hnin Hnd]. apply Forall_cons in Hsub as [Hf Hsub]. cbn in Hf.
  cbn [apply_all]. unfold seq_ok. pose proof (try_apply_frame name c f v fs Hf) as Ht.
  destruct (try_apply_limit_at name c f v fs) as [r fs1]. destruct Ht as (Hd & Hfr & Hok & _).
  destruct r as [[]|e].
  - specialize (IH fs1 Hnd Hsub). destruct (apply_all name ws fs1) as [r fs'].
    destruct IH as (Hd' & Hfr' & Hok'). split_and!; [congruence| |].
    + intros d f' Hor Hne. rewrite Hfr' by (cbn in Hor; set_solver). apply Hfr; [|done].
      cbn in Hor. intros [= -> ->]. set_solver.
    + intros -> c' f' v' [[= -> -> ->]|Hin]%elem_of_cons; [|by eapply Hok'].
      rewrite Hfr'; [by apply Hok|right; done|done].
  - split_and!; [done| |done]. intros d f' Hor Hne. apply Hfr; [|done].
    cbn in Hor. intros [= -> ->]. set_solver.
Qed.

Lemma limit_writes_files limits :
  NoDup ((limit_writes limits).*1.*2) ∧ Forall (λ w, w.1.2 ≠ SUBTREE_CONTROL) (limit_writes limits).
Proof.
  unfold limit_writes.
  destruct (mem_max_mib limits), (cpu_max_pct limits), (pids_max limits), (io_max limits ≫= render_io_max);
    (split; [apply (bool_decide_unpack _); vm_compute; exact I|repeat constructor; discriminate]).
Qed.
End facts.

(** ** Paths *)

Lemma ancestors_self name : name ∈ ancestors name.
Proof.
  unfold ancestors. apply list_elem_of_fmap. exists (length (str_split "/" name)).
  rewrite take_ge by done. split; [symmetry; apply str_join_split|]. apply elem_of_seq.
  pose proof (str_split_nonempty "/" name). destruct (str_split "/" name); [done|cbn; lia].
Qed.

(** An ancestor is no longer than the name, so none is below it. *)
Lemma ancestors_not_below name d : d ∈ ancestors name → is_below name d = false.
Proof.
  unfold ancestors. intros (k & -> & Hk%elem_of_seq)%list_elem_of_fmap.
  apply not_true_iff_false. intros [t Ht]%starts_with_spec.
  set (l := str_split "/" name) in *.
  assert (String.length (str_join "/" (take k l)) ≤ String.length name) as Hlen.
  { rewrite <- (str_join_split "/" name) at 1. fold l. rewrite <- (take_drop k l) at 2.
    destruct (decide (drop k l = [])) as [->|Hd]; [by rewrite app_nil_r|].
    rewrite str_join_app, !length_append; [lia| |done].
    intros E%(f_equal length). rewrite length_take in E. cbn in E. lia. }
  rewrite Ht, !length_append in Hlen. cbn in Hlen. lia.
Qed.

(** ** Properties of slices *)

Section properties.
Context {CH : CgroupHost}.

(** An accepted limit is an enforced limit.  When [create_slice] answers [Ok],
    the slice exists and every requested limit is in its control file, at the
    exact value (MiB as [2^20], a percentage as microseconds of a 100ms
    period), with the swap escape closed and the group kill armed whenever a
    memory cap was requested; no limit is skipped. *)
Theorem create_slice_enforces name limits fs fs' :
  create_slice_at name limits fs = (Ok tt, fs') →
  name ∈ dirs fs' ∧
  (∀ mem, mem_max_mib limits = Some mem →
     files fs' !! (name, "memory.max") = Some (pretty (mem * 2 ^ 20)%N) ∧
     files fs' !! (name, "memory.swap.max") = Some "0" ∧
     files fs' !! (name, "memory.oom.group") = Some "1") ∧
  (∀ cpu, cpu_max_pct limits = Some cpu →
     files fs' !! (name, "cpu.max") = Some (pretty (cpu * 1000)%N +:+ " 100000")) ∧
  (∀ pids, pids_max limits = Some pids → files fs' !! (name, "pids.max") = Some (pretty pids)) ∧
  (∀ io s, io_max limits = Some io → render_io_max io = Some s →
     files fs' !! (name, "io.max") = Some (trim_end s)).
Proof.
  unfold create_slice_at. destruct (mkdir_fails name); [done|]. rewrite apply_requested_all.
  destruct (limit_writes_files limits) as [Hnd Hsub].
  set (fs1 := {| dirs := _ |}). pose proof (apply_all_frame name _ fs1 Hnd Hsub) as Hfr.
  destruct (apply_all name (limit_writes limits) fs1) as [r fs2]. destruct Hfr as (Hd & _ & Hok).
  destruct r as [[]|e]; cbn [is_err is_ok negb andb]; [|destruct (negb _); done].
  intros [= ->]. specialize (Hok eq_refl). unfold limit_writes in Hok.
  split_and!.
  - rewrite Hd. cbn. apply elem_of_union_l, elem_of_list_to_set, ancestors_self.
  - intros mem Hm. rewrite Hm in Hok. rewrite <- (N.shiftl_mul_pow2 mem 20).
    split_and!; eapply Hok; apply elem_of_app; left; [left|right; left|right; right; left].
  - intros cpu Hc. rewrite Hc in Hok.
    assert (cpu * 1000 = (cpu_quota_period cpu).1)%N as ->.
    { cbn. by replace (cpu * 100000)%N with (cpu * 1000 * 100)%N by lia; rewrite N.div_mul. }
    eapply Hok. apply elem_of_app; right; apply elem_of_app; left. left.
  - intros pids Hp. rewrite Hp in Hok. eapply Hok.
    do 2 (apply elem_of_app; right). apply elem_of_app; left. left.
  - intros io s Hi Hs. rewrite Hi in Hok. cbn [mbind option_bind] in Hok. rewrite Hs in Hok.
    eapply Hok. do 3 (apply elem_of_app; right). left.
Qed.

(** Removing a fresh leaf: nothing is below it and nobody is in it. *)
Lemma remove_fresh_leaf name fs :
  name ∈ dirs fs → busy name = false → (∀ d, d ∈ dirs fs → is_below name d = false) →
  let fs' := (remove_cgroup_leaf name fs).2 in
  name ∉ dirs fs' ∧ ∀ f, files fs' !! (name, f) = None.
Proof.
  intros Hin Hb Hbelow. cbn zeta.
  assert (∀ fm, filter (λ '((d', _), _), d' = name) fm = (∅ : gmap (string * string) string) ∨ plain_fs = false →
    rmdir name {| dirs := dirs fs; files := fm |} =
      Ok {| dirs := dirs fs ∖ {[name]}; files := filter (λ '((d', _), _), d' ≠ name) fm |}) as Hrm.
  { intros fm Hfm. unfold rmdir. cbn [dirs files]. rewrite decide_False by tauto. rewrite Hb.
    rewrite decide_False.
    - destruct Hfm as [Hfm| ->]; [|done].
      rewrite bool_decide_false by (rewrite Hfm; tauto). by rewrite andb_false_r.
    - intros Hne. apply Hne. apply set_eq. intros d. rewrite elem_of_filter.
      split; [|set_solver]. intros [Hd Hd2]. rewrite Hbelow in Hd by done. done. }
  assert (∀ fm : gmap (string * string) string, name ∉ dirs fs ∖ {[name]} ∧
    ∀ f, filter (λ '((d', _), _), d' ≠ name) fm !! (name, f) = None) as Hpost.
  { intros fm. split; [set_solver|]. intros f. apply map_lookup_filter_None. right. intros x _ Hx. by apply Hx. }
  unfold remove_cgroup_leaf. destruct fs as [ds fm]. cbn [dirs files] in *.
  destruct (decide (filter (λ '((d', _), _), d' = name) fm = ∅ ∨ plain_fs = false)) as [Hd|Hd].
  { rewrite Hrm by done. apply Hpost. }
  assert (plain_fs = true) as Hp by (destruct plain_fs; tauto).
  assert (rmdir name {| dirs := ds; files := fm |} = Err ENOTEMPTY) as ->.
  { unfold rmdir. cbn [dirs files]. rewrite decide_False by tauto. rewrite Hb.
    rewrite decide_False; [rewrite Hp; by rewrite bool_decide_true by tauto|].
    intros Hne. apply Hne, set_eq. intros d. rewrite elem_of_filter.
    split; [|set_solver]. intros [Hd1 Hd2]. by rewrite Hbelow in Hd1. }
  rewrite Hp. rewrite Hrm; [apply Hpost|]. left.
  apply map_empty. intros [d f]. apply map_lookup_filter_None. right.
  intros x [_ Hx]%map_lookup_filter_Some Hd'. by apply Hx.
Qed.

(** A failed [create_slice] leaves no residue and never destroys what it
    did not make.  A leaf that did not exist before the call does not exist
    after a failure (nor any of its control files), and directories that
    existed before the call exist after it, whatever happened. *)
Theorem failed_create_leaves_no_slice name limits fs r fs' :
  busy name = false →
  (∀ d, d ∈ dirs fs → is_below name d = true → name ∈ dirs fs) →
  (∀ d f, is_Some (files fs !! (d, f)) → d ∈ dirs fs) →
  create_slice_at name limits fs = (r, fs') →
  (r ≠ Ok tt → name ∉ dirs fs → name ∉ dirs fs' ∧ ∀ f, files fs' !! (name, f) = None) ∧
  (dirs fs ⊆ dirs fs').
Proof.
  intros Hb Hclosed Hfiles. unfold create_slice_at. destruct (mkdir_fails name).
  { intros [= <- <-]. split; [|done]. intros _ Hn. split; [done|]. intros f.
    destruct (files fs !! (name, f)) eqn:E; [|done]. destruct Hn. by eapply Hfiles; rewrite E. }
  rewrite apply_requested_all. destruct (limit_writes_files limits) as [Hnd Hsub].
  set (fs1 := {| dirs := _ |}). pose proof (apply_all_frame name _ fs1 Hnd Hsub) as Hfr.
  destruct (apply_all name (limit_writes limits) fs1) as [r1 fs2]. destruct Hfr as (Hd & _).
  assert (name ∈ dirs fs2) as Hin2.
  { rewrite Hd. apply elem_of_union_l, elem_of_list_to_set, ancestors_self. }
  destruct (is_err r1) eqn:Hr1; cbn [andb]; [|intros [= <- <-]; split; [by destruct r1 as [[]|]|]; rewrite Hd; set_solver].
  case_bool_decide as Hpre; cbn [negb]; intros [= <- <-].
  { split; [tauto|]. rewrite Hd. set_solver. }
  assert (∀ d, d ∈ dirs fs2 → is_below name d = false) as Hbelow.
  { intros d. rewrite Hd. cbn. rewrite elem_of_union, elem_of_list_to_set.
    intros [?%ancestors_not_below|Hin]; [done|]. apply not_true_iff_false. naive_solver. }
  split; [intros _ _; by apply remove_fresh_leaf|].
  assert (dirs fs2 ∖ {[name]} ⊆ dirs (remove_cgroup_leaf name fs2).2) as Hsub2.
  { unfold remove_cgroup_leaf, rmdir. cbn [dirs]. repeat case_match; simplify_eq; cbn; set_solver. }
  rewrite Hd in Hsub2. cbn in Hsub2. set_solver.
Qed.
End properties.

(** The limit values fit.  For any [u32] memory or CPU cap, neither the [u64]
    product nor the [as i64] cast of the rendered value can overflow, and the
    CPU quota is the exact share of the period. *)
Theorem limit_values_fit pct mib :
  (pct <= u32_max)%N → (mib <= u32_max)%N →
  (pct * 100000 <= u64_max)%N ∧ (cpu_quota_period pct).1 = (pct * 1000)%N ∧
  ((cpu_quota_period pct).1 < 2 ^ 63)%N ∧
  mem_hard_limit_bytes mib = (mib * 1024 * 1024)%N ∧ (mem_hard_limit_bytes mib < 2 ^ 63)%N.
Proof.
  intros Hp Hm. unfold mem_hard_limit_bytes. rewrite N.shiftl_mul_pow2.
  assert ((cpu_quota_period pct).1 = pct * 1000)%N as Hq.
  { cbn. by replace (pct * 100000)%N with (pct * 1000 * 100)%N by lia; rewrite N.div_mul. }
  rewrite Hq. unfold u32_max, u64_max in *. change (2 ^ 63)%N with 9223372036854775808%N.
  change (2 ^ 20)%N with 1048576%N. lia.
Qed.

Lemma limit_values_fit_witness :
  (u32_max * 100000 <= u64_max)%N ∧ (cpu_quota_period u32_max).1 = (u32_max * 1000)%N ∧
  ((cpu_quota_period u32_max).1 < 2 ^ 63)%N ∧
  mem_hard_limit_bytes u32_max = (u32_max * 1024 * 1024)%N ∧
  (mem_hard_limit_bytes u32_max < 2 ^ 63)%N.
Proof. apply (limit_values_fit u32_max u32_max); reflexivity. Defined.

(** A delegated parent whose kernel refuses CPU quotas. *)
Definition demo_cgroup_host : CgroupHost := {|
  mkdir_fails _ := false;
  write_err p _ := if decide (p.2 = "cpu.max") then Some EINVAL else None;
  enable_effective _ c := bool_decide (c ≠ "io");
  busy _ := false;
  plain_fs := true;
|}.

Definition demo_cgfs : cgfs := {|
  dirs := {["user.slice"]};
  files := {[("user.slice", SUBTREE_CONTROL) := "cpu memory"]};
|}.

Definition demo_limits (cpu : option N) : ResourceLimits :=
  {| mem_max_mib := Some 512%N; cpu_max_pct := cpu; pids_max := Some 64%N; io_max := None |}.

Definition demo_create (cpu : option N) : result cg_error unit * cgfs :=
  create_slice_at (CH := demo_cgroup_host) "user.slice/vmcell-vm-7" (demo_limits cpu) demo_cgfs.

Lemma create_slice_enforces_witness :
  files (demo_create None).2 !! ("user.slice/vmcell-vm-7", "memory.max") =
    Some (pretty (512 * 2 ^ 20)%N).
Proof.
  assert (demo_create None = (Ok tt, (demo_create None).2)) as H by (vm_compute; reflexivity).
  destruct (create_slice_enforces (CH := demo_cgroup_host) "user.slice/vmcell-vm-7" (demo_limits None)
    demo_cgfs (demo_create None).2 H) as (_ & Hm & _).
  destruct (Hm 512%N eq_refl) as [Hmax _]. exact Hmax.
Defined.

Lemma failed_create_leaves_no_slice_witness :
  (demo_create (Some 50%N)).1 = Err CgroupErr ∧
  "user.slice/vmcell-vm-7" ∉ dirs (demo_create (Some 50%N)).2.
Proof.
  assert ((demo_create (Some 50%N)).1 = Err CgroupErr) as Hr by (vm_compute; reflexivity).
  split; [exact Hr|].
  apply (failed_create_leaves_no_slice (CH := demo_cgroup_host) "user.slice/vmcell-vm-7"
    (demo_limits (Some 50%N)) demo_cgfs (demo_create (Some 50%N)).1 (demo_create (Some 50%N)).2).
  - reflexivity.
  - intros d Hd Hb. exfalso. cbn in Hd. apply elem_of_singleton in Hd as ->.
    vm_compute in Hb. discriminate Hb.
  - intros d f [x Hx]. cbn in Hx. apply lookup_singleton_Some in Hx as [[= <- <-] _].
    cbn. apply elem_of_singleton. reflexivity.
  - vm_compute. reflexivity.
  - rewrite Hr. discriminate.
  - cbn. apply not_elem_of_singleton. discriminate.
Defined.

(** ** Reading back what the kernel prints *)

Record io_line := { l_dev : string; l_r : N; l_w : N; l_rios : N; l_wios : N; l_dbytes : N; l_dios : N }.

Definition space : ascii := ascii_of_N 32.

Definition print_io_line (l : io_line) : string :=
  render_words [(l_dev l, space); ("rbytes=" +:+ pretty (l_r l), space);
    ("wbytes=" +:+ pretty (l_w l), space); ("rios=" +:+ pretty (l_rios l), space);
    ("wios=" +:+ pretty (l_wios l), space); ("dbytes=" +:+ pretty (l_dbytes l), space)]
    ("dios=" +:+ pretty (l_dios l)).

(** A device number: printable, no [=]; counters within [u64]. *)
Definition io_line_ok (l : io_line) : Prop :=
  l_dev l ≠ "" ∧ Forall is_graphic (bytes (l_dev l)) ∧ "="%char ∉ bytes (l_dev l) ∧
  (l_r l <= u64_max)%N ∧ (l_w l <= u64_max)%N.

Lemma key_graphic k (n : N) :
  Forall is_graphic (bytes k) → Forall is_graphic (bytes (k +:+ pretty n)).
Proof. intros. rewrite bytes_append. apply Forall_app. split; [done|apply pretty_graphic]. Qed.

Lemma no_key_prefix k dev :
  "="%char ∈ bytes k → "="%char ∉ bytes dev → strip_prefix k dev = None.
Proof.
  intros Hk Hd. destruct (strip_prefix k dev) as [r|] eqn:E; [|done].
  apply strip_prefix_spec in E as ->. rewrite bytes_append in Hd. set_solver.
Qed.

Lemma strip_prefix_append k s : strip_prefix k (k +:+ s) = Some s.
Proof. by apply strip_prefix_spec. Qed.

Lemma io_line_fields l acc :
  io_line_ok l →
  foldl io_field acc (split_whitespace (print_io_line l)) =
    (sat_add64 acc.1 (l_r l), sat_add64 acc.2 (l_w l)).
Proof.
  intros (Hne & Hg & Heq & Hr & Hw). unfold print_io_line. rewrite split_whitespace_render.
  - cbn [fmap list_fmap fst app]. rewrite filter_cons, decide_True by done.
    cbn [filter list_filter app foldl]. unfold io_field at 7.
    rewrite !no_key_prefix by (done || vm_compute; set_solver). cbn [mbind option_bind].
    unfold io_field at 6. rewrite strip_prefix_append. cbn [mbind option_bind].
    rewrite parse_pretty by done. unfold io_field at 5.
    change (strip_prefix "rbytes=" ("wbytes=" +:+ pretty (l_w l))) with (@None string).
    rewrite strip_prefix_append. cbn [mbind option_bind]. rewrite parse_pretty by done.
    reflexivity.
  - repeat apply Forall_cons_2; [|split_and!; [done|apply key_graphic; by repeat constructor|done]..|constructor].
    done.
  - apply key_graphic. by repeat constructor.
Qed.

Lemma render_words_inline ws last :
  Forall (λ '(w, c), Forall is_graphic (bytes w) ∧ c = space) ws → Forall is_graphic (bytes last) →
  Forall is_inline (bytes (render_words ws last)).
Proof.
  intros Hws Hl. induction Hws as [|[w c] ws [Hw ->] _ IH]; [by apply graphic_inline|].
  cbn [render_words foldr]. fold (render_words ws last). rewrite bytes_append. cbn [bytes].
  apply Forall_app. split; [by apply graphic_inline|]. constructor; [done|exact IH].
Qed.

Lemma print_io_line_is_line l : io_line_ok l → is_line (print_io_line l).
Proof.
  intros (Hne & Hg & _). apply inline_is_line, render_words_inline.
  - repeat apply Forall_cons_2; [|split_and!; [apply key_graphic; by repeat constructor|done]..|constructor].
    done.
  - apply key_graphic. by repeat constructor.
Qed.

Definition sum_N (l : list N) : N := foldr N.add 0%N l.

Lemma io_lines_sum ls acc :
  Forall io_line_ok ls →
  foldl (λ acc line, foldl io_field acc (split_whitespace line)) acc (print_io_line <$> ls) =
    (if decide (ls = []) then acc
     else (N.min u64_max (acc.1 + sum_N (l_r <$> ls)), N.min u64_max (acc.2 + sum_N (l_w <$> ls))))%N.
Proof.
  intros Hls. revert acc. induction Hls as [|l ls Hl _ IH]; intros acc; [done|].
  rewrite decide_False by done. cbn [fmap list_fmap foldl]. rewrite io_line_fields by done.
  rewrite IH. cbn [sum_N foldr]. fold (sum_N (l_r <$> ls)) (sum_N (l_w <$> ls)).
  case_decide as He; [subst ls; cbn; unfold sat_add64; f_equal; lia|].
  cbn [fst snd]. unfold sat_add64. f_equal; lia.
Qed.

(** What a slice's control files hold when the kernel prints them. *)
Record kernel_slice := {
  ks_current : N;
  ks_peak : N;
  ks_io : list io_line;
  ks_usage : N;
  ks_user : N;
  ks_controllers : list string;
}.

Definition kernel_file (k : kernel_slice) (file : string) : option string :=
  if decide (file = "memory.current") then Some (pretty (ks_current k) +:+ newline)
  else if decide (file = "memory.peak") then Some (pretty (ks_peak k) +:+ newline)
  else if decide (file = "io.stat") then Some (render_lines (print_io_line <$> ks_io k))
  else if decide (file = "cpu.stat") then
    Some (render_lines ["usage_usec " +:+ pretty (ks_usage k); "user_usec " +:+ pretty (ks_user k)])
  else if decide (file = "cgroup.controllers") then
    Some (render_words ((λ c, (c, space)) <$> ks_controllers k) "")
  else None.

Definition kernel_slice_ok (k : kernel_slice) : Prop :=
  (ks_current k <= u64_max)%N ∧ (ks_peak k <= u64_max)%N ∧ (ks_usage k <= u64_max)%N ∧
  Forall io_line_ok (ks_io k) ∧
  Forall (λ c, c ≠ "" ∧ Forall is_graphic (bytes c)) (ks_controllers k).

Lemma read_counter (n : N) :
  (n <= u64_max)%N → parse_uint u64_max (str_trim (pretty n +:+ newline)) = Some n.
Proof.
  intros Hn. rewrite str_trim_newline; [by apply parse_pretty|apply pretty_nonempty|apply pretty_graphic].
Qed.

Lemma read_cpu_stat (usage user : N) :
  (usage <= u64_max)%N →
  parse_cpu_usage_usec (render_lines ["usage_usec " +:+ pretty usage; "user_usec " +:+ pretty user])
    = Some usage.
Proof.
  intros Hn. unfold parse_cpu_usage_usec. rewrite str_lines_render.
  - cbn [omap list_omap]. rewrite strip_prefix_append. cbn [mbind option_bind].
    by rewrite str_trim_pretty, parse_pretty.
  - repeat constructor; apply inline_is_line; rewrite bytes_append; apply Forall_app;
      (split; [by repeat constructor|apply graphic_inline, pretty_graphic]).
Qed.

Lemma read_controllers cs c :
  Forall (λ c, c ≠ "" ∧ Forall is_graphic (bytes c)) cs →
  controller_listed (render_words ((λ c, (c, space)) <$> cs) "") c = bool_decide (c ∈ cs).
Proof.
  intros Hcs. unfold controller_listed. rewrite split_whitespace_render; [|..|constructor].
  - cbn. by rewrite app_nil_r, <- list_fmap_compose, list_fmap_id.
  - apply Forall_fmap. eapply Forall_impl; [exact Hcs|]. cbn. by intros x [? ?].
Qed.

(** Counters read back.  From the files a kernel prints, [read_stats] recovers
    the memory counters in MiB, the CPU time, and the byte counters summed over
    every device (saturating), marks each of them as read, and reports the
    memory cap as enforced exactly when the memory controller is listed. *)
Theorem stats_roundtrip k :
  kernel_slice_ok k →
  read_stats_at (kernel_file k) = {|
    mem_peak_mib := ks_peak k / 1024 / 1024;
    mem_current_mib := ks_current k / 1024 / 1024;
    cpu_usec := ks_usage k;
    io_read_bytes := N.min u64_max (sum_N (l_r <$> ks_io k));
    io_write_bytes := N.min u64_max (sum_N (l_w <$> ks_io k));
    mem_limit_enforced := bool_decide ("memory" ∈ ks_controllers k);
    mem_read_ok := true; cpu_read_ok := true; io_read_ok := true;
  |}%N.
Proof.
  intros (Hc & Hp & Hu & Hio & Hcs). unfold read_stats_at.
  change (kernel_file k "memory.current") with (Some (pretty (ks_current k) +:+ newline)).
  change (kernel_file k "memory.peak") with (Some (pretty (ks_peak k) +:+ newline)).
  change (kernel_file k "io.stat") with (Some (render_lines (print_io_line <$> ks_io k))).
  change (kernel_file k "cpu.stat") with
    (Some (render_lines ["usage_usec " +:+ pretty (ks_usage k); "user_usec " +:+ pretty (ks_user k)])).
  change (kernel_file k "cgroup.controllers") with
    (Some (render_words ((λ c, (c, space)) <$> ks_controllers k) "")).
  cbn [mbind option_bind fmap option_fmap option_map]. rewrite !read_counter, read_cpu_stat by done.
  assert (parse_io_stat_bytes (render_lines (print_io_line <$> ks_io k)) =
    (N.min u64_max (sum_N (l_r <$> ks_io k)), N.min u64_max (sum_N (l_w <$> ks_io k)))) as ->.
  { unfold parse_io_stat_bytes. rewrite str_lines_render.
    - rewrite io_lines_sum by done. case_decide as He; [|done]. by rewrite He.
    - apply Forall_fmap. eapply Forall_impl; [exact Hio|]. apply print_io_line_is_line. }
  rewrite read_controllers by done. reflexivity.
Qed.

Definition demo_slice : kernel_slice := {|
  ks_current := 3145728; ks_peak := 9437184;
  ks_io := [{| l_dev := "8:0"; l_r := 10; l_w := 20; l_rios := 1; l_wios := 2; l_dbytes := 0; l_dios := 0 |};
            {| l_dev := "254:16"; l_r := 5; l_w := u64_max; l_rios := 1; l_wios := 2; l_dbytes := 0; l_dios := 0 |}];
  ks_usage := 77; ks_user := 70; ks_controllers := ["cpu"; "memory"];
|}.

Lemma stats_roundtrip_witness :
  read_stats_at (kernel_file demo_slice) = {|
    mem_peak_mib := ks_peak demo_slice / 1024 / 1024;
    mem_current_mib := ks_current demo_slice / 1024 / 1024;
    cpu_usec := ks_usage demo_slice;
    io_read_bytes := N.min u64_max (sum_N (l_r <$> ks_io demo_slice));
    io_write_bytes := N.min u64_max (sum_N (l_w <$> ks_io demo_slice));
    mem_limit_enforced := bool_decide ("memory" ∈ ks_controllers demo_slice);
    mem_read_ok := true; cpu_read_ok := true; io_read_ok := true;
  |}%N.
Proof.
  apply (stats_roundtrip demo_slice). split_and!; [discriminate..| |].
  - repeat constructor; try discriminate; vm_compute; intros H;
      repeat (apply elem_of_cons in H as [[=]|H]); by apply not_elem_of_nil in H.
  - repeat constructor; discriminate.
Defined.
