(* ===== verification/Sweep.v ===== *)
(** * The orphan sweep

    Models [sweep_orphans] and its helpers ([may_reclaim],
    [reclaimable_member_taps], [sweep_member_taps], [strongest_claim], the
    production [HostOrphanScanner]) of [crates/vmcell/src/orchestrator.rs], and
    the daemon's passes over it ([crates/vmcell-daemon/src/sweep.rs]).

    The kernel operations behind the [Netlink] and [CgroupFs] seams are
    parameters that answer success or failure; what the sweep does is the
    [trace] of the removals it attempts, in order, beside the report it
    returns.  File names are UTF-8. *)

From S2P Require Import Prelude Naming DaemonTypes IdAlloc Cgroup.

Inductive IdSpace := Vmid | Segid.

Record OrphanScanner := {
  scan_netns : list string;
  scan_segment_netns : list string;
  scan_cgroup_slices : list string;
  scan_scratch_dirs : list (string * string);   (** the parent and the file name *)
  id_claim : IdSpace → N → IdClaim;
  resource_prefix : option string;
}.

Record Netlink := {
  delete_netns : string → bool;
  list_links : string → option (list string);
  delete_link : string → string → bool;
}.

Record CgroupFs := { delete_slice : string → bool }.

Inductive rm_answer := RmOk | RmNotFound | RmErr.

(** A removal the sweep attempted. *)
Inductive removal :=
  | RmNetns (name : string)
  | RmLink (netns link : string)
  | RmSlice (name : string)
  | RmScratch (dir : string * string).

Record SweepReport := {
  r_netns : list string;
  r_segment_netns : list string;
  r_cgroup_slices : list string;
  r_scratch_dirs : list (string * string);
  r_member_taps : list string;
  r_retained : list string;
}.

Definition report_default : SweepReport := {|
  r_netns := []; r_segment_netns := []; r_cgroup_slices := [];
  r_scratch_dirs := []; r_member_taps := []; r_retained := [];
|}.

(** The sweep's state: what it reports and what it did. *)
Record sweeping := { report : SweepReport; trace : list removal }.

Definition did (e : removal) (s : sweeping) : sweeping :=
  {| report := report s; trace := trace s ++ [e] |}.
Definition upd (f : SweepReport → SweepReport) (s : sweeping) : sweeping :=
  {| report := f (report s); trace := trace s |}.

Definition push_netns (n : string) (r : SweepReport) : SweepReport := {|
  r_netns := r_netns r ++ [n]; r_segment_netns := r_segment_netns r;
  r_cgroup_slices := r_cgroup_slices r; r_scratch_dirs := r_scratch_dirs r;
  r_member_taps := r_member_taps r; r_retained := r_retained r |}.
Definition push_segment_netns (n : string) (r : SweepReport) : SweepReport := {|
  r_netns := r_netns r; r_segment_netns := r_segment_netns r ++ [n];
  r_cgroup_slices := r_cgroup_slices r; r_scratch_dirs := r_scratch_dirs r;
  r_member_taps := r_member_taps r; r_retained := r_retained r |}.
Definition push_slice (n : string) (r : SweepReport) : SweepReport := {|
  r_netns := r_netns r; r_segment_netns := r_segment_netns r;
  r_cgroup_slices := r_cgroup_slices r ++ [n]; r_scratch_dirs := r_scratch_dirs r;
  r_member_taps := r_member_taps r; r_retained := r_retained r |}.
Definition push_scratch (d : string * string) (r : SweepReport) : SweepReport := {|
  r_netns := r_netns r; r_segment_netns := r_segment_netns r;
  r_cgroup_slices := r_cgroup_slices r; r_scratch_dirs := r_scratch_dirs r ++ [d];
  r_member_taps := r_member_taps r; r_retained := r_retained r |}.
Definition push_tap (n : string) (r : SweepReport) : SweepReport := {|
  r_netns := r_netns r; r_segment_netns := r_segment_netns r;
  r_cgroup_slices := r_cgroup_slices r; r_scratch_dirs := r_scratch_dirs r;
  r_member_taps := r_member_taps r ++ [n]; r_retained := r_retained r |}.
Definition push_retained (n : string) (r : SweepReport) : SweepReport := {|
  r_netns := r_netns r; r_segment_netns := r_segment_netns r;
  r_cgroup_slices := r_cgroup_slices r; r_scratch_dirs := r_scratch_dirs r;
  r_member_taps := r_member_taps r; r_retained := r_retained r ++ [n] |}.

Definition claim_debug (c : IdClaim) : string :=
  match c with
  | LiveOwner => "LiveOwner"
  | NoLiveOwner => "NoLiveOwner"
  | Undeterminable => "Undeterminable"
  end.

(** ** The gate *)

Definition may_reclaim (sc : OrphanScanner) (space : IdSpace) (id : N) (live : gset N)
    (name : string) (s : sweeping) : bool * sweeping :=
  if decide (id ∈ live) then (false, s) else
  match id_claim sc space id with
  | NoLiveOwner => (true, s)
  | other => (false, upd (push_retained (name +:+ ": " +:+ claim_debug other)) s)
  end.

Definition strongest_claim (a b : IdClaim) : IdClaim :=
  if bool_decide (a = LiveOwner) || bool_decide (b = LiveOwner) then LiveOwner
  else if bool_decide (a = Undeterminable) || bool_decide (b = Undeterminable) then Undeterminable
  else NoLiveOwner.

Definition host_id_claim_any_space {CH : ClaimHost} (vmids segids : FsIdClaim) (id : N) : IdClaim :=
  strongest_claim (claim_state vmids id) (claim_state segids id).

(** ** Member taps *)

Definition reclaimable_member_taps (prefix : string) (links : list string) (live_vmids : gset N)
    (claim : N → IdClaim) : list (string * N * IdClaim) :=
  omap (λ link,
    match trailing_id link with
    | None => None
    | Some vmid =>
        if decide (link = tap_name prefix vmid) then
          Some (link, vmid, if decide (vmid ∈ live_vmids) then LiveOwner else claim vmid)
        else None
    end) links.

Fixpoint sweep_taps_loop (nl : Netlink) (netns : string) (taps : list (string * N * IdClaim))
    (s : sweeping) : sweeping :=
  match taps with
  | [] => s
  | (tap, vmid, state) :: taps =>
      sweep_taps_loop nl netns taps
        (if decide (state = NoLiveOwner) then
           let s := did (RmLink netns tap) s in
           if delete_link nl netns tap then upd (push_tap tap) s else s
         else upd (push_retained (tap +:+ ": " +:+ claim_debug state)) s)
  end.

Definition sweep_member_taps (sc : OrphanScanner) (nl : Netlink) (netns : string)
    (live_vmids : gset N) (s : sweeping) : sweeping :=
  match resource_prefix sc with
  | None => s
  | Some prefix =>
      match list_links nl netns with
      | None => s
      | Some links =>
          sweep_taps_loop nl netns
            (reclaimable_member_taps prefix links live_vmids (id_claim sc Vmid)) s
      end
  end.

(** ** The sweep *)

Section sweep.
Context (sc : OrphanScanner) (nl : Netlink) (cg : CgroupFs) (rm : string * string → rm_answer).
Context (live_vmids live_segids : gset N).

Definition sweep_one_netns (name : string) (s : sweeping) : sweeping :=
  match trailing_id name with
  | None => s
  | Some vmid =>
      match may_reclaim sc Vmid vmid live_vmids name s with
      | (false, s) => s
      | (true, s) =>
          let s := did (RmNetns name) s in
          if delete_netns nl name then upd (push_netns name) s else s
      end
  end.

Definition sweep_one_segment (name : string) (s : sweeping) : sweeping :=
  match trailing_id name with
  | None => s
  | Some segid =>
      match may_reclaim sc Segid segid live_segids name s with
      | (false, s) => sweep_member_taps sc nl name live_vmids s
      | (true, s) =>
          let s := did (RmNetns name) s in
          if delete_netns nl name then upd (push_segment_netns name) s else s
      end
  end.

Definition sweep_one_slice (name : string) (s : sweeping) : sweeping :=
  match trailing_id name with
  | None => s
  | Some vmid =>
      match may_reclaim sc Vmid vmid live_vmids name s with
      | (false, s) => s
      | (true, s) =>
          let s := did (RmSlice name) s in
          if delete_slice cg name then upd (push_slice name) s else s
      end
  end.

Definition sweep_one_scratch (dir : string * string) (s : sweeping) : sweeping :=
  match trailing_id dir.2 with
  | None => s
  | Some vmid =>
      match may_reclaim sc Vmid vmid live_vmids (dir.1 +:+ "/" +:+ dir.2) s with
      | (false, s) => s
      | (true, s) =>
          let s := did (RmScratch dir) s in
          match rm dir with
          | RmOk | RmNotFound => upd (push_scratch dir) s
          | RmErr => s
          end
      end
  end.

(** A [for] loop over the candidates. *)
Definition for_each {A} (f : A → sweeping → sweeping) (l : list A) (s : sweeping) : sweeping :=
  foldl (λ s x, f x s) s l.

Definition sweep_orphans : sweeping :=
  for_each sweep_one_scratch (scan_scratch_dirs sc)
    (for_each sweep_one_slice (scan_cgroup_slices sc)
      (for_each sweep_one_segment (scan_segment_netns sc)
        (for_each sweep_one_netns (scan_netns sc)
          {| report := report_default; trace := [] |}))).

(** ** What it should do

    The reference: which names are orphans, and the removals of a pass written
    as filters over the scans. *)

Definition orphan (space : IdSpace) (live : gset N) (name : string) : bool :=
  match trailing_id name with
  | None => false
  | Some id => bool_decide (id ∉ live) && bool_decide (id_claim sc space id = NoLiveOwner)
  end.

Definition dead_tap (prefix link : string) : bool :=
  match trailing_id link with
  | None => false
  | Some vmid => bool_decide (link = tap_name prefix vmid) && orphan Vmid live_vmids link
  end.

Definition dead_taps (netns : string) : list removal :=
  match resource_prefix sc, list_links nl netns with
  | Some prefix, Some links => RmLink netns <$> filter (λ l, dead_tap prefix l = true) links
  | _, _ => []
  end.

Definition segment_removals (name : string) : list removal :=
  if orphan Segid live_segids name then [RmNetns name]
  else if bool_decide (is_Some (trailing_id name)) then dead_taps name else [].

Definition expected_removals : list removal :=
  (RmNetns <$> filter (λ n, orphan Vmid live_vmids n = true) (scan_netns sc)) ++
  (scan_segment_netns sc ≫= segment_removals) ++
  (RmSlice <$> filter (λ n, orphan Vmid live_vmids n = true) (scan_cgroup_slices sc)) ++
  (RmScratch <$> filter (λ d, orphan Vmid live_vmids d.2 = true) (scan_scratch_dirs sc)).
End sweep.

(** ** The daemon's passes *)

Definition DEFAULT_SWEEP_INTERVAL : N := 300.
Definition MIN_SWEEP_INTERVAL : N := 30.

Inductive SweepSchedule := Disabled | Every (secs : N).

Definition schedule_from_secs (secs : N) : result DaemonError SweepSchedule :=
  if (secs =? 0)%N then Ok Disabled
  else if (secs <? MIN_SWEEP_INTERVAL)%N then Err EBadRequest
  else Ok (Every secs).

Definition interval (s : SweepSchedule) : option N :=
  match s with Disabled => None | Every d => Some d end.

Record LiveIds := {
  vmids : gset N;
  segids : gset N;
  launches_in_flight : N;
}.

Inductive SweepOutcome := Deferred (launches_in_flight : N) | Swept (s : sweeping).

Definition sweep_pass (sc : OrphanScanner) (nl : Netlink) (cg : CgroupFs)
    (rm : string * string → rm_answer) (live : LiveIds) : SweepOutcome :=
  if (0 <? launches_in_flight live)%N then Deferred (launches_in_flight live)
  else Swept (sweep_orphans sc nl cg rm (vmids live) (segids live)).

Definition outcome_trace (o : SweepOutcome) : list removal :=
  match o with Deferred _ => [] | Swept s => trace s end.

(** ** The sweep does exactly what it should *)

Section sweep_facts.
Context (sc : OrphanScanner) (nl : Netlink) (cg : CgroupFs) (rm : string * string → rm_answer).
Context (live_vmids live_segids : gset N).

Lemma upd_trace f s : trace (upd f s) = trace s.
Proof. done. Qed.

Lemma may_reclaim_spec space id live name s :
  (may_reclaim sc space id live name s).1 =
    bool_decide (id ∉ live) && bool_decide (id_claim sc space id = NoLiveOwner) ∧
  trace (may_reclaim sc space id live name s).2 = trace s.
Proof.
  unfold may_reclaim. destruct (decide (id ∈ live)).
  - by rewrite bool_decide_false by tauto.
  - rewrite bool_decide_true by done. by destruct (id_claim sc space id).
Qed.

Lemma sweep_one_netns_trace name s :
  trace (sweep_one_netns sc nl live_vmids name s) =
    trace s ++ if orphan sc Vmid live_vmids name then [RmNetns name] else [].
Proof.
  unfold sweep_one_netns, orphan. destruct (trailing_id name) as [id|]; [|by rewrite app_nil_r].
  destruct (may_reclaim_spec Vmid id live_vmids name s) as [<- Ht].
  destruct (may_reclaim sc Vmid id live_vmids name s) as [[] s1]; cbn in *.
  - by destruct (delete_netns nl name); cbn; rewrite Ht.
  - by rewrite Ht, app_nil_r.
Qed.

Lemma sweep_one_slice_trace name s :
  trace (sweep_one_slice sc cg live_vmids name s) =
    trace s ++ if orphan sc Vmid live_vmids name then [RmSlice name] else [].
Proof.
  unfold sweep_one_slice, orphan. destruct (trailing_id name) as [id|]; [|by rewrite app_nil_r].
  destruct (may_reclaim_spec Vmid id live_vmids name s) as [<- Ht].
  destruct (may_reclaim sc Vmid id live_vmids name s) as [[] s1]; cbn in *.
  - by destruct (delete_slice cg name); cbn; rewrite Ht.
  - by rewrite Ht, app_nil_r.
Qed.

Lemma sweep_one_scratch_trace dir s :
  trace (sweep_one_scratch sc rm live_vmids dir s) =
    trace s ++ if orphan sc Vmid live_vmids dir.2 then [RmScratch dir] else [].
Proof.
  unfold sweep_one_scratch, orphan. destruct (trailing_id dir.2) as [id|]; [|by rewrite app_nil_r].
  destruct (may_reclaim_spec Vmid id live_vmids (dir.1 +:+ "/" +:+ dir.2) s) as [<- Ht].
  destruct (may_reclaim sc Vmid id live_vmids _ s) as [[] s1]; cbn [fst snd] in *.
  - by destruct (rm dir); cbn; rewrite Ht.
  - by rewrite Ht, app_nil_r.
Qed.

Lemma dead_tap_state prefix link vmid :
  trailing_id link = Some vmid → link = tap_name prefix vmid →
  dead_tap sc live_vmids prefix link =
    bool_decide ((if decide (vmid ∈ live_vmids) then LiveOwner else id_claim sc Vmid vmid) = NoLiveOwner).
Proof.
  intros Hid Hl. unfold dead_tap, orphan. rewrite Hid, (bool_decide_true (link = _)) by done.
  cbn [andb]. destruct (decide (vmid ∈ live_vmids)).
  - by rewrite bool_decide_false by tauto.
  - by rewrite bool_decide_true by done.
Qed.

Lemma sweep_taps_loop_trace prefix netns links s :
  trace (sweep_taps_loop nl netns
    (reclaimable_member_taps prefix links live_vmids (id_claim sc Vmid)) s) =
  trace s ++ (RmLink netns <$> filter (λ l, dead_tap sc live_vmids prefix l = true) links).
Proof.
  revert s. induction links as [|link links IH]; intros s; [cbn; by rewrite app_nil_r|].
  unfold reclaimable_member_taps. cbn [omap list_omap].
  fold (reclaimable_member_taps prefix links live_vmids (id_claim sc Vmid)).
  rewrite filter_cons. destruct (trailing_id link) as [vmid|] eqn:Hid.
  2:{ rewrite decide_False by (unfold dead_tap; by rewrite Hid). apply IH. }
  destruct (decide (link = tap_name prefix vmid)) as [Hl|Hl].
  2:{ rewrite decide_False; [apply IH|]. unfold dead_tap. rewrite Hid. by rewrite bool_decide_false. }
  rewrite (dead_tap_state prefix link vmid Hid Hl). cbn [sweep_taps_loop].
  set (st := if decide (vmid ∈ live_vmids) then LiveOwner else id_claim sc Vmid vmid).
  destruct (decide (st = NoLiveOwner)) as [Hst|Hst].
  - rewrite (bool_decide_true (st = NoLiveOwner)), decide_True by done.
    rewrite IH. destruct (delete_link nl netns link); cbn; by rewrite <- app_assoc.
  - rewrite (bool_decide_false (st = NoLiveOwner)), decide_False by done. by rewrite IH.
Qed.

Lemma sweep_one_segment_trace name s :
  trace (sweep_one_segment sc nl live_vmids live_segids name s) =
    trace s ++ segment_removals sc nl live_vmids live_segids name.
Proof.
  unfold sweep_one_segment, segment_removals.
  destruct (trailing_id name) as [id|] eqn:Hid.
  2:{ unfold orphan. rewrite Hid. cbn. by rewrite app_nil_r. }
  unfold orphan. rewrite Hid. rewrite (bool_decide_true (is_Some _)) by eauto.
  destruct (may_reclaim_spec Segid id live_segids name s) as [<- Ht].
  destruct (may_reclaim sc Segid id live_segids name s) as [[] s1]; cbn [fst snd] in *.
  - by destruct (delete_netns nl name); cbn; rewrite Ht.
  - unfold sweep_member_taps, dead_taps. rewrite <- Ht.
    destruct (resource_prefix sc) as [prefix|]; [|by rewrite app_nil_r].
    destruct (list_links nl name) as [links|]; [|by rewrite app_nil_r].
    apply sweep_taps_loop_trace.
Qed.

Lemma for_each_trace {A} (f : A → sweeping → sweeping) (g : A → list removal) l s :
  (∀ x s, trace (f x s) = trace s ++ g x) → trace (for_each f l s) = trace s ++ (l ≫= g).
Proof.
  intros Hf. revert s. induction l as [|x l IH]; intros s; [cbn; by rewrite app_nil_r|].
  change (trace (for_each f l (f x s)) = trace s ++ (g x ++ (l ≫= g))).
  by rewrite IH, Hf, app_assoc.
Qed.

Lemma bind_filter {A B} (P : A → bool) (h : A → B) l :
  (l ≫= λ x, if P x then [h x] else []) = h <$> filter (λ x, P x = true) l.
Proof.
  induction l as [|x l IH]; [done|]. rewrite filter_cons. cbn [mbind list_bind].
  destruct (P x); [rewrite decide_True by done|rewrite decide_False by done]; cbn; by rewrite <- IH.
Qed.

Lemma sweep_trace :
  trace (sweep_orphans sc nl cg rm live_vmids live_segids) =
    expected_removals sc nl live_vmids live_segids.
Proof.
  unfold sweep_orphans, expected_removals.
  rewrite (for_each_trace _ _ _ _ sweep_one_scratch_trace),
    (for_each_trace _ _ _ _ sweep_one_slice_trace),
    (for_each_trace _ _ _ _ sweep_one_segment_trace),
    (for_each_trace _ _ _ _ sweep_one_netns_trace). cbn [trace app].
  by rewrite !bind_filter, <- !app_assoc.
Qed.

(** The report says what was removed: each list names the attempted removals
    of its class that were answered with success. *)
Definition honest (s : sweeping) : Prop :=
  (∀ n, n ∈ r_netns (report s) ∨ n ∈ r_segment_netns (report s) ↔
     RmNetns n ∈ trace s ∧ delete_netns nl n = true) ∧
  (∀ l, l ∈ r_member_taps (report s) ↔ ∃ ns, RmLink ns l ∈ trace s ∧ delete_link nl ns l = true) ∧
  (∀ n, n ∈ r_cgroup_slices (report s) ↔ RmSlice n ∈ trace s ∧ delete_slice cg n = true) ∧
  (∀ d, d ∈ r_scratch_dirs (report s) ↔ RmScratch d ∈ trace s ∧ rm d ≠ RmErr).

Lemma tap_frame tr e l :
  (∀ ns, e ≠ RmLink ns l) →
  (∃ ns, RmLink ns l ∈ tr ++ [e] ∧ delete_link nl ns l = true) ↔
  (∃ ns, RmLink ns l ∈ tr ∧ delete_link nl ns l = true).
Proof.
  intros He. split; intros (ns & Hin & Hok); exists ns; (split; [|done]).
  - apply elem_of_app in Hin as [?|Hin%list_elem_of_singleton]; [done|]. by destruct (He ns).
  - apply elem_of_app. by left.
Qed.

Ltac honest_class H :=
  let x := fresh in intros x; destruct (H x); rewrite ?elem_of_app, ?list_elem_of_singleton;
  intuition congruence.

Ltac honest_tac :=
  intros (Hn & Ht & Hs & Hd); unfold honest; cbn; split_and!;
  [ honest_class Hn | intros ?; rewrite tap_frame by done; apply Ht | honest_class Hs | honest_class Hd ].

Lemma honest_retained x s : honest s → honest (upd (push_retained x) s).
Proof. done. Qed.

Lemma honest_netns n s :
  honest s → honest (if delete_netns nl n then upd (push_netns n) (did (RmNetns n) s) else did (RmNetns n) s).
Proof. destruct (delete_netns nl n) eqn:?; honest_tac. Qed.

Lemma honest_segment n s :
  honest s →
  honest (if delete_netns nl n then upd (push_segment_netns n) (did (RmNetns n) s) else did (RmNetns n) s).
Proof. destruct (delete_netns nl n) eqn:?; honest_tac. Qed.

Lemma honest_tap ns l s :
  honest s →
  honest (if delete_link nl ns l then upd (push_tap l) (did (RmLink ns l) s) else did (RmLink ns l) s).
Proof.
  destruct (delete_link nl ns l) eqn:Hok; intros (Hn & Ht & Hs & Hd); unfold honest; cbn;
    (split_and!; [honest_class Hn| |honest_class Hs|honest_class Hd]); intros x.
  - rewrite elem_of_app, list_elem_of_singleton, Ht. split.
    + intros [(ns' & ? & ?)| ->]; [exists ns'|exists ns]; rewrite elem_of_app, list_elem_of_singleton; auto.
    + intros (ns' & [?|Heq%list_elem_of_singleton]%elem_of_app & ?); [by left; eauto|].
      right. congruence.
  - rewrite Ht. split; intros (ns' & Hin & Hd'); exists ns'; (split; [|done]).
    + apply elem_of_app. by left.
    + apply elem_of_app in Hin as [?|Heq%list_elem_of_singleton]; [done|congruence].
Qed.

Lemma honest_slice n s :
  honest s → honest (if delete_slice cg n then upd (push_slice n) (did (RmSlice n) s) else did (RmSlice n) s).
Proof. destruct (delete_slice cg n) eqn:?; honest_tac. Qed.

Lemma honest_scratch d s :
  honest s →
  honest match rm d with
         | RmOk | RmNotFound => upd (push_scratch d) (did (RmScratch d) s)
         | RmErr => did (RmScratch d) s
         end.
Proof. destruct (rm d) eqn:?; honest_tac. Qed.

Lemma honest_gate space id live name s :
  honest s → honest (may_reclaim sc space id live name s).2.
Proof.
  unfold may_reclaim. intros Hs. destruct (decide (id ∈ live)); [done|].
  by destruct (id_claim sc space id).
Qed.

Lemma honest_taps netns taps s : honest s → honest (sweep_taps_loop nl netns taps s).
Proof.
  revert s. induction taps as [|[[tap vmid] st] taps IH]; intros s Hs; [done|].
  cbn [sweep_taps_loop]. apply IH. destruct (decide (st = NoLiveOwner)); [by apply honest_tap|done].
Qed.

Lemma for_each_honest {A} (f : A → sweeping → sweeping) l s :
  (∀ x s, honest s → honest (f x s)) → honest s → honest (for_each f l s).
Proof.
  intros Hf. revert s. induction l as [|x l IH]; intros s Hs; [done|]. apply IH. by apply Hf.
Qed.

Ltac honest_arm id space live name s :=
  let H := fresh in
  pose proof (honest_gate space id live name s) as H;
  destruct (may_reclaim sc space id live name s) as [[] ?]; cbn [snd] in H.

Lemma sweep_honest : honest (sweep_orphans sc nl cg rm live_vmids live_segids).
Proof.
  unfold sweep_orphans. repeat apply for_each_honest.
  - intros dir s Hs. unfold sweep_one_scratch. destruct (trailing_id dir.2) as [id|]; [|done].
    honest_arm id Vmid live_vmids (dir.1 +:+ "/" +:+ dir.2) s; [apply honest_scratch|]; auto.
  - intros name s Hs. unfold sweep_one_slice. destruct (trailing_id name) as [id|]; [|done].
    honest_arm id Vmid live_vmids name s; [apply honest_slice|]; auto.
  - intros name s Hs. unfold sweep_one_segment. destruct (trailing_id name) as [id|]; [|done].
    honest_arm id Segid live_segids name s; [apply honest_segment; auto|].
    unfold sweep_member_taps. destruct (resource_prefix sc); [|by auto].
    destruct (list_links nl name); [apply honest_taps|]; auto.
  - intros name s Hs. unfold sweep_one_netns. destruct (trailing_id name) as [id|]; [|done].
    honest_arm id Vmid live_vmids name s; [apply honest_netns|]; auto.
  - unfold honest. cbn. split_and!; intros; split; intros H;
      repeat match goal with
      | H : _ ∨ _ |- _ => destruct H as [H|H]
      | H : ∃ _, _ |- _ => destruct H as [? H]
      | H : _ ∧ _ |- _ => destruct H as [H _]
      | H : _ ∈ [] |- _ => by apply not_elem_of_nil in H
      end.
Qed.
End sweep_facts.

(** C7: The sweep removes the orphans and nothing else.  For any scanner, the
    removals a pass attempts are exactly, and in this order, the per-VM
    namespaces, then the segment namespaces (or, inside a segment that is kept,
    the taps of dead members), then the cgroup slices, then the scratch
    directories whose id is neither live in this process nor claimed, nor
    possibly claimed, by another, each checked in its own id space; and the
    report lists exactly the attempted removals that were answered with
    success. *)
Theorem sweep_exact sc nl cg rm live_vmids live_segids :
  let s := sweep_orphans sc nl cg rm live_vmids live_segids in
  trace s = expected_removals sc nl live_vmids live_segids ∧ honest nl cg rm s.
Proof. split; [apply sweep_trace|apply sweep_honest]. Qed.

(** ** The production scanner *)

(** A directory of the cgroup tree as [read_dir] sees it: unreadable, or its
    entries, each a directory or not. *)
Inductive cgtree := CgUnreadable | CgDir (entries : list (string * option cgtree)).

Fixpoint walk_cgroup_slices (vm_prefix : string) (depth : nat) (root : cgtree) (rel : string)
    : list string :=
  match depth with
  | O => []
  | S depth =>
      match root with
      | CgUnreadable => []
      | CgDir entries =>
          entries ≫= λ '(name, sub),
            match sub with
            | None => []
            | Some t =>
                let child_rel := if decide (rel = "") then name else rel +:+ "/" +:+ name in
                if starts_with vm_prefix name then [child_rel]
                else walk_cgroup_slices vm_prefix depth t child_rel
            end
      end
  end.

(** What the host shows: the namespace directory, the temp directory and the
    cgroup mount ([None] where [read_dir] fails), and this process's
    [/proc/self/cgroup]. *)
Record host_view := {
  netns_entries : option (list string);
  temp_dir : string;
  temp_entries : option (list (string * bool));
  cgroup_root : cgtree;
  proc_cgroup : option string;
}.

Definition host_orphan_scanner {CH : ClaimHost} (prefix : string) (h : host_view)
    (vmid_claim segid_claim : FsIdClaim) : OrphanScanner := {|
  scan_netns :=
    filter (λ n, starts_with (netns_sweep_prefix prefix) n = true) (default [] (netns_entries h));
  scan_segment_netns :=
    filter (λ n, starts_with (segment_netns_sweep_prefix prefix) n = true) (default [] (netns_entries h));
  scan_cgroup_slices :=
    walk_cgroup_slices (vm_resource_sweep_prefix prefix)
      (N.to_nat (vm_slice_scan_depth (vm_slice_name (proc_cgroup h) prefix 0))) (cgroup_root h) "";
  scan_scratch_dirs :=
    (λ e, (temp_dir h, e.1)) <$>
      filter (λ e, e.2 = true ∧ starts_with (vm_resource_sweep_prefix prefix) e.1 = true)
        (default [] (temp_entries h));
  id_claim space id :=
    match space with Vmid => claim_state vmid_claim id | Segid => claim_state segid_claim id end;
  resource_prefix := Some prefix;
|}.

(** ** What a host sweep spares *)

Section host.
Context {CH : ClaimHost} (prefix : string) (h : host_view) (vmid_claim segid_claim : FsIdClaim).
Context (nl : Netlink) (cg : CgroupFs) (rm : string * string → rm_answer).
Context (live_vmids live_segids : gset N).
Local Notation sc := (host_orphan_scanner prefix h vmid_claim segid_claim).
Local Notation tr := (trace (sweep_orphans sc nl cg rm live_vmids live_segids)).

Lemma orphan_id space live name id :
  orphan sc space live name = true → trailing_id name = Some id →
  id ∉ live ∧ id_claim sc space id = NoLiveOwner.
Proof.
  unfold orphan. intros H Hid. rewrite Hid in H. apply andb_true_iff in H as [H1 H2].
  by apply bool_decide_eq_true in H1, H2.
Qed.

Lemma dead_taps_links netns e :
  e ∈ dead_taps sc nl live_vmids netns →
  ∃ l, e = RmLink netns l ∧ dead_tap sc live_vmids prefix l = true.
Proof.
  unfold dead_taps. cbn [resource_prefix host_orphan_scanner].
  destruct (list_links nl netns) as [links|]; [|by intros ?%not_elem_of_nil].
  intros (l & -> & [? _]%list_elem_of_filter)%list_elem_of_fmap. by eauto.
Qed.

(** Every removal of a pass, with the reason that allowed it. *)
Lemma removal_reason e :
  e ∈ tr →
  match e with
  | RmNetns n =>
      (starts_with (class_filter PerVmNetns prefix) n = true ∧ orphan sc Vmid live_vmids n = true) ∨
      (starts_with (class_filter SegmentNetns prefix) n = true ∧ orphan sc Segid live_segids n = true)
  | RmLink ns l =>
      starts_with (class_filter SegmentNetns prefix) ns = true ∧
      dead_tap sc live_vmids prefix l = true
  | RmSlice n => n ∈ scan_cgroup_slices sc ∧ orphan sc Vmid live_vmids n = true
  | RmScratch d =>
      starts_with (class_filter ScratchDir prefix) d.2 = true ∧ orphan sc Vmid live_vmids d.2 = true
  end.
Proof.
  rewrite sweep_trace. unfold expected_removals. rewrite !elem_of_app.
  intros [H|[H|[H|H]]].
  - apply list_elem_of_fmap in H as (n & -> & [Ho [Hf _]%list_elem_of_filter]%list_elem_of_filter).
    by left.
  - apply list_elem_of_bind in H as (n & He & [Hf _]%list_elem_of_filter).
    unfold segment_removals in He. destruct (orphan sc Segid live_segids n) eqn:Ho.
    + apply list_elem_of_singleton in He as ->. by right.
    + case_bool_decide; [|by apply not_elem_of_nil in He].
      apply dead_taps_links in He as (l & -> & Hl). done.
  - by apply list_elem_of_fmap in H as (n & -> & [Ho Hin]%list_elem_of_filter).
  - apply list_elem_of_fmap in H as (d & -> & [Ho Hin]%list_elem_of_filter).
    apply list_elem_of_fmap in Hin as (x & -> & [[_ Hf] _]%list_elem_of_filter). done.
Qed.
End host.

Lemma stem_trailing stem k p pid id :
  (id <= u32_max)%N → trailing_id (stem +:+ class_name k p pid id) = Some id.
Proof.
  intros Hid. destruct (class_name_trailing k p pid id) as [st ->].
  rewrite <- append_assoc. by apply trailing_id_append.
Qed.

Lemma class_trailing k p pid id : (id <= u32_max)%N → trailing_id (class_name k p pid id) = Some id.
Proof. apply (stem_trailing "" k p pid id). Qed.

Section spared.
Context {CH : ClaimHost} (prefix : string) (h : host_view) (vmid_claim segid_claim : FsIdClaim).
Context (nl : Netlink) (cg : CgroupFs) (rm : string * string → rm_answer).
Context (live_vmids live_segids : gset N).
Local Notation sc := (host_orphan_scanner prefix h vmid_claim segid_claim).
Local Notation tr := (trace (sweep_orphans sc nl cg rm live_vmids live_segids)).

Lemma spared_vm id :
  valid_prefix prefix → (id <= u32_max)%N →
  id ∈ live_vmids ∨ claim_state vmid_claim id ≠ NoLiveOwner →
  RmNetns (netns_name prefix id) ∉ tr ∧
  (∀ ns, RmLink ns (tap_name prefix id) ∉ tr) ∧
  (∀ stem, RmSlice (stem +:+ cgroup_slice_name prefix id) ∉ tr) ∧
  (∀ dir pid, RmScratch (dir, scratch_dir_name prefix pid id) ∉ tr).
Proof.
  intros Hp Hid Hprot.
  assert (∀ name, trailing_id name = Some id → orphan sc Vmid live_vmids name = true → False) as Hno.
  { intros name Hn Ho. destruct (orphan_id _ _ _ _ _ _ _ _ Ho Hn) as [? Hc]. cbn in Hc. naive_solver. }
  split_and!.
  - intros [[_ Ho]|[Hf _]]%removal_reason; [by eapply Hno; [apply (class_trailing PerVmNetns prefix 0)|]|].
    by apply (filter_match_class SegmentNetns PerVmNetns prefix prefix 0 id Hp Hp) in Hf as [_ [=]%append_inj_l].
  - intros ns [_ Hd]%removal_reason. unfold dead_tap in Hd.
    assert (trailing_id (tap_name prefix id) = Some id) as Ht.
    { unfold tap_name. change (prefix +:+ "-tap-" +:+ pretty id) with
        (prefix +:+ ("-tap" +:+ String "-" (pretty id))).
      rewrite <- append_assoc. by apply trailing_id_append. }
    rewrite Ht in Hd. apply andb_true_iff in Hd as [_ Hd]. by eapply Hno.
  - intros stem [_ Ho]%removal_reason. eapply Hno; [|exact Ho]. by apply (stem_trailing stem CgroupSlice prefix 0).
  - intros dir pid [_ Ho]%removal_reason. eapply Hno; [|exact Ho]. by apply (class_trailing ScratchDir).
Qed.

Lemma spared_segment id :
  valid_prefix prefix → (id <= u32_max)%N →
  id ∈ live_segids ∨ claim_state segid_claim id ≠ NoLiveOwner →
  RmNetns (segment_netns_name prefix id) ∉ tr.
Proof.
  intros Hp Hid Hprot [[Hf _]|[_ Ho]]%removal_reason.
  - by apply (filter_match_class PerVmNetns SegmentNetns prefix prefix 0 id Hp Hp) in Hf as [_ [=]%append_inj_l].
  - destruct (orphan_id _ _ _ _ _ _ _ _ Ho (class_trailing SegmentNetns prefix 0 id Hid)) as [? Hc].
    cbn in Hc. naive_solver.
Qed.
End spared.

(** A running VM keeps its resources.  If a vmid is live in this process, or
    its claim names a live process, or its claim cannot be read, then no sweep
    of any host removes its namespace, its tap (in whatever segment), its
    cgroup slice (at whatever depth) or its scratch directory; and a segment
    whose segid is so protected keeps its namespace, whatever vmids are live. *)
Theorem protected_ids_never_swept {CH : ClaimHost} prefix h vmid_claim segid_claim
    nl cg rm live_vmids live_segids id :
  valid_prefix prefix → (id <= u32_max)%N →
  let sc := host_orphan_scanner prefix h vmid_claim segid_claim in
  let tr := trace (sweep_orphans sc nl cg rm live_vmids live_segids) in
  (id ∈ live_vmids ∨ claim_state vmid_claim id ≠ NoLiveOwner →
     RmNetns (netns_name prefix id) ∉ tr ∧
     (∀ ns, RmLink ns (tap_name prefix id) ∉ tr) ∧
     (∀ stem, RmSlice (stem +:+ cgroup_slice_name prefix id) ∉ tr) ∧
     (∀ dir pid, RmScratch (dir, scratch_dir_name prefix pid id) ∉ tr)) ∧
  (id ∈ live_segids ∨ claim_state segid_claim id ≠ NoLiveOwner →
     RmNetns (segment_netns_name prefix id) ∉ tr).
Proof. intros Hp Hid sc tr. split; intros Hprot; [by apply spared_vm|by apply spared_segment]. Qed.

(** A sweep stays in its fleet.  Under two different accepted prefixes, a
    sweep with one removes no namespace and no scratch directory of the other,
    and touches no link outside its own segments. *)
Theorem sweep_stays_in_fleet {CH : ClaimHost} prefix other h vmid_claim segid_claim
    nl cg rm live_vmids live_segids id :
  valid_prefix prefix → valid_prefix other → prefix ≠ other →
  let sc := host_orphan_scanner prefix h vmid_claim segid_claim in
  let tr := trace (sweep_orphans sc nl cg rm live_vmids live_segids) in
  RmNetns (netns_name other id) ∉ tr ∧ RmNetns (segment_netns_name other id) ∉ tr ∧
  (∀ dir pid, RmScratch (dir, scratch_dir_name other pid id) ∉ tr) ∧
  (∀ link, RmLink (segment_netns_name other id) link ∉ tr).
Proof.
  intros Hp Ho Hne sc tr.
  assert (∀ k1 k2 pid, starts_with (class_filter k1 prefix) (class_name k2 other pid id) = true → False) as Hno.
  { intros k1 k2 pid Hs. by apply (filter_match_class k1 k2) in Hs as [? _]. }
  split_and!.
  - intros [[Hf _]|[Hf _]]%removal_reason; by apply (Hno _ PerVmNetns 0%N) in Hf.
  - intros [[Hf _]|[Hf _]]%removal_reason; by apply (Hno _ SegmentNetns 0%N) in Hf.
  - intros dir pid [Hf _]%removal_reason. by apply (Hno _ ScratchDir pid) in Hf.
  - intros link [Hf _]%removal_reason. by apply (Hno _ SegmentNetns 0%N) in Hf.
Qed.

(** ** The cgroup walk *)

(** The tree has a directory at a path. *)
Fixpoint has_dir (t : cgtree) (path : list string) : Prop :=
  match path with
  | [] => True
  | c :: rest =>
      match t with
      | CgUnreadable => False
      | CgDir entries => ∃ sub, (c, Some sub) ∈ entries ∧ has_dir sub rest
      end
  end.

Definition under (rel : string) (path : list string) : string :=
  if decide (rel = "") then str_join "/" path else rel +:+ "/" +:+ str_join "/" path.

Lemma under_cons rel c path :
  c ≠ "" → path ≠ [] →
  under (if decide (rel = "") then c else rel +:+ "/" +:+ c) path = under rel (c :: path).
Proof.
  intros Hc Hp. unfold under. destruct path as [|d path]; [done|].
  change (str_join "/" (c :: d :: path)) with (c +:+ "/" +:+ str_join "/" (d :: path)).
  destruct (decide (rel = "")) as [->|Hr]; [by rewrite decide_False|].
  rewrite decide_False; [by rewrite !append_assoc|].
  destruct rel; [done|]. by rewrite append_cons.
Qed.

Lemma walk_complete vp base leaf depth t rel :
  has_dir t (base ++ [leaf]) → Forall (λ c, c ≠ "" ∧ starts_with vp c = false) base →
  starts_with vp leaf = true → length base < depth →
  under rel (base ++ [leaf]) ∈ walk_cgroup_slices vp depth t rel.
Proof.
  intros Hd Hb Hl. revert depth t rel Hd. induction Hb as [|c base [Hc Hs] _ IH];
    intros depth t rel Hd Hlen; (destruct depth as [|depth]; [cbn in Hlen; lia|]);
    destruct t as [|entries]; try done; destruct Hd as (sub & Hin & Hd);
    cbn [walk_cgroup_slices]; apply list_elem_of_bind.
  - exists (leaf, Some sub). split; [|done]. rewrite Hl. cbn [app]. unfold under. cbn [str_join].
    case_decide; apply list_elem_of_singleton; done.
  - exists (c, Some sub). split; [|done]. rewrite Hs. cbn [app].
    rewrite <- under_cons by (done || by destruct base). apply IH; [done|]. cbn in Hlen. lia.
Qed.

Lemma alnum_no_slash p : valid_prefix p → "/"%char ∉ bytes p.
Proof.
  intros (_ & _ & H)%valid_prefix_spec Hin. rewrite Forall_forall in H. by apply H in Hin.
Qed.

Lemma slice_leaf_no_slash p id : valid_prefix p → "/"%char ∉ bytes (cgroup_slice_name p id).
Proof.
  intros Hp. unfold cgroup_slice_name. rewrite !bytes_append. rewrite !not_elem_of_app.
  split_and!; [by apply alnum_no_slash| |by apply pretty_no_char].
  vm_compute. intros H. repeat (apply elem_of_cons in H as [[=]|H]). by apply not_elem_of_nil in H.
Qed.

(** The scan depth is the nesting of this process's own placement plus one. *)
Lemma scan_depth_own own p proc :
  valid_prefix p → own ≠ [] → Forall (λ c, c ≠ "" ∧ "/"%char ∉ bytes c) own → length own < 255 →
  proc ≫= cgroup_base_from_proc = Some (str_join "/" own) →
  N.to_nat (vm_slice_scan_depth (vm_slice_name proc p 0)) = S (length own).
Proof.
  intros Hp Hne Hown Hlen Hproc. unfold vm_slice_scan_depth, vm_slice_name, path_components.
  rewrite Hproc. change (str_join "/" own +:+ "/" +:+ cgroup_slice_name p 0) with
    (str_join "/" own +:+ "/" +:+ str_join "/" [cgroup_slice_name p 0]).
  rewrite <- str_join_app by done. rewrite str_split_join.
  - rewrite filter_all.
    + rewrite length_app. cbn [length]. unfold u8_max. rewrite (proj2 (N.leb_le _ _)) by lia. lia.
    + apply Forall_app. split; [eapply Forall_impl; [exact Hown|by intros ? [? _]]|].
      repeat constructor. unfold cgroup_slice_name. by destruct p.
  - by destruct own.
  - apply Forall_app. split; [eapply Forall_impl; [exact Hown|by intros ? [_ ?]]|].
    repeat constructor. by apply slice_leaf_no_slash.
Qed.

(** A crashed sibling's slice is found and reclaimed.  On a host where this
    process sits [length own] cgroup levels deep, a leaked slice of the same
    fleet at most as deep (a systemd session's component five included) whose
    id nobody owns is among the removals of the pass. *)
Theorem leaked_slice_is_swept {CH : ClaimHost} prefix h vmid_claim segid_claim
    nl cg rm live_vmids live_segids own base id :
  valid_prefix prefix → own ≠ [] → Forall (λ c, c ≠ "" ∧ "/"%char ∉ bytes c) own → length own < 255 →
  proc_cgroup h ≫= cgroup_base_from_proc = Some (str_join "/" own) →
  length base ≤ length own →
  Forall (λ c, c ≠ "" ∧ starts_with (vm_resource_sweep_prefix prefix) c = false) base →
  has_dir (cgroup_root h) (base ++ [cgroup_slice_name prefix id]) →
  (id <= u32_max)%N → id ∉ live_vmids → claim_state vmid_claim id = NoLiveOwner →
  RmSlice (str_join "/" (base ++ [cgroup_slice_name prefix id])) ∈
    trace (sweep_orphans (host_orphan_scanner prefix h vmid_claim segid_claim)
             nl cg rm live_vmids live_segids).
Proof.
  intros Hp Hne Hown Hlen Hproc Hle Hbase Hdir Hid Hlive Hclaim.
  rewrite sweep_trace. unfold expected_removals. rewrite !elem_of_app. right; right; left.
  apply list_elem_of_fmap. eexists. split; [reflexivity|]. apply list_elem_of_filter. split.
  - unfold orphan.
    assert (∃ stem, str_join "/" (base ++ [cgroup_slice_name prefix id]) =
      stem +:+ class_name CgroupSlice prefix 0 id) as [stem ->].
    { destruct base as [|c base]; [by exists ""|].
      rewrite str_join_app by done. exists (str_join "/" (c :: base) +:+ "/").
      by rewrite append_assoc. }
    rewrite stem_trailing by done. cbn. by rewrite !bool_decide_true.
  - cbn [scan_cgroup_slices host_orphan_scanner]. rewrite (scan_depth_own own) by done.
    change (str_join "/" (base ++ [cgroup_slice_name prefix id])) with
      (under "" (base ++ [cgroup_slice_name prefix id])).
    apply walk_complete; [done|done| |lia].
    unfold cgroup_slice_name, vm_resource_sweep_prefix. rewrite <- append_assoc. apply starts_with_append.
Qed.

(** ** The two registries and the daemon *)

(** Asking both registries can only retain.  The answer used where the id
    space is unknown permits a removal exactly when both registries do, so it
    never grants what the precise check would refuse. *)
Theorem any_space_only_retains {CH : ClaimHost} vmids segids id :
  host_id_claim_any_space vmids segids id = NoLiveOwner ↔
  claim_state vmids id = NoLiveOwner ∧ claim_state segids id = NoLiveOwner.
Proof.
  unfold host_id_claim_any_space, strongest_claim.
  destruct (claim_state vmids id), (claim_state segids id); cbn; naive_solver.
Qed.

(** The daemon's pass spares its own VMs.  Whatever the claim registry says,
    a pass with a launch in flight removes nothing at all, and any other pass
    removes no namespace, slice, scratch directory or tap of a VM in the
    daemon's table. *)
Theorem daemon_pass_spares_table {CH : ClaimHost} prefix h vmid_claim segid_claim nl cg rm live id :
  valid_prefix prefix → (id <= u32_max)%N →
  let tr := outcome_trace
    (sweep_pass (host_orphan_scanner prefix h vmid_claim segid_claim) nl cg rm live) in
  ((0 < launches_in_flight live)%N → tr = []) ∧
  (id ∈ vmids live →
     RmNetns (netns_name prefix id) ∉ tr ∧ (∀ ns, RmLink ns (tap_name prefix id) ∉ tr) ∧
     (∀ stem, RmSlice (stem +:+ cgroup_slice_name prefix id) ∉ tr) ∧
     (∀ dir pid, RmScratch (dir, scratch_dir_name prefix pid id) ∉ tr)).
Proof.
  intros Hp Hid. unfold sweep_pass. destruct (N.ltb_spec 0 (launches_in_flight live)) as [Hl|Hl]; cbn zeta.
  { split; [done|]. intros _. cbn. split_and!; intros; apply not_elem_of_nil. }
  split; [lia|]. intros Hlive.
  by apply (spared_vm prefix h vmid_claim segid_claim nl cg rm (vmids live) (segids live)); auto.
Qed.

(** ** Concrete hosts *)

(** Pid 7 is alive and claims vmid 2; vmid 5 crashed and left everything. *)
Definition demo_host : host_view := {|
  netns_entries := Some ["vmcell-net-2"; "vmcell-net-5"; "vmcell-seg-2"; "docker0"; "acme-net-5"];
  temp_dir := "/tmp";
  temp_entries := Some [("vmcell-vm-99-5", true); ("vmcell-vm-7-2", true); ("vmcell-vm-99-6", false)];
  cgroup_root := CgDir [("user.slice", Some (CgDir
    [("user-1000.slice", Some (CgDir [("vmcell-vm-5", Some (CgDir [])); ("vmcell-vm-2", Some CgUnreadable)]))]))];
  proc_cgroup := Some "0::/user.slice/session-3.scope/supervisor";
|}.

Definition demo_netlink : Netlink :=
  {| delete_netns _ := true; list_links _ := Some ["lo"; "vmcell-br-2"; "vmcell-tap-5"; "vmcell-tap-2"];
     delete_link _ _ := true |}.
Definition demo_cgroup_fs : CgroupFs := {| delete_slice _ := true |}.
Definition demo_claimed : FsIdClaim := Some {[2%N := "7"]}.
Definition demo_scanner : OrphanScanner :=
  host_orphan_scanner (CH := demo_claims) "vmcell" demo_host demo_claimed demo_claimed.
Definition demo_sweep : sweeping :=
  sweep_orphans demo_scanner demo_netlink demo_cgroup_fs (λ _, RmOk) ∅ ∅.

(** The pass in full: the crashed VM's resources go, in order; the live one's
    stay; the live segment keeps its namespace but loses the dead member's
    tap. *)
Example demo_sweep_trace :
  trace demo_sweep =
    [RmNetns "vmcell-net-5"; RmLink "vmcell-seg-2" "vmcell-tap-5";
     RmSlice "user.slice/user-1000.slice/vmcell-vm-5"; RmScratch ("/tmp", "vmcell-vm-99-5")].
Proof. vm_compute. reflexivity. Qed.

Lemma protected_ids_never_swept_witness :
  RmNetns (netns_name "vmcell" 2) ∉ trace demo_sweep ∧
  RmNetns (segment_netns_name "vmcell" 2) ∉ trace demo_sweep.
Proof.
  destruct (protected_ids_never_swept (CH := demo_claims) "vmcell" demo_host demo_claimed demo_claimed
    demo_netlink demo_cgroup_fs (λ _, RmOk) ∅ ∅ 2) as [Hv Hs].
  - vm_compute. reflexivity.
  - discriminate.
  - split; [apply Hv|apply Hs]; right; vm_compute; discriminate.
Defined.

Lemma sweep_stays_in_fleet_witness : RmNetns (netns_name "acme" 5) ∉ trace demo_sweep.
Proof.
  apply (sweep_stays_in_fleet (CH := demo_claims) "vmcell" "acme" demo_host demo_claimed demo_claimed
    demo_netlink demo_cgroup_fs (λ _, RmOk) ∅ ∅ 5); [vm_compute; reflexivity..|discriminate].
Defined.

Lemma leaked_slice_is_swept_witness :
  RmSlice (str_join "/" (["user.slice"; "user-1000.slice"] ++ [cgroup_slice_name "vmcell" 5])) ∈
    trace demo_sweep.
Proof.
  apply (leaked_slice_is_swept (CH := demo_claims) "vmcell" demo_host demo_claimed demo_claimed
    demo_netlink demo_cgroup_fs (λ _, RmOk) ∅ ∅ ["user.slice"; "session-3.scope"]
    ["user.slice"; "user-1000.slice"] 5).
  - vm_compute. reflexivity.
  - discriminate.
  - refine (bool_decide_unpack _ _). vm_compute. exact I.
  - cbn. lia.
  - vm_compute. reflexivity.
  - cbn. lia.
  - refine (bool_decide_unpack _ _). vm_compute. exact I.
  - cbn. eexists. split; [left|]. cbn. eexists. split; [left|]. eexists. split; [left|]. exact I.
  - discriminate.
  - apply not_elem_of_empty.
  - vm_compute. reflexivity.
Defined.

Definition demo_live (launches : N) : LiveIds :=
  {| vmids := {[5%N]}; segids := ∅; launches_in_flight := launches |}.

Lemma daemon_pass_spares_table_witness :
  outcome_trace (sweep_pass demo_scanner demo_netlink demo_cgroup_fs (λ _, RmOk) (demo_live 1)) = [] ∧
  RmNetns (netns_name "vmcell" 5) ∉
    outcome_trace (sweep_pass demo_scanner demo_netlink demo_cgroup_fs (λ _, RmOk) (demo_live 0)).
Proof.
  split.
  - apply (daemon_pass_spares_table (CH := demo_claims) "vmcell" demo_host demo_claimed demo_claimed
      demo_netlink demo_cgroup_fs (λ _, RmOk) (demo_live 1) 5); [vm_compute; reflexivity|discriminate|].
    reflexivity.
  - apply (daemon_pass_spares_table (CH := demo_claims) "vmcell" demo_host demo_claimed demo_claimed
      demo_netlink demo_cgroup_fs (λ _, RmOk) (demo_live 0) 5); [vm_compute; reflexivity|discriminate|].
    cbn. by apply elem_of_singleton.
Defined.

(** ** A slice that stays is reported as removed

    [DefaultCgroupFs::delete_slice] answers [Ok] whatever [rmdir] answered, and
    the sweep believes it. *)

Definition default_cgroup_fs {CG : CgroupHost} (fs : cgfs) : CgroupFs :=
  {| delete_slice n := is_ok (Cgroup.delete_slice n fs).1 |}.

(** The kernel refuses to remove the slice: it has members. *)
Definition busy_kernel : CgroupHost := {|
  mkdir_fails _ := false; write_err _ _ := None; enable_effective _ _ := true;
  busy _ := true; plain_fs := false;
|}.
Definition busy_tree : cgfs := {| dirs := {["user.slice/user-1000.slice/vmcell-vm-5"]}; files := ∅ |}.

(** On a host whose kernel refuses the [rmdir] of a populated slice, the pass
    reports that slice as reclaimed while the slice is still there. *)
Theorem busy_slice_reported_removed :
  let name := "user.slice/user-1000.slice/vmcell-vm-5" in
  let s := sweep_orphans demo_scanner demo_netlink (default_cgroup_fs (CG := busy_kernel) busy_tree)
             (λ _, RmOk) ∅ ∅ in
  name ∈ r_cgroup_slices (report s) ∧
  (Cgroup.delete_slice (CH := busy_kernel) name busy_tree).2 = busy_tree ∧
  name ∈ dirs busy_tree.
Proof.
  cbn zeta. split_and!.
  - refine (bool_decide_unpack _ _). vm_compute. exact I.
  - vm_compute. reflexivity.
  - refine (bool_decide_unpack _ _). vm_compute. exact I.
Qed.
