(* ===== verification/NetAddr.v ===== *)
(** * Guest addresses

    Models the address maps of [crates/vmcell/src/net/mod.rs]: [ip_math] (a
    vmid's point-to-point /30 inside 10.200.0.0/16), [segment_ip_math] (a
    segment member's address inside 10.201.0.0/16) and [mac_math].  The [as u8]
    casts are written as the wrap-around they are. *)

From S2P Require Import Prelude Naming IdAlloc.

Definition THIRD_OCTET_SPACE : N := 254.
Definition SUBNETS_PER_THIRD_OCTET : N := 64.
Definition MAX_SEGMENT_SLOT : N := 253.

Definition Ipv4Addr : Set := N * N * N * N.
(** [Display] *)
Definition ip_to_string (a : Ipv4Addr) : string :=
  let '(w, x, y, z) := a in
  pretty w +:+ "." +:+ pretty x +:+ "." +:+ pretty y +:+ "." +:+ pretty z.

Lemma ip_graphic a : Forall is_graphic (bytes (ip_to_string a)).
Proof.
  destruct a as [[[w x] y] z]. unfold ip_to_string.
  do 3 (apply graphic_app; [apply pretty_graphic|]; apply graphic_lit_app; [reflexivity|]).
  apply pretty_graphic.
Qed.

Definition as_u8 (n : N) : N := (n mod 256)%N.

Inductive net_error := NetOutOfRange.

Definition dotted (octet host bits : N) (second : string) : string :=
  "10." +:+ second +:+ "." +:+ pretty octet +:+ "." +:+ pretty host +:+ "/" +:+ pretty bits.

Definition ip_math (vmid : N) : result net_error (Ipv4Addr * Ipv4Addr * string) :=
  if (vmid =? 0)%N || (MAX_VMID <? vmid)%N then Err NetOutOfRange else
  let octet := as_u8 (vmid mod THIRD_OCTET_SPACE + 1) in
  let sub := ((vmid - 1) / THIRD_OCTET_SPACE)%N in
  let base := (4 * sub)%N in
  let host := as_u8 (base + 1) in
  let guest := as_u8 (base + 2) in
  Ok ((10, 200, octet, host)%N, (10, 200, octet, guest)%N, dotted octet guest 30 "200").

Definition segment_ip_math (segid slot : N) : result net_error (Ipv4Addr * Ipv4Addr * string) :=
  if (segid =? 0)%N || (MAX_SEGMENT_ID <? segid)%N then Err NetOutOfRange else
  if (slot =? 0)%N || (MAX_SEGMENT_SLOT <? slot)%N then Err NetOutOfRange else
  let octet := as_u8 (segid mod THIRD_OCTET_SPACE + 1) in
  let host := as_u8 (slot + 1) in
  Ok ((10, 201, octet, 1)%N, (10, 201, octet, host)%N, dotted octet host 24 "201").

Definition mac_math (vmid : N) : result net_error string :=
  if (vmid =? 0)%N || (MAX_VMID <? vmid)%N then Err NetOutOfRange else
  Ok ("02:00:" +:+ hex2 (N.land (N.shiftr vmid 24) 255) +:+ ":" +:+
      hex2 (N.land (N.shiftr vmid 16) 255) +:+ ":" +:+
      hex2 (N.land (N.shiftr vmid 8) 255) +:+ ":" +:+ hex2 (N.land vmid 255)).

(** ** Lemmas *)

Lemma range_guard hi x : (1 <= x <= hi)%N → (x =? 0)%N || (hi <? x)%N = false.
Proof. intros. rewrite orb_false_iff, N.eqb_neq, N.ltb_ge. lia. Qed.

(** The two coordinates of a vmid, inside their dimensions. *)
Lemma vmid_coordinates vmid :
  (1 <= vmid <= MAX_VMID)%N →
  (vmid mod 254 < 254)%N ∧ ((vmid - 1) / 254 <= 39)%N.
Proof.
  intros [H1 H2]. split; [by apply N.mod_lt|].
  unfold MAX_VMID in *. apply N.lt_succ_r. apply N.Div0.div_lt_upper_bound. lia.
Qed.

(** The coordinates determine the vmid. *)
Lemma vmid_coordinates_inj a b :
  (1 <= a)%N → (1 <= b)%N → (a mod 254 = b mod 254)%N → ((a - 1) / 254 = (b - 1) / 254)%N → a = b.
Proof.
  intros Ha Hb Hm Hd.
  pose proof (N.div_mod' a 254) as Ea. pose proof (N.div_mod' b 254) as Eb.
  pose proof (N.div_mod' (a - 1) 254) as Fa. pose proof (N.div_mod' (b - 1) 254) as Fb.
  pose proof (N.mod_lt (a - 1) 254 ltac:(done)) as H. pose proof (N.mod_lt (b - 1) 254 ltac:(done)) as H0.
  rewrite Hm in Ea. rewrite Hd in Fa. clear Hm Hd.
  revert Ea Eb Fa Fb H H0. generalize (a / 254)%N (b / 254)%N (b mod 254)%N ((b - 1) / 254)%N
    ((a - 1) mod 254)%N ((b - 1) mod 254)%N. lia.
Qed.

Lemma ip_math_Ok vmid :
  (1 <= vmid <= MAX_VMID)%N →
  let octet := (vmid mod 254 + 1)%N in
  let base := (4 * ((vmid - 1) / 254))%N in
  ip_math vmid = Ok ((10, 200, octet, base + 1)%N, (10, 200, octet, base + 2)%N, dotted octet (base + 2) 30 "200").
Proof.
  intros Hv. destruct (vmid_coordinates vmid Hv) as [Hm Hs]. unfold ip_math.
  rewrite range_guard by done. unfold as_u8, THIRD_OCTET_SPACE in *. cbn zeta.
  revert Hm Hs. generalize (vmid mod 254)%N ((vmid - 1) / 254)%N. intros m s Hm Hs.
  by rewrite !N.mod_small by lia.
Qed.

Lemma segment_ip_math_Ok segid slot :
  (1 <= segid <= MAX_SEGMENT_ID)%N → (1 <= slot <= MAX_SEGMENT_SLOT)%N →
  let octet := (segid mod 254 + 1)%N in
  segment_ip_math segid slot =
    Ok ((10, 201, octet, 1)%N, (10, 201, octet, slot + 1)%N, dotted octet (slot + 1) 24 "201").
Proof.
  intros Hs Hk. unfold segment_ip_math. rewrite !range_guard by done.
  assert (segid mod 254 < 254)%N as Hm by (by apply N.mod_lt).
  unfold as_u8, THIRD_OCTET_SPACE, MAX_SEGMENT_SLOT in *. cbn zeta.
  revert Hm. generalize (segid mod 254)%N. intros m Hm. by rewrite !N.mod_small by lia.
Qed.

Lemma ip_math_inv vmid r : ip_math vmid = Ok r → (1 <= vmid <= MAX_VMID)%N.
Proof.
  unfold ip_math. destruct ((vmid =? 0)%N || (MAX_VMID <? vmid)%N) eqn:E; [done|].
  intros _. apply orb_false_iff in E as [?%N.eqb_neq ?%N.ltb_ge]. lia.
Qed.

Lemma segment_ip_math_inv segid slot r :
  segment_ip_math segid slot = Ok r →
  (1 <= segid <= MAX_SEGMENT_ID)%N ∧ (1 <= slot <= MAX_SEGMENT_SLOT)%N.
Proof.
  unfold segment_ip_math. destruct ((segid =? 0)%N || (MAX_SEGMENT_ID <? segid)%N) eqn:E; [done|].
  destruct ((slot =? 0)%N || (MAX_SEGMENT_SLOT <? slot)%N) eqn:E2; [done|].
  intros _. apply orb_false_iff in E as [?%N.eqb_neq ?%N.ltb_ge], E2 as [?%N.eqb_neq ?%N.ltb_ge]. lia.
Qed.

(** ** The address plan *)

Definition ip_bits (a : Ipv4Addr) : N :=
  let '(w, x, y, z) := a in (w * 16777216 + x * 65536 + y * 256 + z)%N.

(** The network an address belongs to under a prefix length, and its number inside it. *)
Definition subnet_of (len : N) (a : Ipv4Addr) : N := (ip_bits a / 2 ^ (32 - len))%N.
Definition host_part (len : N) (a : Ipv4Addr) : N := (ip_bits a mod 2 ^ (32 - len))%N.

Definition is_octets (a : Ipv4Addr) : Prop :=
  let '(w, x, y, z) := a in (w < 256 ∧ x < 256 ∧ y < 256 ∧ z < 256)%N.

Lemma subnet30 w x y s k :
  (k < 4)%N → subnet_of 30 (w, x, y, 4 * s + k)%N = (w * 4194304 + x * 16384 + y * 64 + s)%N.
Proof.
  intros Hk. unfold subnet_of, ip_bits. change (2 ^ (32 - 30))%N with 4%N.
  replace (w * 16777216 + x * 65536 + y * 256 + (4 * s + k))%N
    with (k + (w * 4194304 + x * 16384 + y * 64 + s) * 4)%N by lia.
  rewrite N.div_add, N.div_small by done. lia.
Qed.

Lemma host30 w x y s k : (k < 4)%N → host_part 30 (w, x, y, 4 * s + k)%N = k.
Proof.
  intros Hk. unfold host_part, ip_bits. change (2 ^ (32 - 30))%N with 4%N.
  replace (w * 16777216 + x * 65536 + y * 256 + (4 * s + k))%N
    with (k + (w * 4194304 + x * 16384 + y * 64 + s) * 4)%N by lia.
  by rewrite N.Div0.mod_add, N.mod_small.
Qed.

Lemma subnet24 w x y k : (k < 256)%N → subnet_of 24 (w, x, y, k) = (w * 65536 + x * 256 + y)%N.
Proof.
  intros Hk. unfold subnet_of, ip_bits. change (2 ^ (32 - 24))%N with 256%N.
  replace (w * 16777216 + x * 65536 + y * 256 + k)%N
    with (k + (w * 65536 + x * 256 + y) * 256)%N by lia.
  rewrite N.div_add, N.div_small by done. lia.
Qed.

Lemma host24 w x y k : (k < 256)%N → host_part 24 (w, x, y, k) = k.
Proof.
  intros Hk. unfold host_part, ip_bits. change (2 ^ (32 - 24))%N with 256%N.
  replace (w * 16777216 + x * 65536 + y * 256 + k)%N
    with (k + (w * 65536 + x * 256 + y) * 256)%N by lia.
  by rewrite N.Div0.mod_add, N.mod_small.
Qed.

Lemma subnet16 w x y k :
  (y < 256)%N → (k < 256)%N → subnet_of 16 (w, x, y, k) = (w * 256 + x)%N.
Proof.
  intros Hy Hk. unfold subnet_of, ip_bits. change (2 ^ (32 - 16))%N with 65536%N.
  replace (w * 16777216 + x * 65536 + y * 256 + k)%N
    with ((y * 256 + k) + (w * 256 + x) * 65536)%N by lia.
  rewrite N.div_add by done. rewrite N.div_small by lia. lia.
Qed.

Lemma ip_math_subnet vmid h g c :
  ip_math vmid = Ok (h, g, c) →
  (1 <= vmid <= MAX_VMID)%N ∧
  h = (10, 200, vmid mod 254 + 1, 4 * ((vmid - 1) / 254) + 1)%N ∧
  g = (10, 200, vmid mod 254 + 1, 4 * ((vmid - 1) / 254) + 2)%N.
Proof.
  intros H. pose proof (ip_math_inv _ _ H) as Hv. rewrite (ip_math_Ok _ Hv) in H. by simplify_eq/=.
Qed.

Lemma subnet30_vmid a b :
  (1 <= a <= MAX_VMID)%N → (1 <= b <= MAX_VMID)%N →
  (10 * 4194304 + 200 * 16384 + (a mod 254 + 1) * 64 + (a - 1) / 254 =
   10 * 4194304 + 200 * 16384 + (b mod 254 + 1) * 64 + (b - 1) / 254)%N → a = b.
Proof.
  intros Ha Hb E. destruct (vmid_coordinates a Ha) as [Ma Sa], (vmid_coordinates b Hb) as [Mb Sb].
  apply vmid_coordinates_inj; [lia..| |]; revert E Ma Sa Mb Sb;
    generalize (a mod 254)%N (b mod 254)%N ((a - 1) / 254)%N ((b - 1) / 254)%N; lia.
Qed.

(** The VM address plan.  An in-range vmid gets a host and a guest address
    that are the two usable addresses of one /30 inside 10.200.0.0/16 (host
    part 1 and 2, so neither the network nor the broadcast address), in a
    third octet between 1 and 254; two vmids whose /30s coincide are the same
    vmid; and a vmid is refused exactly when it is outside [1..=MAX_VMID]. *)
Theorem vm_address_plan vmid :
  (ip_math vmid = Err NetOutOfRange ↔ ¬ (1 <= vmid <= MAX_VMID)%N) ∧
  ∀ h g c, ip_math vmid = Ok (h, g, c) →
    is_octets h ∧ is_octets g ∧ subnet_of 16 g = (10 * 256 + 200)%N ∧
    subnet_of 30 h = subnet_of 30 g ∧ host_part 30 h = 1%N ∧ host_part 30 g = 2%N ∧
    (1 <= host_part 24 h)%N ∧ (host_part 24 g <= 254)%N ∧
    ∀ vmid' h' g' c', ip_math vmid' = Ok (h', g', c') →
      subnet_of 30 g = subnet_of 30 g' → vmid = vmid'.
Proof.
  split.
  - split; [intros H Hv; by rewrite (ip_math_Ok _ Hv) in H|].
    intros Hv. unfold ip_math.
    destruct ((vmid =? 0)%N || (MAX_VMID <? vmid)%N) eqn:E; [done|].
    apply orb_false_iff in E as [?%N.eqb_neq ?%N.ltb_ge]. lia.
  - intros h g c H. destruct (ip_math_subnet _ _ _ _ H) as (Hv & -> & ->).
    destruct (vmid_coordinates vmid Hv) as [Hm Hs].
    rewrite subnet16 by (revert Hm Hs; generalize (vmid mod 254)%N ((vmid - 1) / 254)%N; lia).
    rewrite !subnet30, !host30 by done.
    rewrite !host24 by (revert Hs; generalize ((vmid - 1) / 254)%N; lia).
    split_and!; try done; try (revert Hm Hs; generalize (vmid mod 254)%N ((vmid - 1) / 254)%N; cbn; lia).
    intros v' h' g' c' H' E. destruct (ip_math_subnet _ _ _ _ H') as (Hv' & -> & ->).
    rewrite !subnet30 in E by done. by apply subnet30_vmid.
Qed.

Lemma segment_ip_math_subnet segid slot gw m c :
  segment_ip_math segid slot = Ok (gw, m, c) →
  (1 <= segid <= MAX_SEGMENT_ID)%N ∧ (1 <= slot <= MAX_SEGMENT_SLOT)%N ∧
  gw = (10, 201, segid mod 254 + 1, 1)%N ∧ m = (10, 201, segid mod 254 + 1, slot + 1)%N.
Proof.
  intros H. destruct (segment_ip_math_inv _ _ _ H) as [Hs Hk].
  rewrite (segment_ip_math_Ok _ _ Hs Hk) in H. by simplify_eq/=.
Qed.

Lemma segid_octet_inj a b :
  (1 <= a <= MAX_SEGMENT_ID)%N → (1 <= b <= MAX_SEGMENT_ID)%N → (a mod 254 = b mod 254)%N → a = b.
Proof.
  intros Ha Hb E. apply vmid_coordinates_inj; [lia..|done|].
  unfold MAX_SEGMENT_ID in *. rewrite !N.div_small by lia. done.
Qed.

(** The segment address plan.  A member's address is a host address of its
    segment's /24 (never the gateway, the network or the broadcast address);
    two members with the same address are the same slot of the same segment;
    two segments that share a /24 are the same segment; and no segment
    address, member or gateway, ever equals a VM's own host or guest address. *)
Theorem segment_address_plan segid slot gw m c :
  segment_ip_math segid slot = Ok (gw, m, c) →
  is_octets m ∧ subnet_of 24 m = subnet_of 24 gw ∧ host_part 24 gw = 1%N ∧
  (2 <= host_part 24 m <= 254)%N ∧
  (∀ segid' slot' gw' m' c', segment_ip_math segid' slot' = Ok (gw', m', c') →
    (subnet_of 24 m = subnet_of 24 m' → segid = segid') ∧ (m = m' → segid = segid' ∧ slot = slot')) ∧
  (∀ vmid h g c', ip_math vmid = Ok (h, g, c') → h ≠ m ∧ g ≠ m ∧ h ≠ gw ∧ g ≠ gw).
Proof.
  intros H. destruct (segment_ip_math_subnet _ _ _ _ _ H) as (Hs & Hk & -> & ->).
  assert (segid mod 254 < 254)%N as Hm by (by apply N.mod_lt). unfold MAX_SEGMENT_SLOT in Hk.
  rewrite !subnet24, !host24 by lia.
  split_and!; try done; try lia.
  - revert Hm. generalize (segid mod 254)%N. cbn. lia.
  - intros segid' slot' gw' m' c' H'.
    destruct (segment_ip_math_subnet _ _ _ _ _ H') as (Hs' & Hk' & -> & ->).
    unfold MAX_SEGMENT_SLOT in Hk'. rewrite !subnet24 by lia. split.
    + intros E. apply segid_octet_inj; [done..|].
      revert E. generalize (segid mod 254)%N (segid' mod 254)%N. lia.
    + intros [= E1 E2]. split; [apply segid_octet_inj; [done..|]|lia].
      revert E1. generalize (segid mod 254)%N (segid' mod 254)%N. lia.
  - intros vmid h g c' H'. destruct (ip_math_subnet _ _ _ _ H') as (_ & -> & ->). by split_and!.
Qed.

(** The members of the last segment, at the last slot. *)
Lemma segment_address_plan_witness :
  segment_ip_math 254 253 = Ok ((10, 201, 1, 1)%N, (10, 201, 1, 254)%N, "10.201.1.254/24") ∧
  is_octets (10, 201, 1, 254)%N.
Proof.
  assert (segment_ip_math 254 253 = Ok ((10, 201, 1, 1)%N, (10, 201, 1, 254)%N, "10.201.1.254/24"))
    as H by (vm_compute; reflexivity).
  split; [exact H|]. exact (proj1 (segment_address_plan _ _ _ _ _ H)).
Defined.

Lemma byte_of v k : (N.land (N.shiftr v k) 255 < 256)%N.
Proof. change 255%N with (N.ones 8). rewrite N.land_ones. by apply N.mod_lt. Qed.

Lemma hex2_app_inj x y r r' :
  (x < 256)%N → (y < 256)%N → hex2 x +:+ r = hex2 y +:+ r' → x = y ∧ r = r'.
Proof.
  intros Hx Hy E. unfold hex2 in E. cbn [String.append] in E.
  injection E as Hd Hm Hr. split; [|exact Hr]. apply hex2_inj; [done..|].
  unfold hex2. by rewrite Hd, Hm.
Qed.

Lemma low_bytes v :
  (v < 65536)%N → v = (256 * N.land (N.shiftr v 8) 255 + N.land v 255)%N.
Proof.
  intros Hv. change 255%N with (N.ones 8). rewrite !N.land_ones, N.shiftr_div_pow2.
  change (2 ^ 8)%N with 256%N. rewrite (N.mod_small (v / 256)).
  - apply N.div_mod'.
  - by apply N.Div0.div_lt_upper_bound.
Qed.

(** Two VMs with the same MAC are the same vmid, and a vmid has a MAC
    exactly when it has an address. *)
Theorem mac_identifies_vmid a :
  ((∃ m, mac_math a = Ok m) ↔ (∃ r, ip_math a = Ok r)) ∧
  ∀ b m, mac_math a = Ok m → mac_math b = Ok m → a = b.
Proof.
  split; [unfold mac_math, ip_math; case_match; split; intros [? [=]]; by eexists|].
  intros b m. unfold mac_math. case_match eqn:Ga; [done|]. case_match eqn:Gb; [done|].
  apply orb_false_iff in Ga as [?%N.eqb_neq ?%N.ltb_ge], Gb as [?%N.eqb_neq ?%N.ltb_ge].
  unfold MAX_VMID in *. intros Ha Hb. rewrite <- Hb in Ha.
  apply (f_equal (λ r, match r with Ok s => s | Err _ => "" end)) in Ha. cbv beta iota in Ha.
  apply (inj (String.append "02:00:")) in Ha as E.
  apply hex2_app_inj in E as [_ E]; [|apply byte_of..]. apply (inj (String.append ":")) in E.
  apply hex2_app_inj in E as [_ E]; [|apply byte_of..]. apply (inj (String.append ":")) in E.
  apply hex2_app_inj in E as [E1 E]; [|apply byte_of..]. apply (inj (String.append ":")) in E.
  apply hex2_inj in E; [|apply (byte_of _ 0)..].
  rewrite (low_bytes a), (low_bytes b) by lia. congruence.
Qed.
