(* ===== verification/Tap.v ===== *)
(** * Namespaces, taps and bridges

    Models [crates/vmcell/src/net/tap.rs]: the [Netlink] seam with the contract
    its documentation states, the production [RtNetlink] that implements it
    over the kernel's calls, and [NetNamespace], the per-VM namespace, with the
    nftables rulesets it renders.

    The kernel's network state is a map from a namespace to its links.  Every
    system call can fail at any time: [nl_fails] is asked with the number of
    the call and what it does, so a theorem over all [NetHost]s covers every
    pattern of failures.  A call that fails changes nothing.  An interface
    index is the interface's name. *)

From S2P Require Import Prelude Naming IdAlloc NetAddr.

(** ** The kernel *)

Record link := {
  controller : option string;
  addresses : list (Ipv4Addr * N);
  is_up : bool;
}.

Record netns := {
  links : gmap string link;
  tproxy_rule : bool;
  tproxy_route : bool;
  nft_rules : list string;     (** the rulesets loaded, in order *)
}.

Notation spaces := (gmap string netns).

Record kernel := { nets : spaces; calls : nat }.

Inductive nl_op :=
  | NsAdd | NsGet | NsRemove | NsEnter
  | TapCreate | TapPersist
  | LinkIndex | LinkUp | LinkController | LinkDelete | LinkDump | BridgeAdd | AddrAdd
  | RuleAdd | RouteAdd | NftApply | NftWait.

Class NetHost := {
  nl_fails : nat → nl_op → bool;
  (** what [netns_rs::NetNs::new] makes of a name that exists: a refusal or a namespace *)
  ns_existing : netns → option netns;
}.

Inductive nl_error :=
  | NlNetwork (op : nl_op)      (** [Error::Network] from a call *)
  | NlRange                     (** [Error::Network] from the address maps *)
  | NlSubprocess.

(** ** Kernel calls as a state and error monad *)

Definition M (A : Type) : Type := kernel → result nl_error A * kernel.

#[export] Instance M_ret : MRet M := λ A a k, (Ok a, k).
#[export] Instance M_bind : MBind M := λ A B f m k,
  match m k with
  | (Ok a, k') => f a k'
  | (Err e, k') => (Err e, k')
  end.

Definition lift {E A} (f : E → nl_error) (r : result E A) : M A :=
  λ k, (match r with Ok a => Ok a | Err e => Err (f e) end, k).

(** Runs [h] when [m] fails and returns [m]'s error; [h]'s own failure is only
    logged. *)
Definition on_error {A B} (m : M A) (h : M B) : M A := λ k,
  match m k with
  | (Ok a, k') => (Ok a, k')
  | (Err e, k') => (Err e, (h k').2)
  end.

Definition empty_ns : netns := {|
  links := {["lo" := {| controller := None; addresses := []; is_up := false |}]};
  tproxy_rule := false; tproxy_route := false; nft_rules := [] |}.

Definition with_links (s : netns) (l : gmap string link) : netns := {|
  links := l; tproxy_rule := tproxy_rule s; tproxy_route := tproxy_route s; nft_rules := nft_rules s |}.

Section calls.
Context {NH : NetHost}.

(** One system call. *)
Definition sys {A} (op : nl_op) (f : spaces → option (A * spaces)) : M A := λ k,
  let k1 := {| nets := nets k; calls := S (calls k) |} in
  if nl_fails (calls k) op then (Err (NlNetwork op), k1) else
  match f (nets k) with
  | None => (Err (NlNetwork op), k1)
  | Some (a, sp) => (Ok a, {| nets := sp; calls := S (calls k) |})
  end.

(** A call on the links of a namespace. *)
Definition sys_in {A} (op : nl_op) (ns : string) (f : netns → option (A * netns)) : M A :=
  sys op (λ sp, s ← sp !! ns; '(a, s') ← f s; Some (a, <[ns := s']> sp)).

Definition in_netns {A} (ns : string) (f : M A) : M A :=
  _ ← sys NsEnter (λ sp, _ ← sp !! ns; Some (tt, sp)); f.

Definition link_index (ns name : string) : M string :=
  sys_in LinkIndex ns (λ s, _ ← links s !! name; Some (name, s)).

Definition set_link (s : netns) (name : string) (f : link → link) : option (unit * netns) :=
  l ← links s !! name; Some (tt, with_links s (<[name := f l]> (links s))).

Definition link_up (ns index : string) : M unit :=
  sys_in LinkUp ns (λ s, set_link s index (λ l,
    {| controller := controller l; addresses := addresses l; is_up := true |})).

Definition address_add (ns index : string) (ip : Ipv4Addr) (len : N) : M unit :=
  sys_in AddrAdd ns (λ s, set_link s index (λ l,
    {| controller := controller l; addresses := addresses l ++ [(ip, len)]; is_up := is_up l |})).

Definition set_controller (ns index bridge : string) : M unit :=
  sys_in LinkController ns (λ s, set_link s index (λ l,
    {| controller := Some bridge; addresses := addresses l; is_up := true |})).

(** Only taps are deleted, and a tap controls no other link. *)
Definition link_del (ns index : string) : M unit :=
  sys_in LinkDelete ns (λ s, _ ← links s !! index; Some (tt, with_links s (delete index (links s)))).

Definition new_link : link := {| controller := None; addresses := []; is_up := false |}.

Definition link_add (op : nl_op) (ns name : string) : M unit :=
  sys_in op ns (λ s,
    match links s !! name with
    | Some _ => None
    | None => Some (tt, with_links s (<[name := new_link]> (links s)))
    end).

(** ** [RtNetlink] *)

(** Closing the only descriptor of a tap that is not persistent removes it. *)
Definition close_tap (ns tap : string) : M unit := λ k,
  (Ok tt, {| nets := alter (λ s, with_links s (delete tap (links s))) ns (nets k); calls := calls k |}).

Definition create_persistent_tap_in_ns (ns tap : string) : M unit :=
  _ ← in_netns ns (link_add TapCreate ns tap);
  on_error (sys TapPersist (λ sp, Some (tt, sp))) (close_tap ns tap).

Definition rt_add_netns (name : string) : M unit :=
  sys NsAdd (λ sp,
    match sp !! name with
    | None => Some (tt, <[name := empty_ns]> sp)
    | Some s => s' ← ns_existing s; Some (tt, <[name := s']> sp)
    end).

Definition rt_setup_tap (ns tap : string) (vmid : N) : M unit :=
  _ ← create_persistent_tap_in_ns ns tap;
  '(ip, _, _) ← lift (λ _, NlRange) (ip_math vmid);
  in_netns ns
    (idx ← link_index ns tap;
     _ ← address_add ns idx ip 30;
     _ ← link_up ns idx;
     lo ← link_index ns "lo";
     link_up ns lo).

Definition rt_create_bridge (ns bridge : string) (gateway : Ipv4Addr) (prefix_len : N) : M unit :=
  in_netns ns
    (_ ← link_add BridgeAdd ns bridge;
     br ← link_index ns bridge;
     _ ← address_add ns br gateway prefix_len;
     _ ← link_up ns br;
     lo ← link_index ns "lo";
     link_up ns lo).

Definition rt_delete_link (ns name : string) : M unit :=
  in_netns ns (idx ← link_index ns name; link_del ns idx).

Definition rt_setup_tap_on_bridge (ns tap bridge : string) : M unit :=
  _ ← create_persistent_tap_in_ns ns tap;
  on_error
    (in_netns ns
      (t ← link_index ns tap;
       br ← link_index ns bridge;
       set_controller ns t br))
    (rt_delete_link ns tap).

Definition rt_list_links (ns : string) : M (list string) :=
  in_netns ns (sys_in LinkDump ns (λ s, Some ((map_to_list (links s)).*1, s))).

Definition rt_delete_netns (name : string) : M unit :=
  _ ← sys NsGet (λ sp, _ ← sp !! name; Some (tt, sp));
  sys NsRemove (λ sp, Some (tt, delete name sp)).

Definition rt_setup_tproxy_routing (ns : string) : M unit :=
  in_netns ns
    (_ ← link_index ns "lo";
     _ ← sys_in RuleAdd ns (λ s, Some (tt, {|
       links := links s; tproxy_rule := true; tproxy_route := tproxy_route s; nft_rules := nft_rules s |}));
     sys_in RouteAdd ns (λ s, Some (tt, {|
       links := links s; tproxy_rule := tproxy_rule s; tproxy_route := true; nft_rules := nft_rules s |}))).

(** [DefaultNftApplier]: [nft -f -] loads a ruleset whole or not at all. *)
Definition apply_rules (ns rules : string) : M unit := λ k,
  match in_netns ns
    (_ ← sys_in NftApply ns (λ s, Some (tt, {|
       links := links s; tproxy_rule := tproxy_rule s; tproxy_route := tproxy_route s;
       nft_rules := nft_rules s ++ [rules] |}));
     sys NftWait (λ sp, Some (tt, sp))) k with
  | (Err (NlNetwork NsEnter), k') => (Err (NlNetwork NsEnter), k')
  | (Err _, k') => (Err NlSubprocess, k')
  | rk => rk
  end.
End calls.

(** ** The [Netlink] seam

    The operations and what the trait's documentation promises of them.  The
    one exception to "on error it leaves behind exactly what it found" is a
    clean-up that itself fails. *)

Definition attached (bridge : string) : link :=
  {| controller := Some bridge; addresses := []; is_up := true |}.

(** Only the namespace [ns] may differ. *)
Definition only_ns (ns : string) (sp sp' : spaces) : Prop := ∀ n, n ≠ ns → sp' !! n = sp !! n.

(** ... and it is not created. *)
Definition inside (ns : string) (sp sp' : spaces) : Prop :=
  only_ns ns sp sp' ∧ (sp !! ns = None → sp' !! ns = None).

Class Netlink := {
  add_netns : string → M unit;
  setup_tap : string → string → N → M unit;
  create_bridge : string → string → Ipv4Addr → N → M unit;
  setup_tap_on_bridge : string → string → string → M unit;
  delete_link : string → string → M unit;
  delete_netns : string → M unit;
  setup_tproxy_routing : string → M unit;

  add_netns_law name k : match add_netns name k with
    | (Ok _, k') => is_Some (nets k' !! name) ∧ only_ns name (nets k) (nets k') ∧
        (nets k !! name = None → nets k' = <[name := empty_ns]> (nets k))
    | (Err _, k') => nets k' = nets k
    end;
  setup_tap_law ns tap vmid k : match setup_tap ns tap vmid k with
    | (Ok _, k') => only_ns ns (nets k) (nets k') ∧
        ∃ s s' h g c, nets k !! ns = Some s ∧ nets k' !! ns = Some s' ∧
          ip_math vmid = Ok (h, g, c) ∧ links s !! tap = None ∧
          links s' !! tap = Some {| controller := None; addresses := [(h, 30%N)]; is_up := true |}
    | (Err _, k') => inside ns (nets k) (nets k')
    end;
  create_bridge_law ns bridge gateway len k : match create_bridge ns bridge gateway len k with
    | (Ok _, k') => only_ns ns (nets k) (nets k') ∧
        ∃ s s', nets k !! ns = Some s ∧ nets k' !! ns = Some s' ∧ links s !! bridge = None ∧
          links s' !! bridge = Some {| controller := None; addresses := [(gateway, len)]; is_up := true |} ∧
          ∀ l, l ≠ bridge → l ≠ "lo" → links s' !! l = links s !! l
    | (Err _, k') => inside ns (nets k) (nets k')
    end;
  setup_tap_on_bridge_law ns tap bridge k : match setup_tap_on_bridge ns tap bridge k with
    | (Ok _, k') => ∃ s, nets k !! ns = Some s ∧ links s !! tap = None ∧
        (tap ≠ bridge → is_Some (links s !! bridge)) ∧
        nets k' = <[ns := with_links s (<[tap := attached bridge]> (links s))]> (nets k)
    | (Err _, k') => nets k' = nets k ∨
        ∃ s l, nets k !! ns = Some s ∧ links s !! tap = None ∧
          nets k' = <[ns := with_links s (<[tap := l]> (links s))]> (nets k)
    end;
  delete_link_law ns l k : match delete_link ns l k with
    | (Ok _, k') => ∃ s, nets k !! ns = Some s ∧ is_Some (links s !! l) ∧
        nets k' = <[ns := with_links s (delete l (links s))]> (nets k)
    | (Err _, k') => nets k' = nets k
    end;
  delete_netns_law name k : match delete_netns name k with
    | (Ok _, k') => nets k' = delete name (nets k)
    | (Err _, k') => nets k' = nets k
    end;
  setup_tproxy_routing_law ns k : match setup_tproxy_routing ns k with
    | (Ok _, k') => ∃ s, nets k !! ns = Some s ∧
        nets k' = <[ns := {| links := links s; tproxy_rule := true; tproxy_route := true;
                             nft_rules := nft_rules s |}]> (nets k)
    | (Err _, k') => only_ns ns (nets k) (nets k') ∧
        (links <$> nets k' !! ns) = (links <$> nets k !! ns)
    end;
}.

(** ** Reasoning about calls: a weakest precondition on the kernel's state *)

Definition wp {A} (m : M A) (Q : A → spaces → Prop) (E : spaces → Prop) (sp : spaces) : Prop :=
  ∀ k, nets k = sp →
    match m k with (Ok a, k') => Q a (nets k') | (Err _, k') => E (nets k') end.

Section wp.
Context {NH : NetHost}.

Lemma wp_bind {A B} (m : M A) (f : A → M B) Q E sp :
  wp m (λ a, wp (f a) Q E) E sp → wp (m ≫= f) Q E sp.
Proof.
  intros H k Hk. specialize (H k Hk). unfold mbind, M_bind.
  destruct (m k) as [[a|e] k']; [|done]. by apply H.
Qed.

Lemma wp_sys {A} op (f : spaces → option (A * spaces)) Q (E : spaces → Prop) sp :
  E sp → (∀ a sp', f sp = Some (a, sp') → Q a sp') → wp (sys op f) Q E sp.
Proof.
  intros HE HQ k <-. unfold sys. destruct (nl_fails _ _); [done|].
  destruct (f (nets k)) as [[a sp']|] eqn:Hf; [by apply HQ|done].
Qed.

Lemma wp_sys_in {A} op ns (f : netns → option (A * netns)) Q (E : spaces → Prop) sp :
  E sp → (∀ s a s', sp !! ns = Some s → f s = Some (a, s') → Q a (<[ns := s']> sp)) →
  wp (sys_in op ns f) Q E sp.
Proof.
  intros HE HQ. apply wp_sys; [done|]. intros a sp' H.
  destruct (sp !! ns) as [s|] eqn:Hs; [|done]. cbn in H.
  destruct (f s) as [[b s']|] eqn:Hf; [|done]. cbn in H. simplify_eq. by eapply HQ.
Qed.

Lemma wp_in {A} ns (m : M A) Q (E : spaces → Prop) sp :
  E sp → wp m Q E sp → wp (in_netns ns m) Q E sp.
Proof.
  intros HE Hm. apply wp_bind, wp_sys; [done|]. intros [] sp' H.
  destruct (sp !! ns); [|done]. cbn in H. by simplify_eq.
Qed.

Lemma wp_on_error {A B} (m : M A) (h : M B) Q (E : spaces → Prop) sp :
  wp m Q (wp h (λ _, E) E) sp → wp (on_error m h) Q E sp.
Proof.
  intros H k Hk. specialize (H k Hk). unfold on_error.
  destruct (m k) as [[a|e] k']; [done|]. specialize (H k' eq_refl).
  by destruct (h k') as [[]].
Qed.

Lemma wp_lift {B A} (f : B → nl_error) (r : result B A) Q (E : spaces → Prop) sp :
  (∀ a, r = Ok a → Q a sp) → (∀ e, r = Err e → E sp) → wp (lift f r) Q E sp.
Proof. intros HQ HE k <-. unfold lift. destruct r; cbn; eauto. Qed.

(** Links are updated in place. *)
Lemma set_link_Some s name f u s' :
  set_link s name f = Some (u, s') →
  ∃ l, links s !! name = Some l ∧ s' = with_links s (<[name := f l]> (links s)).
Proof. unfold set_link. destruct (links s !! name) as [l|]; [|done]. intros [= <-]. eauto. Qed.

Lemma with_links_twice s a b : with_links (with_links s a) b = with_links s b.
Proof. done. Qed.

Lemma with_links_id s : with_links s (links s) = s.
Proof. by destruct s. Qed.
End wp.

Section rt_wp.
Context {NH : NetHost}.

Lemma wp_link_index ns name Q (E : spaces → Prop) sp :
  E sp →
  (∀ s l, sp !! ns = Some s → links s !! name = Some l → Q name sp) →
  wp (link_index ns name) Q E sp.
Proof.
  intros HE HQ. apply wp_sys_in; [done|]. intros s a s' Hs H.
  destruct (links s !! name) as [l|] eqn:Hl; [|done]. cbn in H. simplify_eq.
  rewrite insert_id by done. by eapply HQ.
Qed.

Lemma wp_set op ns name f Q (E : spaces → Prop) sp :
  E sp →
  (∀ s l, sp !! ns = Some s → links s !! name = Some l →
    Q tt (<[ns := with_links s (<[name := f l]> (links s))]> sp)) →
  wp (sys_in op ns (λ s, set_link s name f)) Q E sp.
Proof.
  intros HE HQ. apply wp_sys_in; [done|]. intros s [] s' Hs H.
  apply set_link_Some in H as (l & Hl & ->). by apply HQ.
Qed.

Lemma wp_link_add op ns name Q (E : spaces → Prop) sp :
  E sp →
  (∀ s, sp !! ns = Some s → links s !! name = None →
    Q tt (<[ns := with_links s (<[name := new_link]> (links s))]> sp)) →
  wp (link_add op ns name) Q E sp.
Proof.
  intros HE HQ. apply wp_sys_in; [done|]. intros s [] s' Hs H.
  destruct (links s !! name) eqn:Hl; [done|]. simplify_eq. by apply HQ.
Qed.

(** Deleting the link that was just added restores the namespace. *)
Lemma undo_add (sp : spaces) ns s tap l :
  sp !! ns = Some s → links s !! tap = None →
  <[ns := with_links (with_links s (<[tap := l]> (links s))) (delete tap (<[tap := l]> (links s)))]> sp = sp.
Proof.
  intros Hs Ht. rewrite with_links_twice, delete_insert_eq.
  rewrite delete_id, with_links_id by done. by apply insert_id.
Qed.

Lemma wp_create_tap ns tap Q (E : spaces → Prop) sp :
  E sp →
  (∀ s, sp !! ns = Some s → links s !! tap = None →
    Q tt (<[ns := with_links s (<[tap := new_link]> (links s))]> sp)) →
  wp (create_persistent_tap_in_ns ns tap) Q E sp.
Proof.
  intros HE HQ. apply wp_bind, wp_in; [done|]. apply wp_link_add; [done|]. intros s Hs Ht.
  apply wp_on_error, wp_sys; [|by intros ? ? [= <- <-]; apply HQ].
  intros k Hk. cbn. rewrite Hk.
  erewrite alter_insert_eq; [|done..]. cbn [links with_links].
  by rewrite undo_add.
Qed.

Lemma wp_delete_link ns name Q (E : spaces → Prop) sp :
  E sp →
  (∀ s, sp !! ns = Some s → is_Some (links s !! name) →
    Q tt (<[ns := with_links s (delete name (links s))]> sp)) →
  wp (rt_delete_link ns name) Q E sp.
Proof.
  intros HE HQ. apply wp_in; [done|]. apply wp_bind, wp_link_index; [done|]. intros s l Hs Hl.
  apply wp_sys_in; [done|]. intros s' [] s'' Hs' H. simplify_eq. rewrite Hl in H. cbn in H.
  simplify_eq. apply HQ; by eauto.
Qed.

Lemma wp_delete_link_exact ns name sp :
  wp (rt_delete_link ns name)
    (λ _ sp', ∃ s, sp !! ns = Some s ∧ is_Some (links s !! name) ∧
       sp' = <[ns := with_links s (delete name (links s))]> sp)
    (λ sp', sp' = sp) sp.
Proof. apply wp_delete_link; [done|]. by eauto. Qed.

Lemma wp_tap_on_bridge ns tap bridge sp :
  wp (rt_setup_tap_on_bridge ns tap bridge)
    (λ _ sp', ∃ s, sp !! ns = Some s ∧ links s !! tap = None ∧
       (tap ≠ bridge → is_Some (links s !! bridge)) ∧
       sp' = <[ns := with_links s (<[tap := attached bridge]> (links s))]> sp)
    (λ sp', sp' = sp ∨ ∃ s l, sp !! ns = Some s ∧ links s !! tap = None ∧
       sp' = <[ns := with_links s (<[tap := l]> (links s))]> sp) sp.
Proof.
  apply wp_bind, wp_create_tap; [by left|]. intros s Hs Ht.
  assert (∀ l, wp (rt_delete_link ns tap)
    (λ _ sp', sp' = sp ∨ ∃ s l, sp !! ns = Some s ∧ links s !! tap = None ∧
       sp' = <[ns := with_links s (<[tap := l]> (links s))]> sp)
    (λ sp', sp' = sp ∨ ∃ s l, sp !! ns = Some s ∧ links s !! tap = None ∧
       sp' = <[ns := with_links s (<[tap := l]> (links s))]> sp)
    (<[ns := with_links s (<[tap := l]> (links s))]> sp)) as Hclean.
  { intros l. apply wp_delete_link; [right; by eauto 10|]. intros s' Hs' _. left.
    rewrite lookup_insert_eq in Hs'. simplify_eq. cbn [links with_links].
    by rewrite insert_insert_eq, undo_add. }
  apply wp_on_error, wp_in; [apply Hclean|].
  apply wp_bind, wp_link_index; [apply Hclean|]. intros _ _ _ _.
  apply wp_bind, wp_link_index; [apply Hclean|]. intros s2 lb Hs2 Hlb.
  apply wp_set; [apply Hclean|]. intros s3 l Hs3 Hl. exists s.
  rewrite lookup_insert_eq in Hs2, Hs3. simplify_eq. cbn [links with_links] in *.
  rewrite lookup_insert_eq in Hl. simplify_eq. split_and!; [done..| |].
  - intros Hne. rewrite lookup_insert_ne in Hlb by done. by eauto.
  - by rewrite insert_insert_eq, with_links_twice, insert_insert_eq.
Qed.

Lemma inside_refl ns sp : inside ns sp sp.
Proof. by split. Qed.

Lemma inside_insert ns sp sp1 s s' :
  inside ns sp sp1 → sp1 !! ns = Some s → inside ns sp (<[ns := s']> sp1).
Proof.
  intros [H1 H2] Hs. split.
  - intros n Hn. rewrite lookup_insert_ne by done. by apply H1.
  - intros Hnone. rewrite H2 in Hs by done. done.
Qed.

(** Bringing a link up keeps every other link, and what it was given. *)
Lemma wp_link_up_tail ns sp sp1 s1 name l0 (Q : spaces → Prop) :
  sp1 !! ns = Some s1 → inside ns sp sp1 → links s1 !! name = Some l0 → is_up l0 = true →
  (∀ s', links s' !! name = Some l0 →
     (∀ l, l ≠ name → l ≠ "lo" → links s' !! l = links s1 !! l) → Q (<[ns := s']> sp1)) →
  wp (lo ← link_index ns "lo"; link_up ns lo) (λ _, Q) (inside ns sp) sp1.
Proof.
  intros Hs Hin Hl Hup HQ. apply wp_bind, wp_link_index; [done|]. intros _ _ _ _.
  apply wp_set; [done|]. intros s l Hs' Hlo. simplify_eq. apply HQ; cbn [links with_links].
  - destruct (decide (name = "lo")) as [->|Hn]; [|by rewrite lookup_insert_ne].
    simplify_eq. rewrite lookup_insert_eq, <- Hup. by destruct l0.
  - intros l' _ Hn. by rewrite lookup_insert_ne.
Qed.

Lemma wp_setup_tap ns tap vmid sp :
  wp (rt_setup_tap ns tap vmid)
    (λ _ sp', only_ns ns sp sp' ∧ ∃ s s' h g c, sp !! ns = Some s ∧ sp' !! ns = Some s' ∧
       ip_math vmid = Ok (h, g, c) ∧ links s !! tap = None ∧
       links s' !! tap = Some {| controller := None; addresses := [(h, 30%N)]; is_up := true |})
    (inside ns sp) sp.
Proof.
  pose proof (inside_refl ns sp) as H0. apply wp_bind, wp_create_tap; [done|]. intros s Hs Ht.
  eapply inside_insert in H0; [|done]. apply wp_bind, wp_lift; [|done].
  intros [[h g] c] Hip. apply wp_in; [done|]. apply wp_bind, wp_link_index; [done|]. intros _ _ _ _.
  apply wp_bind, wp_set; [done|]. intros s2 l2 Hs2 Hl2.
  eapply inside_insert in H0; [|done]. rewrite lookup_insert_eq in Hs2. simplify_eq.
  cbn [links with_links] in *. rewrite lookup_insert_eq in Hl2. simplify_eq.
  apply wp_bind, wp_set; [done|]. intros s3 l3 Hs3 Hl3.
  eapply inside_insert in H0; [|done]. rewrite lookup_insert_eq in Hs3. simplify_eq.
  cbn [links with_links] in *. rewrite lookup_insert_eq in Hl3. simplify_eq.
  eapply wp_link_up_tail; [apply lookup_insert_eq|done|apply lookup_insert_eq|done|].
  intros s' Hl' _. split; [intros n Hn; by rewrite !lookup_insert_ne|].
  exists s, s', h, g, c. rewrite lookup_insert_eq. done.
Qed.

Lemma wp_create_bridge ns bridge gateway len sp :
  wp (rt_create_bridge ns bridge gateway len)
    (λ _ sp', only_ns ns sp sp' ∧ ∃ s s', sp !! ns = Some s ∧ sp' !! ns = Some s' ∧
       links s !! bridge = None ∧
       links s' !! bridge = Some {| controller := None; addresses := [(gateway, len)]; is_up := true |} ∧
       ∀ l, l ≠ bridge → l ≠ "lo" → links s' !! l = links s !! l)
    (inside ns sp) sp.
Proof.
  pose proof (inside_refl ns sp) as H0. apply wp_in; [done|].
  apply wp_bind, wp_link_add; [done|]. intros s Hs Ht.
  eapply inside_insert in H0; [|done]. apply wp_bind, wp_link_index; [done|]. intros _ _ _ _.
  apply wp_bind, wp_set; [done|]. intros s2 l2 Hs2 Hl2.
  eapply inside_insert in H0; [|done]. rewrite lookup_insert_eq in Hs2. simplify_eq.
  cbn [links with_links] in *. rewrite lookup_insert_eq in Hl2. simplify_eq.
  apply wp_bind, wp_set; [done|]. intros s3 l3 Hs3 Hl3.
  eapply inside_insert in H0; [|done]. rewrite lookup_insert_eq in Hs3. simplify_eq.
  cbn [links with_links] in *. rewrite lookup_insert_eq in Hl3. simplify_eq.
  eapply wp_link_up_tail; [apply lookup_insert_eq|done|apply lookup_insert_eq|done|].
  intros s' Hl' Hrest. split; [intros n Hn; by rewrite !lookup_insert_ne|].
  exists s, s'. rewrite lookup_insert_eq. split_and!; [done..|].
  intros l Hb Hlo. rewrite Hrest by done. cbn. by rewrite !lookup_insert_ne.
Qed.

Lemma wp_tproxy ns sp :
  wp (rt_setup_tproxy_routing ns)
    (λ _ sp', ∃ s, sp !! ns = Some s ∧
       sp' = <[ns := {| links := links s; tproxy_rule := true; tproxy_route := true;
                        nft_rules := nft_rules s |}]> sp)
    (λ sp', only_ns ns sp sp' ∧ (links <$> sp' !! ns) = (links <$> sp !! ns)) sp.
Proof.
  apply wp_in; [done|]. apply wp_bind, wp_link_index; [done|]. intros _ _ _ _.
  apply wp_bind, wp_sys_in; [done|]. intros s [] s' Hs [= <-].
  apply wp_sys_in.
  - split; [intros n Hn; by rewrite lookup_insert_ne|]. by rewrite lookup_insert_eq, Hs.
  - intros s2 [] s2' Hs2 [= <-]. rewrite lookup_insert_eq in Hs2. simplify_eq.
    exists s. by rewrite insert_insert_eq.
Qed.

Lemma wp_add_netns name sp :
  wp (rt_add_netns name)
    (λ _ sp', is_Some (sp' !! name) ∧ only_ns name sp sp' ∧
       (sp !! name = None → sp' = <[name := empty_ns]> sp))
    (λ sp', sp' = sp) sp.
Proof.
  apply wp_sys; [done|]. intros [] sp' H.
  destruct (sp !! name) as [s|]; [destruct (ns_existing s) as [s'|]; [|done]|];
    cbn in H; simplify_eq; rewrite lookup_insert_eq;
    (split_and!; [by eauto|intros n Hn; by rewrite lookup_insert_ne|done]).
Qed.

Lemma wp_delete_netns name sp :
  wp (rt_delete_netns name) (λ _ sp', sp' = delete name sp) (λ sp', sp' = sp) sp.
Proof.
  apply wp_bind, wp_sys; [done|]. intros [] sp' H. destruct (sp !! name); [|done].
  cbn in H. simplify_eq. apply wp_sys; [done|]. by intros [] sp2 [= <-].
Qed.

End rt_wp.

(** [RtNetlink] keeps the contract of the seam. *)
#[export] Instance RtNetlink {NH : NetHost} : Netlink := {|
  add_netns := rt_add_netns;
  setup_tap := rt_setup_tap;
  create_bridge := rt_create_bridge;
  setup_tap_on_bridge := rt_setup_tap_on_bridge;
  delete_link := rt_delete_link;
  delete_netns := rt_delete_netns;
  setup_tproxy_routing := rt_setup_tproxy_routing;
  add_netns_law name k := wp_add_netns name _ k eq_refl;
  setup_tap_law ns tap vmid k := wp_setup_tap ns tap vmid _ k eq_refl;
  create_bridge_law ns b g n k := wp_create_bridge ns b g n _ k eq_refl;
  setup_tap_on_bridge_law ns t b k := wp_tap_on_bridge ns t b _ k eq_refl;
  delete_link_law ns l k := wp_delete_link_exact ns l _ k eq_refl;
  delete_netns_law name k := wp_delete_netns name _ k eq_refl;
  setup_tproxy_routing_law ns k := wp_tproxy ns _ k eq_refl;
|}.

(** ** The per-VM namespace *)

Record NetNamespace := {
  nn_name : string;
  nn_tap_name : string;
  nn_vmid : N;
  nn_deleted : bool;
}.

Section net_namespace.
Context {NL : Netlink}.

Definition ns_create (prefix : string) (vmid : N) : M NetNamespace :=
  let name := netns_name prefix vmid in
  let tap := tap_name prefix vmid in
  _ ← add_netns name;
  _ ← on_error (setup_tap name tap vmid) (delete_netns name);
  mret {| nn_name := name; nn_tap_name := tap; nn_vmid := vmid; nn_deleted := false |}.

Definition ns_delete (n : NetNamespace) : kernel → result nl_error unit * NetNamespace * kernel := λ k,
  if nn_deleted n then (Ok tt, n, k) else
  match delete_netns (nn_name n) k with
  | (Err e, k') => (Err e, n, k')
  | (Ok _, k') => (Ok tt, {| nn_name := nn_name n; nn_tap_name := nn_tap_name n;
                            nn_vmid := nn_vmid n; nn_deleted := true |}, k')
  end.

(** [Drop]: a failure is logged only. *)
Definition ns_drop (n : NetNamespace) (k : kernel) : kernel := (ns_delete n k).2.

Definition host_ip (n : NetNamespace) : result nl_error string :=
  match ip_math (nn_vmid n) with
  | Ok (ip, _, _) => Ok (ip_to_string ip)
  | Err _ => Err NlRange
  end.

Definition quote : string := String (ascii_of_N 34) "".
Definition tab : string := String (ascii_of_N 9) "".
Definition newline : string := String (ascii_of_N 10) "".

Definition render_catch_all_drop (n : NetNamespace) : string :=
  "iifname " +:+ quote +:+ nn_tap_name n +:+ quote +:+ " drop".

(** The lines of the two rulesets; [format!] joins them with newlines. *)
Definition ruleset_head : list string :=
  ["table ip proxy {"; tab +:+ "chain prerouting {";
   tab +:+ tab +:+ "type filter hook prerouting priority mangle; policy drop;"].
Definition ruleset_tail (n : NetNamespace) : list string :=
  [tab +:+ tab +:+ render_catch_all_drop n; tab +:+ "}"; "}"].

Definition tproxy_accepts (n : NetNamespace) (port : N) (gateway : string) : list string :=
  [tab +:+ tab +:+ "iifname " +:+ quote +:+ nn_tap_name n +:+ quote +:+
     " tcp dport { 80, 443 } tproxy to :" +:+ pretty port +:+ " meta mark set 1 accept";
   tab +:+ tab +:+ "iifname " +:+ quote +:+ nn_tap_name n +:+ quote +:+
     " ip daddr " +:+ gateway +:+ " tcp dport " +:+ pretty port +:+ " accept"].

Definition render_tproxy_rules (n : NetNamespace) (port : N) (gateway : string) : string :=
  String.concat newline (ruleset_head ++ tproxy_accepts n port gateway ++ ruleset_tail n).

Definition render_blocked_rules (n : NetNamespace) : string :=
  String.concat newline (ruleset_head ++ ruleset_tail n).

Definition emit_proxy_rules (applier : string → string → M unit) (n : NetNamespace) (port : N) : M unit :=
  gateway ← lift id (host_ip n);
  _ ← applier (nn_name n) (render_tproxy_rules n port gateway);
  setup_tproxy_routing (nn_name n).

Definition emit_blocked_rules (applier : string → string → M unit) (n : NetNamespace) : M unit :=
  applier (nn_name n) (render_blocked_rules n).
End net_namespace.

(** ** What the namespace promises *)

Section ns_facts.
Context {NL : Netlink}.

Lemma only_ns_insert_None name (sp sp' : spaces) s :
  sp !! name = None → only_ns name sp sp' → sp' !! name = Some s → sp' = <[name := s]> sp.
Proof.
  intros Hn Ho Hs. apply map_eq. intros n. destruct (decide (n = name)) as [->|Hne].
  - by rewrite lookup_insert_eq.
  - rewrite lookup_insert_ne by done. by apply Ho.
Qed.

Lemma only_ns_trans name (a b c : spaces) : only_ns name a b → only_ns name b c → only_ns name a c.
Proof. intros Hab Hbc n Hn. by rewrite Hbc, Hab. Qed.

(** Removing a namespace made on a free name. *)
Lemma undo_made_ns name k k2 r k3 :
  nets k !! name = None → only_ns name (nets k) (nets k2) → delete_netns name k2 = (r, k3) →
  nets k3 = nets k ∨ ∃ s e, nets k3 = <[name := s]> (nets k) ∧ r = Err e.
Proof.
  intros Hfree Hk2 Hd. pose proof (delete_netns_law name k2) as L. rewrite Hd in L.
  assert (nets k3 !! name = None → only_ns name (nets k) (nets k3) → nets k3 = nets k) as Heq.
  { intros Hs Ho. apply map_eq. intros n. destruct (decide (n = name)) as [->|Hn]; [congruence|by apply Ho]. }
  destruct r as [u|e].
  - left. apply Heq; rewrite L; [apply lookup_delete_eq|].
    intros n Hn. rewrite lookup_delete_ne by done. by apply Hk2.
  - destruct (nets k3 !! name) as [s|] eqn:Hs; [right|left; apply Heq; [done|by rewrite L]].
    exists s, e. split; [|done]. apply only_ns_insert_None; [done|by rewrite L|done].
Qed.

Lemma ns_create_cases prefix vmid k :
  nets k !! netns_name prefix vmid = None →
  match ns_create prefix vmid k with
  | (Ok n, k') =>
      n = {| nn_name := netns_name prefix vmid; nn_tap_name := tap_name prefix vmid;
             nn_vmid := vmid; nn_deleted := false |} ∧
      ∃ s h g c, nets k' = <[nn_name n := s]> (nets k) ∧ ip_math vmid = Ok (h, g, c) ∧
        links s !! nn_tap_name n = Some {| controller := None; addresses := [(h, 30%N)]; is_up := true |}
  | (Err _, k') => nets k' = nets k ∨
      ∃ s k1 e, nets k' = <[netns_name prefix vmid := s]> (nets k) ∧
        delete_netns (netns_name prefix vmid) k1 = (Err e, k')
  end.
Proof.
  intros Hfree. unfold ns_create, mbind, M_bind, on_error.
  set (name := netns_name prefix vmid) in *.
  pose proof (add_netns_law name k) as Ha. destruct (add_netns name k) as [[u|e] k1]; [|by left].
  destruct Ha as (_ & _ & Hk1). specialize (Hk1 Hfree).
  pose proof (setup_tap_law name (tap_name prefix vmid) vmid k1) as Ht.
  destruct (setup_tap name (tap_name prefix vmid) vmid k1) as [[v|e] k2].
  - destruct Ht as (Ho & s & s' & h & g & c & Hs & Hs' & Hip & Hnone & Htap). cbn.
    split; [done|]. exists s', h, g, c. split_and!; [|done..].
    apply only_ns_insert_None; [done| |done]. eapply only_ns_trans; [|exact Ho].
    rewrite Hk1. intros n Hn. by rewrite lookup_insert_ne.
  - destruct Ht as [Ho _].
    assert (only_ns name (nets k) (nets k2)) as Hk2.
    { eapply only_ns_trans; [|exact Ho]. rewrite Hk1. intros n Hn. by rewrite lookup_insert_ne. }
    destruct (delete_netns name k2) as [r k3] eqn:Ed. cbn.
    destruct (undo_made_ns name k k2 r k3 Hfree Hk2 Ed) as [?|(s & e2 & ? & ->)]; [by left|].
    right. by eauto.
Qed.

(** [NetNamespace::create] on a name that is free either answers with a
    namespace that holds the VM's tap, up and carrying exactly the vmid's host
    address, or leaves the host's namespaces as they were, unless removing the
    half-made namespace failed too; no other namespace changes. *)
Theorem ns_create_contract prefix vmid k :
  nets k !! netns_name prefix vmid = None →
  match ns_create prefix vmid k with
  | (Ok n, k') =>
      n = {| nn_name := netns_name prefix vmid; nn_tap_name := tap_name prefix vmid;
             nn_vmid := vmid; nn_deleted := false |} ∧
      ∃ s h g c, nets k' = <[nn_name n := s]> (nets k) ∧ ip_math vmid = Ok (h, g, c) ∧
        links s !! nn_tap_name n = Some {| controller := None; addresses := [(h, 30%N)]; is_up := true |}
  | (Err _, k') => nets k' = nets k ∨
      ∃ s k1 e, nets k' = <[netns_name prefix vmid := s]> (nets k) ∧
        delete_netns (netns_name prefix vmid) k1 = (Err e, k')
  end.
Proof. apply ns_create_cases. Qed.

Lemma ns_create_Ok prefix vmid k n k' :
  nets k !! netns_name prefix vmid = None → ns_create prefix vmid k = (Ok n, k') →
  nn_deleted n = false ∧ ∃ s, nets k' = <[nn_name n := s]> (nets k) ∧ nets k !! nn_name n = None.
Proof.
  intros Hfree Hc. pose proof (ns_create_cases prefix vmid k Hfree) as C. rewrite Hc in C.
  destruct C as (-> & s & _ & _ & _ & Hk & _). split; [done|]. by exists s.
Qed.

(** Creating a VM's namespace and deleting it gives the host's namespaces
    back exactly as they were, and the [Drop] that follows a successful
    [delete] makes no further call, so it can never remove a namespace that
    took over the name. *)
Theorem ns_delete_roundtrip prefix vmid k n k1 n' k2 :
  nets k !! netns_name prefix vmid = None →
  ns_create prefix vmid k = (Ok n, k1) → ns_delete n k1 = (Ok tt, n', k2) →
  nets k2 = nets k ∧ ∀ k3, ns_drop n' k3 = k3.
Proof.
  intros Hfree Hc. destruct (ns_create_Ok _ _ _ _ _ Hfree Hc) as (Hd & s & Hk1 & Hn).
  unfold ns_delete. rewrite Hd. pose proof (delete_netns_law (nn_name n) k1) as Hl.
  destruct (delete_netns (nn_name n) k1) as [[[]|e] k4]; [|done]. intros [= <- <-].
  split; [|done]. rewrite Hl, Hk1, delete_insert_eq. by rewrite delete_id.
Qed.
End ns_facts.

(** Loading a ruleset and routing to the proxy stay in their namespace. *)
Lemma apply_rules_law {NH : NetHost} ns rules k :
  match apply_rules ns rules k with
  | (_, k') => only_ns ns (nets k) (nets k') ∧ (is_Some (nets k !! ns) → is_Some (nets k' !! ns))
  end.
Proof.
  set (P := λ sp, only_ns ns (nets k) sp ∧ (is_Some (nets k !! ns) → is_Some (sp !! ns))).
  assert (P (nets k)) as H0 by done. unfold apply_rules. set (m := in_netns ns _).
  assert (wp m (λ _, P) P (nets k)) as W.
  { apply wp_in; [done|]. apply wp_bind, wp_sys_in; [done|]. intros s [] s' Hs [= <-].
    assert (∀ x, P (<[ns := x]> (nets k))) as Hins.
    { intros x. split; [intros n Hne; by rewrite lookup_insert_ne|]. intros _. rewrite lookup_insert_eq. by eauto. }
    apply wp_sys; [apply Hins|]. intros [] sp [= <-]. apply Hins. }
  specialize (W k eq_refl). destruct (m k) as [[[]|[[]| |]] k']; exact W.
Qed.

Lemma proxy_rules_stay {NL : Netlink} applier n port k :
  (∀ ns rules k, let '(_, k') := applier ns rules k in
     only_ns ns (nets k) (nets k') ∧ (is_Some (nets k !! ns) → is_Some (nets k' !! ns))) →
  let '(_, k') := emit_proxy_rules applier n port k in
  only_ns (nn_name n) (nets k) (nets k') ∧ (is_Some (nets k !! nn_name n) → is_Some (nets k' !! nn_name n)).
Proof.
  intros Happ. unfold emit_proxy_rules, mbind, M_bind, lift.
  destruct (host_ip n) as [gw|e]; [|done]. cbv beta iota.
  pose proof (Happ (nn_name n) (render_tproxy_rules n port gw) k) as L.
  destruct (applier (nn_name n) (render_tproxy_rules n port gw) k) as [[u|e] k1]; [|done].
  destruct L as [Ho1 Hs1]. pose proof (setup_tproxy_routing_law (nn_name n) k1) as R.
  destruct (setup_tproxy_routing (nn_name n) k1) as [[w|e] k2].
  - destruct R as (s & Hs & ->). split.
    + intros x Hx. rewrite lookup_insert_ne by done. by apply Ho1.
    + intros _. by rewrite lookup_insert_eq.
  - destruct R as [Ho2 Hl]. split; [by eapply only_ns_trans|]. intros H%Hs1.
    destruct H as [s Hs]. rewrite Hs in Hl. cbn in Hl. by destruct (nets k2 !! nn_name n).
Qed.

(** *** A concrete host *)

Definition demo_net : NetHost := {| nl_fails _ _ := false; ns_existing _ := None |}.

(** The fifth call (the tap's index) fails, everything else succeeds. *)
Definition demo_net_flaky : NetHost := {|
  nl_fails n op := bool_decide (n = 4);
  ns_existing _ := None |}.

Definition demo_kernel : kernel := {| nets := {["vmcell-net-7" := empty_ns]}; calls := 0 |}.

Definition demo_ns := ns_create (NL := RtNetlink (NH := demo_net)) "vmcell" 300 demo_kernel.
Definition demo_ns_flaky := ns_create (NL := RtNetlink (NH := demo_net_flaky)) "vmcell" 300 demo_kernel.

Lemma demo_free : nets demo_kernel !! netns_name "vmcell" 300 = None.
Proof. refine (bool_decide_unpack _ _). vm_compute. exact I. Qed.

(** Created with every call answering, and cleaned up after a failed one. *)
Lemma ns_create_contract_witness :
  is_ok demo_ns.1 = true ∧ is_ok demo_ns_flaky.1 = false ∧
  (nets demo_ns_flaky.2 = nets demo_kernel ∨
    ∃ s k1 e, nets demo_ns_flaky.2 = <[netns_name "vmcell" 300 := s]> (nets demo_kernel) ∧
      delete_netns (Netlink := RtNetlink (NH := demo_net_flaky)) (netns_name "vmcell" 300) k1 = (Err e, demo_ns_flaky.2)).
Proof.
  assert (is_ok demo_ns_flaky.1 = false) as H by (vm_compute; reflexivity).
  split; [vm_compute; reflexivity|]. split; [exact H|].
  pose proof (ns_create_contract (NL := RtNetlink (NH := demo_net_flaky)) "vmcell" 300 demo_kernel demo_free) as C.
  fold demo_ns_flaky in C. destruct demo_ns_flaky as [[n|e] k']; [discriminate H|exact C].
Defined.

Lemma ns_delete_roundtrip_witness :
  ∃ n k1 n' k2, demo_ns = (Ok n, k1) ∧
    ns_delete (NL := RtNetlink (NH := demo_net)) n k1 = (Ok tt, n', k2) ∧ nets k2 = nets demo_kernel.
Proof.
  assert (match demo_ns with (Ok n, k1) => is_ok (ns_delete (NL := RtNetlink (NH := demo_net)) n k1).1.1 | _ => false end = true)
    as H by (vm_compute; reflexivity).
  destruct demo_ns as [[n|e] k1] eqn:E; [|discriminate H].
  destruct (ns_delete (NL := RtNetlink (NH := demo_net)) n k1) as [[[[]|e] n'] k2] eqn:D; [|discriminate H].
  exists n, k1, n', k2. split; [reflexivity|]. split; [exact D|].
  exact (proj1 (ns_delete_roundtrip (NL := RtNetlink (NH := demo_net)) "vmcell" 300 demo_kernel n k1 n' k2 demo_free E D)).
Defined.
