(* ===== verification/Segment.v ===== *)
(** * VM-to-VM segments

    Models [crates/vmcell/src/net/segment.rs]: link impairments, the segment's
    creation and final drop, and the members' claims and releases.  The
    members run concurrently: [seg_step] interleaves the critical sections of
    [claim_member] and of [SegmentMember]'s [Drop], and the theorems over it are
    proved against the [Netlink] seam of [Tap.v]. *)

From S2P Require Import Prelude Naming IdAlloc NetAddr Tap.

Definition SEGMENT_PREFIX_LEN : N := 24.

Inductive seg_error :=
  | SConfig
  | SExhaustion
  | SAlloc (e : alloc_error)
  | SNet (e : nl_error)
  | SCapabilityUnavailable
  | SIo
  | SSubprocess.

Record SegmentMembership := {
  m_netns : string;
  m_tap_name : string;
  m_segid : N;
  m_slot : N;
}.

Definition membership_addresses (m : SegmentMembership) := segment_ip_math (m_segid m) (m_slot m).

(** ** Impairments

    A [Duration] is its nanoseconds. *)

Definition MAX_IMPAIRMENT_DELAY : N := 4000000000.

Record Impairment := {
  delay : option N;
  jitter : option N;
  loss_percent : option N;    (** a [u8] *)
}.

Definition as_micros (d : N) : N := (d / 1000)%N.

Definition netem_args (i : Impairment) : list string :=
  match delay i with
  | Some d =>
      ["delay"; pretty (as_micros d) +:+ "us"] ++
      match jitter i with Some j => [pretty (as_micros j) +:+ "us"] | None => [] end
  | None => []
  end ++
  match loss_percent i with Some l => ["loss"; pretty l +:+ "%"] | None => [] end.

Definition check_duration (d : option N) : result seg_error unit :=
  match d with
  | None => Ok tt
  | Some v =>
      if (v =? 0)%N then Err SConfig else
      if (MAX_IMPAIRMENT_DELAY <? v)%N then Err SConfig else Ok tt
  end.

(** [ImpairmentBuilder::build]; the builder holds the three fields as set. *)
Definition impairment_build (b : Impairment) : result seg_error Impairment :=
  let? _ := check_duration (delay b) in
  let? _ := check_duration (jitter b) in
  if bool_decide (is_Some (jitter b)) && bool_decide (delay b = None) then Err SConfig else
  if match loss_percent b with Some l => (100 <? l)%N | None => false end then Err SConfig else
  if bool_decide (delay b = None) && bool_decide (loss_percent b = None) then Err SConfig else
  Ok {| delay := delay b; jitter := jitter b; loss_percent := loss_percent b |}.

(** ** Members *)

(** The parts of [SegmentInner] that do not change. *)
Record NetSegment := {
  seg_prefix : string;
  seg_segid : N;
  seg_netns : string;
  seg_bridge : string;
  seg_gateway : Ipv4Addr;
}.

Definition slot_order : list N := N.of_nat <$> seq 1 (N.to_nat MAX_SEGMENT_SLOT).

(** The critical section of [claim_member]: the slot map, under its lock. *)
Definition reserve_slot (slots : gmap N N) (vmid : N) : result seg_error N * gmap N N :=
  if decide (map_Exists (λ _ held, held = vmid) slots) then (Err SConfig, slots) else
  match filter (λ s, slots !! s = None) slot_order with
  | [] => (Err SExhaustion, slots)
  | slot :: _ => (Ok slot, <[slot := vmid]> slots)
  end.

Definition release_slot (slots : gmap N N) (slot : N) : gmap N N := delete slot slots.

Definition membership_of (seg : NetSegment) (vmid slot : N) : SegmentMembership := {|
  m_netns := seg_netns seg;
  m_tap_name := tap_name (seg_prefix seg) vmid;
  m_segid := seg_segid seg;
  m_slot := slot |}.

Definition member_tap (seg : NetSegment) (slots : gmap N N) (vmid : N) : result seg_error string :=
  if decide (map_Exists (λ _ held, held = vmid) slots)
  then Ok (tap_name (seg_prefix seg) vmid) else Err SConfig.

(** A [tc] that ran: whether it succeeded, and its standard output. *)
Definition tc_output : Type := bool * string.

Fixpoint str_contains (needle s : string) : bool :=
  starts_with needle s || match s with EmptyString => false | String _ s' => str_contains needle s' end.

Section tc.
(** The [tc] binary, run in a namespace: the argument list and the run. *)
Context {S : Type} (run_tc : list string → S → result seg_error tc_output * S).

Definition impair_args (tap : string) (i : Impairment) : list string :=
  ["qdisc"; "replace"; "dev"; tap; "root"; "netem"] ++ netem_args i.

Definition impair_member (seg : NetSegment) (slots : gmap N N) (vmid : N) (i : Impairment) (st : S)
    : result seg_error unit * S :=
  match member_tap seg slots vmid with
  | Err e => (Err e, st)
  | Ok tap =>
      match run_tc (impair_args tap i) st with
      | (Err e, st) => (Err e, st)
      | (Ok (success, _), st) => (if success then Ok tt else Err SSubprocess, st)
      end
  end.

Definition clear_impairment (seg : NetSegment) (slots : gmap N N) (vmid : N) (st : S)
    : result seg_error unit * S :=
  match member_tap seg slots vmid with
  | Err e => (Err e, st)
  | Ok tap =>
      match run_tc ["qdisc"; "delete"; "dev"; tap; "root"] st with
      | (Err e, st) => (Err e, st)
      | (Ok (true, _), st) => (Ok tt, st)
      | (Ok (false, _), st) =>
          match run_tc ["qdisc"; "show"; "dev"; tap] st with
          | (Err e, st) => (Err e, st)
          | (Ok (success, stdout), st) =>
              if success && negb (str_contains "netem" stdout) then (Ok tt, st)
              else (Err SSubprocess, st)
          end
      end
  end.
End tc.

Section segment.
Context {CH : ClaimHost} {NL : Netlink}.

(** ** Creation and the final drop *)

Definition create_with_netlink (prefix : string) (subsec_nanos : N) (segids : IdAllocator) (k : kernel)
    : result seg_error NetSegment * IdAllocator * kernel :=
  match validate_resource_prefix prefix with
  | Err _ => (Err SConfig, segids, k)
  | Ok _ =>
      match claim_segment subsec_nanos segids with
      | (Err e, segids) => (Err (SAlloc e), segids, k)
      | (Ok segid, segids) =>
          let netns := segment_netns_name prefix segid in
          let bridge := segment_bridge_name prefix segid in
          match segment_ip_math segid 1 with
          | Err _ => (Err (SNet NlRange), drop_segment_guard segid segids, k)
          | Ok (gateway, _, _) =>
              match add_netns netns k with
              | (Err e, k) => (Err (SNet e), drop_segment_guard segid segids, k)
              | (Ok _, k) =>
                  match on_error (create_bridge netns bridge gateway SEGMENT_PREFIX_LEN)
                                 (delete_netns netns) k with
                  | (Err e, k) => (Err (SNet e), drop_segment_guard segid segids, k)
                  | (Ok _, k) =>
                      (Ok {| seg_prefix := prefix; seg_segid := segid; seg_netns := netns;
                             seg_bridge := bridge; seg_gateway := gateway |}, segids, k)
                  end
              end
          end
      end
  end.

Definition segment_new (privileged_net : bool) (prefix : string) (subsec_nanos : N)
    (segids : IdAllocator) (k : kernel) : result seg_error NetSegment * IdAllocator * kernel :=
  if negb privileged_net then (Err SCapabilityUnavailable, segids, k)
  else create_with_netlink prefix subsec_nanos segids k.

(** [SegmentInner]'s [Drop], then that of its last field, the id guard. *)
Definition drop_segment (seg : NetSegment) (segids : IdAllocator) (k : kernel) : IdAllocator * kernel :=
  let k := (delete_netns (seg_netns seg) k).2 in
  (drop_segment_guard (seg_segid seg) segids, k).

(** ** Members, one call at a time *)

Definition claim_member (seg : NetSegment) (slots : gmap N N) (vmid : N) (k : kernel)
    : result seg_error SegmentMembership * gmap N N * kernel :=
  match reserve_slot slots vmid with
  | (Err e, slots) => (Err e, slots, k)
  | (Ok slot, slots) =>
      let m := membership_of seg vmid slot in
      match setup_tap_on_bridge (seg_netns seg) (m_tap_name m) (seg_bridge seg) k with
      | (Err e, k) => (Err (SNet e), release_slot slots slot, k)
      | (Ok _, k) => (Ok m, slots, k)
      end
  end.

Definition drop_member (m : SegmentMembership) (slots : gmap N N) (k : kernel) : gmap N N * kernel :=
  let k := (delete_link (m_netns m) (m_tap_name m) k).2 in
  (release_slot slots (m_slot m), k).

(** ** Members, interleaved *)

(** Where a member is: its slot reserved; its tap refused and the slot still
    to be returned; running; its tap deleted and its slot still held. *)
Inductive member_pc :=
  | Claiming (vmid slot : N)
  | Refused (vmid slot : N)
  | Member (vmid : N) (m : SegmentMembership)
  | Leaving (vmid : N) (m : SegmentMembership).

Definition pc_slot (p : member_pc) : N :=
  match p with Claiming _ s | Refused _ s => s | Member _ m | Leaving _ m => m_slot m end.
Definition pc_vmid (p : member_pc) : N :=
  match p with Claiming v _ | Refused v _ | Member v _ | Leaving v _ => v end.

(** [handles] counts the clones of the segment's [Arc] outside the members;
    a member holds one of its own, and a claim borrows one while it runs. *)
Record seg_world := {
  wk : kernel;
  wslots : gmap N N;
  handles : nat;
  members : gmap nat member_pc;
  alive : bool;      (** [SegmentInner] has not been dropped *)
}.

Definition world_of (k : kernel) : seg_world :=
  {| wk := k; wslots := ∅; handles := 1; members := ∅; alive := true |}.

Inductive seg_step (seg : NetSegment) : seg_world → seg_world → Prop :=
  | S_clone w :
      handles w ≠ 0 →
      seg_step seg w {| wk := wk w; wslots := wslots w; handles := S (handles w);
                        members := members w; alive := alive w |}
  | S_member_clone w t v m :      (** [member.segment().clone()] *)
      members w !! t = Some (Member v m) →
      seg_step seg w {| wk := wk w; wslots := wslots w; handles := S (handles w);
                        members := members w; alive := alive w |}
  | S_drop_handle w n :
      handles w = S n →
      seg_step seg w {| wk := wk w; wslots := wslots w; handles := n;
                        members := members w; alive := alive w |}
  | S_reserve w t vmid slot slots' :
      handles w ≠ 0 → members w !! t = None →
      reserve_slot (wslots w) vmid = (Ok slot, slots') →
      seg_step seg w {| wk := wk w; wslots := slots'; handles := handles w;
                        members := <[t := Claiming vmid slot]> (members w); alive := alive w |}
  | S_attach w t vmid slot r k' :
      members w !! t = Some (Claiming vmid slot) →
      setup_tap_on_bridge (seg_netns seg) (tap_name (seg_prefix seg) vmid) (seg_bridge seg) (wk w) = (r, k') →
      seg_step seg w {| wk := k'; wslots := wslots w; handles := handles w;
                        members := <[t := if is_ok r then Member vmid (membership_of seg vmid slot)
                                          else Refused vmid slot]> (members w);
                        alive := alive w |}
  | S_give_back w t vmid slot :
      members w !! t = Some (Refused vmid slot) →
      seg_step seg w {| wk := wk w; wslots := release_slot (wslots w) slot; handles := handles w;
                        members := delete t (members w); alive := alive w |}
  | S_untap w t vmid m r k' :
      members w !! t = Some (Member vmid m) →
      delete_link (m_netns m) (m_tap_name m) (wk w) = (r, k') →
      seg_step seg w {| wk := k'; wslots := wslots w; handles := handles w;
                        members := <[t := Leaving vmid m]> (members w); alive := alive w |}
  | S_release w t vmid m :
      members w !! t = Some (Leaving vmid m) →
      seg_step seg w {| wk := wk w; wslots := release_slot (wslots w) (m_slot m); handles := handles w;
                        members := delete t (members w); alive := alive w |}
  | S_last_drop w r k' :
      alive w = true → handles w = 0 → members w = ∅ →
      delete_netns (seg_netns seg) (wk w) = (r, k') →
      seg_step seg w {| wk := k'; wslots := wslots w; handles := 0; members := ∅; alive := false |}
  | S_elsewhere w k' :            (** anyone, in any other namespace *)
      nets k' !! seg_netns seg = nets (wk w) !! seg_netns seg →
      seg_step seg w {| wk := k'; wslots := wslots w; handles := handles w;
                        members := members w; alive := alive w |}.

(** The names and the addresses [create_with_netlink] gave the segment. *)
Definition seg_wf (seg : NetSegment) : Prop :=
  seg_netns seg = segment_netns_name (seg_prefix seg) (seg_segid seg) ∧
  seg_bridge seg = segment_bridge_name (seg_prefix seg) (seg_segid seg) ∧
  (1 <= seg_segid seg <= MAX_SEGMENT_ID)%N ∧
  ∃ m c, segment_ip_math (seg_segid seg) 1 = Ok (seg_gateway seg, m, c).

Definition bridged (seg : NetSegment) (k : kernel) : Prop :=
  ∃ s, nets k !! seg_netns seg = Some s ∧ is_Some (links s !! seg_bridge seg).

Definition seg_reach (seg : NetSegment) (w : seg_world) : Prop :=
  ∃ k, bridged seg k ∧ rtc (seg_step seg) (world_of k) w.
End segment.

(** ** Lemmas *)

Lemma slot_order_elem s : s ∈ slot_order ↔ (1 <= s <= MAX_SEGMENT_SLOT)%N.
Proof.
  unfold slot_order, MAX_SEGMENT_SLOT. rewrite list_elem_of_fmap. split.
  - intros (i & -> & Hi%elem_of_seq). lia.
  - intros Hs. exists (N.to_nat s). split; [lia|]. apply elem_of_seq. lia.
Qed.

Lemma reserve_slot_spec slots vmid :
  match reserve_slot slots vmid with
  | (Ok slot, slots') =>
      (1 <= slot <= MAX_SEGMENT_SLOT)%N ∧ slots !! slot = None ∧ slots' = <[slot := vmid]> slots ∧
      ∀ s, slots !! s ≠ Some vmid
  | (Err SConfig, slots') => slots' = slots ∧ ∃ s, slots !! s = Some vmid
  | (Err SExhaustion, slots') =>
      slots' = slots ∧ ∀ s, (1 <= s <= MAX_SEGMENT_SLOT)%N → is_Some (slots !! s)
  | (Err _, _) => False
  end.
Proof.
  unfold reserve_slot. destruct (decide _) as [He|Hne].
  - split; [done|]. destruct He as (s & v & Hs & ->). by eauto.
  - destruct (filter _ slot_order) as [|slot rest] eqn:Hf.
    + split; [done|]. intros s Hs%slot_order_elem. destruct (slots !! s) eqn:E; [by eauto|].
      assert (s ∈ filter (λ s, slots !! s = None) slot_order) as Hin by (by apply list_elem_of_filter).
      rewrite Hf in Hin. by apply not_elem_of_nil in Hin.
    + assert (slot ∈ filter (λ s, slots !! s = None) slot_order) as Hin
        by (rewrite Hf; apply list_elem_of_here).
      apply list_elem_of_filter in Hin as [Hs Ho%slot_order_elem]. split_and!; [apply Ho..|done|done|].
      intros s Hv. apply Hne. exists s, vmid. done.
Qed.

Lemma tap_name_inj p a b : tap_name p a = tap_name p b → a = b.
Proof.
  unfold tap_name. intros H%append_inj_l. change ("-tap-" +:+ pretty a = "-tap-" +:+ pretty b) in H.
  apply append_inj_l in H. by apply (inj pretty).
Qed.

Lemma tap_not_bridge p v s : tap_name p v ≠ segment_bridge_name p s.
Proof. unfold tap_name, segment_bridge_name. intros H%append_inj_l. discriminate H. Qed.

(** *** The slot map and the members agree *)

Definition pc_key (p : member_pc) : N * N := (pc_slot p, pc_vmid p).

Record books (mem : gmap nat (N * N)) (slots : gmap N N) : Prop := {
  b_slot t s v : mem !! t = Some (s, v) → slots !! s = Some v;
  b_inj t1 t2 s v1 v2 : mem !! t1 = Some (s, v1) → mem !! t2 = Some (s, v2) → t1 = t2;
  b_vmid s1 s2 v : slots !! s1 = Some v → slots !! s2 = Some v → s1 = s2;
  b_cover s v : slots !! s = Some v → ∃ t, mem !! t = Some (s, v);
  b_range s v : slots !! s = Some v → (1 <= s <= MAX_SEGMENT_SLOT)%N;
}.

Lemma books_reserve mem slots t vmid slot slots' :
  books mem slots → mem !! t = None → reserve_slot slots vmid = (Ok slot, slots') →
  books (<[t := (slot, vmid)]> mem) slots'.
Proof.
  intros B Ht Hr. pose proof (reserve_slot_spec slots vmid) as Hs. rewrite Hr in Hs.
  destruct Hs as (Hrange & Hfree & -> & Hnew). split.
  - intros u s v [[<- [= <- <-]]|[Hne Hu]]%lookup_insert_Some; [apply lookup_insert_eq|].
    apply (b_slot _ _ B) in Hu. rewrite lookup_insert_ne; [done|]. congruence.
  - intros t1 t2 s v1 v2 [[<- [= <- <-]]|[Hne1 H1]]%lookup_insert_Some
      [[<- E]|[Hne2 H2]]%lookup_insert_Some; simplify_eq; try done.
    + apply (b_slot _ _ B) in H2. congruence.
    + apply (b_slot _ _ B) in H1. congruence.
    + by eapply (b_inj _ _ B).
  - intros s1 s2 v [[<- <-]|[Hne1 H1]]%lookup_insert_Some
      [[<- E]|[Hne2 H2]]%lookup_insert_Some; simplify_eq; try done.
    + by destruct (Hnew s2).
    + by destruct (Hnew s1).
    + by eapply (b_vmid _ _ B).
  - intros s v [[<- <-]|[Hne H1]]%lookup_insert_Some; [exists t; apply lookup_insert_eq|].
    destruct (b_cover _ _ B _ _ H1) as [u Hu]. exists u. rewrite lookup_insert_ne; [done|]. congruence.
  - intros s v [[<- <-]|[Hne H1]]%lookup_insert_Some; [done|]. by eapply (b_range _ _ B).
Qed.

Lemma books_release mem slots t s v :
  books mem slots → mem !! t = Some (s, v) → books (delete t mem) (release_slot slots s).
Proof.
  intros B Ht. unfold release_slot. split.
  - intros u s' v' [Hne Hu]%lookup_delete_Some. rewrite lookup_delete_ne; [by eapply (b_slot _ _ B)|].
    intros ->. destruct Hne. by eapply (b_inj _ _ B).
  - intros t1 t2 s' v1 v2 [_ H1]%lookup_delete_Some [_ H2]%lookup_delete_Some. by eapply (b_inj _ _ B).
  - intros s1 s2 v' [_ H1]%lookup_delete_Some [_ H2]%lookup_delete_Some. by eapply (b_vmid _ _ B).
  - intros s' v' [Hne H1]%lookup_delete_Some. destruct (b_cover _ _ B _ _ H1) as [u Hu]. exists u.
    rewrite lookup_delete_ne; [done|]. congruence.
  - intros s' v' [_ H1]%lookup_delete_Some. by eapply (b_range _ _ B).
Qed.

(** *** The members' taps *)

Section seg_inv.
Context {NL : Netlink}.
Implicit Types (seg : NetSegment) (w : seg_world).

Definition pc_wf (seg : NetSegment) (p : member_pc) : Prop :=
  match p with
  | Member v m | Leaving v m => m = membership_of seg v (m_slot m)
  | _ => True
  end.

Definition on_bridge (seg : NetSegment) (k : kernel) (vmid : N) : Prop :=
  ∃ s, nets k !! seg_netns seg = Some s ∧
    links s !! tap_name (seg_prefix seg) vmid = Some (attached (seg_bridge seg)).

Record SInv (seg : NetSegment) (w : seg_world) : Prop := {
  i_books : books (pc_key <$> members w) (wslots w);
  i_alive : handles w ≠ 0 ∨ members w ≠ ∅ → alive w = true;
  i_bridged : alive w = true → bridged seg (wk w);
  i_wf t p : members w !! t = Some p → pc_wf seg p;
  i_tap t v m : members w !! t = Some (Member v m) → on_bridge seg (wk w) v;
}.

(** Attaching a tap touches no link that was there. *)
Lemma attach_keeps ns tap bridge k r k' :
  setup_tap_on_bridge ns tap bridge k = (r, k') →
  ∀ s, nets k !! ns = Some s →
    ∃ s', nets k' !! ns = Some s' ∧ ∀ l x, links s !! l = Some x → links s' !! l = Some x.
Proof.
  intros H s Hs. pose proof (setup_tap_on_bridge_law ns tap bridge k) as L. rewrite H in L.
  assert (∀ x l y, links s !! tap = None → links s !! l = Some y →
    links (with_links s (<[tap := x]> (links s))) !! l = Some y) as Hkeep.
  { intros x l y Hn Hl. cbn. rewrite lookup_insert_ne; [done|]. congruence. }
  destruct r as [u|e].
  - destruct L as (s1 & Hs1 & Hn & _ & ->). simplify_eq. rewrite lookup_insert_eq. by eauto.
  - destruct L as [->|(s1 & l & Hs1 & Hn & ->)]; [by eauto|]. simplify_eq.
    rewrite lookup_insert_eq. by eauto.
Qed.

(** Deleting a tap touches no other link. *)
Lemma untap_keeps ns tap k r k' :
  delete_link ns tap k = (r, k') →
  ∀ s, nets k !! ns = Some s →
    ∃ s', nets k' !! ns = Some s' ∧ ∀ l, l ≠ tap → links s' !! l = links s !! l.
Proof.
  intros H s Hs. pose proof (delete_link_law ns tap k) as L. rewrite H in L. destruct r as [u|e].
  - destruct L as (s1 & Hs1 & _ & ->). simplify_eq. rewrite lookup_insert_eq. eexists. split; [done|].
    intros l Hl. cbn. by rewrite lookup_delete_ne.
  - rewrite L. by eauto.
Qed.

Lemma seg_inv_init seg k : bridged seg k → SInv seg (world_of k).
Proof.
  intros Hb. by split.
Qed.

(** The member map without one entry, or with a changed one, as the books see it. *)
Lemma books_same (mem : gmap nat member_pc) slots t p p' :
  books (pc_key <$> mem) slots → mem !! t = Some p → pc_key p' = pc_key p →
  books (pc_key <$> <[t := p']> mem) slots.
Proof.
  intros B Ht Hk. rewrite fmap_insert, Hk, insert_id; [done|]. by rewrite lookup_fmap, Ht.
Qed.

Lemma insert_ne_empty {A} (m : gmap nat A) t x : <[t := x]> m ≠ ∅.
Proof. apply insert_non_empty. Qed.

(** Two members at different places have different vmids. *)
Lemma members_differ seg w t1 t2 p1 p2 :
  SInv seg w → members w !! t1 = Some p1 → members w !! t2 = Some p2 → t1 ≠ t2 →
  pc_vmid p1 ≠ pc_vmid p2 ∧ pc_slot p1 ≠ pc_slot p2.
Proof.
  intros I H1 H2 Hne. pose proof (i_books _ _ I) as B.
  assert ((pc_key <$> members w) !! t1 = Some (pc_key p1)) as K1 by (by rewrite lookup_fmap, H1).
  assert ((pc_key <$> members w) !! t2 = Some (pc_key p2)) as K2 by (by rewrite lookup_fmap, H2).
  assert (pc_slot p1 ≠ pc_slot p2) as Hs.
  { intros E. apply Hne. eapply (b_inj _ _ B); [exact K1|]. unfold pc_key in K2. rewrite E. exact K2. }
  split; [|done]. intros E. apply Hs.
  eapply (b_vmid _ _ B); [by eapply (b_slot _ _ B)|]. rewrite E. by eapply (b_slot _ _ B).
Qed.

Lemma member_alive seg w t p : SInv seg w → members w !! t = Some p → alive w = true.
Proof.
  intros I Hp. apply (i_alive _ _ I). right. intros E. by rewrite E, lookup_empty in Hp.
Qed.

Lemma attach_inv seg w t vmid slot r k' :
  SInv seg w → members w !! t = Some (Claiming vmid slot) →
  setup_tap_on_bridge (seg_netns seg) (tap_name (seg_prefix seg) vmid) (seg_bridge seg) (wk w) = (r, k') →
  SInv seg {| wk := k'; wslots := wslots w; handles := handles w;
              members := <[t := if is_ok r then Member vmid (membership_of seg vmid slot)
                                else Refused vmid slot]> (members w);
              alive := alive w |}.
Proof.
  intros I Hm Hk. pose proof (member_alive _ _ _ _ I Hm) as Hal.
  destruct (i_bridged _ _ I Hal) as (s & Hs & [x Hx]).
  destruct (attach_keeps _ _ _ _ _ _ Hk s Hs) as (s' & Hs' & Hkeep). split; cbn; [|done|..].
  - eapply books_same; [apply I|done|]. by destruct r.
  - intros _. exists s'. by eauto.
  - intros u p [[<- <-]|[_ Hu]]%lookup_insert_Some; [by destruct r|by eapply (i_wf _ _ I)].
  - intros u v m [[<- E]|[Hne Hu]]%lookup_insert_Some.
    + destruct r as [[]|e]; [|done]. simplify_eq/=.
      pose proof (setup_tap_on_bridge_law (seg_netns seg) (tap_name (seg_prefix seg) v) (seg_bridge seg) (wk w)) as L.
      rewrite Hk in L. destruct L as (s1 & Hs1 & _ & _ & E). exists s'. split; [done|].
      rewrite E, lookup_insert_eq in Hs'. simplify_eq. cbn. apply lookup_insert_eq.
    + destruct (i_tap _ _ I _ _ _ Hu) as (s1 & Hs1 & Hl). simplify_eq. exists s'. by eauto.
Qed.

Lemma untap_inv seg w t vmid m r k' :
  seg_wf seg → SInv seg w → members w !! t = Some (Member vmid m) →
  delete_link (m_netns m) (m_tap_name m) (wk w) = (r, k') →
  SInv seg {| wk := k'; wslots := wslots w; handles := handles w;
              members := <[t := Leaving vmid m]> (members w); alive := alive w |}.
Proof.
  intros (_ & Hbr & _) I Hm Hk. pose proof (member_alive _ _ _ _ I Hm) as Hal.
  pose proof (i_wf _ _ I _ _ Hm) as Hmem. cbn in Hmem. rewrite Hmem in Hk. cbn in Hk.
  destruct (i_bridged _ _ I Hal) as (s & Hs & [x Hx]).
  destruct (untap_keeps _ _ _ _ _ Hk s Hs) as (s' & Hs' & Hkeep). split; cbn; [|done|..].
  - by eapply books_same; [apply I|..].
  - intros _. exists s'. split; [done|]. rewrite Hkeep; [by eauto|].
    rewrite Hbr. apply not_eq_sym, tap_not_bridge.
  - intros u p [[<- <-]|[_ Hu]]%lookup_insert_Some; [done|by eapply (i_wf _ _ I)].
  - intros u v m' [[_ E]|[Hne Hu]]%lookup_insert_Some; [done|].
    destruct (i_tap _ _ I _ _ _ Hu) as (s1 & Hs1 & Hl). simplify_eq. exists s'. split; [done|].
    rewrite Hkeep; [done|]. intros E%tap_name_inj.
    by destruct (members_differ _ _ _ _ _ _ I Hm Hu Hne) as [? _].
Qed.

(** Returning a slot, by either path. *)
Lemma release_inv seg w t p :
  SInv seg w → members w !! t = Some p →
  SInv seg {| wk := wk w; wslots := release_slot (wslots w) (pc_slot p); handles := handles w;
              members := delete t (members w); alive := alive w |}.
Proof.
  intros I Hm. pose proof (member_alive _ _ _ _ I Hm) as Hal. split; cbn; [|done|..].
  - rewrite fmap_delete. eapply (books_release _ _ _ _ (pc_vmid p)); [apply I|].
    by rewrite lookup_fmap, Hm.
  - apply I.
  - intros u q [_ Hu]%lookup_delete_Some. by eapply (i_wf _ _ I).
  - intros u v m [_ Hu]%lookup_delete_Some. by eapply (i_tap _ _ I).
Qed.

Lemma seg_step_inv seg w w' : seg_wf seg → seg_step seg w w' → SInv seg w → SInv seg w'.
Proof.
  intros Hwf Hstep I. pose proof I as [B Ha Hb Hw Ht].
  destruct Hstep as [w Hh|w t v m Hm|w n Hh|w t vmid slot slots' Hh Hn Hr|w t vmid slot r k' Hm Hk
    |w t vmid slot Hm|w t vmid m r k' Hm Hk|w t vmid m Hm|w r k' Hal Hh Hm Hk|w k' Hk].
  - split; cbn; try done. intros _. apply Ha. by left.
  - split; cbn; try done. intros _. by eapply member_alive.
  - split; cbn; try done. intros [H1|H1]; apply Ha; [left; lia|by right].
  - split; cbn; try done.
    + rewrite fmap_insert. eapply books_reserve; [done| |done]. by rewrite lookup_fmap, Hn.
    + intros _. apply Ha. by left.
    + intros u p [[<- <-]|[_ Hu]]%lookup_insert_Some; [done|by eapply Hw].
    + intros u v m [[_ E]|[_ Hu]]%lookup_insert_Some; [done|by eapply Ht].
  - by eapply attach_inv.
  - exact (release_inv _ _ _ _ I Hm).
  - by eapply untap_inv.
  - exact (release_inv _ _ _ _ I Hm).
  - rewrite Hm in B. split; cbn; try done. by intros [?|?].
  - split; cbn; try done.
    + intros E. destruct (Hb E) as (s & Hs & Hx). exists s. by rewrite Hk.
    + intros t v m Hm. destruct (Ht t v m Hm) as (s & Hs & Hx). exists s. by rewrite Hk.
Qed.

Lemma seg_reach_inv seg w : seg_wf seg → seg_reach seg w → SInv seg w.
Proof.
  intros Hwf (k & Hb & Hr). pose proof (seg_inv_init seg k Hb) as I. induction Hr as [|x y z Hs _ IH]; [done|].
  apply IH. by eapply seg_step_inv.
Qed.

(** C27: Under any interleaving of claims, releases, handle clones and drops,
    and any failing netlink call, a running member keeps its place: the
    segment's namespace exists, its tap is attached to the bridge and up, it
    has an address in the segment's /24, and no other claimed or running
    member has its vmid, its slot, its tap or its address. *)
Theorem running_member_connected seg w t v m :
  seg_wf seg → seg_reach seg w → members w !! t = Some (Member v m) →
  alive w = true ∧ on_bridge seg (wk w) v ∧ m_tap_name m = tap_name (seg_prefix seg) v ∧
  ∃ ip c, membership_addresses m = Ok (seg_gateway seg, ip, c) ∧
    ∀ t' p, members w !! t' = Some p → t' ≠ t →
      pc_vmid p ≠ v ∧ pc_slot p ≠ m_slot m ∧ tap_name (seg_prefix seg) (pc_vmid p) ≠ m_tap_name m ∧
      ∃ ip' c', segment_ip_math (seg_segid seg) (pc_slot p) = Ok (seg_gateway seg, ip', c') ∧ ip' ≠ ip.
Proof.
  intros Hwf Hr Hm. pose proof (seg_reach_inv _ _ Hwf Hr) as I.
  pose proof (i_wf _ _ I _ _ Hm) as Hmem. cbn in Hmem.
  destruct Hwf as (_ & _ & Hid & m0 & c0 & Hgw).
  assert (∀ t p, members w !! t = Some p → (1 <= pc_slot p <= MAX_SEGMENT_SLOT)%N) as Hrange.
  { intros u p Hu. eapply (b_range _ _ (i_books _ _ I)), (b_slot _ _ (i_books _ _ I) u).
    by rewrite lookup_fmap, Hu. }
  rewrite segment_ip_math_Ok in Hgw by (done || (unfold MAX_SEGMENT_SLOT; lia)). injection Hgw as Hg _ _.
  split_and!; [by eapply member_alive|by eapply (i_tap _ _ I)|by rewrite Hmem|].
  pose proof (Hrange _ _ Hm) as Hslot. cbn in Hslot.
  assert (m_segid m = seg_segid seg) as Hseg by (by rewrite Hmem).
  eexists _, _. split; [unfold membership_addresses; rewrite Hseg, segment_ip_math_Ok, Hg by done; reflexivity|].
  intros t' p Hp Hne. destruct (members_differ _ _ _ _ _ _ I Hp Hm Hne) as [Hv Hs].
  cbn in Hv, Hs. split_and!; [done..| |].
  - rewrite Hmem. intros E%tap_name_inj. done.
  - eexists _, _. split; [rewrite segment_ip_math_Ok, Hg by eauto; reflexivity|].
    intros [= E]. lia.
Qed.

(** Slots neither leak nor collide.  In every reachable world the slot map
    holds exactly the slots of the members that are claiming, running or
    leaving, a claim is refused as a duplicate only if such a member has the
    vmid and as exhausted only if such members hold all 253 slots, and the
    segment is dropped only when every handle and member is gone. *)
Theorem slots_exact seg w :
  seg_wf seg → seg_reach seg w →
  (∀ s v, wslots w !! s = Some v ↔ ∃ t p, members w !! t = Some p ∧ pc_slot p = s ∧ pc_vmid p = v) ∧
  (alive w = false → handles w = 0 ∧ members w = ∅ ∧ wslots w = ∅) ∧
  (∀ vmid e s', reserve_slot (wslots w) vmid = (Err e, s') →
    (e = SConfig ∧ ∃ t p, members w !! t = Some p ∧ pc_vmid p = vmid) ∨
    (e = SExhaustion ∧ ∀ s, (1 <= s <= MAX_SEGMENT_SLOT)%N →
       ∃ t p, members w !! t = Some p ∧ pc_slot p = s)).
Proof.
  intros Hwf Hr. pose proof (seg_reach_inv _ _ Hwf Hr) as I. pose proof (i_books _ _ I) as B.
  assert (∀ s v, wslots w !! s = Some v ↔
    ∃ t p, members w !! t = Some p ∧ pc_slot p = s ∧ pc_vmid p = v) as Hslots.
  { intros s v. split.
    - intros (t & Ht)%(b_cover _ _ B). rewrite lookup_fmap in Ht.
      destruct (members w !! t) as [p|] eqn:Hp; [|done]. injection Ht as ? ?. by eauto.
    - intros (t & p & Hp & <- & <-). apply (b_slot _ _ B t). by rewrite lookup_fmap, Hp. }
  split; [exact Hslots|]. split.
  - intros Hal. assert (¬ (handles w ≠ 0 ∨ members w ≠ ∅)) as Hn.
    { intros H%(i_alive _ _ I). congruence. }
    assert (members w = ∅) as Hm by (destruct (decide (members w = ∅)); [done|tauto]).
    split_and!; [lia|done|]. apply map_eq. intros s. rewrite lookup_empty.
    destruct (wslots w !! s) as [v|] eqn:E; [|done]. apply Hslots in E as (t & p & Hp & _).
    by rewrite Hm, lookup_empty in Hp.
  - intros vmid e s' He. pose proof (reserve_slot_spec (wslots w) vmid) as S. rewrite He in S.
    destruct e; try done; destruct S as [_ S].
    + left. split; [done|]. destruct S as (s & (t & p & Hp & _ & Hv)%Hslots). by eauto.
    + right. split; [done|]. intros s Hs. destruct (S s Hs) as (v & (t & p & Hp & Hps & _)%Hslots). by eauto.
Qed.

(** Leaving undoes joining.  A member that is claimed and dropped, with
    both netlink calls answering, leaves the slot map and every namespace
    exactly as they were, and a failed claim leaves the slot map as it was and
    at most its own half-made tap behind. *)
Theorem claim_drop_roundtrip seg slots vmid k :
  match claim_member seg slots vmid k with
  | (Ok m, slots', k') =>
      ∀ k'', delete_link (m_netns m) (m_tap_name m) k' = (Ok tt, k'') →
        drop_member m slots' k' = (slots, k'') ∧ nets k'' = nets k
  | (Err _, slots', k') => slots' = slots ∧
      (nets k' = nets k ∨ ∃ s l, nets k !! seg_netns seg = Some s ∧
         links s !! tap_name (seg_prefix seg) vmid = None ∧
         nets k' = <[seg_netns seg := with_links s (<[tap_name (seg_prefix seg) vmid := l]> (links s))]> (nets k))
  end.
Proof.
  unfold claim_member. pose proof (reserve_slot_spec slots vmid) as S.
  destruct (reserve_slot slots vmid) as [[slot|e] slots']; [|destruct e; naive_solver].
  destruct S as (_ & Hfree & -> & _). cbn [m_tap_name membership_of].
  pose proof (setup_tap_on_bridge_law (seg_netns seg) (tap_name (seg_prefix seg) vmid) (seg_bridge seg) k) as L.
  assert (release_slot (<[slot := vmid]> slots) slot = slots) as Hundo.
  { unfold release_slot. rewrite delete_insert_eq. by apply delete_id. }
  destruct (setup_tap_on_bridge _ _ _ k) as [[u|e] k']; [|by rewrite Hundo].
  intros k'' Hd. cbn [m_netns m_tap_name membership_of] in Hd.
  unfold drop_member. cbn [m_netns m_tap_name m_slot membership_of]. rewrite Hd, Hundo. split; [done|].
  pose proof (delete_link_law (seg_netns seg) (tap_name (seg_prefix seg) vmid) k') as D. rewrite Hd in D.
  destruct L as (s & Hs & Hn & _ & L), D as (s' & Hs' & _ & D). rewrite L, lookup_insert_eq in Hs'.
  simplify_eq. by rewrite D, L, insert_insert_eq; cbn [links with_links]; rewrite undo_add.
Qed.
End seg_inv.

(** *** Creation *)

Section seg_create.
Context {CH : ClaimHost} {NL : Netlink}.

Lemma claim_segment_spec nanos a :
  match claim_segment nanos a with
  | (Ok id, a') => (1 <= id <= MAX_SEGMENT_ID)%N ∧ id ∉ active a ∧ active a' = {[id]} ∪ active a
  | (Err _, a') => active a' = active a
  end.
Proof.
  unfold claim_segment, allocate_segid, allocate.
  pose proof (allocate_loop_spec (seeded_id_order nanos MAX_SEGMENT_ID) a) as S.
  destruct (allocate_loop a _) as [[id|e] a'].
  - destruct S as (Hin & Hn & _ & Ha & _). split; [|done]. by apply seeded_id_order_elem in Hin.
  - destruct e; [destruct S as (? & ? & ? & ? & ? & ?)|destruct S as [-> ?]|..]; try done;
      by destruct S as (? & ? & ? & ? & ? & ?).
Qed.

Lemma release_undoes id a a' :
  id ∉ active a → active a' = {[id]} ∪ active a → active (drop_segment_guard id a') = active a.
Proof. intros Hn Ha. cbn. rewrite Ha. set_solver. Qed.

(** A segment is created whole or not at all.  Success means a freshly
    claimed id, a new namespace with the bridge up and holding the gateway
    address of that id, ready for members; failure gives the id back and
    leaves the host's namespaces as they were, unless removing the half-made
    one failed too. *)
Theorem segment_create_contract prefix nanos a k :
  (∀ id, id ∉ active a → nets k !! segment_netns_name prefix id = None) →
  match create_with_netlink prefix nanos a k with
  | (Ok seg, a', k') =>
      seg_wf seg ∧ seg_prefix seg = prefix ∧ valid_prefix prefix ∧
      seg_segid seg ∉ active a ∧ active a' = {[seg_segid seg]} ∪ active a ∧
      ∃ s, nets k' = <[seg_netns seg := s]> (nets k) ∧
        links s !! seg_bridge seg =
          Some {| controller := None; addresses := [(seg_gateway seg, 24%N)]; is_up := true |}
  | (Err _, a', k') => active a' = active a ∧
      (nets k' = nets k ∨ ∃ id s k1 e, nets k' = <[segment_netns_name prefix id := s]> (nets k) ∧
         delete_netns (segment_netns_name prefix id) k1 = (Err e, k'))
  end.
Proof.
  intros Hfree. unfold create_with_netlink.
  destruct (validate_resource_prefix prefix) as [[]|e] eqn:Hp; [|by split; [|left]].
  pose proof (claim_segment_spec nanos a) as C.
  destruct (claim_segment nanos a) as [[id|e] a1]; [|by split; [|left]].
  destruct C as (Hid & Hn & Ha). pose proof (release_undoes _ _ _ Hn Ha) as Hundo.
  specialize (Hfree id Hn). set (name := segment_netns_name prefix id) in *.
  pose proof (segment_ip_math_Ok id 1 Hid ltac:(done)) as Hip.
  rewrite Hip. pose proof (add_netns_law name k) as L.
  destruct (add_netns name k) as [[u|e] k1]; [|by split; [|left]].
  destruct L as (_ & Ho & _). unfold on_error.
  match goal with |- context [create_bridge ?n ?b ?g ?l k1] =>
    pose proof (create_bridge_law n b g l k1) as L; destruct (create_bridge n b g l k1) as [[v|e] k2] end.
  - destruct L as (Ho2 & s & s' & Hs & Hs' & Hb & Hbr & _). cbn [seg_segid seg_prefix seg_netns seg_bridge seg_gateway].
    pose proof (only_ns_trans _ _ _ _ Ho Ho2) as Ho3.
    split; [split; [done|split; [done|split; [done|by eauto]]]|]. split_and!; [done..|]. exists s'. split; [|exact Hbr].
    by apply only_ns_insert_None.
  - destruct L as [Ho2 _]. pose proof (only_ns_trans _ _ _ _ Ho Ho2) as Ho3.
    destruct (delete_netns name k2) as [r k3] eqn:Ed. cbn. split; [exact Hundo|].
    destruct (undo_made_ns name k k2 r k3 Hfree Ho3 Ed) as [?|(s & e2 & ? & ->)]; [by left|].
    right. by eauto 10.
Qed.
End seg_create.

(** ** Impairments *)

Definition duration_ok (d : option N) : Prop :=
  ∀ v, d = Some v → (0 < v <= MAX_IMPAIRMENT_DELAY)%N.

Lemma check_duration_ok d : check_duration d = Ok tt ↔ duration_ok d.
Proof.
  unfold check_duration, duration_ok. destruct d as [v|]; [|naive_solver].
  destruct (N.eqb_spec v 0), (N.ltb_spec MAX_IMPAIRMENT_DELAY v);
    (split; [intros [=] | intros Hd; specialize (Hd v eq_refl)]); try lia; try done.
  intros ? [= <-]. lia.
Qed.

(** [ImpairmentBuilder::build] accepts exactly the impairments that name a
    delay or a loss, whose delay and jitter are non-zero and at most four
    seconds, whose jitter comes with a delay and whose loss is at most 100
    percent, and hands them on unchanged. *)
Theorem impairment_accepted b i :
  impairment_build b = Ok i ↔
    i = b ∧ duration_ok (delay b) ∧ duration_ok (jitter b) ∧
    (is_Some (jitter b) → is_Some (delay b)) ∧
    (∀ l, loss_percent b = Some l → (l <= 100)%N) ∧
    (is_Some (delay b) ∨ is_Some (loss_percent b)).
Proof.
  unfold impairment_build. rewrite <- !check_duration_ok.
  destruct (check_duration (delay b)) as [[]|e]; [|naive_solver].
  destruct (check_duration (jitter b)) as [[]|e]; [|naive_solver].
  destruct b as [d j l]; cbn [delay jitter loss_percent].
  destruct (bool_decide (is_Some j) && bool_decide (d = None)) eqn:E1;
    [|destruct (match l with Some l => (100 <? l)%N | None => false end) eqn:E2;
      [|destruct (bool_decide (d = None) && bool_decide (l = None)) eqn:E3]].
  - apply andb_true_iff in E1 as [Hj%bool_decide_eq_true ->%bool_decide_eq_true].
    split; [done|]. intros (_ & _ & _ & H & _). by destruct (H Hj).
  - destruct l as [l|]; [|done]. apply N.ltb_lt in E2. split; [done|].
    intros (_ & _ & _ & _ & H & _). specialize (H l eq_refl). lia.
  - apply andb_true_iff in E3 as [->%bool_decide_eq_true ->%bool_decide_eq_true].
    split; [done|]. intros (_ & _ & _ & _ & _ & [[]|[]]); done.
  - split; [|by intros (-> & _)]. intros [= <-]. split_and!; [done..| | |].
    + intros Hj. rewrite bool_decide_true in E1 by done. cbn in E1.
      apply bool_decide_eq_false, not_eq_None_Some in E1. done.
    + intros x ->. apply N.ltb_ge in E2. done.
    + apply andb_false_iff in E3 as [E3|E3]; apply bool_decide_eq_false, not_eq_None_Some in E3; auto.
Qed.

(** An accepted impairment that does not impair.  Half a microsecond of
    delay passes [build], which refuses a zero delay as the no-op [tc]
    accepts, and renders as exactly that no-op. *)
Theorem sub_microsecond_delay_is_a_noop :
  let i := {| delay := Some 500%N; jitter := None; loss_percent := None |} in
  impairment_build i = Ok i ∧ netem_args i = ["delay"; "0us"] ∧
  impairment_build {| delay := Some 0%N; jitter := None; loss_percent := None |} = Err SConfig.
Proof. vm_compute. done. Qed.

(** ** A concrete segment *)

Definition demo_created :=
  create_with_netlink (CH := demo_claims) (NL := RtNetlink (NH := demo_net)) "acme" 8 demo_alloc
    {| nets := ∅; calls := 0 |}.

Definition demo_seg : NetSegment := {|
  seg_prefix := "acme"; seg_segid := 9; seg_netns := "acme-seg-9"; seg_bridge := "acme-br-9";
  seg_gateway := (10, 201, 10, 1)%N |}.

Lemma segment_create_contract_witness :
  demo_created.1.1 = Ok demo_seg ∧ active demo_created.1.2 = {[9%N]} ∪ active demo_alloc.
Proof.
  assert (demo_created.1.1 = Ok demo_seg) as H by (vm_compute; reflexivity).
  split; [exact H|].
  pose proof (segment_create_contract (CH := demo_claims) (NL := RtNetlink (NH := demo_net)) "acme" 8
    demo_alloc {| nets := ∅; calls := 0 |} (λ _ _, lookup_empty _)) as C.
  fold demo_created in C. destruct demo_created as [[r a'] k']. cbn in H. subst r.
  destruct C as (_ & _ & _ & _ & Ha & _). exact Ha.
Defined.

(** Two members claimed from it: the first is running, the second has its slot. *)
Definition demo_attach :=
  setup_tap_on_bridge (Netlink := RtNetlink (NH := demo_net)) "acme-seg-9" "acme-tap-5" "acme-br-9" demo_created.2.

Definition demo_world : seg_world := {|
  wk := demo_attach.2;
  wslots := <[2%N := 6%N]> (<[1%N := 5%N]> ∅);
  handles := 1;
  members := <[1 := Claiming 6 2]> (<[0 := Member 5 (membership_of demo_seg 5 1)]> (<[0 := Claiming 5 1]> ∅));
  alive := true |}.

Lemma demo_seg_wf : seg_wf demo_seg.
Proof.
  split; [vm_compute; reflexivity|]. split; [vm_compute; reflexivity|].
  split; [split; vm_compute; discriminate|]. do 2 eexists. vm_compute. reflexivity.
Qed.

Lemma demo_world_reachable : seg_reach (NL := RtNetlink (NH := demo_net)) demo_seg demo_world.
Proof.
  exists demo_created.2. split.
  - assert (match nets demo_created.2 !! "acme-seg-9" with
            | Some s => bool_decide (is_Some (links s !! "acme-br-9")) | None => false end = true)
      as H by (vm_compute; reflexivity).
    unfold bridged. cbn [seg_netns seg_bridge demo_seg].
    destruct (nets demo_created.2 !! "acme-seg-9") as [s|]; [|discriminate H].
    exists s. split; [done|]. by apply bool_decide_eq_true in H.
  - eapply rtc_l; [apply (S_reserve _ _ 0 5 1 (<[1%N := 5%N]> ∅)); [done|done|vm_compute; reflexivity]|].
    assert (demo_attach.1 = Ok tt) as Ha by (vm_compute; reflexivity).
    eapply rtc_l.
    + refine (S_attach _ _ 0 5 1 demo_attach.1 demo_attach.2 _ _); [done|].
      change (demo_attach = (demo_attach.1, demo_attach.2)). by destruct demo_attach.
    + rewrite Ha. eapply rtc_once.
      match goal with |- seg_step _ ?w _ =>
        refine (S_reserve _ w 1 6 2 (<[2%N := 6%N]> (<[1%N := 5%N]> ∅)) _ _ _) end;
        [done|done|vm_compute; reflexivity].
Qed.

Lemma running_member_connected_witness :
  on_bridge demo_seg (wk demo_world) 5 ∧
  ∃ ip c, membership_addresses (membership_of demo_seg 5 1) = Ok ((10, 201, 10, 1)%N, ip, c).
Proof.
  destruct (running_member_connected (NL := RtNetlink (NH := demo_net)) demo_seg demo_world 0 5
    (membership_of demo_seg 5 1) demo_seg_wf demo_world_reachable eq_refl) as (_ & Hb & _ & ip & c & Ha & _).
  split; [exact Hb|]. exists ip, c. exact Ha.
Defined.

Lemma slots_exact_witness :
  (alive demo_world = false → handles demo_world = 0 ∧ members demo_world = ∅ ∧ wslots demo_world = ∅) ∧
  ∃ t p, members demo_world !! t = Some p ∧ pc_slot p = 2%N ∧ pc_vmid p = 6%N.
Proof.
  destruct (slots_exact (NL := RtNetlink (NH := demo_net)) demo_seg demo_world demo_seg_wf demo_world_reachable)
    as (H1 & H2 & _).
  split; [exact H2|]. apply (proj1 (H1 2%N 6%N)). reflexivity.
Defined.
