(* ===== verification/Words.v ===== *)
(** * Splitting a line into words

    Facts about [str::split_whitespace] and [str::split_ascii_whitespace] (see
    [Prelude.v]) shared by the components that parse whitespace-separated
    lines: splitting is a homomorphism at a space, and a string without a
    whitespace character is one word. *)

From S2P Require Import Prelude.

Definition space : ascii := " ".

(** No suffix starts with a whitespace character: for valid UTF-8, the string
    has no whitespace character. *)
Definition no_ws (s : string) : Prop := ∀ t u, s = t +:+ u → strip_whitespace u = None.

Lemma strip_prefix_app w a c b :
  c ∉ bytes w → strip_prefix w (a +:+ String c b) = (λ r, r +:+ String c b) <$> strip_prefix w a.
Proof.
  revert a. induction w as [|x w IH]; intros a Hc; cbn [bytes] in Hc; [by destruct a|].
  apply not_elem_of_cons in Hc as [Hx Hc]. destruct a as [|d a].
  - rewrite append_nil_l. cbn. by rewrite decide_False by congruence.
  - rewrite append_cons. cbn. case_decide; [by apply IH|done].
Qed.

Lemma strip_ws_app a c b :
  a ≠ "" → is_graphic c = true ∨ c = space →
  strip_whitespace (a +:+ String c b) = (λ r, r +:+ String c b) <$> strip_whitespace a.
Proof.
  intros Ha Hc. unfold strip_ws.
  assert (Forall (λ w, w ≠ "" ∧ Forall (λ x, is_graphic x = false ∧ x ≠ space) (tail (bytes w)))
    whitespace_chars) as Hall.
  { refine (bool_decide_unpack _ _). vm_compute. exact I. }
  assert (∀ w, w ∈ whitespace_chars →
    strip_prefix w (a +:+ String c b) = (λ r, r +:+ String c b) <$> strip_prefix w a) as Hw.
  { intros w Hw. rewrite Forall_forall in Hall. destruct (Hall w Hw) as [Hne Ht].
    destruct w as [|x w]; [done|]. destruct a as [|d a]; [done|]. rewrite append_cons. cbn.
    case_decide; [|done]. apply strip_prefix_app. cbn in Ht. rewrite Forall_forall in Ht.
    intros Hin. destruct (Ht c Hin). destruct Hc; congruence. }
  clear Hall. induction whitespace_chars as [|w ws IH]; [done|]. cbn.
  rewrite Hw by constructor. destruct (strip_prefix w a); [done|]. cbn.
  apply IH. intros w' Hw'. apply Hw. by constructor.
Qed.

Lemma no_ws_cons c s : is_graphic c = true → no_ws s → no_ws (String c s).
Proof.
  intros Hc Hs [|d t] u Hu; rewrite ?append_nil_l, ?append_cons in Hu.
  - subst u. by apply strip_whitespace_cons.
  - injection Hu as -> Hu. by eapply Hs.
Qed.

Lemma no_ws_nil : no_ws "".
Proof. intros [|d t] [|e u] Hu; try done. Qed.

Lemma no_ws_graphic s : Forall is_graphic (bytes s) → no_ws s.
Proof.
  induction s as [|c s IH]; intros Hs; [apply no_ws_nil|]. apply Forall_cons in Hs as [Hc Hs].
  apply no_ws_cons; [by destruct (is_graphic c)|by apply IH].
Qed.

Lemma no_ws_tail c s : no_ws (String c s) → no_ws s.
Proof. intros H t u ->. by apply (H (String c t) u). Qed.

Lemma no_ws_app a c b : is_graphic c = true → no_ws a → no_ws b → no_ws (a +:+ String c b).
Proof.
  intros Hc. induction a as [|d a IH]; intros Ha Hb; [by apply no_ws_cons|].
  intros [|e t] u Hu; rewrite append_cons in Hu.
  - rewrite append_nil_l in Hu. subst u. rewrite <- append_cons, strip_ws_app by auto.
    by rewrite (Ha "" (String d a) eq_refl).
  - rewrite append_cons in Hu. injection Hu as -> Hu. eapply IH; [by eapply no_ws_tail|done..].
Qed.

Lemma no_ws_prefix a s : Forall is_graphic (bytes a) → no_ws s → no_ws (a +:+ s).
Proof.
  induction a as [|c a IH]; intros Ha Hs; [done|]. apply Forall_cons in Ha as [Hc Ha].
  rewrite append_cons. apply no_ws_cons; [by destruct (is_graphic c)|by apply IH].
Qed.

(** ** [split_whitespace] *)

Lemma strip_whitespace_shorter s s' : strip_whitespace s = Some s' → String.length s' < String.length s.
Proof.
  unfold strip_ws. intros H. assert (s' ∈ omap (λ w, strip_prefix w s) whitespace_chars) as Hin.
  { destruct (omap _ _); [done|]. cbn in H. simplify_eq. constructor. }
  apply list_elem_of_omap in Hin as (w & Hw & Hp).
  assert (Forall (λ w, w ≠ "") whitespace_chars) as Hall by (refine (bool_decide_unpack _ _); vm_compute; exact I).
  rewrite Forall_forall in Hall. specialize (Hall w Hw). clear Hw H. revert s Hp.
  assert (∀ w s, strip_prefix w s = Some s' → String.length s' ≤ String.length s) as Hle.
  { clear. intros w. induction w as [|x w IH]; intros [|y s] H; cbn in H; simplify_eq; try done.
    case_decide; [|done]. apply IH in H. cbn. lia. }
  intros [|y s] Hp; destruct w as [|x w]; cbn in Hp; try done.
  case_decide; [|done]. apply Hle in Hp. cbn. lia.
Qed.

Lemma split_ws_loop_S f s :
  split_ws_loop (S f) s =
    match strip_whitespace s with
    | Some s' => EmptyString :: split_ws_loop f s'
    | None =>
        match s with
        | EmptyString => [EmptyString]
        | String a s' =>
            match split_ws_loop f s' with
            | h :: t => String a h :: t
            | [] => [String a EmptyString]
            end
        end
    end.
Proof. reflexivity. Qed.

Lemma split_ws_loop_nil f : split_ws_loop (S f) "" = [""].
Proof. rewrite split_ws_loop_S. reflexivity. Qed.

Lemma split_ws_loop_fuel f1 : ∀ f2 s,
  String.length s < f1 → String.length s < f2 → split_ws_loop f1 s = split_ws_loop f2 s.
Proof.
  induction f1 as [|f1 IH]; intros f2 s H1 H2; [lia|]. destruct f2 as [|f2]; [lia|]. rewrite !split_ws_loop_S.
  destruct (strip_whitespace s) as [s'|] eqn:E.
  - apply strip_whitespace_shorter in E. f_equal. apply IH; lia.
  - destruct s as [|a s]; [done|]. cbn in H1, H2. by rewrite (IH f2 s) by lia.
Qed.

Lemma split_ws_loop_cons f s : ∃ h t, split_ws_loop f s = h :: t.
Proof.
  revert s. induction f as [|f IH]; intros s; [by cbn; eauto|]. rewrite split_ws_loop_S.
  destruct (strip_whitespace s); [by eauto|]. destruct s as [|a s]; [by eauto|].
  destruct (IH s) as (h & t & ->). by eauto.
Qed.

#[local] Opaque strip_ws whitespace_chars.

Lemma split_ws_loop_app n : ∀ a b f,
  String.length a ≤ n → String.length (a +:+ String space b) < f →
  split_ws_loop f (a +:+ String space b) =
    split_ws_loop (S (String.length a)) a ++ split_ws_loop (S (String.length b)) b.
Proof.
  induction n as [|n IH]; intros a b f Hn Hf; (destruct f as [|f]; [lia|]);
    (destruct a as [|d a]; [|try (cbn in Hn; lia)]).
  1, 2: rewrite append_nil_l in *; rewrite split_ws_loop_S, strip_whitespace_sep by reflexivity;
    change (String.length "") with 0; rewrite split_ws_loop_nil; cbn [app]; f_equal;
    apply split_ws_loop_fuel; cbn in Hf; lia.
  rewrite append_cons in Hf. cbn in Hf. cbn [String.length].
  rewrite split_ws_loop_S, strip_ws_app by (done || by right).
  rewrite (split_ws_loop_S (S (String.length a))).
  destruct (strip_whitespace (String d a)) as [a'|] eqn:E; cbn [fmap option_fmap option_map].
  - apply strip_whitespace_shorter in E. cbn in E, Hn.
    rewrite (IH a' b f) by (try lia; rewrite length_append in *; cbn in *; lia).
    cbn [app]. do 2 f_equal. apply split_ws_loop_fuel; lia.
  - rewrite append_cons. cbn in Hn. rewrite (IH a b f) by (try lia; done).
    destruct (split_ws_loop_cons (S (String.length a)) a) as (h & t & ->). cbn [app]. reflexivity.
Qed.

#[local] Transparent strip_ws.

Lemma split_whitespace_sep a b :
  split_whitespace (a +:+ String space b) = split_whitespace a ++ split_whitespace b.
Proof.
  unfold split_whitespace. rewrite <- filter_app. f_equal.
  apply (split_ws_loop_app (String.length a)); lia.
Qed.

Lemma split_whitespace_word s : no_ws s → s ≠ "" → split_whitespace s = [s].
Proof.
  intros Hs Hne. unfold split_whitespace.
  assert (∀ f s, no_ws s → String.length s < f → split_ws_loop f s = [s]) as H.
  { clear. induction f as [|f IH]; intros s Hs Hf; [lia|]. rewrite split_ws_loop_S.
    rewrite (Hs "" s eq_refl). destruct s as [|a s]; [done|].
    rewrite IH; [done|by eapply no_ws_tail|cbn in Hf; lia]. }
  rewrite H by (done || lia). by rewrite filter_cons, decide_True.
Qed.

(** ** [split_ascii_whitespace] *)

Lemma split_on_cons p s : ∃ h t, split_on p s = h :: t.
Proof.
  induction s as [|a s IH]; cbn; [by eauto|]. destruct (p a); [by eauto|].
  destruct IH as (h & t & ->). by eauto.
Qed.

Lemma split_on_app p a c b : p c = true → split_on p (a +:+ String c b) = split_on p a ++ split_on p b.
Proof.
  intros Hc. induction a as [|d a IH]; [rewrite append_nil_l; cbn; by rewrite Hc|].
  rewrite append_cons. cbn [split_on]. rewrite IH. destruct (p d); [done|].
  destruct (split_on_cons p a) as (h & t & ->). done.
Qed.

Lemma split_ascii_whitespace_sep a b :
  split_ascii_whitespace (a +:+ String space b) = split_ascii_whitespace a ++ split_ascii_whitespace b.
Proof. unfold split_ascii_whitespace. rewrite <- filter_app. f_equal. by apply split_on_app. Qed.

Lemma ascii_whitespace_strips c s : is_ascii_whitespace c = true → strip_whitespace (String c s) ≠ None.
Proof.
  intros H%bool_decide_eq_true Hn. unfold strip_ws in Hn. rewrite head_None in Hn.
  assert (utf8 [byte_N c] ∈ whitespace_chars) as Hin.
  { rewrite !elem_of_cons, elem_of_nil in H.
    destruct H as [->|[->|[->|[->|[->|[]]]]]]; refine (bool_decide_unpack _ _); vm_compute; exact I. }
  assert (s ∈ omap (λ w, strip_prefix w (String c s)) whitespace_chars) as Hs.
  { apply list_elem_of_omap. exists (utf8 [byte_N c]). split; [done|]. cbn.
    unfold byte_N. rewrite ascii_N_embedding. rewrite decide_True by done. by destruct s. }
  rewrite Hn in Hs. by apply not_elem_of_nil in Hs.
Qed.

Lemma split_ascii_whitespace_word s : no_ws s → s ≠ "" → split_ascii_whitespace s = [s].
Proof.
  intros Hs Hne. unfold split_ascii_whitespace.
  assert (split_on is_ascii_whitespace s = [s]) as ->; [|by rewrite filter_cons, decide_True].
  clear Hne. induction s as [|a s IH]; [done|]. cbn.
  destruct (is_ascii_whitespace a) eqn:Ha.
  - exfalso. apply (ascii_whitespace_strips a s Ha). by apply (Hs "").
  - by rewrite IH by (by eapply no_ws_tail).
Qed.

(** What the two have in common. *)
Class Splitter (W : string → list string) := {
  sp_sep a b : W (a +:+ String space b) = W a ++ W b;
  sp_word s : no_ws s → s ≠ "" → W s = [s];
  sp_nil : W "" = [];
}.

#[export] Instance whitespace_splitter : Splitter split_whitespace := {|
  sp_sep := split_whitespace_sep; sp_word := split_whitespace_word; sp_nil := eq_refl |}.
#[export] Instance ascii_whitespace_splitter : Splitter split_ascii_whitespace := {|
  sp_sep := split_ascii_whitespace_sep; sp_word := split_ascii_whitespace_word; sp_nil := eq_refl |}.
