(* ===== verification/Cmdline.v ===== *)
(** * The kernel command line

    Both ends of the channel that carries a cell's configuration to the guest:
    [build_kernel_cmdline] with the checks of [VmConfigBuilder::build] on what it
    splices ([crates/vmcell/src/config.rs]), the shared tuning tokens
    ([crates/vmcell-protocol/src/lib.rs]), and the parsers of the guest steward
    ([crates/vmcell-steward/src/options.rs]).

    Strings are the bytes of valid UTF-8, in which the encoding of a character
    only occurs at a character boundary, so "some character is ..." is "some
    suffix starts with the encoding of ...".  A [Duration] is its nanoseconds. *)

From S2P Require Import Prelude Words Naming IdAlloc NetAddr Tap Segment.

#[local] Opaque whitespace_chars strip_ws.

(** ** Tuning tokens *)

Record TuningToken := {
  token : string;
  tt_default : N;
  floor : N;
  ceiling : N;    (** milliseconds *)
}.

Definition STEWARD_VSOCK_PORT : N := 5000.
Definition STEWARD_ACCEPT_POLL : TuningToken :=
  {| token := "vmcell_accept_poll_ms="; tt_default := 20; floor := 1; ceiling := 10000 |}.
Definition STEWARD_REBIND_IDLE : TuningToken :=
  {| token := "vmcell_rebind_idle_ms="; tt_default := 250; floor := 20; ceiling := 60000 |}.

(** A [Duration], in nanoseconds; [as_millis] is a [u128], narrowed by
    saturation. *)
Definition ms_of (nanos : N) : N :=
  let ms := (nanos / 1000000)%N in if (ms <=? u64_max)%N then ms else u64_max.

Definition render (t : TuningToken) (nanos : N) : string := token t +:+ pretty (ms_of nanos).

(** ** The host's side *)

Inductive Access := ReadOnly | ReadWrite.

#[global] Instance Access_eq_dec : EqDecision Access.
Proof. solve_decision. Defined.

Record Share := { tag : string; host_path : string; guest_path : string; access : Access }.

Inductive ConsoleMode := Uart | VirtioConsole.
Definition console (c : ConsoleMode) : string :=
  match c with Uart => "ttyS0" | VirtioConsole => "hvc0" end.

Inductive KernelVerbosity := Quiet | Balanced | Verbose | Debug_.
Definition loglevel (v : KernelVerbosity) : N :=
  match v with Quiet => 3 | Balanced => 6 | Verbose => 7 | Debug_ => 8 end.

Inductive StewardPlacement := Pid1 | Service (port : N) | NoSteward.
Definition steward_port (p : StewardPlacement) : option N :=
  match p with
  | Pid1 => Some STEWARD_VSOCK_PORT
  | Service port => Some port
  | NoSteward => None
  end.

(** The fields of [VmConfig] the command line depends on. *)
Record VmConfig := {
  rootfs_is_erofs : bool;
  init : option string;
  steward_placement : StewardPlacement;
  console_mode : ConsoleMode;
  kernel_verbosity : KernelVerbosity;
  net_is_none : bool;
  nested_virt : bool;
  shares : list Share;
  guest_accept_poll : N;
  guest_rebind_idle : N;     (** nanoseconds *)
  extra_kernel_args : list string;
}.

Record PerVmResources := { vmid : N; segment : option SegmentMembership }.

Definition DEFAULT_INIT : string := "/usr/sbin/vmcell-steward".

Definition share_arg (s : Share) : string :=
  " vmcell_share=" +:+ tag s +:+ ":" +:+ guest_path s +:+ ":" +:+
  match access s with ReadOnly => "ro" | ReadWrite => "rw" end.

Definition push_share_args (cmdline : string) (l : list Share) : string :=
  foldl (λ c s, c +:+ share_arg s) cmdline l.

Definition push_guest_timeout_args (cmdline : string) (cfg : VmConfig) : string :=
  cmdline +:+ " " +:+ render STEWARD_ACCEPT_POLL (guest_accept_poll cfg) +:+
  " " +:+ render STEWARD_REBIND_IDLE (guest_rebind_idle cfg).

Definition push_extra_kernel_args (cmdline : string) (args : list string) : string :=
  foldl (λ c a, c +:+ " " +:+ a) cmdline args.

Definition steward_port_token (cfg : VmConfig) : string :=
  match steward_port (steward_placement cfg) with
  | Some port =>
      if decide (port = STEWARD_VSOCK_PORT) then "" else " vmcell_steward_port=" +:+ pretty port
  | None => ""
  end.

Definition ip_token (cfg : VmConfig) (res : PerVmResources) : result net_error string :=
  match segment res with
  | Some membership =>
      let? (gateway, guest_ip, _) := membership_addresses membership in
      Ok (" ip=" +:+ ip_to_string guest_ip +:+ "::" +:+ ip_to_string gateway +:+
          ":255.255.255.0::eth0:off")
  | None =>
      if net_is_none cfg then Ok "" else
      let? (host_ip, guest_ip, _) := ip_math (vmid res) in
      Ok (" ip=" +:+ ip_to_string guest_ip +:+ "::" +:+ ip_to_string host_ip +:+
          ":255.255.255.252::eth0:off")
  end.

Definition base_cmdline (cfg : VmConfig) (res : PerVmResources) (backend_extra : string) : string :=
  "console=" +:+ console (console_mode cfg) +:+
  " loglevel=" +:+ pretty (loglevel (kernel_verbosity cfg)) +:+
  " random.trust_cpu=on random.trust_bootloader=on cryptomgr.notests raid=noautodetect root=/dev/vda rootfstype=" +:+
  (if rootfs_is_erofs cfg then "erofs" else "ext4") +:+ " ro " +:+
  (if rootfs_is_erofs cfg then "" else "rootflags=noload") +:+ " panic=1 " +:+ backend_extra +:+
  "init=" +:+ default DEFAULT_INIT (init cfg) +:+ " vmcell_vmid=" +:+ pretty (vmid res) +:+
  steward_port_token cfg.

Definition build_kernel_cmdline (cfg : VmConfig) (res : PerVmResources) (backend_extra : string)
    : result net_error string :=
  let s := base_cmdline cfg res backend_extra in
  let? ip := ip_token cfg res in
  let s := s +:+ ip in
  let s := s +:+ (if nested_virt cfg then " kvm-intel.nested=1 kvm-amd.nested=1"
                  else " kvm-intel.nested=0 kvm-amd.nested=0") in
  let s := push_share_args s (shares cfg) in
  let s := push_guest_timeout_args s cfg in
  Ok (push_extra_kernel_args s (extra_kernel_args cfg)).

(** The fragment Firecracker adds; the other backends add nothing. *)
Definition noxsave_fallback (has_cpu_template : bool) : string :=
  if has_cpu_template then "" else "noxsave ".

(** *** The checks of [build] *)

Definition RESERVED_CMDLINE_KEYS : list string :=
  ["console"; "loglevel"; "random.trust_cpu"; "random.trust_bootloader"; "cryptomgr.notests";
   "raid"; "root"; "rootfstype"; "rootflags"; "ro"; "panic"; "init"; "ip"; "kvm-intel.nested";
   "kvm-amd.nested"; "noxsave"; "rw"; "quiet"; "debug"; "ignore_loglevel"].

Definition quote_char : ascii := ascii_of_N 34.

Definition normalize_cmdline_key (key : string) : string :=
  replace_char "-" "_" (default key (strip_prefix (String quote_char "") key)).

(** [arg.split('=').next()]. *)
Definition arg_key (arg : string) : string := default arg (head (str_split "=" arg)).

Definition is_reserved_cmdline_arg (arg : string) : bool :=
  let key := normalize_cmdline_key (arg_key arg) in
  starts_with "vmcell_" key ||
  existsb (λ r, bool_decide (normalize_cmdline_key r = key)) RESERVED_CMDLINE_KEYS.

(** Does the string start with a control character ([Cc]: up to 1F and 7F to 9F)? *)
Definition starts_control (s : string) : bool :=
  match s with
  | String c s' =>
      (byte_N c <? 32)%N || (byte_N c =? 127)%N ||
      ((byte_N c =? 194)%N &&
       match s' with String d _ => (128 <=? byte_N d)%N && (byte_N d <=? 159)%N | _ => false end)
  | EmptyString => false
  end.

Definition starts_unsafe (s : string) : bool :=
  bool_decide (is_Some (strip_whitespace s)) || starts_control s ||
  match s with String c _ => bool_decide (c = quote_char) | EmptyString => false end.

(** [s.chars().any(is_cmdline_unsafe_char)]. *)
Fixpoint any_unsafe_char (s : string) : bool :=
  starts_unsafe s || match s with String _ s' => any_unsafe_char s' | EmptyString => false end.

Inductive cfg_error := CConfig.

Definition validate_init_path (s : string) : result cfg_error unit :=
  if decide (s = "") then Err CConfig else
  if negb (starts_with "/" s) then Err CConfig else
  if any_unsafe_char s then Err CConfig else Ok tt.

Definition validate_extra_kernel_arg (arg : string) : result cfg_error unit :=
  if decide (arg = "") then Err CConfig else
  if any_unsafe_char arg then Err CConfig else
  if is_reserved_cmdline_arg arg then Err CConfig else Ok tt.

Definition contains_char (c : ascii) (s : string) : bool := bool_decide (c ∈ bytes s).

(** [is_one_component] is the path check on the tag and [seen] what earlier
    shares took. *)
Definition is_one_component (t : string) : bool :=
  negb (contains_char "/" t) && negb (bool_decide (t = ".")) && negb (bool_decide (t = "..")).

Definition validate_share (seen : list string * list string) (s : Share)
    : result cfg_error (list string * list string) :=
  if decide (tag s = "") then Err CConfig else
  if contains_char ":" (tag s) || any_unsafe_char (tag s) then Err CConfig else
  if negb (is_one_component (tag s)) then Err CConfig else
  if decide (tag s ∈ seen.1) then Err CConfig else
  if negb (starts_with "/" (guest_path s)) then Err CConfig else
  if contains_char ":" (guest_path s) || any_unsafe_char (guest_path s) then Err CConfig else
  if decide (guest_path s ∈ seen.2) then Err CConfig else
  if decide (host_path s = "") then Err CConfig else
  if negb (starts_with "/" (host_path s)) then Err CConfig else
  Ok (tag s :: seen.1, guest_path s :: seen.2).

Fixpoint validate_shares (seen : list string * list string) (l : list Share) : result cfg_error unit :=
  match l with
  | [] => Ok tt
  | s :: l => let? seen := validate_share seen s in validate_shares seen l
  end.

Fixpoint validate_extra_args (l : list string) : result cfg_error unit :=
  match l with
  | [] => Ok tt
  | a :: l => let? _ := validate_extra_kernel_arg a in validate_extra_args l
  end.

Definition validate_cmdline_inputs (cfg : VmConfig) : result cfg_error unit :=
  let? _ := validate_shares ([], []) (shares cfg) in
  let? _ := match init cfg with Some i => validate_init_path i | None => Ok tt end in
  validate_extra_args (extra_kernel_args cfg).

(** ** The guest's side *)

Inductive StewardPortToken := Absent | Valid (port : N) | Invalid (raw : string).

Fixpoint find_map {A B} (f : A → option B) (l : list A) : option B :=
  match l with
  | [] => None
  | a :: l => match f a with Some b => Some b | None => find_map f l end
  end.

Definition parse_steward_port (cmdline : string) : StewardPortToken :=
  match find_map (strip_prefix "vmcell_steward_port=") (split_whitespace cmdline) with
  | None => Absent
  | Some raw =>
      match parse_uint u32_max raw with
      | Some port => if (port =? 0)%N || (port =? u32_max)%N then Invalid raw else Valid port
      | None => Invalid raw
      end
  end.

Record ShareMount := { sm_tag : string; mount_point : string; read_only : bool }.

(** [s.splitn(3, ':')]: the third part keeps the rest, separators included. *)
Definition splitn3 (s : string) : list string :=
  match str_split ":" s with
  | a :: b :: c :: rest => [a; b; String.concat ":" (c :: rest)]
  | l => l
  end.

Definition parse_share (spec : string) : option ShareMount :=
  match splitn3 spec with
  | [tag; mount_point; access] =>
      if decide (tag = "" ∨ mount_point = "") then None else
      if decide (access = "ro") then Some {| sm_tag := tag; mount_point := mount_point; read_only := true |}
      else if decide (access = "rw") then Some {| sm_tag := tag; mount_point := mount_point; read_only := false |}
      else None
  | _ => None
  end.

Definition parse_share_mounts (cmdline : string) : list ShareMount :=
  omap parse_share (omap (strip_prefix "vmcell_share=") (split_ascii_whitespace cmdline)).

(** [Duration::from_millis]; the result in milliseconds. *)
Definition parse_ms (cmdline key : string) (default_ms floor_ms ceil_ms : N) : N :=
  match find_map (λ tok, raw ← strip_prefix key tok; parse_uint u64_max raw)
                 (split_ascii_whitespace cmdline) with
  | None => default_ms
  | Some v => N.min ceil_ms (N.max floor_ms v)
  end.

Definition parse_tuning (cmdline : string) (t : TuningToken) : N :=
  parse_ms cmdline (token t) (tt_default t) (floor t) (ceiling t).

(** What [StewardOptions::apply_cmdline] makes of a line. *)
Record StewardTuning := { accept_poll : N; rebind_idle : N; vsock_port : N }.

Definition apply_cmdline (o : StewardTuning) (cmdline : string) : StewardTuning :=
  {| accept_poll := parse_tuning cmdline STEWARD_ACCEPT_POLL;
     rebind_idle := parse_tuning cmdline STEWARD_REBIND_IDLE;
     vsock_port := match parse_steward_port cmdline with
                   | Valid port => port
                   | _ => vsock_port o
                   end |}.

Definition steward_defaults : StewardTuning :=
  {| accept_poll := tt_default STEWARD_ACCEPT_POLL; rebind_idle := tt_default STEWARD_REBIND_IDLE;
     vsock_port := STEWARD_VSOCK_PORT |}.

(** The placement check of [build]. *)
Definition validate_placement (cfg : VmConfig) : result cfg_error unit :=
  match steward_placement cfg with
  | Pid1 => if decide (is_Some (init cfg)) then Err CConfig else Ok tt
  | Service port => if (port =? 0)%N || (port =? u32_max)%N then Err CConfig else Ok tt
  | NoSteward => Ok tt
  end.

(** ** Lemmas *)

Lemma safe_no_ws s : any_unsafe_char s = false → no_ws s.
Proof.
  induction s as [|c s IH]; intros H; [apply no_ws_nil|].
  cbn [any_unsafe_char] in H. apply orb_false_iff in H as [Hu Hs].
  intros [|d t] u E; rewrite ?append_nil_l, ?append_cons in E.
  - subst u. unfold starts_unsafe in Hu. rewrite !orb_false_iff in Hu.
    destruct Hu as [[Hw%bool_decide_eq_false _] _]. by apply eq_None_not_Some.
  - injection E as -> E. by eapply IH.
Qed.

Create HintDb cmdline.
#[local] Hint Resolve pretty_graphic ip_graphic graphic_app : cmdline.

(** A word: not empty, no whitespace. *)
Definition is_word (s : string) : Prop := no_ws s ∧ s ≠ "".

Lemma lit_word a s : a ≠ "" → forallb is_graphic (bytes a) = true → no_ws s → is_word (a +:+ s).
Proof.
  intros Hne Ha Hs. split; [|by destruct a].
  apply no_ws_prefix; [|done]. apply Forall_forall. intros x Hx. rewrite forallb_forall in Ha.
  apply Is_true_true, Ha. by apply list_elem_of_In.
Qed.

Lemma lit_graphic_word a s :
  a ≠ "" → forallb is_graphic (bytes a) = true → Forall is_graphic (bytes s) → is_word (a +:+ s).
Proof. intros. apply lit_word; [done..|]. by apply no_ws_graphic. Qed.

Definition share_token (s : Share) : string :=
  "vmcell_share=" +:+ tag s +:+ String ":" (guest_path s +:+ String ":"
    (match access s with ReadOnly => "ro" | ReadWrite => "rw" end)).

Definition share_ok (s : Share) : Prop :=
  tag s ≠ "" ∧ guest_path s ≠ "" ∧ no_ws (tag s) ∧ no_ws (guest_path s) ∧
  ":"%char ∉ bytes (tag s) ∧ ":"%char ∉ bytes (guest_path s).

Definition extra_ok (a : string) : Prop := is_word a ∧ is_reserved_cmdline_arg a = false.

Lemma contains_char_false c s : contains_char c s = false ↔ c ∉ bytes s.
Proof. unfold contains_char. by rewrite bool_decide_eq_false. Qed.

Lemma validate_shares_ok seen l : validate_shares seen l = Ok tt → Forall share_ok l.
Proof.
  revert seen. induction l as [|s l IH]; intros seen; [done|]. cbn.
  unfold validate_share. repeat (case_decide; [done|]).
  destruct (contains_char ":" (tag s) || any_unsafe_char (tag s)) eqn:E1; [done|].
  destruct (negb (is_one_component (tag s))); [done|]. case_decide; [done|].
  destruct (starts_with "/" (guest_path s)) eqn:E2; cbn [negb]; [|done].
  destruct (contains_char ":" (guest_path s) || any_unsafe_char (guest_path s)) eqn:E3; [done|].
  do 2 (case_decide; [done|]). destruct (negb _); [done|]. intros Hl. constructor; [|by eapply IH].
  apply orb_false_iff in E1 as [? ?], E3 as [? ?].
  split_and!; try (by apply safe_no_ws); try (by apply contains_char_false); [done|].
  by destruct (guest_path s).
Qed.

Lemma validate_extra_args_ok l : validate_extra_args l = Ok tt → Forall extra_ok l.
Proof.
  induction l as [|a l IH]; [done|]. cbn. unfold validate_extra_kernel_arg. case_decide; [done|].
  destruct (any_unsafe_char a) eqn:E1; [done|]. destruct (is_reserved_cmdline_arg a) eqn:E2; [done|].
  intros Hl. constructor; [|by apply IH]. split; [split; [by apply safe_no_ws|done]|done].
Qed.

Section words.
Context {W : string → list string} {SW : Splitter W}.

Lemma word_then a r : is_word a → W (a +:+ String space r) = a :: W r.
Proof. intros [H1 H2]. by rewrite sp_sep, sp_word. Qed.

Lemma word_then2 a b r : is_word (a +:+ b) → W (a +:+ b +:+ String space r) = (a +:+ b) :: W r.
Proof. intros Hw. rewrite <- append_assoc. by apply word_then. Qed.

Lemma lit_then a r :
  a ≠ "" → forallb is_graphic (bytes a) = true → W (a +:+ String space r) = a :: W r.
Proof.
  intros Hne Ha. apply word_then. rewrite <- (append_nil_r a). apply lit_word; [done..|]. apply no_ws_nil.
Qed.

Lemma lit_end a : a ≠ "" → forallb is_graphic (bytes a) = true → W a = [a].
Proof.
  intros Hne Ha. apply sp_word; [|done]. rewrite <- (append_nil_r a). by apply lit_word, no_ws_nil.
Qed.

(** The tokens of the command line, in order. *)
Definition host_words (cfg : VmConfig) (res : PerVmResources) (backend_extra : string) : list string :=
  ["console=" +:+ console (console_mode cfg); "loglevel=" +:+ pretty (loglevel (kernel_verbosity cfg));
   "random.trust_cpu=on"; "random.trust_bootloader=on"; "cryptomgr.notests"; "raid=noautodetect";
   "root=/dev/vda"; "rootfstype=" +:+ (if rootfs_is_erofs cfg then "erofs" else "ext4"); "ro"] ++
  (if rootfs_is_erofs cfg then [] else ["rootflags=noload"]) ++ ["panic=1"] ++
  (if decide (backend_extra = "") then [] else ["noxsave"]) ++
  ["init=" +:+ default DEFAULT_INIT (init cfg); "vmcell_vmid=" +:+ pretty (vmid res)].

Definition port_words (cfg : VmConfig) : list string :=
  match steward_port (steward_placement cfg) with
  | Some port => if decide (port = STEWARD_VSOCK_PORT) then [] else ["vmcell_steward_port=" +:+ pretty port]
  | None => []
  end.

Definition backend_extra_ok (e : string) : Prop := e = "" ∨ ∃ has_cpu_template, e = noxsave_fallback has_cpu_template.

Lemma backend_extra_cases e : backend_extra_ok e → e = "" ∨ e = "noxsave ".
Proof. intros [->|[[] ->]]; auto. Qed.

Lemma base_words cfg res e :
  backend_extra_ok e → no_ws (default DEFAULT_INIT (init cfg)) →
  W (base_cmdline cfg res e) = host_words cfg res e ++ port_words cfg.
Proof.
  intros He Hi.
  assert (W ("vmcell_vmid=" +:+ pretty (vmid res) +:+ steward_port_token cfg) =
    ("vmcell_vmid=" +:+ pretty (vmid res)) :: port_words cfg) as Htail.
  { unfold steward_port_token, port_words.
    assert (is_word ("vmcell_vmid=" +:+ pretty (vmid res))) as Hw
      by (apply lit_graphic_word; [done|done|apply pretty_graphic]).
    destruct (steward_port (steward_placement cfg)) as [port|]; [case_decide|];
      rewrite ?append_nil_r; try (by rewrite sp_word by apply Hw).
    change (" vmcell_steward_port=" +:+ pretty port) with (String space ("vmcell_steward_port=" +:+ pretty port)).
    rewrite word_then2 by done. f_equal.
    destruct (lit_graphic_word "vmcell_steward_port=" (pretty port)) as [H1 H2]; [done|done|apply pretty_graphic|].
    by rewrite (sp_word (W:=W) _ H1 H2). }
  set (tail := "vmcell_vmid=" +:+ pretty (vmid res) +:+ steward_port_token cfg) in *.
  change (base_cmdline cfg res e) with
    ("console=" +:+ console (console_mode cfg) +:+ String space
    ("loglevel=" +:+ pretty (loglevel (kernel_verbosity cfg)) +:+ String space
    ("random.trust_cpu=on" +:+ String space ("random.trust_bootloader=on" +:+ String space
    ("cryptomgr.notests" +:+ String space ("raid=noautodetect" +:+ String space ("root=/dev/vda" +:+ String space
    ("rootfstype=" +:+ (if rootfs_is_erofs cfg then "erofs" else "ext4") +:+ String space
    ("ro" +:+ String space ((if rootfs_is_erofs cfg then "" else "rootflags=noload") +:+ String space
    ("panic=1" +:+ String space (e +:+ "init=" +:+ default DEFAULT_INIT (init cfg) +:+ String space tail)))))))))))).
  rewrite word_then2 by (by destruct (console_mode cfg); apply lit_graphic_word; repeat constructor).
  rewrite word_then2 by (apply lit_graphic_word; [done|done|apply pretty_graphic]).
  rewrite !lit_then by done.
  rewrite word_then2 by (by destruct (rootfs_is_erofs cfg); apply lit_graphic_word; repeat constructor).
  rewrite (lit_then "ro") by done.
  assert (W (e +:+ "init=" +:+ default DEFAULT_INIT (init cfg) +:+ String space tail) =
    (if decide (e = "") then [] else ["noxsave"]) ++
    ("init=" +:+ default DEFAULT_INIT (init cfg)) :: W tail) as Hinit.
  { assert (is_word ("init=" +:+ default DEFAULT_INIT (init cfg))) as Hw by (by apply lit_word).
    destruct (backend_extra_cases e He) as [->| ->].
    - rewrite decide_True, append_nil_l by done. by apply word_then2.
    - change ("noxsave " +:+ ?x) with ("noxsave" +:+ String space x). rewrite lit_then by done.
      rewrite decide_False by done. cbn [app]. f_equal. by apply word_then2. }
  unfold host_words. destruct (rootfs_is_erofs cfg).
  - rewrite sp_sep, sp_nil, lit_then by done. rewrite Hinit, Htail.
    cbn [app]. by rewrite <- app_assoc.
  - rewrite !lit_then by done. rewrite Hinit, Htail. cbn [app]. by rewrite <- app_assoc.
Qed.

Lemma share_arg_token s : share_arg s = String space (share_token s).
Proof. unfold share_arg, share_token. by destruct (access s). Qed.

Lemma share_token_word s : share_ok s → is_word (share_token s).
Proof.
  intros (H1 & H2 & H3 & H4 & H5 & H6). unfold share_token. apply lit_word; [done..|].
  apply no_ws_app; [done|done|]. apply no_ws_app; [done|done|].
  apply no_ws_graphic. destruct (access s); repeat constructor.
Qed.

Lemma push_shares_words c l :
  Forall share_ok l → W (push_share_args c l) = W c ++ (share_token <$> l).
Proof.
  intros Hl. revert c. induction Hl as [|s l Hs _ IH]; intros c; cbn; [by rewrite app_nil_r|].
  rewrite IH, share_arg_token, sp_sep. destruct (share_token_word s Hs) as [H1 H2].
  rewrite (sp_word (W:=W) _ H1 H2). by rewrite <- app_assoc.
Qed.

Lemma push_extra_words c l : Forall extra_ok l → W (push_extra_kernel_args c l) = W c ++ l.
Proof.
  intros Hl. revert c. induction Hl as [|a l [[H1 H2] _] _ IH]; intros c; cbn; [by rewrite app_nil_r|].
  rewrite IH. change (" " +:+ a) with (String space a). rewrite sp_sep, (sp_word (W:=W) _ H1 H2).
  by rewrite <- app_assoc.
Qed.

Lemma render_word t n : token t ≠ "" → forallb is_graphic (bytes (token t)) = true → is_word (render t n).
Proof. intros. apply lit_graphic_word; [done..|apply pretty_graphic]. Qed.

Lemma push_timeout_words c cfg :
  W (push_guest_timeout_args c cfg) =
    W c ++ [render STEWARD_ACCEPT_POLL (guest_accept_poll cfg); render STEWARD_REBIND_IDLE (guest_rebind_idle cfg)].
Proof.
  unfold push_guest_timeout_args.
  change (c +:+ " " +:+ render STEWARD_ACCEPT_POLL (guest_accept_poll cfg) +:+
    " " +:+ render STEWARD_REBIND_IDLE (guest_rebind_idle cfg)) with
    (c +:+ String space (render STEWARD_ACCEPT_POLL (guest_accept_poll cfg) +:+
       String space (render STEWARD_REBIND_IDLE (guest_rebind_idle cfg)))).
  rewrite sp_sep, word_then by (by apply render_word).
  destruct (render_word STEWARD_REBIND_IDLE (guest_rebind_idle cfg)) as [H1 H2]; [done..|].
  by rewrite (sp_word (W:=W) _ H1 H2).
Qed.

Definition nested_words (b : bool) : list string :=
  if b then ["kvm-intel.nested=1"; "kvm-amd.nested=1"] else ["kvm-intel.nested=0"; "kvm-amd.nested=0"].

(** A token whose head is the literal ["ip="], or none. *)
Definition ip_words_ok (l : list string) : Prop := l = [] ∨ ∃ x, l = ["ip=" +:+ x].

Lemma ip_token_words cfg res ip c :
  ip_token cfg res = Ok ip → ∃ l, ip_words_ok l ∧ W (c +:+ ip) = W c ++ l.
Proof.
  assert (∀ a b m, forallb is_graphic (bytes m) = true → ∃ l, ip_words_ok l ∧
    W (c +:+ " ip=" +:+ ip_to_string a +:+ "::" +:+ ip_to_string b +:+ m) = W c ++ l) as Hip.
  { intros a b m Hm. set (x := ip_to_string a +:+ "::" +:+ ip_to_string b +:+ m).
    exists ["ip=" +:+ x]. split; [right; by exists x|].
    change (" ip=" +:+ x) with (String space ("ip=" +:+ x)). rewrite sp_sep.
    destruct (lit_graphic_word "ip=" x) as [H1 H2]; [done|done| |by rewrite (sp_word (W:=W) _ H1 H2)].
    apply graphic_app; [apply ip_graphic|]. apply graphic_lit_app; [done|].
    apply graphic_app; [apply ip_graphic|]. rewrite <- (append_nil_r m). by apply graphic_lit_app. }
  unfold ip_token. destruct (segment res) as [m|].
  - destruct (membership_addresses m) as [[[gw g] x]|]; [|done]. intros [= <-]. by apply Hip.
  - destruct (net_is_none cfg).
    + intros [= <-]. exists []. split; [by left|]. by rewrite append_nil_r, app_nil_r.
    + destruct (ip_math (vmid res)) as [[[h g] x]|]; [|done]. intros [= <-]. by apply Hip.
Qed.

Lemma cmdline_words cfg res e s :
  backend_extra_ok e → no_ws (default DEFAULT_INIT (init cfg)) →
  Forall share_ok (shares cfg) → Forall extra_ok (extra_kernel_args cfg) →
  build_kernel_cmdline cfg res e = Ok s →
  ∃ ipw, ip_words_ok ipw ∧
  W s = host_words cfg res e ++ port_words cfg ++ ipw ++ nested_words (nested_virt cfg) ++
        (share_token <$> shares cfg) ++
        [render STEWARD_ACCEPT_POLL (guest_accept_poll cfg); render STEWARD_REBIND_IDLE (guest_rebind_idle cfg)] ++
        extra_kernel_args cfg.
Proof.
  intros He Hi Hs Hx. unfold build_kernel_cmdline.
  destruct (ip_token cfg res) as [ip|] eqn:Hip; [|done]. intros [= <-].
  rewrite push_extra_words, push_timeout_words, push_shares_words by done.
  destruct (ip_token_words cfg res ip (base_cmdline cfg res e) Hip) as (l & Hl & Hw).
  exists l. split; [done|].
  assert (∀ c, W (c +:+ (if nested_virt cfg then " kvm-intel.nested=1 kvm-amd.nested=1"
    else " kvm-intel.nested=0 kvm-amd.nested=0")) = W c ++ nested_words (nested_virt cfg)) as Hn.
  { intros c. destruct (nested_virt cfg).
    - change (" kvm-intel.nested=1 kvm-amd.nested=1") with
        (String space ("kvm-intel.nested=1" +:+ String space "kvm-amd.nested=1")).
      rewrite sp_sep, lit_then, (lit_end "kvm-amd.nested=1") by done. done.
    - change (" kvm-intel.nested=0 kvm-amd.nested=0") with
        (String space ("kvm-intel.nested=0" +:+ String space "kvm-amd.nested=0")).
      rewrite sp_sep, lit_then, (lit_end "kvm-amd.nested=0") by done. done. }
  rewrite Hn, Hw, (base_words _ _ _ He Hi). by rewrite <- !app_assoc.
Qed.
End words.

(** ** What the guest reads back *)

(** No token of [l] carries the key. *)
Definition foreign (key : string) (l : list string) : Prop := Forall (λ t, strip_prefix key t = None) l.

Lemma foreign_app key l1 l2 : foreign key l1 → foreign key l2 → foreign key (l1 ++ l2).
Proof. intros. by apply Forall_app. Qed.

Lemma foreign_omap key l1 l2 :
  foreign key l1 → omap (strip_prefix key) (l1 ++ l2) = omap (strip_prefix key) l2.
Proof. intros Hl. induction Hl as [|t l1 Ht _ IH]; [done|]. cbn. by rewrite Ht. Qed.

Lemma foreign_find {A} key (f : string → option A) l1 l2 :
  foreign key l1 →
  find_map (λ t, raw ← strip_prefix key t; f raw) (l1 ++ l2) = find_map (λ t, raw ← strip_prefix key t; f raw) l2.
Proof. intros Hl. induction Hl as [|t l1 Ht _ IH]; [done|]. cbn. by rewrite Ht. Qed.

Lemma find_map_ext {A B} (f g : A → option B) l : (∀ a, f a = g a) → find_map f l = find_map g l.
Proof. intros H. induction l as [|a l IH]; [done|]. cbn. by rewrite H, IH. Qed.

(** The keys the steward reads. *)
Definition guest_keys : list string :=
  ["vmcell_share="; "vmcell_accept_poll_ms="; "vmcell_rebind_idle_ms="; "vmcell_steward_port="].

Lemma reserved_key k r :
  "="%char ∉ bytes k → starts_with "vmcell_" (normalize_cmdline_key k) = true →
  is_reserved_cmdline_arg (k +:+ String "=" r) = true.
Proof.
  intros Hk Hs. unfold is_reserved_cmdline_arg, arg_key. rewrite str_split_append by done.
  change (default ?x (head (k :: ?l))) with k. cbv zeta. by rewrite Hs.
Qed.

(** An extra argument that passed the checks cannot pose as a steward token. *)
Lemma extra_foreign key l : key ∈ guest_keys → Forall extra_ok l → foreign key l.
Proof.
  intros Hkey Hl. eapply Forall_impl; [done|]. intros a [_ Hr].
  destruct (strip_prefix key a) as [r|] eqn:E; [|done]. exfalso.
  apply strip_prefix_spec in E as ->.
  assert (∀ k, k ∈ ["vmcell_share"; "vmcell_accept_poll_ms"; "vmcell_rebind_idle_ms"; "vmcell_steward_port"] →
    is_reserved_cmdline_arg (k +:+ String "=" r) = true) as Hres.
  { intros k Hk. apply reserved_key; revert k Hk; apply Forall_forall; refine (bool_decide_unpack _ _);
      vm_compute; exact I. }
  unfold guest_keys in Hkey. rewrite !elem_of_cons, elem_of_nil in Hkey.
  destruct Hkey as [->|[->|[->|[->|[]]]]];
    [eapply eq_true_false_abs, Hr; apply (Hres "vmcell_share")
    |eapply eq_true_false_abs, Hr; apply (Hres "vmcell_accept_poll_ms")
    |eapply eq_true_false_abs, Hr; apply (Hres "vmcell_rebind_idle_ms")
    |eapply eq_true_false_abs, Hr; apply (Hres "vmcell_steward_port")]; set_solver.
Qed.

(** Closes [strip_prefix key t = None] for a token that starts with a literal. *)
Ltac foreign_lits := repeat first [apply Forall_nil; exact I | apply Forall_cons; split; [reflexivity|]].

Lemma host_foreign key cfg res e ipw :
  key ∈ guest_keys → ip_words_ok ipw →
  foreign key (host_words cfg res e) ∧ foreign key ipw ∧ foreign key (nested_words (nested_virt cfg)).
Proof.
  intros Hkey Hip. unfold guest_keys in Hkey. rewrite !elem_of_cons, elem_of_nil in Hkey.
  split_and!.
  - unfold host_words. destruct Hkey as [->|[->|[->|[->|[]]]]];
      destruct (rootfs_is_erofs cfg), (decide (e = "")); cbn [app]; foreign_lits.
  - destruct Hip as [->|[x ->]]; [by apply Forall_nil|].
    destruct Hkey as [->|[->|[->|[->|[]]]]]; foreign_lits.
  - destruct Hkey as [->|[->|[->|[->|[]]]]]; destruct (nested_virt cfg); foreign_lits.
Qed.

Lemma port_foreign key cfg :
  key ∈ ["vmcell_share="; "vmcell_accept_poll_ms="; "vmcell_rebind_idle_ms="] → foreign key (port_words cfg).
Proof.
  intros Hkey. rewrite !elem_of_cons, elem_of_nil in Hkey. unfold port_words.
  destruct (steward_port _); [case_decide|]; destruct Hkey as [->|[->|[->|[]]]]; foreign_lits.
Qed.

Lemma share_foreign key l :
  key ∈ ["vmcell_accept_poll_ms="; "vmcell_rebind_idle_ms="; "vmcell_steward_port="] →
  foreign key (share_token <$> l).
Proof.
  intros Hkey. rewrite !elem_of_cons, elem_of_nil in Hkey.
  apply Forall_fmap, Forall_true. intros s. cbn. by destruct Hkey as [->|[->|[->|[]]]].
Qed.

Definition mount_of (s : Share) : ShareMount :=
  {| sm_tag := tag s; mount_point := guest_path s; read_only := bool_decide (access s = ReadOnly) |}.

Lemma parse_share_token s :
  share_ok s → strip_prefix "vmcell_share=" (share_token s) ≫= parse_share = Some (mount_of s).
Proof.
  intros (H1 & H2 & _ & _ & H5 & H6). unfold share_token.
  rewrite (proj2 (strip_prefix_spec _ _ _) eq_refl). cbn [mbind option_bind].
  unfold parse_share, splitn3, mount_of. rewrite !str_split_append by done.
  destruct (access s);
    [change (str_split ":" "ro") with ["ro"]|change (str_split ":" "rw") with ["rw"]];
    cbn [String.concat]; rewrite decide_False by (by intros [?|?]); done.
Qed.

Lemma parse_share_tokens l :
  Forall share_ok l →
  omap parse_share (omap (strip_prefix "vmcell_share=") (share_token <$> l)) = mount_of <$> l.
Proof.
  intros Hl. induction Hl as [|s l Hs _ IH]; [done|]. rewrite !fmap_cons, <- IH.
  pose proof (parse_share_token s Hs) as Hp. cbn [omap list_omap].
  destruct (strip_prefix "vmcell_share=" (share_token s)) as [spec|]; [|done].
  cbn in Hp |- *. by rewrite Hp.
Qed.

Definition clamp (t : TuningToken) (ms : N) : N := N.min (ceiling t) (N.max (floor t) ms).

Lemma ms_of_u64 n : (ms_of n <= u64_max)%N.
Proof. unfold ms_of. destruct (N.leb_spec (n / 1000000) u64_max); done. Qed.

(** The first token with the key decides what is read. *)
Lemma parse_tuning_words t n c l1 l2 :
  split_ascii_whitespace c = l1 ++ render t n :: l2 → foreign (token t) l1 →
  parse_tuning c t = clamp t (ms_of n).
Proof.
  intros Hc Hl. unfold parse_tuning, parse_ms. rewrite Hc.
  rewrite (foreign_find (token t) (parse_uint u64_max)) by done. unfold render. cbn [find_map].
  rewrite (proj2 (strip_prefix_spec _ _ _) eq_refl). cbn [mbind option_bind].
  by rewrite parse_pretty by apply ms_of_u64.
Qed.

Lemma parse_port_words cfg c l1 l2 :
  split_whitespace c = l1 ++ port_words cfg ++ l2 →
  foreign "vmcell_steward_port=" l1 → foreign "vmcell_steward_port=" l2 →
  validate_placement cfg = Ok tt → (∀ port, steward_placement cfg = Service port → (port <= u32_max)%N) →
  vsock_port (apply_cmdline steward_defaults c) = default STEWARD_VSOCK_PORT (steward_port (steward_placement cfg)).
Proof.
  intros Hc H1 H2 Hv Hu. cbn [apply_cmdline vsock_port]. unfold parse_steward_port. rewrite Hc.
  rewrite (find_map_ext _ (λ t, raw ← strip_prefix "vmcell_steward_port=" t; Some raw)) by (by intros t; destruct (strip_prefix _ t)).
  rewrite (foreign_find _ Some) by done.
  assert (find_map (λ t, raw ← strip_prefix "vmcell_steward_port=" t; Some raw) l2 = None) as Hl2.
  { rewrite <- (app_nil_r l2). by rewrite (foreign_find _ Some). }
  unfold port_words. destruct (steward_placement cfg) as [|port|] eqn:Ep; cbn [steward_port default from_option].
  - rewrite decide_True by done. cbn [app]. by rewrite Hl2.
  - case_decide as Hd; cbn [app]; [rewrite Hl2; by subst|]. cbn [find_map].
    rewrite (proj2 (strip_prefix_spec _ _ _) eq_refl). cbn [mbind option_bind].
    rewrite parse_pretty by (by apply Hu). unfold validate_placement in Hv. rewrite Ep in Hv.
    by destruct ((port =? 0)%N || (port =? u32_max)%N).
  - cbn [app]. by rewrite Hl2.
Qed.

Lemma validated_inputs cfg :
  validate_cmdline_inputs cfg = Ok tt →
  Forall share_ok (shares cfg) ∧ Forall extra_ok (extra_kernel_args cfg) ∧
  no_ws (default DEFAULT_INIT (init cfg)).
Proof.
  unfold validate_cmdline_inputs. destruct (validate_shares _ _) as [[]|] eqn:Hs; [|done]. cbn.
  destruct (init cfg) as [i|]; cbn [default from_option].
  - unfold validate_init_path. case_decide; [done|]. destruct (negb _); [done|].
    destruct (any_unsafe_char i) eqn:Hi; [done|]. cbn. intros Hx.
    split_and!; [by eapply validate_shares_ok|by apply validate_extra_args_ok|by apply safe_no_ws].
  - cbn. intros Hx. split_and!; [by eapply validate_shares_ok|by apply validate_extra_args_ok|].
    apply no_ws_graphic. refine (bool_decide_unpack _ _). vm_compute. exact I.
Qed.

(** C10: Whatever configuration passes the builder's checks, the guest reads
    back from the kernel command line exactly what the host wrote: the same
    shares in the same order with their mount points and access, the two tuning
    values clamped to their ranges, and the steward's port.  No share tag, mount
    point, init path or extra kernel argument that passed the checks can add,
    hide or alter one of them. *)
Theorem cmdline_roundtrip cfg res e s :
  validate_cmdline_inputs cfg = Ok tt → validate_placement cfg = Ok tt →
  (∀ port, steward_placement cfg = Service port → (port <= u32_max)%N) →
  backend_extra_ok e → build_kernel_cmdline cfg res e = Ok s →
  parse_share_mounts s = mount_of <$> shares cfg ∧
  apply_cmdline steward_defaults s =
    {| accept_poll := clamp STEWARD_ACCEPT_POLL (ms_of (guest_accept_poll cfg));
       rebind_idle := clamp STEWARD_REBIND_IDLE (ms_of (guest_rebind_idle cfg));
       vsock_port := default STEWARD_VSOCK_PORT (steward_port (steward_placement cfg)) |}.
Proof.
  intros Hv Hp Hu He Hb. destruct (validated_inputs _ Hv) as (Hs & Hx & Hi).
  destruct (cmdline_words (W:=split_ascii_whitespace) _ _ _ _ He Hi Hs Hx Hb) as (ipw & Hip & Ha).
  destruct (cmdline_words (W:=split_whitespace) _ _ _ _ He Hi Hs Hx Hb) as (ipw' & Hip' & Hw).
  assert (∀ key, key ∈ guest_keys → foreign key (host_words cfg res e) ∧ foreign key ipw ∧
    foreign key (nested_words (nested_virt cfg))) as Hf by (intros; by apply host_foreign).
  split.
  - unfold parse_share_mounts. rewrite Ha. destruct (Hf "vmcell_share=") as (F1 & F2 & F3); [set_solver|].
    rewrite (foreign_omap _ _ _ F1), (foreign_omap _ (port_words cfg)), (foreign_omap _ _ _ F2),
      (foreign_omap _ _ _ F3) by (apply port_foreign; set_solver).
    rewrite omap_app, omap_app, parse_share_tokens by done.
    rewrite <- (app_nil_r (_ ++ extra_kernel_args cfg)), foreign_omap; [by rewrite app_nil_r|].
    apply foreign_app; [by foreign_lits|]. by apply extra_foreign; [set_solver|].
  - assert (vsock_port (apply_cmdline steward_defaults s) =
      default STEWARD_VSOCK_PORT (steward_port (steward_placement cfg))) as Hport.
    { destruct (host_foreign "vmcell_steward_port=" cfg res e ipw') as (F1 & F2 & F3); [set_solver|done|].
      eapply parse_port_words; [exact Hw|exact F1| |exact Hp|exact Hu].
      repeat apply foreign_app; [done|done|apply share_foreign; set_solver|by foreign_lits|].
      by apply extra_foreign; [set_solver|]. }
    unfold apply_cmdline in *. cbn [vsock_port] in Hport. rewrite Hport. f_equal.
    + destruct (Hf "vmcell_accept_poll_ms=") as (F1 & F2 & F3); [set_solver|].
      eapply (parse_tuning_words _ _ _ (host_words cfg res e ++ port_words cfg ++ ipw ++
        nested_words (nested_virt cfg) ++ (share_token <$> shares cfg))); [rewrite Ha; by rewrite <- !app_assoc|].
      cbn [token STEWARD_ACCEPT_POLL STEWARD_REBIND_IDLE]. apply foreign_app; [exact F1|].
      repeat apply foreign_app; [apply port_foreign; set_solver|done|done|apply share_foreign; set_solver].
    + destruct (Hf "vmcell_rebind_idle_ms=") as (F1 & F2 & F3); [set_solver|].
      eapply (parse_tuning_words _ _ _ (host_words cfg res e ++ port_words cfg ++ ipw ++
        nested_words (nested_virt cfg) ++ (share_token <$> shares cfg) ++
        [render STEWARD_ACCEPT_POLL (guest_accept_poll cfg)])); [rewrite Ha; by rewrite <- !app_assoc|].
      cbn [token STEWARD_ACCEPT_POLL STEWARD_REBIND_IDLE]. apply foreign_app; [exact F1|].
      repeat apply foreign_app; [apply port_foreign; set_solver|done|done|apply share_foreign; set_solver|].
      by foreign_lits.
Qed.

Definition demo_cfg : VmConfig :=
  {| rootfs_is_erofs := false; init := Some "/sbin/init"; steward_placement := Service 6001;
     console_mode := Uart; kernel_verbosity := Quiet; net_is_none := false; nested_virt := false;
     shares := [{| tag := "src"; host_path := "/srv/src"; guest_path := "/mnt/src"; access := ReadOnly |};
                {| tag := "out"; host_path := "/srv/out"; guest_path := "/mnt/out"; access := ReadWrite |}];
     guest_accept_poll := 50000000; guest_rebind_idle := 1; extra_kernel_args := ["mitigations=off"] |}.

Definition demo_cmdline : string :=
  match build_kernel_cmdline demo_cfg {| vmid := 7; segment := None |} "" with Ok s => s | Err _ => "" end.

Lemma cmdline_roundtrip_witness :
  parse_share_mounts demo_cmdline = mount_of <$> shares demo_cfg ∧
  apply_cmdline steward_defaults demo_cmdline =
    {| accept_poll := 50; rebind_idle := 20; vsock_port := 6001 |}.
Proof.
  apply (cmdline_roundtrip demo_cfg {| vmid := 7; segment := None |} "" demo_cmdline).
  - vm_compute. reflexivity.
  - vm_compute. reflexivity.
  - intros port [= <-]. vm_compute. discriminate.
  - by left.
  - vm_compute. reflexivity.
Defined.
