(* ===== verification/Reaper.v ===== *)
(** * The guest's reaper

    Models [ReaperCoordinator] of [crates/vmcell-steward/src/lib.rs]: the one
    thread that reaps every child of PID 1 hands each exit status to the exec
    that waits for it, although pids are reused and a child can be reaped
    before the exec that spawned it reserves its pid.

    The first part is the coordinator's state and its operations, one critical
    section each.  The second part interleaves them with the kernel: processes
    fork, exit and are reaped, the lock is held across the drain loop, and
    waiters block on the condition variable.  [owner], [truth] and [freed] are
    history: which thread a process belongs to, how its child ended, and the
    generation at which a pid was last freed. *)

From S2P Require Import Prelude.

Definition DEFAULT_MAX_REAPED_STATUSES : nat := 1024.

Definition exit_code_from_termination (terminating_signal exit_status : option Z) : Z :=
  match terminating_signal with
  | Some signal => (128 + signal)%Z
  | None => default 1%Z exit_status
  end.

(** ** The coordinator *)

Record ReaperInner := {
  statuses : gmap N (Z * N);
  waiting : gset N;
  reservations : gmap N N;
  generation : N;     (** a [u64] *)
}.

Definition reaper_new : ReaperInner :=
  {| statuses := ∅; waiting := ∅; reservations := ∅; generation := 0 |}.

Definition with_max_statuses (max_statuses : nat) : nat := max_statuses `max` 1.

Definition wrapping_sub64 (a b : N) : N := wrap64 (a + 2 ^ 64 - b).

(** The serial-number comparison. *)
Definition recorded_after (recorded epoch : N) : bool :=
  let age := wrapping_sub64 recorded epoch in
  negb (age =? 0)%N && (age <? u64_max / 2)%N.

Definition record (max : nat) (pid : N) (code : Z) (r : ReaperInner) : ReaperInner :=
  let g := wrap64 (generation r + 1) in
  let st := <[pid := (code, g)]> (statuses r) in
  {| statuses :=
       if decide (max < size st) then
         filter (λ x, x.1 ∈ waiting r ∨ (wrapping_sub64 g x.2.2 < N.of_nat max)%N) st
       else st;
     waiting := waiting r; reservations := reservations r; generation := g |}.

Definition pre_spawn_epoch (r : ReaperInner) : N := generation r.

Definition reserve (pid epoch : N) (r : ReaperInner) : ReaperInner :=
  {| statuses :=
       match statuses r !! pid with
       | Some (_, recorded) =>
           if recorded_after recorded epoch then statuses r else delete pid (statuses r)
       | None => statuses r
       end;
     waiting := waiting r;
     reservations := <[pid := epoch]> (reservations r);
     generation := generation r |}.

Definition cancel_reservation (pid : N) (r : ReaperInner) : ReaperInner :=
  {| statuses := statuses r; waiting := waiting r;
     reservations := delete pid (reservations r); generation := generation r |}.

(** [drain_reaped] over the children its callback reaps; whether to notify. *)
Definition drain_reaped (max : nat) (reaped : list (N * Z)) (r : ReaperInner) : ReaperInner * bool :=
  (foldl (λ r x, record max x.1 x.2 r) r reaped, negb (bool_decide (reaped = []))).

(** The entry of [wait_for]: announce the wait, read the reservation. *)
Definition wait_enter (pid : N) (r : ReaperInner) : ReaperInner * option N :=
  ({| statuses := statuses r; waiting := {[pid]} ∪ waiting r;
      reservations := reservations r; generation := generation r |},
   reservations r !! pid).

(** One turn of [wait_for]'s loop: the claimed code, or back to waiting. *)
Definition wait_check (pid : N) (reserved_at : option N) (r : ReaperInner) : option Z * ReaperInner :=
  match statuses r !! pid with
  | Some (code, recorded) =>
      let accept := match reserved_at with
                    | None => true
                    | Some epoch => recorded_after recorded epoch
                    end in
      let st := delete pid (statuses r) in
      if accept then
        (Some code, {| statuses := st; waiting := waiting r ∖ {[pid]};
                       reservations := delete pid (reservations r); generation := generation r |})
      else (None, {| statuses := st; waiting := waiting r;
                     reservations := reservations r; generation := generation r |})
  | None => (None, r)
  end.

(** ** The steward's threads and the kernel *)

Inductive proc :=
  | Running (owner : option nat)
  | Zombie (owner : option nat) (code : Z).

Inductive tpc :=
  | Captured (epoch : N)
  | Spawned (pid epoch : N)
  | Reserved (pid epoch : N)
  | Blocked (pid : N) (reserved_at : option N) (notified : bool)
  | Claimed (pid : N) (code : Z)
  | Abandoned (pid : option N).

(** The reaper thread: outside, in the drain loop with the lock held (has it
    recorded anything?), between a [waitpid] and its record, about to notify. *)
Inductive rpc :=
  | RIdle
  | RLoop (any : bool)
  | RHold (pid : N) (owner : option nat) (code : Z) (any : bool)
  | RNotify.

Record world := {
  coord : ReaperInner;
  reaper : rpc;
  procs : gmap N proc;
  threads : gmap nat tpc;
  truth : gmap nat Z;
  freed : gmap N N;
}.

Definition world0 : world :=
  {| coord := reaper_new; reaper := RIdle; procs := ∅; threads := ∅; truth := ∅; freed := ∅ |}.

Definition lock_free (w : world) : Prop := reaper w = RIdle ∨ reaper w = RNotify.

(** The claim a thread has not finished: its pid and its epoch. *)
Definition pending (p : tpc) : option (N * option N) :=
  match p with
  | Spawned pid e | Reserved pid e => Some (pid, Some e)
  | Blocked pid at_ _ => Some (pid, at_)
  | _ => None
  end.

(** A pid is not handed out again while a claim on it is open. *)
Definition unclaimed (w : world) (pid : N) : Prop :=
  ∀ t p, threads w !! t = Some p → fst <$> pending p ≠ Some pid.

(** ... and the one a thread gets was not freed since it read its epoch. *)
Definition settled (w : world) (pid epoch : N) : Prop :=
  ∀ g, freed w !! pid = Some g → (g < epoch)%N.

Definition set_thread (w : world) (r : ReaperInner) (t : nat) (p : tpc) : world :=
  {| coord := r; reaper := reaper w; procs := procs w; threads := <[t := p]> (threads w);
     truth := truth w; freed := freed w |}.

Definition set_procs (w : world) (ps : gmap N proc) : world :=
  {| coord := coord w; reaper := reaper w; procs := ps; threads := threads w;
     truth := truth w; freed := freed w |}.

Definition set_reaper (w : world) (r : rpc) : world :=
  {| coord := coord w; reaper := r; procs := procs w; threads := threads w;
     truth := truth w; freed := freed w |}.

Definition notify (p : tpc) : tpc :=
  match p with Blocked pid at_ _ => Blocked pid at_ true | _ => p end.

Definition after_check (pid : N) (reserved_at : option N) (res : option Z) : tpc :=
  match res with Some code => Claimed pid code | None => Blocked pid reserved_at false end.

Inductive rstep (max : nat) : world → world → Prop :=
  | T_epoch w t :
      lock_free w → threads w !! t = None →
      rstep max w (set_thread w (coord w) t (Captured (pre_spawn_epoch (coord w))))
  | T_spawn w t pid e :
      threads w !! t = Some (Captured e) → procs w !! pid = None →
      unclaimed w pid → settled w pid e →
      rstep max w (set_thread (set_procs w (<[pid := Running (Some t)]> (procs w))) (coord w) t (Spawned pid e))
  | T_spawn_failed w t e :
      threads w !! t = Some (Captured e) →
      rstep max w (set_thread w (coord w) t (Abandoned None))
  | T_reserve w t pid e :
      lock_free w → threads w !! t = Some (Spawned pid e) →
      rstep max w (set_thread w (reserve pid e (coord w)) t (Reserved pid e))
  | T_abandon w t pid e :
      lock_free w → threads w !! t = Some (Reserved pid e) →
      rstep max w (set_thread w (cancel_reservation pid (coord w)) t (Abandoned (Some pid)))
  | T_wait w t pid e r at_ res r' :
      lock_free w → threads w !! t = Some (Reserved pid e) →
      wait_enter pid (coord w) = (r, at_) → wait_check pid at_ r = (res, r') →
      rstep max w (set_thread w r' t (after_check pid at_ res))
  | T_wake w t pid at_ res r' :
      lock_free w → threads w !! t = Some (Blocked pid at_ true) →
      wait_check pid at_ (coord w) = (res, r') →
      rstep max w (set_thread w r' t (after_check pid at_ res))
  | T_spurious w t pid at_ b :
      threads w !! t = Some (Blocked pid at_ b) →
      rstep max w (set_thread w (coord w) t (Blocked pid at_ true))
  | K_fork w pid :
      procs w !! pid = None → unclaimed w pid →
      rstep max w (set_procs w (<[pid := Running None]> (procs w)))
  | K_exit w pid o code :
      procs w !! pid = Some (Running o) →
      rstep max w
        {| coord := coord w; reaper := reaper w; procs := <[pid := Zombie o code]> (procs w);
           threads := threads w;
           truth := match o with Some t => <[t := code]> (truth w) | None => truth w end;
           freed := freed w |}
  | R_lock w :
      reaper w = RIdle → rstep max w (set_reaper w (RLoop false))
  | R_waitpid w pid o code any :
      reaper w = RLoop any → procs w !! pid = Some (Zombie o code) →
      rstep max w
        {| coord := coord w; reaper := RHold pid o code any; procs := delete pid (procs w);
           threads := threads w; truth := truth w;
           freed := <[pid := generation (coord w)]> (freed w) |}
  | R_record w pid o code any :
      reaper w = RHold pid o code any →
      rstep max w
        {| coord := record max pid code (coord w); reaper := RLoop true; procs := procs w;
           threads := threads w; truth := truth w; freed := freed w |}
  | R_unlock w any :
      reaper w = RLoop any → rstep max w (set_reaper w (if any then RNotify else RIdle))
  | R_notify w :
      reaper w = RNotify →
      rstep max w
        {| coord := coord w; reaper := RIdle; procs := procs w;
           threads := notify <$> threads w; truth := truth w; freed := freed w |}.

(** The runs that record fewer than [u64::MAX / 2] statuses. *)
Definition bounded (w : world) : Prop := (generation (coord w) < u64_max / 2)%N.

Definition rreach (max : nat) : world → Prop :=
  rtc (λ w w', rstep max w w' ∧ bounded w') world0.

(** ** Generations *)

Definition half : N := Eval vm_compute in (u64_max / 2)%N.

Lemma wrap64_small a : (a < half)%N → wrap64 (a + 1) = (a + 1)%N.
Proof.
  intros Ha. unfold wrap64. apply N.mod_small. change (2 ^ 64)%N with 18446744073709551616%N.
  unfold half in Ha. lia.
Qed.

Lemma wrapping_sub64_ge a b : (b <= a)%N → (a < half)%N → wrapping_sub64 a b = (a - b)%N.
Proof.
  intros Hb Ha. unfold wrapping_sub64, wrap64. change (2 ^ 64)%N with 18446744073709551616%N.
  unfold half in Ha. replace (a + 18446744073709551616 - b)%N with (a - b + 1 * 18446744073709551616)%N by lia.
  rewrite N.Div0.mod_add. apply N.mod_small. lia.
Qed.

Lemma recorded_after_spec a b : (a < half)%N → (b < half)%N → recorded_after a b = (b <? a)%N.
Proof.
  intros Ha Hb. unfold recorded_after. change (u64_max / 2)%N with half. cbv zeta.
  destruct (N.leb_spec b a) as [Hle|Hlt].
  - rewrite wrapping_sub64_ge by done.
    destruct (N.ltb_spec b a), (N.eqb_spec (a - b) 0), (N.ltb_spec (a - b) half); cbn; try done; lia.
  - unfold wrapping_sub64, wrap64. change (2 ^ 64)%N with 18446744073709551616%N.
    rewrite N.mod_small by lia. unfold half in *.
    destruct (N.ltb_spec b a), (N.ltb_spec (a + 18446744073709551616 - b) 9223372036854775807);
      rewrite ?andb_false_r; try done; lia.
Qed.

(** ** One critical section *)

(** A record changes no other pid's status but to discard it, and never that
    of a pid with a waiter. *)
Lemma record_other max p q code r :
  p ≠ q →
  statuses (record max q code r) !! p = statuses r !! p ∨
  statuses (record max q code r) !! p = None ∧ p ∉ waiting r ∧ max < S (size (statuses r)).
Proof.
  intros Hne. unfold record. cbn.
  assert (size (<[q := (code, wrap64 (generation r + 1))]> (statuses r)) ≤ S (size (statuses r))) as Hsz.
  { rewrite map_size_insert. destruct (statuses r !! q); cbn; lia. }
  case_decide as Hbig; [|by left; rewrite lookup_insert_ne].
  destruct (statuses r !! p) as [[c g]|] eqn:Hp.
  - destruct (decide (p ∈ waiting r ∨ (wrapping_sub64 (wrap64 (generation r + 1)) g < N.of_nat max)%N)) as [Hk|Hk].
    + left. apply map_lookup_filter_Some. split; [by rewrite lookup_insert_ne|]. exact Hk.
    + right. split_and!; [|tauto|lia]. apply map_lookup_filter_None. right.
      intros x. rewrite lookup_insert_ne by done. rewrite Hp. intros [= <-]. exact Hk.
  - left. apply map_lookup_filter_None. left. by rewrite lookup_insert_ne.
Qed.

Lemma record_own max p code r :
  (generation r + 1 < half)%N → 0 < max →
  statuses (record max p code r) !! p = Some (code, generation r + 1)%N.
Proof.
  intros Hg Hmax. unfold record. cbn. rewrite wrap64_small by lia.
  case_decide; [|apply lookup_insert_eq].
  apply map_lookup_filter_Some. split; [apply lookup_insert_eq|]. right. cbn.
  rewrite wrapping_sub64_ge by lia. lia.
Qed.

Lemma record_Some max p q code r x :
  statuses (record max q code r) !! p = Some x → p ≠ q → statuses r !! p = Some x.
Proof. intros H Hne. destruct (record_other max p q code r Hne) as [<-|[E _]]; congruence. Qed.

Lemma record_size max q code r : size (statuses (record max q code r)) ≤ S (size (statuses r)).
Proof.
  unfold record. cbn. set (st := <[q := _]> (statuses r)).
  assert (size st ≤ S (size (statuses r))) as Hsz.
  { unfold st. rewrite map_size_insert. destruct (statuses r !! q); cbn; lia. }
  case_decide; [|done]. etransitivity; [|exact Hsz]. apply map_subseteq_size, map_filter_subseteq.
Qed.

(** ** The invariant *)

Definition proc_owner (pr : proc) : option nat :=
  match pr with Running o | Zombie o _ => o end.

Definition held (w : world) (p : N) : Prop := ∃ o c any, reaper w = RHold p o c any.

Definition stale (w : world) (p e : N) : Prop :=
  ∀ c g, statuses (coord w) !! p = Some (c, g) → (g <= e)%N.

(** Where the child of thread [t] is, spawned with pid [p] after epoch [e]. *)
Inductive child_state (max : nat) (w : world) (t : nat) (p e : N) : Prop :=
  | CS_proc pr :
      procs w !! p = Some pr → proc_owner pr = Some t → ¬ held w p → stale w p e →
      child_state max w t p e
  | CS_held c any :
      reaper w = RHold p (Some t) c any → procs w !! p = None → stale w p e →
      child_state max w t p e
  | CS_recorded c g :
      procs w !! p = None → ¬ held w p → statuses (coord w) !! p = Some (c, g) → (e < g)%N →
      truth w !! t = Some c → child_state max w t p e
  | CS_lost :
      procs w !! p = None → ¬ held w p → statuses (coord w) !! p = None →
      max < N.to_nat (generation (coord w)) → child_state max w t p e.

Definition notify_due (w : world) : Prop :=
  match reaper w with RLoop any | RHold _ _ _ any => any = true | RNotify => True | RIdle => False end.

Record RInv (max : nat) (w : world) : Prop := {
  v_bound : bounded w;
  v_status p c g : statuses (coord w) !! p = Some (c, g) → (g <= generation (coord w))%N;
  v_freed p c g : statuses (coord w) !! p = Some (c, g) →
    ∃ f, freed w !! p = Some f ∧ (g <= f + 1)%N;
  v_size : size (statuses (coord w)) ≤ N.to_nat (generation (coord w));
  v_held p o c any : reaper w = RHold p o c any →
    freed w !! p = Some (generation (coord w)) ∧ ∀ t, o = Some t → truth w !! t = Some c;
  v_zombie p t c : procs w !! p = Some (Zombie (Some t) c) → truth w !! t = Some c;
  v_owner p t :
    (∃ pr, procs w !! p = Some pr ∧ proc_owner pr = Some t) ∨ (∃ c any, reaper w = RHold p (Some t) c any) →
    ∃ pc, threads w !! t = Some pc ∧ (fst <$> pending pc = Some p ∨ pc = Abandoned (Some p));
  v_excl p t c any q pr : reaper w = RHold p (Some t) c any → procs w !! q = Some pr → proc_owner pr ≠ Some t;
  v_captured t e : threads w !! t = Some (Captured e) → (e <= generation (coord w))%N;
  v_pending t pc p at_ : threads w !! t = Some pc → pending pc = Some (p, at_) →
    ∃ e, at_ = Some e ∧ (e <= generation (coord w))%N ∧ child_state max w t p e;
  v_unique t1 t2 pc1 pc2 p : threads w !! t1 = Some pc1 → threads w !! t2 = Some pc2 →
    fst <$> pending pc1 = Some p → fst <$> pending pc2 = Some p → t1 = t2;
  v_reserved t p e : threads w !! t = Some (Reserved p e) → reservations (coord w) !! p = Some e;
  v_claimed t p c : threads w !! t = Some (Claimed p c) → truth w !! t = Some c;
  v_waiting t p at_ b : threads w !! t = Some (Blocked p at_ b) → p ∈ waiting (coord w);
  v_wakeup t p at_ : threads w !! t = Some (Blocked p at_ false) →
    statuses (coord w) !! p ≠ None → notify_due w;
}.

(** A step that leaves the child's pid, its status and its end alone. *)
Lemma child_state_frame max w w' t p e :
  child_state max w t p e →
  procs w' !! p = procs w !! p →
  statuses (coord w') !! p = statuses (coord w) !! p →
  truth w' !! t = truth w !! t →
  (∀ o c any, reaper w = RHold p o c any → ∃ any', reaper w' = RHold p o c any') →
  (held w' p → held w p) →
  (generation (coord w) <= generation (coord w'))%N →
  child_state max w' t p e.
Proof.
  intros [pr H1 H2 H3 H4|c any H1 H2 H3|c g H1 H2 H3 H4 H5|H1 H2 H3 H4] Hp Hs Ht Hh Hh' Hg.
  - eapply CS_proc; [by rewrite Hp|done|tauto|]. unfold stale. by rewrite Hs.
  - destruct (Hh _ _ _ H1) as [any' Hr]. eapply CS_held; [done|by rewrite Hp|]. unfold stale. by rewrite Hs.
  - eapply CS_recorded; [by rewrite Hp|tauto|by rewrite Hs|done|by rewrite Ht].
  - eapply CS_lost; [by rewrite Hp|tauto|by rewrite Hs|lia].
Qed.

Lemma pending_fst pc p : fst <$> pending pc = Some p ↔ ∃ at_, pending pc = Some (p, at_).
Proof. destruct (pending pc) as [[q a]|]; cbn; naive_solver. Qed.

Lemma reaper_init_inv max : RInv max world0.
Proof.
  split; cbn; try done; intros *; rewrite ?lookup_empty; try done.
  by intros [(pr & H & _)|(c & any & H)].
Qed.

(** A thread with an open claim on [p0] takes a step inside the coordinator. *)
Lemma reaper_thread_inv max w r t pc0 pc p0 :
  RInv max w → threads w !! t = Some pc0 → fst <$> pending pc0 = Some p0 →
  generation r = generation (coord w) →
  (∀ q, q ≠ p0 → statuses r !! q = statuses (coord w) !! q) →
  (statuses r = statuses (coord w) ∨ statuses r = delete p0 (statuses (coord w))) →
  (∀ q, q ≠ p0 → reservations r !! q = reservations (coord w) !! q) →
  (∀ q, q ≠ p0 → q ∈ waiting (coord w) → q ∈ waiting r) →
  match pc with
  | Captured _ => False
  | Spawned p e => False
  | Reserved p e => p = p0 ∧ (e <= generation r)%N ∧ reservations r !! p = Some e ∧
      child_state max (set_thread w r t pc) t p e
  | Blocked p at_ b => p = p0 ∧ p ∈ waiting r ∧ (b = false → statuses r !! p ≠ None → notify_due w) ∧
      ∃ e, at_ = Some e ∧ (e <= generation r)%N ∧ child_state max (set_thread w r t pc) t p e
  | Claimed p c => p = p0 ∧ truth w !! t = Some c ∧ procs w !! p = None ∧ ¬ held w p
  | Abandoned p => p = Some p0
  end →
  RInv max (set_thread w r t pc).
Proof.
  intros I Ht Hp0 Hgen Hst Hst0 Hres Hwait Hpc.
  assert (∀ q x, statuses r !! q = Some x → statuses (coord w) !! q = Some x) as Hsub.
  { intros q x. destruct Hst0 as [->| ->]; [done|]. by intros [_ ?]%lookup_delete_Some. }
  assert (∀ u pcu q, u ≠ t → threads w !! u = Some pcu → fst <$> pending pcu = Some q → q ≠ p0) as Hother.
  { intros u pcu q Hne Hu Hq ->. destruct Hne. by eapply (v_unique _ _ I). }
  split; cbn.
  - unfold bounded. cbn. rewrite Hgen. apply (v_bound _ _ I).
  - intros q c g Hq. rewrite Hgen. eapply (v_status _ _ I); eauto.
  - intros q c g Hq. eapply (v_freed _ _ I); eauto.
  - rewrite Hgen. etransitivity; [|apply (v_size _ _ I)].
    destruct Hst0 as [->| ->]; [done|]. apply map_subseteq_size, delete_subseteq.
  - rewrite Hgen. apply (v_held _ _ I).
  - apply (v_zombie _ _ I).
  - intros q u Hown. destruct (v_owner _ _ I q u Hown) as (pcu & Hu & Hcase).
    destruct (decide (u = t)) as [->|Hne]; [|exists pcu; by rewrite lookup_insert_ne].
    exists pc. split; [apply lookup_insert_eq|]. rewrite Ht in Hu. injection Hu as <-.
    assert (q = p0) as ->.
    { destruct Hcase as [Hc| ->]; [congruence|done]. }
    destruct pc; try done; cbn; [by left; f_equal; apply Hpc..| |by right; rewrite Hpc].
    exfalso. destruct Hpc as (-> & _ & Hn & Hh). destruct Hown as [(pr & H1 & _)|(c & any & H1)]; [congruence|].
    apply Hh. by eexists _, _, _.
  - apply (v_excl _ _ I).
  - intros u e [[<- ->]|[_ Hu]]%lookup_insert_Some; [done|]. rewrite Hgen. by eapply (v_captured _ _ I).
  - intros u pcu q at_ [[<- <-]|[Hne Hu]]%lookup_insert_Some Hq.
    + rewrite Hgen in Hpc. destruct pc; try done; cbn in Hq; injection Hq as <- <-; rewrite Hgen.
      * by exists epoch; destruct Hpc as (_ & ? & _ & ?).
      * by destruct Hpc as (_ & _ & _ & ?).
    + destruct (v_pending _ _ I u pcu q at_ Hu Hq) as (e & -> & He & Hcs). exists e.
      split_and!; [done|by rewrite Hgen|]. eapply child_state_frame; [done|done| |done|by eauto|done|by cbn; rewrite Hgen].
      cbn. apply Hst. eapply (Hother u); [done..|]. by rewrite Hq.
  - intros t1 t2 pc1 pc2 q [[<- <-]|[Hne1 H1]]%lookup_insert_Some [[<- <-]|[Hne2 H2]]%lookup_insert_Some Hq1 Hq2;
      try done.
    + exfalso. apply (Hother t2 pc2 q); [done..|]. destruct pc; try done; cbn in Hq1;
        injection Hq1 as <-; by destruct Hpc as [-> _].
    + exfalso. apply (Hother t1 pc1 q); [done..|]. destruct pc; try done; cbn in Hq2;
        injection Hq2 as <-; by destruct Hpc as [-> _].
    + by eapply (v_unique _ _ I).
  - intros u q e [[<- ->]|[Hne Hu]]%lookup_insert_Some; [by destruct Hpc as (_ & _ & ? & _)|].
    rewrite Hres; [by eapply (v_reserved _ _ I)|]. by eapply (Hother u).
  - intros u q c [[<- ->]|[Hne Hu]]%lookup_insert_Some; [by destruct Hpc as (_ & ? & _)|].
    by eapply (v_claimed _ _ I).
  - intros u q at_ b [[<- ->]|[Hne Hu]]%lookup_insert_Some; [by destruct Hpc as (_ & ? & _)|].
    apply Hwait; [by eapply (Hother u)|]. by eapply (v_waiting _ _ I).
  - intros u q at_ [[<- ->]|[Hne Hu]]%lookup_insert_Some Hs; [by destruct Hpc as (_ & _ & H & _); apply H|].
    eapply (v_wakeup _ _ I); [done|]. rewrite <- Hst; [done|]. by eapply (Hother u).
Qed.

Lemma status_half max w p c g : RInv max w → statuses (coord w) !! p = Some (c, g) → (g < half)%N.
Proof.
  intros I H. apply (v_status _ _ I) in H. pose proof (v_bound _ _ I) as B. unfold bounded in B.
  change (u64_max / 2)%N with half in B. lia.
Qed.

(** What the pid's status says of the child: the test [recorded > epoch] tells
    the child's own status from its predecessor's. *)
Lemma status_is_own max w t p e c g :
  RInv max w → child_state max w t p e → statuses (coord w) !! p = Some (c, g) → (e < g)%N →
  truth w !! t = Some c ∧ procs w !! p = None ∧ ¬ held w p.
Proof.
  intros I [pr H1 H2 H3 H4|c' any H1 H2 H3|c' g' H1 H2 H3 H4 H5|H1 H2 H3 H4] Hs Hlt.
  - specialize (H4 _ _ Hs). lia.
  - specialize (H3 _ _ Hs). lia.
  - by simplify_eq.
  - congruence.
Qed.

(** Discarding a predecessor's status loses nothing. *)
Lemma child_state_drop max w r t p e pc :
  RInv max w → (e <= generation (coord w))%N → child_state max w t p e →
  generation r = generation (coord w) →
  (statuses r !! p = statuses (coord w) !! p ∨
   statuses r !! p = None ∧ stale w p e) →
  child_state max (set_thread w r t pc) t p e.
Proof.
  intros I He Hcs Hgen [Hs|[Hs Hst]].
  - eapply child_state_frame; [done..|by eauto|done|by cbn; rewrite Hgen].
  - destruct Hcs as [pr H1 H2 H3 H4|c' any H1 H2 H3|c' g' H1 H2 H3 H4 H5|H1 H2 H3 H4].
    + eapply CS_proc; [done..|]. intros c g. cbn. by rewrite Hs.
    + eapply CS_held; [done..|]. intros c g. cbn. by rewrite Hs.
    + specialize (Hst _ _ H3). lia.
    + apply CS_lost; cbn; rewrite ?Hgen; done.
Qed.

Lemma epoch_half max w e : RInv max w → (e <= generation (coord w))%N → (e < half)%N.
Proof.
  intros I He. pose proof (v_bound _ _ I) as B. unfold bounded in B.
  change (u64_max / 2)%N with half in B. lia.
Qed.

Lemma reserve_inv max w t p e :
  RInv max w → threads w !! t = Some (Spawned p e) →
  RInv max (set_thread w (reserve p e (coord w)) t (Reserved p e)).
Proof.
  intros I Ht. destruct (v_pending _ _ I _ _ _ _ Ht eq_refl) as (e' & [= <-] & He & Hcs).
  pose proof (epoch_half _ _ _ I He) as Heh.
  assert (statuses (reserve p e (coord w)) = statuses (coord w) ∨
    statuses (reserve p e (coord w)) = delete p (statuses (coord w)) ∧ stale w p e) as Hst.
  { cbn. destruct (statuses (coord w) !! p) as [[c g]|] eqn:Hp; [|by left].
    rewrite (recorded_after_spec g e) by (done || by eapply status_half).
    destruct (N.ltb_spec e g); [by left|right]. split; [done|]. intros c' g' Hp'. by simplify_eq. }
  eapply (reaper_thread_inv _ _ _ _ (Spawned p e) _ p); [done|done|done|done| | | |done|].
  - intros q Hq. destruct Hst as [->|[-> _]]; [done|]. by rewrite lookup_delete_ne.
  - destruct Hst as [->|[-> _]]; auto.
  - intros q Hq. cbn. by rewrite lookup_insert_ne.
  - split_and!; [done|done|apply lookup_insert_eq|]. eapply child_state_drop; [done..|].
    destruct Hst as [->|[-> Hs]]; [by left|right]. split; [apply lookup_delete_eq|done].
Qed.

(** One turn of [wait_for]'s loop, from a coordinator [r] that differs from the
    world's only in who is waiting. *)
Lemma check_inv max w t pc0 p e r res r' :
  RInv max w → threads w !! t = Some pc0 → pending pc0 = Some (p, Some e) →
  statuses r = statuses (coord w) → reservations r = reservations (coord w) →
  generation r = generation (coord w) → waiting (coord w) ⊆ waiting r → p ∈ waiting r →
  wait_check p (Some e) r = (res, r') →
  RInv max (set_thread w r' t (after_check p (Some e) res)).
Proof.
  intros I Ht Hpend Hs Hr Hg Hw Hpw. destruct (v_pending _ _ I _ _ _ _ Ht Hpend) as (e' & [= <-] & He & Hcs).
  pose proof (epoch_half _ _ _ I He) as Heh.
  assert (fst <$> pending pc0 = Some p) as Hp0 by (by rewrite Hpend).
  unfold wait_check. rewrite Hs. destruct (statuses (coord w) !! p) as [[c g]|] eqn:Hp.
  - rewrite (recorded_after_spec g e) by (done || by eapply status_half).
    destruct (N.ltb_spec e g) as [Hlt|Hle]; intros [= <- <-].
    + destruct (status_is_own _ _ _ _ _ _ _ I Hcs Hp Hlt) as (Htr & Hproc & Hheld).
      eapply (reaper_thread_inv _ _ _ _ pc0 _ p); [done..| |by right| | |done]; cbn.
      * intros q Hq. by rewrite lookup_delete_ne.
      * intros q Hq. by rewrite lookup_delete_ne, Hr.
      * set_solver.
    + eapply (reaper_thread_inv _ _ _ _ pc0 _ p); [done..| |by right| | |]; cbn.
      * intros q Hq. by rewrite lookup_delete_ne.
      * intros q Hq. by rewrite Hr.
      * set_solver.
      * split_and!; [done|done|by rewrite lookup_delete_eq|]. exists e. split_and!; [done|by rewrite Hg|].
        eapply child_state_drop; [done..|]. right. split; [apply lookup_delete_eq|].
        intros c' g' Hp'. by simplify_eq.
  - intros [= <- <-]. eapply (reaper_thread_inv _ _ _ _ pc0 _ p); [done|done|done|done| | | | |]; cbn.
    + intros q Hq. by rewrite Hs.
    + by left.
    + intros q Hq. by rewrite Hr.
    + set_solver.
    + split_and!; [done|done|by rewrite Hs, Hp|]. exists e. split_and!; [done|by rewrite Hg|].
      eapply child_state_drop; [done..|]. left. by rewrite Hs.
Qed.

(** A thread without a claim takes a step. *)
Lemma idle_owns_nothing max w t p :
  RInv max w → (threads w !! t = None ∨ ∃ e, threads w !! t = Some (Captured e)) →
  (∀ pr, procs w !! p = Some pr → proc_owner pr ≠ Some t) ∧ (∀ c any, reaper w ≠ RHold p (Some t) c any).
Proof.
  intros I Ht. split.
  - intros pr Hp Ho. destruct (v_owner _ _ I p t) as (pc & Hpc & Hcase); [by left; eauto|].
    destruct Ht as [Ht|[e Ht]]; rewrite Ht in Hpc; simplify_eq. by destruct Hcase.
  - intros c any Hr. destruct (v_owner _ _ I p t) as (pc & Hpc & Hcase); [by right; eauto|].
    destruct Ht as [Ht|[e Ht]]; rewrite Ht in Hpc; simplify_eq. by destruct Hcase.
Qed.

Lemma idle_inv max w t pc :
  RInv max w → (threads w !! t = None ∨ ∃ e, threads w !! t = Some (Captured e)) →
  pc = Captured (generation (coord w)) ∨ pc = Abandoned None →
  RInv max (set_thread w (coord w) t pc).
Proof.
  intros I Ht Hpc. assert (pending pc = None) as Hnp by (by destruct Hpc as [->| ->]).
  split; cbn; try apply I.
  - intros q u Hown. destruct (v_owner _ _ I q u Hown) as (pcu & Hu & Hcase).
    destruct (decide (u = t)) as [->|Hne]; [|exists pcu; by rewrite lookup_insert_ne].
    destruct Ht as [Ht|[e Ht]]; rewrite Ht in Hu; simplify_eq. by destruct Hcase.
  - intros u e [[<- ->]|[_ Hu]]%lookup_insert_Some; [by destruct Hpc as [[= ->]|?]|by eapply (v_captured _ _ I)].
  - intros u pcu q at_ [[<- <-]|[Hne Hu]]%lookup_insert_Some Hq; [congruence|].
    destruct (v_pending _ _ I _ _ _ _ Hu Hq) as (e & -> & He & Hcs). exists e. split_and!; [done..|].
    by eapply child_state_frame; eauto.
  - intros t1 t2 pc1 pc2 q [[<- <-]|[Hne1 H1]]%lookup_insert_Some [[<- <-]|[Hne2 H2]]%lookup_insert_Some Hq1 Hq2;
      rewrite ?Hnp in *; try done. by eapply (v_unique _ _ I).
  - intros u q e [[<- ->]|[_ Hu]]%lookup_insert_Some; [done|by eapply (v_reserved _ _ I)].
  - intros u q e [[<- ->]|[_ Hu]]%lookup_insert_Some; [by destruct Hpc|by eapply (v_claimed _ _ I)].
  - intros u q at_ b [[<- ->]|[_ Hu]]%lookup_insert_Some; [done|by eapply (v_waiting _ _ I)].
  - intros u q at_ [[<- ->]|[_ Hu]]%lookup_insert_Some; [done|by eapply (v_wakeup _ _ I)].
Qed.

(** The claims of the others do not notice a process on a pid none of them has. *)
Lemma unclaimed_frame max w t pc p q at_ pr :
  RInv max w → unclaimed w p → threads w !! t = Some pc → pending pc = Some (q, at_) →
  ∃ e, at_ = Some e ∧ (e <= generation (coord w))%N ∧ q ≠ p ∧
    child_state max (set_procs w (<[p := pr]> (procs w))) t q e.
Proof.
  intros I Hun Ht Hq. destruct (v_pending _ _ I _ _ _ _ Ht Hq) as (e & -> & He & Hcs).
  assert (q ≠ p) as Hne. { intros ->. apply (Hun _ _ Ht). by rewrite Hq. }
  exists e. split_and!; [done..|]. eapply child_state_frame; [done| |done..|by eauto|done|done].
  cbn. by rewrite lookup_insert_ne.
Qed.

Lemma fork_inv max w p :
  RInv max w → unclaimed w p → procs w !! p = None →
  RInv max (set_procs w (<[p := Running None]> (procs w))).
Proof.
  intros I Hun Hp. split; cbn; try apply I.
  - intros q t c [[_ ?]|[_ Hq]]%lookup_insert_Some; [done|by eapply (v_zombie _ _ I)].
  - intros q t [(pr & [[<- <-]|[_ Hq]]%lookup_insert_Some & Ho)|Hr]; [done|..]; apply (v_owner _ _ I); eauto.
  - intros q t c any q' pr Hr [[_ <-]|[_ Hq]]%lookup_insert_Some; [done|by eapply (v_excl _ _ I)].
  - intros t pc q at_ Ht Hq. destruct (unclaimed_frame _ _ _ _ p q at_ (Running None) I Hun Ht Hq) as (e & -> & He & _ & Hcs).
    by exists e.
Qed.

Lemma spawn_inv max w t p e :
  RInv max w → threads w !! t = Some (Captured e) → procs w !! p = None →
  unclaimed w p → settled w p e →
  RInv max (set_thread (set_procs w (<[p := Running (Some t)]> (procs w))) (coord w) t (Spawned p e)).
Proof.
  intros I Ht Hp Hun Hset. pose proof (v_captured _ _ I _ _ Ht) as He.
  pose proof (λ q, idle_owns_nothing max w t q I (or_intror (ex_intro _ e Ht))) as Hidle.
  assert (∀ u pcu q at_, u ≠ t → threads w !! u = Some pcu → pending pcu = Some (q, at_) → q ≠ p) as Hother.
  { intros u pcu q at_ _ Hu Hq ->. apply (Hun _ _ Hu). by rewrite Hq. }
  split; cbn; try apply I.
  - intros q u c [[_ ?]|[_ Hq]]%lookup_insert_Some; [done|by eapply (v_zombie _ _ I)].
  - intros q u Hown. destruct (decide (u = t)) as [->|Hne].
    + exists (Spawned p e). split; [apply lookup_insert_eq|]. left. cbn.
      destruct Hown as [(pr & [[<- _]|[_ Hq]]%lookup_insert_Some & Ho)|(c & any & Hr)]; [done|..].
      * by destruct (proj1 (Hidle q) _ Hq).
      * by destruct (proj2 (Hidle q) c any).
    + destruct (v_owner _ _ I q u) as (pcu & Hu & Hcase); [|by exists pcu; rewrite lookup_insert_ne].
      destruct Hown as [(pr & [[_ <-]|[_ Hq]]%lookup_insert_Some & Ho)|Hr]; [cbn in Ho; congruence|eauto..].
  - intros q u c any q' pr Hr [[_ <-]|[_ Hq]]%lookup_insert_Some; [|by eapply (v_excl _ _ I)].
    cbn. intros [= <-]. by destruct (proj2 (Hidle q) c any).
  - intros u e' [[_ ?]|[_ Hu]]%lookup_insert_Some; [done|by eapply (v_captured _ _ I)].
  - intros u pcu q at_ [[<- <-]|[Hne Hu]]%lookup_insert_Some Hq.
    + cbn in Hq. injection Hq as <- <-. exists e. split_and!; [done..|].
      eapply CS_proc; [cbn; apply lookup_insert_eq|done| |].
      * intros (o & c & any & Hr). destruct (v_held _ _ I _ _ _ _ Hr) as [Hf _]. apply Hset in Hf. lia.
      * intros c g Hs. destruct (v_freed _ _ I _ _ _ Hs) as (f & Hf & Hle). apply Hset in Hf. lia.
    + destruct (unclaimed_frame _ _ _ _ p q at_ (Running (Some t)) I Hun Hu Hq) as (e' & -> & He' & _ & Hcs).
      exists e'. split_and!; [done..|]. by eapply child_state_frame; eauto.
  - intros t1 t2 pc1 pc2 q [[<- <-]|[Hne1 H1]]%lookup_insert_Some [[<- <-]|[Hne2 H2]]%lookup_insert_Some Hq1 Hq2;
      try done; [cbn in Hq1|cbn in Hq2|by eapply (v_unique _ _ I)]; simplify_eq.
    + by destruct (Hun _ _ H2).
    + by destruct (Hun _ _ H1).
  - intros u q e' [[_ ?]|[_ Hu]]%lookup_insert_Some; [done|by eapply (v_reserved _ _ I)].
  - intros u q c [[_ ?]|[_ Hu]]%lookup_insert_Some; [done|by eapply (v_claimed _ _ I)].
  - intros u q at_ b [[_ ?]|[_ Hu]]%lookup_insert_Some; [done|by eapply (v_waiting _ _ I)].
  - intros u q at_ [[_ ?]|[_ Hu]]%lookup_insert_Some; [done|by eapply (v_wakeup _ _ I)].
Qed.

Lemma exit_inv max w p o code :
  RInv max w → procs w !! p = Some (Running o) →
  RInv max
    {| coord := coord w; reaper := reaper w; procs := <[p := Zombie o code]> (procs w);
       threads := threads w;
       truth := match o with Some t => <[t := code]> (truth w) | None => truth w end;
       freed := freed w |}.
Proof.
  intros I Hp. set (w' := Build_world _ _ _ _ _ _).
  (* the ends recorded of other threads' children *)
  assert (∀ t, o ≠ Some t → truth w' !! t = truth w !! t) as Htruth.
  { intros t Ho. unfold w'. cbn. destruct o as [u|]; [|done]. rewrite lookup_insert_ne; congruence. }
  assert (∀ t, o = Some t → ∃ pc, threads w !! t = Some pc ∧
    (fst <$> pending pc = Some p ∨ pc = Abandoned (Some p))) as Hmine.
  { intros t ->. apply (v_owner _ _ I). left. by eauto. }
  split; cbn; try apply I.
  - intros q o' c any Hr. destruct (v_held _ _ I _ _ _ _ Hr) as [Hf Ht]. split; [done|].
    intros t ->. change (truth w' !! t = Some c). rewrite Htruth; [by apply Ht|]. intros ->. by eapply (v_excl _ _ I).
  - intros q t c [[<- E]|[Hne Hq]]%lookup_insert_Some; [injection E as -> ->; apply lookup_insert_eq|].
    change (truth w' !! t = Some c). rewrite Htruth; [by eapply (v_zombie _ _ I)|]. intros ->.
    destruct (Hmine t eq_refl) as (pc & Ht & Hcase).
    destruct (v_owner _ _ I q t) as (pc' & Ht' & Hcase'); [by left; eauto|].
    simplify_eq. destruct Hcase, Hcase'; simplify_eq/=; congruence.
  - intros q t Hown. apply (v_owner _ _ I). destruct Hown as [(pr & [[<- <-]|[_ Hq]]%lookup_insert_Some & Ho)|Hr]; eauto.
  - intros q t c any q' pr Hr [[<- <-]|[_ Hq]]%lookup_insert_Some; [|by eapply (v_excl _ _ I)].
    cbn. exact (v_excl _ _ I _ _ _ _ _ _ Hr Hp).
  - intros t pc q at_ Ht Hq. destruct (v_pending _ _ I _ _ _ _ Ht Hq) as (e & -> & He & Hcs).
    exists e. split_and!; [done..|]. destruct (decide (q = p)) as [->|Hne].
    + destruct Hcs as [pr H1 H2 H3 H4|c any H1 H2 H3|c g H1 H2 H3 H4 H5|H1 H2 H3 H4]; try congruence.
      simplify_eq. eapply CS_proc; [unfold w'; cbn; apply lookup_insert_eq|done..].
    + eapply child_state_frame; [done| |done| |by eauto|done|done].
      * unfold w'. cbn. by rewrite lookup_insert_ne.
      * apply Htruth. intros ->. destruct (Hmine t eq_refl) as (pc' & Ht' & Hcase). simplify_eq.
        destruct Hcase as [Hc| ->]; [rewrite Hq in Hc; cbn in Hc; congruence|done].
  - intros t q c Ht. change (truth w' !! t = Some c). rewrite Htruth; [by eapply (v_claimed _ _ I)|]. intros ->.
    destruct (Hmine t eq_refl) as (pc & Ht' & Hcase). simplify_eq. by destruct Hcase.
Qed.

(** The reaper moves between the outside, the loop and the notification. *)
Lemma reaper_inv max w r :
  RInv max w → (∀ p, ¬ held w p) → (∀ p, ¬ held (set_reaper w r) p) →
  (notify_due w → notify_due (set_reaper w r)) →
  RInv max (set_reaper w r).
Proof.
  intros I Hh Hh' Hn. split; cbn; try apply I.
  - intros p o c any ->. destruct (Hh' p). by eexists _, _, _.
  - intros p t [Hp|(c & any & ->)]; [apply (v_owner _ _ I); by left|]. destruct (Hh' p). by eexists _, _, _.
  - intros p t c any q pr ->. destruct (Hh' p). by eexists _, _, _.
  - intros t pc p at_ Ht Hp. destruct (v_pending _ _ I _ _ _ _ Ht Hp) as (e & -> & He & Hcs).
    exists e. split_and!; [done..|]. eapply child_state_frame; [done..| |by intros ?%Hh'|done].
    intros o c any Hr. destruct (Hh p). by eexists _, _, _.
  - intros t p at_ Ht Hs. apply Hn. by eapply (v_wakeup _ _ I).
Qed.

Lemma waitpid_inv max w p o code any :
  RInv max w → reaper w = RLoop any → procs w !! p = Some (Zombie o code) →
  RInv max
    {| coord := coord w; reaper := RHold p o code any; procs := delete p (procs w);
       threads := threads w; truth := truth w;
       freed := <[p := generation (coord w)]> (freed w) |}.
Proof.
  intros I Hr Hp. split; cbn; try apply I.
  - intros q c g Hs. pose proof (v_status _ _ I _ _ _ Hs) as Hle.
    destruct (decide (q = p)) as [->|Hne]; [rewrite lookup_insert_eq; eexists; split; [done|lia]|].
    rewrite lookup_insert_ne by done. by eapply (v_freed _ _ I).
  - intros q o' c any' [= <- <- <- <-]. split; [apply lookup_insert_eq|]. intros t ->. by eapply (v_zombie _ _ I).
  - intros q t c [_ Hq]%lookup_delete_Some. by eapply (v_zombie _ _ I).
  - intros q t [(pr & [_ Hq]%lookup_delete_Some & Ho)|(c & any' & [= <- -> _ _])]; apply (v_owner _ _ I); eauto.
  - intros q t c any' q' pr [= <- -> _ _] [Hne Hq]%lookup_delete_Some Ho.
    destruct (v_owner _ _ I p t) as (pc & Ht & Hcase); [by left; eauto|].
    destruct (v_owner _ _ I q' t) as (pc' & Ht' & Hcase'); [by left; eauto|].
    simplify_eq. destruct Hcase, Hcase'; simplify_eq/=; congruence.
  - intros t pc q at_ Ht Hq. destruct (v_pending _ _ I _ _ _ _ Ht Hq) as (e & -> & He & Hcs).
    exists e. split_and!; [done..|]. destruct (decide (q = p)) as [->|Hne].
    + destruct Hcs as [pr H1 H2 H3 H4|c any' H1 H2 H3|c g H1 H2 H3 H4 H5|H1 H2 H3 H4]; try congruence.
      simplify_eq. cbn in H2. subst o. eapply CS_held; [done|cbn; apply lookup_delete_eq|done].
    + eapply child_state_frame; [done| |done|done| | |done].
      * cbn. by rewrite lookup_delete_ne.
      * intros o' c any' Hr'. congruence.
      * intros (o' & c & any' & [= -> _ _ _]). done.
  - intros t q at_ Ht Hs. pose proof (v_wakeup _ _ I _ _ _ Ht Hs) as Hn. unfold notify_due in *. cbn.
    by rewrite Hr in Hn.
Qed.

Lemma record_inv max w p o code any :
  0 < max → RInv max w → reaper w = RHold p o code any → (generation (coord w) + 1 < half)%N →
  RInv max
    {| coord := record max p code (coord w); reaper := RLoop true; procs := procs w;
       threads := threads w; truth := truth w; freed := freed w |}.
Proof.
  intros Hmax I Hr Hb. set (w' := Build_world _ _ _ _ _ _).
  assert (generation (coord w') = generation (coord w) + 1)%N as Hg by (apply wrap64_small; lia).
  pose proof (record_own max p code (coord w) Hb Hmax) as Hown.
  destruct (v_held _ _ I _ _ _ _ Hr) as [Hf Htruth].
  assert (∀ q, ¬ held w' q) as Hnh by (by intros q (? & ? & ? & ?)).
  assert (∀ q c g, statuses (coord w') !! q = Some (c, g) →
    q = p ∧ g = (generation (coord w) + 1)%N ∨ q ≠ p ∧ statuses (coord w) !! q = Some (c, g)) as Hst.
  { intros q c g Hs. destruct (decide (q = p)) as [->|Hne]; [left|right].
    - unfold w' in Hs. cbn [coord] in Hs. rewrite Hown in Hs. by simplify_eq.
    - split; [done|]. exact (record_Some _ _ _ _ _ _ Hs Hne). }
  split; try apply I; try done.
  - unfold bounded. rewrite Hg. exact Hb.
  - intros q c g [[-> ->]|[_ Hs]]%Hst; rewrite Hg; [lia|]. apply (v_status _ _ I) in Hs. lia.
  - intros q c g [[-> ->]|[_ Hs]]%Hst; [exists (generation (coord w)); split; [done|lia]|]. by eapply (v_freed _ _ I).
  - rewrite Hg. pose proof (record_size max p code (coord w)) as Hsz. pose proof (v_size _ _ I) as Hsz'.
    unfold w'. cbn [coord]. lia.
  - intros q t [Hq|(c & any' & Hr')]; [apply (v_owner _ _ I); by left|done].
  - intros t e Ht. rewrite Hg. apply (v_captured _ _ I) in Ht. lia.
  - intros t pc q at_ Ht Hq. destruct (v_pending _ _ I _ _ _ _ Ht Hq) as (e & -> & He & Hcs).
    exists e. split_and!; [done|lia|].
    destruct Hcs as [pr H1 H2 H3 H4|c any' H1 H2 H3|c g H1 H2 H3 H4 H5|H1 H2 H3 H4].
    + assert (q ≠ p) as Hne. { intros ->. apply H3. by eexists _, _, _. }
      eapply CS_proc; [done..|apply Hnh|]. intros c g [[-> _]|[_ Hs]]%Hst; [done|]. by eapply H4.
    + rewrite Hr in H1. simplify_eq. eapply CS_recorded; [done|apply Hnh|exact Hown|lia|by apply Htruth].
    + assert (q ≠ p) as Hne. { intros ->. apply H2. by eexists _, _, _. }
      destruct (record_other max q p code (coord w) Hne) as [Hs|(Hs & _ & Hsz)].
      * eapply CS_recorded; [done|apply Hnh|by rewrite <- H3|done..].
      * apply CS_lost; [done|apply Hnh|done|]. pose proof (v_size _ _ I). rewrite Hg. lia.
    + assert (q ≠ p) as Hne. { intros ->. apply H2. by eexists _, _, _. }
      apply CS_lost; [done|apply Hnh| |rewrite Hg; lia].
      destruct (statuses (coord w') !! q) as [[c g]|] eqn:Hs; [|done].
      apply Hst in Hs as [[? _]|[_ Hs]]; congruence.
Qed.

Lemma notify_inv max w :
  RInv max w → reaper w = RNotify →
  RInv max {| coord := coord w; reaper := RIdle; procs := procs w;
              threads := notify <$> threads w; truth := truth w; freed := freed w |}.
Proof.
  intros I Hr.
  assert (∀ t pc, (notify <$> threads w) !! t = Some pc →
    ∃ pc0, threads w !! t = Some pc0 ∧ pc = notify pc0 ∧ pending pc = pending pc0) as Hth.
  { intros t pc. rewrite lookup_fmap. destruct (threads w !! t) as [pc0|]; [|done].
    intros [= <-]. exists pc0. by destruct pc0. }
  split; cbn; try apply I; try done.
  - intros p t [Hp|(c & any & ?)]; [|done]. destruct (v_owner _ _ I p t) as (pc & Ht & Hcase); [by left|].
    exists (notify pc). rewrite lookup_fmap, Ht. split; [done|]. destruct Hcase as [Hc| ->]; [left|by right].
    by destruct pc.
  - intros t e (pc & Ht & E & _)%Hth. destruct pc; simplify_eq/=. by eapply (v_captured _ _ I).
  - intros t pc p at_ (pc0 & Ht & _ & E)%Hth Hp. rewrite E in Hp.
    destruct (v_pending _ _ I _ _ _ _ Ht Hp) as (e & -> & He & Hcs). exists e. split_and!; [done..|].
    eapply child_state_frame; [done..| |by intros (? & ? & ? & ?)|done]. intros o c any. congruence.
  - intros t1 t2 pc1 pc2 p (p1 & H1 & _ & E1)%Hth (p2 & H2 & _ & E2)%Hth. rewrite E1, E2. by eapply (v_unique _ _ I).
  - intros t p e (pc & Ht & E & _)%Hth. destruct pc; simplify_eq/=. by eapply (v_reserved _ _ I).
  - intros t p c (pc & Ht & E & _)%Hth. destruct pc; simplify_eq/=. by eapply (v_claimed _ _ I).
  - intros t p at_ b (pc & Ht & E & _)%Hth. destruct pc; simplify_eq/=. by eapply (v_waiting _ _ I).
  - intros t p at_ (pc & Ht & E & _)%Hth. destruct pc; simplify_eq/=.
Qed.

Lemma rstep_inv max w w' :
  0 < max → rstep max w w' → bounded w' → RInv max w → RInv max w'.
Proof.
  intros Hmax Hstep Hb I.
  destruct Hstep as [w t Hl Ht|w t pid e Ht Hp Hun Hset|w t e Ht|w t pid e Hl Ht|w t pid e Hl Ht
    |w t pid e r at_ res r' Hl Ht He Hc|w t pid at_ res r' Hl Ht Hc|w t pid at_ b Ht|w pid Hp Hun
    |w pid o code Hp|w Hr|w pid o code any Hr Hp|w pid o code any Hr|w any Hr|w Hr].
  - apply idle_inv; auto.
  - by apply spawn_inv.
  - apply idle_inv; eauto.
  - by apply reserve_inv.
  - eapply (reaper_thread_inv _ _ _ _ (Reserved pid e) _ pid); try done; [by left|].
    intros q Hq. cbn. by rewrite lookup_delete_ne.
  - injection He as <- <-. rewrite (v_reserved _ _ I _ _ _ Ht) in *.
    eapply check_inv; [done|done|done| | | | | |exact Hc]; try done; cbn; set_solver.
  - destruct (v_pending _ _ I _ _ _ _ Ht eq_refl) as (e & -> & He & Hcs).
    eapply check_inv; [done|done|done| | | | | |exact Hc]; try done. by eapply (v_waiting _ _ I).
  - destruct (v_pending _ _ I _ _ _ _ Ht eq_refl) as (e & -> & He & Hcs).
    eapply (reaper_thread_inv _ _ _ _ (Blocked pid (Some e) b) _ pid); try done; [by left|].
    split_and!; [done|by eapply (v_waiting _ _ I)|done|]. exists e. split_and!; [done..|].
    eapply child_state_drop; [done..|]. by left.
  - by apply fork_inv.
  - by apply exit_inv.
  - apply reaper_inv; [done|intros p (? & ? & ? & ?); congruence|by intros p (? & ? & ? & ?)|].
    unfold notify_due. by rewrite Hr.
  - by apply waitpid_inv.
  - eapply record_inv; [done..|]. unfold bounded in Hb. cbn [coord generation record] in Hb.
    pose proof (v_bound _ _ I) as B. unfold bounded in B. change (u64_max / 2)%N with half in *.
    rewrite wrap64_small in Hb by done. done.
  - apply reaper_inv; [done|intros p (? & ? & ? & ?); congruence| |].
    + intros p (? & ? & ? & H). by destruct any.
    + unfold notify_due. rewrite Hr. cbn. by intros ->.
  - by apply notify_inv.
Qed.

Lemma rreach_inv max w : 0 < max → rreach max w → RInv max w.
Proof.
  intros Hmax Hr. unfold rreach in Hr. pose proof (reaper_init_inv max) as I. revert I.
  induction Hr as [|x y z [Hs Hb] _ IH]; [done|]. intros I. apply IH. by eapply rstep_inv.
Qed.

Lemma with_max_pos n : 0 < with_max_statuses n.
Proof. unfold with_max_statuses. lia. Qed.

(** ** What the coordinator promises *)


(** No lost wake-up.  As long as no more statuses were recorded than the
    bound retains, a thread blocked in [wait_for] has a child that was not
    reaped yet, or the status is there, the thread has been or is about to be
    notified, and its next turn of the loop returns how the child ended. *)
Theorem blocked_wait_is_answered n w t p at_ b :
  rreach (with_max_statuses n) w → threads w !! t = Some (Blocked p at_ b) →
  N.to_nat (generation (coord w)) ≤ with_max_statuses n →
  (∃ pr, procs w !! p = Some pr ∧ proc_owner pr = Some t) ∨
  (∃ c any, reaper w = RHold p (Some t) c any) ∨
  (∃ c r', wait_check p at_ (coord w) = (Some c, r') ∧ truth w !! t = Some c ∧ (b = true ∨ notify_due w)).
Proof.
  intros I%rreach_inv Ht Hle; [|apply with_max_pos].
  destruct (v_pending _ _ I _ _ _ _ Ht eq_refl) as (e & -> & He & Hcs).
  destruct Hcs as [pr H1 H2 H3 H4|c any H1 H2 H3|c g H1 H2 H3 H4 H5|H1 H2 H3 H4]; [by eauto..| |lia].
  right; right. exists c. unfold wait_check. rewrite H3.
  rewrite (recorded_after_spec g e) by (exact (status_half _ _ _ _ _ I H3) || exact (epoch_half _ _ _ I He)).
  rewrite (proj2 (N.ltb_lt e g)) by done. eexists. split_and!; [done..|].
  destruct b; [by left|right]. eapply (v_wakeup _ _ I); [done|]. by rewrite H3.
Qed.

(** One child and 1024 orphans, all ended. *)
Definition flood : list (N * Z) :=
  (7%N, 3%Z) :: ((λ i, (N.of_nat (100 + i), 0%Z)) <$> seq 0 1024).

(** The retention bound can strand a waiter.  A child that ends together
    with 1024 orphans is reaped in the same drain; its status, though its pid
    is reserved, is pruned because its exec has not entered [wait_for] yet, and
    the exec then finds nothing and blocks, while had it entered first it would
    have been answered. *)
Theorem reserved_status_is_pruned :
  let r := reserve 7 0 reaper_new in
  let drained := (drain_reaped DEFAULT_MAX_REAPED_STATUSES flood r).1 in
  let late := wait_enter 7 drained in
  let early := wait_enter 7 r in
  (wait_check 7 late.2 late.1).1 = None ∧
  (wait_check 7 early.2 (drain_reaped DEFAULT_MAX_REAPED_STATUSES flood early.1).1).1 = Some 3%Z.
Proof. split; vm_compute; reflexivity. Qed.

(** ** Concrete runs *)

Definition w_epoch : world := set_thread world0 reaper_new 0 (Captured 0).
Definition w_spawned : world :=
  set_thread (set_procs w_epoch {[7%N := Running (Some 0)]}) reaper_new 0 (Spawned 7 0).

Lemma spawned_reachable max : rreach max w_spawned.
Proof.
  eapply rtc_l; [split; [apply (T_epoch _ _ 0); [by left|done]|done]|].
  apply rtc_once. split; [|done].
  refine (T_spawn _ w_epoch 0 7 0 _ _ _ _); [done|done| |done].
  intros t p Hp. unfold w_epoch in Hp. cbn [threads set_thread] in Hp. apply lookup_insert_Some in Hp as [[_ <-]|[_ Hp]]; done.
Qed.

(** The child ends and is reaped before its thread reserves the pid. *)
Definition w_reaped : world :=
  {| coord := record 1 7 3 reaper_new; reaper := RIdle; procs := delete 7%N (<[7%N := Zombie (Some 0) 3]> (procs w_spawned));
     threads := notify <$> threads w_spawned; truth := {[0 := 3%Z]}; freed := {[7%N := 0%N]} |}.

Definition w_reserved : world := set_thread w_reaped (reserve 7 0 (coord w_reaped)) 0 (Reserved 7 0).
Definition w_entered := wait_enter 7 (coord w_reserved).
Definition w_checked := wait_check 7 w_entered.2 w_entered.1.
Definition w_claimed : world := set_thread w_reserved w_checked.2 0 (after_check 7 w_entered.2 w_checked.1).

Lemma claimed_reachable : rreach 1 w_claimed.
Proof.
  unfold rreach. etrans; [exact (spawned_reachable 1)|].
  eapply rtc_l; [split; [apply (K_exit _ _ 7 (Some 0) 3); reflexivity|done]|].
  eapply rtc_l; [split; [apply R_lock; reflexivity|done]|].
  eapply rtc_l; [split; [eapply (R_waitpid _ _ 7); reflexivity|done]|].
  eapply rtc_l; [split; [eapply R_record; reflexivity|done]|].
  eapply rtc_l; [split; [eapply R_unlock; reflexivity|done]|].
  eapply rtc_l; [split; [eapply R_notify; reflexivity|done]|].
  eapply rtc_l; [split; [exact (T_reserve _ w_reaped 0 7 0 (or_introl eq_refl) eq_refl)|done]|].
  apply rtc_once. split; [|done].
  refine (T_wait _ w_reserved 0 7 0 w_entered.1 w_entered.2 w_checked.1 w_checked.2 _ _ _ _);
    [by left|reflexivity|exact (surjective_pairing w_entered)|exact (surjective_pairing w_checked)].
Qed.


Definition w_blocked : world :=
  set_thread (set_thread w_spawned (reserve 7 0 reaper_new) 0 (Reserved 7 0))
    (wait_enter 7 (reserve 7 0 reaper_new)).1 0 (Blocked 7 (Some 0%N) false).

Lemma blocked_reachable : rreach 1 w_blocked.
Proof.
  unfold rreach. etrans; [exact (spawned_reachable 1)|].
  eapply rtc_l; [split; [exact (T_reserve _ w_spawned 0 7 0 (or_introl eq_refl) eq_refl)|done]|].
  apply rtc_once. split; [|done].
  refine (T_wait _ _ 0 7 0 (wait_enter 7 (reserve 7 0 reaper_new)).1 (Some 0%N) None
    (wait_enter 7 (reserve 7 0 reaper_new)).1 _ _ _ _); [by left|reflexivity..].
Qed.

Lemma blocked_wait_is_answered_witness :
  threads w_blocked !! 0 = Some (Blocked 7 (Some 0%N) false) ∧
  ((∃ pr, procs w_blocked !! 7%N = Some pr ∧ proc_owner pr = Some 0) ∨
   (∃ c any, reaper w_blocked = RHold 7 (Some 0) c any) ∨
   (∃ c r', wait_check 7 (Some 0%N) (coord w_blocked) = (Some c, r') ∧ truth w_blocked !! 0 = Some c ∧
      (false = true ∨ notify_due w_blocked))).
Proof.
  split; [reflexivity|].
  apply (blocked_wait_is_answered 1 w_blocked 0 7 (Some 0%N) false blocked_reachable); [reflexivity|].
  apply Nat.le_0_l.
Defined.
