(* ===== verification/PathLib.v ===== *)
(** * [std::path] and lossy UTF-8

    The parts of the standard library the rootfs packer uses: the components
    of a Unix path, its file name and parent, lossy conversion of bytes to
    UTF-8, and byte-wise string order. *)

From Stdlib Require Export Sorted.
From stdpp Require sorting.
From S2P Require Import Prelude.

(** ** Components *)

Inductive Component := RootDir | CurDir | ParentDir | Normal (c : string).

#[global] Instance Component_eq_dec : EqDecision Component.
Proof. solve_decision. Defined.

Definition segment_component (s : string) : option Component :=
  if decide (s = "" ∨ s = ".") then None
  else if decide (s = "..") then Some ParentDir
  else Some (Normal s).

(** [Path::components]: repeated separators and interior [.] are folded away, a
    leading [.] of a relative path is kept. *)
Definition components (p : string) : list Component :=
  (if starts_with "/" p then [RootDir]
   else if decide (head (str_split "/" p) = Some ".") then [CurDir] else []) ++
  omap segment_component (str_split "/" p).

(** [Path::file_name] and [Path::parent] on the components. *)
Definition file_name (cs : list Component) : option string :=
  match last cs with Some (Normal c) => Some c | _ => None end.

Definition path_parent (cs : list Component) : option (list Component) :=
  match last cs with None | Some RootDir => None | Some _ => Some (removelast cs) end.

(** A component that names an entry of a directory. *)
Definition is_normal (c : string) : bool :=
  negb (bool_decide (c = "")) && negb (bool_decide (c = ".")) && negb (bool_decide (c = "..")) &&
  bool_decide ("/"%char ∉ bytes c).

Lemma components_normal p c : Normal c ∈ components p → is_normal c = true.
Proof.
  unfold components. rewrite elem_of_app. intros [H|H].
  - destruct (starts_with "/" p); [set_solver|]. case_decide; set_solver.
  - apply list_elem_of_omap in H as (s & Hs & Hc). apply str_split_no_char in Hs.
    unfold segment_component in Hc. do 2 (case_decide; [done|]). simplify_eq.
    unfold is_normal. rewrite !bool_decide_eq_false_2, bool_decide_eq_true_2 by tauto. done.
Qed.

(** ** Joined keys *)

(** The path string of a list of normal components. *)
Definition key_string (k : list string) : string := String.concat "/" k.

Lemma is_normal_spec c : is_normal c ↔ c ≠ "" ∧ c ≠ "." ∧ c ≠ ".." ∧ "/"%char ∉ bytes c.
Proof.
  unfold is_normal. rewrite !andb_True, !negb_True, !bool_decide_spec. tauto.
Qed.

Lemma str_split_key k : k ≠ [] → Forall is_normal k → str_split "/" (key_string k) = k.
Proof.
  intros Hne Hk. destruct k as [|c k]; [done|]. clear Hne. revert c Hk.
  induction k as [|d k IH]; intros c [Hc Hk]%Forall_cons; apply is_normal_spec in Hc as (_ & _ & _ & Hc).
  - by apply str_split_word.
  - change (key_string (c :: d :: k)) with (c +:+ String "/" (key_string (d :: k))).
    rewrite str_split_append by done. by rewrite (IH d Hk).
Qed.

Lemma components_key k : k ≠ [] → Forall is_normal k → components (key_string k) = Normal <$> k.
Proof.
  intros Hne Hk. unfold components. rewrite str_split_key by done.
  destruct k as [|c k]; [done|]. pose proof Hk as [Hc _]%Forall_cons.
  apply is_normal_spec in Hc as (H1 & H2 & _ & H4). destruct c as [|a c]; [done|].
  assert (starts_with "/" (key_string (String a c :: k)) = false) as ->.
  { apply not_true_iff_false. rewrite starts_with_spec. intros [t Ht].
    assert (a = "/"%char) as -> by (destruct k; by injection Ht). cbn in H4. set_solver. }
  rewrite decide_False by (cbn; congruence). rewrite app_nil_l. clear Hne H1 H2 H4.
  revert Hk. generalize (String a c :: k). intros l Hl.
  induction Hl as [|x l Hx _ IH]; [done|]. apply is_normal_spec in Hx as (X1 & X2 & X3 & _).
  rewrite fmap_cons, <- IH. cbn. unfold segment_component at 1.
  by rewrite !decide_False by (try done; by intros [|]).
Qed.

(** ** Lossy UTF-8 *)

Definition in_range (lo hi : N) (c : ascii) : bool := (lo <=? byte_N c)%N && (byte_N c <=? hi)%N.
Definition is_cont : ascii → bool := in_range 128 191.

(** The admissible second bytes after a first one, and the length of the
    sequence; [None] for a byte that starts none. *)
Definition utf8_lead (b : ascii) : option (nat * (ascii → bool)) :=
  if in_range 194 223 b then Some (2, is_cont)
  else if in_range 224 224 b then Some (3, in_range 160 191)
  else if in_range 237 237 b then Some (3, in_range 128 159)
  else if in_range 225 239 b then Some (3, is_cont)
  else if in_range 240 240 b then Some (4, in_range 144 191)
  else if in_range 241 243 b then Some (4, is_cont)
  else if in_range 244 244 b then Some (4, in_range 128 143)
  else None.

(** The continuation bytes of a sequence: what was taken, whether it is
    complete, and the rest. *)
Fixpoint take_cont (n : nat) (s : string) : string * bool * string :=
  match n, s with
  | 0, _ => ("", true, s)
  | S n, String b s' =>
      if is_cont b then let '(t, ok, r) := take_cont n s' in (String b t, ok, r) else ("", false, s)
  | S _, EmptyString => ("", false, s)
  end.

(** The first chunk: a complete character, or the longest prefix of one that
    the following byte breaks. *)
Definition utf8_chunk (b : ascii) (s : string) : string * bool * string :=
  if (byte_N b <? 128)%N then (String b "", true, s)
  else match utf8_lead b with
       | None => (String b "", false, s)
       | Some (n, second) =>
           match s with
           | String b2 s2 =>
               if second b2 then
                 let '(t, ok, r) := take_cont (n - 2) s2 in (String b (String b2 t), ok, r)
               else (String b "", false, s)
           | EmptyString => (String b "", false, s)
           end
       end.

Fixpoint utf8_chunks (fuel : nat) (s : string) : list (string * bool) :=
  match fuel, s with
  | S fuel, String b s' => let '(c, ok, r) := utf8_chunk b s' in (c, ok) :: utf8_chunks fuel r
  | _, _ => []
  end.

Definition replacement_char : string := utf8 [239; 191; 189]%N.

(** [String::from_utf8_lossy], which [to_string_lossy] is on Unix. *)
Definition from_utf8_lossy (s : string) : string :=
  foldr (λ x t, (if x.2 : bool then x.1 else replacement_char) +:+ t) "" (utf8_chunks (String.length s) s).

(** Does [String::from_utf8] accept the bytes? *)
Definition is_utf8 (s : string) : bool := forallb snd (utf8_chunks (String.length s) s).

Lemma take_cont_app n s t ok r : take_cont n s = (t, ok, r) → s = t +:+ r.
Proof.
  revert s t ok r. induction n as [|n IH]; intros s t ok r; cbn; [by intros [= <- <- <-]|].
  destruct s as [|b s]; [by intros [= <- <- <-]|]. destruct (is_cont b); [|by intros [= <- <- <-]].
  destruct (take_cont n s) as [[t' ok'] r'] eqn:E. intros [= <- <- <-].
  rewrite append_cons. f_equal. by eapply IH.
Qed.

Lemma utf8_chunk_app b s c ok r : utf8_chunk b s = (c, ok, r) → String b s = c +:+ r ∧ c ≠ "".
Proof.
  unfold utf8_chunk. destruct (byte_N b <? 128)%N; [by intros [= <- <- <-]|].
  destruct (utf8_lead b) as [[n second]|]; [|by intros [= <- <- <-]].
  destruct s as [|b2 s2]; [by intros [= <- <- <-]|]. destruct (second b2); [|by intros [= <- <- <-]].
  destruct (take_cont (n - 2) s2) as [[t ok'] r'] eqn:E. intros [= <- <- <-].
  apply take_cont_app in E as ->. done.
Qed.

Lemma utf8_chunks_app fuel s :
  String.length s ≤ fuel → foldr (λ x t, x.1 +:+ t) "" (utf8_chunks fuel s) = s.
Proof.
  revert s. induction fuel as [|fuel IH]; intros [|b s] H; cbn in H; try done; [lia|]. cbn [utf8_chunks].
  destruct (utf8_chunk b s) as [[c ok] r] eqn:E. apply utf8_chunk_app in E as [E Hc]. cbn [foldr fst].
  rewrite IH; [done|]. apply (f_equal String.length) in E. rewrite length_append in E. cbn in E.
  destruct c; [done|]. cbn in E. lia.
Qed.

(** Lossy conversion keeps what is UTF-8. *)
Lemma from_utf8_lossy_valid s : is_utf8 s = true → from_utf8_lossy s = s.
Proof.
  intros H. rewrite <- (utf8_chunks_app (String.length s) s) at 2 by lia.
  unfold from_utf8_lossy, is_utf8 in *. induction (utf8_chunks _ _) as [|[c ok] l IH]; [done|].
  cbn [forallb foldr fst snd] in H |- *. apply andb_true_iff in H as [-> H]. by rewrite IH.
Qed.

(** A complete character stays one whatever follows it. *)
Definition is_char (c : string) : Prop :=
  ∀ rest, match c with
          | String b c' => utf8_chunk b (c' +:+ rest) = (c, true, rest)
          | EmptyString => False
          end.

Lemma take_cont_stable n s t r rest :
  take_cont n s = (t, true, r) → take_cont n (t +:+ rest) = (t, true, rest).
Proof.
  revert s t r. induction n as [|n IH]; intros s t r; cbn; [by intros [= <- <-]|].
  destruct s as [|b s]; [done|]. destruct (is_cont b) eqn:Hb; [|done].
  destruct (take_cont n s) as [[t' ok'] r'] eqn:E. intros [= <- -> <-].
  rewrite append_cons. cbn. rewrite Hb. by rewrite (IH _ _ _ E).
Qed.

Lemma utf8_chunk_char b s c r : utf8_chunk b s = (c, true, r) → is_char c.
Proof.
  unfold utf8_chunk. intros H rest. destruct (byte_N b <? 128)%N eqn:H1.
  { injection H as <- <-. unfold utf8_chunk. by rewrite H1. }
  destruct (utf8_lead b) as [[n second]|] eqn:H2; [|done]. destruct s as [|b2 s2]; [done|].
  destruct (second b2) eqn:H3; [|done]. destruct (take_cont (n - 2) s2) as [[t ok'] r'] eqn:E.
  injection H as <- -> <-. unfold utf8_chunk. rewrite append_cons, H1, H2, H3.
  by rewrite (take_cont_stable _ _ _ _ _ E).
Qed.

Lemma replacement_is_char : is_char replacement_char.
Proof. intros rest. reflexivity. Qed.

Lemma chars_utf8 l fuel :
  Forall is_char l → String.length (foldr String.append "" l) ≤ fuel →
  forallb snd (utf8_chunks fuel (foldr String.append "" l)) = true.
Proof.
  intros Hl. revert fuel. induction Hl as [|c l Hc _ IH]; intros fuel Hf; [by destruct fuel|]. cbn in Hf |- *.
  specialize (Hc (foldr String.append "" l)). destruct c as [|b c]; [done|].
  rewrite append_cons in Hf |- *. cbn in Hf. destruct fuel as [|fuel]; [lia|]. cbn [utf8_chunks].
  rewrite Hc. cbn. apply IH. rewrite length_append in Hf. lia.
Qed.

(** What lossy conversion returns is UTF-8. *)
Lemma ascii_is_utf8 a s : forallb (λ c, byte_N c <? 128)%N (bytes a) = true → is_utf8 (a +:+ s) = is_utf8 s.
Proof.
  induction a as [|b a IH]; [done|]. cbn [bytes forallb]. intros [Hb Ha]%andb_true_iff.
  rewrite append_cons, <- (IH Ha). unfold is_utf8. cbn [String.length utf8_chunks]. unfold utf8_chunk. by rewrite Hb.
Qed.

Lemma from_utf8_lossy_utf8 s : is_utf8 (from_utf8_lossy s) = true.
Proof.
  assert (from_utf8_lossy s = foldr String.append ""
    ((λ x : string * bool, if x.2 then x.1 else replacement_char) <$> utf8_chunks (String.length s) s)) as ->.
  { unfold from_utf8_lossy. induction (utf8_chunks _ _) as [|x l IH]; [done|]. rewrite fmap_cons. cbn [foldr]. by rewrite IH. }
  apply chars_utf8; [|done]. apply Forall_fmap. generalize (String.length s). intros fuel. revert s.
  induction fuel as [|fuel IH]; intros [|b s]; cbn [utf8_chunks]; try by constructor.
  destruct (utf8_chunk b s) as [[c ok] r] eqn:E. constructor; [|apply IH]. cbn.
  destruct ok; [by eapply utf8_chunk_char|apply replacement_is_char].
Qed.

(** ** Byte-wise order *)

Fixpoint str_le (s t : string) : bool :=
  match s, t with
  | EmptyString, _ => true
  | String _ _, EmptyString => false
  | String a s, String b t => (byte_N a <? byte_N b)%N || ((byte_N a =? byte_N b)%N && str_le s t)
  end.

Lemma byte_N_inj a b : byte_N a = byte_N b → a = b.
Proof. intros H. rewrite <- (ascii_N_embedding a), <- (ascii_N_embedding b). unfold byte_N in H. by rewrite H. Qed.

#[global] Instance str_le_total : Total str_le.
Proof.
  intros s. induction s as [|a s IH]; intros [|b t]; cbn; auto.
  rewrite !orb_True, !andb_True, !Is_true_true, !N.ltb_lt, !N.eqb_eq.
  destruct (N.lt_total (byte_N a) (byte_N b)) as [?|[E|?]]; auto.
  destruct (IH t) as [H|H]; apply Is_true_true in H; [left|right]; right; auto.
Qed.

#[global] Instance str_le_trans : Transitive str_le.
Proof.
  intros s. induction s as [|a s IH]; intros [|b t] [|c u]; cbn; try tauto.
  rewrite !orb_True, !andb_True, !Is_true_true, !N.ltb_lt, !N.eqb_eq.
  intros [H1|[H1 H1']] [H2|[H2 H2']]; try (left; lia). right. split; [congruence|].
  rewrite <- Is_true_true in *. by eapply IH.
Qed.

#[global] Instance str_le_antisymm : AntiSymm (=) str_le.
Proof.
  intros s. induction s as [|a s IH]; intros [|b t]; cbn; try tauto.
  rewrite !orb_True, !andb_True, !Is_true_true, !N.ltb_lt, !N.eqb_eq.
  intros [H1|[H1 H1']] [H2|[H2 H2']]; try lia. apply byte_N_inj in H1 as ->. f_equal.
  apply IH; by apply Is_true_true.
Qed.

(** ** [slice::sort_by]

    A stable sort: elements the order does not separate keep their places. *)

Section stable_sort.
Context {A : Type} (R : relation A) `{!RelDecision R}.

Fixpoint sort_insert (x : A) (l : list A) : list A :=
  match l with
  | [] => [x]
  | y :: l' => if decide (R x y) then x :: l else y :: sort_insert x l'
  end.

Definition stable_sort (l : list A) : list A := foldr sort_insert [] l.

Lemma sort_insert_Permutation x l : sort_insert x l ≡ₚ x :: l.
Proof.
  induction l as [|y l IH]; cbn; [done|]. case_decide; [done|]. by rewrite IH, Permutation_swap.
Qed.

Lemma stable_sort_Permutation l : stable_sort l ≡ₚ l.
Proof. induction l as [|x l IH]; cbn; [done|]. by rewrite sort_insert_Permutation, IH. Qed.

Lemma sort_insert_sorted `{!Total R, !Transitive R} x l :
  StronglySorted R l → StronglySorted R (sort_insert x l).
Proof.
  induction 1 as [|y l Hs IH Hy]; cbn; [repeat constructor|]. case_decide as Hxy.
  - constructor; [by constructor|]. constructor; [done|]. eapply Forall_impl; [done|]. intros z Hz. by trans y.
  - constructor; [done|]. rewrite Forall_forall in Hy |- *. intros z. rewrite sort_insert_Permutation, elem_of_cons.
    intros [->|Hz]; [by destruct (total R x y)|by apply Hy].
Qed.

Lemma stable_sort_sorted `{!Total R, !Transitive R} l : StronglySorted R (stable_sort l).
Proof. induction l as [|x l IH]; cbn; [constructor|]. by apply sort_insert_sorted. Qed.

(** A sorted list is left as it is. *)
Lemma stable_sort_id l : StronglySorted R l → stable_sort l = l.
Proof.
  induction 1 as [|y l Hs IH Hy]; [done|]. change (stable_sort (y :: l)) with (sort_insert y (stable_sort l)).
  rewrite IH. destruct l as [|z l]; [done|]. cbn.
  rewrite decide_True; [done|]. by apply Forall_inv in Hy.
Qed.
End stable_sort.

(** Sorting forgets the order of the input where the order separates its
    elements. *)
Lemma stable_sort_canonical {A} (R : relation A) `{!RelDecision R, !Total R, !Transitive R} l1 l2 :
  (∀ x y, x ∈ l1 → y ∈ l1 → R x y → R y x → x = y) → l1 ≡ₚ l2 → stable_sort R l1 = stable_sort R l2.
Proof.
  intros Hanti Hp. apply (sorting.StronglySorted_unique_strong R).
  - intros x y. rewrite !stable_sort_Permutation, <- Hp. apply Hanti.
  - by apply stable_sort_sorted.
  - by apply stable_sort_sorted.
  - by rewrite !stable_sort_Permutation.
Qed.
