(* ===== verification/Rootfs.v ===== *)
(** * The rootfs merge

    [crates/vmcell/src/artifact/tar2erofs.rs] up to the format choice: the
    layers of an image merged in order with OCI whiteouts, the caller's extra
    files and vmcell's own injections inserted after them, missing parents
    synthesised; and from [artifact/rootfs/mod.rs] the injection manifest, the
    reserved paths and the validation of extra files.

    The tar reader is a library: an archive is the sequence of members it hands
    out, each field with the error its accessor can answer.  The EROFS writer's
    attribute names and [libc]'s device numbers are parameters with their
    documented laws.  A key of the merged map is the list of its components; a
    [HashMap] is iterated in an order the model does not fix. *)

From S2P Require Import Prelude PathLib.

(** ** Nodes *)

Notation key := (list string).

Inductive art_error := Artifact.

#[global] Instance art_error_eq_dec : EqDecision art_error.
Proof. solve_decision. Defined.

Record NodeMeta := { uid : N; gid : N; mtime : N; mtime_nsec : N }.

Record XattrSpec := { name_index : N; name : string; value : string }.

(** The writer's node type; [OtherNode] is its chunked and compressed file
    shapes, which the merge never makes. *)
Inductive Node :=
| File (mode : N) (data : string) (meta : NodeMeta) (xattrs : list XattrSpec)
| Dir (mode : N) (entries : list (string * Node)) (meta : NodeMeta) (xattrs : list XattrSpec)
| Symlink (mode : N) (target : string) (meta : NodeMeta) (xattrs : list XattrSpec)
| Device (mode rdev : N) (meta : NodeMeta) (xattrs : list XattrSpec)
| Special (mode : N) (meta : NodeMeta) (xattrs : list XattrSpec)
| OtherNode.

Notation tree := (gmap (list string) Node).

(** The POSIX file types. *)
Definition S_IFMT : N := 61440.
Definition S_IFREG : N := 32768.
Definition S_IFDIR : N := 16384.
Definition S_IFLNK : N := 40960.
Definition S_IFCHR : N := 8192.
Definition S_IFBLK : N := 24576.
Definition S_IFIFO : N := 4096.

Definition root_meta : NodeMeta := {| uid := 0; gid := 0; mtime := 0; mtime_nsec := 0 |}.

(** ** Libraries *)

(** [fs_erofs::xattr]: the name-space indices and the name they stand for. *)
Class ErofsXattr := {
  ns_raw : N; ns_user : N; ns_acl_access : N; ns_acl_default : N;
  ns_trusted : N; ns_lustre : N; ns_security : N;
  resolve_full_name : N → string → string;
  resolve_raw s : resolve_full_name ns_raw s = s;
  resolve_user s : resolve_full_name ns_user s = "user." +:+ s;
  resolve_acl_access : resolve_full_name ns_acl_access "" = "system.posix_acl_access";
  resolve_acl_default : resolve_full_name ns_acl_default "" = "system.posix_acl_default";
  resolve_trusted s : resolve_full_name ns_trusted s = "trusted." +:+ s;
  resolve_lustre s : resolve_full_name ns_lustre s = "lustre." +:+ s;
  resolve_security s : resolve_full_name ns_security s = "security." +:+ s;
}.

(** [libc]'s device numbers: a number of 32 bits holds a major of 12 bits and a
    minor of 20. *)
Class LibcDev := {
  makedev : N → N → N;
  dev_major : N → N;
  dev_minor : N → N;
  makedev_major a b : (a < 2 ^ 12)%N → (b < 2 ^ 20)%N → dev_major (makedev a b) = a;
  makedev_minor a b : (a < 2 ^ 12)%N → (b < 2 ^ 20)%N → dev_minor (makedev a b) = b;
  makedev_u32 a b : (a < 2 ^ 12)%N → (b < 2 ^ 20)%N → (makedev a b < 2 ^ 32)%N;
  makedev_dev d : (d < 2 ^ 32)%N → makedev (dev_major d) (dev_minor d) = d;
}.

(** ** Members of an archive *)

Inductive EntryType :=
| Regular | Link | SymlinkType | Char | Block | Directory | Fifo | Continuous
| GNULongName | GNULongLink | GNUSparse | XGlobalHeader | XHeader | UnknownType (byte : N).

(** A member as the reader's accessors answer; [option] is a field that does not
    parse where the code takes a default. *)
Record tar_entry := {
  e_path : result unit string;
  e_uid : option N; e_gid : option N; e_mtime : option N; e_mode : option N;
  e_type : EntryType;
  e_data : result unit string;
  e_link_name : result unit (option string);
  e_major : result unit (option N); e_minor : result unit (option N);
  e_pax : result unit (option (list (result unit (string * string))));
}.

Definition archive : Type := result unit (list (result unit tar_entry)).

Inductive XattrPolicy := Strip | Preserve.

(** [e.map_err(..)?] *)
Definition map_err {A} (r : result unit A) : result art_error A :=
  match r with Ok a => Ok a | Err _ => Err Artifact end.

(** ** Paths *)

Definition normalize_step (out : key) (c : Component) : key :=
  match c with
  | Normal c => out ++ [c]
  | ParentDir => removelast out
  | _ => out
  end.

Definition normalize_path (cs : list Component) : key := foldl normalize_step [] cs.

Definition parent (k : key) : option key := match k with [] => None | _ => Some (removelast k) end.

Definition injected_file_mode (dest_path : string) : N :=
  if existsb (λ c, match c with
                   | Normal c => bool_decide (c ∈ ["bin"; "sbin"; "vmcell-tools"])
                   | _ => false
                   end) (components dest_path)
  then 493 else 420.     (** [0o755], [0o644] *)

Section merge.
Context `{XA : ErofsXattr} `{LD : LibcDev}.

(** The content of a host file. *)
Context (fs_read : string → option string).

(** The iteration order of a map's keys. *)
Context (key_order : tree → list key).

(** ** Extended attributes *)

Definition PAX_SCHILY_XATTR : string := "SCHILY.xattr.".

Definition xattr_spec (full_name v : string) : XattrSpec :=
  let '(i, suffix) :=
    if decide (full_name = "system.posix_acl_access") then (ns_acl_access, "")
    else if decide (full_name = "system.posix_acl_default") then (ns_acl_default, "")
    else match split_once "." full_name with
         | Some (p, rest) =>
             if decide (p = "user") then (ns_user, rest)
             else if decide (p = "trusted") then (ns_trusted, rest)
             else if decide (p = "security") then (ns_security, rest)
             else if decide (p = "lustre") then (ns_lustre, rest)
             else (ns_raw, full_name)
         | None => (ns_raw, full_name)
         end in
  {| name_index := i; name := suffix; value := v |}.

(** The order on [(name_index, name)]. *)
Definition spec_le (a b : XattrSpec) : Prop :=
  (name_index a < name_index b)%N ∨ (name_index a = name_index b ∧ str_le (name a) (name b)).

#[global] Instance spec_le_dec : RelDecision spec_le.
Proof. intros a b. unfold spec_le. apply _. Defined.

Fixpoint pax_specs (extensions : list (result unit (string * string))) : result art_error (list XattrSpec) :=
  match extensions with
  | [] => Ok []
  | extension :: rest =>
      let? (k, v) := map_err extension in
      if negb (is_utf8 k) then Err Artifact else
      match strip_prefix PAX_SCHILY_XATTR k with
      | None => pax_specs rest
      | Some full_name => let? out := pax_specs rest in Ok (xattr_spec full_name v :: out)
      end
  end.

Definition tar_entry_xattrs (f : tar_entry) (policy : XattrPolicy) : result art_error (list XattrSpec) :=
  match policy, e_type f with
  | Strip, _ | _, XGlobalHeader | _, XHeader => Ok []
  | Preserve, _ =>
      let? extensions := map_err (e_pax f) in
      match extensions with
      | None => Ok []
      | Some extensions => let? out := pax_specs extensions in Ok (stable_sort spec_le out)
      end
  end.

(** ** One member *)

Definition entry_meta (f : tar_entry) : NodeMeta :=
  {| uid := (default 0 (e_uid f) mod 2 ^ 32)%N; gid := (default 0 (e_gid f) mod 2 ^ 32)%N;
     mtime := default 0%N (e_mtime f); mtime_nsec := 0 |}.

Definition entry_mode (f : tar_entry) : N := (default 0 (e_mode f) mod 2 ^ 16)%N.

Definition entry_rdev (f : tar_entry) : result art_error N :=
  let? major := map_err (e_major f) in
  let? minor := map_err (e_minor f) in
  Ok (makedev (default 0%N major) (default 0%N minor) mod 2 ^ 32)%N.

(** The node of a member over the tree merged so far; [None] for the one type
    that is skipped. *)
Definition entry_node (entries : tree) (f : tar_entry) (xattrs : list XattrSpec)
    : result art_error (option Node) :=
  let meta := entry_meta f in
  let mode := entry_mode f in
  match e_type f with
  | Regular => let? data := map_err (e_data f) in Ok (Some (File (N.lor mode S_IFREG) data meta xattrs))
  | Directory => Ok (Some (Dir (N.lor mode S_IFDIR) [] meta xattrs))
  | SymlinkType =>
      let? target := map_err (e_link_name f) in
      Ok (Some (Symlink (N.lor mode S_IFLNK) (from_utf8_lossy (default "" target)) meta xattrs))
  | Char => let? rdev := entry_rdev f in Ok (Some (Device (N.lor mode S_IFCHR) rdev meta xattrs))
  | Block => let? rdev := entry_rdev f in Ok (Some (Device (N.lor mode S_IFBLK) rdev meta xattrs))
  | Fifo => Ok (Some (Special (N.lor mode S_IFIFO) meta xattrs))
  | Link =>
      let? target := map_err (e_link_name f) in
      let? target := ok_or target Artifact in
      match entries !! normalize_path (components target) with
      | Some (File mode data meta target_xattrs) => Ok (Some (File mode data meta target_xattrs))
      | _ => Err Artifact
      end
  | XGlobalHeader => Ok None
  | _ => Err Artifact
  end.

(** What the path of a member asks for. *)
Inductive action := Insert (k : key) | RemoveTree (k : key) | RemoveBelow (k : key).

Definition WHITEOUT_PREFIX : string := ".wh.".
Definition OPAQUE_MARKER : string := ".wh..wh..opq".

Definition path_action (path : list Component) : action :=
  let file_name := from_utf8_lossy (default "" (file_name path)) in
  let parent := default [] (path_parent path) in
  match strip_prefix WHITEOUT_PREFIX file_name with
  | Some target_name =>
      if decide (file_name = OPAQUE_MARKER) then RemoveBelow (normalize_path parent)
      else RemoveTree (normalize_path (parent ++ components target_name))
  | None => Insert (normalize_path path)
  end.

Definition apply_action (a : action) (node : Node) (entries : tree) : tree :=
  match a with
  | Insert k => <[k := node]> entries
  | RemoveTree d => filter (λ x, ¬ d `prefix_of` x.1) entries
  | RemoveBelow d => filter (λ x, ¬ d `prefix_of` x.1 ∨ x.1 = d) entries
  end.

Definition merge_entry (policy : XattrPolicy) (entries : tree) (f : tar_entry) : result art_error tree :=
  let? path := map_err (e_path f) in
  let? xattrs := tar_entry_xattrs f policy in
  let? node := entry_node entries f xattrs in
  match node with
  | None => Ok entries
  | Some node => Ok (apply_action (path_action (components path)) node entries)
  end.

Fixpoint merge_entries (policy : XattrPolicy) (entries : tree) (l : list (result unit tar_entry))
    : result art_error tree :=
  match l with
  | [] => Ok entries
  | f :: l =>
      let? f := map_err f in
      let? entries := merge_entry policy entries f in
      merge_entries policy entries l
  end.

Fixpoint merge_archives (policy : XattrPolicy) (entries : tree) (l : list archive) : result art_error tree :=
  match l with
  | [] => Ok entries
  | a :: l =>
      let? files := map_err a in
      let? entries := merge_entries policy entries files in
      merge_archives policy entries l
  end.

(** ** Injection *)

Record InjectedFile := { dest_path : string; src_path : string; i_mode : option N }.

Definition injected_node (f : InjectedFile) (content : string) : Node :=
  File (N.lor (default (injected_file_mode (dest_path f)) (i_mode f)) S_IFREG) content root_meta [].

Definition insert_injected_file (entries : tree) (f : InjectedFile) : result art_error tree :=
  match fs_read (src_path f) with
  | None => Err Artifact
  | Some content => Ok (<[normalize_path (components (dest_path f)) := injected_node f content]> entries)
  end.

Fixpoint insert_extra_files (entries : tree) (l : list InjectedFile) : result art_error tree :=
  match l with
  | [] => Ok entries
  | f :: l => let? entries := insert_injected_file entries f in insert_extra_files entries l
  end.

Inductive InjectionKind := KFile | KSymlink.

Definition claim_injection_dest (claimed : gmap key InjectionKind) (dest_path : string) (kind : InjectionKind)
    : result art_error (gmap key InjectionKind) :=
  let k := normalize_path (components dest_path) in
  match claimed !! k with
  | Some _ => Err Artifact
  | None => Ok (<[k := kind]> claimed)
  end.

Fixpoint inject_files (claimed : gmap key InjectionKind) (entries : tree) (l : list InjectedFile)
    : result art_error (gmap key InjectionKind * tree) :=
  match l with
  | [] => Ok (claimed, entries)
  | f :: l =>
      let? claimed := claim_injection_dest claimed (dest_path f) KFile in
      let? entries := insert_injected_file entries f in
      inject_files claimed entries l
  end.

Definition symlink_node (target : string) : Node := Symlink (N.lor 511 S_IFLNK) target root_meta [].

Fixpoint inject_symlinks (claimed : gmap key InjectionKind) (entries : tree) (l : list (string * string))
    : result art_error tree :=
  match l with
  | [] => Ok entries
  | (dest_path, target) :: l =>
      let? claimed := claim_injection_dest claimed dest_path KSymlink in
      inject_symlinks claimed (<[normalize_path (components dest_path) := symlink_node target]> entries) l
  end.

Definition build_node_map (archives : list archive) (extra_files injected_files : list InjectedFile)
    (injected_symlinks : list (string * string)) (policy : XattrPolicy) : result art_error tree :=
  let? entries := merge_archives policy ∅ archives in
  let? entries := insert_extra_files entries extra_files in
  let? (claimed, entries) := inject_files ∅ entries injected_files in
  inject_symlinks claimed entries injected_symlinks.

(** ** Completion *)

Definition synthesized_dir : Node := Dir (N.lor 493 S_IFDIR) [] root_meta [].

(** The [while] loop over the parents of a path; the path's length bounds it. *)
Fixpoint ensure_parents (fuel : nat) (p : key) (entries : tree) : tree :=
  match fuel, parent p with
  | S fuel, Some p =>
      if decide (p = []) then entries else
      ensure_parents fuel p
        (if decide (is_Some (entries !! p)) then entries else <[p := synthesized_dir]> entries)
  | _, _ => entries
  end.

Definition ensure_all_parents (paths : list key) (entries : tree) : tree :=
  foldl (λ entries p, ensure_parents (length p) p entries) entries paths.

Definition has_libc6 (paths : list key) : bool :=
  existsb (λ p, bool_decide (last p = Some "libc.so.6")) paths.

Definition merged_node_map (archives : list archive) (extra_files injected_files : list InjectedFile)
    (injected_symlinks : list (string * string)) (require_libc6 : bool) (policy : XattrPolicy)
    : result art_error tree :=
  let? entries := build_node_map archives extra_files injected_files injected_symlinks policy in
  if require_libc6 && negb (has_libc6 (key_order entries)) then Err Artifact else
  let entries := ensure_all_parents (key_order entries) entries in
  Ok (if decide (is_Some (entries !! [])) then entries else <[[] := synthesized_dir]> entries).
End merge.

(** ** The injection manifest and the extra files *)

Definition VMCELL_TOOLS_DIR : string := "vmcell-tools".
Definition GUEST_TOOLS_MULTICALL_BIN : string := "vmcell-guest-tools".
Definition GUEST_TOOLS_APPLETS : list string :=
  ["ip"; "curl"; "kvm-ok"; "echo-server"; "mini-init"; "xattr"].

Definition own_file (dest src : string) : InjectedFile :=
  {| dest_path := dest; src_path := src; i_mode := None |}.

Definition rootfs_injection_manifest (steward : string) (ca tools : option string) (applets : list string)
    : list InjectedFile * list (string * string) :=
  let files := [own_file "usr/sbin/vmcell-steward" steward] in
  let files := files ++ match ca with
    | Some ca => [own_file "usr/local/share/ca-certificates/vmcell-ca.crt" ca;
                  own_file "etc/ssl/certs/ca-certificates.crt" ca]
    | None => []
    end in
  match tools with
  | Some tools =>
      (files ++ [own_file "vmcell-tools/vmcell-guest-tools" tools],
       (λ applet, (VMCELL_TOOLS_DIR +:+ "/" +:+ applet, GUEST_TOOLS_MULTICALL_BIN)) <$> applets)
  | None => (files, [])
  end.

Definition is_reserved_injection_path (dest : string) : bool :=
  let normalized := normalize_path (components dest) in
  if decide ([VMCELL_TOOLS_DIR] `prefix_of` normalized) then true else
  let '(files, symlinks) :=
    rootfs_injection_manifest "/dev/null" (Some "/dev/null") (Some "/dev/null") GUEST_TOOLS_APPLETS in
  existsb (λ f, bool_decide (normalize_path (components (dest_path f)) = normalized)) files ||
  existsb (λ l, bool_decide (normalize_path (components l.1) = normalized)) symlinks.

Record ExtraFile := { x_dest : string; x_src : string; x_mode : N }.

Definition validate_extra_file (seen : gset key) (f : ExtraFile) : result art_error (gset key) :=
  let dest := x_dest f in
  if negb (starts_with "/" dest) then Err Artifact else
  if decide (ParentDir ∈ components dest) then Err Artifact else
  let normalized := normalize_path (components dest) in
  if negb (bool_decide (last normalized = Some (rsplit_first "/" dest))) then Err Artifact else
  if is_reserved_injection_path dest then Err Artifact else
  if decide (normalized ∈ seen) then Err Artifact else
  if negb (N.ldiff (x_mode f) 4095 =? 0)%N then Err Artifact else
  if (65535 <? x_mode f)%N then Err Artifact else
  Ok ({[normalized]} ∪ seen).

Fixpoint validate_extra_files_loop (seen : gset key) (extra : list ExtraFile)
    : result art_error (list InjectedFile) :=
  match extra with
  | [] => Ok []
  | f :: extra =>
      let? seen := validate_extra_file seen f in
      let? out := validate_extra_files_loop seen extra in
      Ok ({| dest_path := x_dest f; src_path := x_src f; i_mode := Some (x_mode f) |} :: out)
  end.

Definition validate_extra_files (extra : list ExtraFile) : result art_error (list InjectedFile) :=
  validate_extra_files_loop ∅ extra.

(** ** The inputs of a pack *)

Definition handler_artifact_key (label : option string) : string :=
  match label with Some l => "guest_tools-" +:+ l | None => "guest_tools" end.

Definition handler_label_from_artifact_key (k : string) : option string :=
  match strip_prefix "guest_tools-" k with
  | Some label => if decide (label = "") then None else Some label
  | None => None
  end.

Record PackOptions := {
  steward_musl : option string;
  extra : list ExtraFile;
  applets : list string;
  handler_label : option string;
  po_xattrs : XattrPolicy;
}.

Definition applet_roster (o : PackOptions) : list string :=
  if decide (applets o = []) then GUEST_TOOLS_APPLETS else applets o.

(** The handler binary a pack bakes, from the artifacts the pipeline published. *)
Definition tools_path (artifacts : gmap string string) (o : PackOptions)
    : result art_error (option string) :=
  match artifacts !! handler_artifact_key (handler_label o) with
  | Some path => Ok (Some path)
  | None =>
      let published := filter (λ x, x.1 = handler_artifact_key None ∨
                                    is_Some (handler_label_from_artifact_key x.1)) artifacts in
      match handler_label o with
      | None => if decide (published = ∅) then Ok None else Err Artifact
      | Some _ => Err Artifact
      end
  end.

Definition steward_path (artifacts : gmap string string) (o : PackOptions) : result art_error string :=
  match steward_musl o with
  | Some p => Ok p
  | None => ok_or (artifacts !! "steward") Artifact
  end.

(** The pack tail up to the emitter; [ca] is the deployment's certificate where
    the proxy is compiled in. *)
Definition pack_tree `{XA : ErofsXattr} `{LD : LibcDev} (fs_read : string → option string)
    (key_order : tree → list key) (artifacts : gmap string string) (ca : option string)
    (o : PackOptions) (archives : list archive) : result art_error tree :=
  let? extra_files := validate_extra_files (extra o) in
  let? tools := tools_path artifacts o in
  let? steward := steward_path artifacts o in
  let '(injected_files, injected_symlinks) := rootfs_injection_manifest steward ca tools (applet_roster o) in
  merged_node_map fs_read key_order archives extra_files injected_files injected_symlinks
    (bool_decide (steward_musl o = None)) (po_xattrs o).
