(* ===== verification/RootfsProps.v ===== *)
(** * What the rootfs merge guarantees

    Confinement of the keys, agreement of the layer merge with the OCI
    specification of a layer, the authority of the injections, and the
    completion of the tree with its parents. *)

From S2P Require Import Prelude PathLib Rootfs.

Notation dest_key d := (normalize_path (components d)).

(** ** Keys stay inside the tree *)

Definition confined (m : tree) : Prop := ∀ k n, m !! k = Some n → Forall is_normal k.

Lemma removelast_Forall {A} (P : A → Prop) l : Forall P l → Forall P (removelast l).
Proof. intros H. induction H as [|x [|y l] Hx _ IH]; cbn in *; auto. Qed.

Lemma normalize_step_normal out c :
  Forall is_normal out → (∀ s, c = Normal s → is_normal s) → Forall is_normal (normalize_step out c).
Proof.
  intros Ho Hc. destruct c as [| | |s]; cbn; [done|done|by apply removelast_Forall|].
  apply Forall_app. split; [done|]. constructor; [by apply Hc|done].
Qed.

Lemma normalize_normal cs : (∀ s, Normal s ∈ cs → is_normal s) → Forall is_normal (normalize_path cs).
Proof.
  unfold normalize_path. assert (Forall is_normal ([] : key)) as Ho by constructor. revert Ho.
  generalize ([] : key). induction cs as [|c cs IH]; intros out Ho Hc; [done|]. cbn.
  apply IH; [|intros; apply Hc; by constructor]. apply normalize_step_normal; [done|].
  intros s ->. apply Hc. constructor.
Qed.

Lemma dest_key_normal d : Forall is_normal (dest_key d).
Proof. apply normalize_normal. intros s Hs%components_normal. by apply Is_true_true. Qed.

Lemma confined_insert m k n : confined m → Forall is_normal k → confined (<[k := n]> m).
Proof. intros Hm Hk k' n'. rewrite lookup_insert_Some. intros [[<- _]|[_ H]]; [done|by eapply Hm]. Qed.

Lemma confined_filter m (P : key * Node → Prop) `{∀ x, Decision (P x)} : confined m → confined (filter P m).
Proof. intros Hm k n. rewrite map_lookup_filter_Some. intros [Hk _]. by eapply Hm. Qed.

Lemma apply_action_confined p n m : confined m → confined (apply_action (path_action (components p)) n m).
Proof.
  intros Hm. unfold path_action. destruct (strip_prefix _ _); [case_decide; by apply confined_filter|].
  apply confined_insert; [done|apply dest_key_normal].
Qed.

(** ** Parents *)

Lemma prefix_snoc (k q : key) x : k `prefix_of` q ++ [x] ↔ k = q ++ [x] ∨ k `prefix_of` q.
Proof.
  split.
  - intros [t Ht]. destruct t as [|y t _] using rev_ind; [left; by rewrite app_nil_r in Ht|].
    rewrite app_assoc in Ht. apply app_inj_tail in Ht as [-> _]. right. by apply prefix_app_r.
  - intros [->|H]; [done|by apply prefix_app_r].
Qed.

(** [k] is an ancestor of [p] other than the root. *)
Definition ancestor (k p : key) : Prop := k ≠ [] ∧ k ≠ p ∧ k `prefix_of` p.
#[global] Instance ancestor_dec k p : Decision (ancestor k p) := _.

Lemma ancestor_snoc k q x : ancestor k (q ++ [x]) ↔ k ≠ [] ∧ k `prefix_of` q.
Proof.
  unfold ancestor. rewrite prefix_snoc. split; [intros (? & ? & [?|?]); tauto|].
  intros [H1 H2]. split_and!; [done| |by right]. intros ->. apply prefix_length in H2.
  rewrite length_app in H2. cbn in H2. lia.
Qed.

Lemma parent_snoc q x : parent (q ++ [x]) = Some q.
Proof. unfold parent. rewrite removelast_last. by destruct q. Qed.

Lemma ensure_parents_lookup fuel p m k :
  length p ≤ fuel →
  ensure_parents fuel p m !! k =
    match m !! k with
    | Some n => Some n
    | None => if decide (ancestor k p) then Some synthesized_dir else None
    end.
Proof.
  revert p m. induction fuel as [|fuel IH]; intros p m Hl;
    (destruct p as [|x q _] using rev_ind; [|rewrite length_app in Hl; cbn in Hl; try lia]).
  1, 2: rewrite decide_False by (intros (H1 & _ & H2); by apply prefix_nil_inv in H2);
    cbn; by destruct (m !! k).
  cbn [ensure_parents]. rewrite parent_snoc. case_decide as Hq.
  { subst q. rewrite decide_False; [by destruct (m !! k)|]. rewrite ancestor_snoc.
    intros [H1 H2]. by apply prefix_nil_inv in H2. }
  rewrite IH by lia. case_decide as Hm.
  - destruct (m !! k) eqn:Hk; [done|]. apply decide_ext. rewrite ancestor_snoc. unfold ancestor.
    split; [tauto|]. intros [H1 H2]. split_and!; [done| |done]. intros ->.
    rewrite Hk in Hm. by destruct Hm.
  - destruct (decide (k = q)) as [->|Hne].
    + rewrite lookup_insert_eq. apply eq_None_not_Some in Hm. rewrite Hm.
      rewrite decide_True; [done|]. by rewrite ancestor_snoc.
    + rewrite lookup_insert_ne by done. destruct (m !! k); [done|].
      apply decide_ext. rewrite ancestor_snoc. unfold ancestor. tauto.
Qed.

Lemma ensure_all_parents_lookup paths m k :
  ensure_all_parents paths m !! k =
    match m !! k with
    | Some n => Some n
    | None => if decide (Exists (ancestor k) paths) then Some synthesized_dir else None
    end.
Proof.
  unfold ensure_all_parents. revert m. induction paths as [|p paths IH]; intros m; cbn.
  - rewrite decide_False by (by intros ?%Exists_nil). by destruct (m !! k).
  - rewrite IH, ensure_parents_lookup by done. destruct (m !! k); [done|].
    destruct (decide (ancestor k p)) as [H|H].
    + rewrite decide_True; [done|by left].
    + apply decide_ext. rewrite Exists_cons. tauto.
Qed.

Section layers.
Context `{XA : ErofsXattr} `{LD : LibcDev}.

(** ** Layers *)

(** The OCI specification of a layer: its markers apply to what the lower
    layers left, its other members are added on top. *)

Definition skipped (f : tar_entry) : bool := match e_type f with XGlobalHeader => true | _ => false end.

Definition entry_action (f : tar_entry) : option action :=
  match e_path f with
  | Ok path => if skipped f then None else Some (path_action (components path))
  | Err _ => None
  end.

Definition is_marker (f : tar_entry) : bool :=
  match entry_action f with Some (RemoveTree _) | Some (RemoveBelow _) => true | _ => false end.

Definition hides (f : tar_entry) (k : key) : Prop :=
  match entry_action f with
  | Some (RemoveTree d) => d `prefix_of` k
  | Some (RemoveBelow d) => d `prefix_of` k ∧ k ≠ d
  | _ => False
  end.
#[global] Instance hides_dec f k : Decision (hides f k).
Proof. unfold hides. destruct (entry_action f) as [[]|]; apply _. Defined.

Definition apply_markers (layer : list tar_entry) (lower : tree) : tree :=
  filter (λ x, Forall (λ f, ¬ hides f x.1) layer) lower.

Definition oci_layer (policy : XattrPolicy) (lower : tree) (layer : list tar_entry) : result art_error tree :=
  merge_entries policy (apply_markers layer lower) (Ok <$> filter (λ f, is_marker f = false) layer).

Fixpoint oci_image (policy : XattrPolicy) (lower : tree) (layers : list (list tar_entry))
    : result art_error tree :=
  match layers with
  | [] => Ok lower
  | layer :: layers => let? lower := oci_layer policy lower layer in oci_image policy lower layers
  end.

(** The keys a member writes or reads. *)
Definition touches (f : tar_entry) (k : key) : Prop :=
  entry_action f = Some (Insert k) ∨
  (e_type f = Link ∧ ∃ target, e_link_name f = Ok (Some target) ∧ k = dest_key target).

(** The order the code relies on: no marker of the layer covers what an earlier
    member of the same layer touched. *)
Fixpoint markers_first (layer : list tar_entry) : Prop :=
  match layer with
  | [] => True
  | f :: layer =>
      (is_marker f = false → ∀ k g, touches f k → g ∈ layer → ¬ hides g k) ∧ markers_first layer
  end.

Lemma apply_markers_cons f layer m :
  apply_markers (f :: layer) m = apply_markers layer (filter (λ x, ¬ hides f x.1) m).
Proof.
  unfold apply_markers. rewrite map_filter_filter. apply map_filter_ext. intros k n _. cbn.
  rewrite Forall_cons. tauto.
Qed.

Lemma apply_markers_no_marker f layer m :
  is_marker f = false → apply_markers (f :: layer) m = apply_markers layer m.
Proof.
  intros Hf. rewrite apply_markers_cons. f_equal. apply map_filter_id. intros k n _. cbn.
  unfold is_marker in Hf. unfold hides. destruct (entry_action f) as [[]|]; (tauto || discriminate).
Qed.

Lemma apply_markers_insert layer k n m :
  (∀ g, g ∈ layer → ¬ hides g k) → apply_markers layer (<[k := n]> m) = <[k := n]> (apply_markers layer m).
Proof. intros H. apply map_filter_insert_True. cbn. by apply Forall_forall. Qed.

Lemma apply_markers_lookup layer k m :
  (∀ g, g ∈ layer → ¬ hides g k) → apply_markers layer m !! k = m !! k.
Proof.
  intros H. unfold apply_markers. rewrite map_lookup_filter. destruct (m !! k) as [n|]; [|done]. cbn.
  rewrite option_guard_True; [done|]. by apply Forall_forall.
Qed.

Lemma entry_node_markers layer f xa m :
  (∀ k g, touches f k → g ∈ layer → ¬ hides g k) → entry_node (apply_markers layer m) f xa = entry_node m f xa.
Proof.
  intros Ht. unfold entry_node. destruct (e_type f) eqn:Hty; try done.
  destruct (e_link_name f) as [[target|]|] eqn:Hl; try done. cbn.
  rewrite apply_markers_lookup; [done|]. intros g. apply Ht. right. eauto.
Qed.

Lemma merge_entries_oci policy layer m m' :
  markers_first layer → merge_entries policy m (Ok <$> layer) = Ok m' → oci_layer policy m layer = Ok m'.
Proof.
  unfold oci_layer. revert m. induction layer as [|f layer IH]; intros m.
  { intros _ Hm. cbn in *. rewrite <- Hm. unfold apply_markers. f_equal. apply map_filter_id. by constructor. }
  intros [Ht Hl]. rewrite fmap_cons. cbn [merge_entries map_err].
  unfold merge_entry at 1. destruct (e_path f) as [p|] eqn:Hp; [|done]. cbn [map_err].
  destruct (tar_entry_xattrs f policy) as [xa|] eqn:Hx; [|done].
  destruct (entry_node m f xa) as [node|] eqn:Hn; [|done]. intros Hm.
  rewrite filter_cons. destruct node as [node|].
  - assert (entry_action f = Some (path_action (components p))) as Ha.
    { unfold entry_action, skipped. rewrite Hp. by destruct (e_type f) eqn:Hty; unfold entry_node in Hn; rewrite ?Hty in Hn. }
    destruct (path_action (components p)) as [k|d|d] eqn:Hact.
    + assert (is_marker f = false) as Hmk by (unfold is_marker; by rewrite Ha).
      rewrite decide_True, apply_markers_no_marker by done. rewrite fmap_cons. cbn [merge_entries map_err].
      unfold merge_entry at 1. rewrite Hp. cbn [map_err]. rewrite Hx, entry_node_markers, Hn, Hact by auto.
      cbn [apply_action] in *. rewrite <- apply_markers_insert; [by apply IH|]. intros g. apply Ht; [done|by left].
    + rewrite decide_False by (unfold is_marker; by rewrite Ha). rewrite apply_markers_cons.
      apply IH; [done|]. rewrite <- Hm. f_equal. apply map_filter_ext. intros. unfold hides. by rewrite Ha.
    + rewrite decide_False by (unfold is_marker; by rewrite Ha). rewrite apply_markers_cons.
      apply IH; [done|]. rewrite <- Hm. f_equal. apply map_filter_ext. intros k n _. unfold hides. rewrite Ha. cbn.
      destruct (decide (k = d)); tauto.
  - assert (entry_action f = None) as Ha.
    { unfold entry_action, skipped. rewrite Hp. unfold entry_node in Hn.
      destruct (e_type f); try done; repeat (case_match; try done). }
    assert (is_marker f = false) as Hmk by (unfold is_marker; by rewrite Ha).
    rewrite decide_True, apply_markers_no_marker by done. rewrite fmap_cons. cbn [merge_entries map_err].
    unfold merge_entry at 1. rewrite Hp. cbn [map_err]. rewrite Hx, entry_node_markers, Hn by auto.
    by apply IH.
Qed.

Definition archive_of (layer : list tar_entry) : archive := Ok (Ok <$> layer).

End layers.

Section props.
Context `{XA : ErofsXattr} `{LD : LibcDev} (fs_read : string → option string).

(** ** Injection *)

Lemma insert_injected_file_Ok m f m' :
  insert_injected_file fs_read m f = Ok m' →
  ∃ content, fs_read (src_path f) = Some content ∧ m' = <[dest_key (dest_path f) := injected_node f content]> m.
Proof. unfold insert_injected_file. destruct (fs_read (src_path f)) as [c|]; [|done]. intros [= <-]. eauto. Qed.

Lemma insert_extra_files_lookup m l m' k :
  insert_extra_files fs_read m l = Ok m' → (∀ f, f ∈ l → dest_key (dest_path f) ≠ k) → m' !! k = m !! k.
Proof.
  revert m. induction l as [|f l IH]; intros m; cbn; [by intros [= <-]|].
  destruct (insert_injected_file fs_read m f) as [m1|] eqn:E; [|done]. intros H Hk.
  apply insert_injected_file_Ok in E as (c & _ & ->).
  rewrite (IH _ H) by (intros; apply Hk; by constructor).
  apply lookup_insert_ne, Hk. constructor.
Qed.

(** Distinct destinations all arrive. *)
Lemma insert_extra_files_present m l m' f :
  insert_extra_files fs_read m l = Ok m' → NoDup ((λ f, dest_key (dest_path f)) <$> l) → f ∈ l →
  ∃ content, fs_read (src_path f) = Some content ∧ m' !! dest_key (dest_path f) = Some (injected_node f content).
Proof.
  revert m. induction l as [|g l IH]; intros m; cbn; [by intros _ _ ?%elem_of_nil|].
  destruct (insert_injected_file fs_read m g) as [m1|] eqn:E; [|done]. intros H [Hg Hl]%NoDup_cons.
  rewrite elem_of_cons. intros [->|Hf]; [|by eapply IH].
  apply insert_injected_file_Ok in E as (c & Hc & ->). exists c. split; [done|].
  rewrite (insert_extra_files_lookup _ _ _ _ H); [by rewrite lookup_insert_eq|].
  intros f Hf Heq. apply Hg. rewrite <- Heq. apply list_elem_of_fmap. eauto.
Qed.

Lemma inject_files_Ok c m l c' m' :
  inject_files fs_read c m l = Ok (c', m') →
  (∀ f, f ∈ l → ∃ content, fs_read (src_path f) = Some content ∧
     m' !! dest_key (dest_path f) = Some (injected_node f content)) ∧
  (∀ k, (∀ f, f ∈ l → dest_key (dest_path f) ≠ k) → m' !! k = m !! k) ∧
  (∀ f, f ∈ l → c !! dest_key (dest_path f) = None ∧ is_Some (c' !! dest_key (dest_path f))) ∧ c ⊆ c'.
Proof.
  revert c m. induction l as [|f l IH]; intros c m; cbn.
  { intros [= <- <-]. split_and!; try done; by intros ? ?%elem_of_nil. }
  unfold claim_injection_dest. destruct (c !! dest_key (dest_path f)) eqn:Hc; [done|].
  destruct (insert_injected_file fs_read m f) as [m1|] eqn:E; [|done]. intros H.
  apply insert_injected_file_Ok in E as (content & Hr & ->). apply IH in H as (H1 & H2 & H3 & H4).
  assert (∀ g, g ∈ l → dest_key (dest_path g) ≠ dest_key (dest_path f)) as Hne.
  { intros g Hg Heq. destruct (H3 g Hg) as [Hn _]. rewrite Heq, lookup_insert_eq in Hn. done. }
  split_and!.
  - intros g [->|Hg]%elem_of_cons; [|by apply H1]. exists content. split; [done|].
    rewrite H2 by done. apply lookup_insert_eq.
  - intros k Hk. rewrite H2 by (intros; apply Hk; by constructor). apply lookup_insert_ne, Hk. constructor.
  - intros g [->|Hg]%elem_of_cons.
    + split; [done|]. exists KFile. eapply lookup_weaken; [|done]. apply lookup_insert_eq.
    + destruct (H3 g Hg) as [Hn Hs]. rewrite lookup_insert_ne in Hn by (apply not_eq_sym; by apply Hne). done.
  - etrans; [|done]. by apply insert_subseteq.
Qed.

Lemma inject_symlinks_Ok c m l m' :
  inject_symlinks c m l = Ok m' →
  (∀ d t, (d, t) ∈ l → m' !! dest_key d = Some (symlink_node t)) ∧
  (∀ k, (∀ d t, (d, t) ∈ l → dest_key d ≠ k) → m' !! k = m !! k) ∧
  (∀ d t, (d, t) ∈ l → c !! dest_key d = None).
Proof.
  revert c m. induction l as [|[d t] l IH]; intros c m; cbn.
  { intros [= <-]. split_and!; try done; by intros ? ? ?%elem_of_nil. }
  unfold claim_injection_dest. destruct (c !! dest_key d) eqn:Hc; [done|].
  intros H. apply IH in H as (H1 & H2 & H3).
  assert (∀ d' t', (d', t') ∈ l → dest_key d' ≠ dest_key d) as Hne.
  { intros d' t' Hg Heq. specialize (H3 _ _ Hg). rewrite Heq, lookup_insert_eq in H3. done. }
  split_and!.
  - intros d' t' [[= -> ->]|Hg]%elem_of_cons; [|by eapply H1].
    rewrite H2 by done. apply lookup_insert_eq.
  - intros k Hk. rewrite H2 by (intros d' t' Hd; eapply Hk; by constructor).
    apply lookup_insert_ne. eapply Hk. constructor.
  - intros d' t' [[= -> ->]|Hg]%elem_of_cons; [done|].
    specialize (H3 _ _ Hg). rewrite lookup_insert_ne in H3; [done|]. apply not_eq_sym. by eapply Hne.
Qed.

(** ** Extra files *)

Lemma normalize_normals k : normalize_path (Normal <$> k) = k.
Proof.
  unfold normalize_path. rewrite <- (app_nil_l k) at 2. generalize ([] : key) as out.
  induction k as [|c k IH]; intros out; cbn; [by rewrite app_nil_r|]. by rewrite IH, <- app_assoc.
Qed.

Lemma dest_key_string k : k ≠ [] → Forall is_normal k → dest_key (key_string k) = k.
Proof. intros. rewrite components_key by done. apply normalize_normals. Qed.

Lemma applet_key a : is_normal a → dest_key (VMCELL_TOOLS_DIR +:+ "/" +:+ a) = [VMCELL_TOOLS_DIR; a].
Proof.
  intros Ha. change (VMCELL_TOOLS_DIR +:+ "/" +:+ a) with (key_string [VMCELL_TOOLS_DIR; a]).
  apply dest_key_string; [done|]. repeat constructor. done.
Qed.

(** A destination that is not reserved is none of vmcell's. *)
Lemma not_reserved_not_own dest steward ca tools applets files links :
  is_reserved_injection_path dest = false → Forall is_normal applets →
  rootfs_injection_manifest steward ca tools applets = (files, links) →
  (∀ f, f ∈ files → dest_key (dest_path f) ≠ dest_key dest) ∧
  (∀ d t, (d, t) ∈ links → dest_key d ≠ dest_key dest).
Proof.
  intros Hr Ha Hm. unfold is_reserved_injection_path in Hr. case_decide as Hp; [done|].
  cbn [rootfs_injection_manifest] in Hr. apply orb_false_iff in Hr as [Hr _].
  cbn [existsb app dest_path own_file] in Hr. rewrite !orb_false_iff, !bool_decide_eq_false in Hr.
  destruct Hr as (R1 & R2 & R3 & R4 & _). unfold rootfs_injection_manifest in Hm. split.
  - intros f Hf. assert (dest_path f ∈ ["usr/sbin/vmcell-steward"; "usr/local/share/ca-certificates/vmcell-ca.crt";
      "etc/ssl/certs/ca-certificates.crt"; "vmcell-tools/vmcell-guest-tools"]) as Hd.
    { destruct ca, tools; injection Hm as <- _; cbn [app] in Hf;
        repeat (apply elem_of_cons in Hf as [->|Hf]; [by refine (bool_decide_unpack _ _); vm_compute|]);
        by apply elem_of_nil in Hf. }
    rewrite !elem_of_cons, elem_of_nil in Hd. destruct Hd as [->|[->|[->|[->|[]]]]]; assumption.
  - intros d t Hd Heq. destruct tools as [tools|]; simplify_eq; [|by apply elem_of_nil in Hd].
    apply list_elem_of_fmap in Hd as (a & [= -> ->] & Hin). rewrite Forall_forall in Ha.
    rewrite applet_key in Heq by auto. apply Hp. rewrite <- Heq. by exists [a].
Qed.

Definition extra_injected (f : ExtraFile) : InjectedFile :=
  {| dest_path := x_dest f; src_path := x_src f; i_mode := Some (x_mode f) |}.

Lemma validate_extra_file_Ok seen f seen' :
  validate_extra_file seen f = Ok seen' →
  ParentDir ∉ components (x_dest f) ∧ last (dest_key (x_dest f)) = Some (rsplit_first "/" (x_dest f)) ∧
  is_reserved_injection_path (x_dest f) = false ∧ dest_key (x_dest f) ∉ seen ∧
  (x_mode f <= 4095)%N ∧ seen' = {[dest_key (x_dest f)]} ∪ seen.
Proof.
  unfold validate_extra_file. destruct (starts_with "/" (x_dest f)); cbn [negb]; [|done].
  case_decide; [done|]. case_bool_decide as Hlast; cbn [negb]; [|done]. destruct (is_reserved_injection_path (x_dest f)); [done|]. case_decide; [done|].
  destruct (N.eqb_spec (N.ldiff (x_mode f) 4095) 0) as [E|]; cbn [negb]; [|done].
  destruct (65535 <? x_mode f)%N; [done|]. intros [= <-]. split_and!; [done..| |done].
  - change 4095%N with (N.ones 12) in E. rewrite <- (N.lor_ldiff_and (x_mode f) (N.ones 12)), E, N.lor_0_l, N.land_ones.
    pose proof (N.mod_lt (x_mode f) (2 ^ 12)). lia.
Qed.

Lemma validate_extra_files_Ok extra out :
  validate_extra_files extra = Ok out →
  out = extra_injected <$> extra ∧ NoDup ((λ f, dest_key (dest_path f)) <$> out) ∧
  ∀ f, f ∈ extra → is_reserved_injection_path (x_dest f) = false ∧ (x_mode f <= 4095)%N.
Proof.
  unfold validate_extra_files. intros H.
  assert (out = extra_injected <$> extra ∧ NoDup ((λ f, dest_key (dest_path f)) <$> out) ∧
    (∀ f, f ∈ out → dest_key (dest_path f) ∉ (∅ : gset key)) ∧
    ∀ f, f ∈ extra → is_reserved_injection_path (x_dest f) = false ∧ (x_mode f <= 4095)%N) as (? & ? & _ & ?); [|done].
  revert out H. generalize (∅ : gset key) as seen. induction extra as [|f extra IH]; intros seen out; cbn [validate_extra_files_loop].
  { intros [= <-]. split_and!; [done|by apply NoDup_nil|by intros ? ?%elem_of_nil..]. }
  destruct (validate_extra_file seen f) as [seen'|] eqn:E; [|done].
  destruct (validate_extra_files_loop seen' extra) as [out'|] eqn:E'; [|done]. intros [= <-].
  apply validate_extra_file_Ok in E as (_ & _ & Hr & Hs & Hm & ->). apply IH in E' as (-> & Hnd & Hseen & Hall).
  split_and!; [done| | |].
  - rewrite fmap_cons. apply NoDup_cons. split; [|done].
    intros (g & Heq & Hg)%list_elem_of_fmap. apply (Hseen g Hg). rewrite <- Heq. set_solver.
  - intros g [->|Hg]%elem_of_cons; [done|]. specialize (Hseen g Hg). set_solver.
  - intros g [->|Hg]%elem_of_cons; [done|by apply Hall].
Qed.

(** ** The completed tree *)

(** An iteration order visits every key. *)
Definition visits (key_order : tree → list key) : Prop := ∀ m, key_order m ≡ₚ (map_to_list m).*1.

Lemma visits_spec key_order m k : visits key_order → k ∈ key_order m ↔ is_Some (m !! k).
Proof.
  intros Ho. rewrite (Ho m), list_elem_of_fmap. split.
  - intros ([k' n] & -> & Hin%elem_of_map_to_list). by exists n.
  - intros [n Hn]. exists (k, n). split; [done|by apply elem_of_map_to_list].
Qed.

(** The nodes completion adds to [b]. *)
Definition completed (b : tree) (k : key) : option Node :=
  match b !! k with
  | Some n => Some n
  | None => if decide (k = [] ∨ Exists (ancestor k) (map_to_list b).*1) then Some synthesized_dir else None
  end.

Definition carries_libc6 (b : tree) : Prop := ∃ k, is_Some (b !! k) ∧ last k = Some "libc.so.6".

Lemma has_libc6_spec key_order b : visits key_order → has_libc6 (key_order b) = true ↔ carries_libc6 b.
Proof.
  intros Ho. unfold has_libc6, carries_libc6. rewrite existsb_exists. split.
  - intros (k & Hin & Hl%bool_decide_eq_true). exists k. split; [|done].
    apply list_elem_of_In in Hin. by apply (visits_spec key_order) in Hin.
  - intros (k & Hk & Hl). exists k. split; [|by apply bool_decide_eq_true].
    apply list_elem_of_In. by apply visits_spec.
Qed.

Lemma complete_lookup key_order b k :
  visits key_order →
  (let m := ensure_all_parents (key_order b) b in
   if decide (is_Some (m !! [])) then m else <[[] := synthesized_dir]> m) !! k = completed b k.
Proof.
  intros Ho. cbv zeta. unfold completed.
  assert (∀ k, Exists (ancestor k) (key_order b) ↔ Exists (ancestor k) (map_to_list b).*1) as He.
  { intros k'. by rewrite (Ho b). }
  assert (¬ Exists (ancestor []) (key_order b)) as Hroot.
  { rewrite Exists_exists. by intros (p & _ & Hn & _). }
  case_decide as Hr.
  - rewrite ensure_all_parents_lookup. destruct (b !! k) eqn:Hk; [done|]. apply decide_ext. rewrite He.
    split; [tauto|]. intros [->|?]; [|done]. rewrite ensure_all_parents_lookup, Hk, decide_False in Hr by done.
    by destruct Hr.
  - rewrite ensure_all_parents_lookup in Hr. destruct (decide (k = [])) as [->|Hne].
    + rewrite lookup_insert_eq. destruct (b !! []); [by destruct Hr|]. by rewrite decide_True by auto.
    + rewrite lookup_insert_ne, ensure_all_parents_lookup by done. destruct (b !! k); [done|].
      apply decide_ext. rewrite He. tauto.
Qed.

Lemma merged_tree_spec key_order archives extra files links lib policy m :
  visits key_order →
  merged_node_map fs_read key_order archives extra files links lib policy = Ok m ↔
  ∃ b, build_node_map fs_read archives extra files links policy = Ok b ∧
       (lib = true → carries_libc6 b) ∧ ∀ k, m !! k = completed b k.
Proof.
  intros Ho. unfold merged_node_map. destruct (build_node_map _ _ _ _ _ _) as [b|e]; [|split; [done|by intros (? & [=] & _)]].
  pose proof (has_libc6_spec key_order b Ho) as Hc. split.
  - destruct (lib && _) eqn:Hl; [done|]. intros [= <-]. exists b. split_and!; [done| |by intros; apply complete_lookup].
    intros ->. apply Hc. by destruct (has_libc6 (key_order b)).
  - intros (? & [= <-] & Hl & Hm).
    assert (lib && negb (has_libc6 (key_order b)) = false) as ->.
    { destruct lib; [|done]. by rewrite (proj2 Hc) by auto. }
    f_equal. apply map_eq. intros k. rewrite Hm. by apply complete_lookup.
Qed.

(** The merged tree is exactly the built map plus a plain root-owned
    directory at the root and at every missing ancestor of a key, whatever order
    the hash map is iterated in; the merge fails beyond the build only when
    glibc is required and no path is named [libc.so.6]. *)
Theorem merged_tree_exact key_order archives extra files links lib policy m :
  visits key_order →
  merged_node_map fs_read key_order archives extra files links lib policy = Ok m ↔
  ∃ b, build_node_map fs_read archives extra files links policy = Ok b ∧
       (lib = true → carries_libc6 b) ∧ ∀ k, m !! k = completed b k.
Proof. apply merged_tree_spec. Qed.

Lemma completed_closed (b m : tree) :
  confined b → (∀ k, m !! k = completed b k) →
  is_Some (m !! []) ∧ ∀ k n, m !! k = Some n → Forall is_normal k ∧ (k ≠ [] → is_Some (m !! removelast k)).
Proof.
  intros Hb Hm. unfold completed in Hm. split.
  { rewrite Hm. destruct (b !! []); [done|]. by rewrite decide_True by auto. }
  intros k n. destruct k as [|x q _] using rev_ind; [by split|]. rewrite removelast_last, !Hm. intros Hk.
  assert (∃ p, is_Some (b !! p) ∧ q ++ [x] `prefix_of` p) as (p & [n' Hp] & Hpre).
  { destruct (b !! (q ++ [x])) eqn:E; [by exists (q ++ [x])|]. case_decide as Hd; [|done].
    destruct Hd as [Hd|Hd]; [by destruct q|]. apply Exists_exists in Hd as (p & Hin & _ & _ & Hpre).
    apply list_elem_of_fmap in Hin as ([p' n'] & -> & Hin%elem_of_map_to_list). by eauto. }
  assert (Forall is_normal (q ++ [x])) as Hn.
  { destruct Hpre as [t ->]. apply Hb in Hp. by apply Forall_app in Hp as [? _]. }
  split; [done|]. intros _. destruct (b !! q) as [nq|] eqn:Hq; [by eauto|].
  rewrite decide_True; [by eauto|]. destruct (decide (q = [])) as [|Hne]; [by left|right].
  apply Exists_exists. exists p. split; [apply list_elem_of_fmap; exists (p, n'); split; [done|by apply elem_of_map_to_list]|].
  split_and!; [done|congruence|]. etrans; [|exact Hpre]. by apply prefix_app_r.
Qed.

(** ** Building *)

(** What every insertion of the build preserves holds of the built map. *)
Lemma build_node_map_ind (P : tree → Prop) archives extra files links policy b :
  P ∅ →
  (∀ m f xa n p, P m → entry_node m f xa = Ok (Some n) → P (apply_action (path_action (components p)) n m)) →
  (∀ m f content, P m → P (<[dest_key (dest_path f) := injected_node f content]> m)) →
  (∀ m d t, P m → P (<[dest_key d := symlink_node t]> m)) →
  build_node_map fs_read archives extra files links policy = Ok b → P b.
Proof.
  intros P0 Pe Pi Ps. unfold build_node_map.
  assert (∀ l m m', P m → merge_entries policy m l = Ok m' → P m') as Hentries.
  { induction l as [|f l IH]; intros m m' Hm; cbn [merge_entries]; [by intros [= <-]|].
    destruct f as [f|]; [|done]. cbn [map_err]. destruct (merge_entry policy m f) as [m1|] eqn:E; [|done].
    apply IH. unfold merge_entry in E. destruct (e_path f) as [p|]; [|done]. cbn [map_err] in E.
    destruct (tar_entry_xattrs f policy) as [xa|]; [|done].
    destruct (entry_node m f xa) as [[n|]|] eqn:En; [|by injection E as <-|done]. injection E as <-. by eapply Pe. }
  assert (∀ m f m', P m → insert_injected_file fs_read m f = Ok m' → P m') as Hinsert.
  { intros m f m' Hm (c & _ & ->)%insert_injected_file_Ok. by apply Pi. }
  destruct (merge_archives policy ∅ archives) as [m1|] eqn:E1; [|done].
  assert (P m1) as H1.
  { revert E1 P0. generalize (∅ : tree) as m. induction archives as [|a l IH]; intros m; cbn [merge_archives];
      [by intros [= <-]|]. destruct a as [a|]; [|done]. cbn [map_err].
    destruct (merge_entries policy m a) as [m2|] eqn:E; [|done]. intros H H0. eapply IH; [done|]. by eapply Hentries. }
  destruct (insert_extra_files fs_read m1 extra) as [m2|] eqn:E2; [|done].
  assert (P m2) as H2.
  { clear E1. revert m1 H1 E2. induction extra as [|f l IH]; intros m1 H1; cbn [insert_extra_files]; [by intros [= <-]|].
    destruct (insert_injected_file fs_read m1 f) as [m|] eqn:E; [|done]. apply IH. by eapply Hinsert. }
  destruct (inject_files fs_read ∅ m2 files) as [[c m3]|] eqn:E3; [|done].
  assert (P m3) as H3.
  { clear E2. revert m2 H2 E3. generalize (∅ : gmap key InjectionKind) as c0.
    induction files as [|f l IH]; intros c0 m2 H2; cbn [inject_files]; [by intros [= _ <-]|].
    destruct (claim_injection_dest _ _ _) as [c1|]; [|done].
    destruct (insert_injected_file fs_read m2 f) as [m|] eqn:E; [|done]. apply IH. by eapply Hinsert. }
  clear E3. revert c m3 H3. induction links as [|[d t] l IH]; intros c m3 H3; cbn [inject_symlinks]; [by intros [= <-]|].
  destruct (claim_injection_dest _ _ _) as [c1|]; [|done]. apply IH. by apply Ps.
Qed.

Lemma build_node_map_confined archives extra files links policy b :
  build_node_map fs_read archives extra files links policy = Ok b → confined b.
Proof.
  apply build_node_map_ind.
  - intros k n. by rewrite lookup_empty.
  - intros m f xa n p Hm _. by apply apply_action_confined.
  - intros m f c Hm. apply confined_insert; [done|apply dest_key_normal].
  - intros m d t Hm. apply confined_insert; [done|apply dest_key_normal].
Qed.

(** What the tail of the build leaves of injections and extra files. *)
Lemma build_node_map_injects archives extra files links policy b :
  build_node_map fs_read archives extra files links policy = Ok b →
  (∀ f, f ∈ files → ∃ content, fs_read (src_path f) = Some content ∧
     b !! dest_key (dest_path f) = Some (injected_node f content)) ∧
  (∀ d t, (d, t) ∈ links → b !! dest_key d = Some (symlink_node t)) ∧
  (NoDup ((λ f, dest_key (dest_path f)) <$> extra) → ∀ f, f ∈ extra →
     (∀ g, g ∈ files → dest_key (dest_path g) ≠ dest_key (dest_path f)) →
     (∀ d t, (d, t) ∈ links → dest_key d ≠ dest_key (dest_path f)) →
     ∃ content, fs_read (src_path f) = Some content ∧
       b !! dest_key (dest_path f) = Some (injected_node f content)).
Proof.
  unfold build_node_map. destruct (merge_archives policy ∅ archives) as [m1|]; [|done].
  destruct (insert_extra_files fs_read m1 extra) as [m2|] eqn:E2; [|done].
  destruct (inject_files fs_read ∅ m2 files) as [[c m3]|] eqn:E3; [|done].
  apply inject_files_Ok in E3 as (F1 & F2 & F3 & _). intros (L1 & L2 & L3)%inject_symlinks_Ok.
  split_and!; [|done|].
  - intros f Hf. destruct (F1 f Hf) as (content & Hr & Hm). exists content. split; [done|].
    rewrite L2; [done|]. intros d t Hd Heq. specialize (L3 d t Hd). destruct (F3 f Hf) as [_ Hs].
    rewrite <- Heq, L3 in Hs. by destruct Hs.
  - intros Hnd f Hf Hfiles Hlinks.
    destruct (insert_extra_files_present _ _ _ _ E2 Hnd Hf) as (content & Hr & Hm).
    exists content. split; [done|]. by rewrite L2, F2.
Qed.

(** C6: The files and links vmcell bakes into a rootfs (steward, trust store,
    guest tools and applets) are in the packed tree with their content, owner and
    mode whatever the layers carry, and so is every extra file that passed the
    checks, with the mode its caller stated: no layer, whiteout or extra file
    displaces an injection, and no injection displaces an extra file. *)
Theorem injections_authoritative key_order artifacts ca o archives m :
  visits key_order → Forall is_normal (applets o) →
  pack_tree fs_read key_order artifacts ca o archives = Ok m →
  ∃ steward tools files links,
    steward_path artifacts o = Ok steward ∧ tools_path artifacts o = Ok tools ∧
    rootfs_injection_manifest steward ca tools (applet_roster o) = (files, links) ∧
    (∀ f, f ∈ files → ∃ content, fs_read (src_path f) = Some content ∧
       m !! dest_key (dest_path f) = Some (injected_node f content)) ∧
    (∀ d t, (d, t) ∈ links → m !! dest_key d = Some (symlink_node t)) ∧
    (∀ x, x ∈ extra o → ∃ content, fs_read (x_src x) = Some content ∧
       m !! dest_key (x_dest x) = Some (File (N.lor (x_mode x) S_IFREG) content root_meta [])).
Proof.
  intros Ho Ha. unfold pack_tree.
  destruct (validate_extra_files (extra o)) as [xs|] eqn:Ex; [|done].
  destruct (tools_path artifacts o) as [tools|] eqn:Et; [|done].
  destruct (steward_path artifacts o) as [steward|] eqn:Es; [|done].
  destruct (rootfs_injection_manifest steward ca tools (applet_roster o)) as [files links] eqn:Em.
  intros (b & Hb & _ & Hm)%merged_tree_spec; [|done]. exists steward, tools, files, links.
  apply validate_extra_files_Ok in Ex as (-> & Hnd & Hx).
  apply build_node_map_injects in Hb as (B1 & B2 & B3). unfold completed in Hm. split_and!; [done..| | |].
  - intros f Hf. destruct (B1 f Hf) as (content & Hr & Hk). exists content. by rewrite Hm, Hk.
  - intros d t Hd. by rewrite Hm, (B2 d t Hd).
  - intros x Hin. destruct (Hx x Hin) as [Hres _].
    assert (Forall is_normal (applet_roster o)) as Hroster.
    { unfold applet_roster. case_decide; [|done]. refine (bool_decide_unpack _ _). vm_compute. exact I. }
    destruct (not_reserved_not_own _ _ _ _ _ _ _ Hres Hroster Em) as [N1 N2].
    destruct (B3 Hnd (extra_injected x)) as (content & Hr & Hk); [by apply list_elem_of_fmap_2|done|done|].
    exists content. split; [done|]. cbn [extra_injected dest_path] in Hk. by rewrite Hm, Hk.
Qed.

(** C34: Every key of a packed tree consists of plain names (no empty name, [.],
    [..] or separator), so nothing leaves the tree whatever paths the archives
    carry; the root is there, and so is the parent of every other key. *)
Theorem packed_tree_closed key_order artifacts ca o archives m :
  visits key_order → pack_tree fs_read key_order artifacts ca o archives = Ok m →
  is_Some (m !! []) ∧
  ∀ k n, m !! k = Some n → Forall is_normal k ∧ (k ≠ [] → is_Some (m !! removelast k)).
Proof.
  intros Ho. unfold pack_tree.
  destruct (validate_extra_files (extra o)) as [xs|]; [|done].
  destruct (tools_path artifacts o) as [tools|]; [|done].
  destruct (steward_path artifacts o) as [steward|]; [|done].
  destruct (rootfs_injection_manifest steward ca tools (applet_roster o)) as [files links].
  intros (b & Hb & _ & Hm)%merged_tree_spec; [|done]. apply build_node_map_confined in Hb.
  by apply (completed_closed b).
Qed.
End props.

(** ** The libraries' laws hold of their documented encodings *)

Ltac Zify.zify_post_hook ::= Z.to_euclidean_division_equations.

(** The on-disk indices of the EROFS format. *)
#[global] Program Instance erofs_xattr : ErofsXattr := {|
  ns_raw := 0; ns_user := 1; ns_acl_access := 2; ns_acl_default := 3;
  ns_trusted := 4; ns_lustre := 5; ns_security := 6;
  resolve_full_name i s :=
    match i with
    | 1%N => "user." +:+ s
    | 2%N => "system.posix_acl_access" +:+ s
    | 3%N => "system.posix_acl_default" +:+ s
    | 4%N => "trusted." +:+ s
    | 5%N => "lustre." +:+ s
    | 6%N => "security." +:+ s
    | _ => s
    end |}.
Solve All Obligations with done.

(** glibc's encoding: the low 12 bits of the major above the low byte of the
    minor, the rest of the minor from bit 20, the rest of the major from bit 44. *)
#[global] Program Instance glibc_dev : LibcDev := {|
  makedev a b := ((a mod 4096) * 256 + (a / 4096) * 17592186044416 + b mod 256 + (b / 256) * 1048576)%N;
  dev_major d := ((d / 256) mod 4096 + (d / 17592186044416) * 4096)%N;
  dev_minor d := (d mod 256 + ((d / 1048576) mod 16777216) * 256)%N |}.
Next Obligation. cbn. intros a b Ha Hb. change (2 ^ 12)%N with 4096%N in Ha. change (2 ^ 20)%N with 1048576%N in Hb. lia. Qed.
Next Obligation. cbn. intros a b Ha Hb. change (2 ^ 12)%N with 4096%N in Ha. change (2 ^ 20)%N with 1048576%N in Hb. lia. Qed.
Next Obligation. cbn. intros a b Ha Hb. change (2 ^ 12)%N with 4096%N in Ha. change (2 ^ 20)%N with 1048576%N in Hb.
  change (2 ^ 32)%N with 4294967296%N. lia. Qed.
Next Obligation.
  cbn. intros d Hd. change (2 ^ 32)%N with 4294967296%N in Hd.
  rewrite (N.div_small d 17592186044416), (N.mod_small (d / 1048576)), N.mul_0_l, N.add_0_r by lia.
  assert (d = d mod 256 + 256 * ((d / 256) mod 4096) + 1048576 * (d / 1048576))%N as Ed by lia.
  assert (d mod 256 < 256)%N as Ha by lia. assert ((d / 256) mod 4096 < 4096)%N as Hc by lia.
  revert Ed Ha Hc. generalize (d mod 256)%N as a, ((d / 256) mod 4096)%N as c, (d / 1048576)%N as e.
  intros a c e -> Ha Hc. rewrite (N.mod_small c), (N.div_small c) by lia.
  rewrite N.Div0.mod_add, N.div_add, (N.mod_small a), (N.div_small a) by lia. lia.
Qed.

(** ** Examples *)

Definition demo_member (path : string) (ty : EntryType) (data : string) (link : option string) : tar_entry :=
  {| e_path := Ok path; e_uid := Some 0%N; e_gid := Some 0%N; e_mtime := Some 0%N; e_mode := Some 493%N;
     e_type := ty; e_data := Ok data; e_link_name := Ok link; e_major := Ok None; e_minor := Ok None;
     e_pax := Ok None |}.

Definition demo_base : list tar_entry :=
  [demo_member "./" Directory "" None; demo_member "etc/passwd" Regular "root" None;
   demo_member "opt/old" Regular "1" None; demo_member "lib/libc.so.6" Regular "elf" None;
   demo_member "usr/bin/perl" Regular "perl" None; demo_member "usr/bin/perl5" Link "" (Some "usr/bin/perl")].
Definition demo_upper : list tar_entry :=
  [demo_member "opt/.wh..wh..opq" Regular "" None; demo_member "etc/.wh.passwd" Regular "" None;
   demo_member "opt/../srv/new" Regular "2" None].
Definition demo_layers : list (list tar_entry) := [demo_base; demo_upper].

Definition unwrap (r : result art_error tree) : tree := match r with Ok m => m | Err _ => ∅ end.

Lemma unwrap_ok r : is_ok r = true → r = Ok (unwrap r).
Proof. by destruct r. Qed.

Definition demo_order (m : tree) : list key := (map_to_list m).*1.
Definition demo_read (p : string) : option string := Some p.
Definition demo_artifacts : gmap string string := <["steward" := "/build/steward"]> ∅.
Definition demo_options : PackOptions :=
  {| steward_musl := None; extra := [{| x_dest := "/srv/tool"; x_src := "/tmp/tool"; x_mode := 448 |}];
     applets := []; handler_label := None; po_xattrs := Strip |}.
Definition demo_pack : result art_error tree :=
  pack_tree demo_read demo_order demo_artifacts None demo_options (archive_of <$> demo_layers).

Lemma demo_visits : visits demo_order.
Proof. by intros m. Qed.

Lemma markers_first_plain layer : Forall (λ f, is_marker f = false) layer → markers_first layer.
Proof.
  intros H. induction H as [|f layer Hf Hl IH]; [done|]. split; [|done].
  intros _ k g _ Hg. rewrite Forall_forall in Hl. specialize (Hl g Hg). unfold is_marker in Hl. unfold hides.
  destruct (entry_action g) as [[]|]; (tauto || discriminate).
Qed.


Lemma merged_tree_exact_witness :
  ∃ b, build_node_map demo_read (archive_of <$> demo_layers) [] [] [] Strip = Ok b ∧
       (true = true → carries_libc6 b) ∧
       ∀ k, unwrap (merged_node_map demo_read demo_order (archive_of <$> demo_layers) [] [] [] true Strip) !! k
            = completed b k.
Proof.
  apply (merged_tree_exact demo_read demo_order (archive_of <$> demo_layers) [] [] [] true Strip).
  - apply demo_visits.
  - apply unwrap_ok. vm_compute. reflexivity.
Defined.

Lemma injections_authoritative_witness :
  ∃ steward tools files links,
    steward_path demo_artifacts demo_options = Ok steward ∧ tools_path demo_artifacts demo_options = Ok tools ∧
    rootfs_injection_manifest steward None tools (applet_roster demo_options) = (files, links) ∧
    (∀ f, f ∈ files → ∃ content, demo_read (src_path f) = Some content ∧
       unwrap demo_pack !! dest_key (dest_path f) = Some (injected_node f content)) ∧
    (∀ d t, (d, t) ∈ links → unwrap demo_pack !! dest_key d = Some (symlink_node t)) ∧
    (∀ x, x ∈ extra demo_options → ∃ content, demo_read (x_src x) = Some content ∧
       unwrap demo_pack !! dest_key (x_dest x) = Some (File (N.lor (x_mode x) S_IFREG) content root_meta [])).
Proof.
  apply (injections_authoritative demo_read demo_order demo_artifacts None demo_options (archive_of <$> demo_layers)).
  - apply demo_visits.
  - by apply Forall_nil.
  - apply unwrap_ok. vm_compute. reflexivity.
Defined.

Lemma packed_tree_closed_witness :
  is_Some (unwrap demo_pack !! []) ∧
  ∀ k n, unwrap demo_pack !! k = Some n →
    Forall is_normal k ∧ (k ≠ [] → is_Some (unwrap demo_pack !! removelast k)).
Proof.
  apply (packed_tree_closed demo_read demo_order demo_artifacts None demo_options (archive_of <$> demo_layers)).
  - apply demo_visits.
  - apply unwrap_ok. vm_compute. reflexivity.
Defined.

(** A whiteout of [.] or [..] removes the directory it stands in, or the one
    above it, with everything below. *)
Theorem dot_whiteout_removes_parent :
  path_action (components "usr/lib/.wh..") = RemoveTree ["usr"; "lib"] ∧
  path_action (components "usr/lib/.wh...") = RemoveTree ["usr"] ∧
  path_action (components ".wh..") = RemoveTree [].
Proof. split_and!; vm_compute; reflexivity. Qed.

(** The type bits of a member's mode reach the node: a regular member whose mode
    carries them is packed as a symbolic link. *)
Theorem mode_changes_type :
  ∃ f n, e_type f = Regular ∧ entry_node ∅ f [] = Ok (Some n) ∧
    match n with File mode _ _ _ => N.land mode S_IFMT = S_IFLNK | _ => False end.
Proof.
  exists {| e_path := Ok "x"; e_uid := None; e_gid := None; e_mtime := None; e_mode := Some 8612%N;
            e_type := Regular; e_data := Ok ""; e_link_name := Ok None; e_major := Ok None;
            e_minor := Ok None; e_pax := Ok None |}.
  eexists. split; [done|]. split; reflexivity.
Qed.
