(* ===== verification/RootfsPack.v ===== *)
(** * The rootfs emitters

    The format half of [crates/vmcell/src/artifact/tar2erofs.rs]: the flat map
    nested into one root node for the EROFS writer ([nodes_to_erofs]) and
    serialised as a tar archive for the ext4 producer ([nodes_to_tar]).  The
    image writer itself is a library.  A written archive is the sequence of its
    members with the header fields the code sets. *)

From S2P Require Import Prelude PathLib Rootfs RootfsProps.

(** ** EROFS *)

(** [BTreeMap::insert]. *)
Fixpoint bt_insert (x : string) (n : Node) (l : list (string * Node)) : list (string * Node) :=
  match l with
  | [] => [(x, n)]
  | (y, c) :: l' =>
      if decide (x = y) then (x, n) :: l'
      else if str_le x y then (x, n) :: l
      else (y, c) :: bt_insert x n l'
  end.

Definition nest_step (entries : tree) (path : key) : result art_error tree :=
  if decide (path = []) then Ok entries else
  let? node := ok_or (entries !! path) Artifact in
  let entries := delete path entries in
  let? parent_path := ok_or (parent path) Artifact in
  let? file_name := ok_or (last path) Artifact in
  let name := from_utf8_lossy file_name in
  match entries !! parent_path with
  | Some (Dir mode dir_entries meta xattrs) =>
      Ok (<[parent_path := Dir mode (bt_insert name node dir_entries) meta xattrs]> entries)
  | _ => Err Artifact
  end.

Fixpoint nest_loop (entries : tree) (paths : list key) : result art_error tree :=
  match paths with
  | [] => Ok entries
  | path :: paths => let? entries := nest_step entries path in nest_loop entries paths
  end.

(** Deepest first. *)
Definition deeper (a b : key) : Prop := length b ≤ length a.
#[global] Instance deeper_dec : RelDecision deeper.
Proof. intros a b. unfold deeper. apply _. Defined.
#[global] Instance deeper_total : Total deeper.
Proof. intros a b. unfold deeper. lia. Qed.
#[global] Instance deeper_trans : Transitive deeper.
Proof. intros a b c. unfold deeper. lia. Qed.

Definition nest (key_order : tree → list key) (entries : tree) : result art_error Node :=
  let? entries := nest_loop entries (stable_sort deeper (key_order entries)) in
  ok_or (entries !! []) Artifact.

Definition nodes_to_erofs (key_order : tree → list key) (build_image : Node → N → option string)
    (entries : tree) : result art_error string :=
  let? root_node := nest key_order entries in
  ok_or (build_image root_node 12%N) Artifact.

(** ** What a packed tree holds *)

Fixpoint assoc (x : string) (l : list (string * Node)) : option Node :=
  match l with
  | [] => None
  | (y, n) :: l => if decide (x = y) then Some n else assoc x l
  end.

(** The node at a path below [n]. *)
Fixpoint tree_lookup (n : Node) (p : key) : option Node :=
  match p with
  | [] => Some n
  | x :: p =>
      match n with
      | Dir _ es _ _ => match assoc x es with Some c => tree_lookup c p | None => None end
      | _ => None
      end
  end.

(** A node without its children. *)
Definition shell (n : Node) : Node :=
  match n with Dir mode _ meta xattrs => Dir mode [] meta xattrs | n => n end.

Definition is_dir (n : Node) : bool := match n with Dir _ _ _ _ => true | _ => false end.

(** A map as the merge leaves it: directories have no children of their own, and
    names are UTF-8. *)
Definition flat (m : tree) : Prop :=
  ∀ k n, m !! k = Some n → shell n = n ∧ Forall (λ c, is_utf8 c) k.

Lemma assoc_bt_insert x y n l : assoc y (bt_insert x n l) = if decide (y = x) then Some n else assoc y l.
Proof.
  induction l as [|[z c] l IH]; cbn [bt_insert assoc]; [done|].
  destruct (decide (x = z)) as [->|Hne]; cbn [assoc]; [by destruct (decide (y = z))|].
  destruct (str_le x z); cbn [assoc]; [done|]. rewrite IH.
  destruct (decide (y = z)) as [->|]; [|done]. by rewrite decide_False.
Qed.

(** The state of the loop: every node of [m] is below some remaining key, what
    hangs below the remaining keys is of [m], and none of it is remaining. *)
Record nesting (m cur : tree) : Prop := {
  ne_all k n : m !! k = Some n →
    ∃ q r c, k = q ++ r ∧ cur !! q = Some c ∧ shell <$> tree_lookup c r = Some n;
  ne_only q r c n : cur !! q = Some c → tree_lookup c r = Some n → m !! (q ++ r) = Some (shell n);
  ne_disjoint q r c n : cur !! q = Some c → r ≠ [] → tree_lookup c r = Some n → cur !! (q ++ r) = None;
}.

Lemma flat_nesting m : flat m → nesting m m.
Proof.
  intros Hf. assert (∀ c r n, shell c = c → r ≠ [] → tree_lookup c r = Some n → False) as Hno.
  { intros c [|x r] n Hc Hr; [done|]. destruct c; cbn in *; try done. by injection Hc as <-. }
  split.
  - intros k n Hk. exists k, [], n. rewrite app_nil_r. split_and!; [done..|]. cbn. by rewrite (proj1 (Hf k n Hk)).
  - intros q r c n Hq Hr. destruct (Hf q c Hq) as [Hc _]. destruct r as [|x r].
    + injection Hr as <-. by rewrite app_nil_r, Hc.
    + exfalso. by eapply (Hno c (x :: r) n).
  - intros q r c n Hq Hr Hl. destruct (Hf q c Hq) as [Hc _]. exfalso. by eapply (Hno c r n).
Qed.

Lemma tree_lookup_insert mode es meta xa x node r :
  tree_lookup (Dir mode (bt_insert x node es) meta xa) r =
    match r with
    | [] => Some (Dir mode (bt_insert x node es) meta xa)
    | y :: r' => if decide (y = x) then tree_lookup node r' else tree_lookup (Dir mode es meta xa) r
    end.
Proof. destruct r as [|y r]; [done|]. cbn [tree_lookup]. rewrite assoc_bt_insert. by destruct (decide (y = x)). Qed.

(** One step, spelled out: the node at [q ++ [x]] becomes the child [x] of the
    directory at [q]. *)
Lemma nest_step_Ok cur p cur' :
  nest_step cur p = Ok cur' → p ≠ [] →
  ∃ q x node mode es meta xa,
    p = q ++ [x] ∧ cur !! p = Some node ∧ cur !! q = Some (Dir mode es meta xa) ∧
    cur' = <[q := Dir mode (bt_insert (from_utf8_lossy x) node es) meta xa]> (delete p cur).
Proof.
  intros H Hp. unfold nest_step in H. rewrite decide_False in H by done.
  destruct p as [|x q _] using rev_ind; [done|]. rewrite parent_snoc, last_snoc in H.
  destruct (cur !! (q ++ [x])) as [node|] eqn:Hn; [|done]. cbn [ok_or] in H.
  assert (q ++ [x] ≠ q) as Hne by (intros E%(f_equal length); rewrite length_app in E; cbn in E; lia).
  rewrite lookup_delete_ne in H by done. destruct (cur !! q) as [[]|] eqn:Hq; simplify_eq. by eauto 20.
Qed.

Lemma nest_step_nesting m cur p cur' :
  flat m → nesting m cur → nest_step cur p = Ok cur' → nesting m cur'.
Proof.
  intros Hf [Hall Honly Hdis] Hs.
  destruct (decide (p = [])) as [->|Hp]; [unfold nest_step in Hs; rewrite decide_True in Hs by done; by simplify_eq|].
  destruct (nest_step_Ok _ _ _ Hs Hp) as (q0 & x & node & mode & es & meta & xa & -> & Hn & Hq0 & ->). clear Hs Hp.
  assert (from_utf8_lossy x = x) as ->.
  { specialize (Honly _ [] _ _ Hn eq_refl). rewrite app_nil_r in Honly. destruct (Hf _ _ Honly) as [_ Hu].
    apply Forall_app in Hu as [_ [Hu _]%Forall_cons]. apply from_utf8_lossy_valid. by apply Is_true_true. }
  assert (q0 ++ [x] ≠ q0) as Hne by (intros E%(f_equal length); rewrite length_app in E; cbn in E; lia).
  assert (tree_lookup (Dir mode es meta xa) [x] = None) as Hnone.
  { destruct (tree_lookup _ [x]) as [c|] eqn:E; [|done].
    apply (Hdis _ _ _ _ Hq0) in E; [|done]. by rewrite E in Hn. }
  assert (∀ r, tree_lookup (Dir mode es meta xa) (x :: r) = None) as Hnone'.
  { intros r. cbn in *. by destruct (assoc x es). }
  assert (∀ q, q ≠ q0 → q ≠ q0 ++ [x] →
    <[q0 := Dir mode (bt_insert x node es) meta xa]> (delete (q0 ++ [x]) cur) !! q = cur !! q) as Hother.
  { intros q H1 H2. by rewrite lookup_insert_ne, lookup_delete_ne. }
  split.
  - intros k n Hk. destruct (Hall k n Hk) as (q & r & c & -> & Hq & Hr).
    destruct (decide (q = q0 ++ [x])) as [->|H1].
    { simplify_eq. eexists q0, (x :: r), _. rewrite <- app_assoc, lookup_insert_eq. split_and!; [done..|].
      rewrite tree_lookup_insert. by rewrite decide_True. }
    destruct (decide (q = q0)) as [->|H2]; [|exists q, r, c; by rewrite Hother].
    simplify_eq. eexists q0, r, _. rewrite lookup_insert_eq. split_and!; [done..|].
    rewrite tree_lookup_insert. destruct r as [|y r]; [done|]. case_decide as Hy; [|done].
    subst y. by rewrite Hnone' in Hr.
  - intros q r c n Hq Hr. destruct (decide (q = q0)) as [->|H2].
    + rewrite lookup_insert_eq in Hq. injection Hq as <-. rewrite tree_lookup_insert in Hr.
      destruct r as [|y r]; [injection Hr as <-; exact (Honly _ [] _ _ Hq0 eq_refl)|].
      case_decide as Hy; [subst y; specialize (Honly _ _ _ _ Hn Hr); by rewrite <- app_assoc in Honly|by eapply Honly].
    + rewrite lookup_insert_ne in Hq by done. apply lookup_delete_Some in Hq as [_ Hq]. by eapply Honly.
  - intros q r c n Hq Hne' Hr. destruct (decide (q = q0)) as [->|H2].
    + rewrite lookup_insert_eq in Hq. injection Hq as <-. rewrite tree_lookup_insert in Hr.
      destruct r as [|y r]; [done|]. rewrite lookup_insert_ne
        by (intros E%(f_equal length); rewrite length_app in E; cbn in E; lia).
      case_decide as Hy; [subst y; change (x :: r) with ([x] ++ r); rewrite app_assoc|].
      * destruct r as [|z r]; [rewrite app_nil_r; apply lookup_delete_eq|].
        apply lookup_delete_None. right. by eapply Hdis.
      * apply lookup_delete_None. right. by eapply Hdis.
    + rewrite lookup_insert_ne in Hq by done. apply lookup_delete_Some in Hq as [_ Hq].
      specialize (Hdis _ _ _ _ Hq Hne' Hr).
      rewrite lookup_insert_ne by (intros E; by rewrite E, Hdis in Hq0).
      apply lookup_delete_None. by right.
Qed.

Lemma nest_loop_nesting m cur paths cur' :
  flat m → nesting m cur → nest_loop cur paths = Ok cur' → nesting m cur'.
Proof.
  intros Hf. revert cur. induction paths as [|p paths IH]; intros cur Hn; cbn; [by intros [= <-]|].
  destruct (nest_step cur p) as [cur1|] eqn:E; [|done]. apply IH. by eapply nest_step_nesting.
Qed.

Lemma nest_loop_removes cur paths cur' k :
  nest_loop cur paths = Ok cur' → is_Some (cur' !! k) → is_Some (cur !! k) ∧ (k = [] ∨ k ∉ paths).
Proof.
  revert cur. induction paths as [|p paths IH]; intros cur; cbn.
  { intros [= <-] H. split; [done|]. right. apply not_elem_of_nil. }
  destruct (nest_step cur p) as [cur1|] eqn:E; [|done]. intros H Hk. destruct (IH cur1 H Hk) as [H1 H2]. clear IH H Hk.
  destruct (decide (p = [])) as [->|Hp].
  { unfold nest_step in E. rewrite decide_True in E by done. injection E as <-. split; [done|].
    rewrite not_elem_of_cons. destruct (decide (k = [])); [by left|]. destruct H2; [by left|right; done]. }
  destruct (nest_step_Ok _ _ _ E Hp) as (q & x & node & mode & es & meta & xa & -> & Hn & Hq & ->).
  destruct (decide (k = q)) as [->|Hne].
  - rewrite Hq. split; [done|]. destruct H2 as [->|H2]; [by left|right]. apply not_elem_of_cons. split; [|done].
    intros F%(f_equal length). rewrite length_app in F. cbn in F. lia.
  - rewrite lookup_insert_ne in H1 by done. destruct H1 as [c [Hk Hc]%lookup_delete_Some]. split; [done|].
    destruct H2 as [->|H2]; [by left|right]. apply not_elem_of_cons. split; [congruence|done].
Qed.

(** The loop succeeds when every parent is a directory: deepest first, a parent
    is still there when its children are moved into it. *)
Lemma nest_loop_succeeds (m cur : tree) paths :
  (∀ k n, m !! k = Some n → k ≠ [] → ∃ d, m !! removelast k = Some d ∧ is_dir d) →
  NoDup paths → StronglySorted deeper paths → (∀ k, k ∈ paths → is_Some (m !! k)) →
  (∀ k n, m !! k = Some n → k ∈ paths ∨ k = [] → ∃ c, cur !! k = Some c ∧ is_dir c = is_dir n) →
  (∀ k n, m !! k = Some n → k ∈ paths ∨ k = [] ∨ ∀ p, p ∈ paths → length p ≤ length k) →
  ∃ cur', nest_loop cur paths = Ok cur' ∧ (is_Some (m !! []) → is_Some (cur' !! [])).
Proof.
  intros Hpar. revert cur. induction paths as [|p paths IH]; intros cur Hnd Hsort Hin Hcur Hleft.
  { exists cur. split; [done|]. intros [n Hn]. destruct (Hcur _ _ Hn) as (c & Hc & _); eauto. }
  apply NoDup_cons in Hnd as [Hp Hnd]. apply StronglySorted_inv in Hsort as [Hsort Hle].
  rewrite Forall_forall in Hle. cbn [nest_loop].
  assert (∀ k n, m !! k = Some n → k ∈ paths ∨ k = [] ∨ ∀ p, p ∈ paths → length p ≤ length k) as Hleft'.
  { intros k n Hk. destruct (Hleft k n Hk) as [[->|?]%elem_of_cons|[?|H]]; [|by left|by right; left|].
    - right. right. intros p' Hp'. by apply Hle.
    - right. right. intros p' Hp'. apply H. by constructor. }
  destruct (decide (p = [])) as [->|Hne].
  { unfold nest_step at 1. rewrite decide_True by done. apply IH; [done|done| | |done].
    - intros k Hk. apply Hin. by constructor.
    - intros k n Hk [?|?]; eapply Hcur; [done|left; by constructor|done|by right]. }
  destruct (Hin p) as [n Hn]; [constructor|]. destruct (Hpar p n Hn Hne) as (d & Hd & Hdir).
  destruct (Hcur p n Hn) as (c & Hc & _); [left; constructor|].
  destruct p as [|x q _] using rev_ind; [done|]. rewrite removelast_last in Hd.
  assert (q ++ [x] ≠ q) as Hqx by (intros E%(f_equal length); rewrite length_app in E; cbn in E; lia).
  destruct (Hcur q d Hd) as (dq & Hdq & Hdd).
  { destruct (Hleft q d Hd) as [H|[H|H]]; [by left|by right|]. specialize (H (q ++ [x])).
    rewrite length_app in H. cbn in H. assert (length q + 1 ≤ length q) by (apply H; constructor). lia. }
  assert (∃ cur1, nest_step cur (q ++ [x]) = Ok cur1 ∧ ∀ k c', k ≠ q ++ [x] → cur !! k = Some c' →
    ∃ c'', cur1 !! k = Some c'' ∧ is_dir c'' = is_dir c') as (cur1 & Hstep & Hkeep).
  { unfold nest_step. rewrite decide_False by done. rewrite Hc, parent_snoc, last_snoc. cbn [ok_or].
    rewrite lookup_delete_ne, Hdq by done. destruct dq as [|mode es meta xa| | | |]; try by destruct d.
    eexists. split; [done|]. intros k c' Hk Hc'. destruct (decide (k = q)) as [->|].
    - rewrite lookup_insert_eq. simplify_eq. eauto.
    - rewrite lookup_insert_ne, lookup_delete_ne by done. eauto. }
  rewrite Hstep. apply IH; [done|done| | |done].
  - intros k Hk. apply Hin. by constructor.
  - intros k n' Hk Hor. destruct (Hcur k n' Hk) as (c' & Hc' & Hd'); [destruct Hor; [left; by constructor|by right]|].
    destruct (Hkeep k c') as (c'' & H1 & H2); [|done|exists c''; split; [done|congruence]].
    intros ->. destruct Hor as [|E]; [done|by destruct q].
Qed.

Lemma nest_exact key_order m root :
  visits key_order → flat m → nest key_order m = Ok root → ∀ k, shell <$> tree_lookup root k = m !! k.
Proof.
  intros Ho Hf H. unfold nest in H.
  destruct (nest_loop m (stable_sort deeper (key_order m))) as [cur|] eqn:E; [|done].
  destruct (cur !! []) as [r|] eqn:Hr; [|done]. cbn in H. injection H as ->.
  pose proof (nest_loop_nesting _ _ _ _ Hf (flat_nesting m Hf) E) as [Hall Honly _]. intros k.
  destruct (m !! k) as [n|] eqn:Hk.
  - destruct (Hall k n Hk) as (q & r & c & -> & Hq & Hl).
    destruct (nest_loop_removes _ _ _ q E) as [Hm Hor]; [by eauto|].
    assert (q = []) as -> by (destruct Hor as [|Hn]; [done|]; exfalso; apply Hn; rewrite stable_sort_Permutation;
      by apply visits_spec).
    by simplify_eq.
  - destruct (tree_lookup root k) as [n|] eqn:Hl; [|done]. specialize (Honly [] k _ _ Hr Hl).
    cbn in Honly. congruence.
Qed.

Lemma tree_lookup_snoc n q x :
  tree_lookup n (q ++ [x]) = match tree_lookup n q with Some (Dir _ es _ _) => assoc x es | _ => None end.
Proof.
  revert n. induction q as [|y q IH]; intros n; cbn.
  - destruct n; try done. by destruct (assoc x entries).
  - destruct n; try done. by destruct (assoc y entries).
Qed.

(** Every node but the root hangs off a directory. *)
Definition parents_are_dirs (m : tree) : Prop :=
  is_Some (m !! []) ∧ ∀ k n, m !! k = Some n → k ≠ [] → ∃ d, m !! removelast k = Some d ∧ is_dir d.

Lemma nest_ok_iff key_order m :
  visits key_order → flat m → is_ok (nest key_order m) = true ↔ parents_are_dirs m.
Proof.
  intros Ho Hf. split.
  - destruct (nest key_order m) as [root|] eqn:E; [|done]. intros _.
    pose proof (nest_exact _ _ _ Ho Hf E) as Hx. split; [rewrite <- Hx; by eexists|].
    intros k n Hk Hne. destruct k as [|x q _] using rev_ind; [done|]. rewrite removelast_last.
    rewrite <- Hx, tree_lookup_snoc in Hk. rewrite <- Hx.
    destruct (tree_lookup root q) as [[]|]; try done. by eexists.
  - intros [Hroot Hpar]. destruct (nest_loop_succeeds m m (stable_sort deeper (key_order m))) as (cur & Hc & Hr).
    + done.
    + rewrite stable_sort_Permutation, (Ho m). apply NoDup_fst_map_to_list.
    + by apply stable_sort_sorted; apply _.
    + intros k. rewrite stable_sort_Permutation. by apply visits_spec.
    + intros k n Hk _. eauto.
    + intros k n Hk. left. rewrite stable_sort_Permutation. apply visits_spec; eauto.
    + unfold nest. rewrite Hc. destruct (Hr Hroot) as [r ->]. done.
Qed.


(** ** The image does not depend on the order *)

Definition str_lt (a b : string) : Prop := str_le a b ∧ a ≠ b.

Inductive sorted_tree : Node → Prop :=
| sorted_leaf n : is_dir n = false → sorted_tree n
| sorted_dir mode es meta xa :
    StronglySorted str_lt es.*1 → (∀ x c, assoc x es = Some c → sorted_tree c) →
    sorted_tree (Dir mode es meta xa).

Lemma bt_insert_names x n l y : y ∈ (bt_insert x n l).*1 → y = x ∨ y ∈ l.*1.
Proof.
  induction l as [|[z c] l IH]; cbn; [set_solver|].
  destruct (decide (x = z)); [set_solver|]. destruct (str_le x z); [set_solver|]. cbn.
  rewrite !elem_of_cons. intros [->|H]; [auto|]. apply IH in H as [->|]; auto.
Qed.

Lemma dir_insert_sorted x n l : StronglySorted str_lt l.*1 → StronglySorted str_lt (bt_insert x n l).*1.
Proof.
  induction l as [|[z c] l IH]; cbn [bt_insert]; intros Hs; [repeat constructor|].
  apply StronglySorted_inv in Hs as [Hs Hz]. destruct (decide (x = z)) as [->|Hne]; [by constructor|].
  destruct (str_le x z) eqn:Hle; cbn [fmap list_fmap fst].
  - constructor; [by constructor|]. assert (str_lt x z) as Hxz by (split; [by rewrite Hle|done]).
    constructor; [done|]. eapply Forall_impl; [exact Hz|]. intros w [H1 H2]. cbn. split; [by etrans; [apply Hxz|]|].
    intros ->. destruct Hxz as [H3 _]. apply H2. by apply (anti_symm str_le).
  - constructor; [by apply IH|]. apply Forall_forall. intros y Hy. apply bt_insert_names in Hy as [->|Hy].
    + split; [|done]. destruct (str_le_total x z) as [H|]; [by rewrite Hle in H|done].
    + rewrite Forall_forall in Hz. by apply Hz.
Qed.

Lemma assoc_names x l : assoc x l ≠ None → x ∈ l.*1.
Proof.
  induction l as [|[y n] l IH]; cbn; [done|]. destruct (decide (x = y)) as [->|]; [by constructor|].
  intros H. constructor. by apply IH.
Qed.

Lemma sorted_assoc_eq l1 l2 :
  StronglySorted str_lt l1.*1 → StronglySorted str_lt l2.*1 → (∀ x, assoc x l1 = assoc x l2) → l1 = l2.
Proof.
  revert l2. induction l1 as [|[x1 c1] l1 IH]; intros [|[x2 c2] l2] S1 S2 Ha; [done| | |].
  - specialize (Ha x2). cbn in Ha. by rewrite decide_True in Ha.
  - specialize (Ha x1). cbn in Ha. by rewrite decide_True in Ha.
  - cbn in S1, S2. apply StronglySorted_inv in S1 as [S1 F1], S2 as [S2 F2].
    rewrite Forall_forall in F1, F2.
    destruct (decide (x1 = x2)) as [->|Hne].
    + pose proof (Ha x2) as Hx. cbn in Hx. rewrite !decide_True in Hx by done. injection Hx as ->. f_equal.
      apply IH; [done..|]. intros y. destruct (decide (y = x2)) as [->|Hy].
      * assert (∀ l, (∀ z, z ∈ l.*1 → str_lt x2 z) → assoc x2 l = None) as Hnone.
        { intros l Hl. destruct (assoc x2 l) eqn:E; [|done]. exfalso.
          destruct (Hl x2) as [_ H]; [apply assoc_names; by rewrite E|done]. }
        by rewrite !Hnone.
      * specialize (Ha y). cbn in Ha. by rewrite !decide_False in Ha by done.
    + exfalso. pose proof (Ha x1) as H1. pose proof (Ha x2) as H2. cbn in H1, H2.
      rewrite decide_True, decide_False in H1 by done. rewrite decide_False, decide_True in H2 by done.
      assert (str_lt x2 x1) as [L1 _] by (apply F2, assoc_names; by rewrite <- H1).
      assert (str_lt x1 x2) as [L2 _] by (apply F1, assoc_names; by rewrite H2).
      apply Hne. by apply (anti_symm str_le).
Qed.

Lemma sorted_tree_ext n1 n2 :
  sorted_tree n1 → sorted_tree n2 → (∀ k, shell <$> tree_lookup n1 k = shell <$> tree_lookup n2 k) → n1 = n2.
Proof.
  intros H1. revert n2. induction H1 as [n1 Hl|mode es meta xa Hs Hc IH]; intros n2 H2 Hk;
    pose proof (Some_inj _ _ (Hk [])) as Hroot.
  - by destruct n1, n2.
  - destruct H2 as [n2 Hl|mode2 es2 meta2 xa2 Hs2 Hc2]; [by destruct n2|]. injection Hroot as -> -> ->. f_equal. apply sorted_assoc_eq; [done..|]. intros x.
    assert (∀ k, shell <$> (assoc x es ≫= λ c, tree_lookup c k) = shell <$> (assoc x es2 ≫= λ c, tree_lookup c k)) as Hx.
    { intros k. specialize (Hk (x :: k)). cbn in Hk. by destruct (assoc x es), (assoc x es2). }
    destruct (assoc x es) as [c1|] eqn:E1, (assoc x es2) as [c2|] eqn:E2; cbn in Hx; [|by specialize (Hx [])..|done].
    f_equal. eapply IH; [done|by eapply Hc2|done].
Qed.

Definition all_sorted (m : tree) : Prop := ∀ k n, m !! k = Some n → sorted_tree n.

Lemma nest_loop_sorted cur paths cur' : all_sorted cur → nest_loop cur paths = Ok cur' → all_sorted cur'.
Proof.
  revert cur. induction paths as [|p paths IH]; intros cur Hs; cbn; [by intros [= <-]|].
  destruct (nest_step cur p) as [cur1|] eqn:E; [|done]. apply IH. clear IH.
  destruct (decide (p = [])) as [->|Hp]; [unfold nest_step in E; rewrite decide_True in E by done; by simplify_eq|].
  destruct (nest_step_Ok _ _ _ E Hp) as (q & x & node & mode & es & meta & xa & -> & Hn & Hq & ->).
  intros k n. rewrite lookup_insert_Some. intros [[<- <-]|[_ [_ Hk]%lookup_delete_Some]]; [|by eapply Hs].
  pose proof (Hs _ _ Hq) as Hd. inversion Hd as [? H|? ? ? ? Hsort Hc]; [done|]; subst.
  constructor; [by apply dir_insert_sorted|]. intros y c. rewrite assoc_bt_insert.
  case_decide; [intros [= <-]; by eapply Hs|by apply Hc].
Qed.

Lemma nest_order_irrelevant o1 o2 m : visits o1 → visits o2 → flat m → nest o1 m = nest o2 m.
Proof.
  intros H1 H2 Hf. assert (all_sorted m) as Hs.
  { intros k n Hk. destruct (Hf k n Hk) as [Hn _]. destruct n; try by constructor.
    injection Hn as <-. constructor; [constructor|done]. }
  assert (∀ o root, nest o m = Ok root → sorted_tree root) as Hsort.
  { intros o root. unfold nest. destruct (nest_loop m _) as [cur|] eqn:E; [|done].
    apply nest_loop_sorted in E; [|done]. destruct (cur !! []) as [r|] eqn:Er; [|done]. intros [= <-]. by eapply E. }
  pose proof (nest_ok_iff o1 m H1 Hf) as O1. pose proof (nest_ok_iff o2 m H2 Hf) as O2.
  destruct (nest o1 m) as [r1|[]] eqn:E1, (nest o2 m) as [r2|[]] eqn:E2; cbn in O1, O2.
  - f_equal. apply sorted_tree_ext; [by eapply Hsort..|]. intros k.
    by rewrite (nest_exact o1 m r1 H1 Hf E1), (nest_exact o2 m r2 H2 Hf E2).
  - exfalso. destruct O1 as [O1 _], O2 as [_ O2]. discriminate (O2 (O1 eq_refl)).
  - exfalso. destruct O2 as [O2 _], O1 as [_ O1]. discriminate (O1 (O2 eq_refl)).
  - done.
Qed.

(** ** The merge leaves a flat map *)

Definition childless (m : tree) : Prop := ∀ k n, m !! k = Some n → shell n = n.

Section flat.
Context `{XA : ErofsXattr} `{LD : LibcDev} (fs_read : string → option string).

Lemma childless_insert m k n : childless m → shell n = n → childless (<[k := n]> m).
Proof. intros Hm Hn k' n'. rewrite lookup_insert_Some. intros [[_ <-]|[_ H]]; [done|by eapply Hm]. Qed.

Lemma entry_node_childless m f xa n : entry_node m f xa = Ok (Some n) → shell n = n.
Proof. unfold entry_node. intros H. destruct (e_type f); repeat (case_match; try done); by simplify_eq. Qed.

Lemma apply_action_childless a n m : childless m → shell n = n → childless (apply_action a n m).
Proof.
  intros Hm Hn. destruct a; cbn; [by apply childless_insert|..];
    intros k' n' [Hk _]%map_lookup_filter_Some; by eapply Hm.
Qed.

Lemma build_node_map_childless archives extra files links policy b :
  build_node_map fs_read archives extra files links policy = Ok b → childless b.
Proof.
  apply build_node_map_ind.
  - intros k n. by rewrite lookup_empty.
  - intros m f xa n p Hm Hn. apply apply_action_childless; [done|by eapply entry_node_childless].
  - intros m f c Hm. by apply childless_insert.
  - intros m d t Hm. by apply childless_insert.
Qed.

Lemma pack_tree_childless key_order artifacts ca o archives m :
  visits key_order → pack_tree fs_read key_order artifacts ca o archives = Ok m → childless m.
Proof.
  intros Ho. unfold pack_tree.
  destruct (validate_extra_files (extra o)) as [xs|]; [|done].
  destruct (tools_path artifacts o) as [tools|]; [|done].
  destruct (steward_path artifacts o) as [steward|]; [|done].
  destruct (rootfs_injection_manifest steward ca tools (applet_roster o)) as [files links].
  intros (b & Hb%build_node_map_childless & _ & Hm)%merged_tree_spec; [|done].
  intros k n. rewrite Hm. unfold completed. destruct (b !! k) eqn:E; [intros [= <-]; by eapply Hb|].
  case_decide; [|done]. by intros [= <-].
Qed.

Lemma pack_tree_order o1 o2 artifacts ca o archives :
  visits o1 → visits o2 →
  pack_tree fs_read o1 artifacts ca o archives = pack_tree fs_read o2 artifacts ca o archives.
Proof.
  intros H1 H2. unfold pack_tree.
  destruct (validate_extra_files (extra o)) as [xs|]; [|done].
  destruct (tools_path artifacts o) as [tools|]; [|done].
  destruct (steward_path artifacts o) as [steward|]; [|done].
  destruct (rootfs_injection_manifest steward ca tools (applet_roster o)) as [files links].
  pose proof (λ m, merged_tree_spec fs_read o1 archives xs files links (bool_decide (steward_musl o = None)) (po_xattrs o) m H1) as S1.
  pose proof (λ m, merged_tree_spec fs_read o2 archives xs files links (bool_decide (steward_musl o = None)) (po_xattrs o) m H2) as S2.
  destruct (merged_node_map fs_read o1 _ _ _ _ _ _) as [m1|[]].
  - symmetry. by apply S2, S1.
  - destruct (merged_node_map fs_read o2 _ _ _ _ _ _) as [m2|[]]; [|done]. by apply S1, S2.
Qed.
End flat.

(** The pack tail for the default format. *)
Definition pack_erofs `{XA : ErofsXattr} `{LD : LibcDev} (fs_read : string → option string)
    (key_order : tree → list key) (build_image : Node → N → option string)
    (artifacts : gmap string string) (ca : option string) (o : PackOptions) (archives : list archive)
    : result art_error string :=
  let? entries := pack_tree fs_read key_order artifacts ca o archives in
  nodes_to_erofs key_order build_image entries.

Definition utf8_names (m : tree) : Prop := ∀ k n, m !! k = Some n → Forall (λ c, is_utf8 c) k.

(** Packing is reproducible: whatever orders the hash maps are iterated in,
    the same inputs give the same image or both fail, as long as the merged
    names are UTF-8. *)
Theorem pack_erofs_deterministic `{XA : ErofsXattr} `{LD : LibcDev} fs_read o1 o2 build_image artifacts ca o archives :
  visits o1 → visits o2 →
  (∀ m, pack_tree fs_read o1 artifacts ca o archives = Ok m → utf8_names m) →
  pack_erofs fs_read o1 build_image artifacts ca o archives = pack_erofs fs_read o2 build_image artifacts ca o archives.
Proof.
  intros H1 H2 Hu. unfold pack_erofs. rewrite (pack_tree_order fs_read o2 o1) by done.
  destruct (pack_tree fs_read o1 artifacts ca o archives) as [m|] eqn:E; [|done].
  unfold nodes_to_erofs. rewrite (nest_order_irrelevant o1 o2); [done..|].
  intros k n Hk. split; [exact (pack_tree_childless _ _ _ _ _ _ _ H1 E _ _ Hk)|exact (Hu _ eq_refl _ _ Hk)].
Qed.

(** *** Names that are not UTF-8 *)

Definition bad_name (b : N) : string := String (ascii_of_N b) "".
Definition bad_tree : tree :=
  <[[] := synthesized_dir]> (<[[bad_name 254] := File 33188 "first" root_meta []]>
    {[ [bad_name 255] := File 33188 "second" root_meta [] ]}).
Definition forward (m : tree) : list key := (map_to_list m).*1.
Definition backward (m : tree) : list key := reverse (map_to_list m).*1.

(** Names that are not UTF-8 are rendered to the same replacement text: two
    files of one directory become one, which of them survives depends on the
    iteration order of a hash map, and the pack reports success. *)
Theorem lossy_names_collide :
  visits forward ∧ visits backward ∧ size bad_tree = 3 ∧
  ∃ r1 r2, nest forward bad_tree = Ok r1 ∧ nest backward bad_tree = Ok r2 ∧ r1 ≠ r2 ∧
    (∀ r, r ∈ [r1; r2] → match r with Dir _ es _ _ => length es = 1 | _ => False end).
Proof.
  split; [by intros m|]. split; [intros m; apply reverse_Permutation|]. split; [vm_compute; reflexivity|].
  eexists _, _. split; [vm_compute; reflexivity|]. split; [vm_compute; reflexivity|].
  split.
  { intros H. apply (f_equal (λ r, match r with Dir _ ((_, File _ d _ _) :: _) _ _ => d | _ => "" end)) in H.
    discriminate H. }
  intros r. rewrite !elem_of_cons, elem_of_nil. by intros [->|[->|[]]].
Qed.

(** ** Tar *)

(** A member of the archive being written: the records ahead of it and the
    header fields the code sets. *)
Record tar_member := {
  t_pax : list (string * string);
  t_path : string;
  t_type : EntryType;
  t_mode : N; t_uid : N; t_gid : N; t_mtime : N;
  t_link : option string;
  t_dev : option (N * N);
  t_data : string;
}.

(** [PathBuf]'s order: component-wise. *)
Fixpoint key_le (a b : key) : bool :=
  match a, b with
  | [], _ => true
  | _ :: _, [] => false
  | x :: a, y :: b => if decide (x = y) then key_le a b else str_le x y
  end.

Definition path_le (a b : key) : Prop := key_le a b.
#[global] Instance path_le_dec : RelDecision path_le.
Proof. intros a b. unfold path_le. apply _. Defined.

Definition permission_bits (mode : N) : N := N.land mode 4095.

Section tar.
Context `{XA : ErofsXattr} `{LD : LibcDev}.

(** Does the archive writer take the member (a path, a link target or a number
    can be too long for its field)? *)
Context (tar_accepts : tar_member → bool).

Fixpoint xattr_records (xattrs : list XattrSpec) : result art_error (list (string * string)) :=
  match xattrs with
  | [] => Ok []
  | spec :: xattrs =>
      let full := resolve_full_name (name_index spec) (name spec) in
      if negb (is_utf8 full) then Err Artifact else
      let? records := xattr_records xattrs in
      Ok ((PAX_SCHILY_XATTR +:+ full, value spec) :: records)
  end.

Definition node_member (path : key) (node : Node) : result art_error tar_member :=
  let header mode meta xattrs ty link dev data :=
    let? records := xattr_records xattrs in
    Ok {| t_pax := records; t_path := key_string path; t_type := ty; t_mode := permission_bits mode;
          t_uid := uid meta; t_gid := gid meta; t_mtime := mtime meta;
          t_link := link; t_dev := dev; t_data := data |} in
  match node with
  | File mode data meta xattrs => header mode meta xattrs Regular None None data
  | Dir mode _ meta xattrs => header mode meta xattrs Directory None None ""
  | Symlink mode target meta xattrs => header mode meta xattrs SymlinkType (Some target) None ""
  | Device mode rdev meta xattrs =>
      header mode meta xattrs (if (N.land mode S_IFMT =? S_IFBLK)%N then Block else Char) None
        (Some (dev_major rdev, dev_minor rdev)) ""
  | Special mode meta xattrs => header mode meta xattrs Fifo None None ""
  | OtherNode => Err Artifact
  end.

Fixpoint tar_loop (entries : tree) (paths : list key) : result art_error (list tar_member) :=
  match paths with
  | [] => Ok []
  | path :: paths =>
      if decide (path = []) then tar_loop entries paths else
      let? node := ok_or (entries !! path) Artifact in
      let? member := node_member path node in
      if negb (tar_accepts member) then Err Artifact else
      let? members := tar_loop entries paths in
      Ok (member :: members)
  end.

Definition nodes_to_tar (key_order : tree → list key) (entries : tree) : result art_error (list tar_member) :=
  tar_loop entries (stable_sort path_le (key_order entries)).

(** *** Reading the archive back *)

(** The reader's view of a member the writer took. *)
Record reads_as (t : tar_member) (e : tar_entry) : Prop := {
  ra_path : e_path e = Ok (t_path t);
  ra_type : e_type e = t_type t;
  ra_mode : e_mode e = Some (t_mode t);
  ra_uid : e_uid e = Some (t_uid t);
  ra_gid : e_gid e = Some (t_gid t);
  ra_mtime : e_mtime e = Some (t_mtime t);
  ra_link : ∃ l, e_link_name e = Ok l ∧ default "" l = default "" (t_link t);
  ra_major : e_major e = Ok (fst <$> t_dev t);
  ra_minor : e_minor e = Ok (snd <$> t_dev t);
  ra_data : e_data e = Ok (t_data t);
  ra_pax : e_pax e = Ok (if decide (t_pax t = []) then None else Some (Ok <$> t_pax t));
}.

(** An attribute the decoder can have made. *)
Definition canonical_spec (s : XattrSpec) : Prop :=
  is_utf8 (resolve_full_name (name_index s) (name s)) ∧
  xattr_spec (resolve_full_name (name_index s) (name s)) (value s) = s.

Definition canonical_mode (mode ty : N) : Prop := (mode < 2 ^ 16)%N ∧ N.land mode S_IFMT = ty.

Definition canonical_meta (m : NodeMeta) : Prop := (uid m < 2 ^ 32)%N ∧ (gid m < 2 ^ 32)%N ∧ mtime_nsec m = 0%N.

Definition canonical_xattrs (l : list XattrSpec) : Prop := Forall canonical_spec l ∧ StronglySorted spec_le l.

(** A node whose type bits say what it is. *)
Definition canonical_node (n : Node) : Prop :=
  match n with
  | File mode _ meta xa => canonical_mode mode S_IFREG ∧ canonical_meta meta ∧ canonical_xattrs xa
  | Dir mode es meta xa => es = [] ∧ canonical_mode mode S_IFDIR ∧ canonical_meta meta ∧ canonical_xattrs xa
  | Symlink mode target meta xa =>
      is_utf8 target ∧ canonical_mode mode S_IFLNK ∧ canonical_meta meta ∧ canonical_xattrs xa
  | Device mode rdev meta xa =>
      (rdev < 2 ^ 32)%N ∧ (canonical_mode mode S_IFCHR ∨ canonical_mode mode S_IFBLK) ∧
      canonical_meta meta ∧ canonical_xattrs xa
  | Special mode meta xa => canonical_mode mode S_IFIFO ∧ canonical_meta meta ∧ canonical_xattrs xa
  | OtherNode => False
  end.

Definition canonical_key (k : key) : Prop :=
  Forall is_normal k ∧ strip_prefix WHITEOUT_PREFIX (from_utf8_lossy (default "" (last k))) = None.

Definition canonical (m : tree) : Prop := ∀ k n, m !! k = Some n → canonical_key k ∧ canonical_node n.

Lemma canonical_mode_bits mode ty :
  canonical_mode mode ty → N.lor (permission_bits mode mod 2 ^ 16) ty = mode.
Proof.
  intros [Hlt <-]. unfold permission_bits.
  rewrite N.mod_small by (eapply N.le_lt_trans; [apply N.land_le_l|done]).
  rewrite <- N.land_lor_distr_r. change (N.lor 4095 S_IFMT) with (N.ones 16).
  rewrite N.land_ones. by apply N.mod_small.
Qed.

Lemma xattr_records_pax xa records :
  xattr_records xa = Ok records → Forall canonical_spec xa → pax_specs (Ok <$> records) = Ok xa.
Proof.
  revert records. induction xa as [|s xa IH]; intros records; cbn [xattr_records]; [by intros [= <-]|].
  destruct (is_utf8 (resolve_full_name (name_index s) (name s))) eqn:Hu; [|done]. cbn [negb].
  destruct (xattr_records xa) as [rs|]; [|done]. intros [= <-] [[_ Hs] Hxa]%Forall_cons.
  rewrite fmap_cons. cbn [pax_specs map_err]. rewrite ascii_is_utf8, Hu by done. cbn [negb].
  rewrite (proj2 (strip_prefix_spec _ _ _) eq_refl). by rewrite (IH rs), Hs.
Qed.

Lemma member_xattrs t e xa records :
  reads_as t e → xattr_records xa = Ok records → t_pax t = records → canonical_xattrs xa →
  e_type e ≠ XGlobalHeader → e_type e ≠ XHeader → tar_entry_xattrs e Preserve = Ok xa.
Proof.
  intros Hr Hx Hp [Hc Hs] H1 H2. unfold tar_entry_xattrs.
  assert (Hgoal : (let? extensions := map_err (e_pax e) in
    match extensions with
    | None => Ok []
    | Some extensions => let? out := pax_specs extensions in Ok (stable_sort spec_le out)
    end) = Ok xa).
  { rewrite (ra_pax _ _ Hr), Hp. cbn [map_err]. case_decide as Hnil.
    - rewrite Hnil in Hx. destruct xa as [|s xa]; [done|]. cbn [xattr_records] in Hx.
      destruct (negb _); [done|]. by destruct (xattr_records xa).
    - rewrite (xattr_records_pax _ _ Hx Hc). by rewrite stable_sort_id. }
  by destruct (e_type e).
Qed.

Lemma member_meta t e mode meta ty link dev data records path :
  reads_as t e → canonical_meta meta →
  t = {| t_pax := records; t_path := path; t_type := ty; t_mode := permission_bits mode;
         t_uid := uid meta; t_gid := gid meta; t_mtime := mtime meta; t_link := link; t_dev := dev; t_data := data |} →
  entry_meta e = meta ∧ ∀ fty, canonical_mode mode fty → N.lor (entry_mode e) fty = mode.
Proof.
  intros Hr (Hu & Hg & Hn) ->. unfold entry_meta, entry_mode.
  rewrite (ra_uid _ _ Hr), (ra_gid _ _ Hr), (ra_mtime _ _ Hr), (ra_mode _ _ Hr).
  cbn [default from_option t_uid t_gid t_mtime t_mode]. rewrite !N.mod_small by done.
  split; [by destruct meta; cbn in *; subst|intros fty; apply canonical_mode_bits].
Qed.

(** The member of a canonical node decodes to that node over any tree. *)
Lemma member_decodes k n t e acc :
  node_member k n = Ok t → reads_as t e → canonical_node n →
  ∃ xa, tar_entry_xattrs e Preserve = Ok xa ∧ entry_node acc e xa = Ok (Some n).
Proof.
  intros Ht Hr Hc. pose proof (ra_type _ _ Hr) as Hty. pose proof (ra_data _ _ Hr) as Hdata.
  destruct (ra_link _ _ Hr) as (l & Hlink & Hl).
  pose proof (ra_major _ _ Hr) as Hmaj. pose proof (ra_minor _ _ Hr) as Hmin.
  destruct n as [mode data meta xa|mode es meta xa|mode target meta xa|mode rdev meta xa|mode meta xa|];
    cbn [node_member] in Ht; [..|done];
    destruct (xattr_records xa) as [records|] eqn:Hx; try done; injection Ht as Ht;
    exists xa; cbn [canonical_node] in Hc.
  - destruct Hc as (Hm & Hmeta & Hxa). destruct (member_meta _ _ _ _ _ _ _ _ _ _ Hr Hmeta (eq_sym Ht)) as [Em Eb].
    rewrite <- Ht in Hty, Hdata. cbn [t_type t_data] in Hty, Hdata. split.
    + eapply member_xattrs; [done|done|by rewrite <- Ht|done|by rewrite Hty..].
    + unfold entry_node. rewrite Hty, Hdata, Em, (Eb _ Hm). done.
  - destruct Hc as (-> & Hm & Hmeta & Hxa). destruct (member_meta _ _ _ _ _ _ _ _ _ _ Hr Hmeta (eq_sym Ht)) as [Em Eb].
    rewrite <- Ht in Hty. cbn [t_type] in Hty. split.
    + eapply member_xattrs; [done|done|by rewrite <- Ht|done|by rewrite Hty..].
    + unfold entry_node. rewrite Hty, Em, (Eb _ Hm). done.
  - destruct Hc as (Hu & Hm & Hmeta & Hxa). destruct (member_meta _ _ _ _ _ _ _ _ _ _ Hr Hmeta (eq_sym Ht)) as [Em Eb].
    rewrite <- Ht in Hty, Hl. cbn [t_type t_link default from_option] in Hty, Hl. split.
    + eapply member_xattrs; [done|done|by rewrite <- Ht|done|by rewrite Hty..].
    + unfold entry_node. rewrite Hty, Hlink, Em, (Eb _ Hm). cbn [map_err]. rewrite Hl. cbn [from_option].
      by rewrite from_utf8_lossy_valid by (by apply Is_true_true).
  - destruct Hc as (Hdev & Hm & Hmeta & Hxa). destruct (member_meta _ _ _ _ _ _ _ _ _ _ Hr Hmeta (eq_sym Ht)) as [Em Eb].
    rewrite <- Ht in Hty, Hmaj, Hmin. cbn in Hty, Hmaj, Hmin.
    assert (entry_rdev e = Ok rdev) as Hrdev.
    { unfold entry_rdev. rewrite Hmaj, Hmin. cbn. rewrite makedev_dev by done. by rewrite N.mod_small. }
    split.
    + eapply member_xattrs; [done|done|by rewrite <- Ht|done|rewrite Hty; by case_match..].
    + unfold entry_node. rewrite Hty, Hrdev, Em. destruct Hm as [Hm|Hm]; rewrite (proj2 Hm); cbn; by rewrite (Eb _ Hm).
  - destruct Hc as (Hm & Hmeta & Hxa). destruct (member_meta _ _ _ _ _ _ _ _ _ _ Hr Hmeta (eq_sym Ht)) as [Em Eb].
    rewrite <- Ht in Hty. cbn [t_type] in Hty. split.
    + eapply member_xattrs; [done|done|by rewrite <- Ht|done|by rewrite Hty..].
    + unfold entry_node. rewrite Hty, Em, (Eb _ Hm). done.
Qed.

Lemma node_member_path k n t : node_member k n = Ok t → t_path t = key_string k.
Proof. destruct n; cbn; try done; destruct (xattr_records _); try done; by intros [= <-]. Qed.

Lemma path_action_key k : k ≠ [] → canonical_key k → path_action (components (key_string k)) = Insert k.
Proof.
  intros Hne [Hn Hw]. unfold path_action. rewrite components_key by done.
  assert (file_name (Normal <$> k) = last k) as ->.
  { unfold file_name. rewrite fmap_last. by destruct (last k). }
  rewrite Hw. by rewrite normalize_normals.
Qed.

Lemma member_merges k n t e acc :
  node_member k n = Ok t → reads_as t e → canonical_node n → canonical_key k → k ≠ [] →
  merge_entry Preserve acc e = Ok (<[k := n]> acc).
Proof.
  intros Ht Hr Hn Hk Hne. destruct (member_decodes _ _ _ _ acc Ht Hr Hn) as (xa & Hx & He).
  unfold merge_entry. rewrite (ra_path _ _ Hr), (node_member_path _ _ _ Ht). cbn [map_err].
  rewrite Hx, He, path_action_key by done. done.
Qed.

Lemma tar_loop_merges m paths members es acc :
  canonical m → tar_loop m paths = Ok members → Forall2 reads_as members es →
  ∃ m', merge_entries Preserve acc (Ok <$> es) = Ok m' ∧
    ∀ k, m' !! k = if decide (k ∈ paths ∧ k ≠ []) then m !! k else acc !! k.
Proof.
  intros Hc. revert members es acc. induction paths as [|p paths IH]; intros members es acc; cbn [tar_loop].
  { intros [= <-] ->%Forall2_nil_inv_l. exists acc. split; [done|]. intros k.
    rewrite decide_False; [done|]. intros [Hk _]. by apply elem_of_nil in Hk. }
  case_decide as Hp.
  { intros H Hr. destruct (IH _ _ acc H Hr) as (m' & Hm & Hk). exists m'. split; [done|]. intros k. rewrite Hk.
    apply decide_ext. rewrite elem_of_cons. subst. tauto. }
  destruct (m !! p) as [n|] eqn:Hn; [|done]. cbn [ok_or]. destruct (node_member p n) as [t|] eqn:Ht; [|done].
  destruct (negb (tar_accepts t)); [done|]. destruct (tar_loop m paths) as [ts|] eqn:El; [|done].
  intros [= <-] Hr. apply Forall2_cons_inv_l in Hr as (e & es' & Hre & Hr & ->).
  destruct (Hc p n Hn) as [Hkey Hnode]. rewrite fmap_cons. cbn [merge_entries map_err].
  rewrite (member_merges p n t e acc) by done.
  destruct (IH _ _ (<[p := n]> acc) eq_refl Hr) as (m' & Hm & Hk). exists m'. split; [done|]. intros k. rewrite Hk.
  destruct (decide (k = p)) as [->|Hne].
  - rewrite (decide_True (P := p ∈ p :: paths ∧ p ≠ [])) by (split; [constructor|done]).
    rewrite lookup_insert_eq. by case_decide.
  - rewrite lookup_insert_ne by done. apply decide_ext. rewrite elem_of_cons. tauto.
Qed.

End tar.

(** *** The order of the members *)

#[global] Instance path_le_total : Total path_le.
Proof.
  intros a. unfold path_le. induction a as [|x a IH]; intros [|y b]; cbn; auto.
  destruct (decide (x = y)) as [->|Hne]; [rewrite decide_True by done; apply IH|].
  rewrite decide_False by done. apply (total str_le).
Qed.

#[global] Instance path_le_antisymm : AntiSymm (=) path_le.
Proof.
  intros a. unfold path_le. induction a as [|x a IH]; intros [|y b]; cbn; try done.
  destruct (decide (x = y)) as [->|Hne]; [rewrite decide_True by done|rewrite decide_False by done].
  - intros H1 H2. f_equal. by apply IH.
  - intros H1 H2. exfalso. apply Hne. by apply (anti_symm str_le).
Qed.

#[global] Instance path_le_trans : Transitive path_le.
Proof.
  intros a. unfold path_le. induction a as [|x a IH]; intros [|y b] [|z c]; cbn; try done.
  destruct (decide (x = y)) as [->|Hxy], (decide (y = z)) as [->|Hyz].
  - rewrite ?decide_True by done. apply IH.
  - done.
  - rewrite ?decide_False by done. done.
  - intros H1 H2. destruct (decide (x = z)) as [->|].
    + exfalso. apply Hxy. by apply (anti_symm str_le).
    + by trans y.
Qed.

Lemma prefix_path_le a b : a `prefix_of` b → path_le a b.
Proof.
  intros [t ->]. unfold path_le. induction a as [|x a IH]; [done|]. cbn. by rewrite decide_True.
Qed.

Section tar_order.
Context `{XA : ErofsXattr} `{LD : LibcDev} (tar_accepts : tar_member → bool).

Lemma tar_loop_paths m paths members :
  tar_loop tar_accepts m paths = Ok members →
  t_path <$> members = key_string <$> filter (λ k, k ≠ []) paths.
Proof.
  revert members. induction paths as [|p paths IH]; intros members; cbn [tar_loop]; [by intros [= <-]|].
  rewrite filter_cons. case_decide as Hp; [by rewrite decide_False by tauto; apply IH|].
  rewrite decide_True by done. destruct (m !! p) as [n|]; [|done]. cbn [ok_or].
  destruct (node_member p n) as [t|] eqn:Ht; [|done]. destruct (negb _); [done|].
  destruct (tar_loop tar_accepts m paths) as [ts|]; [|done]. intros [= <-].
  rewrite !fmap_cons, (node_member_path _ _ _ Ht), IH by done. done.
Qed.

(** Sorted without duplicates, a strictly smaller element comes earlier. *)
Lemma sorted_index (l : list key) i j a b :
  StronglySorted path_le l → NoDup l → l !! i = Some a → l !! j = Some b → path_le a b → i ≤ j.
Proof.
  intros Hs Hnd Ha Hb Hab. destruct (decide (i ≤ j)) as [|Hij]; [done|exfalso].
  assert (path_le b a) as Hba.
  { clear Hnd Hab. revert i j Ha Hb Hij. induction Hs as [|x l Hs IH Hx]; intros [|i] [|j]; cbn; try lia; try done.
    - intros Ha [= <-] _. rewrite Forall_forall in Hx. apply Hx. by apply list_elem_of_lookup_2 in Ha.
    - intros Ha Hb Hij. eapply IH; [done..|lia]. }
  assert (a = b) as -> by (by apply (anti_symm path_le)). apply Hij.
  by rewrite (NoDup_lookup _ _ _ _ Hnd Ha Hb).
Qed.

(** The archive is a function of the tree alone (not of the iteration order
    of the hash map), it has one member for every entry but the root, and a
    directory's member comes before the members below it, which the ext4
    producer requires. *)
Theorem tar_members_ordered o1 o2 m :
  visits o1 → visits o2 →
  nodes_to_tar tar_accepts o1 m = nodes_to_tar tar_accepts o2 m ∧
  ∀ members, nodes_to_tar tar_accepts o1 m = Ok members →
    ∃ keys, t_path <$> members = key_string <$> keys ∧ NoDup keys ∧
      (∀ k, k ∈ keys ↔ k ≠ [] ∧ is_Some (m !! k)) ∧
      (∀ i j a b, keys !! i = Some a → keys !! j = Some b → a `prefix_of` b → i ≤ j).
Proof.
  intros H1 H2. split.
  - unfold nodes_to_tar. f_equal. apply stable_sort_canonical; try apply _.
    + intros x y _ _. apply (anti_symm path_le).
    + by rewrite (H1 m), (H2 m).
  - intros members Hm. unfold nodes_to_tar in Hm.
    exists (filter (λ k, k ≠ []) (stable_sort path_le (o1 m))).
    assert (NoDup (stable_sort path_le (o1 m))) as Hnd.
    { rewrite stable_sort_Permutation, (H1 m). apply NoDup_fst_map_to_list. }
    assert (StronglySorted path_le (filter (λ k, k ≠ []) (stable_sort path_le (o1 m)))) as Hs.
    { assert (StronglySorted path_le (stable_sort path_le (o1 m))) as Hs by (apply stable_sort_sorted; apply _).
      clear -Hs. induction Hs as [|x l Hs IH Hx]; [constructor|]. rewrite filter_cons. case_decide; [|done].
      constructor; [done|]. apply Forall_forall. intros y [_ Hy]%list_elem_of_filter.
      rewrite Forall_forall in Hx. by apply Hx. }
    split_and!.
    + by eapply tar_loop_paths.
    + by apply NoDup_filter.
    + intros k. rewrite list_elem_of_filter, stable_sort_Permutation. by rewrite visits_spec by done.
    + intros i j a b Ha Hb Hab. eapply sorted_index; [done|by apply NoDup_filter|done..|by apply prefix_path_le].
Qed.
End tar_order.

(** ** Extended attributes *)

Section xattrs.
Context `{XA : ErofsXattr}.

Lemma xattr_name_roundtrip full v :
  resolve_full_name (name_index (xattr_spec full v)) (name (xattr_spec full v)) = full.
Proof.
  unfold xattr_spec. case_decide as H1; [subst; apply resolve_acl_access|].
  case_decide as H2; [subst; apply resolve_acl_default|].
  destruct (split_once "." full) as [[p rest]|] eqn:E; [|apply resolve_raw].
  apply split_once_Some in E as [-> _].
  case_decide; [subst; apply resolve_user|]. case_decide; [subst; apply resolve_trusted|].
  case_decide; [subst; apply resolve_security|]. case_decide; [subst; apply resolve_lustre|]. apply resolve_raw.
Qed.

#[global] Instance spec_le_total : Total spec_le.
Proof.
  intros a b. unfold spec_le. destruct (N.lt_total (name_index a) (name_index b)) as [?|[E|?]]; auto.
  destruct (total str_le (name a) (name b)); auto.
Qed.

#[global] Instance spec_le_trans : Transitive spec_le.
Proof.
  intros a b c [?|[? ?]] [?|[? ?]]; unfold spec_le; try (left; lia). right. split; [lia|]. by trans (name b).
Qed.

Lemma fst_unique {A B} (l : list (A * B)) a b b' : NoDup l.*1 → (a, b) ∈ l → (a, b') ∈ l → b = b'.
Proof.
  intros Hnd [i Hi]%list_elem_of_lookup [j Hj]%list_elem_of_lookup.
  assert (i = j) as ->; [|congruence].
  apply (NoDup_lookup l.*1 i j a Hnd); rewrite list_lookup_fmap; [by rewrite Hi|by rewrite Hj].
Qed.

(** The attributes of the records, where every key is UTF-8. *)
Definition record_spec (r : string * string) : option XattrSpec :=
  (λ full, xattr_spec full r.2) <$> strip_prefix PAX_SCHILY_XATTR r.1.

Lemma pax_specs_records records :
  pax_specs (Ok <$> records) = if forallb (λ r, is_utf8 r.1) records then Ok (omap record_spec records) else Err Artifact.
Proof.
  induction records as [|[k v] records IH]; [done|]. rewrite fmap_cons. cbn [pax_specs map_err forallb fst].
  destruct (is_utf8 k); cbn [negb andb]; [|done]. rewrite IH.
  change (omap record_spec ((k, v) :: records)) with
    (match record_spec (k, v) with Some s => s :: omap record_spec records | None => omap record_spec records end).
  unfold record_spec at 3. cbn [fst snd].
  destruct (strip_prefix PAX_SCHILY_XATTR k), (forallb (λ r, is_utf8 r.1) records); done.
Qed.

(** The attributes a member gets do not depend on the order its records were
    written in, and the name of each is exactly the one the record carried: the
    name-space index and suffix stored in the image stand for it. *)
Theorem xattrs_canonical records records' specs :
  NoDup records.*1 → records ≡ₚ records' → pax_specs (Ok <$> records) = Ok specs →
  ∃ specs', pax_specs (Ok <$> records') = Ok specs' ∧ stable_sort spec_le specs = stable_sort spec_le specs' ∧
    ∀ s, s ∈ specs ↔
      (PAX_SCHILY_XATTR +:+ resolve_full_name (name_index s) (name s), value s) ∈ records ∧
      s = xattr_spec (resolve_full_name (name_index s) (name s)) (value s).
Proof.
  intros Hnd Hp. rewrite !pax_specs_records.
  assert (forallb (λ r, is_utf8 r.1) records = forallb (λ r, is_utf8 r.1) records') as ->.
  { apply eq_true_iff_eq. rewrite !forallb_forall. setoid_rewrite <- list_elem_of_In. by setoid_rewrite Hp. }
  destruct (forallb _ records'); [|done]. intros [= <-]. exists (omap record_spec records').
  assert (∀ s, s ∈ omap record_spec records ↔
      (PAX_SCHILY_XATTR +:+ resolve_full_name (name_index s) (name s), value s) ∈ records ∧
      s = xattr_spec (resolve_full_name (name_index s) (name s)) (value s)) as Hin.
  { intros s. rewrite list_elem_of_omap. split.
    - intros ([k v] & Hr & Hs). unfold record_spec in Hs. cbn [fst snd] in Hs.
      destruct (strip_prefix PAX_SCHILY_XATTR k) as [full|] eqn:E; [|done]. cbn in Hs. injection Hs as <-.
      apply strip_prefix_spec in E as ->. rewrite xattr_name_roundtrip.
      assert (value (xattr_spec full v) = v) as -> by (unfold xattr_spec; by repeat case_match).
      by split.
    - intros [Hr Hs]. eexists. split; [exact Hr|]. unfold record_spec. cbn [fst snd].
      rewrite (proj2 (strip_prefix_spec _ _ _) eq_refl). cbn. by rewrite <- Hs. }
  split_and!; [done| |done]. apply stable_sort_canonical; [apply _..| |by rewrite Hp].
  intros s s' [Hr Hs]%Hin [Hr' Hs']%Hin H1 H2.
  assert (name_index s = name_index s' ∧ name s = name s') as [Ei En].
  { unfold spec_le in H1, H2. destruct H1 as [?|[? ?]], H2 as [?|[? ?]]; try lia.
    split; [done|by apply (anti_symm str_le)]. }
  assert (value s = value s') as Ev.
  { rewrite <- Ei, <- En in Hr'. by eapply fst_unique. }
  rewrite Hs, Hs', Ei, En, Ev. done.
Qed.
End xattrs.

(** ** Artifact names *)

Inductive RootfsFormat := Erofs | Ext4.

Definition RootfsFormat_ALL : list RootfsFormat := [Erofs; Ext4].

Definition format_name (f : RootfsFormat) : string := match f with Erofs => "erofs" | Ext4 => "ext4" end.

Definition rootfs_filename_suffix (label : option string) : string :=
  match label with Some l => "-" +:+ replace_char "." "-" l | None => "" end.

Definition rootfs_artifact_stem (label : option string) : string := "rootfs" +:+ rootfs_filename_suffix label.

Definition rootfs_filename (label : option string) (format : RootfsFormat) : string :=
  rootfs_artifact_stem label +:+ "." +:+ format_name format.

Fixpoint find_format (name : string) (formats : list RootfsFormat) : option (string * RootfsFormat) :=
  match formats with
  | [] => None
  | f :: formats =>
      match strip_suffix ("." +:+ format_name f) name with
      | Some stem => Some (stem, f)
      | None => find_format name formats
      end
  end.

Definition rootfs_artifact_from_filename (name : string) : option (string * RootfsFormat) :=
  match find_format name RootfsFormat_ALL with
  | None => None
  | Some (stem, format) =>
      match strip_prefix "rootfs-" stem with
      | Some label =>
          if decide (label = "") then None
          else if decide ("."%char ∈ bytes label) then None
          else Some (label, format)
      | None => None
      end
  end.

Lemma replace_char_gone a b s : a ≠ b → a ∉ bytes (replace_char a b s).
Proof.
  intros Hab. induction s as [|c s IH]; cbn; [apply not_elem_of_nil|].
  apply not_elem_of_cons. split; [|done]. by case_decide; [|congruence].
Qed.

(** The label and format of a packed rootfs are read back from its file
    name, the label in its sanitised spelling; the default rootfs is no labelled
    one. *)
Theorem rootfs_filename_roundtrip label format :
  rootfs_artifact_from_filename (rootfs_filename label format) =
    match label with
    | Some l => if decide (l = "") then None else Some (replace_char "." "-" l, format)
    | None => None
    end.
Proof.
  assert (find_format (rootfs_filename label format) RootfsFormat_ALL = Some (rootfs_artifact_stem label, format)) as Hf.
  { unfold rootfs_filename, RootfsFormat_ALL. cbn [find_format].
    assert (∀ f, strip_suffix ("." +:+ format_name f) (rootfs_artifact_stem label +:+ "." +:+ format_name f)
      = Some (rootfs_artifact_stem label)) as Hs by (intros f; by apply strip_suffix_spec).
    destruct format; rewrite ?Hs; [done|].
    destruct (strip_suffix ("." +:+ format_name Erofs) _) as [r|] eqn:E; [|by rewrite ?Hs]. exfalso.
    apply strip_suffix_spec in E. apply (f_equal (rsplit_once ".")) in E.
    change ("." +:+ format_name Ext4) with (String "." "ext4") in E.
    change ("." +:+ format_name Erofs) with (String "." "erofs") in E.
    rewrite !rsplit_once_append in E by (cbn; set_solver). done. }
  unfold rootfs_artifact_from_filename. rewrite Hf. destruct label as [l|]; [|done].
  change (rootfs_artifact_stem (Some l)) with ("rootfs-" +:+ replace_char "." "-" l).
  rewrite (proj2 (strip_prefix_spec _ _ _) eq_refl). destruct l as [|c l]; [done|].
  rewrite (decide_False (P := String c l = "")) by done. rewrite decide_False by done.
  rewrite decide_False; [done|]. by apply replace_char_gone.
Qed.

(** ** Examples *)

Lemma utf8_names_check m : bool_decide (map_Forall (λ k _, Forall (λ c, is_utf8 c) k) m) = true → utf8_names m.
Proof. intros H%bool_decide_eq_true k n. apply H. Qed.

Lemma demo_pack_utf8 m : demo_pack = Ok m → utf8_names m.
Proof.
  intros H. assert (m = unwrap demo_pack) as -> by (by rewrite H).
  apply utf8_names_check. vm_compute. reflexivity.
Qed.

Lemma demo_pack_ok : demo_pack = Ok (unwrap demo_pack).
Proof. apply unwrap_ok. vm_compute. reflexivity. Qed.

Lemma demo_flat : flat (unwrap demo_pack).
Proof.
  intros k n Hk. split; [|by eapply demo_pack_utf8; [apply demo_pack_ok|]].
  eapply (pack_tree_childless demo_read demo_order); [apply demo_visits|apply demo_pack_ok|exact Hk].
Qed.


Definition demo_image (root : Node) (_ : N) : option string := Some (if is_dir root then "image" else "").

Lemma pack_erofs_deterministic_witness :
  pack_erofs demo_read forward demo_image demo_artifacts None demo_options (archive_of <$> demo_layers) =
  pack_erofs demo_read backward demo_image demo_artifacts None demo_options (archive_of <$> demo_layers).
Proof.
  apply (pack_erofs_deterministic demo_read forward backward demo_image demo_artifacts None demo_options
    (archive_of <$> demo_layers)).
  - by intros m.
  - intros m. apply reverse_Permutation.
  - apply demo_pack_utf8.
Defined.

Definition member_entry (t : tar_member) : tar_entry :=
  {| e_path := Ok (t_path t); e_uid := Some (t_uid t); e_gid := Some (t_gid t); e_mtime := Some (t_mtime t);
     e_mode := Some (t_mode t); e_type := t_type t; e_data := Ok (t_data t); e_link_name := Ok (t_link t);
     e_major := Ok (fst <$> t_dev t); e_minor := Ok (snd <$> t_dev t);
     e_pax := Ok (if decide (t_pax t = []) then None else Some (Ok <$> t_pax t)) |}.

Lemma member_entry_reads ts : Forall2 reads_as ts (member_entry <$> ts).
Proof. induction ts as [|t ts IH]; [constructor|]. constructor; [|done]. split; try done. cbn. eauto. Qed.

Definition capability : XattrSpec := {| name_index := ns_security; name := "capability"; value := "cap" |}.
Definition rt_tree : tree :=
  <[[] := synthesized_dir]> (<[["dev"] := synthesized_dir]>
  (<[["dev"; "null"] := Device 8630 (makedev 1 3) root_meta []]>
  (<[["ping"] := File 33261 "elf" root_meta [capability]]>
  (<[["bin"] := Symlink 41471 "usr/bin" root_meta []]> ∅)))).

Definition rt_members : list tar_member :=
  match nodes_to_tar (λ _, true) forward rt_tree with Ok ts => ts | Err _ => [] end.

Lemma rt_canonical : canonical rt_tree.
Proof.
  assert (canonical_meta root_meta) as Hm by (by split_and!).
  assert (canonical_xattrs []) as Hx by (split; constructor).
  assert (canonical_xattrs [capability]) as Hcap.
  { split; [|repeat constructor]. apply Forall_cons. split; [|by apply Forall_nil]. by split; vm_compute. }
  intros k n. unfold rt_tree. rewrite !lookup_insert_Some, lookup_empty.
  intros [[<- <-]|[_ [[<- <-]|[_ [[<- <-]|[_ [[<- <-]|[_ [[<- <-]|[_ [=]]]]]]]]]]];
    (split; [split; [refine (bool_decide_unpack _ _); vm_compute; exact I|vm_compute; reflexivity]|]);
    cbn [canonical_node synthesized_dir]; unfold canonical_mode; split_and!; try done; try (left; by split).
Qed.


Lemma tar_members_ordered_witness :
  nodes_to_tar (λ _, true) forward rt_tree = nodes_to_tar (λ _, true) backward rt_tree ∧
  ∀ members, nodes_to_tar (λ _, true) forward rt_tree = Ok members →
    ∃ keys, t_path <$> members = key_string <$> keys ∧ NoDup keys ∧
      (∀ k, k ∈ keys ↔ k ≠ [] ∧ is_Some (rt_tree !! k)) ∧
      (∀ i j a b, keys !! i = Some a → keys !! j = Some b → a `prefix_of` b → i ≤ j).
Proof.
  apply (tar_members_ordered (λ _, true) forward backward rt_tree).
  - by intros m.
  - intros m. apply reverse_Permutation.
Defined.

Definition rt_records : list (string * string) :=
  [("SCHILY.xattr.user.note", "x"); ("mtime", "1"); ("SCHILY.xattr.security.capability", "cap")].
Definition rt_specs : list XattrSpec :=
  match pax_specs (Ok <$> rt_records) with Ok l => l | Err _ => [] end.

Lemma xattrs_canonical_witness :
  ∃ specs', pax_specs (Ok <$> reverse rt_records) = Ok specs' ∧
    stable_sort spec_le rt_specs = stable_sort spec_le specs' ∧
    ∀ s, s ∈ rt_specs ↔
      (PAX_SCHILY_XATTR +:+ resolve_full_name (name_index s) (name s), value s) ∈ rt_records ∧
      s = xattr_spec (resolve_full_name (name_index s) (name s)) (value s).
Proof.
  apply (xattrs_canonical rt_records (reverse rt_records) rt_specs).
  - refine (bool_decide_unpack _ _). vm_compute. exact I.
  - symmetry. apply reverse_Permutation.
  - vm_compute. reflexivity.
Defined.
