(* ===== verification/Features.v ===== *)
(** * The feature set of a cell

    Models [crates/vmcell/src/feature.rs] with the code around it that decides
    what a cell can do: the feature vocabulary, the manifest that travels beside
    an artifact, the intersection of what the backend, the host, the artifacts
    and the configuration allow, [resolve_cell_features] and
    [clone_ineligible_feature] of [orchestrator.rs], and the refusals composed by
    [Error::from_removal].

    A [BTreeMap<Feature, _>] is a finite map; the derived order of [Feature] is
    the order of its declaration, so iterating the map visits [ALL].  Reading a
    file is a parameter that answers the contents, [NotFound] or another error. *)

From S2P Require Import Prelude PathLib NetAddr Tap Cgroup Segment Cmdline.

(** ** The vocabulary *)

Inductive Feature :=
  | SnapshotRestore
  | LazyRestore
  | VirtioFsShares
  | UnprivilegedVhostUserNet
  | NestedVirt
  | VirtioConsole
  | RestoreRotatesHostPaths
  | DiskIoThrottle
  | UsbHostPassthrough
  | ControlPlane
  | XattrPreserved
  | ProcConfigGz.

#[export] Instance Feature_eq_dec : EqDecision Feature.
Proof. solve_decision. Defined.

Definition ALL : list Feature :=
  [SnapshotRestore; LazyRestore; VirtioFsShares; UnprivilegedVhostUserNet; NestedVirt; VirtioConsole;
   RestoreRotatesHostPaths; DiskIoThrottle; UsbHostPassthrough; ControlPlane; XattrPreserved; ProcConfigGz].

Definition feature_rank (f : Feature) : nat :=
  match f with
  | SnapshotRestore => 0 | LazyRestore => 1 | VirtioFsShares => 2 | UnprivilegedVhostUserNet => 3
  | NestedVirt => 4 | VirtioConsole => 5 | RestoreRotatesHostPaths => 6 | DiskIoThrottle => 7
  | UsbHostPassthrough => 8 | ControlPlane => 9 | XattrPreserved => 10 | ProcConfigGz => 11
  end.

#[export] Instance Feature_countable : Countable Feature.
Proof. refine (inj_countable feature_rank (λ n, ALL !! n) _). by intros []. Defined.

Definition name (f : Feature) : string :=
  match f with
  | SnapshotRestore => "snapshot_restore"
  | LazyRestore => "lazy_restore"
  | VirtioFsShares => "virtio_fs_shares"
  | UnprivilegedVhostUserNet => "unprivileged_vhost_user_net"
  | NestedVirt => "nested_virt"
  | VirtioConsole => "virtio_console"
  | RestoreRotatesHostPaths => "restore_rotates_host_paths"
  | DiskIoThrottle => "disk_io_throttle"
  | UsbHostPassthrough => "usb_host_passthrough"
  | ControlPlane => "control_plane"
  | XattrPreserved => "xattr_preserved"
  | ProcConfigGz => "proc_config_gz"
  end.

Definition is_backend_capability (f : Feature) : bool :=
  match f with ControlPlane | XattrPreserved | ProcConfigGz => false | _ => true end.

(** An unknown token is an error, here [None]. *)
Definition parse (token : string) : option Feature :=
  List.find (λ f, bool_decide (name f = token)) ALL.

Inductive Source :=
  | Backend (n : string)
  | Kernel (l : string)
  | Rootfs (l : string)
  | Handler (l : string)
  | Host
  | Config.

#[export] Instance Source_eq_dec : EqDecision Source.
Proof. solve_decision. Defined.

Definition axis_rank (s : Source) : nat :=
  match s with
  | Kernel _ => 0 | Rootfs _ => 1 | Handler _ => 2 | Backend _ => 3 | Host => 4 | Config => 5
  end.

Definition display_source (s : Source) : string :=
  match s with
  | Backend n => "backend " +:+ quote +:+ n +:+ quote
  | Kernel l => "kernel " +:+ quote +:+ l +:+ quote
  | Rootfs l => "rootfs " +:+ quote +:+ l +:+ quote
  | Handler l => "handler " +:+ quote +:+ l +:+ quote
  | Host => "host"
  | Config => "config"
  end.

Record Removal := {
  feature : Feature;
  by_ : Source;
  reason : string;
}.

#[export] Instance Removal_eq_dec : EqDecision Removal.
Proof. solve_decision. Defined.

(** [Error::Unsupported]. *)
Record Unsupported := { u_vmm : string; u_feature : string }.

Definition unsupported (vmm : string) (f : Feature) : Unsupported :=
  {| u_vmm := vmm; u_feature := name f |}.

Definition from_removal (vmm : string) (r : Removal) : Unsupported :=
  {| u_vmm := if decide (by_ r = Backend vmm) then vmm
              else vmm +:+ " (" +:+ display_source (by_ r) +:+ " " +:+ reason r +:+ ")";
     u_feature := name (feature r) |}.

(** ** What an artifact declares *)

Record FeatureDeclaration := {
  source : option Source;
  stances : gmap Feature bool;
}.

Definition baseline (s : Source) : FeatureDeclaration := {| source := Some s; stances := ∅ |}.

(** [Path::file_stem] of a file name, then [Path::with_extension]. *)
Definition file_stem (n : string) : string :=
  if decide (n = "..") then n else
  match rsplit_once "." n with
  | Some (before, _) => if decide (before = "") then n else before
  | None => n
  end.

Definition with_extension (p : list Component) (ext : string) : list Component :=
  match file_name p with
  | Some n => removelast p ++ [Normal (file_stem n +:+ "." +:+ ext)]
  | None => p
  end.

Definition feature_manifest_path (artifact : list Component) : list Component :=
  with_extension artifact "features".

Inductive manifest_error := MNoEquals | MEmptyName | MUnknownName | MStance | MDuplicate.

(** The refusals carry the line's number, as every message does. *)
Fixpoint parse_lines (idx : N) (ls : list string) (st : gmap Feature bool)
    : result (N * manifest_error) (gmap Feature bool) :=
  match ls with
  | [] => Ok st
  | raw :: ls =>
      let line := str_trim (default "" (head (str_split "#" raw))) in
      if decide (line = "") then parse_lines (idx + 1) ls st else
      match split_once "=" line with
      | None => Err ((idx + 1)%N, MNoEquals)
      | Some (key, value) =>
          let key := str_trim key in
          if decide (key = "") then Err ((idx + 1)%N, MEmptyName) else
          match parse key with
          | None => Err ((idx + 1)%N, MUnknownName)
          | Some f =>
              let value := str_trim value in
              match (if decide (value = "true") then Some true
                     else if decide (value = "false") then Some false else None) with
              | None => Err ((idx + 1)%N, MStance)
              | Some stance =>
                  match st !! f with
                  | Some _ => Err ((idx + 1)%N, MDuplicate)
                  | None => parse_lines (idx + 1) ls (<[f := stance]> st)
                  end
              end
          end
      end
  end.

Definition parse_manifest (body : string) (s : Source)
    : result (N * manifest_error) FeatureDeclaration :=
  let? st := parse_lines 0 (str_lines body) ∅ in
  Ok {| source := Some s; stances := st |}.

(** Iterating a [BTreeMap<Feature, bool>]. *)
Definition stance_list (st : gmap Feature bool) : list (Feature * bool) :=
  omap (λ f, pair f <$> st !! f) ALL.

Definition manifest_header : list string :=
  ["# vmcell feature manifest (design §7.4). Emitted from the resolved registry entry;";
   "# the entry is the one authority and this is its travel form."].

Definition stance_line (e : Feature * bool) : string :=
  name e.1 +:+ " = " +:+ (if e.2 then "true" else "false").

Definition render_manifest (d : FeatureDeclaration) : string :=
  render_lines (manifest_header ++ (stance_line <$> stance_list (stances d))).

Inductive read_answer := RdOk (body : string) | RdNotFound | RdErr.

Inductive feature_error := FMalformed (line : N) (e : manifest_error) | FUnreadable | FNotRemoved.

Definition load_beside (read : list Component → read_answer) (artifact : list Component) (s : Source)
    : result feature_error FeatureDeclaration :=
  match read (feature_manifest_path artifact) with
  | RdOk body =>
      match parse_manifest body s with
      | Ok d => Ok d
      | Err (line, e) => Err (FMalformed line e)
      end
  | RdNotFound => Ok (baseline s)
  | RdErr => Err FUnreadable
  end.

(** The files of the artifact directory; [unremovable] are the ones whose
    removal fails. *)
Definition clear_feature_declaration (unremovable : list Component → bool) (artifact : list Component)
    (fs : list (list Component * string)) : result feature_error unit * list (list Component * string) :=
  let sidecar := feature_manifest_path artifact in
  if decide (Exists (λ e, e.1 = sidecar) fs) then
    if unremovable sidecar then (Err FNotRemoved, fs)
    else (Ok tt, filter (λ e, e.1 ≠ sidecar) fs)
  else (Ok tt, fs).

(** ** The intersection *)

Record VmmCapabilities := {
  snapshot_restore : bool;
  lazy_restore : bool;
  virtio_fs_shares : bool;
  unprivileged_vhost_user_net : bool;
  nested_virt : bool;
  virtio_console : bool;
  restore_rotates_host_paths : bool;
  disk_io_throttle : bool;
  usb_host_passthrough : bool;
}.

Definition backend_supports (caps : VmmCapabilities) (f : Feature) : bool :=
  match f with
  | SnapshotRestore => snapshot_restore caps
  | LazyRestore => lazy_restore caps
  | VirtioFsShares => virtio_fs_shares caps
  | UnprivilegedVhostUserNet => unprivileged_vhost_user_net caps
  | NestedVirt => nested_virt caps
  | VirtioConsole => virtio_console caps
  | RestoreRotatesHostPaths => restore_rotates_host_paths caps
  | DiskIoThrottle => disk_io_throttle caps
  | UsbHostPassthrough => usb_host_passthrough caps
  | ControlPlane | XattrPreserved | ProcConfigGz => true
  end.

Record HostDeclaration := { host_nested_virt : bool }.

Definition host_removals (h : HostDeclaration) : list (Feature * string) :=
  if host_nested_virt h then [] else [(NestedVirt, "does not have nested virtualization enabled")].

Notation FeatureSet := (gmap Feature (list Removal)).

Definition remove (r : Removal) (set : FeatureSet) : FeatureSet :=
  partial_alter (λ o, Some (default [] o ++ [r])) (feature r) set.

Definition remove_all (rs : list Removal) (set : FeatureSet) : FeatureSet :=
  foldl (λ set r, remove r set) set rs.

(** The removals of the three axes, in the order the loops make them. *)
Definition backend_axis (backend : string) (caps : VmmCapabilities) : list Removal :=
  (λ f, {| feature := f; by_ := Backend backend; reason := "does not support it" |}) <$>
  filter (λ f, is_backend_capability f && negb (backend_supports caps f)) ALL.

Definition host_axis (host : option HostDeclaration) : list Removal :=
  match host with
  | Some h => (λ '(f, why), {| feature := f; by_ := Host; reason := why |}) <$> host_removals h
  | None => []
  end.

Definition artifact_axis (d : FeatureDeclaration) : list Removal :=
  match source d with
  | None => []
  | Some s =>
      (λ e, {| feature := e.1; by_ := s; reason := "declares it absent" |}) <$>
      filter (λ e, e.2 = false) (stance_list (stances d))
  end.

Definition intersect (backend : string) (caps : VmmCapabilities) (host : option HostDeclaration)
    (artifacts : list FeatureDeclaration) : FeatureSet :=
  let set := remove_all (backend_axis backend caps) ∅ in
  let set := remove_all (host_axis host) set in
  foldl (λ set d, remove_all (artifact_axis d) set) set artifacts.

Definition remove_by_config (f : Feature) (why : string) (set : FeatureSet) : FeatureSet :=
  remove {| feature := f; by_ := Config; reason := why |} set.

Definition has (set : FeatureSet) (f : Feature) : bool :=
  match set !! f with Some _ => false | None => true end.

(** [min_by_key]: the first of the least. *)
Fixpoint min_by_rank (r : Removal) (rs : list Removal) : Removal :=
  match rs with
  | [] => r
  | r' :: rs => min_by_rank (if axis_rank (by_ r') <? axis_rank (by_ r) then r' else r) rs
  end.

Definition why_absent (set : FeatureSet) (f : Feature) : option Removal :=
  match set !! f with
  | Some (r :: rs) => Some (min_by_rank r rs)
  | _ => None
  end.

Definition removals (set : FeatureSet) (f : Feature) : list Removal := default [] (set !! f).

Fixpoint require_all (set : FeatureSet) (backend : string) (required : list Feature)
    : result Unsupported unit :=
  match required with
  | [] => Ok tt
  | f :: required =>
      match why_absent set f with
      | Some r => Err (from_removal backend r)
      | None => require_all set backend required
      end
  end.

(** ** The cell *)

(** Of [ProxyConfig], the domains; the test doubles are code. *)
Record ProxyConfig := { blocked_domains : list string }.

Inductive Egress := Filtered (p : ProxyConfig) | Blocked | Open.

Inductive NetConfig :=
  | Privileged (e : Egress)
  | Unprivileged (e : Egress) (host_services_port : option N)
  | OnSegment (seg : NetSegment)
  | NoNet.

Inductive RootfsSource := Erofs (image : string) | Block (image : string) (overlay : option string).

Definition effective_image (r : RootfsSource) : string :=
  match r with Erofs image => image | Block image overlay => default image overlay end.

(** The fields of [VmConfig] that starting and restoring a VM read. *)
Record CellConfig := {
  kernel_path : string;
  rootfs : RootfsSource;
  net : NetConfig;
  data_shares : list Share;
  placement : StewardPlacement;
  usb_host_devices : list string;
  required_features : list Feature;
  fixed_vmid : option N;
  resource_prefix : string;
  limits : ResourceLimits;
  shutdown_grace : N;    (** milliseconds *)
}.

Definition resync_reachable (p : StewardPlacement) : bool :=
  match p with Pid1 => true | _ => false end.

Definition artifact_label (default_label : string) (p : list Component) : string :=
  match file_name p with Some n => from_utf8_lossy n | None => default_label end.

Definition CONTROL_PLANE_REMOVED : string :=
  "declares StewardPlacement::None, so no steward is expected".

Definition resolve_cell_features (read : list Component → read_answer) (vmm_id : string)
    (caps : VmmCapabilities) (probed : HostDeclaration) (cfg : CellConfig)
    : result feature_error FeatureSet :=
  let kernel := components (kernel_path cfg) in
  let? k := load_beside read kernel (Kernel (artifact_label "kernel" kernel)) in
  let image := components (effective_image (rootfs cfg)) in
  let? r := load_beside read image (Rootfs (artifact_label "rootfs" image)) in
  let set := intersect vmm_id caps (Some probed) [k; r] in
  Ok (match steward_port (placement cfg) with
      | None => remove_by_config ControlPlane CONTROL_PLANE_REMOVED set
      | Some _ => set
      end).

(** ** Eligibility for snapshots *)

Definition ineligible (why : string) : Removal :=
  {| feature := SnapshotRestore; by_ := Config; reason := why |}.

Definition INELIGIBLE_UNPRIVILEGED_NET : Removal :=
  ineligible "uses unprivileged (vhost-user-net) networking, which is not migratable".
Definition INELIGIBLE_SEGMENT : Removal :=
  ineligible "joins a vm-to-vm segment (§6.5), whose restore-time slot/addressing semantics are unspecified".
Definition INELIGIBLE_VIRTIOFS_SHARE : Removal :=
  ineligible "attaches a virtio-fs data share, which virtiofsd serves as a vhost-user device".
Definition INELIGIBLE_PLACEMENT : Removal :=
  ineligible "declares a steward placement whose post-restore resync is not reachable (only StewardPlacement::Pid1 is), and the mandatory resync runs through the steward".
Definition INELIGIBLE_USB_PASSTHROUGH : Removal :=
  ineligible "passes through a host USB device, which is host state living outside guest RAM".

Definition clone_ineligible_feature (cfg : CellConfig) : option Removal :=
  match net cfg with
  | Unprivileged _ _ => Some INELIGIBLE_UNPRIVILEGED_NET
  | OnSegment _ => Some INELIGIBLE_SEGMENT
  | _ =>
      if decide (data_shares cfg ≠ []) then Some INELIGIBLE_VIRTIOFS_SHARE else
      if negb (resync_reachable (placement cfg)) then Some INELIGIBLE_PLACEMENT else
      if decide (usb_host_devices cfg ≠ []) then Some INELIGIBLE_USB_PASSTHROUGH else None
  end.

Definition check_clone_eligible (cfg : CellConfig) : result Unsupported unit :=
  match clone_ineligible_feature cfg with
  | Some r => Err (from_removal "zygote" r)
  | None => Ok tt
  end.

(** ** A declaration is read back as written *)

Lemma stance_line_parsed idx e ls st :
  st !! e.1 = None →
  parse_lines idx (stance_line e :: ls) st = parse_lines (idx + 1) ls (<[e.1 := e.2]> st).
Proof.
  destruct e as [f b]. cbn [fst snd]. intros Hst. cbn [parse_lines].
  assert (str_trim (default "" (head (str_split "#" (stance_line (f, b))))) = stance_line (f, b)) as ->
    by (destruct f, b; vm_compute; reflexivity).
  rewrite decide_False by (by destruct f).
  assert (split_once "=" (stance_line (f, b)) = Some (name f +:+ " ", if b then " true" else " false")) as ->
    by (destruct f, b; vm_compute; reflexivity).
  assert (str_trim (name f +:+ " ") = name f) as -> by (destruct f; vm_compute; reflexivity).
  rewrite decide_False by (by destruct f).
  assert (parse (name f) = Some f) as -> by (destruct f; vm_compute; reflexivity).
  assert (str_trim (if b then " true" else " false") = if b then "true" else "false") as ->
    by (destruct b; vm_compute; reflexivity).
  destruct b; cbn [decide]; by rewrite Hst.
Qed.

Lemma stance_lines_parsed es : ∀ idx st,
  NoDup es.*1 → (∀ e, e ∈ es → st !! e.1 = None) →
  parse_lines idx (stance_line <$> es) st = Ok (list_to_map es ∪ st).
Proof.
  induction es as [|e es IH]; intros idx st Hnd Hst.
  { cbn. by rewrite (left_id_L ∅ (∪)). }
  cbn [fmap list_fmap] in *. apply NoDup_cons in Hnd as [Hn Hnd].
  rewrite stance_line_parsed by (apply Hst; left). rewrite IH; [|done|].
  - f_equal. destruct e as [f b]. rewrite list_to_map_cons. cbn [fst snd].
    rewrite <- insert_union_r by (by apply not_elem_of_list_to_map).
    by rewrite insert_union_l.
  - intros e' He'. rewrite lookup_insert_ne; [apply Hst; by right|].
    intros E. apply Hn. rewrite E. by apply list_elem_of_fmap_2.
Qed.

Lemma ALL_elem f : f ∈ ALL.
Proof. refine (bool_decide_unpack _ _). destruct f; vm_compute; exact I. Qed.

Lemma ALL_NoDup : NoDup ALL.
Proof. refine (bool_decide_unpack _ _). vm_compute. exact I. Qed.

Lemma stance_list_elem st f b : (f, b) ∈ stance_list st ↔ st !! f = Some b.
Proof.
  unfold stance_list. rewrite list_elem_of_omap. split.
  - intros (g & _ & Hg). destruct (st !! g) eqn:E; cbn in Hg; naive_solver.
  - intros Hf. exists f. split; [apply ALL_elem|]. by rewrite Hf.
Qed.

Lemma stance_list_NoDup st : NoDup (stance_list st).*1.
Proof.
  unfold stance_list. pose proof ALL_NoDup as Hnd. revert Hnd.
  induction ALL as [|f l IH]; intros Hnd; [constructor|].
  apply NoDup_cons in Hnd as [Hf Hnd]. cbn.
  destruct (st !! f) as [x|]; cbn; [|by apply IH]. apply NoDup_cons. split; [|by apply IH].
  intros ([g b] & E & (h & Hh & Hg)%list_elem_of_omap)%list_elem_of_fmap. cbn in E. subst g.
  destruct (st !! h); cbn in Hg; naive_solver.
Qed.

Lemma stance_list_map st : list_to_map (stance_list st) = st.
Proof.
  apply map_eq. intros f. apply option_eq. intros b.
  rewrite <- elem_of_list_to_map by apply stance_list_NoDup. apply stance_list_elem.
Qed.

Lemma manifest_lines st : Forall is_line (manifest_header ++ (stance_line <$> stance_list st)).
Proof.
  apply Forall_app. split.
  - repeat constructor; refine (bool_decide_unpack _ _); vm_compute; exact I.
  - apply Forall_fmap, Forall_true. intros [f b]. cbn. apply inline_is_line.
    refine (bool_decide_unpack _ _). destruct f, b; vm_compute; exact I.
Qed.

Lemma parse_render d s :
  parse_manifest (render_manifest d) s = Ok {| source := Some s; stances := stances d |}.
Proof.
  unfold parse_manifest, render_manifest. rewrite str_lines_render by apply manifest_lines.
  assert (∀ ls, parse_lines 0 (manifest_header ++ ls) ∅ = parse_lines 2 ls ∅) as ->.
  { intros ls. unfold manifest_header. cbn [app parse_lines].
    assert (∀ l, l ∈ manifest_header → str_trim (default "" (head (str_split "#" l))) = "") as H.
    { intros l. unfold manifest_header. rewrite !elem_of_cons, elem_of_nil. intros [->|[->|[]]]; vm_compute; reflexivity. }
    rewrite !H by (unfold manifest_header; set_solver). done. }
  rewrite stance_lines_parsed; [|apply stance_list_NoDup|done].
  by rewrite stance_list_map, (right_id_L ∅ (∪)).
Qed.

(** A feature declaration travels intact.  The manifest rendered from a
    declaration, found at the path composed for the artifact, is read back
    with every stance it was written with and no other, under the provenance
    the reader gives it; and no manifest at that path is the baseline. *)
Theorem declaration_travels read artifact d s :
  (read (feature_manifest_path artifact) = RdOk (render_manifest d) →
   load_beside read artifact s = Ok {| source := Some s; stances := stances d |}) ∧
  (read (feature_manifest_path artifact) = RdNotFound → load_beside read artifact s = Ok (baseline s)).
Proof. unfold load_beside. split; intros ->; [by rewrite parse_render|done]. Qed.

(** ** The intersection is exact *)

Lemma remove_all_app l1 l2 set : remove_all (l1 ++ l2) set = remove_all l2 (remove_all l1 set).
Proof. apply foldl_app. Qed.

Lemma remove_all_lookup rs : ∀ set f,
  remove_all rs set !! f =
    match filter (λ r, feature r = f) rs with
    | [] => set !! f
    | l => Some (removals set f ++ l)
    end.
Proof.
  induction rs as [|r rs IH]; intros set f; [done|]. cbn [remove_all foldl].
  fold (remove_all rs (remove r set)). rewrite IH, filter_cons. unfold removals, remove.
  case_decide as Hf.
  - subst f. rewrite lookup_partial_alter_eq. cbn [from_option id].
    destruct (filter _ rs); [done|]. by rewrite <- app_assoc.
  - by rewrite lookup_partial_alter_ne.
Qed.

Lemma min_by_rank_spec rs : ∀ r,
  min_by_rank r rs ∈ r :: rs ∧
  ∀ r', r' ∈ r :: rs → axis_rank (by_ (min_by_rank r rs)) ≤ axis_rank (by_ r').
Proof.
  induction rs as [|r1 rs IH]; intros r; cbn [min_by_rank].
  { split; [left|]. intros r' ->%list_elem_of_singleton. done. }
  destruct (Nat.ltb_spec (axis_rank (by_ r1)) (axis_rank (by_ r))) as [Hlt|Hle].
  - destruct (IH r1) as [Hin Hmin]. split; [set_solver|].
    intros r' [->|Hr']%elem_of_cons; [|by apply Hmin].
    etrans; [apply (Hmin r1); left|lia].
  - destruct (IH r) as [Hin Hmin]. split; [set_solver|].
    intros r' [->|[->|Hr']%elem_of_cons]%elem_of_cons; [apply Hmin; left| |apply Hmin; by right].
    etrans; [apply (Hmin r); left|lia].
Qed.

(** What the set computed from a list of removals answers. *)
Lemma set_answers rs f :
  let set := remove_all rs ∅ in
  removals set f = filter (λ r, feature r = f) rs ∧
  (has set f = true ↔ ∀ r, r ∈ rs → feature r ≠ f) ∧
  (has set f = true ↔ why_absent set f = None) ∧
  (∀ r, why_absent set f = Some r → r ∈ rs ∧ feature r = f ∧
     ∀ r', r' ∈ rs → feature r' = f → axis_rank (by_ r) ≤ axis_rank (by_ r')).
Proof.
  cbn zeta. unfold has, why_absent, removals. rewrite remove_all_lookup.
  unfold removals. rewrite !lookup_empty. cbn [default app].
  assert (∀ r, r ∈ filter (λ r, feature r = f) rs ↔ feature r = f ∧ r ∈ rs) as Hin
    by (intros r; by rewrite list_elem_of_filter).
  destruct (filter _ rs) as [|r0 l].
  - split_and!; try done. split; [|done]. intros _ r Hr Hf.
    assert (r ∈ []) as []%elem_of_nil. by apply Hin.
  - cbn. split_and!; try done.
    + split; [done|]. intros H. assert (r0 ∈ r0 :: l) as [Hf Hr]%Hin by left. by destruct (H r0 Hr).
    + intros r [= <-]. destruct (min_by_rank_spec l r0) as [Hm Hmin].
      apply Hin in Hm as [??]. split_and!; try done.
      intros r' Hr' Hf. apply Hmin, Hin. done.
Qed.

Lemma require_all_spec set backend fs :
  (∀ f, has set f = true ↔ why_absent set f = None) →
  require_all set backend fs = Ok tt ↔ Forall (λ f, has set f = true) fs.
Proof.
  intros Hs. induction fs as [|f fs IH]; cbn; [by split|]. rewrite Forall_cons, Hs, <- IH.
  destruct (why_absent set f); [|naive_solver]. split; [done|]. by intros [? _].
Qed.

Section cell.
Context (vmm_id : string) (caps : VmmCapabilities) (host : HostDeclaration) (k r : FeatureDeclaration).
Context (cfg : CellConfig).

Definition config_axis : list Removal :=
  match steward_port (placement cfg) with
  | None => [{| feature := ControlPlane; by_ := Config; reason := CONTROL_PLANE_REMOVED |}]
  | Some _ => []
  end.

Definition objections : list Removal :=
  backend_axis vmm_id caps ++ host_axis (Some host) ++ artifact_axis k ++ artifact_axis r ++ config_axis.

(** Who has to agree for the cell to have a feature. *)
Definition agreed (f : Feature) : Prop :=
  (is_backend_capability f = true → backend_supports caps f = true) ∧
  (f = NestedVirt → host_nested_virt host = true) ∧
  stances k !! f ≠ Some false ∧ stances r !! f ≠ Some false ∧
  (f = ControlPlane → is_Some (steward_port (placement cfg))).

(** A removal that states a fact. *)
Definition truthful (w : Removal) : Prop :=
  match by_ w with
  | Backend n => n = vmm_id ∧ backend_supports caps (feature w) = false
  | Host => feature w = NestedVirt ∧ host_nested_virt host = false
  | Kernel _ => source k = Some (by_ w) ∧ stances k !! feature w = Some false
  | Rootfs _ => source r = Some (by_ w) ∧ stances r !! feature w = Some false
  | Handler _ => False
  | Config => feature w = ControlPlane ∧ steward_port (placement cfg) = None
  end.

Lemma artifact_axis_elem d w :
  w ∈ artifact_axis d ↔ source d = Some (by_ w) ∧ stances d !! feature w = Some false ∧
    reason w = "declares it absent".
Proof.
  unfold artifact_axis. destruct (source d) as [s|]; [|split; [intros []%elem_of_nil|naive_solver]].
  rewrite list_elem_of_fmap. split.
  - intros ([f b] & -> & [Hb Hin]%list_elem_of_filter). cbn in *. subst b.
    by apply stance_list_elem in Hin.
  - intros ([= ->] & Hf & Hw). exists (feature w, false). split.
    + destruct w. cbn in *. by subst.
    + apply list_elem_of_filter. split; [done|]. by apply stance_list_elem.
Qed.

Lemma objections_elem w l1 l2 :
  source k = Some (Kernel l1) → source r = Some (Rootfs l2) → w ∈ objections → truthful w.
Proof.
  intros Hk Hr. unfold objections. rewrite !elem_of_app, !artifact_axis_elem. unfold truthful.
  intros [H|[H|[(H1 & H2 & _)|[(H1 & H2 & _)|H]]]].
  - apply list_elem_of_fmap in H as (f & -> & [Hf _]%list_elem_of_filter). cbn. split; [done|].
    apply Is_true_eq_true, andb_true_iff in Hf as [_ Hf]. by apply negb_true_iff.
  - cbn in H. unfold host_removals in H. destruct (host_nested_virt host); cbn in H; [by apply elem_of_nil in H|].
    apply list_elem_of_singleton in H as ->. done.
  - rewrite Hk in H1. injection H1 as H1. rewrite <- H1 in *. done.
  - rewrite Hr in H1. injection H1 as H1. rewrite <- H1 in *. done.
  - unfold config_axis in H. destruct (steward_port (placement cfg)); [by apply elem_of_nil in H|].
    apply list_elem_of_singleton in H as ->. done.
Qed.

Lemma agreed_iff f l1 l2 :
  source k = Some (Kernel l1) → source r = Some (Rootfs l2) →
  agreed f ↔ ∀ w, w ∈ objections → feature w ≠ f.
Proof.
  intros Hk Hr. split.
  - intros (Hb & Hh & Hsk & Hsr & Hc) w Hw <-. pose proof (objections_elem _ _ _ Hk Hr Hw) as T.
    unfold truthful in T. destruct (by_ w) eqn:E.
    + destruct T as [_ T]. destruct (is_backend_capability (feature w)) eqn:Eb; [by rewrite Hb in T|].
      by destruct (feature w).
    + by apply Hsk, T.
    + by apply Hsr, T.
    + done.
    + destruct T as [T1 T2]. by rewrite (Hh T1) in T2.
    + destruct T as [T1 T2]. apply Hc in T1 as [? ?]. congruence.
  - intros H. unfold objections in H. unfold agreed. split_and!.
    + intros Hf. destruct (backend_supports caps f) eqn:E; [done|]. exfalso.
      refine (H {| feature := f; by_ := Backend vmm_id; reason := _ |} _ eq_refl).
      apply elem_of_app; left. apply list_elem_of_fmap. exists f. split; [reflexivity|].
      apply list_elem_of_filter. split; [by rewrite Hf, E|apply ALL_elem].
    + intros ->. destruct (host_nested_virt host) eqn:E; [done|]. exfalso.
      refine (H {| feature := NestedVirt; by_ := Host; reason := _ |} _ eq_refl).
      apply elem_of_app; right; apply elem_of_app; left. cbn. unfold host_removals. rewrite E. cbn. left.
    + intros Hs. apply (H {| feature := f; by_ := Kernel l1; reason := "declares it absent" |}); [|done].
      do 2 (apply elem_of_app; right). apply elem_of_app; left. by apply artifact_axis_elem.
    + intros Hs. apply (H {| feature := f; by_ := Rootfs l2; reason := "declares it absent" |}); [|done].
      do 3 (apply elem_of_app; right). apply elem_of_app; left. by apply artifact_axis_elem.
    + intros ->. destruct (steward_port (placement cfg)) eqn:E; [done|]. exfalso.
      refine (H {| feature := ControlPlane; by_ := Config; reason := _ |} _ eq_refl).
      do 4 (apply elem_of_app; right). unfold config_axis. rewrite E. left.
Qed.
End cell.

Lemma load_beside_source read artifact s d : load_beside read artifact s = Ok d → source d = Some s.
Proof.
  unfold load_beside, parse_manifest. destruct (read _); try done; [|by intros [= <-]].
  destruct (parse_lines _ _ _) as [st|[]]; [|done]. by intros [= <-].
Qed.

Lemma resolve_objections read vmm_id caps host cfg set :
  resolve_cell_features read vmm_id caps host cfg = Ok set →
  ∃ k r l1 l2,
    load_beside read (components (kernel_path cfg)) (Kernel l1) = Ok k ∧
    load_beside read (components (effective_image (rootfs cfg))) (Rootfs l2) = Ok r ∧
    set = remove_all (objections vmm_id caps host k r cfg) ∅.
Proof.
  unfold resolve_cell_features. destruct (load_beside _ _ (Kernel _)) as [k|] eqn:Hk; [|done].
  destruct (load_beside _ _ (Rootfs _)) as [r|] eqn:Hr; [|done]. intros [= <-].
  exists k, r. eexists _, _. split; [done|]. split; [done|].
  unfold objections. rewrite !remove_all_app. unfold intersect, config_axis, remove_by_config. cbn [foldl].
  by destruct (steward_port (placement cfg)).
Qed.

(** C20: The feature set of a cell is exactly what everybody agrees on.  When
    the sidecars of the kernel and of the effective root image are read, a
    feature is in the set if and only if the backend supports it (where it is
    the backend's to support), the host has it (nested virtualization), neither
    artifact declares it absent, and for the control plane the placement
    expects a steward; [require] accepts exactly the lists of features in the
    set; and the reason given for an absent feature is a fact, from the first
    of the axes kernel, root image, backend, host, configuration that objects. *)
Theorem cell_features_exact read vmm_id caps host cfg set :
  resolve_cell_features read vmm_id caps host cfg = Ok set →
  ∃ k r l1 l2,
    load_beside read (components (kernel_path cfg)) (Kernel l1) = Ok k ∧
    load_beside read (components (effective_image (rootfs cfg))) (Rootfs l2) = Ok r ∧
    (∀ f, has set f = true ↔ agreed caps host k r cfg f) ∧
    (∀ fs, require_all set vmm_id fs = Ok tt ↔ Forall (agreed caps host k r cfg) fs) ∧
    (∀ f, has set f = false → ∃ w, why_absent set f = Some w ∧ feature w = f ∧
       truthful vmm_id caps host k r cfg w ∧
       ∀ w', w' ∈ removals set f → axis_rank (by_ w) ≤ axis_rank (by_ w')).
Proof.
  intros (k & r & l1 & l2 & Hk & Hr & ->)%resolve_objections. exists k, r, l1, l2.
  pose proof (load_beside_source _ _ _ _ Hk) as Sk. pose proof (load_beside_source _ _ _ _ Hr) as Sr.
  set (rs := objections vmm_id caps host k r cfg).
  assert (∀ f, has (remove_all rs ∅) f = true ↔ agreed caps host k r cfg f) as Hhas.
  { intros f. destruct (set_answers rs f) as (_ & -> & _). symmetry. by eapply agreed_iff. }
  split; [done|]. split; [done|]. split; [done|]. split.
  - intros fs. rewrite require_all_spec by (intros f; apply (set_answers rs f)).
    apply Forall_iff. apply Hhas.
  - intros f Hf. destruct (set_answers rs f) as (Hrm & _ & Hn & Hw).
    destruct (why_absent (remove_all rs ∅) f) as [w|] eqn:E; [|by rewrite (proj2 Hn eq_refl) in Hf].
    destruct (Hw w eq_refl) as (Hin & Hfw & Hmin). exists w. split_and!; try done.
    + by eapply objections_elem.
    + intros w' Hw'. rewrite Hrm in Hw'. apply list_elem_of_filter in Hw' as [? ?]. by apply Hmin.
Qed.

(** *** A concrete cell: a root image that declares it cannot be snapshotted *)

Definition demo_caps : VmmCapabilities := {|
  snapshot_restore := true; lazy_restore := false; virtio_fs_shares := true;
  unprivileged_vhost_user_net := true; nested_virt := true; virtio_console := true;
  restore_rotates_host_paths := true; disk_io_throttle := true; usb_host_passthrough := false |}.

Definition demo_declaration : FeatureDeclaration :=
  {| source := None; stances := {[SnapshotRestore := false; XattrPreserved := true]} |}.

Definition demo_read (p : list Component) : read_answer :=
  if decide (p = components "/a/rootfs.features") then RdOk (render_manifest demo_declaration)
  else RdNotFound.

Definition demo_cell : CellConfig := {|
  kernel_path := "/a/vmlinux"; rootfs := Erofs "/a/rootfs.erofs"; net := NoNet; data_shares := [];
  placement := NoSteward; usb_host_devices := []; required_features := [XattrPreserved];
  fixed_vmid := None; resource_prefix := "vmcell"; shutdown_grace := 250;
  limits := {| mem_max_mib := None; cpu_max_pct := None; pids_max := None; io_max := None |} |}.

Definition demo_host : HostDeclaration := {| host_nested_virt := false |}.

Lemma declaration_travels_witness :
  load_beside demo_read (components "/a/rootfs.erofs") (Rootfs "rootfs.erofs") =
    Ok {| source := Some (Rootfs "rootfs.erofs"); stances := stances demo_declaration |}.
Proof.
  apply (declaration_travels demo_read (components "/a/rootfs.erofs") demo_declaration (Rootfs "rootfs.erofs")).
  vm_compute. reflexivity.
Defined.

Definition demo_resolved : result feature_error FeatureSet :=
  resolve_cell_features demo_read "qemu" demo_caps demo_host demo_cell.

Lemma cell_features_exact_witness :
  match demo_resolved with
  | Ok set =>
      filter (λ f, has set f = false) ALL =
        [SnapshotRestore; LazyRestore; NestedVirt; UsbHostPassthrough; ControlPlane] ∧
      (∃ w, why_absent set SnapshotRestore = Some w ∧ by_ w = Rootfs "rootfs.erofs") ∧
      require_all set "qemu" [XattrPreserved] = Ok tt ∧
      ∃ k r, ∀ f, has set f = true ↔ agreed demo_caps demo_host k r demo_cell f
  | Err _ => False
  end.
Proof.
  assert (is_ok demo_resolved = true) as H by (vm_compute; reflexivity).
  pose proof (cell_features_exact demo_read "qemu" demo_caps demo_host demo_cell) as C.
  change (resolve_cell_features demo_read "qemu" demo_caps demo_host demo_cell) with demo_resolved in C.
  assert (match demo_resolved with Ok set =>
    filter (λ f, has set f = false) ALL = [SnapshotRestore; LazyRestore; NestedVirt; UsbHostPassthrough; ControlPlane] ∧
    (∃ w, why_absent set SnapshotRestore = Some w ∧ by_ w = Rootfs "rootfs.erofs") ∧
    require_all set "qemu" [XattrPreserved] = Ok tt | Err _ => False end) as V.
  { vm_compute. split; [reflexivity|]. split; [eexists; split; reflexivity|reflexivity]. }
  destruct demo_resolved as [set|e]; [|discriminate]. destruct V as (V1 & V2 & V3).
  destruct (C set eq_refl) as (k & r & _ & _ & _ & _ & Hhas & _).
  split; [exact V1|]. split; [exact V2|]. split; [exact V3|]. exists k, r. exact Hhas.
Defined.
