(* ===== verification/Lifecycle.v ===== *)
(** * Starting, restoring and tearing down a VM

    Models [MicroVm] of [crates/vmcell/src/orchestrator.rs]: [setup_env],
    [start], [restore_inner], [teardown_post_instance], [shutdown] and [Drop],
    with the guards they hold and the scratch directory and adopted path of
    [vmm/mod.rs].  The resources are those of the other files: ids and CIDs
    ([IdAlloc.v]), namespaces and taps ([Tap.v]), segment members
    ([Segment.v]), slices ([Cgroup.v]) and feature sets ([Features.v]).

    A function runs in a state and error monad over the host.  Rust drops the
    live locals of a scope in the reverse order of their declaration when [?]
    leaves it, also in an [async fn]; [or_drop m d] is a scope in which a local
    with destructor [d] is live while [m] runs.  Every resource a VM takes and
    gives back is noted in the host's log.

    What is outside is a parameter: the backend ([Vmm], the trait the source is
    generic over), and the calls to the operating system and to the egress
    proxy ([LaunchEnv]).  They answer as a function of the log, so one host
    stands for any sequence of answers. *)

From S2P Require Import Prelude PathLib Naming IdAlloc NetAddr Tap Cgroup Segment Cmdline Features.

(** ** Resources and the log *)

Inductive resource :=
  | RInstance | RNat | RProxy | RNetns | RMember | RSlice | RBaked | RCid | RScratch | RLineage | RVmid.

#[export] Instance resource_eq_dec : EqDecision resource.
Proof. solve_decision. Defined.

Inductive event := Took (r : resource) | Released (r : resource).

#[export] Instance event_eq_dec : EqDecision event.
Proof. solve_decision. Defined.

Record host := {
  h_vmids : IdAllocator;
  h_cids : CidPool;
  h_kernel : kernel;
  h_slots : gmap N (gmap N N);    (** the slot map of each segment *)
  h_cgroups : cgfs;
  h_scratch : gset string;
  h_log : list event;
}.

Definition note (e : event) (h : host) : host := {|
  h_vmids := h_vmids h; h_cids := h_cids h; h_kernel := h_kernel h; h_slots := h_slots h;
  h_cgroups := h_cgroups h; h_scratch := h_scratch h; h_log := h_log h ++ [e] |}.
Definition set_vmids (a : IdAllocator) (h : host) : host := {|
  h_vmids := a; h_cids := h_cids h; h_kernel := h_kernel h; h_slots := h_slots h;
  h_cgroups := h_cgroups h; h_scratch := h_scratch h; h_log := h_log h |}.
Definition set_cids (p : CidPool) (h : host) : host := {|
  h_vmids := h_vmids h; h_cids := p; h_kernel := h_kernel h; h_slots := h_slots h;
  h_cgroups := h_cgroups h; h_scratch := h_scratch h; h_log := h_log h |}.
Definition set_net (k : kernel) (s : gmap N (gmap N N)) (h : host) : host := {|
  h_vmids := h_vmids h; h_cids := h_cids h; h_kernel := k; h_slots := s;
  h_cgroups := h_cgroups h; h_scratch := h_scratch h; h_log := h_log h |}.
Definition set_cgroups (fs : cgfs) (h : host) : host := {|
  h_vmids := h_vmids h; h_cids := h_cids h; h_kernel := h_kernel h; h_slots := h_slots h;
  h_cgroups := fs; h_scratch := h_scratch h; h_log := h_log h |}.
Definition set_scratch (d : gset string) (h : host) : host := {|
  h_vmids := h_vmids h; h_cids := h_cids h; h_kernel := h_kernel h; h_slots := h_slots h;
  h_cgroups := h_cgroups h; h_scratch := d; h_log := h_log h |}.

Inductive vmm_call := VCreate | VBoot | VRestore | VResume.

Inductive vm_error :=
  | EFeature (e : feature_error)
  | EUnsupported (u : Unsupported)
  | EVmid (e : alloc_error)
  | ECid (e : alloc_error)
  | EScratch
  | EOverlay
  | ENet (e : nl_error)
  | ESegment (e : seg_error)
  | EWiring
  | EProxy
  | ECgroup (e : cg_error)
  | EVmm (c : vmm_call)
  | EControlPlane.

(** ** The monad *)

Definition VM (A : Type) : Type := host → result vm_error A * host.

#[export] Instance VM_ret : MRet VM := λ A a h, (Ok a, h).
#[export] Instance VM_bind : MBind VM := λ A B f m h,
  match m h with
  | (Ok a, h') => f a h'
  | (Err e, h') => (Err e, h')
  end.

Definition fail {A} (e : vm_error) : VM A := λ h, (Err e, h).
Definition act (f : host → host) : VM unit := λ h, (Ok tt, f h).
Definition guard_ok {E} (f : E → vm_error) (r : result E unit) : VM unit := λ h,
  match r with Ok _ => (Ok tt, h) | Err e => (Err (f e), h) end.
Definition or_drop {A} (m : VM A) (d : host → host) : VM A := λ h,
  match m h with
  | (Ok a, h') => (Ok a, h')
  | (Err e, h') => (Err e, d h')
  end.

(** ** Scratch directories *)

Definition per_vm_scratch_dir (prefix base : string) (pid vmid : N) : string :=
  base +:+ "/" +:+ scratch_dir_name prefix pid vmid.

(** [Path::parent], [file_name] and [==] are on components. *)
Definition adopted_scratch_vmid (prefix : string) (own_dir adopted : list Component) : option N :=
  dir ← PathLib.path_parent adopted;
  if decide (dir = own_dir) then None else
  n ← file_name dir;
  if negb (is_utf8 n) then None else
  '(front, v) ← rsplit_once "-" n;
  vmid ← parse_uint u32_max v;
  pid ← parse_uint u32_max (rsplit_first "-" front);
  if decide (scratch_dir_name prefix pid vmid = n) then Some vmid else None.

(** ** What a backend is given and gives *)

Record VmResources := {
  vr_cgroup : string;
  vr_tap : option string;
  vr_netns : option string;
  vr_segment : option SegmentMembership;
  vr_vhost_user_socket : option string;
  vr_vmid : N;
  vr_guest_cid : N;
  vr_tmp_dir : string;
}.

Record VmInstance := { vsock_path : string; guest_cid : N }.

(** A backend may add files to the VM's slice (its processes) and touches
    nothing else of the tree. *)
Definition only_slice (slice : string) (fs fs' : cgfs) : Prop :=
  dirs fs' = dirs fs ∧ ∀ d f, d ≠ slice → files fs' !! (d, f) = files fs !! (d, f).

Class Vmm := {
  vmm_id : string;
  capabilities : VmmCapabilities;
  vmm_create : CellConfig → VmResources → list event → cgfs → option VmInstance * cgfs;
  vmm_restore : string → CellConfig → VmResources → list event → cgfs → option VmInstance * cgfs;
  vmm_boot : VmInstance → list event → bool;
  vmm_resume : VmInstance → list event → bool;
  verify_control_plane : VmInstance → N → list event → bool;
  create_law cfg res l fs : only_slice (vr_cgroup res) fs (vmm_create cfg res l fs).2;
  restore_law dir cfg res l fs : only_slice (vr_cgroup res) fs (vmm_restore dir cfg res l fs).2;
}.

Class LaunchEnv := {
  read_file : list Component → read_answer;
  host_probe : HostDeclaration;
  subsec_nanos : list event → N;          (** the allocator's clock *)
  proc_self_cgroup : option string;
  temp_dir : string;
  mkdir_fails_at : string → bool;         (** [create_dir_all] of a scratch directory *)
  rmdir_fails_at : string → bool;         (** [remove_dir_all] of one *)
  proxy_start : bool → option string → ProxyConfig → list event → option N;
  overlay_clone : string → string → list event → bool;
  nft_apply : string → string → M unit;
  nft_law ns rules k : match nft_apply ns rules k with
    | (_, k') => only_ns ns (nets k) (nets k') ∧ (is_Some (nets k !! ns) → is_Some (nets k' !! ns))
    end;
}.

(** ** Pure decisions *)

Definition CONTROL_PLANE_PROBE_BUDGET : N := 4000.         (** milliseconds *)
Definition DEFAULT_STEWARD_CONNECT_BUDGET : N := 10000.
Definition MAX_CONTROL_PLANE_RESPAWNS : nat := 4.

Definition control_plane_probe_budget (p : StewardPlacement) : N :=
  match p with
  | Pid1 | NoSteward => CONTROL_PLANE_PROBE_BUDGET
  | Service _ => DEFAULT_STEWARD_CONNECT_BUDGET
  end.

Inductive PrivilegedEgressRules := Tproxy (p : ProxyConfig) | RulesBlocked | NoRules.

Definition privileged_egress_rules (e : Egress) : PrivilegedEgressRules :=
  match e with
  | Filtered p => Tproxy p
  | Blocked => RulesBlocked
  | Open => NoRules
  end.

Inductive NatEgressPolicy := NatAllow | NatDeny.

Definition nat_egress_plan (e : Egress) (host_services_port proxy_port : option N)
    : list N * NatEgressPolicy :=
  match e with
  | Blocked => ([], NatDeny)
  | Filtered _ | Open => (option_list host_services_port ++ option_list proxy_port, NatAllow)
  end.

Definition net_uses_tap (n : NetConfig) : bool :=
  match n with
  | Privileged _ | OnSegment _ => true
  | Unprivileged _ _ | NoNet => false
  end.

Definition assert_tap_wiring_matches (n : NetConfig) (tap_present : bool) : result unit unit :=
  if Bool.eqb (net_uses_tap n) tap_present then Ok tt else Err tt.

(** ** Staged network resources *)

(** The NAT is its forward ports and policy, the proxy its port. *)
Record StagedNet := {
  s_proxy : option N;
  s_smoltcp : option (list N * NatEgressPolicy);
  s_netns : option NetNamespace;
  s_segment : option SegmentMembership;
}.

Definition staged_empty : StagedNet :=
  {| s_proxy := None; s_smoltcp := None; s_netns := None; s_segment := None |}.

(** The names [setup_env] records for the backend. *)
Record Wiring := {
  w_tap : option string;
  w_netns : option string;
  w_segment : option SegmentMembership;
  w_socket : option string;
}.

Section lifecycle.
Context {CL : ClaimHost} {NL : Netlink} {CG : CgroupHost} {VMM : Vmm} {LE : LaunchEnv}.

Definition in_kernel {A} (m : M A) : VM A := λ h,
  match m (h_kernel h) with
  | (Ok a, k) => (Ok a, set_net k (h_slots h) h)
  | (Err e, k) => (Err (ENet e), set_net k (h_slots h) h)
  end.

(** [release_slot]: an empty slot is not released. *)
Definition release_slot {A} (r : resource) (held : option A) (d : A → host → host) (h : host) : host :=
  match held with Some a => note (Released r) (d a h) | None => h end.

Definition drop_netns (n : NetNamespace) (h : host) : host :=
  set_net (ns_drop n (h_kernel h)) (h_slots h) h.

Definition drop_segment_member (m : SegmentMembership) (h : host) : host :=
  let '(slots, k) := drop_member m (h_slots h !!! m_segid m) (h_kernel h) in
  set_net k (<[m_segid m := slots]> (h_slots h)) h.

(** The NAT and the proxy are stopped; their threads are not modelled. *)
Definition release_net_before_netns (st : StagedNet) (h : host) : host :=
  let h := release_slot RNat (s_smoltcp st) (λ _ h, h) h in
  let h := release_slot RProxy (s_proxy st) (λ _ h, h) h in
  let h := release_slot RNetns (s_netns st) drop_netns h in
  release_slot RMember (s_segment st) drop_segment_member h.

(** ** The guards *)

Definition take_vmid (cfg : CellConfig) : VM VmidGuard := λ h,
  match (match fixed_vmid cfg with
         | Some v => reserve (h_vmids h) v
         | None => allocate_vmid (subsec_nanos (h_log h)) (h_vmids h)
         end) with
  | (Ok v, a) => (Ok {| g_vmid := v; g_lineage := None |}, note (Took RVmid) (set_vmids a h))
  | (Err e, a) => (Err (EVmid e), set_vmids a h)
  end.

Definition drop_vmid (g : VmidGuard) (h : host) : host :=
  let h' := set_vmids (drop_vmid_guard g (h_vmids h)) h in
  note (Released RVmid) (match g_lineage g with Some _ => note (Released RLineage) h' | None => h' end).

Definition take_scratch (cfg : CellConfig) (vmid : N) : VM string := λ h,
  let path := per_vm_scratch_dir (resource_prefix cfg) temp_dir self_pid vmid in
  if mkdir_fails_at path then (Err EScratch, h)
  else (Ok path, note (Took RScratch) (set_scratch ({[path]} ∪ h_scratch h) h)).

Definition drop_scratch (path : string) (h : host) : host :=
  note (Released RScratch)
    (if rmdir_fails_at path then h else set_scratch (h_scratch h ∖ {[path]}) h).

Definition take_slice (name : string) (l : ResourceLimits) : VM unit := λ h,
  match create_slice_at name l (h_cgroups h) with
  | (Ok _, fs) => (Ok tt, note (Took RSlice) (set_cgroups fs h))
  | (Err e, fs) => (Err (ECgroup e), set_cgroups fs h)
  end.

(** The armed guard's [Drop] and the teardown's deletion. *)
Definition drop_slice (name : string) (h : host) : host :=
  note (Released RSlice) (set_cgroups (delete_slice name (h_cgroups h)).2 h).

Definition take_cid : VM CidGuard := λ h,
  match cid_allocate (h_cids h) with
  | (Ok c, p) => (Ok {| cg_cid := c; cg_baked := None |}, note (Took RCid) (set_cids p h))
  | (Err e, p) => (Err (ECid e), set_cids p h)
  end.

Definition drop_cid (g : CidGuard) (h : host) : host :=
  let h' := set_cids (drop_cid_guard g (h_cids h)) h in
  note (Released RCid) (match cg_baked g with Some _ => note (Released RBaked) h' | None => h' end).

Definition drop_instance : host → host := note (Released RInstance).

(** ** Setting the environment up *)

(** The match on [cfg.net]: what it answers, and the staging guard as it is
    then, for the error path too. *)
Definition setup_net (vmid : N) (tmp_dir : string) (cfg : CellConfig) (h : host)
    : result vm_error Wiring * StagedNet * host :=
  match net cfg with
  | Privileged egress =>
      match in_kernel (ns_create (resource_prefix cfg) vmid) h with
      | (Err e, h) => (Err e, staged_empty, h)
      | (Ok ns, h) =>
          let h := note (Took RNetns) h in
          let st := {| s_proxy := None; s_smoltcp := None; s_netns := Some ns; s_segment := None |} in
          let w := {| w_tap := Some (nn_tap_name ns); w_netns := Some (nn_name ns);
                      w_segment := None; w_socket := None |} in
          match privileged_egress_rules egress with
          | Tproxy p =>
              match proxy_start true (Some (netns_name (resource_prefix cfg) vmid)) p (h_log h) with
              | None => (Err EProxy, st, h)
              | Some port =>
                  let h := note (Took RProxy) h in
                  let st := {| s_proxy := Some port; s_smoltcp := None; s_netns := Some ns; s_segment := None |} in
                  match in_kernel (emit_proxy_rules nft_apply ns port) h with
                  | (Err e, h) => (Err e, st, h)
                  | (Ok _, h) => (Ok w, st, h)
                  end
              end
          | RulesBlocked =>
              match in_kernel (emit_blocked_rules nft_apply ns) h with
              | (Err e, h) => (Err e, st, h)
              | (Ok _, h) => (Ok w, st, h)
              end
          | NoRules => (Ok w, st, h)
          end
      end
  | Unprivileged egress host_services_port =>
      let started :=
        match egress with
        | Filtered p =>
            match proxy_start false None p (h_log h) with
            | Some port => Some (Some port, note (Took RProxy) h)
            | None => None
            end
        | Blocked | Open => Some (None, h)
        end in
      match started with
      | None => (Err EProxy, staged_empty, h)
      | Some (proxy, h) =>
          let proxy_port_opt := match proxy with
                                | Some port => if (0 <? port)%N then Some port else None
                                | None => None
                                end in
          let plan := nat_egress_plan egress host_services_port proxy_port_opt in
          (Ok {| w_tap := None; w_netns := None; w_segment := None;
                 w_socket := Some (tmp_dir +:+ "/smoltcp.sock") |},
           {| s_proxy := proxy; s_smoltcp := Some plan; s_netns := None; s_segment := None |},
           note (Took RNat) h)
      end
  | OnSegment seg =>
      let '(r, slots, k) := claim_member seg (h_slots h !!! seg_segid seg) vmid (h_kernel h) in
      let h := set_net k (<[seg_segid seg := slots]> (h_slots h)) h in
      match r with
      | Err e => (Err (ESegment e), staged_empty, h)
      | Ok m =>
          (Ok {| w_tap := Some (m_tap_name m); w_netns := Some (m_netns m); w_segment := Some m; w_socket := None |},
           {| s_proxy := None; s_smoltcp := None; s_netns := None; s_segment := Some m |},
           note (Took RMember) h)
      end
  | NoNet =>
      (Ok {| w_tap := None; w_netns := None; w_segment := None; w_socket := None |}, staged_empty, h)
  end.

Record EnvSetup := {
  e_net : StagedNet;
  e_cgroup : string;             (** the armed guard's slice *)
  e_cid : CidGuard;
  e_res : VmResources;
}.

(** [EnvSetup]'s fields in the order of their declaration. *)
Definition drop_env (s : EnvSetup) (h : host) : host :=
  drop_cid (e_cid s) (drop_slice (e_cgroup s) (release_net_before_netns (e_net s) h)).

(** [net] is declared before the slice's guard, so an error after the slice
    is created drops the slice first. *)
Definition setup_env (vmid : N) (tmp_dir : string) (cfg : CellConfig) : VM EnvSetup := λ h,
  match setup_net vmid tmp_dir cfg h with
  | (Err e, st, h) => (Err e, release_net_before_netns st h)
  | (Ok w, st, h) =>
      let slice := vm_slice_name proc_self_cgroup (resource_prefix cfg) vmid in
      or_drop
        (_ ← guard_ok (λ _, EWiring) (assert_tap_wiring_matches (net cfg) (bool_decide (is_Some (w_tap w))));
         _ ← take_slice slice (limits cfg);
         or_drop
           (cid ← take_cid;
            mret {| e_net := st; e_cgroup := slice; e_cid := cid;
                    e_res := {| vr_cgroup := slice; vr_tap := w_tap w; vr_netns := w_netns w;
                                vr_segment := w_segment w; vr_vhost_user_socket := w_socket w;
                                vr_vmid := vmid; vr_guest_cid := cg_cid cid; vr_tmp_dir := tmp_dir |} |})
           (drop_slice slice))
        (release_net_before_netns st) h
  end.

(** ** Launching *)

Definition vmm_spawn (call : vmm_call) (f : list event → cgfs → option VmInstance * cgfs)
    : VM VmInstance := λ h,
  match f (h_log h) (h_cgroups h) with
  | (Some i, fs) => (Ok i, note (Took RInstance) (set_cgroups fs h))
  | (None, fs) => (Err (EVmm call), set_cgroups fs h)
  end.

Definition vmm_do (call : vmm_call) (f : list event → bool) : VM unit := λ h,
  if f (h_log h) then (Ok tt, h) else (Err (EVmm call), h).

(** The health gate; on an error the instance, if there is one, is dropped as
    the innermost local of [start]. *)
Fixpoint control_plane_gate (respawns : nat) (cfg : CellConfig) (res : VmResources) (i : VmInstance)
    : VM VmInstance := λ h,
  if verify_control_plane i (control_plane_probe_budget (placement cfg)) (h_log h) then (Ok i, h) else
  match respawns with
  | 0 => (Err EControlPlane, drop_instance h)
  | S respawns =>
      (_ ← act drop_instance;
       i ← vmm_spawn VCreate (vmm_create cfg res);
       _ ← or_drop (vmm_do VBoot (vmm_boot i)) drop_instance;
       control_plane_gate respawns cfg res i) h
  end.

(** The handle; what [steward] keeps besides is in [Handle.v]. *)
Record MicroVm := {
  v_vmid : option VmidGuard;
  v_instance : option VmInstance;
  v_net : StagedNet;
  v_cgroup_name : option string;
  v_cid : option CidGuard;
  v_tmp_dir : option string;
  v_restored : bool;
  v_placement : StewardPlacement;
  v_features : gmap Feature (list Removal);
}.

Definition running (g : VmidGuard) (i : VmInstance) (s : EnvSetup) (tmp_dir : string) (restored : bool)
    (cfg : CellConfig) (features : gmap Feature (list Removal)) : MicroVm := {|
  v_vmid := Some g; v_instance := Some i; v_net := e_net s; v_cgroup_name := Some (e_cgroup s);
  v_cid := Some (e_cid s); v_tmp_dir := Some tmp_dir; v_restored := restored;
  v_placement := placement cfg; v_features := features |}.

Definition resolve (cfg : CellConfig) : VM (gmap Feature (list Removal)) := λ h,
  match resolve_cell_features read_file vmm_id capabilities host_probe cfg with
  | Err e => (Err (EFeature e), h)
  | Ok set =>
      match require_all set vmm_id (required_features cfg) with
      | Err u => (Err (EUnsupported u), h)
      | Ok _ => (Ok set, h)
      end
  end.

Definition start (cfg : CellConfig) : VM MicroVm :=
  features ← resolve cfg;
  g ← take_vmid cfg;
  or_drop
    (tmp_dir ← take_scratch cfg (g_vmid g);
     or_drop
       (s ← setup_env (g_vmid g) tmp_dir cfg;
        or_drop
          (i ← vmm_spawn VCreate (vmm_create cfg (e_res s));
           _ ← or_drop (vmm_do VBoot (vmm_boot i)) drop_instance;
           i ← (match steward_port (placement cfg) with
                | Some _ => control_plane_gate MAX_CONTROL_PLANE_RESPAWNS cfg (e_res s) i
                | None => mret i
                end);
           mret (running g i s tmp_dir false cfg features))
          (drop_env s))
       (drop_scratch tmp_dir))
    (drop_vmid g).

(** Adopting an id changes a guard that is live in an outer scope, so the two
    adoptions answer with the guards as they are then. *)
Definition adopt (cfg : CellConfig) (tmp_dir : string) (i : VmInstance) (g : VmidGuard) (c : CidGuard)
    (h : host) : result vm_error unit * VmidGuard * CidGuard * host :=
  let '(r, g, h) :=
    match adopted_scratch_vmid (resource_prefix cfg) (components tmp_dir) (components (vsock_path i)) with
    | None => (Ok tt, g, h)
    | Some ancestor =>
        let '(r, g', a) := adopt_lineage g (h_vmids h) ancestor in
        let h := set_vmids a h in
        (match r with Ok _ => Ok tt | Err e => Err (EVmid e) end, g',
         match g_lineage g' with Some _ => note (Took RLineage) h | None => h end)
    end in
  match r with
  | Err e => (Err e, g, c, h)
  | Ok _ =>
      let '(r, c', p) := adopt_baked_cid c (h_cids h) (guest_cid i) in
      let h := set_cids p h in
      (match r with Ok _ => Ok tt | Err e => Err (ECid e) end, g, c',
       match cg_baked c' with Some _ => note (Took RBaked) h | None => h end)
  end.

Definition with_cid (s : EnvSetup) (c : CidGuard) : EnvSetup :=
  {| e_net := e_net s; e_cgroup := e_cgroup s; e_cid := c; e_res := e_res s |}.

(** From a staged environment to a running restored VM; every error drops the
    instance, the environment, the scratch directory and the vmid, in that
    order. *)
Definition restore_staged (cfg : CellConfig) (dir tmp_dir : string) (g : VmidGuard) (s : EnvSetup)
    (features : gmap Feature (list Removal)) : VM MicroVm := λ h,
  match vmm_spawn VRestore (vmm_restore dir cfg (e_res s)) h with
  | (Err e, h) => (Err e, drop_vmid g (drop_scratch tmp_dir (drop_env s h)))
  | (Ok i, h) =>
      let '(r, g, c, h) := adopt cfg tmp_dir i g (e_cid s) h in
      let s := with_cid s c in
      let unwind h := drop_vmid g (drop_scratch tmp_dir (drop_env s (drop_instance h))) in
      match r with
      | Err e => (Err e, unwind h)
      | Ok _ =>
          or_drop (_ ← vmm_do VResume (vmm_resume i);
                   mret (running g i s tmp_dir true cfg features)) unwind h
      end
  end.

(** A copy-on-write clone restores from a copy of the snapshot directory, made in
    its own scratch directory. *)
Definition snapshot_copy (snapshot_dir tmp_dir : string) (cow : bool) : VM string := λ h,
  if cow then
    let clone_dir := tmp_dir +:+ "/zygote-snapshot" in
    if overlay_clone snapshot_dir clone_dir (h_log h) then (Ok clone_dir, h) else (Err EOverlay, h)
  else (Ok snapshot_dir, h).

Definition restore_inner (snapshot_dir : string) (cfg : CellConfig) (cow : bool) : VM MicroVm :=
  match clone_ineligible_feature cfg with
  | Some r => fail (EUnsupported (from_removal vmm_id r))
  | None =>
      features ← resolve cfg;
      g ← take_vmid cfg;
      x ← or_drop
        (tmp_dir ← take_scratch cfg (g_vmid g);
         or_drop
           (dir ← snapshot_copy snapshot_dir tmp_dir cow;
            s ← setup_env (g_vmid g) tmp_dir cfg;
            mret (tmp_dir, dir, s))
           (drop_scratch tmp_dir))
        (drop_vmid g);
      let '(tmp_dir, dir, s) := x in
      restore_staged cfg dir tmp_dir g s features
  end.

Definition restore (snapshot_dir : string) (cfg : CellConfig) : VM MicroVm := restore_inner snapshot_dir cfg false.

Definition restore_cow (zygote_dir : string) (cfg : CellConfig) : VM MicroVm := restore_inner zygote_dir cfg true.

(** ** Tearing down *)

Definition teardown_post_instance (v : MicroVm) (h : host) : MicroVm * host :=
  let h := release_net_before_netns (v_net v) h in
  let h := match v_cgroup_name v with Some n => drop_slice n h | None => h end in
  let h := match v_cid v with Some c => drop_cid c h | None => h end in
  let h := match v_tmp_dir v with Some d => drop_scratch d h | None => h end in
  let h := match v_vmid v with Some g => drop_vmid g h | None => h end in
  ({| v_vmid := None; v_instance := v_instance v; v_net := staged_empty; v_cgroup_name := None;
      v_cid := None; v_tmp_dir := None; v_restored := v_restored v; v_placement := v_placement v;
      v_features := v_features v |}, h).

Definition take_instance (v : MicroVm) : MicroVm :=
  {| v_vmid := v_vmid v; v_instance := None; v_net := v_net v; v_cgroup_name := v_cgroup_name v;
     v_cid := v_cid v; v_tmp_dir := v_tmp_dir v; v_restored := v_restored v;
     v_placement := v_placement v; v_features := v_features v |}.

(** [Drop]. *)
Definition drop_vm (v : MicroVm) (h : host) : MicroVm * host :=
  let h := release_slot RInstance (v_instance v) (λ _ h, h) h in
  teardown_post_instance (take_instance v) h.

(** [shutdown] consumes the handle: the request, the grace window and the kill
    only concern the instance ([Handle.v]), which is dropped before the rest is
    torn down; then [Drop] runs on what is left. *)
Definition shutdown (v : MicroVm) (h : host) : host :=
  let h := release_slot RInstance (v_instance v) (λ _ h, h) h in
  let '(v, h) := teardown_post_instance (take_instance v) h in
  (drop_vm v h).2.
End lifecycle.
