(* ===== verification/LifecycleProps.v ===== *)
(** * A VM gives back what it took

    Theorems about [Lifecycle.v].  The log of a launch is replayed by a small
    machine that rejects a resource taken twice, released when it is not held,
    or released while something that lives inside it is still held
    ([replay]); the invariant [Inv] ties what a launch owns at each point to
    the replayed log and, on a host whose clean-up calls do not fail ([quiet]),
    to the state of every component. *)

From S2P Require Import Prelude PathLib Naming IdAlloc NetAddr Tap Cgroup Segment Cmdline Features Lifecycle.

(** ** Replaying a log *)

Definition resource_rank (r : resource) : nat :=
  match r with
  | RInstance => 0 | RNat => 1 | RProxy => 2 | RNetns => 3 | RMember => 4 | RSlice => 5
  | RBaked => 6 | RCid => 7 | RScratch => 8 | RLineage => 9 | RVmid => 10
  end.

(** The resources in the documented order of teardown. *)
Definition teardown_law : list resource :=
  [RInstance; RNat; RProxy; RNetns; RMember; RSlice; RBaked; RCid; RScratch; RLineage; RVmid].

#[export] Instance resource_countable : Countable resource.
Proof. refine (inj_countable resource_rank (λ n, teardown_law !! n) _). by intros []. Defined.

(** [lives_in r r']: [r] has to be gone before [r'] is.  The VMM uses
    everything; the proxy and the NAT have sockets in the namespace, the NAT
    one in the scratch directory; every name contains the vmid. *)
Definition lives_in (r r' : resource) : bool :=
  match r, r' with
  | RInstance, RInstance => false
  | RInstance, _ => true
  | (RNat | RProxy), RNetns => true
  | RNat, RScratch => true
  | (RLineage | RVmid), _ => false
  | _, (RLineage | RVmid) => true
  | _, _ => false
  end.

Definition check_event (held : gset resource) (e : event) : option (gset resource) :=
  match e with
  | Took r => if decide (r ∈ held) then None else Some ({[r]} ∪ held)
  | Released r =>
      if decide (r ∈ held ∧ set_Forall (λ r', lives_in r' r = false) held)
      then Some (held ∖ {[r]}) else None
  end.

Definition replay (log : list event) : option (gset resource) :=
  foldl (λ o e, o ≫= λ held, check_event held e) (Some ∅) log.

Lemma replay_snoc log e : replay (log ++ [e]) = (replay log ≫= λ held, check_event held e).
Proof. unfold replay. by rewrite foldl_app. Qed.

(** ** What a launch owns *)

Record owned := Own {
  o_instance : bool;
  o_net : StagedNet;
  o_slice : option string;
  o_cid : option CidGuard;
  o_scratch : option string;
  o_vmid : option VmidGuard;
}.

Definition nothing : owned := Own false staged_empty None None None None.

Definition holds (o : owned) (r : resource) : bool :=
  match r with
  | RInstance => o_instance o
  | RNat => bool_decide (is_Some (s_smoltcp (o_net o)))
  | RProxy => bool_decide (is_Some (s_proxy (o_net o)))
  | RNetns => bool_decide (is_Some (s_netns (o_net o)))
  | RMember => bool_decide (is_Some (s_segment (o_net o)))
  | RSlice => bool_decide (is_Some (o_slice o))
  | RBaked => bool_decide (is_Some (o_cid o ≫= cg_baked))
  | RCid => bool_decide (is_Some (o_cid o))
  | RScratch => bool_decide (is_Some (o_scratch o))
  | RLineage => bool_decide (is_Some (o_vmid o ≫= g_lineage))
  | RVmid => bool_decide (is_Some (o_vmid o))
  end.

Definition kinds (o : owned) : gset resource := list_to_set (filter (λ r, holds o r = true) teardown_law).

Lemma law_elem r : r ∈ teardown_law.
Proof. refine (bool_decide_unpack _ _). destruct r; vm_compute; exact I. Qed.

Lemma kinds_elem o r : r ∈ kinds o ↔ holds o r = true.
Proof.
  unfold kinds. rewrite elem_of_list_to_set, list_elem_of_filter. split; [by intros []|].
  split; [done|apply law_elem].
Qed.

Definition logged (o : owned) (h : host) : Prop := replay (h_log h) = Some (kinds o).

Lemma logged_holds o o' h : logged o h → (∀ r, holds o' r = holds o r) → logged o' h.
Proof.
  unfold logged. intros -> H. f_equal. apply set_eq. intros r. by rewrite !kinds_elem, H.
Qed.

(** Taking and releasing, one resource at a time. *)
Lemma log_took r o o' h :
  logged o h → holds o r = false →
  (∀ r', holds o' r' = bool_decide (r' = r) || holds o r') → logged o' (note (Took r) h).
Proof.
  unfold logged. intros Hl Hr Ho. cbn [h_log note]. rewrite replay_snoc, Hl. cbn [mbind option_bind check_event].
  rewrite decide_False by (rewrite kinds_elem; congruence). f_equal. apply set_eq. intros r'.
  rewrite elem_of_union, elem_of_singleton, !kinds_elem, Ho, orb_true_iff, bool_decide_eq_true. done.
Qed.

Lemma log_released r o o' h :
  logged o h → holds o r = true → (∀ r', holds o r' = true → lives_in r' r = false) →
  (∀ r', holds o' r' = negb (bool_decide (r' = r)) && holds o r') → logged o' (note (Released r) h).
Proof.
  unfold logged. intros Hl Hr Hlive Ho. cbn [h_log note]. rewrite replay_snoc, Hl. cbn [mbind option_bind check_event].
  rewrite decide_True; [|split; [by apply kinds_elem|]; intros r' Hr'%kinds_elem; by apply Hlive].
  f_equal. apply set_eq. intros r'.
  rewrite elem_of_difference, elem_of_singleton, !kinds_elem, Ho, andb_true_iff, negb_true_iff, bool_decide_eq_false.
  tauto.
Qed.

(** ** What each component looks like meanwhile *)

Definition vmid_ids (g : option VmidGuard) : gset N :=
  match g with Some g => {[g_vmid g]} ∪ list_to_set (option_list (g_lineage g)) | None => ∅ end.

Definition cid_ids (c : option CidGuard) : gset N :=
  match c with Some c => {[cg_cid c]} ∪ list_to_set (option_list (cg_baked c)) | None => ∅ end.

(** No lock file but those of [ids] that was not there before. *)
Definition locks_within (ids : gset N) (c0 c : FsIdClaim) : Prop :=
  match c0, c with
  | None, None => True
  | Some l0, Some l => ∀ i x, l !! i = Some x → i ∈ ids ∨ l0 !! i = Some x
  | _, _ => False
  end.

Definition ids_ok (a0 : IdAllocator) (g : option VmidGuard) (a : IdAllocator) : Prop :=
  active a = vmid_ids g ∪ active a0 ∧ vmid_ids g ## active a0 ∧
  locks_within (vmid_ids g) (claim a0) (claim a).

Definition cids_ok (p0 : CidPool) (c : option CidGuard) (p : CidPool) : Prop :=
  cid_pool_ok p ∧ (∀ x, x ∈ cids p ↔ x ∈ cid_ids c ∨ x ∈ cids p0) ∧
  ∀ x, x ∈ cid_ids c → x ∉ cids p0.

Definition net_ok (st : StagedNet) (h0 h : host) : Prop :=
  match s_netns st, s_segment st with
  | None, None => nets (h_kernel h) = nets (h_kernel h0) ∧ ∀ i, h_slots h !!! i = h_slots h0 !!! i
  | Some n, None =>
      nn_deleted n = false ∧ nets (h_kernel h0) !! nn_name n = None ∧
      (∃ s, nets (h_kernel h) = <[nn_name n := s]> (nets (h_kernel h0))) ∧
      ∀ i, h_slots h !!! i = h_slots h0 !!! i
  | None, Some m =>
      (∃ s l, nets (h_kernel h0) !! m_netns m = Some s ∧ links s !! m_tap_name m = None ∧
         nets (h_kernel h) =
           <[m_netns m := with_links s (<[m_tap_name m := l]> (links s))]> (nets (h_kernel h0))) ∧
      (h_slots h0 !!! m_segid m) !! m_slot m = None ∧
      (∃ v, h_slots h !!! m_segid m = <[m_slot m := v]> (h_slots h0 !!! m_segid m)) ∧
      ∀ i, i ≠ m_segid m → h_slots h !!! i = h_slots h0 !!! i
  | Some _, Some _ => False
  end.

Definition fresh_slice (fs0 : cgfs) (s : string) : Prop :=
  s ≠ "" ∧ s ∉ dirs fs0 ∧ (∀ d, d ∈ dirs fs0 → is_below s d = false) ∧
  ∀ d, d ∈ ancestors s → d = s ∨ d ∈ dirs fs0.

Definition cg_ok (fs0 : cgfs) (s : option string) (fs : cgfs) : Prop :=
  match s with
  | Some s => fresh_slice fs0 s ∧ dirs fs = {[s]} ∪ dirs fs0
  | None => dirs fs = dirs fs0
  end.

Definition scratch_ok (d0 : gset string) (d : option string) (ds : gset string) : Prop :=
  match d with
  | Some d => d ∉ d0 ∧ ds = {[d]} ∪ d0
  | None => ds = d0
  end.

Definition state (h0 : host) (o : owned) (h : host) : Prop :=
  ids_ok (h_vmids h0) (o_vmid o) (h_vmids h) ∧ cids_ok (h_cids h0) (o_cid o) (h_cids h) ∧
  net_ok (o_net o) h0 h ∧ cg_ok (h_cgroups h0) (o_slice o) (h_cgroups h) ∧
  scratch_ok (h_scratch h0) (o_scratch o) (h_scratch h).

(** The host as it was: ids, CIDs, namespaces, slots, slices and scratch
    directories; stale lock files may be gone. *)
Definition restored (h0 h : host) : Prop :=
  active (h_vmids h) = active (h_vmids h0) ∧ locks_within ∅ (claim (h_vmids h0)) (claim (h_vmids h)) ∧
  (∀ c, c ∈ cids (h_cids h) ↔ c ∈ cids (h_cids h0)) ∧
  nets (h_kernel h) = nets (h_kernel h0) ∧ (∀ i, h_slots h !!! i = h_slots h0 !!! i) ∧
  dirs (h_cgroups h) = dirs (h_cgroups h0) ∧ h_scratch h = h_scratch h0.

Lemma state_restored h0 h : state h0 nothing h → restored h0 h.
Proof.
  intros ((Ha & _ & Hl) & (_ & Hc & _) & (Hn & Hs) & Hg & Hd). cbn in *.
  split_and!; try done; [by rewrite Ha, (left_id_L ∅ (∪))|]. intros c. rewrite Hc. set_solver.
Qed.

(** *** Ids *)

Lemma locks_within_mono (s s' : gset N) c0 c : s ⊆ s' → locks_within s c0 c → locks_within s' c0 c.
Proof. intros Hs. destruct c0, c; cbn; try done. intros H i x [?|?]%H; [left; set_solver|by right]. Qed.

Lemma locks_insert s c0 c id x : locks_within s c0 c → locks_within ({[id]} ∪ s) c0 (<[id := x]> <$> c).
Proof.
  destruct c0, c; cbn; try done. intros H i y. destruct (decide (i = id)) as [->|Hne]; [set_solver|].
  rewrite lookup_insert_ne by done. intros [?|?]%H; [left; set_solver|by right].
Qed.

Lemma locks_delete s c0 c id : locks_within s c0 c → locks_within (s ∖ {[id]}) c0 (delete id <$> c).
Proof.
  destruct c0, c; cbn; try done. intros H i y (Hne & Hi)%lookup_delete_Some.
  apply H in Hi as [?|?]; [left; set_solver|by right].
Qed.

Section ids.
Context {CL : ClaimHost}.

Lemma try_claim_locks s c0 c id :
  locks_within s c0 c →
  match try_claim c id with
  | (Ok true, c') => locks_within ({[id]} ∪ s) c0 c'
  | (_, c') => locks_within s c0 c'
  end.
Proof.
  intros H. pose proof (try_claim_spec c id) as S. destruct (try_claim c id) as [[[]|e] c'].
  - destruct S as [_ ->]. by apply locks_insert.
  - by destruct S as [_ ->].
  - destruct S as (op & _ & _ & [->|[_ ->]]); [done|].
    eapply locks_within_mono; [|by apply locks_delete]. set_solver.
Qed.

Lemma allocate_loop_ids ids : ∀ a0 a,
  ids_ok a0 None a →
  match allocate_loop a ids with
  | (Ok v, a') => ids_ok a0 (Some {| g_vmid := v; g_lineage := None |}) a' ∧ v ∉ active a0
  | (Err _, a') => ids_ok a0 None a'
  end.
Proof.
  unfold ids_ok. cbn [vmid_ids g_vmid g_lineage option_list list_to_set].
  induction ids as [|id ids IH]; intros a0 a (Ha & Hd & Hl); cbn [allocate_loop]; [done|].
  rewrite (left_id_L ∅ (∪)) in Ha. case_decide as Hin; [apply IH; by rewrite Ha, (left_id_L ∅ (∪))|].
  pose proof (try_claim_locks _ _ _ id Hl) as T. destruct (try_claim (claim a) id) as [[[]|e] c]; cbn.
  - rewrite !(right_id_L ∅ (∪)), Ha in *. split_and!; try done. set_solver.
  - apply IH. cbn. by rewrite Ha, (left_id_L ∅ (∪)).
  - by rewrite Ha, (left_id_L ∅ (∪)).
Qed.

Lemma reserve_ids a0 g a v :
  ids_ok a0 g a →
  match reserve a v with
  | (Ok _, a') => v ∉ vmid_ids g ∪ active a0 ∧ active a' = {[v]} ∪ active a ∧
      locks_within ({[v]} ∪ vmid_ids g) (claim a0) (claim a')
  | (Err _, a') => ids_ok a0 g a'
  end.
Proof.
  intros (Ha & Hd & Hl). unfold reserve. destruct (negb _); [by split_and!|].
  case_decide as Hin; [by split_and!|]. pose proof (try_claim_locks _ _ _ v Hl) as T.
  destruct (try_claim (claim a) v) as [[[]|e] c]; unfold ids_ok; cbn; rewrite ?Ha in *; done.
Qed.

Lemma adopt_ids a0 v a ancestor r g' a' :
  ids_ok a0 (Some {| g_vmid := v; g_lineage := None |}) a →
  adopt_lineage {| g_vmid := v; g_lineage := None |} a ancestor = (r, g', a') →
  ids_ok a0 (Some g') a' ∧ g_vmid g' = v.
Proof.
  intros Ha. unfold adopt_lineage. cbn [g_vmid g_lineage]. case_decide; [by intros [= <- <- <-]|].
  pose proof (reserve_ids _ _ _ ancestor Ha) as R.
  destruct (reserve a ancestor) as [[x|e] a1].
  - intros [= <- <- <-]. split; [|done]. destruct R as (Hn & Hact & Hl). destruct Ha as (Ha & Hd & _).
    unfold ids_ok. cbn in *. rewrite Hact, Ha. split_and!; [set_solver..|].
    eapply locks_within_mono; [|exact Hl]. set_solver.
  - by destruct e; intros [= <- <- <-].
Qed.

Lemma release_locks (s : gset N) c0 c id :
  claim_fails OpRemove id = false → locks_within s c0 c → locks_within (s ∖ {[id]}) c0 (release_claim c id).
Proof. intros Hq H%(locks_delete _ _ _ id). destruct c; cbn in *; [by rewrite Hq|done]. Qed.

Lemma drop_ids a0 g a :
  (∀ id, claim_fails OpRemove id = false) → ids_ok a0 (Some g) a → ids_ok a0 None (drop_vmid_guard g a).
Proof.
  intros Hq (Ha & Hd & Hl). unfold drop_vmid_guard, ids_ok, release. cbn [vmid_ids] in *.
  destruct (g_lineage g) as [l|]; cbn [option_list list_to_set active claim] in *; rewrite Ha.
  - split_and!; [set_solver|set_solver|]. eapply locks_within_mono; [|by apply release_locks, release_locks].
    set_solver.
  - split_and!; [set_solver|set_solver|]. eapply locks_within_mono; [|by apply release_locks]. set_solver.
Qed.
End ids.

(** *** CIDs *)

Lemma alloc_cids p0 p :
  cids_ok p0 None p →
  match cid_allocate p with
  | (Ok c, p') => cids_ok p0 (Some {| cg_cid := c; cg_baked := None |}) p'
  | (Err _, p') => cids_ok p0 None p'
  end.
Proof.
  intros (Hp & Hc & Hf). pose proof (cid_apply_ok p CidAllocate Hp) as Hp'.
  pose proof (cid_allocate_walk p Hp) as Hw. cbn [cid_apply] in Hp'. cbn zeta in Hw.
  unfold cid_allocate in *. destruct (MAX_GUEST_CID <? _)%N; [by split_and!|].
  revert Hw Hp'. generalize (cid_walk (next_free p) (bt_range (next_free p) (cids p))). intros c (_ & Hn & _) Hp'.
  split_and!; [done| |]; cbn [cid_ids cg_cid cg_baked option_list list_to_set cids] in *.
  - intros x. rewrite bt_insert_elem, Hc. set_solver.
  - intros x Hx Hin. assert (x = c) as -> by set_solver. apply Hn, Hc. by right.
Qed.

Lemma adopt_cids p0 c p baked r c' p' :
  cids_ok p0 (Some {| cg_cid := c; cg_baked := None |}) p →
  adopt_baked_cid {| cg_cid := c; cg_baked := None |} p baked = (r, c', p') → cids_ok p0 (Some c') p'.
Proof.
  intros Hok. pose proof Hok as (Hp & Hc & Hf). unfold adopt_baked_cid. cbn [cg_cid].
  case_decide; [by intros [= <- <- <-]|]. pose proof (cid_apply_ok p (CidReserve baked) Hp) as Hp'.
  cbn [cid_apply] in Hp'. unfold cid_reserve in *. destruct (negb _); [by intros [= <- <- <-]|].
  case_decide as Hin; intros [= <- <- <-]; [done|]. split; [done|].
  cbn [cid_ids cg_cid cg_baked option_list list_to_set cids] in *. split.
  - intros x. rewrite bt_insert_elem, Hc. set_solver.
  - intros x Hx Hx0. assert (x = c ∨ x = baked) as [-> | ->] by set_solver.
    + by eapply (Hf c); [set_solver|].
    + apply Hin, Hc. by right.
Qed.

Lemma drop_cids p0 c p : cids_ok p0 (Some c) p → cids_ok p0 None (drop_cid_guard c p).
Proof.
  intros (Hp & Hc & Hf). unfold drop_cid_guard.
  assert (∀ q x, x ∈ cids (cid_release q (cg_cid c)) ↔ x ∈ cids q ∧ x ≠ cg_cid c) as Hr.
  { intros q x. cbn. unfold bt_remove. rewrite list_elem_of_filter. tauto. }
  cbn [cid_ids] in *. destruct (cg_baked c) as [b|]; cbn [option_list list_to_set] in *.
  - split; [apply (cid_apply_ok _ (CidRelease _)), (cid_apply_ok _ (CidRelease b)), Hp|].
    split; [|set_solver]. intros x. rewrite Hr. cbn [cid_release cids]. unfold bt_remove.
    rewrite list_elem_of_filter, Hc. specialize (Hf x). set_solver.
  - split; [apply (cid_apply_ok _ (CidRelease _)), Hp|]. split; [|set_solver].
    intros x. rewrite Hr, Hc. specialize (Hf x). set_solver.
Qed.

(** *** Slices *)

Section slices.
Context {CG : CgroupHost}.

Lemma rmdir_fresh fs0 s fs :
  busy s = false → plain_fs = false → cg_ok fs0 (Some s) fs →
  ∃ fs', rmdir s fs = Ok fs' ∧ cg_ok fs0 None fs'.
Proof.
  intros Hb Hp ((Hne & Hn & Hbelow & _) & Hd). unfold rmdir.
  rewrite decide_False by (rewrite Hd; set_solver). rewrite Hb.
  rewrite decide_False.
  - rewrite Hp. cbn [andb]. eexists. split; [done|]. cbn. rewrite Hd. set_solver.
  - intros H. apply H, set_eq. intros d. rewrite elem_of_filter, Hd. split; [|set_solver].
    intros [Hs [->%elem_of_singleton|Hin]%elem_of_union].
    + by rewrite (ancestors_not_below s s (ancestors_self s)) in Hs.
    + by rewrite Hbelow in Hs.
Qed.

Lemma create_slice_ok fs0 s l fs :
  busy s = false → plain_fs = false → fresh_slice fs0 s → cg_ok fs0 None fs →
  match create_slice_at s l fs with
  | (Ok _, fs') => cg_ok fs0 (Some s) fs'
  | (Err _, fs') => cg_ok fs0 None fs'
  end.
Proof.
  intros Hb Hp Hf Hd. cbn in Hd. unfold create_slice_at. destruct (mkdir_fails s); [done|].
  rewrite apply_requested_all. destruct (limit_writes_files l) as [Hnd Hsub].
  set (fs1 := {| dirs := _ |}). pose proof (apply_all_frame s _ fs1 Hnd Hsub) as Hfr.
  destruct (apply_all s (limit_writes l) fs1) as [r fs2]. destruct Hfr as (Hd2 & _).
  assert (cg_ok fs0 (Some s) fs2) as Hok2.
  { split; [done|]. rewrite Hd2. cbn. rewrite Hd. destruct Hf as (_ & _ & _ & Hanc).
    pose proof (ancestors_self s) as Hself. apply set_eq. intros d.
    rewrite !elem_of_union, elem_of_list_to_set, elem_of_singleton. split; [|naive_solver].
    intros [H|H]; [|by right]. by apply Hanc. }
  rewrite bool_decide_false by (rewrite Hd; by destruct Hf as (_ & ? & _)).
  destruct r as [[]|e]; cbn [is_err is_ok negb andb]; [done|].
  destruct (rmdir_fresh _ _ _ Hb Hp Hok2) as (fs' & Hrm & Hok'). unfold remove_cgroup_leaf. by rewrite Hrm.
Qed.

Lemma delete_slice_ok fs0 s fs :
  busy s = false → plain_fs = false → cg_ok fs0 (Some s) fs → cg_ok fs0 None (delete_slice s fs).2.
Proof.
  intros Hb Hp Hok. unfold delete_slice. pose proof Hok as ((Hne & _) & _). rewrite decide_False by done.
  destruct (rmdir_fresh _ _ _ Hb Hp Hok) as (fs' & -> & Hok'). done.
Qed.
End slices.

(** *** The network *)

(** Hosts on which undoing works: a namespace or link that is there can be
    removed, a tap that could not be attached is removed again, nothing keeps
    a slice or a scratch directory, and lock files can be unlinked. *)
Record quiet `{NL : Netlink} `{CL : ClaimHost} `{CG : CgroupHost} `{LE : LaunchEnv} : Prop := {
  q_netns n k : is_Some (nets k !! n) → is_ok (delete_netns n k).1 = true;
  q_link ns l k s : nets k !! ns = Some s → is_Some (links s !! l) → is_ok (delete_link ns l k).1 = true;
  q_tap ns tap br k : is_ok (setup_tap_on_bridge ns tap br k).1 = false →
    nets (setup_tap_on_bridge ns tap br k).2 = nets k;
  q_busy s : busy s = false;
  q_plain : plain_fs = false;
  q_scratch d : rmdir_fails_at d = false;
  q_unlock id : claim_fails OpRemove id = false;
}.

Section network.
Context {CL : ClaimHost} {NL : Netlink} {CG : CgroupHost} {VMM : Vmm} {LE : LaunchEnv} (Q : quiet).
Implicit Types (h : host) (cfg : CellConfig).

Lemma set_net_same k s h h0 :
  nets k = nets (h_kernel h0) → (∀ i, s !!! i = h_slots h0 !!! i) → net_ok staged_empty h0 (set_net k s h).
Proof. by split. Qed.

Lemma ns_create_net prefix v h0 h :
  nets (h_kernel h0) !! netns_name prefix v = None → net_ok staged_empty h0 h →
  match in_kernel (ns_create prefix v) h with
  | (Ok n, h') => ∀ p, net_ok {| s_proxy := p; s_smoltcp := None; s_netns := Some n; s_segment := None |} h0 h'
  | (Err _, h') => net_ok staged_empty h0 h'
  end.
Proof.
  intros Hfree (Hn & Hs). unfold in_kernel.
  pose proof (λ n k', ns_create_Ok prefix v (h_kernel h) n k' ltac:(by rewrite Hn)) as Hok.
  unfold ns_create, mbind, M_bind, on_error in *. set (name := netns_name prefix v) in *.
  pose proof (add_netns_law name (h_kernel h)) as Ha.
  destruct (add_netns name (h_kernel h)) as [[u|e] k1]; [|apply set_net_same; [by rewrite Ha|done]].
  destruct Ha as (_ & Ho1 & _). pose proof (setup_tap_law name (tap_name prefix v) v k1) as Ht.
  destruct (setup_tap name (tap_name prefix v) v k1) as [[w|e] k2].
  - cbn. intros p. destruct (Hok _ _ eq_refl) as (_ & s & Hk & _). split_and!; try done.
    exists s. by rewrite Hk, Hn.
  - destruct Ht as [Ho2 _]. assert (only_ns name (nets (h_kernel h)) (nets k2)) as Ho by by eapply only_ns_trans.
    pose proof (delete_netns_law name k2) as D. pose proof (q_netns Q name k2) as Hq.
    destruct (delete_netns name k2) as [r k3] eqn:Ed. cbn [snd]. apply set_net_same; [|done].
    destruct (undo_made_ns name (h_kernel h) k2 r k3 ltac:(by rewrite Hn) Ho Ed) as [->|(s & e2 & Hk3 & ->)]; [done|].
    exfalso. assert (is_Some (nets k2 !! name)) as H2 by (rewrite <- D, Hk3, lookup_insert_eq; by eexists).
    by specialize (Hq H2).
Qed.

(** Later changes inside the VM's own namespace. *)
Lemma in_kernel_inside {A} (m : M A) n p q h0 h :
  net_ok {| s_proxy := p; s_smoltcp := None; s_netns := Some n; s_segment := None |} h0 h →
  (let '(_, k') := m (h_kernel h) in
   only_ns (nn_name n) (nets (h_kernel h)) (nets k') ∧
   (is_Some (nets (h_kernel h) !! nn_name n) → is_Some (nets k' !! nn_name n))) →
  match in_kernel m h with
  | (_, h') => net_ok {| s_proxy := q; s_smoltcp := None; s_netns := Some n; s_segment := None |} h0 h'
  end.
Proof.
  intros (Hd & Hfree & (s & Hk) & Hs) H. unfold in_kernel.
  assert (∀ k', only_ns (nn_name n) (nets (h_kernel h)) (nets k') →
    is_Some (nets k' !! nn_name n) → ∃ s', nets k' = <[nn_name n := s']> (nets (h_kernel h0))) as Hw.
  { intros k' Ho [s' Hs']. exists s'. apply only_ns_insert_None; [done| |done].
    eapply only_ns_trans; [|exact Ho]. rewrite Hk. intros x Hx. by rewrite lookup_insert_ne. }
  destruct (m (h_kernel h)) as [r k']. destruct H as [Ho Hsome].
  assert (is_Some (nets k' !! nn_name n)) as Hs' by (apply Hsome; rewrite Hk, lookup_insert_eq; by eexists).
  destruct r; split_and!; try done; by apply Hw.
Qed.

Lemma proxy_rules_inside n port k :
  let '(_, k') := emit_proxy_rules nft_apply n port k in
  only_ns (nn_name n) (nets k) (nets k') ∧ (is_Some (nets k !! nn_name n) → is_Some (nets k' !! nn_name n)).
Proof. apply proxy_rules_stay, nft_law. Qed.

Lemma drop_netns_net p q n h0 h :
  net_ok {| s_proxy := p; s_smoltcp := q; s_netns := Some n; s_segment := None |} h0 h →
  net_ok staged_empty h0 (drop_netns n h).
Proof.
  intros (Hd & Hfree & (s & Hk) & Hs). unfold drop_netns, ns_drop, ns_delete. rewrite Hd.
  pose proof (delete_netns_law (nn_name n) (h_kernel h)) as D.
  pose proof (q_netns Q (nn_name n) (h_kernel h)) as Hq. rewrite Hk, lookup_insert_eq in Hq.
  specialize (Hq ltac:(by eexists)). destruct (delete_netns (nn_name n) (h_kernel h)) as [[u|e] k']; [|done].
  apply set_net_same; [|done]. cbn. rewrite D, Hk, delete_insert_eq. by rewrite delete_id.
Qed.

Lemma claim_member_net seg v h0 h :
  net_ok staged_empty h0 h →
  let '(r, slots, k) := claim_member seg (h_slots h !!! seg_segid seg) v (h_kernel h) in
  let h' := set_net k (<[seg_segid seg := slots]> (h_slots h)) h in
  match r with
  | Ok m => net_ok {| s_proxy := None; s_smoltcp := None; s_netns := None; s_segment := Some m |} h0 h'
  | Err _ => net_ok staged_empty h0 h'
  end.
Proof.
  intros (Hn & Hs). unfold claim_member. rewrite Hs.
  pose proof (reserve_slot_spec (h_slots h0 !!! seg_segid seg) v) as S.
  assert (∀ (m : gmap N N) i, m = h_slots h0 !!! seg_segid seg →
    (<[seg_segid seg := m]> (h_slots h) : gmap N (gmap N N)) !!! i = h_slots h0 !!! i) as Hsame.
  { intros m i ->. destruct (decide (i = seg_segid seg)) as [->|Hi];
      [by rewrite lookup_total_insert_eq|by rewrite lookup_total_insert_ne]. }
  destruct (reserve_slot (h_slots h0 !!! seg_segid seg) v) as [[slot|e] slots].
  2: { apply set_net_same; [done|]. intros i. apply Hsame. destruct e; naive_solver. }
  destruct S as (_ & Hfree & -> & _). cbn [m_tap_name membership_of].
  pose proof (setup_tap_on_bridge_law (seg_netns seg) (tap_name (seg_prefix seg) v) (seg_bridge seg) (h_kernel h)) as L.
  pose proof (q_tap Q (seg_netns seg) (tap_name (seg_prefix seg) v) (seg_bridge seg) (h_kernel h)) as Hq.
  destruct (setup_tap_on_bridge _ _ _ _) as [[u|e] k'].
  - destruct L as (s & Hs0 & Ht & _ & Hk'). rewrite Hn in Hs0, Hk'. cbn. split_and!.
    + exists s, (attached (seg_bridge seg)). done.
    + done.
    + exists v. by rewrite lookup_total_insert_eq.
    + intros i Hi. by rewrite lookup_total_insert_ne.
  - apply set_net_same; [by rewrite <- Hn; apply Hq|]. intros i. apply Hsame.
    unfold Segment.release_slot. rewrite delete_insert_eq. by apply delete_id.
Qed.

Lemma drop_member_net p q m h0 h :
  net_ok {| s_proxy := p; s_smoltcp := q; s_netns := None; s_segment := Some m |} h0 h →
  net_ok staged_empty h0 (drop_segment_member m h).
Proof.
  intros ((s & l & Hs & Ht & Hk) & Hfree & (v & Hslot) & Hrest). unfold drop_segment_member, drop_member.
  pose proof (delete_link_law (m_netns m) (m_tap_name m) (h_kernel h)) as D.
  pose proof (q_link Q (m_netns m) (m_tap_name m) (h_kernel h)
    (with_links s (<[m_tap_name m := l]> (links s)))) as Hq.
  rewrite Hk, lookup_insert_eq in Hq. specialize (Hq eq_refl). cbn [links with_links] in Hq.
  rewrite lookup_insert_eq in Hq. specialize (Hq ltac:(by eexists)).
  destruct (delete_link (m_netns m) (m_tap_name m) (h_kernel h)) as [[u|e] k']; [|done].
  destruct D as (s' & Hs' & _ & D). rewrite Hk, lookup_insert_eq in Hs'. simplify_eq. cbn [snd].
  apply set_net_same.
  - rewrite D, Hk, insert_insert_eq. cbn [links with_links]. by rewrite undo_add.
  - intros i. rewrite Hslot. unfold Segment.release_slot. rewrite delete_insert_eq, delete_id by done.
    destruct (decide (i = m_segid m)) as [->|Hi];
      [by rewrite lookup_total_insert_eq|rewrite lookup_total_insert_ne by done; by apply Hrest].
Qed.
End network.

(** ** The invariant and the steps of a launch *)

Definition slice_of `{LE : LaunchEnv} (cfg : CellConfig) (v : N) : string :=
  vm_slice_name proc_self_cgroup (resource_prefix cfg) v.
Definition scratch_of `{CL : ClaimHost} `{LE : LaunchEnv} (cfg : CellConfig) (v : N) : string :=
  per_vm_scratch_dir (resource_prefix cfg) temp_dir self_pid v.

(** An id nobody here uses names nothing yet. *)
Record ready `{CL : ClaimHost} `{LE : LaunchEnv} (cfg : CellConfig) (h0 : host) : Prop := {
  r_netns v : v ∉ active (h_vmids h0) → nets (h_kernel h0) !! netns_name (resource_prefix cfg) v = None;
  r_slice v : v ∉ active (h_vmids h0) → fresh_slice (h_cgroups h0) (slice_of cfg v);
  r_scratch v : v ∉ active (h_vmids h0) → scratch_of cfg v ∉ h_scratch h0;
  r_pool : cid_pool_ok (h_cids h0);
}.

Section launch.
Context {CL : ClaimHost} {NL : Netlink} {CG : CgroupHost} {VMM : Vmm} {LE : LaunchEnv}.
Context (cfg : CellConfig) (h0 : host).
Implicit Types (h : host) (o : owned).

Definition calm : Prop := quiet ∧ ready cfg h0.

Definition Inv (o : owned) (h : host) : Prop := logged o h ∧ (calm → state h0 o h).

Lemma inv_init : h_log h0 = [] → Inv nothing h0.
Proof.
  intros Hl. split.
  - unfold logged. rewrite Hl. cbn. f_equal.
  - intros [_ R]. unfold state. cbn. split_and!; try done.
    + unfold ids_ok. cbn. split_and!; [set_solver|set_solver|]. destruct (claim (h_vmids h0)); [by right|done].
    + split_and!; [apply (r_pool _ _ R)| |]; set_solver.
Qed.

Lemma inv_vmid h :
  Inv nothing h →
  match take_vmid cfg h with
  | (Ok g, h') => g_lineage g = None ∧ Inv (Own false staged_empty None None None (Some g)) h'
  | (Err _, h') => Inv nothing h'
  end.
Proof.
  intros [Hl Hs]. unfold take_vmid. set (r := match fixed_vmid cfg with Some v => _ | None => _ end).
  assert (calm → match r with
    | (Ok v, a) => ids_ok (h_vmids h0) (Some {| g_vmid := v; g_lineage := None |}) a
    | (Err _, a) => ids_ok (h_vmids h0) None a end) as Hids.
  { intros (Hi & _)%Hs. cbn [o_vmid nothing] in Hi. subst r. destruct (fixed_vmid cfg) as [v|].
    - pose proof (reserve_ids _ _ _ v Hi) as R. pose proof (λ x a, reserve_Ok (h_vmids h) v x a) as E.
      destruct (reserve (h_vmids h) v) as [[x|e] a]; [|done]. rewrite (E x a eq_refl).
      destruct R as (Hn & Ha & Hlk), Hi as (Hi & _). unfold ids_ok. cbn in *.
      rewrite Ha, Hi, !(right_id_L ∅ (∪)), !(left_id_L ∅ (∪)) in *. split_and!; [done|set_solver|done].
    - pose proof (allocate_loop_ids (seeded_id_order (subsec_nanos (h_log h)) MAX_VMID) _ _ Hi) as A.
      unfold allocate_vmid, allocate. destruct (allocate_loop _ _) as [[x|e] a]; [by destruct A|done]. }
  destruct r as [[v|e] a].
  - split; [done|]. split.
    + eapply log_took; [exact Hl|done|by intros []].
    + intros Hc. pose proof (Hs Hc) as (_ & ?). split; [by apply Hids|done].
  - split; [exact Hl|]. intros Hc. pose proof (Hs Hc) as (_ & ?). split; [by apply Hids|done].
Qed.

Lemma fresh_vmid o g h : Inv o h → o_vmid o = Some g → calm → g_vmid g ∉ active (h_vmids h0).
Proof. intros [_ Hs] Hg Hc. destruct (Hs Hc) as ((_ & Hd & _) & _). rewrite Hg in Hd. cbn in Hd. set_solver. Qed.

Lemma inv_scratch g h :
  Inv (Own false staged_empty None None None (Some g)) h →
  match take_scratch cfg (g_vmid g) h with
  | (Ok d, h') => Inv (Own false staged_empty None None (Some d) (Some g)) h'
  | (Err _, h') => Inv (Own false staged_empty None None None (Some g)) h'
  end.
Proof.
  intros HI. pose proof HI as [Hl Hs]. unfold take_scratch. cbv zeta.
  set (d := per_vm_scratch_dir _ _ _ _). destruct (mkdir_fails_at d); [done|]. split.
  - eapply log_took; [exact Hl|done|by intros []].
  - intros Hc. destruct (Hs Hc) as (Hi & Hci & Hn & Hg & Hd). split_and!; try done. cbn in *.
    split; [|by rewrite Hd]. apply (r_scratch _ _ (proj2 Hc)). by eapply fresh_vmid.
Qed.

Lemma inv_drop_scratch d g h :
  Inv (Own false staged_empty None None (Some d) (Some g)) h →
  Inv (Own false staged_empty None None None (Some g)) (drop_scratch d h).
Proof.
  intros [Hl Hs]. unfold drop_scratch. split.
  - eapply log_released; [destruct (rmdir_fails_at d); exact Hl|done|by intros []|by intros []].
  - intros Hc. destruct (Hs Hc) as (Hi & Hci & Hn & Hg & Hd & Hds). cbn in *.
    rewrite (q_scratch (proj1 Hc)). split_and!; try done. cbn. rewrite Hds. set_solver.
Qed.

Lemma inv_drop_vmid g h :
  Inv (Own false staged_empty None None None (Some g)) h → Inv nothing (drop_vmid g h).
Proof.
  intros [Hl Hs]. split.
  - unfold drop_vmid. destruct (g_lineage g) as [a|] eqn:Eg.
    + eapply log_released with (o := Own false staged_empty None None None
        (Some {| g_vmid := g_vmid g; g_lineage := None |})); [|done|by intros []|by intros []].
      eapply log_released; [exact Hl|cbn; by rewrite Eg|by intros []|].
      intros []; cbn; rewrite ?Eg; done.
    + eapply log_released; [exact Hl|done|by intros []|]. intros []; cbn; rewrite ?Eg; done.
  - intros Hc. destruct (Hs Hc) as (Hi & Hrest).
    assert (h_vmids (drop_vmid g h) = drop_vmid_guard g (h_vmids h)) as E
      by (unfold drop_vmid; by destruct (g_lineage g)).
    split; [rewrite E; apply drop_ids; [apply (q_unlock (proj1 Hc))|done]|].
    unfold drop_vmid. by destruct (g_lineage g).
Qed.

(** *** The network *)

Lemma inv_release_net st sl c d g h :
  Inv (Own false st sl c d g) h → Inv (Own false staged_empty sl c d g) (release_net_before_netns st h).
Proof.
  intros [Hl Hs]. destruct st as [px nat ns m]. split.
  - unfold release_net_before_netns. cbn [s_proxy s_smoltcp s_netns s_segment].
    assert (∀ A r (x : option A) f o o' h, logged o h → (∀ a h, h_log (f a h) = h_log h) →
      holds o r = bool_decide (is_Some x) → (∀ r', holds o r' = true → lives_in r' r = false) →
      (∀ r', holds o' r' = negb (bool_decide (r' = r)) && holds o r') →
      logged o' (release_slot r x f h)) as Hrel.
    { intros A r [a|] f o o' h1 H1 Hf Hr Hlive Ho; cbn.
      - eapply log_released; [|exact Hr|exact Hlive|exact Ho]. unfold logged. rewrite Hf. exact H1.
      - unfold logged. rewrite H1. f_equal. apply set_eq. intros r'. rewrite !kinds_elem, Ho.
        destruct (decide (r' = r)) as [->|Hne]; [rewrite Hr, (bool_decide_true (r = r)) by done; by split|by rewrite bool_decide_false]. }
    eapply (Hrel _ RMember) with (o := Own false {| s_proxy := None; s_smoltcp := None; s_netns := None; s_segment := m |} sl c d g);
      [|intros ? ?; unfold drop_segment_member; by destruct (drop_member _ _ _)|done|by intros []|by intros []].
    eapply (Hrel _ RNetns) with (o := Own false {| s_proxy := None; s_smoltcp := None; s_netns := ns; s_segment := m |} sl c d g);
      [|done|done|by intros []|by intros []].
    eapply (Hrel _ RProxy) with (o := Own false {| s_proxy := px; s_smoltcp := None; s_netns := ns; s_segment := m |} sl c d g);
      [|done|done|by intros []|by intros []].
    eapply (Hrel _ RNat); [exact Hl|done|done|by intros []|by intros []].
  - intros Hc. destruct (Hs Hc) as (Hi & Hci & Hn & Hg & Hd). cbn [o_net o_vmid o_cid o_slice o_scratch] in *.
    set (h' := release_net_before_netns _ h).
    assert (h_vmids h' = h_vmids h ∧ h_cids h' = h_cids h ∧ h_cgroups h' = h_cgroups h ∧
      h_scratch h' = h_scratch h) as (E1 & E2 & E3 & E4).
    { subst h'. unfold release_net_before_netns, release_slot. cbn.
      destruct px, nat, ns, m; cbn; unfold drop_segment_member;
        repeat match goal with |- context [drop_member ?a ?b ?c] => destruct (drop_member a b c) end; done. }
    unfold state. cbn [o_net o_vmid o_cid o_slice o_scratch]. rewrite E1, E2, E3, E4. split_and!; try done.
    subst h'. unfold release_net_before_netns, release_slot. cbn [s_proxy s_smoltcp s_netns s_segment].
    destruct Hc as [Hq _]. unfold net_ok in Hn. cbn [s_netns s_segment] in Hn.
    destruct ns as [n|], m as [m|]; [done| | |].
    + destruct px, nat; apply (drop_netns_net Hq None None); exact Hn.
    + destruct px, nat; apply (drop_member_net Hq None None); exact Hn.
    + by destruct px, nat.
Qed.

Definition staged (st : StagedNet) (d : string) (g : VmidGuard) : owned :=
  Own false st None None (Some d) (Some g).

Lemma inv_set_net st st' d g h k s :
  Inv (staged st d g) h → (∀ r, holds (staged st' d g) r = holds (staged st d g) r) →
  (calm → net_ok st h0 h → net_ok st' h0 (set_net k s h)) → Inv (staged st' d g) (set_net k s h).
Proof.
  intros [Hl Hs] Hh Hn. split.
  - unfold logged. cbn [h_log set_net]. rewrite Hl. f_equal. apply set_eq. intros r. by rewrite !kinds_elem, Hh.
  - intros Hc. destruct (Hs Hc) as (Hi & Hci & Hn0 & Hg & Hd).
    exact (conj Hi (conj Hci (conj (Hn Hc Hn0) (conj Hg Hd)))).
Qed.

Lemma inv_took_net r st st' d g h :
  Inv (staged st d g) h → holds (staged st d g) r = false →
  (∀ r', holds (staged st' d g) r' = bool_decide (r' = r) || holds (staged st d g) r') →
  (calm → net_ok st' h0 h) → Inv (staged st' d g) (note (Took r) h).
Proof.
  intros [Hl Hs] Hr Ho Hn. split; [by eapply log_took|].
  intros Hc. destruct (Hs Hc) as (Hi & Hci & _ & Hg & Hd). exact (conj Hi (conj Hci (conj (Hn Hc) (conj Hg Hd)))).
Qed.

(** A call inside the VM's own namespace. *)
Lemma inv_inside {A} (m : M A) n px d g h :
  let st := {| s_proxy := px; s_smoltcp := None; s_netns := Some n; s_segment := None |} in
  (let '(_, k') := m (h_kernel h) in
   only_ns (nn_name n) (nets (h_kernel h)) (nets k') ∧
   (is_Some (nets (h_kernel h) !! nn_name n) → is_Some (nets k' !! nn_name n))) →
  Inv (staged st d g) h → match in_kernel m h with (_, h') => Inv (staged st d g) h' end.
Proof.
  cbn zeta. intros Hm HI.
  assert (calm → match in_kernel m h with
    | (_, h') => net_ok {| s_proxy := px; s_smoltcp := None; s_netns := Some n; s_segment := None |} h0 h' end) as Hn.
  { intros Hc. apply (in_kernel_inside m n px px); [|exact Hm]. apply (proj2 HI Hc). }
  unfold in_kernel in *. destruct (m (h_kernel h)) as [[a|e] k'];
    (eapply inv_set_net; [exact HI|done|by auto]).
Qed.

Lemma inv_setup_net d g h :
  Inv (staged staged_empty d g) h →
  match setup_net (g_vmid g) d cfg h with (_, st, h') => Inv (staged st d g) h' end.
Proof.
  intros HI. pose proof (λ Hc, proj2 HI Hc) as Hs. unfold setup_net. destruct (net cfg) as [egress|egress hp|seg|].
  - assert (calm → match in_kernel (ns_create (resource_prefix cfg) (g_vmid g)) h with
      | (Ok n, h') => ∀ p, net_ok {| s_proxy := p; s_smoltcp := None; s_netns := Some n; s_segment := None |} h0 h'
      | (Err _, h') => net_ok staged_empty h0 h' end) as Hns.
    { intros Hc. pose proof Hc as [Hq Hr]. apply (ns_create_net Hq); [|apply (Hs Hc)].
      apply (r_netns _ _ Hr). eapply fresh_vmid; [exact HI|done|done]. }
    unfold in_kernel at 1. unfold in_kernel in Hns.
    destruct (ns_create _ _ (h_kernel h)) as [[n|e] k1]; [|eapply inv_set_net; [exact HI|done|by auto]].
    set (h1 := set_net k1 (h_slots h) h) in *.
    set (st1 := {| s_proxy := None; s_smoltcp := None; s_netns := Some n; s_segment := None |}).
    assert (Inv (staged st1 d g) (note (Took RNetns) h1)) as H1.
    { split; [eapply log_took; [exact (proj1 HI)|done|by intros []]|]. intros Hc.
      destruct (Hs Hc) as (Hi & Hci & _ & Hg & Hd). refine (conj Hi (conj Hci (conj (Hns Hc None) (conj Hg Hd)))). }
    destruct (privileged_egress_rules egress) as [p| |]; [|
      pose proof (inv_inside (emit_blocked_rules nft_apply n) n None d g _ (nft_law _ _ _) H1) as H2;
      destruct (in_kernel _ _) as [[u|e] h2]; exact H2 | exact H1].
    destruct (proxy_start _ _ _ _) as [port|]; [|exact H1].
    assert (Inv (staged {| s_proxy := Some port; s_smoltcp := None; s_netns := Some n; s_segment := None |} d g)
      (note (Took RProxy) (note (Took RNetns) h1))) as H2.
    { eapply inv_took_net; [exact H1|done|by intros []|]. intros Hc. exact (Hns Hc (Some port)). }
    pose proof (inv_inside (emit_proxy_rules nft_apply n port) n (Some port) d g _ (proxy_rules_inside n port _) H2) as H3.
    destruct (in_kernel _ _) as [[u|e] h3]; exact H3.
  - assert (∀ px plan h, Inv (staged {| s_proxy := px; s_smoltcp := None; s_netns := None; s_segment := None |} d g) h →
      Inv (staged {| s_proxy := px; s_smoltcp := Some plan; s_netns := None; s_segment := None |} d g) (note (Took RNat) h)) as Hnat.
    { intros px plan h1 H1. eapply inv_took_net; [exact H1|done|by intros []|]. intros Hc. destruct (proj2 H1 Hc) as (_ & _ & Hn & _). exact Hn. }
    destruct egress as [p| |]; [|by apply Hnat..].
    destruct (proxy_start _ _ _ _) as [port|]; [|exact HI]. apply Hnat.
    eapply inv_took_net; [exact HI|done|by intros []|]. intros Hc. destruct (Hs Hc) as (_ & _ & Hn & _). exact Hn.
  - assert (calm → let '(r, slots, k) := claim_member seg (h_slots h !!! seg_segid seg) (g_vmid g) (h_kernel h) in
      let h' := set_net k (<[seg_segid seg := slots]> (h_slots h)) h in
      match r with
      | Ok m => net_ok {| s_proxy := None; s_smoltcp := None; s_netns := None; s_segment := Some m |} h0 h'
      | Err _ => net_ok staged_empty h0 h' end) as Hm.
    { intros Hc. apply (claim_member_net (proj1 Hc)). apply (Hs Hc). }
    destruct (claim_member _ _ _ _) as [[[m|e] slots] k]; [|eapply inv_set_net; [exact HI|done|by auto]].
    split; [eapply log_took; [exact (proj1 HI)|done|by intros []]|]. intros Hc.
    destruct (Hs Hc) as (Hi & Hci & _ & Hg & Hd). exact (conj Hi (conj Hci (conj (Hm Hc) (conj Hg Hd)))).
  - exact HI.
Qed.

(** *** Slice, CID, instance *)

Definition env_owned (i : bool) (st : StagedNet) (s : string) (c : CidGuard) (d : string) (g : VmidGuard) : owned :=
  Own i st (Some s) (Some c) (Some d) (Some g).

Lemma inv_take_slice st d g l h :
  Inv (staged st d g) h →
  match take_slice (slice_of cfg (g_vmid g)) l h with
  | (Ok _, h') => Inv (Own false st (Some (slice_of cfg (g_vmid g))) None (Some d) (Some g)) h'
  | (Err _, h') => Inv (staged st d g) h'
  end.
Proof.
  intros HI. pose proof HI as [Hl Hs]. unfold take_slice. set (s := slice_of cfg (g_vmid g)).
  assert (calm → match create_slice_at s l (h_cgroups h) with
    | (Ok _, fs') => cg_ok (h_cgroups h0) (Some s) fs' | (Err _, fs') => cg_ok (h_cgroups h0) None fs' end) as Hcg.
  { intros Hc. pose proof Hc as [Hq Hr]. destruct (Hs Hc) as (_ & _ & _ & Hg & _).
    apply create_slice_ok; [apply (q_busy Hq)|apply (q_plain Hq)| |exact Hg].
    apply (r_slice _ _ Hr). eapply fresh_vmid; [exact HI|done|done]. }
  destruct (create_slice_at s l (h_cgroups h)) as [[u|e] fs].
  - split; [eapply log_took; [exact Hl|done|by intros []]|]. intros Hc.
    destruct (Hs Hc) as (Hi & Hci & Hn & _ & Hd). exact (conj Hi (conj Hci (conj Hn (conj (Hcg Hc) Hd)))).
  - split; [exact Hl|]. intros Hc.
    destruct (Hs Hc) as (Hi & Hci & Hn & _ & Hd). exact (conj Hi (conj Hci (conj Hn (conj (Hcg Hc) Hd)))).
Qed.

Lemma inv_drop_slice st s c d g h :
  Inv (Own false st (Some s) c d g) h → Inv (Own false st None c d g) (drop_slice s h).
Proof.
  intros [Hl Hs]. split; [eapply log_released; [exact Hl|done|by intros []|by intros []]|].
  intros Hc. pose proof Hc as [Hq _]. destruct (Hs Hc) as (Hi & Hci & Hn & Hg & Hd).
  refine (conj Hi (conj Hci (conj Hn (conj _ Hd)))).
  apply (delete_slice_ok _ _ _ (q_busy Hq s) (q_plain Hq) Hg).
Qed.

Lemma inv_take_cid st s d g h :
  Inv (Own false st (Some s) None (Some d) (Some g)) h →
  match take_cid h with
  | (Ok c, h') => cg_baked c = None ∧ Inv (env_owned false st s c d g) h'
  | (Err _, h') => Inv (Own false st (Some s) None (Some d) (Some g)) h'
  end.
Proof.
  intros [Hl Hs]. unfold take_cid.
  assert (calm → match cid_allocate (h_cids h) with
    | (Ok c, p') => cids_ok (h_cids h0) (Some {| cg_cid := c; cg_baked := None |}) p'
    | (Err _, p') => cids_ok (h_cids h0) None p' end) as Hcid.
  { intros Hc. destruct (Hs Hc) as (_ & Hci & _). by apply alloc_cids. }
  destruct (cid_allocate (h_cids h)) as [[c|e] p].
  - split; [done|]. split; [eapply log_took; [exact Hl|done|by intros []]|]. intros Hc.
    destruct (Hs Hc) as (Hi & _ & Hrest). exact (conj Hi (conj (Hcid Hc) Hrest)).
  - split; [exact Hl|]. intros Hc. destruct (Hs Hc) as (Hi & _ & Hrest). exact (conj Hi (conj (Hcid Hc) Hrest)).
Qed.

Lemma inv_drop_cid st s c d g h :
  Inv (Own false st s (Some c) d g) h → Inv (Own false st s None d g) (drop_cid c h).
Proof.
  intros [Hl Hs]. split.
  - unfold drop_cid. destruct (cg_baked c) as [b|] eqn:Ec.
    + eapply log_released with (o := Own false st s (Some {| cg_cid := cg_cid c; cg_baked := None |}) d g);
        [|done|by intros []|by intros []].
      eapply log_released; [exact Hl|cbn; by rewrite Ec|by intros []|]. intros []; cbn; rewrite ?Ec; done.
    + eapply log_released; [exact Hl|done|by intros []|]. intros []; cbn; rewrite ?Ec; done.
  - intros Hc. destruct (Hs Hc) as (Hi & Hci & Hrest). unfold drop_cid.
    destruct (cg_baked c); exact (conj Hi (conj (drop_cids _ _ _ Hci) Hrest)).
Qed.

Lemma inv_drop_env st s c d g h :
  Inv (env_owned false st s c d g) h →
  ∀ r, Inv (staged staged_empty d g) (drop_env {| e_net := st; e_cgroup := s; e_cid := c; e_res := r |} h).
Proof. intros HI r. unfold drop_env. apply inv_drop_cid, inv_drop_slice, inv_release_net. exact HI. Qed.

Lemma inv_spawn call f st s c d g h :
  (∀ l fs, only_slice s fs (f l fs).2) → Inv (env_owned false st s c d g) h →
  match vmm_spawn call f h with
  | (Ok i, h') => Inv (env_owned true st s c d g) h'
  | (Err _, h') => Inv (env_owned false st s c d g) h'
  end.
Proof.
  intros Hf [Hl Hs]. unfold vmm_spawn. specialize (Hf (h_log h) (h_cgroups h)).
  assert (calm → cg_ok (h_cgroups h0) (Some s) (f (h_log h) (h_cgroups h)).2) as Hcg.
  { intros Hc. destruct (Hs Hc) as (_ & _ & _ & (Hfr & Hd) & _). split; [done|]. by rewrite (proj1 Hf). }
  destruct (f (h_log h) (h_cgroups h)) as [[i|] fs].
  - split; [eapply log_took; [exact Hl|done|by intros []]|]. intros Hc.
    destruct (Hs Hc) as (Hi & Hci & Hn & _ & Hd). exact (conj Hi (conj Hci (conj Hn (conj (Hcg Hc) Hd)))).
  - split; [exact Hl|]. intros Hc.
    destruct (Hs Hc) as (Hi & Hci & Hn & _ & Hd). exact (conj Hi (conj Hci (conj Hn (conj (Hcg Hc) Hd)))).
Qed.

Lemma inv_drop_instance st s c d g h :
  Inv (Own true st s c d g) h → Inv (Own false st s c d g) (drop_instance h).
Proof.
  intros [Hl Hs]. split; [eapply log_released; [exact Hl|done|by intros []|by intros []]|].
  intros Hc. exact (Hs Hc).
Qed.

(** *** Composition *)

Lemma inv_setup_env d g h :
  Inv (staged staged_empty d g) h →
  match setup_env (g_vmid g) d cfg h with
  | (Ok s, h') => e_cgroup s = slice_of cfg (g_vmid g) ∧ vr_cgroup (e_res s) = e_cgroup s ∧
      cg_baked (e_cid s) = None ∧ Inv (env_owned false (e_net s) (e_cgroup s) (e_cid s) d g) h'
  | (Err _, h') => Inv (staged staged_empty d g) h'
  end.
Proof.
  intros HI. unfold setup_env. pose proof (inv_setup_net d g h HI) as Hn.
  destruct (setup_net (g_vmid g) d cfg h) as [[[w|e] st] h1]; [|by apply inv_release_net].
  fold (slice_of cfg (g_vmid g)). unfold or_drop, mbind, VM_bind, guard_ok.
  destruct (assert_tap_wiring_matches _ _); [|by apply inv_release_net].
  pose proof (inv_take_slice st d g (limits cfg) h1 Hn) as H2.
  destruct (take_slice _ _ h1) as [[u|e] h2]; [|by apply inv_release_net].
  pose proof (inv_take_cid st _ d g h2 H2) as H3.
  destruct (take_cid h2) as [[c|e] h3]; [|apply inv_release_net; by apply inv_drop_slice in H3].
  destruct H3 as [Hb H3]. cbn. split_and!; try done.
Qed.

Lemma inv_boot st s c d g (f : list event → bool) h :
  Inv (env_owned true st s c d g) h →
  match or_drop (vmm_do VBoot f) drop_instance h with
  | (Ok _, h') => Inv (env_owned true st s c d g) h'
  | (Err _, h') => Inv (env_owned false st s c d g) h'
  end.
Proof. intros HI. unfold or_drop, vmm_do. destruct (f (h_log h)); [done|]. by apply inv_drop_instance. Qed.

Lemma inv_gate res st s c d g n : ∀ i h,
  vr_cgroup res = s → Inv (env_owned true st s c d g) h →
  match control_plane_gate n cfg res i h with
  | (Ok _, h') => Inv (env_owned true st s c d g) h'
  | (Err _, h') => Inv (env_owned false st s c d g) h'
  end.
Proof.
  induction n as [|n IH]; intros i h Hres HI; cbn [control_plane_gate];
    (destruct (verify_control_plane _ _ _); [done|]); [by apply inv_drop_instance|].
  unfold mbind, VM_bind, act. apply inv_drop_instance in HI.
  pose proof (inv_spawn VCreate (vmm_create cfg res) st s c d g _
    ltac:(intros; rewrite <- Hres; apply create_law) HI) as H1.
  destruct (vmm_spawn _ _ _) as [[i'|e] h1]; [|done].
  pose proof (inv_boot st s c d g (vmm_boot i') h1 H1) as H2.
  destruct (or_drop _ _ h1) as [[u|e] h2]; [|done]. by apply IH.
Qed.

Definition owned_by (v : MicroVm) : owned :=
  Own (bool_decide (is_Some (v_instance v))) (v_net v) (v_cgroup_name v) (v_cid v) (v_tmp_dir v) (v_vmid v).

Lemma inv_start :
  h_log h0 = [] →
  match start cfg h0 with
  | (Ok v, h) => (∃ g i s d f, v = running g i s d false cfg f) ∧ Inv (owned_by v) h
  | (Err _, h) => Inv nothing h
  end.
Proof.
  intros H0%inv_init. unfold start, mbind, VM_bind, resolve.
  destruct (resolve_cell_features _ _ _ _ _) as [f|e]; [|done].
  destruct (require_all _ _ _); [|done].
  pose proof (inv_vmid h0 H0) as H1. destruct (take_vmid cfg h0) as [[g|e] h1]; [|done].
  destruct H1 as [_ H1]. unfold or_drop at 1.
  pose proof (inv_scratch g h1 H1) as H2. destruct (take_scratch _ _ h1) as [[d|e] h2]; [|by apply inv_drop_vmid].
  unfold or_drop at 1. pose proof (inv_setup_env d g h2 H2) as H3.
  destruct (setup_env _ _ _ h2) as [[s|e] h3]; [|by apply inv_drop_vmid, inv_drop_scratch].
  destruct H3 as (Hsl & Hres & _ & H3). unfold or_drop at 1.
  assert (∀ h, Inv (env_owned false (e_net s) (e_cgroup s) (e_cid s) d g) h →
    Inv nothing (drop_vmid g (drop_scratch d (drop_env s h)))) as Hunwind.
  { intros h H. apply inv_drop_vmid, inv_drop_scratch. destruct s. by apply inv_drop_env. }
  pose proof (inv_spawn VCreate (vmm_create cfg (e_res s)) (e_net s) (e_cgroup s) (e_cid s) d g h3
    ltac:(intros; rewrite <- Hres; apply create_law) H3) as H4.
  destruct (vmm_spawn _ _ h3) as [[i|e] h4]; [|by apply Hunwind].
  pose proof (inv_boot _ _ _ _ _ (vmm_boot i) h4 H4) as H5.
  destruct (or_drop (vmm_do _ _) _ h4) as [[u|e] h5]; [|by apply Hunwind].
  assert (match (match steward_port (placement cfg) with
      | Some _ => control_plane_gate MAX_CONTROL_PLANE_RESPAWNS cfg (e_res s) i | None => mret i end) h5 with
    | (Ok _, h') => Inv (env_owned true (e_net s) (e_cgroup s) (e_cid s) d g) h'
    | (Err _, h') => Inv (env_owned false (e_net s) (e_cgroup s) (e_cid s) d g) h' end) as H6.
  { destruct (steward_port (placement cfg)); [by apply inv_gate|done]. }
  match type of H6 with match ?t with _ => _ end => destruct t as [[i'|e] h6] end; [|by apply Hunwind].
  cbn. split; [by eauto 10|exact H6].
Qed.

Lemma inv_adopt st s c d g i h :
  g_lineage g = None → cg_baked c = None → Inv (env_owned true st s c d g) h →
  let '(_, g', c', h') := adopt cfg d i g c h in g_vmid g' = g_vmid g ∧ Inv (env_owned true st s c' d g') h'.
Proof.
  intros Hg Hc0 [Hl Hs]. destruct g as [v lin], c as [cn bak]. cbn in Hg, Hc0. subst lin bak. unfold adopt.
  assert (∀ r g' h', g_vmid g' = v →
    Inv (env_owned true st s {| cg_cid := cn; cg_baked := None |} d g') h' →
    let '(_, g2, c', h2) := match r : result vm_error unit with
      | Err e => (Err e, g', {| cg_cid := cn; cg_baked := None |}, h')
      | Ok _ => let '(r, c', p) := adopt_baked_cid {| cg_cid := cn; cg_baked := None |} (h_cids h') (guest_cid i) in
          (match r with Ok _ => Ok tt | Err e => Err (ECid e) end, g', c',
           match cg_baked c' with Some _ => note (Took RBaked) (set_cids p h') | None => set_cids p h' end)
      end in g_vmid g2 = v ∧ Inv (env_owned true st s c' d g2) h2) as Hbaked.
  { intros [u|e] g' h' Hv' [Hl' Hs']; [|done].
    destruct (adopt_baked_cid _ _ _) as [[r c'] p] eqn:Ea. split; [done|].
    assert (calm → state h0 (env_owned true st s c' d g') (set_cids p h')) as Hst.
    { intros Hc. destruct (Hs' Hc) as (Hi & Hci & Hrest).
      exact (conj Hi (conj (adopt_cids _ _ _ _ _ _ _ Hci Ea) Hrest)). }
    destruct (cg_baked c') eqn:Eb.
    - split; [|exact Hst]. eapply log_took; [exact Hl'|done|by intros []; cbn; rewrite ?Eb].
    - split; [|exact Hst]. refine (logged_holds _ _ _ Hl' _). by intros []; cbn; rewrite ?Eb. }
  destruct (adopted_scratch_vmid _ _ _) as [a|]; [|by apply (Hbaked (Ok tt))].
  destruct (adopt_lineage _ _ _) as [[r g'] a'] eqn:Ea.
  assert (calm → state h0 (env_owned true st s {| cg_cid := cn; cg_baked := None |} d g') (set_vmids a' h)) as Hst.
  { intros Hc. destruct (Hs Hc) as (Hi & Hrest). exact (conj (proj1 (adopt_ids _ _ _ _ _ _ _ Hi Ea)) Hrest). }
  apply Hbaked.
  - revert Ea. unfold adopt_lineage. cbn [g_vmid]. case_decide; [by intros [= _ <- _]|].
    destruct (reserve _ _) as [[x|[]] a1]; by intros [= _ <- _].
  - destruct (g_lineage g') eqn:Eb.
    + split; [|exact Hst]. eapply log_took; [exact Hl|done|by intros []; cbn; rewrite ?Eb].
    + split; [|exact Hst]. refine (logged_holds _ _ _ Hl _). by intros []; cbn; rewrite ?Eb.
Qed.

Lemma inv_restore dir cow :
  h_log h0 = [] →
  match restore_inner dir cfg cow h0 with
  | (Ok v, h) => (∃ g i s d f, v = running g i s d true cfg f) ∧ Inv (owned_by v) h
  | (Err _, h) => Inv nothing h
  end.
Proof.
  intros H0%inv_init. unfold restore_inner.
  destruct (clone_ineligible_feature cfg); [done|]. unfold mbind, VM_bind, resolve.
  destruct (resolve_cell_features _ _ _ _ _) as [f|e]; [|done].
  destruct (require_all _ _ _); [|done].
  pose proof (inv_vmid h0 H0) as H1. destruct (take_vmid cfg h0) as [[g|e] h1]; [|done].
  destruct H1 as [Hlin H1]. unfold or_drop at 1.
  pose proof (inv_scratch g h1 H1) as H2. destruct (take_scratch _ _ h1) as [[d|e] h2]; [|by apply inv_drop_vmid].
  unfold or_drop.
  assert (∃ r, snapshot_copy dir d cow h2 = (r, h2)) as [[cd|e] ->];
    [unfold snapshot_copy; destruct cow; [destruct (overlay_clone _ _ _)|]; eauto
    | |by apply inv_drop_vmid, inv_drop_scratch].
  pose proof (inv_setup_env d g h2 H2) as H3.
  destruct (setup_env _ _ _ h2) as [[s|e] h3]; [|by apply inv_drop_vmid, inv_drop_scratch].
  destruct H3 as (_ & Hres & Hb & H3). cbn [mret VM_ret]. unfold restore_staged.
  assert (∀ g c h, Inv (env_owned false (e_net s) (e_cgroup s) c d g) h →
    Inv nothing (drop_vmid g (drop_scratch d (drop_env (with_cid s c) h)))) as Hunwind.
  { intros g' c h H. apply inv_drop_vmid, inv_drop_scratch. destruct s. by apply inv_drop_env. }
  pose proof (inv_spawn VRestore (vmm_restore cd cfg (e_res s)) (e_net s) (e_cgroup s) (e_cid s) d g h3
    ltac:(intros; rewrite <- Hres; apply restore_law) H3) as H4.
  destruct (vmm_spawn _ _ h3) as [[i|e] h4];
    [|replace s with (with_cid s (e_cid s)) by (by destruct s); by apply Hunwind].
  pose proof (inv_adopt _ _ _ _ _ i h4 Hlin Hb H4) as H5.
  destruct (adopt _ _ _ _ _ _) as [[[[u|e] g'] c'] h5]; destruct H5 as [_ H5];
    [|by apply Hunwind, inv_drop_instance].
  unfold or_drop, mbind, VM_bind, vmm_do. destruct (vmm_resume i (h_log h5));
    [|by apply Hunwind, inv_drop_instance].
  cbn. split; [exists g', i, (with_cid s c'), d, f; by destruct s|exact H5].
Qed.

(** *** Tearing down *)

Lemma inv_post_instance v h :
  v_instance v = None → v_vmid v ≠ None → Inv (owned_by v) h →
  Inv nothing (teardown_post_instance v h).2.
Proof.
  destruct v as [g i st sl c d r p f]. cbn. intros -> Hg HI. destruct g as [g|]; [|done].
  apply inv_drop_vmid. unfold owned_by in HI. cbn in HI. apply inv_release_net in HI.
  assert (Inv (Own false staged_empty None c d (Some g))
    (match sl with Some n => drop_slice n (release_net_before_netns st h) | None => release_net_before_netns st h end))
    as H1 by (destruct sl; [by eapply inv_drop_slice|done]).
  revert H1. generalize (match sl with Some n => drop_slice n (release_net_before_netns st h)
    | None => release_net_before_netns st h end). intros h1 H1.
  assert (Inv (Own false staged_empty None None d (Some g)) (match c with Some c => drop_cid c h1 | None => h1 end))
    as H2 by (destruct c; [by apply inv_drop_cid|done]).
  destruct d; [by apply inv_drop_scratch|done].
Qed.

Lemma inv_release_instance v h :
  Inv (owned_by v) h →
  Inv (owned_by (take_instance v)) (release_slot RInstance (v_instance v) (λ _ h, h) h).
Proof.
  destruct v as [g [i|] st sl c d r p f]; unfold owned_by; cbn; [|done]. apply inv_drop_instance.
Qed.

Lemma drop_torn_down v h :
  v_instance v = None → v_net v = staged_empty → v_cgroup_name v = None → v_cid v = None →
  v_tmp_dir v = None → v_vmid v = None → (drop_vm v h).2 = h.
Proof. destruct v as [g i st sl c d r p f]. cbn. by intros -> -> -> -> -> ->. Qed.

Lemma inv_drop_vm v h : v_vmid v ≠ None → Inv (owned_by v) h → Inv nothing (drop_vm v h).2.
Proof. intros Hg HI. apply inv_post_instance; [done|done|by apply inv_release_instance]. Qed.

(** [shutdown] is [Drop] of the running handle: the [Drop] of what it leaves
    finds every field taken. *)
Lemma shutdown_drops v h : shutdown v h = (drop_vm v h).2.
Proof. unfold shutdown. by apply drop_torn_down. Qed.
End launch.
