(* ===== verification/LaunchContract.v ===== *)
(** * What launching and shutting down a VM promise

    The theorems on [Lifecycle.v], from the invariant of [LifecycleProps.v]:
    the release discipline on every host, the host found again on hosts where
    undoing works, the respawn loop of [start]'s health gate, and which
    ancestor a restored VM adopts.  [RtNetlink] is shown to undo what it did
    when the calls that undo do not fail. *)

From S2P Require Import Prelude Sweep PathLib Naming IdAlloc NetAddr Tap Cgroup Segment Cmdline Features.
From S2P Require Import Lifecycle LifecycleProps.

(** ** The three ways in *)

Inductive entry := Boot | Restore (snapshot_dir : string) | RestoreCow (zygote_dir : string).

Definition launch `{CL : ClaimHost, NL : Netlink, CG : CgroupHost, VMM : Vmm, LE : LaunchEnv}
    (e : entry) (cfg : CellConfig) : VM MicroVm :=
  match e with
  | Boot => start cfg
  | Restore dir => restore dir cfg
  | RestoreCow dir => restore_cow dir cfg
  end.

Section contract.
Context {CL : ClaimHost} {NL : Netlink} {CG : CgroupHost} {VMM : Vmm} {LE : LaunchEnv}.
Implicit Types (h : host) (cfg : CellConfig).

Lemma inv_launch e cfg h0 :
  h_log h0 = [] →
  match launch e cfg h0 with
  | (Ok v, h) => v_vmid v ≠ None ∧ is_Some (v_instance v) ∧ Inv cfg h0 (owned_by v) h
  | (Err _, h) => Inv cfg h0 nothing h
  end.
Proof.
  intros Hl. destruct e as [|dir|dir]; cbn [launch].
  - pose proof (inv_start cfg h0 Hl) as H. destruct (start cfg h0) as [[v|] h]; [|done].
    destruct H as [(g & i & s & d & f & ->) H]. by eauto.
  - pose proof (inv_restore cfg h0 dir false Hl) as H. unfold restore.
    destruct (restore_inner dir cfg false h0) as [[v|] h]; [|done].
    destruct H as [(g & i & s & d & f & ->) H]. by eauto.
  - pose proof (inv_restore cfg h0 dir true Hl) as H. unfold restore_cow.
    destruct (restore_inner dir cfg true h0) as [[v|] h]; [|done].
    destruct H as [(g & i & s & d & f & ->) H]. by eauto.
Qed.

(** C3: Whatever fails, resources are released once and in an order that never
    pulls one out from under another.  On every host, the log of a launch that
    fails replays to nothing held; that of a launch that succeeds replays to
    what the handle holds, and [shutdown] and [Drop] replay it to nothing.
    Replaying rejects a second taking, a release of something not held and a
    release of something another held resource lives in. *)
Theorem release_discipline e cfg h0 :
  h_log h0 = [] →
  match launch e cfg h0 with
  | (Err _, h) => replay (h_log h) = Some ∅
  | (Ok v, h) =>
      replay (h_log h) = Some (kinds (owned_by v)) ∧ RInstance ∈ kinds (owned_by v) ∧
      replay (h_log (shutdown v h)) = Some ∅ ∧ replay (h_log (drop_vm v h).2) = Some ∅
  end.
Proof.
  intros Hl. pose proof (inv_launch e cfg h0 Hl) as H. destruct (launch e cfg h0) as [[v|x] h].
  - destruct H as (Hg & Hi & H). rewrite shutdown_drops. pose proof (inv_drop_vm _ _ v h Hg H) as [Hd _].
    split; [apply H|]. split; [by apply kinds_elem, bool_decide_eq_true|done].
  - rewrite (proj1 H). done.
Qed.


(** *** The health gate *)

Definition respawn : list event := [Released RInstance; Took RInstance].

(** A wedged control plane is replaced at most [respawns] times, one instance
    at a time: each respawn drops the old instance before it creates the next,
    the instance the gate answers with has passed the probe, and an error leaves
    none. *)
Theorem gate_respawns_bounded respawns cfg res i h :
  ∃ k, k ≤ respawns ∧
    match control_plane_gate respawns cfg res i h with
    | (Ok i', h') =>
        h_log h' = h_log h ++ concat (replicate k respawn) ∧
        verify_control_plane i' (control_plane_probe_budget (placement cfg)) (h_log h') = true
    | (Err _, h') => h_log h' = h_log h ++ concat (replicate k respawn) ++ [Released RInstance]
    end.
Proof.
  revert i h. induction respawns as [|n IH]; intros i h; cbn [control_plane_gate];
    destruct (verify_control_plane i _ (h_log h)) eqn:Hv.
  1, 3: exists 0; split; [lia|]; split; [by rewrite app_nil_r|done].
  { exists 0. split; [lia|]. done. }
  unfold mbind, VM_bind, act, vmm_spawn. set (h1 := drop_instance h).
  destruct (vmm_create cfg res (h_log h1) (h_cgroups h1)) as [[i'|] fs]; [|exists 0; split; [lia|done]].
  set (h2 := note (Took RInstance) (set_cgroups fs h1)).
  assert (h_log h2 = h_log h ++ respawn) as H2 by (cbn; by rewrite <- (assoc_L (++))).
  unfold or_drop, vmm_do. destruct (vmm_boot i' (h_log h2)).
  - destruct (IH i' h2) as (k & Hk & H). exists (S k). split; [lia|].
    destruct (control_plane_gate n cfg res i' h2) as [[j|e] h3].
    + destruct H as [-> ?]. split; [|done]. rewrite H2. cbn [replicate concat]. by rewrite <- !(assoc_L (++)).
    + rewrite H, H2. cbn [replicate concat]. by rewrite <- !(assoc_L (++)).
  - exists 1. split; [lia|]. cbn [h_log drop_instance note]. rewrite H2. cbn. by rewrite <- (assoc_L (++)).
Qed.
End contract.

(** ** The ancestor a restored VM adopts *)

Lemma alnum_ascii c : is_ascii_alphanumeric c → (byte_N c <? 128)%N = true.
Proof.
  unfold is_ascii_alphanumeric, is_ascii_digit, is_ascii_lower, is_ascii_upper.
  rewrite !orb_True, !andb_True, !Is_true_true, !N.leb_le, N.ltb_lt. lia.
Qed.

Lemma digit_alnum c : is_ascii_digit c → is_ascii_alphanumeric c.
Proof. unfold is_ascii_alphanumeric. by intros ->%Is_true_true. Qed.

Lemma alnum_is_utf8 a s : Forall is_ascii_alphanumeric (bytes a) → is_utf8 (a +:+ s) = is_utf8 s.
Proof.
  intros H. apply ascii_is_utf8, forallb_forall. intros c Hc%list_elem_of_In.
  rewrite Forall_forall in H. by apply alnum_ascii, H.
Qed.

Lemma scratch_name_utf8 prefix pid vmid : valid_prefix prefix → is_utf8 (scratch_dir_name prefix pid vmid) = true.
Proof.
  intros (_ & _ & Hp)%valid_prefix_spec. unfold scratch_dir_name.
  assert (∀ n : N, Forall is_ascii_alphanumeric (bytes (pretty n))) as Hd
    by (intros n; eapply Forall_impl; [apply pretty_digits|apply digit_alnum]).
  rewrite alnum_is_utf8 by done. rewrite (ascii_is_utf8 "-vm-") by done.
  rewrite alnum_is_utf8 by done. rewrite (ascii_is_utf8 "-") by done.
  by rewrite <- (append_nil_r (pretty vmid)), alnum_is_utf8.
Qed.

(** A restore adopts exactly a scratch directory of this fleet: the answer is
    [vmid] when the baked socket lies in a directory, not the VM's own, whose
    name is the scratch name of some process and [vmid]; any other path,
    sibling names with other prefixes or padded numbers included, adopts
    nothing. *)
Theorem adopted_scratch_vmid_exact prefix own_dir dir c vmid :
  valid_prefix prefix →
  adopted_scratch_vmid prefix own_dir (dir ++ [Normal c]) = Some vmid ↔
  dir ≠ own_dir ∧ (vmid <= u32_max)%N ∧
  ∃ pid, (pid <= u32_max)%N ∧ last dir = Some (Normal (scratch_dir_name prefix pid vmid)).
Proof.
  intros Hp. unfold adopted_scratch_vmid.
  assert (PathLib.path_parent (dir ++ [Normal c]) = Some dir) as ->
    by (unfold PathLib.path_parent; by rewrite last_snoc, removelast_last).
  cbn [mbind option_bind]. case_decide as Hd; [naive_solver|]. unfold file_name.
  destruct (last dir) as [[| | |n]|]; cbn [mbind option_bind]; try naive_solver. split.
  - destruct (is_utf8 n); [|done]. cbn [negb]. destruct (rsplit_once "-" n) as [[front v]|]; [|done].
    cbn [mbind option_bind]. destruct (parse_uint u32_max v) as [w|] eqn:Ew; [|done]. cbn [mbind option_bind].
    destruct (parse_uint u32_max (rsplit_first "-" front)) as [pid|] eqn:Ep; [|done]. cbn [mbind option_bind].
    case_decide as Hn; [|done]. intros [= <-]. apply parse_uint_bound in Ew, Ep. subst n. eauto.
  - intros (_ & Hv & pid & Hpid & [= ->]). rewrite scratch_name_utf8 by done. cbn [negb].
    replace (rsplit_once "-" (scratch_dir_name prefix pid vmid)) with
      (Some (prefix +:+ "-vm" +:+ String "-" (pretty pid), pretty vmid)).
    + cbn [mbind option_bind]. rewrite parse_pretty by done. cbn [mbind option_bind].
      rewrite <- (append_assoc prefix "-vm"), rsplit_first_append by by apply pretty_no_char.
      rewrite parse_pretty by done. cbn [mbind option_bind]. by rewrite decide_True.
    + symmetry. rewrite <- (rsplit_once_append "-" _ (pretty vmid)) by by apply pretty_no_char.
      f_equal. unfold scratch_dir_name. by rewrite !append_assoc.
Qed.

(** ** Hosts on which undoing works *)

Definition undoes (op : nl_op) : bool :=
  match op with NsEnter | LinkIndex | LinkDelete | NsGet | NsRemove => true | _ => false end.

Section rt_quiet.
Context {NH : NetHost} (Hcalls : ∀ n op, undoes op = true → nl_fails n op = false).

Lemma sys_ok {A} op (f : spaces → option (A * spaces)) k a sp :
  undoes op = true → f (nets k) = Some (a, sp) → sys op f k = (Ok a, {| nets := sp; calls := S (calls k) |}).
Proof. intros Hop Hf. unfold sys. by rewrite Hcalls, Hf. Qed.

Lemma rt_delete_netns_ok n k : is_Some (nets k !! n) → is_ok (rt_delete_netns n k).1 = true.
Proof.
  intros [s Hs]. unfold rt_delete_netns, mbind, M_bind.
  erewrite sys_ok; [|done|by rewrite Hs]. by erewrite sys_ok.
Qed.

Lemma rt_delete_link_ok ns l k s :
  nets k !! ns = Some s → is_Some (links s !! l) → is_ok (rt_delete_link ns l k).1 = true.
Proof.
  intros Hs [x Hx]. unfold rt_delete_link, in_netns, link_index, link_del, sys_in, mbind, M_bind.
  erewrite sys_ok; [|done|by rewrite Hs].
  erewrite sys_ok; [|done|cbn; rewrite Hs; cbn; by rewrite Hx].
  erewrite sys_ok; [done|done|]. cbn. rewrite lookup_insert_eq. cbn. by rewrite Hx.
Qed.

(** The tap that could not be attached is deleted again. *)
Lemma rt_tap_undone ns tap br k :
  is_ok (rt_setup_tap_on_bridge ns tap br k).1 = false →
  nets (rt_setup_tap_on_bridge ns tap br k).2 = nets k.
Proof.
  unfold rt_setup_tap_on_bridge, mbind, M_bind.
  pose proof (wp_create_tap ns tap
    (λ _ sp', ∃ s, nets k !! ns = Some s ∧ links s !! tap = None ∧
       sp' = <[ns := with_links s (<[tap := new_link]> (links s))]> (nets k))
    (λ sp', sp' = nets k) (nets k) eq_refl ltac:(intros s ??; by exists s) k eq_refl) as C.
  destruct (create_persistent_tap_in_ns ns tap k) as [[[]|e] k1]; [|done].
  destruct C as (s & Hs & Ht & Hk1). unfold on_error.
  set (m := in_netns ns _).
  assert (wp m (λ _ _, True) (λ sp', sp' = nets k1) (nets k1)) as W.
  { apply wp_in; [done|]. apply wp_bind, wp_link_index; [done|]. intros _ _ _ _.
    apply wp_bind, wp_link_index; [done|]. intros _ _ _ _. by apply wp_set. }
  specialize (W k1 eq_refl). destruct (m k1) as [[[]|e] k2]; [done|]. intros _. cbn [snd].
  rewrite Hk1 in W.
  pose proof (rt_delete_link_ok ns tap k2 _ ltac:(rewrite W; apply lookup_insert_eq)
    ltac:(cbn [links with_links]; rewrite lookup_insert_eq; by eauto)) as Hok.
  pose proof (wp_delete_link_exact ns tap _ k2 eq_refl) as D.
  destruct (rt_delete_link ns tap k2) as [[[]|e'] k3]; [|done]. destruct D as (s' & Hs' & _ & Hk3).
  rewrite W, lookup_insert_eq in Hs'. simplify_eq. cbn [links with_links].
  cbn [snd nets] in *. rewrite Hk3, W, insert_insert_eq. by apply undo_add.
Qed.
End rt_quiet.

(** [RtNetlink] undoes what it did when the calls that undo do not fail. *)
Lemma rt_quiet {NH : NetHost} {CL : ClaimHost} {CG : CgroupHost} {LE : LaunchEnv} :
  (∀ n op, undoes op = true → nl_fails n op = false) →
  (∀ s, busy s = false) → plain_fs = false → (∀ d, rmdir_fails_at d = false) →
  (∀ id, claim_fails OpRemove id = false) → quiet.
Proof.
  intros Hcalls Hb Hp Hd Hc. split; try done.
  - intros n k. by apply rt_delete_netns_ok.
  - intros ns l k s. by apply rt_delete_link_ok.
  - intros ns tap br k. by apply rt_tap_undone.
Qed.

(** Nothing of a fleet on the host: every id is ready. *)
Lemma empty_ready {CL : ClaimHost} {LE : LaunchEnv} cfg h0 :
  valid_prefix (resource_prefix cfg) → proc_self_cgroup = None →
  nets (h_kernel h0) = ∅ → dirs (h_cgroups h0) = ∅ → h_scratch h0 = ∅ → cid_pool_ok (h_cids h0) →
  ready cfg h0.
Proof.
  intros Hp Hproc Hn Hd Hs Hc. split; [..|done]; intros v _.
  - by rewrite Hn.
  - unfold fresh_slice, slice_of, vm_slice_name. rewrite Hproc, Hd. cbn [mbind option_bind]. split_and!.
    + unfold cgroup_slice_name. by destruct (resource_prefix cfg).
    + set_solver.
    + set_solver.
    + intros d. unfold ancestors. rewrite str_split_word by (by apply slice_leaf_no_slash).
      cbn. intros ->%list_elem_of_singleton. by left.
  - rewrite Hs. set_solver.
Qed.

(** *** A privileged, filtered cell whose control plane is wedged on its first boot *)

Definition instances (l : list event) : nat := length (filter (λ e, e = Took RInstance) l).

(** A backend that creates what it is asked, whose steward answers from the
    second instance on; [boots] is whether booting works. *)
Definition wedged_vmm (boots : bool) : Vmm.
Proof.
  refine {|
    vmm_id := "qemu"; capabilities := demo_caps;
    vmm_create cfg res l fs := (Some {| vsock_path := vr_tmp_dir res +:+ "/vsock.sock"; guest_cid := vr_guest_cid res |}, fs);
    vmm_restore dir cfg res l fs := (Some {| vsock_path := "/tmp/vmcell-vm-41-9/vsock.sock"; guest_cid := 11 |}, fs);
    vmm_boot i l := boots; vmm_resume i l := boots;
    verify_control_plane i budget l := 2 <=? instances l |}; done.
Defined.

Definition quiet_env : LaunchEnv.
Proof.
  refine {|
    read_file := demo_read; host_probe := Features.demo_host; subsec_nanos l := 5%N;
    proc_self_cgroup := None; temp_dir := "/tmp"; mkdir_fails_at d := false; rmdir_fails_at d := false;
    proxy_start tproxy ns p l := Some 8080%N; overlay_clone src dst l := true;
    nft_apply := apply_rules (NH := demo_net); nft_law := apply_rules_law (NH := demo_net) |}.
Defined.

Definition quiet_cgroups : CgroupHost := {|
  mkdir_fails d := false; write_err p v := None; enable_effective d c := true; busy d := false; plain_fs := false |}.

Definition filtered_cell : CellConfig := {|
  kernel_path := "/a/vmlinux"; rootfs := Erofs "/b/rootfs.erofs"; data_shares := []; placement := Pid1;
  net := Privileged (Filtered {| blocked_domains := ["example.com"] |});
  usb_host_devices := []; required_features := []; fixed_vmid := None; resource_prefix := "vmcell";
  shutdown_grace := 250; limits := {| mem_max_mib := None; cpu_max_pct := None; pids_max := None; io_max := None |} |}.

Definition empty_host : host := {|
  h_vmids := demo_alloc; h_cids := demo_pool; h_kernel := {| nets := ∅; calls := 0 |};
  h_slots := ∅; h_cgroups := {| dirs := ∅; files := ∅ |}; h_scratch := ∅; h_log := [] |}.

Definition demo_launch (boots : bool) (e : entry) : result vm_error MicroVm * host :=
  launch (CL := demo_claims) (NL := RtNetlink (NH := demo_net)) (CG := quiet_cgroups) (VMM := wedged_vmm boots)
    (LE := quiet_env) e filtered_cell empty_host.

Definition demo_shutdown (boots : bool) (e : entry) : option host :=
  match demo_launch boots e with
  | (Ok v, h) => Some (shutdown (CL := demo_claims) (NL := RtNetlink (NH := demo_net)) (CG := quiet_cgroups)
      (LE := quiet_env) v h)
  | (Err _, _) => None
  end.

Lemma demo_quiet : quiet (NL := RtNetlink (NH := demo_net)) (CL := demo_claims) (CG := quiet_cgroups) (LE := quiet_env).
Proof. by apply rt_quiet. Qed.

Lemma demo_ready : ready (CL := demo_claims) (LE := quiet_env) filtered_cell empty_host.
Proof. apply empty_ready; try done. apply cid_history_ok. Qed.

(** The cell boots on its second instance; a copy-on-write restore adopts vmid 9
    and CID 11; a boot that fails has taken everything by then. *)
Lemma release_discipline_witness :
  (∃ v h, demo_launch true Boot = (Ok v, h) ∧ instances (h_log h) = 2 ∧
     replay (h_log h) = Some (kinds (owned_by v))) ∧
  (∃ e h, demo_launch false Boot = (Err e, h) ∧ length (h_log h) = 14 ∧ replay (h_log h) = Some ∅).
Proof.
  pose proof (release_discipline (CL := demo_claims) (NL := RtNetlink (NH := demo_net)) (CG := quiet_cgroups)
    (VMM := wedged_vmm true) (LE := quiet_env) Boot filtered_cell empty_host eq_refl) as A.
  pose proof (release_discipline (CL := demo_claims) (NL := RtNetlink (NH := demo_net)) (CG := quiet_cgroups)
    (VMM := wedged_vmm false) (LE := quiet_env) Boot filtered_cell empty_host eq_refl) as B.
  fold (demo_launch true Boot) in A. fold (demo_launch false Boot) in B.
  assert (is_ok (demo_launch true Boot).1 = true ∧ instances (h_log (demo_launch true Boot).2) = 2) as HA
    by (vm_compute; split; reflexivity).
  assert (is_ok (demo_launch false Boot).1 = false ∧ length (h_log (demo_launch false Boot).2) = 14) as HB
    by (vm_compute; split; reflexivity).
  destruct (demo_launch true Boot) as [[v|e] h]; [|by destruct HA].
  destruct (demo_launch false Boot) as [[v'|e'] h']; [by destruct HB|].
  split; [exists v, h|exists e', h']; split; try reflexivity; split; [apply HA|apply A|apply HB|exact B].
Defined.


Lemma adopted_scratch_vmid_exact_witness :
  adopted_scratch_vmid "vmcell" (components "/tmp/vmcell-vm-42-3") (components "/tmp/vmcell-vm-41-9/vsock.sock") =
    Some 9%N.
Proof.
  apply (adopted_scratch_vmid_exact "vmcell" (components "/tmp/vmcell-vm-42-3")
    [RootDir; Normal "tmp"; Normal "vmcell-vm-41-9"] "vsock.sock" 9).
  - vm_compute. reflexivity.
  - split; [vm_compute; discriminate|]. split; [vm_compute; discriminate|].
    exists 41%N. split; [vm_compute; discriminate|vm_compute; reflexivity].
Defined.
