(* ===== verification/Wire.v ===== *)
(** * The control-plane messages and their framing

    Models [crates/vmcell-protocol/src/lib.rs] (the messages both ends speak and
    the bounds they share), the guest's framing ([send_framed], [read_framed]
    and [send_msg] of [crates/vmcell-steward/src/serve.rs]) and the host's
    [encode_frame] ([crates/vmcell/src/steward/mod.rs]).

    The serialisation is the [postcard] crate's and is a parameter: a message
    has at most one encoding, and decoding it gives it back.  A byte stream is
    the string of the bytes it yields before its end.  Durations are in
    nanoseconds. *)

From S2P Require Import Prelude.

(** ** Messages *)

Record Ipv4Reconfig := { addr : N * N * N * N; prefix_len : N; gateway : N * N * N * N }.

(** [SessionId] is a [u64]. *)
Notation SessionId := N (only parsing).

Record PtyConfig := { rows : N; cols : N }.

Record ExecRequest := {
  argv : list string;
  env : list (string * string);
  cwd : option string;
  timeout : option N;
}.

Record SessionSpec := { command : ExecRequest; pty : option PtyConfig }.

(** In declaration order, which is the wire's discriminant. *)
Inductive Message :=
  | Ready
  | Exec (req : ExecRequest)
  | Stdout (data : string)
  | Stderr (data : string)
  | Exit (code : Z)
  | PutFile (dst content : string)
  | Resync (unix_secs unix_nanos : N) (mac : option (list N)) (ipv4 : option Ipv4Reconfig)
  | ResyncAck (clock_error : option string) (reseed_applied mac_applied ip_applied : bool)
  | OpenSession (session : SessionId) (spec : SessionSpec)
  | Stdin (session : SessionId) (data : string)
  | StdinEof (session : SessionId)
  | Winsize (session : SessionId) (rows cols : N)
  | CloseSession (session : SessionId)
  | SessionStdout (session : SessionId) (data : string)
  | SessionStderr (session : SessionId) (data : string)
  | SessionExit (session : SessionId) (code : Z).

Definition ExecRequest_new (argv : list string) : ExecRequest :=
  {| argv := argv; env := []; cwd := None; timeout := None |}.

Definition with_timeout (r : ExecRequest) (t : N) : ExecRequest :=
  {| argv := argv r; env := env r; cwd := cwd r; timeout := Some t |}.

Definition SessionSpec_new (command : ExecRequest) : SessionSpec := {| command := command; pty := None |}.

Definition with_pty (s : SessionSpec) (rows cols : N) : SessionSpec :=
  {| command := command s; pty := Some {| rows := rows; cols := cols |} |}.

Record ExecOutcome := { oc_code : Z; oc_stdout : string; oc_stderr : string }.

Definition ExecOutcome_default : ExecOutcome := {| oc_code := -1; oc_stdout := ""; oc_stderr := "" |}.

(** ** The serialisation *)

Class Postcard := {
  to_stdvec : Message → option string;
  from_bytes : string → option Message;
  postcard_law m b : to_stdvec m = Some b → from_bytes b = Some m;
}.

(** ** Framing *)

Definition MAX_FRAME_BYTES : N := 16 * 1024 * 1024.
Definition DEFAULT_EXEC_TIMEOUT : N := 10 * 10 ^ 9.

Inductive io_error := InvalidData | UnexpectedEof | IoOther.

Definition byte (n : N) : ascii := ascii_of_N (n mod 256).

(** [u32::to_be_bytes] and [u32::from_be_bytes]. *)
Definition to_be_bytes (n : N) : string :=
  String (byte (n / 2 ^ 24)) (String (byte (n / 2 ^ 16)) (String (byte (n / 2 ^ 8)) (String (byte n) ""))).

Definition from_be_bytes (a b c d : ascii) : N :=
  (byte_N a * 2 ^ 24 + byte_N b * 2 ^ 16 + byte_N c * 2 ^ 8 + byte_N d)%N.

(** [read_exact] on what is left of the stream. *)
Fixpoint read_exact (n : nat) (s : string) : result io_error (string * string) :=
  match n, s with
  | 0, _ => Ok ("", s)
  | S n, String c s => let? (data, rest) := read_exact n s in Ok (String c data, rest)
  | S _, EmptyString => Err UnexpectedEof
  end.

(** What is on the wire after [send_framed]; a failing write is the end of the
    connection. *)
Definition send_framed (out data : string) : result io_error string :=
  if (MAX_FRAME_BYTES <? str_len data)%N then Err InvalidData
  else Ok (out +:+ to_be_bytes (N.min (str_len data) u32_max) +:+ data).

Definition read_framed (stream : string) : result io_error (string * string) :=
  let? (len_buf, rest) := read_exact 4 stream in
  match len_buf with
  | String a (String b (String c (String d _))) =>
      let len := from_be_bytes a b c d in
      if (MAX_FRAME_BYTES <? len)%N then Err InvalidData
      else read_exact (N.to_nat len) rest
  | _ => Err UnexpectedEof
  end.

Section codec.
Context {PC : Postcard}.

Definition send_msg (out : string) (m : Message) : result io_error string :=
  match to_stdvec m with
  | None => Err IoOther
  | Some b => send_framed out b
  end.

(** The host's check at the send boundary. *)
Inductive encode_error := EncodeSerde | EncodeTooLarge (len : N).

Definition encode_frame (m : Message) : result encode_error string :=
  match to_stdvec m with
  | None => Err EncodeSerde
  | Some b => if (MAX_FRAME_BYTES <? str_len b)%N then Err (EncodeTooLarge (str_len b)) else Ok b
  end.

(** Reading one message, as the head of [serve_loop] does. *)
Definition read_msg (stream : string) : result io_error (Message * string) :=
  let? (b, rest) := read_framed stream in
  match from_bytes b with
  | Some m => Ok (m, rest)
  | None => Err IoOther
  end.

Fixpoint send_msgs (out : string) (ms : list Message) : result io_error string :=
  match ms with
  | [] => Ok out
  | m :: ms => let? out := send_msg out m in send_msgs out ms
  end.

(** Reading until the stream fails; every message takes at least four bytes. *)
Fixpoint read_msgs (fuel : nat) (stream : string) : list Message * io_error :=
  match fuel with
  | 0 => ([], UnexpectedEof)
  | S fuel =>
      match read_msg stream with
      | Err e => ([], e)
      | Ok (m, rest) => let '(ms, e) := read_msgs fuel rest in (m :: ms, e)
      end
  end.
End codec.

(** ** Log lines *)

Definition MAX_DEBUG_RENDER_BYTES : nat := 256.
Definition DEBUG_TRUNCATED_MARKER : string := "…<truncated>".

(** [s.is_char_boundary(i)]. *)
Definition is_char_boundary (s : string) (i : nat) : bool :=
  match i with
  | 0 => true
  | _ =>
      match bytes s !! i with
      | Some c => negb ((128 <=? byte_N c)%N && (byte_N c <? 192)%N)
      | None => bool_decide (i = String.length s)
      end
  end.

Fixpoint floor_boundary (s : string) (end_ : nat) : nat :=
  match end_ with
  | 0 => 0
  | S e => if is_char_boundary s end_ then end_ else floor_boundary s e
  end.

Definition str_take (n : nat) (s : string) : string := String.substring 0 n s.

(** [CappedSink::write_str]: what is kept, and whether the formatter goes on. *)
Definition capped_write (out s : string) : string * bool :=
  let room := MAX_DEBUG_RENDER_BYTES - String.length out in
  if decide (room = 0) then (out, false) else
  if decide (String.length s ≤ room) then (out +:+ s, true)
  else (out +:+ str_take (floor_boundary s room) s, false).

Fixpoint capped_write_all (out : string) (pieces : list string) : string * bool :=
  match pieces with
  | [] => (out, true)
  | s :: pieces =>
      match capped_write out s with
      | (out, true) => capped_write_all out pieces
      | (out, false) => (out, false)
      end
  end.

(** [pieces] are what the value's [Debug] writes. *)
Definition capped_debug (pieces : list string) : string :=
  let '(out, ok) := capped_write_all "" pieces in
  if ok then out else out +:+ DEBUG_TRUNCATED_MARKER.

(** ** Framing round trip *)

Lemma byte_N_byte n : byte_N (byte n) = (n mod 256)%N.
Proof. unfold byte_N, byte. apply N_ascii_embedding. apply N.mod_lt. lia. Qed.

Lemma be_bytes_roundtrip n :
  (n <= u32_max)%N → from_be_bytes (byte (n / 2 ^ 24)) (byte (n / 2 ^ 16)) (byte (n / 2 ^ 8)) (byte n) = n.
Proof.
  intros Hn. unfold from_be_bytes. rewrite !byte_N_byte.
  change (n <= 4294967295)%N in Hn. change (2 ^ 8)%N with 256%N.
  change (2 ^ 16)%N with (256 * 256)%N. change (2 ^ 24)%N with (256 * 256 * 256)%N.
  rewrite <- !N.Div0.div_div.
  pose proof (N.div_mod n 256). pose proof (N.div_mod (n / 256) 256).
  pose proof (N.div_mod (n / 256 / 256) 256).
  rewrite (N.mod_small (n / 256 / 256 / 256)) by (rewrite !N.Div0.div_div; apply N.Div0.div_lt_upper_bound; lia).
  lia.
Qed.

Lemma read_exact_append a s : read_exact (String.length a) (a +:+ s) = Ok (a, s).
Proof. induction a as [|c a IH]; [done|]. cbn [String.length read_exact]. rewrite append_cons. cbn. by rewrite IH. Qed.

Lemma read_exact_short n s : String.length s < n → read_exact n s = Err UnexpectedEof.
Proof.
  revert n. induction s as [|c s IH]; intros [|n] H; cbn in *; [lia|done|lia|]. by rewrite IH by lia.
Qed.

Definition frame (data : string) : string := to_be_bytes (str_len data) +:+ data.

Lemma send_framed_frame out data :
  (str_len data <= MAX_FRAME_BYTES)%N → send_framed out data = Ok (out +:+ frame data).
Proof.
  intros H. unfold send_framed. rewrite (proj2 (N.ltb_ge _ _)) by done.
  rewrite N.min_l; [done|]. etrans; [exact H|]. by vm_compute.
Qed.

Lemma read_framed_header data s :
  (str_len data <= MAX_FRAME_BYTES)%N →
  read_framed (to_be_bytes (str_len data) +:+ s) = read_exact (String.length data) s.
Proof.
  intros H. assert (str_len data <= u32_max)%N as Hu by (etrans; [exact H|by vm_compute]).
  unfold read_framed, to_be_bytes. rewrite !append_cons, append_nil_l. cbn [read_exact].
  rewrite be_bytes_roundtrip by done. rewrite (proj2 (N.ltb_ge _ _)) by done.
  unfold str_len. by rewrite Nat2N.id.
Qed.

Lemma read_framed_frame data s :
  (str_len data <= MAX_FRAME_BYTES)%N → read_framed (frame data +:+ s) = Ok (data, s).
Proof.
  intros H. unfold frame. rewrite append_assoc, read_framed_header by done. apply read_exact_append.
Qed.

Lemma string_prefix_split (a p s t : string) :
  p +:+ t = a +:+ s → (∃ p', p = a +:+ p' ∧ p' +:+ t = s) ∨ String.length p < String.length a.
Proof.
  revert p. induction a as [|c a IH]; intros p; [left; by exists p|].
  destruct p as [|c' p]; [right; cbn; lia|]. rewrite !append_cons. intros [= -> H].
  destruct (IH p H) as [(p' & -> & ?)|?]; [left; by exists p'|right; cbn; lia].
Qed.

(** A frame that was cut short is no frame. *)
Lemma read_framed_cut data s p t :
  (str_len data <= MAX_FRAME_BYTES)%N → p +:+ t = frame data +:+ s →
  String.length p < String.length (frame data) → read_framed p = Err UnexpectedEof.
Proof.
  intros H Hp Hl. destruct (decide (String.length p < 4)) as [H4|H4].
  { unfold read_framed. by rewrite read_exact_short. }
  unfold frame in Hp. rewrite append_assoc in Hp.
  destruct (string_prefix_split _ _ _ _ Hp) as [(p' & -> & Hp')|?]; [|cbn in *; lia].
  rewrite read_framed_header by done. apply read_exact_short.
  unfold frame in Hl. rewrite !length_append in Hl. lia.
Qed.

Section roundtrip.
Context {PC : Postcard}.

Lemma send_msg_Ok out m b :
  to_stdvec m = Some b → (str_len b <= MAX_FRAME_BYTES)%N → send_msg out m = Ok (out +:+ frame b).
Proof. intros Hm Hb. unfold send_msg. rewrite Hm. by apply send_framed_frame. Qed.

Lemma send_msg_inv out m s :
  send_msg out m = Ok s → ∃ b, to_stdvec m = Some b ∧ (str_len b <= MAX_FRAME_BYTES)%N ∧ s = out +:+ frame b.
Proof.
  unfold send_msg. destruct (to_stdvec m) as [b|]; [|done]. intros H. exists b.
  destruct (N.leb_spec (str_len b) MAX_FRAME_BYTES) as [Hb|Hb].
  - rewrite send_framed_frame in H by done. by injection H as <-.
  - unfold send_framed in H. by rewrite (proj2 (N.ltb_lt _ _)) in H.
Qed.

(** Writing appends. *)
Lemma send_msgs_out out ms :
  send_msgs out ms = match send_msgs "" ms with Ok w => Ok (out +:+ w) | Err e => Err e end.
Proof.
  revert out. induction ms as [|m ms IH]; intros out; cbn [send_msgs]; [by rewrite append_nil_r|].
  destruct (send_msg out m) as [s|e] eqn:E.
  - apply send_msg_inv in E as (b & Hm & Hb & ->). rewrite (send_msg_Ok "" m b) by done.
    rewrite append_nil_l, (IH (out +:+ _)), (IH (frame b)).
    destruct (send_msgs "" ms); [by rewrite append_assoc|done].
  - unfold send_msg in *. destruct (to_stdvec m) as [b|]; [|by injection E as ->].
    unfold send_framed in *. by destruct (_ <? _)%N; [injection E as ->|].
Qed.

Lemma send_msgs_cons m ms s :
  send_msgs "" (m :: ms) = Ok s ↔
  ∃ b w, to_stdvec m = Some b ∧ (str_len b <= MAX_FRAME_BYTES)%N ∧ send_msgs "" ms = Ok w ∧ s = frame b +:+ w.
Proof.
  cbn [send_msgs]. split.
  - destruct (send_msg "" m) as [s1|] eqn:E; [|done].
    apply send_msg_inv in E as (b & Hm & Hb & ->). rewrite append_nil_l, send_msgs_out.
    destruct (send_msgs "" ms) as [w|]; [|done]. intros [= <-]. by exists b, w.
  - intros (b & w & Hm & Hb & Hw & ->). rewrite (send_msg_Ok "" m b) by done.
    by rewrite append_nil_l, send_msgs_out, Hw.
Qed.

Lemma frame_length b : String.length (frame b) = 4 + String.length b.
Proof. done. Qed.

Lemma read_msg_frame m b w :
  to_stdvec m = Some b → (str_len b <= MAX_FRAME_BYTES)%N → read_msg (frame b +:+ w) = Ok (m, w).
Proof. intros Hm Hb. unfold read_msg. rewrite read_framed_frame by done. by rewrite (postcard_law m). Qed.

Lemma read_exact_length n s d r : read_exact n s = Ok (d, r) → String.length s = n + String.length r.
Proof.
  revert s d. induction n as [|n IH]; intros s d; [by intros [= _ <-]|]. destruct s as [|c s]; [done|]. cbn.
  destruct (read_exact n s) as [[d' r']|] eqn:E; [|done]. intros [= _ <-]. apply IH in E. lia.
Qed.

Lemma read_msg_shorter s m r : read_msg s = Ok (m, r) → String.length r < String.length s.
Proof.
  unfold read_msg, read_framed. destruct (read_exact 4 s) as [[h s1]|] eqn:E; [|done]. apply read_exact_length in E.
  destruct h as [|a [|b [|c [|d h]]]]; try done. destruct (_ <? _)%N; [done|].
  destruct (read_exact _ s1) as [[x s2]|] eqn:E2; [|done]. apply read_exact_length in E2.
  destruct (from_bytes x); [|done]. intros [= _ <-]. lia.
Qed.

Lemma read_msgs_fuel f f' s :
  String.length s < f → String.length s < f' → read_msgs f s = read_msgs f' s.
Proof.
  revert f' s. induction f as [|f IH]; intros f' s Hf Hf'; [lia|]. destruct f' as [|f']; [lia|]. cbn.
  destruct (read_msg s) as [[m r]|] eqn:E; [|done]. apply read_msg_shorter in E. by rewrite (IH f') by lia.
Qed.

(** C29: The guest's framing loses nothing and invents nothing.  From what was
    sent, cut anywhere, the reader gets exactly the messages whose frames are
    complete, in order, and then the end of the stream; the whole stream gives
    every message back. *)
Theorem cut_stream_delivers_prefix ms s p t :
  send_msgs "" ms = Ok s → s = p +:+ t →
  ∃ k w, read_msgs (S (String.length p)) p = (take k ms, UnexpectedEof) ∧
    send_msgs "" (take k ms) = Ok w ∧ String.length w ≤ String.length p ∧
    (t = "" → take k ms = ms) ∧
    (take k ms ≠ ms → ∃ w', send_msgs "" (take (S k) ms) = Ok w' ∧ String.length p < String.length w').
Proof.
  revert s p. induction ms as [|m ms IH]; intros s p Hs Hp.
  - injection Hs as <-. assert (p = "") as -> by (by destruct p). exists 0, "". done.
  - apply send_msgs_cons in Hs as (b & w & Hm & Hb & Hw & Hs). rewrite Hs in Hp.
    destruct (string_prefix_split _ _ _ _ (eq_sym Hp)) as [(p' & -> & Hp')|Hlt].
    + destruct (IH w p' Hw (eq_sym Hp')) as (k & w' & Hr & Hk & Hl & Ht & Hmax).
      assert (∀ j v, send_msgs "" (take j ms) = Ok v → send_msgs "" (take (S j) (m :: ms)) = Ok (frame b +:+ v))
        as Hcons by (intros j v Hv; apply send_msgs_cons; by exists b, v).
      exists (S k), (frame b +:+ w'). rewrite !length_append. split_and!.
      * cbn [read_msgs]. rewrite (read_msg_frame m) by done.
        rewrite (read_msgs_fuel _ (S (String.length p'))) by (rewrite ?frame_length; lia). by rewrite Hr.
      * by apply Hcons.
      * lia.
      * intros H. cbn [take]. by rewrite Ht.
      * intros Hne. cbn [take] in Hne. destruct (Hmax ltac:(congruence)) as (v & Hv & Hlv).
        exists (frame b +:+ v). rewrite length_append. split; [by apply Hcons|lia].
    + exists 0, "". cbn [read_msgs]. unfold read_msg. rewrite (read_framed_cut b w p t) by done.
      split_and!; [done|done|cbn; lia| |].
      * intros ->. rewrite append_nil_r in Hp. rewrite <- Hp, length_append in Hlt. lia.
      * intros _. exists (frame b). split; [|done].
        apply send_msgs_cons. exists b, "". rewrite append_nil_r. done.
Qed.
End roundtrip.

(** ** What a log line quotes *)

Lemma str_take_prefix n s : starts_with (str_take n s) s = true ∧ String.length (str_take n s) ≤ n.
Proof.
  unfold str_take. revert n. induction s as [|c s IH]; intros [|n]; cbn; try (split; [done|lia]).
  destruct (IH n) as [Hp Hl]. rewrite bool_decide_true by done. split; [done|lia].
Qed.

Lemma floor_boundary_le s e : floor_boundary s e ≤ e.
Proof. induction e as [|e IH]; cbn [floor_boundary]; [done|]. destruct (is_char_boundary s (S e)); lia. Qed.

Definition rendered (pieces : list string) : string := foldr String.append "" pieces.

Lemma capped_write_all_spec pieces : ∀ out kept ok,
  String.length out ≤ MAX_DEBUG_RENDER_BYTES → capped_write_all out pieces = (kept, ok) →
  String.length kept ≤ MAX_DEBUG_RENDER_BYTES ∧ (∃ t, out +:+ rendered pieces = kept +:+ t ∧ (ok = true → t = "")) ∧
  (String.length (out +:+ rendered pieces) < MAX_DEBUG_RENDER_BYTES → ok = true).
Proof.
  unfold MAX_DEBUG_RENDER_BYTES. induction pieces as [|s pieces IH]; intros out kept ok Ho; cbn [capped_write_all rendered foldr].
  { intros [= <- <-]. split; [done|]. split; [by exists ""|done]. }
  fold (rendered pieces). unfold capped_write, MAX_DEBUG_RENDER_BYTES. rewrite !length_append.
  case_decide; [intros [= <- <-]; split; [done|]; split; [by eexists; split; [done|]|lia]|].
  case_decide.
  - intros H1. destruct (IH (out +:+ s) kept ok) as (Hl & (t & Ht & Hok) & Hshort);
      [rewrite length_append; lia|done|].
    rewrite append_assoc in Ht, Hshort. rewrite !length_append in Hshort. split; [done|]. split; [by exists t|done].
  - intros [= <- <-]. pose proof (floor_boundary_le s (256 - String.length out)) as Hf.
    destruct (str_take_prefix (floor_boundary s (256 - String.length out)) s) as [[t Ht]%starts_with_spec Hl].
    rewrite length_append. split; [lia|]. split; [|lia].
    exists (t +:+ rendered pieces). split; [|done]. rewrite Ht at 1. by rewrite !append_assoc.
Qed.

(** A log line quotes a prefix of at most 256 bytes of the value, marked unless
    it is all of it; a render below the cap is quoted whole. *)
Lemma capped_debug_bounded pieces :
  (∃ kept t, rendered pieces = kept +:+ t ∧ String.length kept ≤ MAX_DEBUG_RENDER_BYTES ∧
     (capped_debug pieces = kept ∧ t = "" ∨ capped_debug pieces = kept +:+ DEBUG_TRUNCATED_MARKER)) ∧
  (String.length (rendered pieces) < MAX_DEBUG_RENDER_BYTES → capped_debug pieces = rendered pieces).
Proof.
  unfold capped_debug. destruct (capped_write_all "" pieces) as [kept ok] eqn:E.
  apply capped_write_all_spec in E as (Hl & (t & Ht & Hok) & Hs); [|unfold MAX_DEBUG_RENDER_BYTES; cbn; lia].
  rewrite append_nil_l in Ht, Hs. split.
  - exists kept, t. split; [done|]. split; [done|]. destruct ok; [left; by rewrite Hok|by right].
  - intros H. rewrite (Hs H). rewrite (Hok (Hs H)), append_nil_r in Ht. done.
Qed.

(** *** A serialisation of three messages *)

Definition demo_to_stdvec (m : Message) : option string :=
  match m with
  | Ready => Some "R"
  | Stdout d => Some ("O" +:+ d)
  | Exit 0 => Some "E"
  | _ => None
  end.

Definition demo_from_bytes (b : string) : option Message :=
  match b with
  | "R" => Some Ready
  | "E" => Some (Exit 0)
  | String "O" d => Some (Stdout d)
  | _ => None
  end.

Definition demo_postcard : Postcard.
Proof.
  refine {| to_stdvec := demo_to_stdvec; from_bytes := demo_from_bytes |}.
  intros [| | | |[]| | | | | | | | | | |] b; try discriminate; by intros [= <-].
Defined.

#[export] Instance Message_eq_dec : EqDecision Message.
Proof.
  assert (EqDecision Ipv4Reconfig) by solve_decision. assert (EqDecision PtyConfig) by solve_decision.
  assert (EqDecision ExecRequest) by solve_decision. assert (EqDecision SessionSpec) by solve_decision.
  solve_decision.
Defined.

(** The serialisation of the messages in a table. *)
Definition table_postcard (t : list (Message * string)) (H : NoDup t.*2) : Postcard.
Proof.
  refine {|
    to_stdvec m := snd <$> List.find (λ p, bool_decide (p.1 = m)) t;
    from_bytes b := fst <$> List.find (λ p, bool_decide (p.2 = b)) t |}.
  intros m b. destruct (List.find _ t) as [[m' b']|] eqn:E; [|discriminate].
  apply List.find_some in E as [Hin Hm%bool_decide_eq_true]. cbn in Hm. subst m'. intros [= <-]. cbn.
  destruct (List.find (λ p, bool_decide (p.2 = b')) t) as [[m2 b2]|] eqn:E2.
  - apply List.find_some in E2 as [Hin2 Hb2%bool_decide_eq_true]. cbn in Hb2. subst b2. cbn. f_equal.
    apply list_elem_of_In, list_elem_of_lookup in Hin as [i Hi], Hin2 as [j Hj].
    assert (i = j) as -> by (eapply NoDup_lookup; [exact H| |]; rewrite list_lookup_fmap; [by rewrite Hi|by rewrite Hj]).
    congruence.
  - apply (List.find_none _ _ E2) in Hin. by rewrite bool_decide_true in Hin.
Defined.

Definition demo_stream : string :=
  match send_msgs (PC := demo_postcard) "" [Ready; Stdout "hi"; Exit 0] with Ok s => s | Err _ => "" end.

Lemma cut_stream_delivers_prefix_witness :
  read_msgs (PC := demo_postcard) 12 (str_take 11 demo_stream) = ([Ready], UnexpectedEof) ∧
  ∃ k w, read_msgs (PC := demo_postcard) (S (String.length (str_take 11 demo_stream))) (str_take 11 demo_stream) =
      (take k [Ready; Stdout "hi"; Exit 0], UnexpectedEof) ∧
    send_msgs (PC := demo_postcard) "" (take k [Ready; Stdout "hi"; Exit 0]) = Ok w.
Proof.
  split; [vm_compute; reflexivity|].
  destruct (cut_stream_delivers_prefix (PC := demo_postcard) [Ready; Stdout "hi"; Exit 0] demo_stream
    (str_take 11 demo_stream) (String.substring 11 6 demo_stream)) as (k & w & Hr & Hw & _).
  - vm_compute. reflexivity.
  - vm_compute. reflexivity.
  - exists k, w. split; [exact Hr|exact Hw].
Defined.
