(* ===== verification/Fault.v ===== *)
(** * Reading a guest-kernel fault off the serial console

    Models [crates/vmcell/src/vmm/fault.rs]: the signatures of each class, their
    precedence, the whole-buffer prefilter and [classify_serial_fault].  A
    signature is looked for with [str::contains]; how [Debug] writes the line
    that is quoted is a parameter. *)

From S2P Require Import Prelude Wire.

(** [s.contains(needle)]. *)
Fixpoint str_contains (needle s : string) : bool :=
  starts_with needle s || match s with EmptyString => false | String _ s => str_contains needle s end.

(** ** The classes *)

Inductive GuestFault := Kasan | Oops | Panic | Lockdep.

#[export] Instance GuestFault_eq_dec : EqDecision GuestFault.
Proof. solve_decision. Defined.

Definition KASAN_SIGNATURES : list string := ["BUG: KASAN:"].

Definition OOPS_SIGNATURES : list string :=
  ["Oops: "; "BUG: kernel NULL pointer dereference"; "BUG: unable to handle page fault";
   "general protection fault"; "kernel BUG at "; "Internal error: Oops"].

Definition PANIC_SIGNATURES : list string := ["Kernel panic"; "panicked at"; "panic - not syncing"].

Definition LOCKDEP_SIGNATURES : list string :=
  ["possible circular locking dependency detected"; "possible recursive locking detected";
   "possible irq lock inversion dependency detected"; "inconsistent lock state"; "BUG: held lock freed!"].

Definition FAULT_PRECEDENCE : list GuestFault := [Kasan; Oops; Panic; Lockdep].

Definition signatures (f : GuestFault) : list string :=
  match f with
  | Kasan => KASAN_SIGNATURES
  | Oops => OOPS_SIGNATURES
  | Panic => PANIC_SIGNATURES
  | Lockdep => LOCKDEP_SIGNATURES
  end.

Record SerialFault := { kind : GuestFault; halted : bool; evidence : string }.

Definition NO_CONSOLE_EVIDENCE : string := "(no console text available)".

Definition opaque_panic : SerialFault := {| kind := Panic; halted := true; evidence := NO_CONSOLE_EVIDENCE |}.

(** ** The classifier *)

Definition first_line_matching (log : string) (sigs : list string) : option string :=
  List.find (λ line, existsb (λ needle, str_contains needle line) sigs) (str_lines log).

Definition may_carry_fault (log : string) : bool :=
  existsb (λ needle, str_contains needle log) (FAULT_PRECEDENCE ≫= signatures).

Definition log_reports_panic (log : string) : bool :=
  bool_decide (is_Some (first_line_matching log (signatures Panic))).

Section classify.
(** What [Debug] writes for a [str]. *)
Context (debug_str : string → list string).

Fixpoint classify_kinds (log : string) (halted : bool) (kinds : list GuestFault) : option SerialFault :=
  match kinds with
  | [] => None
  | k :: kinds =>
      match first_line_matching log (signatures k) with
      | Some line => Some {| kind := k; halted := halted; evidence := capped_debug (debug_str (str_trim line)) |}
      | None => classify_kinds log halted kinds
      end
  end.

Definition classify_serial_fault (log : string) : option SerialFault :=
  if negb (may_carry_fault log) then None
  else classify_kinds log (log_reports_panic log) FAULT_PRECEDENCE.
End classify.

(** ** Lines and the whole buffer *)

Lemma starts_with_sep n c a b : c ∉ bytes n → starts_with n (a +:+ String c b) = starts_with n a.
Proof.
  revert a. induction n as [|d n IH]; intros a Hn; [by destruct a|]. cbn [bytes] in Hn.
  apply not_elem_of_cons in Hn as [Hd Hn]. destruct a as [|e a]; [rewrite append_nil_l|rewrite append_cons]; cbn [starts_with].
  - by rewrite bool_decide_false by congruence.
  - by rewrite IH.
Qed.

(** A needle without the separator lies within one part. *)
Lemma str_contains_sep n c a b :
  c ∉ bytes n → str_contains n (a +:+ String c b) = str_contains n a || str_contains n b.
Proof.
  intros Hn. induction a as [|d a IH]; cbn [str_contains].
  - rewrite append_nil_l. cbn [str_contains]. rewrite <- (append_nil_l (String c b)), starts_with_sep by done.
    by rewrite orb_false_r.
  - rewrite append_cons. cbn [str_contains]. rewrite IH, <- append_cons, starts_with_sep by done.
    by rewrite orb_assoc.
Qed.

Lemma str_contains_join n c l :
  c ∉ bytes n → l ≠ [] → str_contains n (str_join (String c "") l) = existsb (str_contains n) l.
Proof.
  intros Hn Hl. induction l as [|a l IH]; [done|]. destruct l as [|b l]; [cbn; by rewrite orb_false_r|].
  change (str_join (String c "") (a :: b :: l)) with (a +:+ String c (str_join (String c "") (b :: l))).
  rewrite str_contains_sep by done. cbn [existsb] in *. by rewrite IH.
Qed.

Lemma str_contains_lines_of n l :
  n ≠ "" → ascii_of_N 13 ∉ bytes n → existsb (str_contains n) (lines_of l) = existsb (str_contains n) l.
Proof.
  intros Hne Hn. induction l as [|p [|q l] IH]; [done| |].
  - cbn [lines_of]. case_decide; [subst p; destruct n; [done|]; reflexivity|done].
  - change (lines_of (p :: q :: l)) with (default p (strip_suffix (utf8 [13%N]) p) :: lines_of (q :: l)).
    cbn [existsb] in *. rewrite IH. f_equal.
    destruct (strip_suffix (utf8 [13%N]) p) as [p'|] eqn:E; [|done]. apply strip_suffix_spec in E as ->. cbn [default].
    change (utf8 [13%N]) with (String (ascii_of_N 13) ""). rewrite str_contains_sep by done.
    by destruct n; [|cbn; rewrite orb_false_r].
Qed.

(** Looking at the lines is looking at the whole. *)
Lemma str_contains_lines n log :
  n ≠ "" → ascii_of_N 10 ∉ bytes n → ascii_of_N 13 ∉ bytes n →
  existsb (str_contains n) (str_lines log) = str_contains n log.
Proof.
  intros Hne H10 H13. unfold str_lines. rewrite str_contains_lines_of by done.
  rewrite <- str_contains_join with (c := ascii_of_N 10) by (done || apply str_split_nonempty).
  by rewrite str_join_split.
Qed.

(** ** The classifier against the whole buffer *)

(** The console carries a signature of the class. *)
Definition shows (log : string) (k : GuestFault) : bool :=
  existsb (λ needle, str_contains needle log) (signatures k).

Definition plain_needle (n : string) : Prop :=
  n ≠ "" ∧ ascii_of_N 10 ∉ bytes n ∧ ascii_of_N 13 ∉ bytes n.

#[local] Instance plain_needle_dec n : Decision (plain_needle n) := _.

Lemma signatures_plain k : Forall plain_needle (signatures k).
Proof. refine (bool_decide_unpack _ _). destruct k; vm_compute; exact I. Qed.

Lemma first_line_matching_shows log k :
  bool_decide (is_Some (first_line_matching log (signatures k))) = shows log k.
Proof.
  unfold first_line_matching, shows. apply eq_bool_prop_intro.
  rewrite bool_decide_spec, Is_true_true, existsb_exists. pose proof (signatures_plain k) as Hp.
  rewrite Forall_forall in Hp. split.
  - intros [line [Hin Hm]%List.find_some]. apply existsb_exists in Hm as (n & Hn & Hc). exists n. split; [done|].
    destruct (Hp n) as (Hne & H10 & H13); [by apply list_elem_of_In|].
    rewrite <- str_contains_lines by done. apply existsb_exists. eauto.
  - intros (n & Hn & Hc). destruct (Hp n) as (Hne & H10 & H13); [by apply list_elem_of_In|].
    rewrite <- str_contains_lines in Hc by done. apply existsb_exists in Hc as (line & Hl & Hc).
    destruct (List.find _ _) eqn:E; [by eauto|]. apply (List.find_none _ _ E) in Hl.
    apply not_true_iff_false in Hl. destruct Hl. apply existsb_exists. eauto.
Qed.

Section exact.
Context (debug_str : string → list string).

Lemma classify_kinds_kind log h ks :
  kind <$> classify_kinds debug_str log h ks = List.find (shows log) ks.
Proof.
  induction ks as [|k ks IH]; [done|]. cbn. rewrite <- first_line_matching_shows.
  destruct (first_line_matching log (signatures k)); [done|]. exact IH.
Qed.

Lemma may_carry_fault_shows log : may_carry_fault log = existsb (shows log) FAULT_PRECEDENCE.
Proof. unfold may_carry_fault, shows. cbn. by rewrite !orb_false_r, !orb_assoc. Qed.

(** The classifier names the most specific fault the console shows and
    whether the kernel stopped, whatever else it shows.  The prefilter and the
    line-by-line search change nothing: the class is the first, in the order of
    precedence, with a signature anywhere in the buffer, [None] means no
    signature at all, [halted] is whether a panic signature is there, and the
    line quoted is the first with a signature of the class. *)
Theorem classify_serial_fault_exact log :
  kind <$> classify_serial_fault debug_str log = List.find (shows log) FAULT_PRECEDENCE ∧
  ∀ f, classify_serial_fault debug_str log = Some f →
    halted f = shows log Panic ∧
    ∃ line, first_line_matching log (signatures (kind f)) = Some line ∧
      evidence f = capped_debug (debug_str (str_trim line)).
Proof.
  unfold classify_serial_fault. rewrite may_carry_fault_shows.
  destruct (existsb (shows log) FAULT_PRECEDENCE) eqn:E; cbn [negb].
  - split; [apply classify_kinds_kind|]. intros f. unfold log_reports_panic. rewrite first_line_matching_shows.
    clear E. generalize (shows log Panic) as h. intros h. induction FAULT_PRECEDENCE as [|k ks IH]; [done|]. cbn.
    destruct (first_line_matching log (signatures k)) as [line|] eqn:El; [|exact IH].
    intros [= <-]. cbn. eauto.
  - split; [|done]. symmetry. destruct (List.find _ _) eqn:Ef; [|done]. apply List.find_some in Ef as [Hin Hs].
    apply not_true_iff_false in E. destruct E. apply existsb_exists. eauto.
Qed.
End exact.

(** A guest that echoes its command line, reports a use-after-free and then
    stops. *)
Lemma classify_serial_fault_demo :
  classify_serial_fault (λ s, [s])
    (render_lines ["Kernel command line: console=ttyS0 panic=1"; "  BUG: KASAN: slab-use-after-free in foo ";
       "Kernel panic - not syncing: KASAN"]) =
    Some {| kind := Kasan; halted := true; evidence := "BUG: KASAN: slab-use-after-free in foo" |} ∧
  classify_serial_fault (λ s, [s]) (render_lines ["Kernel command line: console=ttyS0 panic=1"]) = None.
Proof. split; vm_compute; reflexivity. Qed.
