(* ===== verification/Client.v ===== *)
(** * The host's steward client

    Models [StewardClient] and [VsockDial] of
    [crates/vmcell/src/steward/mod.rs] with [VsockEndpoint] of
    [crates/vmcell/src/vmm/mod.rs] and the timeout knobs of
    [crates/vmcell/src/config.rs]: the hybrid prologue, the connect loop, the
    recovery address, and the three requests with the desynchronisation flag.

    Time is in nanoseconds.  An operation the host awaits is [pending]: it
    answers after a while or never.  A connection is the list of what
    [framed.next()] will yield on it, in order; how long the host waits is the
    number of items it gets before its timer fires.  Error texts are dropped. *)

From S2P Require Import Prelude Wire Fault.

(** ** Endpoints *)

Inductive VsockEndpoint := Unix (path : string) (port : N) | Vsock (cid port : N).

#[export] Instance VsockEndpoint_eq_dec : EqDecision VsockEndpoint.
Proof. solve_decision. Defined.

Definition with_port (e : VsockEndpoint) (port : N) : VsockEndpoint :=
  match e with Unix path _ => Unix path port | Vsock cid _ => Vsock cid port end.

Definition endpoint_on_port (e : VsockEndpoint) (port : N) : VsockEndpoint :=
  match e with Unix path _ => Unix path port | Vsock cid _ => Vsock cid port end.

Definition hybrid_prologue_port (e : VsockEndpoint) : option N :=
  match e with Unix _ port => Some port | Vsock _ _ => None end.

Inductive Error :=
  | ESteward | ETimeout | EIo | EPostcard
  | EGuestKernelFault (f : SerialFault).

Definition recovery_endpoint (recorded : option VsockEndpoint) (supplied : option (string * N))
    : result Error VsockEndpoint :=
  match recorded, supplied with
  | Some recorded, None => Ok recorded
  | None, None => Err ESteward
  | Some (Vsock _ _), Some _ => Err ESteward
  | (Some (Unix _ _) | None), Some (path, port) => Ok (Unix path port)
  end.

(** ** Time *)

Definition ms (n : N) : N := n * 10 ^ 6.

Record Timeouts := {
  connect_backoff_floor : N;
  connect_backoff_cap : N;
  connect_ok_read : N;
  api_socket_poll : N;
  shutdown_grace : N;
  guest_accept_poll : N;
  guest_rebind_idle : N;
}.

Definition clamped (t : Timeouts) : Timeouts :=
  let floor := N.max (connect_backoff_floor t) (ms 1) in {|
  connect_backoff_floor := floor;
  connect_backoff_cap := N.max (connect_backoff_cap t) floor;
  connect_ok_read := N.max (connect_ok_read t) (ms 5);
  api_socket_poll := N.max (api_socket_poll t) (ms 1);
  shutdown_grace := shutdown_grace t;
  guest_accept_poll := N.max (guest_accept_poll t) (ms 1);
  guest_rebind_idle := N.max (guest_rebind_idle t) (ms 20) |}.

Definition default_timeouts : Timeouts := {|
  connect_backoff_floor := ms 20; connect_backoff_cap := ms 100; connect_ok_read := ms 150;
  api_socket_poll := ms 5; shutdown_grace := ms 250; guest_accept_poll := ms 20; guest_rebind_idle := ms 250 |}.

Inductive pending (A : Type) := At (dur : N) (a : A) | Never.
Arguments At {A} _ _.
Arguments Never {A}.

Definition after {A} (d : N) (p : pending A) : pending A :=
  match p with At d' a => At (d + d') a | Never => Never end.

(** [timeout_at(deadline, p).await] at [now]: the future is polled first, so one
    that is ready answers even past the deadline. *)
Definition timeout_at {A} (deadline now : N) (p : pending A) : option A * N :=
  match p with
  | At d a => if (d =? 0)%N || (now + d <=? deadline)%N then (Some a, now + d)%N else (None, N.max now deadline)
  | Never => (None, N.max now deadline)
  end.

(** ** The hybrid prologue *)

Inductive read_event := ReadByte (b : ascii) | ReadZero | ReadErr.

Inductive PrologueError :=
  | PWrite | PRead | PEof (partial : string) | PReadTimeout (partial : string) | PRefused (line : string).

Definition MAX_PROLOGUE_LINE_BYTES : nat := 256.

(** [resp.push(byte as char)]: the character U+0000 to U+00FF in UTF-8. *)
Definition push_byte (resp : string) (b : ascii) : string :=
  let n := byte_N b in
  if (n <? 128)%N then resp +:+ String b ""
  else resp +:+ String (ascii_of_N (192 + n / 64)) (String (ascii_of_N (128 + n mod 64)) "").

Fixpoint prologue_read (ok_read : N) (resp : string) (reads : list (pending read_event))
    : pending (result PrologueError unit) :=
  match reads with
  | At d ev :: reads =>
      if (ok_read <? d)%N then At ok_read (Err (PReadTimeout resp)) else
      match ev with
      | ReadErr => At d (Err PRead)
      | ReadZero => At d (Err (PEof resp))
      | ReadByte b =>
          let resp := push_byte resp b in
          if decide (b = ascii_of_N 10) then
            At d (if starts_with "OK " resp then Ok tt else Err (PRefused resp))
          else if decide (MAX_PROLOGUE_LINE_BYTES ≤ String.length resp) then At d (Err (PRefused resp))
          else after d (prologue_read ok_read resp reads)
      end
  | _ => At ok_read (Err (PReadTimeout resp))
  end.

Definition hybrid_connect_prologue (ok_read : N) (write : pending bool) (reads : list (pending read_event))
    : pending (result PrologueError unit) :=
  match write with
  | Never => Never
  | At d false => At d (Err PWrite)
  | At d true => after d (prologue_read ok_read "" reads)
  end.

Definition dial_prologue_error (e : PrologueError) : Error :=
  match e with
  | PWrite | PRead => EIo
  | PEof _ => ESteward
  | PReadTimeout _ => ETimeout
  | PRefused _ => ESteward
  end.

(** ** Connecting *)

(** What [framed.next()] yields. *)
Inductive next_event := NFrame (b : string) | NErr | NEnd.

(** What one attempt meets. *)
Record attempt := {
  a_connect : pending bool;
  a_write : pending bool;
  a_reads : list (pending read_event);
  a_ready : pending next_event;
}.

Inductive ConnectAttemptError := CSocket | CPrologue (e : PrologueError) | CReady | CDeadline.

Definition READY_FRAME_READ : N := 2 * 10 ^ 9.

(** [VsockDial::connect_endpoint]. *)
Definition dial (e : VsockEndpoint) (port : N) (limit : N) (t : Timeouts) (a : attempt) : result Error unit :=
  let steps : pending (result Error unit) :=
    match a_connect a with
    | Never => Never
    | At d false => At d (Err EIo)
    | At d true =>
        match hybrid_prologue_port (endpoint_on_port e port) with
        | None => At d (Ok tt)
        | Some _ =>
            match hybrid_connect_prologue (connect_ok_read t) (a_write a) (a_reads a) with
            | Never => Never
            | At d' (Ok _) => At (d + d') (Ok tt)
            | At d' (Err e) => At (d + d') (Err (dial_prologue_error e))
            end
        end
    end in
  match timeout_at limit 0 steps with
  | (Some r, _) => r
  | (None, _) => Err ETimeout
  end.

Section connect.
Context {PC : Postcard}.

Definition connect_framed_once (e : VsockEndpoint) (t : Timeouts) (deadline : N) (a : attempt) (now : N)
    : result ConnectAttemptError unit * N :=
  match timeout_at deadline now (a_connect a) with
  | (None, now) => (Err CDeadline, now)
  | (Some false, now) => (Err CSocket, now)
  | (Some true, now) =>
      let '(r, now) :=
        match hybrid_prologue_port e with
        | None => (Ok tt, now)
        | Some _ =>
            match timeout_at deadline now (hybrid_connect_prologue (connect_ok_read t) (a_write a) (a_reads a)) with
            | (None, now) => (Err CDeadline, now)
            | (Some (Err e), now) => (Err (CPrologue e), now)
            | (Some (Ok _), now) => (Ok tt, now)
            end
        end in
      match r with
      | Err e => (Err e, now)
      | Ok _ =>
          let ready_at := N.min deadline (now + READY_FRAME_READ) in
          match timeout_at ready_at now (a_ready a) with
          | (Some (NFrame b), now) =>
              (match from_bytes b with Some Ready => Ok tt | _ => Err CReady end, now)
          | (Some _, now) => (Err CReady, now)
          | (None, now) => (Err (if (deadline <=? now)%N then CDeadline else CReady), now)
          end
      end
  end.

(** [expiry_error]; [serial] is what the console shows at a time. *)
Definition expiry_error (serial : N → option SerialFault) (now : N) : Error :=
  match serial now with Some f => EGuestKernelFault f | None => ETimeout end.

(** The loop; [None] is out of fuel. *)
Fixpoint connect_loop (fuel : nat) (e : VsockEndpoint) (t : Timeouts) (serial : N → option SerialFault)
    (deadline : N) (attempts : nat → attempt) (n : nat) (backoff now : N) : option (result Error nat * N) :=
  match fuel with
  | 0 => None
  | S fuel =>
      if (deadline <? now)%N then Some (Err (expiry_error serial now), now) else
      match serial now with
      | Some ({| halted := true |} as f) => Some (Err (EGuestKernelFault f), now)
      | _ =>
          match connect_framed_once e t deadline (attempts n) now with
          | (Ok _, now) => Some (Ok n, now)
          | (Err CDeadline, now) => Some (Err (expiry_error serial now), now)
          | (Err CSocket, now) =>
              connect_loop fuel e t serial deadline attempts (S n)
                (N.min (backoff * 2) (connect_backoff_cap t)) (now + backoff)
          | (Err _, now) =>
              let backoff := connect_backoff_floor t in
              connect_loop fuel e t serial deadline attempts (S n) backoff (now + backoff)
          end
      end
  end.

(** Every round sleeps at least the floor. *)
Definition connect_fuel (t : Timeouts) (limit : N) : nat := S (S (N.to_nat (limit / connect_backoff_floor t))).

(** [connect_framed] at time 0; on success, the attempt that got through. *)
Definition connect_framed (e : VsockEndpoint) (limit : N) (t : Timeouts) (serial : N → option SerialFault)
    (attempts : nat → attempt) : option (result Error nat * N) :=
  connect_loop (connect_fuel t limit) e t serial limit attempts 0 (connect_backoff_floor t) 0.
End connect.

(** ** Requests *)

Record StewardClient := {
  sc_stream : list next_event;
  sc_endpoint : option VsockEndpoint;
  sc_desynced : bool;
}.

Record ResyncOutcome := {
  ro_clock_error : option string;
  ro_reseed_applied : bool;
  ro_mac_applied : bool;
  ro_ip_applied : bool;
}.

Inductive RequestFailure := Clean (e : Error) | Transport (e : Error).

Inductive send_event := SendOk | SendErr | SendStall.

(** What an exchange meets: the send, what the guest answers on this connection
    because of it, and how many items arrive before the timer fires. *)
Record exchange := { x_send : send_event; x_reply : list next_event; x_patience : nat }.

Definition with_stream (c : StewardClient) (s : list next_event) : StewardClient :=
  {| sc_stream := s; sc_endpoint := sc_endpoint c; sc_desynced := sc_desynced c |}.

Definition with_desync (c : StewardClient) (d : bool) : StewardClient :=
  {| sc_stream := sc_stream c; sc_endpoint := sc_endpoint c; sc_desynced := d |}.

Definition client_at (e : VsockEndpoint) : StewardClient :=
  {| sc_stream := []; sc_endpoint := Some e; sc_desynced := false |}.

Definition ensure_synced (c : StewardClient) : result Error unit :=
  if sc_desynced c then Err ESteward else Ok tt.

(** [None] is the elapsed timer. *)
Definition finish_request {A} (c : StewardClient) (r : option (result RequestFailure A))
    : result Error A * StewardClient :=
  match r with
  | Some (Ok v) => (Ok v, c)
  | Some (Err (Clean e)) => (Err e, c)
  | Some (Err (Transport e)) => (Err e, with_desync c true)
  | None => (Err ETimeout, with_desync c true)
  end.

(** One [next().await] under the timer: the end of a stream is there to stay. *)
Definition next (patience : nat) (s : list next_event) : option (next_event * list next_event * nat) :=
  match patience, s with
  | S p, NEnd :: _ => Some (NEnd, s, p)
  | S p, ev :: s => Some (ev, s, p)
  | _, _ => None
  end.

Section requests.
Context {PC : Postcard}.

Fixpoint exec_loop (patience : nat) (outcome : ExecOutcome) (s : list next_event)
    : option (result RequestFailure ExecOutcome) * list next_event :=
  match patience with
  | 0 => (None, s)
  | S patience =>
      match s with
      | [] => (None, s)
      | NEnd :: _ => (Some (Err (Transport ESteward)), s)
      | NErr :: s => (Some (Err (Transport EIo)), s)
      | NFrame b :: s =>
          match from_bytes b with
          | None => (Some (Err (Transport EPostcard)), s)
          | Some (Stdout d) =>
              exec_loop patience {| oc_code := oc_code outcome; oc_stdout := oc_stdout outcome +:+ d;
                                    oc_stderr := oc_stderr outcome |} s
          | Some (Stderr d) =>
              exec_loop patience {| oc_code := oc_code outcome; oc_stdout := oc_stdout outcome;
                                    oc_stderr := oc_stderr outcome +:+ d |} s
          | Some (Exit code) =>
              (Some (Ok {| oc_code := code; oc_stdout := oc_stdout outcome; oc_stderr := oc_stderr outcome |}), s)
          | Some _ => exec_loop patience outcome s
          end
      end
  end.

Definition encode_or (m : Message) : result Error string :=
  match encode_frame m with
  | Ok b => Ok b
  | Err EncodeSerde => Err EPostcard
  | Err (EncodeTooLarge _) => Err ESteward
  end.

(** The body every request wraps in [timeout]: the send, then [receive]. *)
Definition exchange_with {A} (c : StewardClient) (x : exchange)
    (receive : nat → list next_event → option (result RequestFailure A) * list next_event)
    : result Error A * StewardClient :=
  let s := sc_stream c ++ x_reply x in
  match x_send x with
  | SendErr => finish_request (with_stream c s) (Some (Err (Transport EIo)))
  | SendStall => finish_request (with_stream c s) None
  | SendOk =>
      let '(r, s) := receive (x_patience x) s in
      finish_request (with_stream c s) r
  end.

Definition exec (c : StewardClient) (cmd : ExecRequest) (x : exchange) : result Error ExecOutcome * StewardClient :=
  match ensure_synced c with
  | Err e => (Err e, c)
  | Ok _ =>
      let cmd := with_timeout cmd (default DEFAULT_EXEC_TIMEOUT (timeout cmd)) in
      match encode_or (Exec cmd) with
      | Err e => (Err e, c)
      | Ok _ => exchange_with c x (λ p s, exec_loop p ExecOutcome_default s)
      end
  end.

(** The requests that await exactly one frame. *)
Definition receive_one {A} (decode : Message → result RequestFailure A) (patience : nat) (s : list next_event)
    : option (result RequestFailure A) * list next_event :=
  match next patience s with
  | None => (None, s)
  | Some (NEnd, s, _) => (Some (Err (Transport ESteward)), s)
  | Some (NErr, s, _) => (Some (Err (Transport EIo)), s)
  | Some (NFrame b, s, _) =>
      match from_bytes b with
      | None => (Some (Err (Transport EPostcard)), s)
      | Some m => (Some (decode m), s)
      end
  end.

Definition put_file (c : StewardClient) (dst content : string) (x : exchange) : result Error unit * StewardClient :=
  match ensure_synced c with
  | Err e => (Err e, c)
  | Ok _ =>
      match encode_or (PutFile dst content) with
      | Err e => (Err e, c)
      | Ok _ =>
          exchange_with c x (receive_one (λ m,
            match m with
            | Exit 0 => Ok tt
            | Exit _ => Err (Clean ESteward)
            | _ => Err (Transport ESteward)
            end))
      end
  end.

Definition resync (c : StewardClient) (unix_secs unix_nanos : N) (mac : option (list N)) (ipv4 : option Ipv4Reconfig)
    (x : exchange) : result Error ResyncOutcome * StewardClient :=
  match ensure_synced c with
  | Err e => (Err e, c)
  | Ok _ =>
      match encode_or (Resync unix_secs unix_nanos mac ipv4) with
      | Err e => (Err e, c)
      | Ok _ =>
          exchange_with c x (receive_one (λ m,
            match m with
            | ResyncAck clock_error reseed_applied mac_applied ip_applied =>
                Ok {| ro_clock_error := clock_error; ro_reseed_applied := reseed_applied;
                      ro_mac_applied := mac_applied; ro_ip_applied := ip_applied |}
            | _ => Err (Transport ESteward)
            end))
      end
  end.

(** [redial] to [e]; [connected] is what [connect_framed] answers. *)
Definition redial (c : StewardClient) (e : VsockEndpoint) (connected : result Error unit)
    : result Error unit * StewardClient :=
  match connected with
  | Err err => (Err err, c)
  | Ok _ => (Ok tt, client_at e)
  end.

Definition reconnect (c : StewardClient) (vsock_path : string) (port : N)
    (connect : VsockEndpoint → result Error unit) : result Error unit * StewardClient :=
  match recovery_endpoint (sc_endpoint c) (Some (vsock_path, port)) with
  | Err e => (Err e, c)
  | Ok e => redial c e (connect e)
  end.

Definition reconnect_endpoint (c : StewardClient) (connect : VsockEndpoint → result Error unit)
    : result Error unit * StewardClient :=
  match recovery_endpoint (sc_endpoint c) None with
  | Err e => (Err e, c)
  | Ok e => redial c e (connect e)
  end.
End requests.

(** ** The connect loop ends *)

Lemma timeout_at_bound {A} deadline now (p : pending A) r now' :
  timeout_at deadline now p = (r, now') → (now <= deadline)%N →
  (now <= now' <= deadline)%N ∧ (r = None → now' = deadline) ∧ (∀ a, r = Some a → ∃ d, p = At d a).
Proof.
  destruct p as [d a|]; cbn [timeout_at].
  - destruct (N.eqb_spec d 0); cbn [orb]; [|destruct (N.leb_spec (now + d) deadline)];
      intros [= <- <-] Hn; (split; [lia|]); (split; [intros; (done || lia)|]); intros a' [= <-]; by eauto.
  - intros [= <- <-] H. split; [lia|]. split; [intros; lia|done].
Qed.

Section connect_props.
Context {PC : Postcard}.

(** The attempt got the guest's [Ready]. *)
Definition answers_ready (a : attempt) : Prop :=
  ∃ d b, a_ready a = At d (NFrame b) ∧ from_bytes b = Some Ready.

Lemma connect_once_bound e t deadline a now r now' :
  connect_framed_once e t deadline a now = (r, now') → (now <= deadline)%N →
  (now <= now' <= deadline)%N ∧ (r = Err CDeadline → now' = deadline) ∧ (r = Ok tt → answers_ready a).
Proof.
  unfold connect_framed_once. intros H Hn.
  destruct (timeout_at deadline now (a_connect a)) as [[[]|] n1] eqn:E1;
    apply timeout_at_bound in E1 as ([B1 B1'] & D1 & _); try done.
  2, 3: injection H as <- <-; split; [done|]; split; [naive_solver|done].
  match type of H with context [let '(_, _) := ?m in _] => destruct m as [[[]|e2] n2] eqn:E2 end.
  - assert (n1 <= n2 <= deadline)%N as B2.
    { destruct (hybrid_prologue_port e); [|injection E2 as <-; lia].
      destruct (timeout_at deadline n1 _) as [[[[]|]|] n3] eqn:E3;
        apply timeout_at_bound in E3 as (B3 & _ & _); try done; try (injection E2 as <-; lia). }
    destruct (timeout_at (N.min deadline (n2 + READY_FRAME_READ)) n2 (a_ready a)) as [o n3] eqn:E3.
    apply timeout_at_bound in E3 as (B3 & D3 & A3); [|lia].
    destruct o as [[b| |]|].
    + injection H as <- <-. split; [lia|].
      destruct (from_bytes b) as [[]|] eqn:Eb; split; try done. intros _.
      destruct (A3 _ eq_refl) as [d Hd]. by exists d, b.
    + injection H as <- <-. split; [lia|]. done.
    + injection H as <- <-. split; [lia|]. done.
    + injection H as <- <-. split; [lia|]. split; [|by destruct (_ <=? _)%N].
      destruct (N.leb_spec deadline n3); [intros; lia|done].
  - injection H as <- <-. destruct (hybrid_prologue_port e); [|done].
    destruct (timeout_at deadline n1 _) as [[[[]|]|] n3] eqn:E3;
      apply timeout_at_bound in E3 as (B3 & D3 & _); try done;
      try (injection E2 as <- <-; (split; [lia|]); split; [|done]; intros; (done || by apply D3)).
Qed.

(** What the caller is told. *)
Definition connect_verdict (limit : N) (serial : N → option SerialFault) (attempts : nat → attempt)
    (r : result Error nat) (now : N) : Prop :=
  match r with
  | Ok n => answers_ready (attempts n) ∧ (now <= limit)%N
  | Err (EGuestKernelFault f) => serial now = Some f
  | Err e => e = ETimeout ∧ (limit <= now)%N ∧ serial now = None
  end.

Lemma expiry_verdict limit serial attempts now :
  (limit <= now)%N → connect_verdict limit serial attempts (Err (expiry_error serial now)) now.
Proof. intros H. unfold connect_verdict, expiry_error. by destruct (serial now). Qed.

Lemma connect_loop_ends e t serial limit attempts :
  (0 < connect_backoff_floor t <= connect_backoff_cap t)%N →
  ∀ fuel n backoff now,
  (connect_backoff_floor t <= backoff <= connect_backoff_cap t)%N →
  (now <= limit + connect_backoff_cap t)%N →
  (now <= limit → limit - now < N.of_nat (fuel - 1) * connect_backoff_floor t)%N → fuel ≠ 0 →
  ∃ r now', connect_loop fuel e t serial limit attempts n backoff now = Some (r, now') ∧
    (now' <= limit + connect_backoff_cap t)%N ∧ connect_verdict limit serial attempts r now'.
Proof.
  intros Ht. induction fuel as [|fuel IH]; intros n backoff now Hb Hn Hf Hz; [done|]. cbn [connect_loop].
  destruct (N.ltb_spec limit now) as [Hlt|Hle].
  { eexists _, _. split; [done|]. split; [done|]. apply expiry_verdict. lia. }
  specialize (Hf Hle). replace (S fuel - 1) with fuel in Hf by lia.
  assert (fuel ≠ 0) as Hz' by (intros ->; lia).
  destruct (connect_framed_once e t limit (attempts n) now) as [r n1] eqn:E.
  apply connect_once_bound in E as (B & D & A); [|done].
  assert (∀ b : N, (connect_backoff_floor t <= b <= connect_backoff_cap t)%N → ∀ b', 
    (connect_backoff_floor t <= b' <= connect_backoff_cap t)%N →
    ∃ r now', connect_loop fuel e t serial limit attempts (S n) b' (n1 + b) = Some (r, now') ∧
      (now' <= limit + connect_backoff_cap t)%N ∧ connect_verdict limit serial attempts r now') as Hnext.
  { intros b Hbb b' Hbb'. apply IH; [done|lia| |done]. intros Hle'.
    assert (N.of_nat fuel = N.of_nat (fuel - 1) + 1)%N as Hs by lia. rewrite Hs in Hf. lia. }
  assert (∃ r' now', match r with
    | Ok _ => Some (Ok n, n1)
    | Err CDeadline => Some (Err (expiry_error serial n1), n1)
    | Err CSocket => connect_loop fuel e t serial limit attempts (S n) (N.min (backoff * 2) (connect_backoff_cap t)) (n1 + backoff)
    | Err _ => connect_loop fuel e t serial limit attempts (S n) (connect_backoff_floor t) (n1 + connect_backoff_floor t)
    end = Some (r', now') ∧ (now' <= limit + connect_backoff_cap t)%N ∧ connect_verdict limit serial attempts r' now') as Hrun.
  { destruct r as [[]|[| | |]]; [|apply Hnext; lia|apply Hnext; lia|apply Hnext; lia|].
    - eexists _, _. split; [done|]. split; [lia|]. split; [by apply A|lia].
    - eexists _, _. split; [done|]. split; [lia|]. apply expiry_verdict. rewrite D by done. lia. }
  destruct (serial now) as [[k [] ev]|] eqn:Es; [|destruct r as [[]|[]]; exact Hrun..].
  eexists _, _. split; [done|]. split; [done|exact Es].
Qed.

(** C39: Connecting ends, whatever the guest, the bridge and the console do.
    With the clamped knobs the retry loop needs no more rounds than the budget
    divided by the back-off floor (plus two), returns at most one back-off cap
    after the budget, succeeds only on an attempt whose first frame was
    [Ready], within the budget, and otherwise names the fault the console shows
    at that moment or, when it shows none, a timeout that did expire. *)
Theorem connect_framed_bounded e limit t serial attempts :
  ∃ r now, connect_framed e limit (clamped t) serial attempts = Some (r, now) ∧
    (now <= limit + connect_backoff_cap (clamped t))%N ∧ connect_verdict limit serial attempts r now.
Proof.
  unfold connect_framed. assert (0 < ms 1)%N as H1 by (by vm_compute).
  assert (0 < connect_backoff_floor (clamped t) <= connect_backoff_cap (clamped t))%N as Ht by (cbn; lia).
  apply connect_loop_ends; [done|lia|lia| |done]. intros _. unfold connect_fuel.
  set (f := connect_backoff_floor (clamped t)) in *.
  pose proof (N.div_mod limit f ltac:(lia)). pose proof (N.mod_lt limit f ltac:(lia)).
  generalize dependent (limit / f)%N. intros q Hq.
  replace (N.of_nat (S (S (N.to_nat q)) - 1)) with (q + 1)%N by lia. lia.
Qed.
End connect_props.

(** The last sleep is not clipped to the budget: an absent socket is reported
    60 ms into a budget of 50 ms. *)
Lemma connect_overruns_budget :
  connect_framed (PC := demo_postcard) (Unix "/tmp/v.sock" 5000) (ms 50) (clamped default_timeouts) (λ _, None)
    (λ _, {| a_connect := At 0 false; a_write := Never; a_reads := []; a_ready := Never |}) =
  Some (Err ETimeout, ms 60).
Proof. vm_compute. reflexivity. Qed.

(** ** Answers belong to their requests *)

(** One call on a client, with what it meets. *)
Inductive call :=
  | CallExec (cmd : ExecRequest) (x : exchange)
  | CallPut (dst content : string) (x : exchange)
  | CallResync (unix_secs unix_nanos : N) (mac : option (list N)) (ipv4 : option Ipv4Reconfig) (x : exchange)
  | CallReconnect (path : string) (port : N) (connect : VsockEndpoint → result Error unit)
  | CallReconnectEndpoint (connect : VsockEndpoint → result Error unit).

Inductive answer := AnsExec (o : ExecOutcome) | AnsPut | AnsResync (o : ResyncOutcome) | AnsConnected.

Definition answered {A} (f : A → answer) (r : result Error A * StewardClient) : result Error answer * StewardClient :=
  (match r.1 with Ok a => Ok (f a) | Err e => Err e end, r.2).

Section answers.
Context {PC : Postcard}.

Definition run_call (c : StewardClient) (o : call) : result Error answer * StewardClient :=
  match o with
  | CallExec cmd x => answered AnsExec (exec c cmd x)
  | CallPut dst content x => answered (λ _, AnsPut) (put_file c dst content x)
  | CallResync s n mac ip x => answered AnsResync (resync c s n mac ip x)
  | CallReconnect path port connect => answered (λ _, AnsConnected) (reconnect c path port connect)
  | CallReconnectEndpoint connect => answered (λ _, AnsConnected) (reconnect_endpoint c connect)
  end.

Fixpoint run_calls (c : StewardClient) (os : list call) : list (result Error answer) * StewardClient :=
  match os with
  | [] => ([], c)
  | o :: os =>
      let '(r, c) := run_call c o in
      let '(rs, c) := run_calls c os in
      (r :: rs, c)
  end.

(** *** What a guest answers *)

Definition is_output (m : Message) : Prop := match m with Stdout _ | Stderr _ => True | _ => False end.

Fixpoint outputs (ms : list Message) : string * string :=
  match ms with
  | [] => ("", "")
  | Stdout d :: ms => (d +:+ (outputs ms).1, (outputs ms).2)
  | Stderr d :: ms => ((outputs ms).1, d +:+ (outputs ms).2)
  | _ :: ms => outputs ms
  end.

(** The messages a guest sends for a call, and what they mean. *)
Inductive block : call → list Message → answer → Prop :=
  | BExec cmd x outs code :
      Forall is_output outs →
      block (CallExec cmd x) (outs ++ [Exit code])
        (AnsExec {| oc_code := code; oc_stdout := (outputs outs).1; oc_stderr := (outputs outs).2 |})
  | BPut dst content x : block (CallPut dst content x) [Exit 0] AnsPut
  | BResync s n mac ip x ce ra ma ia :
      block (CallResync s n mac ip x) [ResyncAck ce ra ma ia]
        (AnsResync {| ro_clock_error := ce; ro_reseed_applied := ra; ro_mac_applied := ma; ro_ip_applied := ia |}).

(** A put that failed answers with its code. *)
Definition meant (o : call) (ms : list Message) (a : answer) : Prop :=
  block o ms a ∨ ∃ dst content x code, o = CallPut dst content x ∧ code ≠ 0%Z ∧ ms = [Exit code].

Definition frame_of (ev : next_event) (m : Message) : Prop :=
  ∃ b, ev = NFrame b ∧ to_stdvec m = Some b.

(** The connection carries a prefix of it, then nothing, an error or its end. *)
Definition carries (reply : list next_event) (ms : list Message) : Prop :=
  ∃ k frames tail, reply = frames ++ tail ∧ Forall2 frame_of frames (take k ms) ∧
    (tail = [] ∨ tail = [NErr] ∨ tail = [NEnd]).

Definition exchange_of (o : call) : option exchange :=
  match o with
  | CallExec _ x | CallPut _ _ x | CallResync _ _ _ _ x => Some x
  | _ => None
  end.

(** An honest connection: every reply carries a block of its call. *)
Definition honest (o : call) : Prop :=
  match exchange_of o with
  | Some x => ∃ ms a, meant o ms a ∧ carries (x_reply x) ms
  | None => True
  end.

(** The answer a call may give: the meaning of the block its own reply carries. *)
Definition own_answer (o : call) (r : result Error answer) : Prop :=
  match r, exchange_of o with
  | Ok a, Some x => ∃ ms, block o ms a ∧ ∃ tail frames, x_reply x = frames ++ tail ∧ Forall2 frame_of frames ms
  | Ok a, None => a = AnsConnected
  | Err _, _ => True
  end.

(** A synchronised stream holds no frame of an earlier exchange. *)
Definition drained (s : list next_event) : Prop := s = [] ∨ s = [NErr] ∨ s = [NEnd].
Definition client_ok (c : StewardClient) : Prop := sc_desynced c = false → drained (sc_stream c).

(** Ends of an exchange that desynchronise the client. *)
Definition fails {A} (r : option (result RequestFailure A)) : Prop :=
  match r with None | Some (Err (Transport _)) => True | _ => False end.

Lemma finish_fails {A} c (r : option (result RequestFailure A)) :
  fails r → client_ok (finish_request c r).2 ∧ ∀ a, (finish_request c r).1 ≠ Ok a.
Proof. by destruct r as [[|[]]|]. Qed.

(** An exchange on a drained stream: the leftovers fail it, and otherwise the
    reply alone decides. *)
Lemma exchange_with_ok {A} c x (receive : nat → list next_event → option (result RequestFailure A) * list next_event)
    (P : A → Prop) :
  sc_desynced c = false → drained (sc_stream c) →
  (∀ p s ev, ev = NErr ∨ ev = NEnd → fails (receive p (ev :: s)).1) →
  match receive (x_patience x) (x_reply x) with
  | (Some (Ok a), s) => drained s ∧ P a
  | (Some (Err (Clean _)), s) => drained s
  | _ => True
  end →
  client_ok (exchange_with c x receive).2 ∧ ∀ a, (exchange_with c x receive).1 = Ok a → P a.
Proof.
  intros Hc Hd Hstuck Hown. unfold exchange_with. destruct (x_send x); [|done|done].
  assert (∀ ev, ev = NErr ∨ ev = NEnd → sc_stream c = [ev] →
    let '(r, s) := receive (x_patience x) (sc_stream c ++ x_reply x) in
    client_ok (finish_request (with_stream c s) r).2 ∧ ∀ a, (finish_request (with_stream c s) r).1 = Ok a → P a)
    as Hleft.
  { intros ev Hev ->. cbn [app]. specialize (Hstuck (x_patience x) (x_reply x) ev Hev).
    destruct (receive _ _) as [r s]. destruct (finish_fails (with_stream c s) r Hstuck) as [? Hne].
    split; [done|]. intros a Ha. by apply Hne in Ha. }
  destruct Hd as [Hd|Hd].
  2: { assert (∃ ev, (ev = NErr ∨ ev = NEnd) ∧ sc_stream c = [ev]) as (ev & Hev & Hs) by naive_solver.
       specialize (Hleft ev Hev Hs). destruct (receive _ (sc_stream c ++ _)) as [r s]. exact Hleft. }
  rewrite Hd. cbn [app].
  destruct (receive (x_patience x) (x_reply x)) as [[[a|[e|e]]|] s]; cbn; try done.
  - split; [by intros _; apply Hown|]. intros a' [= <-]. apply Hown.
  - split; [by intros _|done].
Qed.

Lemma exec_loop_block code outs : ∀ patience oc k frames tail,
  Forall is_output outs → Forall2 frame_of frames (take k (outs ++ [Exit code])) → drained tail →
  match exec_loop patience oc (frames ++ tail) with
  | (Some (Ok o), s) => s = tail ∧ Forall2 frame_of frames (outs ++ [Exit code]) ∧
      o = {| oc_code := code; oc_stdout := oc_stdout oc +:+ (outputs outs).1;
             oc_stderr := oc_stderr oc +:+ (outputs outs).2 |}
  | (Some (Err (Clean _)), _) => False
  | _ => True
  end.
Proof.
  induction outs as [|m outs IH]; intros patience oc k frames tail Ho Hf Ht;
    (destruct patience as [|patience]; [done|]);
    (destruct k as [|k]; [apply Forall2_nil_inv_r in Hf as ->; by destruct Ht as [->|[->| ->]]|]);
    cbn [app take] in Hf; apply Forall2_cons_inv_r in Hf as (ev & frames' & (b & -> & Hb) & Hf & ->);
    cbn [app exec_loop]; rewrite (postcard_law _ _ Hb).
  - rewrite take_nil in Hf. apply Forall2_nil_inv_r in Hf as ->. cbn [outputs fst snd]. rewrite !append_nil_r.
    split; [done|]. split; [|done]. repeat constructor. by exists b.
  - apply Forall_cons in Ho as [Hm Ho].
    destruct m; try done; cbn [outputs fst snd];
      match goal with |- context [exec_loop patience ?oc' (frames' ++ tail)] =>
        specialize (IH patience oc' k frames' tail Ho Hf Ht); destruct (exec_loop patience oc' (frames' ++ tail)) as [[[o|[]]|] s]
      end; try done; destruct IH as (-> & Hall & ->); cbn; rewrite !append_assoc;
      (split; [done|]); (split; [|done]); (constructor; [by exists b|done]).
Qed.

Lemma exec_loop_stuck p oc s ev : ev = NErr ∨ ev = NEnd → fails (exec_loop p oc (ev :: s)).1.
Proof. by destruct p as [|p]; [|intros [-> | ->]]. Qed.

Lemma receive_one_stuck {A} (d : Message → result RequestFailure A) p s ev :
  ev = NErr ∨ ev = NEnd → fails (receive_one d p (ev :: s)).1.
Proof. by destruct p as [|p]; [|intros [-> | ->]]. Qed.

(** A reply of one frame. *)
Lemma receive_one_block {A} (d : Message → result RequestFailure A) p k frames tail m :
  Forall2 frame_of frames (take k [m]) → drained tail →
  match receive_one d p (frames ++ tail) with
  | (Some (Ok a), s) => s = tail ∧ d m = Ok a ∧ Forall2 frame_of frames [m]
  | (Some (Err (Clean e)), s) => s = tail ∧ d m = Err (Clean e)
  | _ => True
  end.
Proof.
  intros Hf Ht. destruct p as [|p]; [done|]. destruct k as [|k].
  { apply Forall2_nil_inv_r in Hf as ->. by destruct Ht as [->|[->| ->]]. }
  cbn [take] in Hf. rewrite take_nil in Hf. pose proof Hf as Hf'.
  apply Forall2_cons_inv_r in Hf as (ev & frames' & (b & -> & Hb) & Hf & ->).
  apply Forall2_nil_inv_r in Hf as ->. cbn. rewrite (postcard_law _ _ Hb).
  destruct (d m) as [a|[]]; done.
Qed.

Lemma exec_ok c cmd x :
  client_ok c → honest (CallExec cmd x) →
  client_ok (exec c cmd x).2 ∧ ∀ o, (exec c cmd x).1 = Ok o → own_answer (CallExec cmd x) (Ok (AnsExec o)).
Proof.
  intros Hc (ms & a & Hm & k & frames & tail & Hr & Hf & Ht). unfold exec, ensure_synced.
  destruct (sc_desynced c) eqn:Hd; [by split|]. destruct (encode_or _); [|by split].
  destruct Hm as [Hm|(?&?&?&?&?&_)]; [|done]. inversion Hm as [cmd' x' outs code Ho| |]; subst cmd' x' ms a.
  apply exchange_with_ok with (P := λ o, own_answer (CallExec cmd x) (Ok (AnsExec o))); [done|by apply Hc|..].
  - intros. by apply exec_loop_stuck.
  - rewrite Hr. pose proof (exec_loop_block code outs (x_patience x) ExecOutcome_default k frames tail Ho Hf Ht) as H.
    destruct (exec_loop _ _ _) as [[[o|[]]|] s]; try done. destruct H as (-> & Hall & ->). split; [done|].
    exists (outs ++ [Exit code]). split; [|rewrite Hr; by exists tail, frames]. cbn. rewrite !append_nil_l. done.
Qed.

Lemma put_ok c dst content x :
  client_ok c → honest (CallPut dst content x) →
  client_ok (put_file c dst content x).2 ∧
  ∀ u, (put_file c dst content x).1 = Ok u → own_answer (CallPut dst content x) (Ok AnsPut).
Proof.
  intros Hc (ms & a & Hm & k & frames & tail & Hr & Hf & Ht). unfold put_file, ensure_synced.
  destruct (sc_desynced c) eqn:Hd; [by split|]. destruct (encode_or _); [|by split].
  assert (∃ code, ms = [Exit code]) as [code ->].
  { destruct Hm as [Hm|(?&?&?&?&_&_&?)]; [inversion Hm|]; by eauto. }
  apply exchange_with_ok with (P := λ _, own_answer (CallPut dst content x) (Ok AnsPut)); [done|by apply Hc|..].
  - intros. by apply receive_one_stuck.
  - rewrite Hr. match goal with |- context [receive_one ?d ?p _] => pose proof (receive_one_block d p k frames tail (Exit code) Hf Ht) as H end.
    destruct (receive_one _ _ _) as [[[o|[]]|] s]; try done; [|by destruct H as [-> _]].
    destruct H as (-> & Hcode & Hall). split; [done|]. destruct code; try done.
    exists [Exit 0]. split; [constructor|]. rewrite Hr. by exists tail, frames.
Qed.

Lemma resync_ok c s n mac ip x :
  client_ok c → honest (CallResync s n mac ip x) →
  client_ok (resync c s n mac ip x).2 ∧
  ∀ o, (resync c s n mac ip x).1 = Ok o → own_answer (CallResync s n mac ip x) (Ok (AnsResync o)).
Proof.
  intros Hc (ms & a & Hm & k & frames & tail & Hr & Hf & Ht). unfold resync, ensure_synced.
  destruct (sc_desynced c) eqn:Hd; [by split|]. destruct (encode_or _); [|by split].
  destruct Hm as [Hm|(?&?&?&?&?&_)]; [|done]. inversion Hm as [| |? ? ? ? ? ce ra ma ia]; subst.
  apply exchange_with_ok with (P := λ o, own_answer (CallResync s n mac ip x) (Ok (AnsResync o))); [done|by apply Hc|..].
  - intros. by apply receive_one_stuck.
  - rewrite Hr. match goal with |- context [receive_one ?d ?p _] => pose proof (receive_one_block d p k frames tail (ResyncAck ce ra ma ia) Hf Ht) as H end.
    destruct (receive_one _ _ _) as [[[o|[]]|] s']; try done; [|by destruct H as [-> _]].
    destruct H as (-> & [= <-] & Hall). split; [done|]. exists [ResyncAck ce ra ma ia]. split; [constructor|].
    rewrite Hr. by exists tail, frames.
Qed.

Lemma redial_ok c e r : client_ok c → client_ok (redial c e r).2.
Proof. intros Hc. destruct r; [by left|exact Hc]. Qed.

Lemma run_call_ok c o :
  client_ok c → honest o → client_ok (run_call c o).2 ∧ own_answer o (run_call c o).1.
Proof.
  intros Hc Hh. destruct o as [cmd x|dst content x|s n mac ip x|path port f|f]; cbn [run_call].
  - destruct (exec_ok c cmd x Hc Hh) as [H1 H2]. split; [done|]. cbn [answered fst].
    destruct (exec c cmd x).1; [by apply H2|done].
  - destruct (put_ok c dst content x Hc Hh) as [H1 H2]. split; [done|]. cbn [answered fst].
    destruct (put_file c dst content x).1; [by eapply H2|done].
  - destruct (resync_ok c s n mac ip x Hc Hh) as [H1 H2]. split; [done|]. cbn [answered fst].
    destruct (resync c s n mac ip x).1; [by apply H2|done].
  - unfold reconnect. destruct (recovery_endpoint _ _) as [ep|]; [|by split].
    split; [by apply redial_ok|]. unfold redial. by destruct (f ep).
  - unfold reconnect_endpoint. destruct (recovery_endpoint _ _) as [ep|]; [|by split].
    split; [by apply redial_ok|]. unfold redial. by destruct (f ep).
Qed.

End answers.

(** *** A run with a late answer *)

#[local] Instance ExecRequest_eq_dec : EqDecision ExecRequest.
Proof. solve_decision. Defined.

Definition ls : ExecRequest := with_timeout (ExecRequest_new ["ls"]) DEFAULT_EXEC_TIMEOUT.

Definition ls_wire : Postcard.
Proof.
  refine {|
    to_stdvec m := match m with Exec r => if decide (r = ls) then Some "X" else None | _ => demo_to_stdvec m end;
    from_bytes b := match b with "X" => Some (Exec ls) | _ => demo_from_bytes b end |}.
  intros [| | | |[]| | | | | | | | | | |] b; try discriminate; try (by intros [= <-]).
  case_decide as H; [intros [= <-]; by rewrite H|discriminate].
Defined.

Definition reply (out : string) : list next_event := [NFrame ("O" +:+ out); NFrame "E"].

Definition late_run : list call := [
  CallExec (ExecRequest_new ["ls"]) {| x_send := SendOk; x_reply := reply "first"; x_patience := 1 |};
  CallExec (ExecRequest_new ["ls"]) {| x_send := SendOk; x_reply := reply "second"; x_patience := 9 |};
  CallReconnectEndpoint (λ _, Ok tt);
  CallExec (ExecRequest_new ["ls"]) {| x_send := SendOk; x_reply := reply "third"; x_patience := 9 |} ].

Lemma late_run_honest : Forall (honest (PC := ls_wire)) late_run.
Proof.
  assert (∀ out p, honest (PC := ls_wire)
    (CallExec (ExecRequest_new ["ls"]) {| x_send := SendOk; x_reply := reply out; x_patience := p |})) as H.
  { intros out p. eexists ([Stdout out] ++ [Exit 0]), _. split; [left; apply BExec; by repeat constructor|].
    exists 2, (reply out), []. split; [done|]. split; [|by left].
    repeat constructor; [by exists ("O" +:+ out)|by exists "E"]. }
  repeat constructor; apply H.
Qed.

