(* ===== verification/Handle.v ===== *)
(** * The handle of a running VM

    Models what a [MicroVm] does between launch and teardown
    ([crates/vmcell/src/orchestrator.rs]): [steward] with its cached client, the
    one-shot resync after a restore ([maybe_resync_after_restore],
    [parse_mac_bytes]), [snapshot]'s guard, and the grace window of [shutdown]
    ([shutdown_poll_step]).  The client is that of [Client.v]; the connect's
    answer, the clock and the exchange a call meets are its arguments. *)

From S2P Require Import Prelude PathLib IdAlloc NetAddr Cmdline Features Wire Fault Client.

(** ** The MAC as bytes *)

Fixpoint mac_groups (n : nat) (parts : list string) : option (list N) :=
  match n, parts with
  | 0, [] => Some []
  | 0, _ :: _ => None
  | S _, [] => None
  | S n, p :: parts =>
      b ← parse_hex u8_max p;
      bs ← mac_groups n parts;
      Some (b :: bs)
  end.

Definition parse_mac_bytes (s : string) : option (list N) := mac_groups 6 (str_split ":" s).

(** ** The handle *)

Record handle := {
  hd_vmid : N;
  hd_endpoint : VsockEndpoint;             (** the instance's *)
  hd_placement : StewardPlacement;
  hd_control_plane_disabled : bool;
  hd_steward_client : option StewardClient;
  hd_restored : bool;
  hd_reseed_applied : option bool;
}.

(** A handle as [start] ([restored = false]) and [restore_inner] make it. *)
Definition new_handle (vmid : N) (e : VsockEndpoint) (p : StewardPlacement) (restored : bool) : handle := {|
  hd_vmid := vmid; hd_endpoint := e; hd_placement := p;
  hd_control_plane_disabled := negb (bool_decide (is_Some (steward_port p)));
  hd_steward_client := None; hd_restored := restored; hd_reseed_applied := None |}.

Definition with_client (h : handle) (c : option StewardClient) : handle := {|
  hd_vmid := hd_vmid h; hd_endpoint := hd_endpoint h; hd_placement := hd_placement h;
  hd_control_plane_disabled := hd_control_plane_disabled h; hd_steward_client := c;
  hd_restored := hd_restored h; hd_reseed_applied := hd_reseed_applied h |}.

Definition with_resynced (h : handle) (reseed : bool) : handle := {|
  hd_vmid := hd_vmid h; hd_endpoint := hd_endpoint h; hd_placement := hd_placement h;
  hd_control_plane_disabled := hd_control_plane_disabled h; hd_steward_client := hd_steward_client h;
  hd_restored := false; hd_reseed_applied := Some reseed |}.

(** What a resync tells the guest. *)
Record identity := { i_secs : N; i_nanos : N; i_mac : list N; i_ipv4 : Ipv4Reconfig }.

(** The part of [maybe_resync_after_restore] before the round trip. *)
Definition resync_identity (clock : option (N * N)) (vmid : N) : result Error identity :=
  let? (secs, nanos) := ok_or clock ESteward in
  let? mac_str := (match mac_math vmid with Ok m => Ok m | Err _ => Err ESteward end) in
  let? mac := ok_or (parse_mac_bytes mac_str) ESteward in
  match ip_math vmid with
  | Err _ => Err ESteward
  | Ok (host_ip, guest_ip, _) =>
      Ok {| i_secs := secs; i_nanos := nanos; i_mac := mac;
            i_ipv4 := {| addr := guest_ip; prefix_len := 30; gateway := host_ip |} |}
  end.

(** What the guest is asked through a handle, in order. *)
Inductive asked := Resynced (i : identity) (o : ResyncOutcome) | Asked (o : call).

Section handle.
Context {PC : Postcard}.

(** Answers with what was sent and the outcome; the client is changed either
    way. *)
Definition maybe_resync_after_restore (c : StewardClient) (clock : option (N * N)) (vmid : N) (x : exchange)
    : result Error (identity * ResyncOutcome) * StewardClient :=
  match resync_identity clock vmid with
  | Err e => (Err e, c)
  | Ok i =>
      match resync c (i_secs i) (i_nanos i) (Some (i_mac i)) (Some (i_ipv4 i)) x with
      | (Err e, c) => (Err e, c)
      | (Ok o, c) =>
          match ro_clock_error o with
          | Some _ => (Err ESteward, c)
          | None => (Ok (i, o), c)
          end
      end
  end.

Definition steward (h : handle) (connect : VsockEndpoint → result Error unit) (clock : option (N * N)) (x : exchange)
    : result Error StewardClient * handle * list asked :=
  if hd_control_plane_disabled h then (Err ESteward, h, []) else
  let h := match hd_steward_client h with
           | Some c => if sc_desynced c then with_client h None else h
           | None => h
           end in
  let connected :=
    match hd_steward_client h with
    | Some c => Ok c
    | None =>
        let e := with_port (hd_endpoint h) (default STEWARD_VSOCK_PORT (steward_port (hd_placement h))) in
        let? _ := connect e in Ok (client_at e)
    end in
  match connected with
  | Err e => (Err e, h, [])
  | Ok c =>
      if hd_restored h then
        match maybe_resync_after_restore c clock (hd_vmid h) x with
        | (Err e, _) => (Err e, with_client h None, [])
        | (Ok (i, o), c) =>
            (Ok c, with_resynced (with_client h (Some c)) (ro_reseed_applied o), [Resynced i o])
        end
      else (Ok c, with_client h (Some c), [])
  end.

(** [snapshot]; [written] is whether the backend wrote it. *)
Inductive snapshot_error := SnapUnsupported (u : Unsupported) | SnapVmm.

Definition snapshot (h : handle) (written : bool) : result snapshot_error unit * handle :=
  if negb (resync_reachable (hd_placement h)) then
    (Err (SnapUnsupported (from_removal "orchestrator" INELIGIBLE_PLACEMENT)), h)
  else if written then (Ok tt, with_client h None)
  else (Err SnapVmm, h).

(** *** Using a handle

    The client [steward] lends is used while it is borrowed. *)
Inductive handle_call :=
  | WithSteward (connect : VsockEndpoint → result Error unit) (clock : option (N * N)) (x : exchange) (os : list call)
  | Snapshot (written : bool).

Definition use_handle (h : handle) (o : handle_call) : handle * list asked :=
  match o with
  | WithSteward connect clock x os =>
      match steward h connect clock x with
      | (Err _, h, l) => (h, l)
      | (Ok c, h, l) => (with_client h (Some (run_calls c os).2), l ++ (Asked <$> os))
      end
  | Snapshot written => ((snapshot h written).2, [])
  end.

Fixpoint use_all (h : handle) (os : list handle_call) : handle * list asked :=
  match os with
  | [] => (h, [])
  | o :: os =>
      let '(h, l) := use_handle h o in
      let '(h, l') := use_all h os in
      (h, l ++ l')
  end.
End handle.

(** ** The grace window *)

Definition shutdown_poll_step (grace : N) : N :=
  if (grace <=? ms 50)%N then ms 5 else if (grace <=? ms 150)%N then ms 10 else ms 20.

(** The loop on [has_exited], from [now]; [exited] is what it answers at a time.
    The number of polls and the time it ends; [None] is out of fuel. *)
Fixpoint grace_loop (fuel : nat) (exited : N → bool) (step deadline now : N) : option (nat * N) :=
  match fuel with
  | 0 => None
  | S fuel =>
      if (now <? deadline)%N then
        if exited now then Some (1, now)
        else '(polls, t) ← grace_loop fuel exited step deadline (now + step); Some (S polls, t)
      else Some (0, now)
  end.

(** Opened at 0; [rpc] is when the shutdown request is answered. *)
Definition grace_deadline (grace rpc : N) : N := N.max grace (rpc + shutdown_poll_step grace).

Definition grace_window (grace rpc : N) (exited : N → bool) : option (nat * N) :=
  let step := shutdown_poll_step grace in
  let deadline := grace_deadline grace rpc in
  grace_loop (S (S (N.to_nat ((deadline - rpc) / step)))) exited step deadline rpc.

(** ** The identity of a restored guest *)

Lemma hex2_parses x : (x < 256)%N → parse_hex u8_max (hex2 x) = Some x ∧ ":"%char ∉ bytes (hex2 x).
Proof.
  intros Hx.
  assert (∀ k, k < 256 → parse_hex u8_max (hex2 (N.of_nat k)) = Some (N.of_nat k) ∧ ":"%char ∉ bytes (hex2 (N.of_nat k))) as H.
  { assert (Forall (λ k, parse_hex u8_max (hex2 (N.of_nat k)) = Some (N.of_nat k) ∧ ":"%char ∉ bytes (hex2 (N.of_nat k)))
      (seq 0 256)) as H by (refine (bool_decide_unpack _ _); vm_compute; exact I).
    rewrite Forall_forall in H. intros k Hk. apply H, elem_of_seq. lia. }
  specialize (H (N.to_nat x) ltac:(lia)). by rewrite N2Nat.id in H.
Qed.

Definition mac_bytes (vmid : N) : list N :=
  [2; 0; N.land (N.shiftr vmid 24) 255; N.land (N.shiftr vmid 16) 255; N.land (N.shiftr vmid 8) 255; N.land vmid 255]%N.

(** The string the address map writes reads back as the six bytes. *)
Lemma mac_roundtrip vmid m : mac_math vmid = Ok m → parse_mac_bytes m = Some (mac_bytes vmid).
Proof.
  unfold mac_math. destruct (_ || _); [done|]. intros [= <-]. unfold parse_mac_bytes.
  pose proof (byte_of vmid 0) as B0. rewrite N.shiftr_0_r in B0.
  destruct (hex2_parses _ (byte_of vmid 24)) as [P3 N3], (hex2_parses _ (byte_of vmid 16)) as [P2 N2],
    (hex2_parses _ (byte_of vmid 8)) as [P1 N1], (hex2_parses _ B0) as [P0 N0].
  unfold mac_bytes.
  generalize dependent (hex2 (N.land (N.shiftr vmid 24) 255)). generalize dependent (hex2 (N.land (N.shiftr vmid 16) 255)).
  generalize dependent (hex2 (N.land (N.shiftr vmid 8) 255)). generalize dependent (hex2 (N.land vmid 255)).
  intros s0 P0 N0 s1 P1 N1 s2 P2 N2 s3 P3 N3.
  change ("02:00:" +:+ s3 +:+ ":" +:+ s2 +:+ ":" +:+ s1 +:+ ":" +:+ s0) with
    ("02" +:+ String ":" ("00" +:+ String ":" (s3 +:+ String ":" (s2 +:+ String ":" (s1 +:+ String ":" s0))))).
  rewrite !str_split_append by (done || by vm_compute; set_solver).
  rewrite str_split_word by done. cbn [mac_groups]. rewrite P3, P2, P1, P0. done.
Qed.

Lemma resync_identity_Ok clock vmid i :
  resync_identity clock vmid = Ok i →
  clock = Some (i_secs i, i_nanos i) ∧ i_mac i = mac_bytes vmid ∧
  ∃ h g c, ip_math vmid = Ok (h, g, c) ∧ i_ipv4 i = {| addr := g; prefix_len := 30; gateway := h |}.
Proof.
  unfold resync_identity. destruct clock as [[secs nanos]|]; cbn [ok_or]; [|done].
  destruct (mac_math vmid) as [m|] eqn:Em; [|done]. rewrite (mac_roundtrip _ _ Em). cbn [ok_or].
  destruct (ip_math vmid) as [[[h g] c]|]; [|done]. intros [= <-]. cbn. eauto 10.
Qed.

(** Every vmid that has an address has an identity. *)
Lemma resync_identity_total secs nanos vmid :
  (1 <= vmid <= MAX_VMID)%N → is_ok (resync_identity (Some (secs, nanos)) vmid) = true.
Proof.
  intros Hv. unfold resync_identity. cbn [ok_or].
  destruct (mac_math vmid) as [m|] eqn:Em.
  - rewrite (mac_roundtrip _ _ Em). cbn [ok_or]. by rewrite (ip_math_Ok _ Hv).
  - unfold mac_math in Em. by rewrite range_guard in Em.
Qed.

(** ** Resync before anything else *)

Section handle_props.
Context {PC : Postcard}.
Implicit Types (h : handle) (l : list asked).

(** The fields no call changes, and a client only once the guest is resynced. *)
Definition same_cell h h' : Prop :=
  hd_vmid h' = hd_vmid h ∧ hd_endpoint h' = hd_endpoint h ∧ hd_placement h' = hd_placement h ∧
  hd_control_plane_disabled h' = hd_control_plane_disabled h.

Definition is_asked (a : asked) : Prop := match a with Asked _ => True | Resynced _ _ => False end.

Definition right_identity (vmid : N) (i : identity) : Prop :=
  i_mac i = mac_bytes vmid ∧
  ∃ host guest c, ip_math vmid = Ok (host, guest, c) ∧
    i_ipv4 i = {| addr := guest; prefix_len := 30; gateway := host |}.

(** The log of a handle that started restored, or not. *)
Definition log_ok (start : bool) h l : Prop :=
  if hd_restored h then hd_steward_client h = None ∧ l = [] ∧ start = true
  else
    if start then ∃ i o l', l = Resynced i o :: l' ∧ Forall is_asked l' ∧ right_identity (hd_vmid h) i ∧
      ro_clock_error o = None ∧ hd_reseed_applied h = Some (ro_reseed_applied o)
    else Forall is_asked l.

Lemma maybe_resync_Ok c clock vmid x i o c' :
  maybe_resync_after_restore c clock vmid x = (Ok (i, o), c') →
  right_identity vmid i ∧ clock = Some (i_secs i, i_nanos i) ∧ ro_clock_error o = None.
Proof.
  unfold maybe_resync_after_restore. destruct (resync_identity clock vmid) as [j|] eqn:Ei; [|done].
  destruct (resync _ _ _ _ _ _) as [[o'|e] c1]; [|done]. destruct (ro_clock_error o') eqn:Ec; [done|].
  intros [= <- <- _]. apply resync_identity_Ok in Ei as (Hc & Hm & Hi). done.
Qed.

Lemma same_cell_refl h : same_cell h h.
Proof. by unfold same_cell. Qed.

Lemma same_cell_client h c : same_cell h (with_client h c).
Proof. by unfold same_cell. Qed.

Lemma log_ok_evict start h l : log_ok start h l → log_ok start (with_client h None) l.
Proof. unfold log_ok. cbn. by destruct (hd_restored h); [intros (_ & ? & ?)|]. Qed.

Lemma steward_step start h l connect clock x r h' l' :
  log_ok start h l → steward h connect clock x = (r, h', l') →
  same_cell h h' ∧ log_ok start h' (l ++ l') ∧ (is_ok r = true → hd_restored h' = false).
Proof.
  intros Hl. unfold steward.
  destruct (hd_control_plane_disabled h) eqn:Ed;
    [intros [= <- <- <-]; rewrite app_nil_r; by split; [apply same_cell_refl|]|].
  set (h1 := match hd_steward_client h with Some _ => _ | None => _ end).
  assert (same_cell h h1 ∧ log_ok start h1 l) as [Hs1 Hl1].
  { subst h1. destruct (hd_steward_client h) as [c|]; [destruct (sc_desynced c)|];
      (split; [apply same_cell_refl || apply same_cell_client|]); [by apply log_ok_evict|exact Hl..]. }
  clearbody h1. destruct (match hd_steward_client h1 with Some _ => _ | None => _ end) as [c|e];
    [|intros [= <- <- <-]; by rewrite app_nil_r].
  destruct (hd_restored h1) eqn:Er.
  - pose proof Hl1 as Hl2. unfold log_ok in Hl2. rewrite Er in Hl2. destruct Hl2 as (Hc1 & -> & ->).
    destruct (maybe_resync_after_restore _ _ _ _) as [[[i o]|e] c'] eqn:Em; intros [= <- <- <-]; (split; [exact Hs1|]).
    + apply maybe_resync_Ok in Em as (Hi & _ & Hce). split; [|done]. exists i, o, []. by split_and!.
    + split; [|done]. by apply log_ok_evict in Hl1.
  - intros [= <- <- <-]. split; [exact Hs1|]. rewrite app_nil_r. split; [|done].
    unfold log_ok in *. cbn. by rewrite Er in *.
Qed.

Lemma log_ok_asked start h l os c :
  hd_restored h = false → log_ok start h l → log_ok start (with_client h c) (l ++ (Asked <$> os)).
Proof.
  intros Hr. unfold log_ok. cbn. rewrite Hr. assert (Forall is_asked (Asked <$> os)) as Ha by (apply Forall_fmap, Forall_true; done).
  destruct start; [|intros; by apply Forall_app].
  intros (i & o & l' & -> & Hl' & Hrest). exists i, o, (l' ++ (Asked <$> os)). split; [done|]. split; [by apply Forall_app|done].
Qed.

Lemma use_handle_step start h l o h' l' :
  log_ok start h l → use_handle h o = (h', l') → same_cell h h' ∧ log_ok start h' (l ++ l').
Proof.
  intros Hl. destruct o as [connect clock x os|written]; cbn [use_handle].
  - destruct (steward h connect clock x) as [[[c|e] h1] l1] eqn:E;
      destruct (steward_step start h l connect clock x _ _ _ Hl E) as (Hs & Hl1 & Hr); intros [= <- <-]; [|done].
    split; [exact Hs|]. rewrite (assoc_L (++)). apply log_ok_asked; [by apply Hr|done].
  - intros [= <- <-]. rewrite app_nil_r. unfold snapshot.
    destruct (negb _); [by split; [apply same_cell_refl|]|].
    destruct written; [split; [apply same_cell_client|by apply log_ok_evict]|by split; [apply same_cell_refl|]].
Qed.

Lemma use_all_log start os : ∀ h l h' l',
  log_ok start h l → use_all h os = (h', l') → same_cell h h' ∧ log_ok start h' (l ++ l').
Proof.
  induction os as [|o os IH]; intros h l h' l' Hl; cbn [use_all];
    [intros [= <- <-]; rewrite app_nil_r; by split; [apply same_cell_refl|]|].
  destruct (use_handle h o) as [h1 l1] eqn:E1, (use_all h1 os) as [h2 l2] eqn:E2. intros [= <- <-].
  destruct (use_handle_step _ _ _ _ _ _ Hl E1) as [Hs1 Hl1]. destruct (IH _ _ _ _ Hl1 E2) as [Hs2 Hl2].
  rewrite (assoc_L (++)). split; [|done]. unfold same_cell in *. intuition congruence.
Qed.


(** A handle is never wedged.  However earlier calls failed (a timed-out
    request, a lost connection, a failed resync), a [steward] call whose
    connect succeeds and whose guest acknowledges with the clock set returns a
    client that is in sync, and the VM no longer needs a resync. *)
Theorem steward_recovers vmid e p r os port connect secs nanos b rest reseed mac_ok ip_ok patience :
  let h := (use_all (new_handle vmid e p r) os).1 in
  let x := {| x_send := SendOk; x_reply := NFrame b :: rest; x_patience := S patience |} in
  (1 <= vmid <= MAX_VMID)%N → steward_port p = Some port → connect (with_port e port) = Ok tt →
  from_bytes b = Some (ResyncAck None reseed mac_ok ip_ok) →
  (∀ i, resync_identity (Some (secs, nanos)) vmid = Ok i →
     is_ok (encode_frame (Resync (i_secs i) (i_nanos i) (Some (i_mac i)) (Some (i_ipv4 i)))) = true) →
  ∃ c h' l, steward h connect (Some (secs, nanos)) x = (Ok c, h', l) ∧
    sc_desynced c = false ∧ hd_restored h' = false.
Proof.
  cbn zeta. intros Hv Hp Hc Hb Henc.
  destruct (use_all (new_handle vmid e p r) os) as [h l] eqn:E. cbn [fst].
  apply (use_all_log r os _ []) in E as [(Ev & Ee & Ep & Ed) Hl]; [|destruct r; [done|constructor]].
  cbn in Ev, Ee, Ep, Ed. rewrite Hp in Ed. unfold steward. rewrite Ed. cbn [negb].
  set (h1 := match hd_steward_client h with Some _ => _ | None => _ end).
  assert (hd_restored h1 = hd_restored h ∧ hd_vmid h1 = vmid ∧ hd_endpoint h1 = e ∧ hd_placement h1 = p ∧
    (∀ c, hd_steward_client h1 = Some c → sc_desynced c = false) ∧ (hd_restored h = true → hd_steward_client h1 = None))
    as (Hr1 & Hv1 & He1 & Hp1 & Hs1 & Hn1).
  { subst h1. assert (hd_restored h = true → hd_steward_client h = None) as Hn
      by (intros Hr; unfold log_ok in Hl; rewrite Hr in Hl; apply Hl).
    destruct (hd_steward_client h) as [c|] eqn:Ec; [destruct (sc_desynced c) eqn:Es|]; cbn; naive_solver. }
  clearbody h1. rewrite Hr1, He1, Hp1, Hp. change (default STEWARD_VSOCK_PORT (Some port)) with port. rewrite Hc.
  destruct (hd_restored h) eqn:Er.
  - rewrite (Hn1 eq_refl). unfold maybe_resync_after_restore. rewrite Hv1.
    pose proof (resync_identity_total secs nanos vmid Hv) as Hi.
    destruct (resync_identity _ vmid) as [i|]; [|done]. specialize (Henc i eq_refl).
    unfold resync, ensure_synced. cbn [sc_desynced client_at]. unfold encode_or.
    destruct (encode_frame _); [|done]. unfold exchange_with. cbn. rewrite Hb. cbn. eauto 10.
  - destruct (hd_steward_client h1) as [c|] eqn:Ec.
    + eexists _, _, _. split; [done|]. split; [by apply Hs1|]. cbn. congruence.
    + eexists _, _, _. split; [done|]. split; [done|]. cbn. congruence.
Qed.
End handle_props.

(** *** A restored cell: the first resync times out, the second succeeds *)

Definition demo_identity : identity := {|
  i_secs := 1700000000; i_nanos := 5; i_mac := [2; 0; 0; 0; 1; 44]%N;
  i_ipv4 := {| addr := (10, 200, 47, 6); prefix_len := 30; gateway := (10, 200, 47, 5) |}%N |}.

Definition resync_wire : Postcard.
Proof.
  refine (table_postcard [
    (Resync (i_secs demo_identity) (i_nanos demo_identity) (Some (i_mac demo_identity)) (Some (i_ipv4 demo_identity)), "S");
    (ResyncAck None true true true, "A")] _).
  refine (bool_decide_unpack _ _). vm_compute. exact I.
Defined.

Definition demo_clock : option (N * N) := Some (1700000000, 5)%N.
Definition acked : exchange := {| x_send := SendOk; x_reply := [NFrame "A"]; x_patience := 1 |}.
Definition stalled : exchange := {| x_send := SendOk; x_reply := [NFrame "A"]; x_patience := 0 |}.

Definition demo_uses : list handle_call := [
  WithSteward (λ _, Ok tt) demo_clock stalled [CallReconnectEndpoint (λ _, Ok tt)];
  WithSteward (λ _, Ok tt) demo_clock acked [CallReconnectEndpoint (λ _, Err EIo)];
  Snapshot true ].


Lemma steward_recovers_witness :
  ∃ c h' l, steward (PC := resync_wire)
      (use_all (PC := resync_wire) (new_handle 300 (Vsock 7 5000) Pid1 true)
        [WithSteward (λ _, Ok tt) demo_clock stalled []]).1
      (λ _, Ok tt) (Some (1700000000, 5)%N) acked = (Ok c, h', l) ∧
    sc_desynced c = false ∧ hd_restored h' = false.
Proof.
  apply (steward_recovers (PC := resync_wire) 300 (Vsock 7 5000) Pid1 true _ 5000 (λ _, Ok tt) 1700000000 5 "A" []
    true true true 0).
  - unfold MAX_VMID. lia.
  - reflexivity.
  - reflexivity.
  - vm_compute. reflexivity.
  - intros i Hi. assert (resync_identity (Some (1700000000, 5)%N) 300 = Ok demo_identity) as Hd by (vm_compute; reflexivity).
    rewrite Hd in Hi. injection Hi as <-. vm_compute. reflexivity.
Defined.

(** ** The grace window ends, and looks at least once *)

Lemma poll_step_pos grace : (0 < shutdown_poll_step grace)%N.
Proof. unfold shutdown_poll_step. destruct (_ <=? _)%N; [|destruct (_ <=? _)%N]; by vm_compute. Qed.

Lemma grace_loop_spec exited step deadline : (0 < step)%N → ∀ fuel now,
  fuel ≠ 0 → (now < deadline → deadline - now < N.of_nat (fuel - 1) * step)%N →
  ∃ polls t, grace_loop fuel exited step deadline now = Some (polls, t) ∧
    (now <= t)%N ∧ (t < deadline + step ∨ t = now)%N ∧ ((now < deadline)%N → polls ≠ 0) ∧
    ((t < deadline)%N → exited t = true) ∧ (exited now = true → t = now) ∧
    ∀ e, (now <= e)%N → (∀ u, (e <= u)%N → exited u = true) → (t < e + step)%N.
Proof.
  intros Hs. induction fuel as [|fuel IH]; intros now Hz Hf; [done|]. cbn [grace_loop].
  destruct (N.ltb_spec now deadline) as [Hlt|Hge].
  - specialize (Hf Hlt). replace (S fuel - 1) with fuel in Hf by lia. destruct (exited now) eqn:Ex.
    { eexists _, _. split; [done|]. split_and!; try (intros; done || lia); lia. }
    destruct (IH (now + step)%N) as (polls & t & -> & H1 & H2 & H3 & H4 & H5 & H6); [intros ->; lia| |].
    { intros Hlt'. assert (N.of_nat fuel = N.of_nat (fuel - 1) + 1)%N as E by (destruct fuel; lia).
      rewrite E in Hf. lia. }
    eexists _, _. split; [done|]. split; [lia|]. split; [lia|]. split; [done|]. split; [exact H4|]. split; [done|].
    intros e He Hu. destruct (N.le_gt_cases (now + step) e) as [Hle|Hgt]; [by apply H6|].
    destruct (N.le_gt_cases e now) as [Hle'|Hgt']; [by rewrite Hu in Ex|].
    rewrite H5 by (apply Hu; lia). lia.
  - eexists _, _. split; [done|]. split_and!; try (intros; done || lia); lia.
Qed.

(** Graceful shutdown is bounded and prompt.  Whatever the grace, however late
    the shutdown request is answered and whenever the guest exits, the loop on
    [has_exited] ends, looks at least once after the request was answered, stops
    early only on a guest that has exited, ends within one poll step of the
    window, and within one poll step of the guest's exit. *)
Theorem grace_window_bounded grace rpc exited :
  ∃ polls t, grace_window grace rpc exited = Some (polls, t) ∧ polls ≠ 0 ∧
    (rpc <= t < N.max grace (rpc + ms 20) + ms 20)%N ∧
    ((t < grace_deadline grace rpc)%N → exited t = true) ∧
    ∀ e, (rpc <= e)%N → (∀ u, (e <= u)%N → exited u = true) → (t < e + shutdown_poll_step grace)%N.
Proof.
  unfold grace_window. pose proof (poll_step_pos grace) as Hs.
  assert (shutdown_poll_step grace <= ms 20)%N as Hms.
  { unfold shutdown_poll_step. destruct (_ <=? _)%N; [|destruct (_ <=? _)%N]; by vm_compute. }
  set (step := shutdown_poll_step grace) in *. set (dl := grace_deadline grace rpc).
  assert (rpc + step <= dl)%N as Hdl by (unfold dl, grace_deadline; lia).
  assert (dl <= N.max grace (rpc + ms 20))%N as Hdl' by (unfold dl, grace_deadline; fold step; lia).
  destruct (grace_loop_spec exited step dl Hs (S (S (N.to_nat ((dl - rpc) / step)))) rpc)
    as (polls & t & E & H1 & H2 & H3 & H4 & H5 & H6); [done| |].
  { intros _. pose proof (N.div_mod (dl - rpc) step ltac:(lia)). pose proof (N.mod_lt (dl - rpc) step ltac:(lia)).
    generalize dependent ((dl - rpc) / step)%N. intros q Hq.
    replace (N.of_nat (S (S (N.to_nat q)) - 1)) with (q + 1)%N by lia. lia. }
  exists polls, t. split; [exact E|]. split; [apply H3; lia|]. split; [lia|]. split; [exact H4|exact H6].
Qed.
