(* ===== verification/Serve.v ===== *)
(** * One connection of the guest's steward

    Models the concurrent part of [crates/vmcell-steward/src/serve.rs],
    [session.rs] and [exec.rs]: the connection thread ([serve_connection],
    [serve_loop]), the threads of each interactive session (its output pumps,
    its waiter and its kill timer), the tables of live children, teardown
    through the connection's ticket, and the sweep of a service-mode shutdown
    ([run.rs], [ConnectionRegistry]).

    A step is one locked section, one frame through the single writer, or one
    system call; threads interleave freely.  Children are told apart by a name
    of their own: that exit codes reach their own waiters under pid reuse is the
    subject of [Reaper.v].  Stdin routing and window sizes change no table and
    send no frame; connections share nothing but the registry, so one stands
    for all. *)

From S2P Require Import Prelude Wire.

(** ** State *)

(** Where the connection thread is. *)
Inductive conn_pc :=
  | Accepted                                   (** running, not yet registered *)
  | Idle                                       (** in [serve_loop] *)
  | Opening (id : SessionId) (child : N) (pty : bool)   (** spawned, not in the table *)
  | Execing (child : N)                        (** one-shot child spawned, not published *)
  | Collecting (child : N)                     (** published; relaying its output *)
  | Ending                                     (** [serve_loop] has returned or unwound *)
  | Drained                                    (** the ticket's teardown has run *)
  | Gone.                                      (** deregistered *)

Inductive waiter_pc := WaitingChild | JoiningPumps (code : Z) | Reported | Removed.

#[export] Instance waiter_pc_eq_dec : EqDecision waiter_pc.
Proof. solve_decision. Defined.

(** The threads of one session: its live pumps ([true] relays stderr) and its
    waiter. *)
Record session := { s_id : SessionId; s_child : N; s_pumps : gset bool; s_waiter : waiter_pc }.

(** The main thread after SIGTERM under the service placement. *)
Inductive main_pc := Serving | Stopped | Collected (found : bool) | SweptExecs | Returned.

Record guest := {
  g_pc : conn_pc;
  g_up : bool;                       (** the host still reads *)
  g_registered : bool;
  g_table : gmap SessionId N;        (** [Sessions]: the child of each live session *)
  g_one_shot : gset N;               (** [OneShotExecs] *)
  g_sessions : list session;         (** the threads of every session opened *)
  g_running : gset N;                (** children that have not exited *)
  g_observed : gset N;               (** children whose [has_exited] is set *)
  g_killed : gset N;                 (** children whose group was sent SIGKILL *)
  g_spawned : gset N;
  g_opened : gset SessionId;         (** ids of the [OpenSession] frames read *)
  g_out : list Message;              (** what went through the writer *)
  g_main : main_pc;
}.

Definition accepted : guest := {|
  g_pc := Accepted; g_up := true; g_registered := false; g_table := ∅; g_one_shot := ∅;
  g_sessions := []; g_running := ∅; g_observed := ∅; g_killed := ∅; g_spawned := ∅; g_opened := ∅;
  g_out := []; g_main := Serving |}.

(** ** Operations *)

Definition set_pc (p : conn_pc) (g : guest) : guest := {|
  g_pc := p; g_up := g_up g; g_registered := g_registered g; g_table := g_table g; g_one_shot :=
  g_one_shot g; g_sessions := g_sessions g; g_running := g_running g; g_observed := g_observed
  g; g_killed := g_killed g; g_spawned := g_spawned g; g_opened := g_opened g; g_out := g_out g;
  g_main := g_main g |}.

Definition set_main (m : main_pc) (g : guest) : guest := {|
  g_pc := g_pc g; g_up := g_up g; g_registered := g_registered g; g_table := g_table g;
  g_one_shot := g_one_shot g; g_sessions := g_sessions g; g_running := g_running g; g_observed
  := g_observed g; g_killed := g_killed g; g_spawned := g_spawned g; g_opened := g_opened g;
  g_out := g_out g; g_main := m |}.

Definition set_registered (b : bool) (g : guest) : guest := {|
  g_pc := g_pc g; g_up := g_up g; g_registered := b; g_table := g_table g; g_one_shot :=
  g_one_shot g; g_sessions := g_sessions g; g_running := g_running g; g_observed := g_observed
  g; g_killed := g_killed g; g_spawned := g_spawned g; g_opened := g_opened g; g_out := g_out g;
  g_main := g_main g |}.

Definition hang_up  (g : guest) : guest := {|
  g_pc := g_pc g; g_up := false; g_registered := g_registered g; g_table := g_table g;
  g_one_shot := g_one_shot g; g_sessions := g_sessions g; g_running := g_running g; g_observed
  := g_observed g; g_killed := g_killed g; g_spawned := g_spawned g; g_opened := g_opened g;
  g_out := g_out g; g_main := g_main g |}.

(** [send_msg]: nothing is sent on a connection that has died. *)
Definition emit (ms : list Message) (g : guest) : guest := {|
  g_pc := g_pc g; g_up := g_up g; g_registered := g_registered g; g_table := g_table g;
  g_one_shot := g_one_shot g; g_sessions := g_sessions g; g_running := g_running g; g_observed
  := g_observed g; g_killed := g_killed g; g_spawned := g_spawned g; g_opened := g_opened g;
  g_out := (if g_up g then g_out g ++ ms else g_out g); g_main := g_main g |}.

Definition set_tables (t : gmap SessionId N) (o : gset N) (g : guest) : guest := {|
  g_pc := g_pc g; g_up := g_up g; g_registered := g_registered g; g_table := t; g_one_shot := o;
  g_sessions := g_sessions g; g_running := g_running g; g_observed := g_observed g; g_killed :=
  g_killed g; g_spawned := g_spawned g; g_opened := g_opened g; g_out := g_out g; g_main :=
  g_main g |}.

Definition set_sessions (l : list session) (g : guest) : guest := {|
  g_pc := g_pc g; g_up := g_up g; g_registered := g_registered g; g_table := g_table g;
  g_one_shot := g_one_shot g; g_sessions := l; g_running := g_running g; g_observed :=
  g_observed g; g_killed := g_killed g; g_spawned := g_spawned g; g_opened := g_opened g; g_out
  := g_out g; g_main := g_main g |}.

Definition note_open (id : SessionId) (g : guest) : guest := {|
  g_pc := g_pc g; g_up := g_up g; g_registered := g_registered g; g_table := g_table g;
  g_one_shot := g_one_shot g; g_sessions := g_sessions g; g_running := g_running g; g_observed
  := g_observed g; g_killed := g_killed g; g_spawned := g_spawned g; g_opened := {[id]} ∪
  g_opened g; g_out := g_out g; g_main := g_main g |}.

Definition spawn (c : N) (g : guest) : guest := {|
  g_pc := g_pc g; g_up := g_up g; g_registered := g_registered g; g_table := g_table g;
  g_one_shot := g_one_shot g; g_sessions := g_sessions g; g_running := {[c]} ∪ g_running g;
  g_observed := g_observed g; g_killed := g_killed g; g_spawned := {[c]} ∪ g_spawned g; g_opened
  := g_opened g; g_out := g_out g; g_main := g_main g |}.

Definition exit_child (c : N) (g : guest) : guest := {|
  g_pc := g_pc g; g_up := g_up g; g_registered := g_registered g; g_table := g_table g;
  g_one_shot := g_one_shot g; g_sessions := g_sessions g; g_running := g_running g ∖ {[c]};
  g_observed := g_observed g; g_killed := g_killed g; g_spawned := g_spawned g; g_opened :=
  g_opened g; g_out := g_out g; g_main := g_main g |}.

(** [has_exited.store(true)] *)
Definition observe (c : N) (g : guest) : guest := {|
  g_pc := g_pc g; g_up := g_up g; g_registered := g_registered g; g_table := g_table g;
  g_one_shot := g_one_shot g; g_sessions := g_sessions g; g_running := g_running g; g_observed
  := {[c]} ∪ g_observed g; g_killed := g_killed g; g_spawned := g_spawned g; g_opened :=
  g_opened g; g_out := g_out g; g_main := g_main g |}.

(** [kill_group] on each. *)
Definition kill_all (cs : gset N) (g : guest) : guest := {|
  g_pc := g_pc g; g_up := g_up g; g_registered := g_registered g; g_table := g_table g;
  g_one_shot := g_one_shot g; g_sessions := g_sessions g; g_running := g_running g; g_observed
  := g_observed g; g_killed := cs ∪ g_killed g; g_spawned := g_spawned g; g_opened := g_opened
  g; g_out := g_out g; g_main := g_main g |}.

Definition kill_group (c : N) : guest → guest := kill_all {[c]}.

Definition kill_unexited (cs : gset N) (g : guest) : guest := kill_all (cs ∖ g_observed g) g.

Definition open_failed (id : SessionId) (msg : string) : guest → guest :=
  emit [SessionStderr id msg; SessionExit id 127].

Definition abandon_spawned_session (id : SessionId) (c : N) (msg : string) (g : guest) : guest :=
  open_failed id msg (kill_group c g).

(** A pipe session has a pump for each stream, a terminal one for both. *)
Definition pumps_of (pty : bool) : gset bool := if pty then {[false]} else {[false; true]}.

(** The end of [run_pipe_session] and [run_pty_session]: the table's insert,
    which refuses a live id, then the threads of a session that is in. *)
Definition register_session (id : SessionId) (c : N) (pty : bool) (g : guest) : guest :=
  match g_table g !! id with
  | Some _ => abandon_spawned_session id c "session id is already in use" g
  | None =>
      set_sessions
        (g_sessions g ++ [{| s_id := id; s_child := c; s_pumps := pumps_of pty; s_waiter := WaitingChild |}])
        (set_tables (<[id := c]> (g_table g)) (g_one_shot g) g)
  end.

Definition close_session (id : SessionId) (g : guest) : guest :=
  match g_table g !! id with
  | Some c => kill_group c g
  | None => g
  end.

Definition teardown_one_shot_execs (g : guest) : guest :=
  kill_unexited (g_one_shot g) (set_tables (g_table g) ∅ g).

Definition teardown_sessions (g : guest) : guest :=
  kill_all (map_to_set (λ _ c, c) (g_table g)) (set_tables ∅ (g_one_shot g) g).

Definition teardown_connection (g : guest) : guest := teardown_sessions (teardown_one_shot_execs g).

(** [OneShotTicket]'s drop: only who removes the entry may signal. *)
Definition drop_one_shot (c : N) (g : guest) : guest :=
  let g' := set_tables (g_table g) (g_one_shot g ∖ {[c]}) g in
  if decide (c ∈ g_one_shot g) then kill_unexited {[c]} g' else g'.

Definition with_waiter (w : waiter_pc) (s : session) : session :=
  {| s_id := s_id s; s_child := s_child s; s_pumps := s_pumps s; s_waiter := w |}.

Definition without_pump (err : bool) (s : session) : session :=
  {| s_id := s_id s; s_child := s_child s; s_pumps := s_pumps s ∖ {[err]}; s_waiter := s_waiter s |}.

Definition at_session (k : nat) (s : session) (g : guest) : guest :=
  set_sessions (<[k := s]> (g_sessions g)) g.

(** ** Steps *)

Inductive label :=
  (** the connection thread *)
  | Registers | LoopEnds | TearsDown | Deregisters
  | ThreadPanics | SpawnPanics   (** [SpawnPanics]: a thread the child needs cannot be created *)
  | OpenFails (id : SessionId) (msg : string)      (** empty argv, no pty, spawn failure *)
  | OpenSpawns (id : SessionId) (c : N) (pty : bool)
  | OpenAbandons (msg : string)                    (** the master's clone fails *)
  | OpenRegisters
  | ClosesSession (id : SessionId)
  | ExecEmpty | ExecFails (msg : string) | ExecSpawns (c : N) | ExecPublishes
  | ExecRelays (err : bool) (data : string) | ExecEnds (code : Z) | ExecSendFails
  | AnswersPut (code : Z) | AnswersResync (err : option string) (reseed mac ip : bool)
  | ExecObserves | ExecTimerKills                  (** its waiter and its timer *)
  (** a session's threads *)
  | PumpSends (k : nat) (err : bool) (data : string) | PumpEnds (k : nat) (err : bool)
  | WaiterClaims (k : nat) (code : Z) | WaiterReports (k : nat) | WaiterRemoves (k : nat)
  | TimerKills (k : nat)
  (** the world *)
  | ChildExits (c : N) | HostHangsUp
  (** the main thread's shutdown *)
  | MainStops | MainCollects | MainSweepsExecs | MainSweepsSessions.

(** [run_session] on the connection thread: the spawn, what can fail before and
    after it, and the registration. *)
Definition step_open (l : label) (g : guest) : option guest :=
  match l, g_pc g with
  | OpenFails id msg, Idle => Some (open_failed id msg (note_open id g))
  | OpenSpawns id c pty, Idle =>
      guard (c ∉ g_spawned g);; Some (set_pc (Opening id c pty) (spawn c (note_open id g)))
  | OpenAbandons msg, Opening id c _ => Some (set_pc Idle (abandon_spawned_session id c msg g))
  | OpenRegisters, Opening id c pty => Some (set_pc Idle (register_session id c pty g))
  | _, _ => None
  end.

(** [handle_exec] on the connection thread, until the terminal frame. *)
Definition step_exec (l : label) (g : guest) : option guest :=
  match l, g_pc g with
  | ExecEmpty, Idle => Some (emit [Exit 1] g)
  | ExecFails msg, Idle => Some (emit [Stderr msg; Exit 127] g)
  | ExecSpawns c, Idle => guard (c ∉ g_spawned g);; Some (set_pc (Execing c) (spawn c g))
  | ExecPublishes, Execing c => Some (set_pc (Collecting c) (set_tables (g_table g) ({[c]} ∪ g_one_shot g) g))
  | ExecRelays err data, Collecting _ => Some (emit [if err then Stderr data else Stdout data] g)
  | ExecEnds code, Collecting c =>
      guard (c ∈ g_observed g);; Some (set_pc Idle (drop_one_shot c (emit [Exit code] g)))
  | ExecSendFails, Collecting c => guard (g_up g = false);; Some (set_pc Ending (drop_one_shot c g))
  | ExecObserves, Collecting c => guard (c ∉ g_running g);; Some (observe c g)
  | ExecTimerKills, Collecting c =>
      guard (c ∉ g_observed g);; Some (emit [Stderr ("Command timed out" +:+ utf8 [10%N])] (kill_group c g))
  | _, _ => None
  end.

(** The rest of the thread's life: [serve_connection], the dispatch of the other
    frames, and the drop of its tickets. *)
Definition step_serve (l : label) (g : guest) : option guest :=
  match l, g_pc g with
  | Registers, Accepted =>
      Some (set_pc (if g_up g then Idle else Ending) (emit [Ready] (set_registered true g)))
  | LoopEnds, Idle => Some (set_pc Ending g)
  | ThreadPanics, Collecting c => Some (set_pc Ending (drop_one_shot c g))
  | ThreadPanics, Idle => Some (set_pc Ending g)
  | SpawnPanics, (Opening _ _ _ | Execing _) => Some (set_pc Ending g)
  | TearsDown, Ending => Some (set_pc Drained (teardown_connection g))
  | Deregisters, Drained => Some (set_pc Gone (set_registered false g))
  | ClosesSession id, Idle => Some (close_session id g)
  | AnswersPut code, Idle => Some (emit [Exit code] g)
  | AnswersResync err reseed mac ip, Idle => Some (emit [ResyncAck err reseed mac ip] g)
  | _, _ => None
  end.

(** The connection thread serves one frame at a time. *)
Definition step_conn (l : label) (g : guest) : option guest :=
  match l with
  | OpenFails _ _ | OpenSpawns _ _ _ | OpenAbandons _ | OpenRegisters => step_open l g
  | ExecEmpty | ExecFails _ | ExecSpawns _ | ExecPublishes | ExecRelays _ _ | ExecEnds _ | ExecSendFails
  | ExecObserves | ExecTimerKills => step_exec l g
  | _ => step_serve l g
  end.

(** The threads of session [k]. *)
Definition step_session (l : label) (g : guest) : option guest :=
  match l with
  | PumpSends k err data =>
      s ← g_sessions g !! k; guard (err ∈ s_pumps s);;
      Some (emit [if err : bool then SessionStderr (s_id s) data else SessionStdout (s_id s) data] g)
  | PumpEnds k err => s ← g_sessions g !! k; guard (err ∈ s_pumps s);; Some (at_session k (without_pump err s) g)
  | WaiterClaims k code =>
      s ← g_sessions g !! k;
      guard (s_waiter s = WaitingChild ∧ s_child s ∉ g_running g);;
      Some (at_session k (with_waiter (JoiningPumps code) s) (observe (s_child s) g))
  | WaiterReports k =>
      s ← g_sessions g !! k;
      match s_waiter s with
      | JoiningPumps code =>
          guard (s_pumps s = ∅);;
          Some (at_session k (with_waiter Reported s) (emit [SessionExit (s_id s) code] g))
      | _ => None
      end
  | WaiterRemoves k =>
      s ← g_sessions g !! k; guard (s_waiter s = Reported);;
      Some (at_session k (with_waiter Removed s) (set_tables (delete (s_id s) (g_table g)) (g_one_shot g) g))
  | TimerKills k => s ← g_sessions g !! k; Some (kill_unexited {[s_child s]} g)
  | _ => None
  end.

(** The world, and [run]'s shutdown, which by then has joined the listener. *)
Definition step_world (l : label) (g : guest) : option guest :=
  match l, g_main g with
  | ChildExits c, _ => Some (exit_child c g)
  | HostHangsUp, _ => Some (hang_up g)
  | MainStops, Serving => Some (set_main Stopped g)
  | MainCollects, Stopped => Some (set_main (Collected (g_registered g)) g)
  | MainSweepsExecs, Collected true => Some (set_main SweptExecs (teardown_one_shot_execs g))
  | MainSweepsExecs, Collected false => Some (set_main Returned g)
  | MainSweepsSessions, SweptExecs => Some (set_main Returned (teardown_sessions g))
  | _, _ => None
  end.

Definition step (l : label) (g : guest) : option guest :=
  match step_conn l g with
  | Some g' => Some g'
  | None => match step_session l g with Some g' => Some g' | None => step_world l g end
  end.

Fixpoint run (ls : list label) (g : guest) : option guest :=
  match ls with
  | [] => Some g
  | l :: ls => g' ← step l g; run ls g'
  end.

(** ** What a connection promises *)

Definition open_id (l : label) : option SessionId :=
  match l with OpenFails id _ | OpenSpawns id _ _ => Some id | _ => None end.

Definition frame_id (m : Message) : option SessionId :=
  match m with
  | SessionStdout id _ | SessionStderr id _ | SessionExit id _ => Some id
  | _ => None
  end.

Definition exit_id (m : Message) : option SessionId :=
  match m with SessionExit id _ => Some id | _ => None end.

Definition exits (out : list Message) : list SessionId := omap exit_id out.

(** No frame of a session follows its [SessionExit]. *)
Fixpoint terminal (out : list Message) : Prop :=
  match out with
  | [] => True
  | m :: out => (∀ id, exit_id m = Some id → id ∉ omap frame_id out) ∧ terminal out
  end.

(** The thread holds a child that is in no table. *)
Definition spawning (p : conn_pc) (c : N) : Prop :=
  match p with Opening _ c' _ | Execing c' => c = c' | _ => False end.

Definition held (p : conn_pc) : option N :=
  match p with Opening _ c _ | Execing c | Collecting c => Some c | _ => None end.

Definition serving (p : conn_pc) : Prop :=
  match p with Ending | Drained | Gone => False | _ => True end.

Definition torn_down (p : conn_pc) : Prop :=
  match p with Drained | Gone => True | _ => False end.

(** The waiter of [s] has yet to report. *)
Definition unreported (s : session) : Prop :=
  match s_waiter s with WaitingChild | JoiningPumps _ => True | _ => False end.

(** Session [id] is still to end. *)
Definition pending (g : guest) (id : SessionId) : Prop :=
  (∃ c pty, g_pc g = Opening id c pty) ∨ (∃ s, s ∈ g_sessions g ∧ s_id s = id ∧ unreported s).

(** ** Its invariant *)

Definition ids (g : guest) : list SessionId := s_id <$> g_sessions g.
Definition pairs (g : guest) : list (SessionId * N) := (λ s, (s_id s, s_child s)) <$> g_sessions g.

Definition session_ok (g : guest) (s : session) : Prop :=
  s_child s ∈ g_spawned g ∧
  (s_waiter s ≠ WaitingChild → s_child s ∈ g_observed g) ∧
  (s_id s ∈ exits (g_out g) → s_pumps s = ∅ ∧ ¬ unreported s).

Definition owned (g : guest) (c : N) : Prop :=
  c ∈ g_killed g ∨ (∃ id, g_table g !! id = Some c) ∨ c ∈ g_one_shot g ∨ spawning (g_pc g) c.

(** Names, children and frames; [panicked] tells a run in which a thread an
    open or exec needs could not be created. *)
Record Inv (panicked : Prop) (g : guest) : Prop := {
  i_ids : NoDup (ids g);
  i_opened id : id ∈ ids g → id ∈ g_opened g;
  i_table id c : g_table g !! id = Some c → (id, c) ∈ pairs g;
  i_opening id c pty : g_pc g = Opening id c pty →
    id ∈ g_opened g ∧ id ∉ ids g ∧ id ∉ exits (g_out g);
  i_child c : held (g_pc g) = Some c → c ∈ g_spawned g;
  i_sessions : Forall (session_ok g) (g_sessions g);
  i_spawned : g_running g ∪ g_observed g ⊆ g_spawned g;
  i_observed : g_running g ## g_observed g;
  i_owned c : c ∈ g_running g → owned g c ∨ panicked;
  i_drained : torn_down (g_pc g) → g_table g = ∅ ∧ g_one_shot g = ∅;
  i_frames id : id ∈ omap frame_id (g_out g) → id ∈ g_opened g;
  i_terminal : terminal (g_out g);
}.

(** Every session the host opened has ended, or is still to. *)
Definition accounted (g : guest) : Prop :=
  g_up g = true → serving (g_pc g) → ∀ id, id ∈ g_opened g → id ∈ exits (g_out g) ∨ pending g id.
