(* ===== verification/ServeProps.v ===== *)
(** * The invariant of a guest connection

    Every step of [Serve.v] preserves [Inv], by the thread that takes it. *)

From Stdlib Require Import ssreflect.
From S2P Require Import Prelude Wire Serve.

(** ** Frames *)

Lemma exits_app l1 l2 : exits (l1 ++ l2) = exits l1 ++ exits l2.
Proof. apply omap_app. Qed.

Lemma exit_frame out id : id ∈ exits out → id ∈ omap frame_id out.
Proof. rw /exits !list_elem_of_omap. intros (m & Hm & He). exists m. by destruct m. Qed.

Lemma terminal_app out ms :
  terminal out → terminal ms → (∀ id, id ∈ omap frame_id ms → id ∉ exits out) → terminal (out ++ ms).
Proof.
  induction out as [|m out IH]; [done|]. simpl. intros [Hm Ho] Hms Hd.
  split; [|apply IH; [done..|]].
  - intros id He. rw omap_app elem_of_app. intros [Hi|Hi]; [by eapply Hm|].
    apply (Hd id Hi). rw /exits /= He. by left.
  - intros id Hi Hx. apply (Hd id Hi). rw /exits /=. destruct (exit_id m); [by right|done].
Qed.

Lemma terminal_NoDup out : terminal out → NoDup (exits out).
Proof.
  induction out as [|m out IH]; [constructor|]. intros [Hm Ho]. rw /exits /=.
  destruct (exit_id m) as [id|] eqn:He; [|by apply IH].
  constructor; [|by apply IH]. intros Hi. by apply (Hm id), exit_frame.
Qed.

(** ** Sessions *)

Lemma insert_same {A B} (f : A → B) (l : list A) k x y :
  l !! k = Some x → f y = f x → f <$> <[k := y]> l = f <$> l.
Proof. intros Hk Hf. rw list_fmap_insert Hf. apply list_insert_id. by rw list_lookup_fmap Hk. Qed.

Lemma session_unique g i j s t :
  NoDup (ids g) → g_sessions g !! i = Some s → g_sessions g !! j = Some t → s_id t = s_id s → j = i.
Proof.
  intros Hn Hi Hj Hid. eapply NoDup_lookup; [exact Hn|by rw /ids list_lookup_fmap Hj|].
  by rw /ids list_lookup_fmap Hi /= Hid.
Qed.

Lemma pair_unique g id c s :
  NoDup (ids g) → (id, c) ∈ pairs g → s ∈ g_sessions g → s_id s = id → c = s_child s.
Proof.
  intros Hn Hp Hs <-. apply list_elem_of_fmap in Hp as (t & [= Ht ->] & Hin).
  apply list_elem_of_lookup in Hs as [i Hi]. apply list_elem_of_lookup in Hin as [j Hj].
  assert (j = i) as -> by (by eapply session_unique). by simplify_eq.
Qed.

Lemma session_ok_mono g g' s :
  g_spawned g ⊆ g_spawned g' → g_observed g ⊆ g_observed g' →
  (s_id s ∈ exits (g_out g') → s_id s ∈ exits (g_out g)) → session_ok g s → session_ok g' s.
Proof. intros Hs Ho He (H1 & H2 & H3). split; [set_solver|]. split; [naive_solver|naive_solver]. Qed.

(** What every step keeps of the fields it does not touch. *)
Ltac keep HI :=
  constructor;
  [ try exact (i_ids _ _ HI) | try exact (i_opened _ _ HI) | try exact (i_table _ _ HI)
  | try exact (i_opening _ _ HI) | try exact (i_child _ _ HI) | try exact (i_sessions _ _ HI) | try exact (i_spawned _ _ HI)
  | try exact (i_observed _ _ HI) | try exact (i_owned _ _ HI) | try exact (i_drained _ _ HI)
  | try exact (i_frames _ _ HI) | try exact (i_terminal _ _ HI) ].

Lemma inv_accepted P : Inv P accepted.
Proof. constructor; simpl; first [set_solver | done | by constructor]. Qed.

(** ** Changes that keep the thread where it is *)

(** Frames that are of no session, or of one that runs. *)
Lemma inv_emit P g ms :
  Inv P g → terminal ms →
  (∀ id, id ∈ omap frame_id ms → id ∈ g_opened g ∧ id ∉ exits (g_out g)) →
  (∀ id, id ∈ exits ms → ∀ c pty, g_pc g ≠ Opening id c pty) →
  (∀ s, s ∈ g_sessions g → s_id s ∈ exits ms → s_pumps s = ∅ ∧ ¬ unreported s) →
  Inv P (emit ms g).
Proof.
  intros HI Ht Hf Ho Hs. destruct (g_up g) eqn:Hup; rw /emit Hup; keep HI; simpl.
  - intros id c pty Hpc. destruct (i_opening _ _ HI id c pty Hpc) as (H1 & H2 & H3).
    split_and!; [done..|]. rw exits_app elem_of_app. naive_solver.
  - pose proof (i_sessions _ _ HI) as Hok. rw !Forall_forall in Hok |- *. intros s Hin.
    destruct (Hok s Hin) as (H1 & H2 & H3). split_and!; [done..|]. simpl.
    rw exits_app elem_of_app. intros [He|He]; [by apply H3|by apply Hs].
  - intros id. rw omap_app elem_of_app. intros [Hi|Hi]; [by apply (i_frames _ _ HI)|by apply Hf].
  - apply terminal_app; [apply (i_terminal _ _ HI)|done|]. intros id Hi. by apply Hf.
Qed.

Lemma inv_kill P g cs : Inv P g → Inv P (kill_all cs g).
Proof.
  intros HI. keep HI. simpl. intros c Hc. destruct (i_owned _ _ HI c Hc) as [[H|H]|H]; [left; left|left; right|right]; set_solver.
Qed.

(** One entry of the session list changes, its name and child apart. *)
Lemma inv_at_session P g k s s' :
  Inv P g → g_sessions g !! k = Some s → s_id s' = s_id s → s_child s' = s_child s →
  session_ok g s' → Inv P (at_session k s' g).
Proof.
  intros HI Hk Hid Hch Hok.
  assert (Hids : ids (at_session k s' g) = ids g) by (by eapply insert_same).
  assert (Hpairs : pairs (at_session k s' g) = pairs g) by (eapply insert_same; [done|by rw /= Hid Hch]).
  keep HI.
  - rw Hids. apply (i_ids _ _ HI).
  - intros id. rw Hids. apply (i_opened _ _ HI).
  - intros id c. rw Hpairs. apply (i_table _ _ HI).
  - intros id c pty. rw Hids. apply (i_opening _ _ HI).
  - apply Forall_insert; [apply (i_sessions _ _ HI)|done].
Qed.

(** The tables only lose entries, of children that are killed or have exited. *)
Lemma inv_shrink P g t o :
  Inv P g → t ⊆ g_table g → o ⊆ g_one_shot g →
  (∀ c, c ∈ g_running g → owned g c → owned (set_tables t o g) c) →
  (torn_down (g_pc g) → t = ∅ ∧ o = ∅) → Inv P (set_tables t o g).
Proof.
  intros HI Ht Ho Hown Hd. keep HI; simpl; [| |done].
  2: { intros c Hc. destruct (i_owned _ _ HI c Hc); [left; by apply Hown|by right]. }
  intros id c Hc. apply (i_table _ _ HI). by eapply lookup_weaken.
Qed.

Lemma inv_exit_child P g c : Inv P g → Inv P (exit_child c g).
Proof.
  intros HI. pose proof (i_spawned _ _ HI). pose proof (i_observed _ _ HI). keep HI; simpl; [set_solver..|].
  intros c' Hc'. apply (i_owned _ _ HI). set_solver.
Qed.

Lemma inv_observe P g c : Inv P g → c ∈ g_spawned g → c ∉ g_running g → Inv P (observe c g).
Proof.
  intros HI Hs Hr. pose proof (i_spawned _ _ HI). pose proof (i_observed _ _ HI). keep HI; simpl; [|set_solver..].
  eapply Forall_impl; [apply (i_sessions _ _ HI)|]. intros s. apply session_ok_mono; set_solver.
Qed.

Lemma inv_hang_up P g : Inv P g → Inv P (hang_up g).
Proof. intros HI. keep HI. Qed.

(** Both halves of a teardown, by whichever thread. *)
Lemma inv_teardown_one_shot P g : Inv P g → Inv P (teardown_one_shot_execs g).
Proof.
  intros HI. pose proof (i_observed _ _ HI). keep HI; simpl.
  - intros c Hc. destruct (i_owned _ _ HI c Hc) as [Hown|]; [left|by right].
    unfold owned in *; simpl. destruct Hown as [|[|[|]]]; [left|by right; left|left|by right; right; right]; set_solver.
  - intros Ht. destruct (i_drained _ _ HI Ht). done.
Qed.

Lemma inv_teardown_sessions P g : Inv P g → Inv P (teardown_sessions g).
Proof.
  intros HI. keep HI; simpl; [set_solver| |].
  - intros c Hc. destruct (i_owned _ _ HI c Hc) as [Hown|]; [left|by right].
    unfold owned in *; simpl. destruct Hown as [|[[id Hid]|[|]]]; [left; set_solver|left|by right; right; left|by right; right; right].
    apply elem_of_union_l, elem_of_map_to_set. eauto.
  - intros Ht. by destruct (i_drained _ _ HI Ht).
Qed.

(** ** The session threads and the world *)

(** A frame of a session that has not reported is a frame of an open one. *)
Lemma running_session_open P g k s :
  Inv P g → g_sessions g !! k = Some s → s_pumps s ≠ ∅ ∨ unreported s →
  s_id s ∈ g_opened g ∧ s_id s ∉ exits (g_out g).
Proof.
  intros HI Hk Hrun. pose proof (Forall_lookup_1 _ _ _ _ (i_sessions _ _ HI) Hk) as (_ & _ & Hex). split.
  - apply (i_opened _ _ HI), list_elem_of_fmap. exists s. split; [done|by eapply list_elem_of_lookup_2].
  - intros He. destruct (Hex He), Hrun; done.
Qed.

Lemma inv_pump_sends P g k s err data :
  Inv P g → g_sessions g !! k = Some s → err ∈ s_pumps s →
  Inv P (emit [if err : bool then SessionStderr (s_id s) data else SessionStdout (s_id s) data] g).
Proof.
  intros HI Hk Herr.
  assert (Hrun : s_id s ∈ g_opened g ∧ s_id s ∉ exits (g_out g)).
  { eapply running_session_open; [done..|]. left. set_solver. }
  apply inv_emit; [done|destruct err; repeat split; set_solver|destruct err; set_solver|destruct err; set_solver|destruct err; set_solver].
Qed.

(** The waiter has joined the pumps. *)
Lemma inv_waiter_reports P g k s code :
  Inv P g → g_sessions g !! k = Some s → s_waiter s = JoiningPumps code → s_pumps s = ∅ →
  Inv P (at_session k (with_waiter Reported s) (emit [SessionExit (s_id s) code] g)).
Proof.
  intros HI Hk Hw Hp. pose proof (Forall_lookup_1 _ _ _ _ (i_sessions _ _ HI) Hk) as (Hsp & Hob & Hex).
  assert (Hun : unreported s) by (by rw /unreported Hw).
  destruct (running_session_open P g k s HI Hk (or_intror Hun)) as [Hop Hne].
  change (Inv P (emit [SessionExit (s_id s) code] (at_session k (with_waiter Reported s) g))).
  apply inv_emit; [|repeat split; set_solver|simpl; set_solver|..].
  - apply (inv_at_session P g k s); [done..|]. split_and!; [done| |done]. intros _. apply Hob. by rw Hw.
  - intros id Hid c pty Hpc. apply (i_opening _ _ HI) in Hpc as (_ & Hni & _). apply Hni, list_elem_of_fmap.
    exists s. split; [set_solver|by eapply list_elem_of_lookup_2].
  - intros t Ht Hid. apply list_elem_of_lookup in Ht as [j Hj]. simpl in Hj, Hid.
    destruct (decide (j = k)) as [->|Hne'].
    + rw list_lookup_insert_eq in Hj; first by eapply lookup_lt_Some. simplify_eq. split; [done|by intros []].
    + rw list_lookup_insert_ne in Hj; first done. destruct Hne'.
      eapply (session_unique g); [apply (i_ids _ _ HI)|exact Hk|exact Hj|set_solver].
Qed.

(** The waiter's [remove] finds its own session: a live id is never taken over. *)
Lemma inv_waiter_removes P g k s :
  Inv P g → g_sessions g !! k = Some s → s_waiter s = Reported →
  Inv P (at_session k (with_waiter Removed s) (set_tables (delete (s_id s) (g_table g)) (g_one_shot g) g)).
Proof.
  intros HI Hk Hw. pose proof (Forall_lookup_1 _ _ _ _ (i_sessions _ _ HI) Hk) as (Hsp & Hob & Hex).
  assert (Hgone : s_child s ∉ g_running g).
  { pose proof (i_observed _ _ HI). rw Hw in Hob. set_solver. }
  apply (inv_at_session P _ k s); [|done..|].
  - apply inv_shrink; [done|apply delete_subseteq|done| |].
    + intros c Hc [?|[[id Hid]|?]]; [by left| |by right; right]. right; left. exists id. simpl.
      rw lookup_delete_ne; last done. intros <-. apply Hgone. apply (i_table _ _ HI) in Hid.
      by rw -(pair_unique g (s_id s) c s (i_ids _ _ HI) Hid (list_elem_of_lookup_2 _ _ _ Hk) eq_refl).
    + intros Ht. destruct (i_drained _ _ HI Ht) as [-> ->]. by rw delete_empty.
  - split_and!; [done|intros _; apply Hob; by rw Hw|]. intros He. split; [apply (Hex He)|by intros []].
Qed.

Lemma inv_step_session P g l g' : Inv P g → step_session l g = Some g' → Inv P g'.
Proof.
  intros HI Hstep. pose proof (i_sessions _ _ HI) as Hall.
  destruct l; try done; simpl in Hstep;
    match type of Hstep with context [g_sessions g !! ?k] => destruct (g_sessions g !! k) as [s|] eqn:Hk; [|done] end;
    pose proof (Forall_lookup_1 _ _ _ _ Hall Hk) as (Hsp & Hob & Hex); simpl in Hstep.
  - case_guard; simplify_eq/=. by eapply inv_pump_sends.
  - case_guard; simplify_eq/=. eapply inv_at_session; [done..|]. split_and!; [done..|]. set_solver.
  - case_guard as Hg; simplify_eq/=. destruct Hg as [Hw Hr]. apply (inv_at_session P _ k s); [by apply inv_observe|done..|].
    split_and!; [done|set_solver|]. intros He. destruct (Hex He) as [? []]. by rw /unreported Hw.
  - destruct (s_waiter s) eqn:Hw; try done. case_guard; simplify_eq/=. by apply inv_waiter_reports.
  - case_guard; simplify_eq/=. by apply inv_waiter_removes.
  - simplify_eq/=. by apply inv_kill.
Qed.

Lemma inv_step_world P g l g' : Inv P g → step_world l g = Some g' → Inv P g'.
Proof.
  intros HI Hstep. rw /step_world in Hstep.
  destruct l, (g_main g) as [| |[]| |]; try done; try (case_guard; [|done]); simplify_eq/=;
    first [ by apply inv_exit_child | by apply inv_hang_up | keep HI; fail
          | by pose proof (inv_teardown_one_shot P g HI) as HI'; keep HI'
          | by pose proof (inv_teardown_sessions P g HI) as HI'; keep HI' ].
Qed.

(** ** The connection thread *)

Lemma inv_set_pc P g p :
  Inv P g → (∀ id c pty, p ≠ Opening id c pty) → (∀ c, held p = Some c → c ∈ g_spawned g) →
  (torn_down p → g_table g = ∅ ∧ g_one_shot g = ∅) →
  (∀ c, c ∈ g_running g → spawning (g_pc g) c → owned (set_pc p g) c ∨ P) → Inv P (set_pc p g).
Proof.
  intros HI Hno Hheld Hd Hown. keep HI; simpl; [|done..| |done].
  - intros id c pty Hpc. by destruct (Hno id c pty).
  - intros c Hc. destruct (i_owned _ _ HI c Hc) as [[?|[?|[?|?]]]|?]; [left|left|left| |by right].
    + by left.
    + by right; left.
    + by right; right; left.
    + by apply Hown.
Qed.

Lemma inv_note_open P g id : Inv P g → Inv P (note_open id g).
Proof.
  intros HI. keep HI; simpl.
  - intros i Hi. apply elem_of_union_r. by apply (i_opened _ _ HI).
  - intros i c pty Hpc. destruct (i_opening _ _ HI i c pty Hpc) as (? & ? & ?). set_solver.
  - intros i Hi. apply elem_of_union_r. by apply (i_frames _ _ HI).
Qed.

Lemma inv_open_failed P g id msg :
  Inv P g → id ∈ g_opened g → id ∉ ids g → id ∉ exits (g_out g) → (∀ c pty, g_pc g ≠ Opening id c pty) →
  Inv P (open_failed id msg g).
Proof.
  intros HI Ho Hi He Hpc. apply inv_emit; [done| |simpl; set_solver|simpl; set_solver|].
  - repeat split; set_solver.
  - intros s Hs Hid. destruct Hi. apply list_elem_of_fmap. exists s. set_solver.
Qed.

(** A child is started, and held by the thread. *)
Lemma inv_start_child P g p c :
  Inv P g → g_pc g = Idle → c ∉ g_spawned g → held p = Some c → spawning p c →
  (∀ id c pty, p = Opening id c pty → id ∈ g_opened g ∧ id ∉ ids g ∧ id ∉ exits (g_out g)) →
  Inv P (set_pc p (spawn c g)).
Proof.
  intros HI Hpc Hc Hh Hsp Ho. pose proof (i_spawned _ _ HI). pose proof (i_observed _ _ HI).
  keep HI; simpl; [done|set_solver| |set_solver|set_solver| |].
  - eapply Forall_impl; [apply (i_sessions _ _ HI)|]. intros s. apply session_ok_mono; set_solver.
  - intros c'. rw elem_of_union elem_of_singleton. intros [->|Hr]; [by left; right; right; right|].
    destruct (i_owned _ _ HI c' Hr) as [[?|[?|[?|Hs]]]|?]; [| | |by rw Hpc in Hs|by right]; left;
      [by left|by right; left|by right; right; left].
  - intros Ht. by destruct p.
Qed.

Lemma inv_register_session P g id c pty :
  Inv P g → g_pc g = Opening id c pty → Inv P (set_pc Idle (register_session id c pty g)).
Proof.
  intros HI Hpc. destruct (i_opening _ _ HI _ _ _ Hpc) as (Ho & Hi & He).
  assert (Hc : c ∈ g_spawned g) by (apply (i_child _ _ HI); by rw Hpc).
  rw /register_session. destruct (g_table g !! id) as [c'|] eqn:Ht.
  { destruct Hi. apply (i_table _ _ HI) in Ht. apply list_elem_of_fmap in Ht as (s & [= -> _] & Hs).
    apply list_elem_of_fmap. by exists s. }
  keep HI; simpl.
  - rw /ids fmap_app. apply NoDup_app. split_and!; [apply (i_ids _ _ HI)| |apply NoDup_singleton].
    simpl. set_solver.
  - intros i. rw /ids fmap_app elem_of_app. intros [?|?]; [by apply (i_opened _ _ HI)|simpl in *; set_solver].
  - intros i c'. rw lookup_insert_Some /pairs fmap_app elem_of_app.
    intros [[-> ->]|[_ Hl]]; [right; simpl; set_solver|left; by apply (i_table _ _ HI)].
  - done.
  - done.
  - apply Forall_app. split; [apply (i_sessions _ _ HI)|]. constructor; [|constructor]. by split_and!.
  - intros c' Hr. destruct (i_owned _ _ HI c' Hr) as [[?|[[i Hl]|[?|Hs]]]|?]; [left|left|left|left|by right].
    + by left.
    + right; left. exists i. simpl. rw lookup_insert_ne; last done. congruence.
    + by right; right; left.
    + rw Hpc in Hs. right; left. exists id. simpl. simpl in Hs. by rw lookup_insert_eq Hs.
  - done.
Qed.

Lemma inv_drop_one_shot P g c : Inv P g → Inv P (drop_one_shot c g).
Proof.
  intros HI. pose proof (i_observed _ _ HI). rw /drop_one_shot. case_decide as Hc.
  - keep HI; simpl.
    + intros c' Hr. destruct (i_owned _ _ HI c' Hr) as [[?|[?|[?|?]]]|?]; [left|left|left|left|by right].
      * left. set_solver.
      * by right; left.
      * destruct (decide (c' = c)) as [->|]; [left; set_solver|right; right; left; set_solver].
      * by right; right; right.
    + intros Ht. destruct (i_drained _ _ HI Ht). set_solver.
  - apply inv_shrink; [done|done|set_solver| |].
    + intros c' _ [?|[?|[?|?]]]; [by left|by right; left| |by right; right; right].
      right; right; left. set_solver.
    + intros Ht. destruct (i_drained _ _ HI Ht). set_solver.
Qed.

(** The host does not reuse a session id. *)
Definition fresh_open (l : label) (g : guest) : Prop := ∀ id, open_id l = Some id → id ∉ g_opened g.

Lemma inv_fresh_ids P g id : Inv P g → id ∉ g_opened g → id ∉ ids g ∧ id ∉ exits (g_out g).
Proof.
  intros HI Hf. split; intros Hi; apply Hf; [by apply (i_opened _ _ HI)|].
  by apply (i_frames _ _ HI), exit_frame.
Qed.

(** A frame of no session. *)
Lemma inv_answer P g ms : Inv P g → omap frame_id ms = [] → terminal ms → Inv P (emit ms g).
Proof.
  intros HI Hf Ht. assert (He : ∀ id, id ∉ exits ms).
  { intros id Hi. apply exit_frame in Hi. rw Hf in Hi. set_solver. }
  apply inv_emit; [done|done|rw Hf; set_solver|set_solver|set_solver].
Qed.

Lemma inv_teardown_connection P g : Inv P g → Inv P (teardown_connection g).
Proof. intros HI. by apply inv_teardown_sessions, inv_teardown_one_shot. Qed.

(** The thread moves on holding no child. *)
Lemma inv_move P g p :
  Inv P g → held p = None → ¬ torn_down p → (∀ c, ¬ spawning (g_pc g) c) → Inv P (set_pc p g).
Proof.
  intros HI Hh Hd Hs. apply inv_set_pc; [done|by intros ??? ->|by rw Hh|done|]. intros c _ Hc. by destruct (Hs c).
Qed.

Lemma drop_one_shot_pc c g : g_pc (drop_one_shot c g) = g_pc g.
Proof. rw /drop_one_shot. by case_decide. Qed.

Lemma inv_leave_exec P g c p :
  Inv P g → g_pc g = Collecting c → held p = None → ¬ torn_down p → Inv P (set_pc p (drop_one_shot c g)).
Proof.
  intros HI Hpc Hh Hd. apply inv_move; [by apply inv_drop_one_shot|done..|].
  intros c'. rw drop_one_shot_pc Hpc. intros [].
Qed.

(** A step of the thread while it opens a session. *)
Lemma inv_step_open (P : Prop) g l g' :
  Inv P g → step_conn l g = Some g' → (∃ id c pty, g_pc g = Opening id c pty) → (l = SpawnPanics → P) → Inv P g'.
Proof.
  intros HI Hstep (id & c & pty & Hpc) HP. destruct (i_opening _ _ HI _ _ _ Hpc) as (Ho & Hi & He).
  destruct l; rw /step_conn /step_open /step_exec /step_serve ?Hpc in Hstep; try done; simplify_eq.
  - apply inv_set_pc; [done|done|done|done|]. intros c' _ _. right. by apply HP.
  - change (Inv P (open_failed id msg (set_pc Idle (kill_group c g)))).
    apply inv_open_failed; [|done..]. apply inv_set_pc; [by apply inv_kill|done|done|done|].
    simpl. rw Hpc. intros c' _ ->. left; left. set_solver.
  - by apply inv_register_session.
Qed.

(** A step of the thread on a one-shot. *)
Lemma inv_step_exec (P : Prop) g l g' :
  Inv P g → step_conn l g = Some g' → (∃ c, g_pc g = Execing c ∨ g_pc g = Collecting c) →
  (l = SpawnPanics → P) → Inv P g'.
Proof.
  intros HI Hstep (c & [Hpc|Hpc]) HP;
    assert (Hc : c ∈ g_spawned g) by (apply (i_child _ _ HI); by rw Hpc);
    destruct l; rw /step_conn /step_open /step_exec /step_serve ?Hpc in Hstep; try done; try (case_guard; [|done]); simplify_eq/=.
  - apply inv_set_pc; [done|done|done|done|]. intros c' _ _. right. by apply HP.
  - keep HI; simpl; [done|by intros ? [= <-]| |done]. intros c' Hr.
    destruct (i_owned _ _ HI c' Hr) as [[?|[?|[?|Hs]]]|?]; [left|left|left|left|by right].
    + by left.
    + by right; left.
    + right; right; left. set_solver.
    + rw Hpc in Hs. right; right; left. set_solver.
  - by apply inv_leave_exec; [..|intros []].
  - apply inv_answer; [done|by destruct err|by destruct err].
  - by apply inv_leave_exec; [apply inv_answer|..|intros []].
  - by apply inv_leave_exec; [..|intros []].
  - by apply inv_observe.
  - apply inv_answer; [by apply inv_kill|done|done].
Qed.

Lemma inv_step_idle (P : Prop) g l g' :
  Inv P g → step_conn l g = Some g' → g_pc g = Idle → fresh_open l g → Inv P g'.
Proof.
  intros HI Hstep Hpc Hf.
  destruct l; rw /step_conn /step_open /step_exec /step_serve ?Hpc in Hstep; try done; try (case_guard; [|done]); simplify_eq/=;
    try (by apply inv_answer); try (by apply inv_move; [..|intros []|rw Hpc; intros ? []]).
  - destruct (inv_fresh_ids P g id HI) as [Hi He]; [by apply Hf|].
    apply inv_open_failed; [by apply inv_note_open|simpl; set_solver|done|done|]. simpl. by rw Hpc.
  - destruct (inv_fresh_ids P g id HI) as [Hi He]; [by apply Hf|].
    apply inv_start_child; [by apply inv_note_open|done..|]. intros ??? [= <- <- <-]. simpl. set_solver.
  - rw /close_session. destruct (g_table g !! id); [by apply inv_kill|done].
  - by apply inv_start_child.
Qed.

Lemma inv_step_conn (P : Prop) g l g' :
  Inv P g → step_conn l g = Some g' → fresh_open l g → (l = SpawnPanics → P) → Inv P g'.
Proof.
  intros HI Hstep Hf HP.
  destruct (g_pc g) as [| |id c pty|c|c| | |] eqn:Hpc; [|by eapply inv_step_idle|by eapply inv_step_open; eauto|by eapply inv_step_exec; eauto..|idtac|idtac|].
  all: destruct l; rw /step_conn /step_open /step_exec /step_serve ?Hpc in Hstep; try done; simplify_eq.
  - assert (HI' : Inv P (set_registered true g)) by (keep HI).
    apply inv_move; [by apply inv_answer|by destruct (g_up g)|destruct (g_up g); intros []|].
    intros c. simpl. rw Hpc. intros [].
  - apply inv_set_pc; [by apply inv_teardown_connection|done..|]. simpl. rw Hpc. intros c _ [].
  - assert (HI' : Inv P (set_registered false g)) by (keep HI).
    apply inv_set_pc; [done|done|done|intros _; by apply (i_drained _ _ HI); rw Hpc|].
    simpl. rw Hpc. intros c _ [].
Qed.

(** ** Runs *)

Lemma inv_step (P : Prop) g l g' :
  Inv P g → step l g = Some g' → fresh_open l g → (l = SpawnPanics → P) → Inv P g'.
Proof.
  intros HI Hstep Hf HP. rw /step in Hstep. destruct (step_conn l g) eqn:Hc.
  { simplify_eq. by eapply inv_step_conn. }
  destruct (step_session l g) eqn:Hs; [simplify_eq; by eapply inv_step_session|by eapply inv_step_world].
Qed.

(** ** Sessions still to end *)

Lemma accounted_mono g g' :
  accounted g → (g_up g' = true → g_up g = true) → (serving (g_pc g') → serving (g_pc g)) →
  (∀ id, id ∈ g_opened g' → id ∈ g_opened g ∨ id ∈ exits (g_out g') ∨ pending g' id) →
  (g_up g = true → ∀ id, id ∈ exits (g_out g) → id ∈ exits (g_out g')) →
  (serving (g_pc g') → g_up g = true → ∀ id, pending g id → id ∈ exits (g_out g') ∨ pending g' id) →
  accounted g'.
Proof.
  intros Ha Hup Hsv Ho He Hp Hup' Hsv' id Hid. destruct (Ho id Hid) as [Hid'|]; [|done].
  destruct (Ha (Hup Hup') (Hsv Hsv') id Hid') as [|]; [left; apply He; auto|apply Hp; auto].
Qed.

(** The sessions and the thread's own open stay. *)
Lemma pending_same g g' id :
  g_sessions g' = g_sessions g → (∀ id c pty, g_pc g = Opening id c pty → g_pc g' = g_pc g) →
  pending g id → pending g' id.
Proof.
  intros Hs Hpc [(c & pty & Ho)|H]; [left; exists c, pty; by rw (Hpc _ _ _ Ho)|right; by rw Hs].
Qed.

Lemma accounted_same g g' :
  accounted g → g_sessions g' = g_sessions g → g_pc g' = g_pc g → g_opened g' = g_opened g →
  (g_up g' = true → g_up g = true) →
  (g_up g = true → ∀ id, id ∈ exits (g_out g) → id ∈ exits (g_out g')) → accounted g'.
Proof.
  intros Ha Hs Hpc Ho Hup He. eapply accounted_mono; [exact Ha|done|by rw Hpc|by rw Ho; left|done|].
  intros _ _ id Hp. right. eapply pending_same; [done| |done]. by intros.
Qed.

Lemma emit_exits ms g : g_up g = true → exits (g_out (emit ms g)) = exits (g_out g) ++ exits ms.
Proof. intros Hup. by rw /= Hup exits_app. Qed.

Lemma exits_emit ms g : g_up g = true → ∀ id, id ∈ exits (g_out g) → id ∈ exits (g_out (emit ms g)).
Proof. intros Hup id Hi. rw (emit_exits _ _ Hup). by apply elem_of_app; left. Qed.

Lemma accounted_emit ms g : accounted g → accounted (emit ms g).
Proof. intros Ha. apply (accounted_same g); [done..|apply exits_emit]. Qed.

Lemma drop_one_shot_same c g :
  g_sessions (drop_one_shot c g) = g_sessions g ∧ g_up (drop_one_shot c g) = g_up g ∧
  g_opened (drop_one_shot c g) = g_opened g ∧ g_out (drop_one_shot c g) = g_out g.
Proof. rw /drop_one_shot. case_decide; by split_and!. Qed.

(** A waiter or pump moves on without reporting. *)
Lemma pending_at_session g k s s' id :
  g_sessions g !! k = Some s → s_id s' = s_id s → (unreported s → unreported s') →
  pending g id → pending (at_session k s' g) id.
Proof.
  intros Hk Hid Hu [Ho|(t & Ht & <- & Hun)]; [by left|right].
  apply list_elem_of_lookup in Ht as [j Hj]. destruct (decide (j = k)) as [->|Hne].
  - simplify_eq. exists s'. split; [|by auto]. apply list_elem_of_lookup. exists k.
    apply list_lookup_insert_eq. by eapply lookup_lt_Some.
  - exists t. split; [|done]. apply list_elem_of_lookup. exists j. simpl. by rw list_lookup_insert_ne.
Qed.

Lemma pending_reports g k s code id :
  g_sessions g !! k = Some s → s_waiter s = JoiningPumps code → g_up g = true →
  pending g id → id ∈ exits (g_out (emit [SessionExit (s_id s) code] g)) ∨
    pending (at_session k (with_waiter Reported s) g) id.
Proof.
  intros Hk Hw Hup [Ho|(t & Ht & <- & Hun)]; [by right; left|].
  apply list_elem_of_lookup in Ht as [j Hj]. destruct (decide (j = k)) as [->|Hne].
  - simplify_eq. left. rw (emit_exits _ _ Hup). apply elem_of_app. right. by left.
  - right; right. exists t. split; [|done]. apply list_elem_of_lookup. exists j. simpl. by rw list_lookup_insert_ne.
Qed.

Lemma accounted_session g l g' : accounted g → step_session l g = Some g' → accounted g'.
Proof.
  intros Ha Hstep.
  destruct l; try done; simpl in Hstep;
    match type of Hstep with context [g_sessions g !! ?k] => destruct (g_sessions g !! k) as [s|] eqn:Hk; [|done] end;
    simpl in Hstep; try (case_guard as Hg; [|done]); simplify_eq/=.
  - by apply accounted_emit.
  - eapply accounted_mono; [done|done|done|by left|done|]. intros _ _ i Hp. right. by eapply pending_at_session.
  - eapply accounted_mono; [done|done|done|by left|done|]. intros _ _ i Hp. right. by eapply (pending_at_session (observe _ g)).
  - destruct (s_waiter s) eqn:Hw; try done. case_guard; simplify_eq/=.
    eapply accounted_mono; [done|done|done|by left|by apply exits_emit|]. intros _ Hup i. exact (pending_reports g k s code i Hk Hw Hup).
  - eapply accounted_mono; [done|done|done|by left|done|]. intros _ _ i Hp. right.
    eapply (pending_at_session (set_tables _ _ g)); [done..|by rw /unreported Hg|done].
  - by apply (accounted_same g).
Qed.

Lemma accounted_world g l g' : accounted g → step_world l g = Some g' → accounted g'.
Proof.
  intros Ha Hstep. rw /step_world in Hstep.
  destruct l, (g_main g) as [| |[]| |]; try done; try (case_guard; [|done]); simplify_eq/=;
    first [ by apply (accounted_same g) | apply accounted_emit; by apply (accounted_same g) ].
Qed.

(** The thread's steps that end no open of its own. *)
Lemma accounted_keeps g g' :
  accounted g → g_sessions g' = g_sessions g → g_up g' = g_up g → g_opened g' = g_opened g →
  (g_up g = true → ∀ id, id ∈ exits (g_out g) → id ∈ exits (g_out g')) →
  (serving (g_pc g') → serving (g_pc g) ∧ ∀ id c pty, g_pc g ≠ Opening id c pty) → accounted g'.
Proof.
  intros Ha Hs Hup Ho He Hpc. eapply accounted_mono; [exact Ha|by rw Hup|by intros; apply Hpc|by rw Ho; left|done|].
  intros Hsv _ id Hp. right. eapply pending_same; [done| |done]. intros ??? Hop. by destruct (proj2 (Hpc Hsv) _ _ _ Hop).
Qed.

(** An open ends in frames or in a session. *)
Lemma accounted_open_failed P g id c pty msg :
  Inv P g → accounted g → g_pc g = Opening id c pty →
  accounted (set_pc Idle (abandon_spawned_session id c msg g)).
Proof.
  intros HI Ha Hpc. eapply accounted_mono; [exact Ha|done|by rw Hpc|by left|exact (exits_emit _ (kill_group c g))|].
  intros _ Hup i [(c' & pty' & Ho)|Hs]; [left|by right; right].
  simpl. rw Hup exits_app elem_of_app. right. rw Hpc in Ho. simplify_eq. by left.
Qed.

Lemma accounted_register P g id c pty :
  Inv P g → accounted g → g_pc g = Opening id c pty → accounted (set_pc Idle (register_session id c pty g)).
Proof.
  intros HI Ha Hpc. rw /register_session. destruct (g_table g !! id) as [c0|] eqn:Ht.
  { by eapply (accounted_open_failed P _ _ _ pty). }
  eapply accounted_mono; [exact Ha|done|by rw Hpc|by left|done|].
  intros _ _ i Hp. right; right. destruct Hp as [(c' & pty' & Ho)|(s & Hs & Hid & Hu)].
  - rw Hpc in Ho. simplify_eq. eexists. split; [apply elem_of_app; right; by left|done].
  - exists s. split; [apply elem_of_app; by left|done].
Qed.

Lemma accounted_open g l g' :
  accounted g → step_conn l g = Some g' → g_pc g = Idle → open_id l ≠ None → accounted g'.
Proof.
  intros Ha Hstep Hpc Hl. assert (Hsv : serving (g_pc g)) by (by rw Hpc).
  destruct l; try done; rw /step_conn /step_open /step_exec /step_serve Hpc in Hstep; try (case_guard; [|done]); simplify_eq/=.
  - intros Hup _ i Hi. simpl in Hup. rw /= Hup exits_app elem_of_app. simpl in Hi.
    destruct (decide (i = id)) as [->|]; [left; right; by left|].
    assert (Hi' : i ∈ g_opened g) by set_solver.
    destruct (Ha Hup Hsv i Hi') as [|Hp]; [by left; left|right].
    eapply pending_same; [| |exact Hp]; [done|by rw Hpc].
  - intros Hup _ i Hi. simpl in *. destruct (decide (i = id)) as [->|]; [right; left; by eexists _, _|].
    assert (Hi' : i ∈ g_opened g) by set_solver.
    destruct (Ha Hup Hsv i Hi') as [|Hp]; [by left|right].
    eapply pending_same; [| |exact Hp]; [done|by rw Hpc].
Qed.

Lemma accounted_conn P g l g' : Inv P g → accounted g → step_conn l g = Some g' → accounted g'.
Proof.
  intros HI Ha Hstep. pose proof Hstep as Hstep0. rw /step_conn /step_open /step_exec /step_serve in Hstep.
  destruct l, (g_pc g) eqn:Hpc; try done; try (by eapply (accounted_open g)); clear Hstep0;
    try (case_guard; [|done]); simplify_eq/=; try (by intros _ []); try (by apply accounted_emit);
    try (by apply (accounted_same g));
    try (by apply (accounted_keeps g); [..|rw /= ?Hpc; by split]).
  - apply (accounted_keeps g); [done..|exact (exits_emit _ (set_registered true g))|]. rw Hpc. by split.
  - by eapply (accounted_open_failed P).
  - by eapply accounted_register.
  - rw /close_session. destruct (g_table g !! id); [by apply (accounted_same g)|done].
  - destruct (drop_one_shot_same child (emit [Exit code] g)) as (H1 & H2 & H3 & H4).
    apply (accounted_keeps g); [done..| |rw Hpc; by split]. simpl. rw H4. apply exits_emit.
Qed.

(** ** Runs *)

Lemma accounted_step P g l g' : Inv P g → accounted g → step l g = Some g' → accounted g'.
Proof.
  intros HI Ha Hstep. rw /step in Hstep. destruct (step_conn l g) eqn:Hc.
  { simplify_eq. by eapply accounted_conn. }
  destruct (step_session l g) eqn:Hs; [simplify_eq; by eapply accounted_session|by eapply accounted_world].
Qed.

Lemma step_opened l g g' id :
  step l g = Some g' → id ∈ g_opened g' ↔ id ∈ g_opened g ∨ open_id l = Some id.
Proof.
  intros Hstep.
  assert (Hsame : open_id l = None → g_opened g' = g_opened g → id ∈ g_opened g' ↔ id ∈ g_opened g ∨ open_id l = Some id).
  { intros -> ->. naive_solver. }
  rw /step in Hstep. destruct (step_conn l g) as [g1|] eqn:Hc; simplify_eq.
  { rw /step_conn /step_open /step_exec /step_serve in Hc. destruct l, (g_pc g); try done; try (case_guard; [|done]); simplify_eq/=;
      try (by apply Hsame); try (apply Hsame; [done|by apply drop_one_shot_same]); try set_solver.
    - apply Hsame; [done|]. rw /= /register_session. by destruct (g_table g !! _).
    - apply Hsame; [done|]. rw /close_session. by destruct (g_table g !! _).
    - apply Hsame; [done|]. by destruct (drop_one_shot_same child (emit [Exit code] g)) as (_ & _ & -> & _). }
  destruct (step_session l g) as [g1|] eqn:Hs; simplify_eq.
  { destruct l; try done; simpl in Hs; destruct (g_sessions g !! k) as [s|]; simpl in Hs; try done;
      try (case_guard; [|done]); try (destruct (s_waiter s); try done; case_guard; [|done]); simplify_eq/=; by apply Hsame. }
  rw /step_world in Hstep.
  destruct l, (g_main g) as [| |[]| |]; try done; try (case_guard; [|done]); simplify_eq/=; by apply Hsame.
Qed.

Lemma guest_run_inv (P : Prop) ls g g' :
  Inv P g → accounted g → run ls g = Some g' → NoDup (omap open_id ls) →
  (∀ id, id ∈ omap open_id ls → id ∉ g_opened g) → (SpawnPanics ∈ ls → P) →
  Inv P g' ∧ accounted g' ∧ ∀ id, id ∈ g_opened g' ↔ id ∈ g_opened g ∨ id ∈ omap open_id ls.
Proof.
  revert g. induction ls as [|l ls IH]; simpl; intros g HI Ha Hrun Hn Hf HP.
  { simplify_eq. split_and!; [done..|set_solver]. }
  destruct (step l g) as [g1|] eqn:Hstep; [|done]. simpl in Hrun.
  assert (Hfl : fresh_open l g). { intros id Hid. apply Hf. rw Hid. by left. }
  destruct (IH g1) as (H1 & H2 & H3).
  - eapply inv_step; [done..|]. intros ->. apply HP. by left.
  - by eapply accounted_step.
  - done.
  - destruct (open_id l); [by apply NoDup_cons in Hn as [_ ?]|done].
  - intros id Hid. rw (step_opened l g g1 id Hstep). intros [?|Hl].
    + apply (Hf id); [|done]. destruct (open_id l); [by right|done].
    + rw Hl in Hn. by apply NoDup_cons in Hn as [? _].
  - intros Hp. apply HP. by right.
  - split_and!; [done..|]. intros id. rw H3 (step_opened l g g1 id Hstep).
    destruct (open_id l); simpl; set_solver.
Qed.

(** ** What the host and the guest rely on *)



(** A terminal session and a pipe session that overlap, and a one-shot. *)
Definition demo_run : list label :=
  [Registers; OpenSpawns 1 100 true; OpenRegisters; OpenSpawns 2 101 false; OpenRegisters;
   PumpSends 0 false "$ "; PumpSends 1 true "warning"; ExecSpawns 102; ExecPublishes;
   ExecRelays false "hi"; ChildExits 102; ExecObserves; ExecEnds 0; OpenFails 3 "empty argv";
   ClosesSession 1; ChildExits 100; WaiterClaims 0 137; PumpEnds 0 false; WaiterReports 0; WaiterRemoves 0].


(** The host hangs up while both children run. *)
Definition demo_hangup : list label :=
  [Registers; OpenSpawns 1 100 true; OpenRegisters; ExecSpawns 101; ExecPublishes; HostHangsUp;
   ExecSendFails; TearsDown; Deregisters].


(** ** Where the law does not hold *)

(** Children that run on, unsignalled, when the run is over. *)
Definition left_running (ls : list label) : option (main_pc * list N) :=
  (λ g, (g_main g, elements (g_running g ∖ g_killed g))) <$> run ls accepted.

(** The law fails in three schedules.  A service-mode shutdown returns
    while a child it did not signal runs: one whose open was under way when the
    tables were drained, or one of a connection whose thread had been started
    but had not registered, which the main thread's order (stop accepting, then
    sweep) is meant to exclude.  And a child started before a thread that its
    open needs fails to start outlives the connection. *)
Theorem shutdown_leaves_children :
  left_running [Registers; OpenSpawns 1 100 true; MainStops; MainCollects; MainSweepsExecs;
                MainSweepsSessions] = Some (Returned, [100%N]) ∧
  left_running [MainStops; MainCollects; Registers; ExecSpawns 100; ExecPublishes; MainSweepsExecs] =
    Some (Returned, [100%N]) ∧
  left_running [Registers; ExecSpawns 100; SpawnPanics; TearsDown; Deregisters] = Some (Serving, [100%N]).
Proof. vm_compute. repeat split. Qed.
