(* ===== verification/Mux.v ===== *)
(** * The host's session multiplexer

    Models [crates/vmcell/src/steward/session.rs]: [SessionMux] with its reader
    and writer tasks and the shared registry, and the [Session] handles.  An
    operation is one critical section on the registry's lock, one channel
    operation, or one frame the reader has decoded; any interleaving is a list
    of them.  A session's channel is the list of the events in it; its sender
    lives in the registry's map, which every handle keeps alive. *)

From S2P Require Import Prelude Wire Client Serve ServeProps.

(** ** Session specs *)

Record SessionSpecBuilder := { sb_command : ExecRequest; sb_pty : option PtyConfig }.

Definition SessionSpecBuilder_new (argv : list string) : SessionSpecBuilder :=
  {| sb_command := ExecRequest_new argv; sb_pty := None |}.

Definition sb_with_pty (rows cols : N) (b : SessionSpecBuilder) : SessionSpecBuilder :=
  {| sb_command := sb_command b; sb_pty := Some {| rows := rows; cols := cols |} |}.

Definition build (b : SessionSpecBuilder) : SessionSpec :=
  let spec := SessionSpec_new (sb_command b) in
  match sb_pty b with
  | Some pty => with_pty spec (rows pty) (cols pty)
  | None => spec
  end.

(** ** State *)

Inductive SessionEvent := EvStdout (data : string) | EvStderr (data : string) | EvExit (code : Z).

(** A [Session]: [h_seen] is what [recv] has returned so far, and no part of the
    handle. *)
Record Session := {
  h_pty : bool;
  h_exited : bool;
  h_queue : list SessionEvent;
  h_seen : list SessionEvent;
}.

Record mux := {
  m_registry : option (gset SessionId);   (** ids with a sender; [None] once closed *)
  m_next_id : N;
  m_handles : gmap SessionId Session;
  m_written : list Message;               (** frames handed to the writer task *)
  m_writer : bool;                        (** the task still receives *)
  m_reader : bool;
  m_alive : bool;                         (** the [SessionMux] is not dropped *)
}.

Definition from_framed : mux := {|
  m_registry := Some ∅; m_next_id := 0; m_handles := ∅; m_written := [];
  m_writer := true; m_reader := true; m_alive := true |}.

Definition set_registry (r : option (gset SessionId)) (m : mux) : mux := {|
  m_registry := r; m_next_id := m_next_id m; m_handles := m_handles m; m_written := m_written m;
  m_writer := m_writer m; m_reader := m_reader m; m_alive := m_alive m |}.

Definition set_handles (h : gmap SessionId Session) (m : mux) : mux := {|
  m_registry := m_registry m; m_next_id := m_next_id m; m_handles := h; m_written := m_written m;
  m_writer := m_writer m; m_reader := m_reader m; m_alive := m_alive m |}.

Definition take_id (m : mux) : mux := {|
  m_registry := m_registry m; m_next_id := (m_next_id m + 1) mod 2 ^ 64; m_handles := m_handles m;
  m_written := m_written m; m_writer := m_writer m; m_reader := m_reader m; m_alive := m_alive m |}.

Definition enqueue (msg : Message) (m : mux) : mux := {|
  m_registry := m_registry m; m_next_id := m_next_id m; m_handles := m_handles m;
  m_written := m_written m ++ [msg]; m_writer := m_writer m; m_reader := m_reader m; m_alive := m_alive m |}.

Definition set_tasks (w r a : bool) (m : mux) : mux := {|
  m_registry := m_registry m; m_next_id := m_next_id m; m_handles := m_handles m; m_written := m_written m;
  m_writer := w; m_reader := r; m_alive := a |}.

(** ** Operations *)

Inductive mux_error := MEncode | MClosed | MNoHalfClose.

Section mux.
Context {PC : Postcard}.

(** The id is spent whatever comes of the open. *)
Definition open (spec : SessionSpec) (m : mux) : mux * result mux_error SessionId :=
  let id := m_next_id m in
  let m := take_id m in
  let msg := OpenSession id spec in
  match encode_frame msg with
  | Err _ => (m, Err MEncode)
  | Ok _ =>
      match m_registry m with
      | None => (m, Err MClosed)
      | Some sessions =>
          if m_writer m then
            let h := {| h_pty := bool_decide (is_Some (pty spec)); h_exited := false; h_queue := []; h_seen := [] |} in
            (enqueue msg (set_handles (<[id := h]> (m_handles m)) (set_registry (Some ({[id]} ∪ sessions)) m)), Ok id)
          else (set_registry (Some (({[id]} ∪ sessions) ∖ {[id]})) m, Err MClosed)
      end
  end.

(** [Session::send] *)
Definition send (msg : Message) (m : mux) : mux * result mux_error unit :=
  match encode_frame msg with
  | Err _ => (m, Err MEncode)
  | Ok _ =>
      match m_registry m with
      | None => (m, Err MClosed)
      | Some _ => if m_writer m then (enqueue msg m, Ok ()) else (m, Err MClosed)
      end
  end.

Definition supports_stdin_close (h : Session) : bool := negb (h_pty h).

Inductive request := WriteStdin (data : string) | CloseStdin | Resize (rows cols : N) | Close.

Definition session_request (id : SessionId) (h : Session) (r : request) (m : mux) : mux * result mux_error unit :=
  match r with
  | WriteStdin data => send (Stdin id data) m
  | CloseStdin => if supports_stdin_close h then send (StdinEof id) m else (m, Err MNoHalfClose)
  | Resize rows cols => send (Winsize id rows cols) m
  | Close => send (CloseSession id) m
  end.

(** The event goes to the channel whose sender is in the map; a channel whose
    handle is gone takes it to nowhere. *)
Definition deliver (id : SessionId) (ev : SessionEvent) (m : mux) : mux :=
  match m_registry m, m_handles m !! id with
  | Some sessions, Some h =>
      if decide (id ∈ sessions) then
        set_handles (<[id := {| h_pty := h_pty h; h_exited := h_exited h; h_queue := h_queue h ++ [ev]; h_seen := h_seen h |}]>
          (m_handles m)) m
      else m
  | _, _ => m
  end.

(** One frame of [reader_task]'s loop. *)
Definition read_frame (msg : Message) (m : mux) : mux :=
  match msg with
  | SessionStdout id data => deliver id (EvStdout data) m
  | SessionStderr id data => deliver id (EvStderr data) m
  | SessionExit id code =>
      let m := deliver id (EvExit code) m in
      match m_registry m with
      | Some sessions => set_registry (Some (sessions ∖ {[id]})) m
      | None => m
      end
  | _ => m
  end.

(** The end of [reader_task]: the transport or a frame has failed. *)
Definition reader_ends (m : mux) : mux := set_tasks (m_writer m) false (m_alive m) (set_registry None m).

(** [SessionMux]'s drop aborts both tasks where they are. *)
Definition drop_mux (m : mux) : mux := set_tasks false false false m.

(** What [event_rx.recv()] sees: an event, the end, or nothing yet. *)
Inductive received := Got (ev : SessionEvent) | Ended | Waits.

Definition has_sender (id : SessionId) (m : mux) : bool :=
  match m_registry m with Some sessions => bool_decide (id ∈ sessions) | None => false end.

Definition recv (id : SessionId) (h : Session) (m : mux) : Session * received :=
  if h_exited h then (h, Ended)
  else match h_queue h with
  | ev :: q =>
      ({| h_pty := h_pty h; h_exited := match ev with EvExit _ => true | _ => false end; h_queue := q;
          h_seen := h_seen h ++ [ev] |}, Got ev)
  | [] =>
      if has_sender id m then (h, Waits)
      else ({| h_pty := h_pty h; h_exited := true; h_queue := []; h_seen := h_seen h |}, Ended)
  end.

(** [Session::wait], on what is there; [None] while it would go on waiting. *)
Fixpoint wait (fuel : nat) (id : SessionId) (h : Session) (m : mux) (o : ExecOutcome) : option ExecOutcome :=
  match fuel with
  | 0 => None
  | S fuel =>
      match recv id h m with
      | (_, Ended) => Some o
      | (_, Waits) => None
      | (h, Got (EvStdout d)) =>
          wait fuel id h m {| oc_code := oc_code o; oc_stdout := oc_stdout o +:+ d; oc_stderr := oc_stderr o |}
      | (h, Got (EvStderr d)) =>
          wait fuel id h m {| oc_code := oc_code o; oc_stdout := oc_stdout o; oc_stderr := oc_stderr o +:+ d |}
      | (_, Got (EvExit code)) =>
          Some {| oc_code := code; oc_stdout := oc_stdout o; oc_stderr := oc_stderr o |}
      end
  end.

(** ** Interleavings *)

Inductive mux_op :=
  | Open (spec : SessionSpec) | Request (id : SessionId) (r : request) | Recv (id : SessionId)
  | ReadFrame (msg : Message) | ReaderEnds | WriterDies | DropMux.

Definition mux_step (o : mux_op) (m : mux) : mux :=
  match o with
  | Open spec => if m_alive m then (open spec m).1 else m
  | Request id r => match m_handles m !! id with Some h => (session_request id h r m).1 | None => m end
  | Recv id =>
      match m_handles m !! id with
      | Some h => set_handles (<[id := (recv id h m).1]> (m_handles m)) m
      | None => m
      end
  | ReadFrame msg => if m_reader m then read_frame msg m else m
  | ReaderEnds => if m_reader m then reader_ends m else m
  | WriterDies => set_tasks false (m_reader m) (m_alive m) m
  | DropMux => drop_mux m
  end.

Definition mux_run (ops : list mux_op) : mux := foldl (λ m o, mux_step o m) from_framed ops.

(** ** What the reader was given *)

Inductive entry := Opened (id : SessionId) | Frame (msg : Message).

Definition log_step (o : mux_op) (m : mux) : list entry :=
  match o with
  | Open spec => if m_alive m then match (open spec m).2 with Ok id => [Opened id] | Err _ => [] end else []
  | ReadFrame msg => if m_reader m then [Frame msg] else []
  | _ => []
  end.

Definition mux_log (ops : list mux_op) : list entry :=
  (foldl (λ '(m, log) o, (mux_step o m, log ++ log_step o m)) (from_framed, []) ops).2.

Definition frames (log : list entry) : list Message :=
  omap (λ e, match e with Frame msg => Some msg | _ => None end) log.

(** The frames read before, and after, session [id] was opened. *)
Fixpoint split_open (id : SessionId) (log : list entry) : list Message * list Message :=
  match log with
  | [] => ([], [])
  | Frame msg :: log => let '(b, a) := split_open id log in (msg :: b, a)
  | Opened i :: log => if decide (i = id) then ([], frames log) else split_open id log
  end.

Definition event_of (id : SessionId) (msg : Message) : option SessionEvent :=
  match msg with
  | SessionStdout i d => if decide (i = id) then Some (EvStdout d) else None
  | SessionStderr i d => if decide (i = id) then Some (EvStderr d) else None
  | SessionExit i c => if decide (i = id) then Some (EvExit c) else None
  | _ => None
  end.

Arguments event_of : simpl never.

Definition is_exit (ev : SessionEvent) : bool := match ev with EvExit _ => true | _ => false end.

Fixpoint until_exit (evs : list SessionEvent) : list SessionEvent :=
  match evs with
  | [] => []
  | ev :: evs => if is_exit ev then [ev] else ev :: until_exit evs
  end.

(** What session [id] is to see. *)
Definition events (id : SessionId) (log : list entry) : list SessionEvent :=
  until_exit (omap (event_of id) (split_open id log).2).

(** ** The demultiplexer *)

Lemma until_exit_snoc evs ev :
  until_exit (evs ++ [ev]) = if existsb is_exit evs then until_exit evs else evs ++ [ev].
Proof.
  induction evs as [|e evs IH]; simpl; [by destruct (is_exit ev)|].
  destruct (is_exit e); simpl; [done|]. rewrite IH. by destruct (existsb is_exit evs).
Qed.

Lemma until_exit_none evs : existsb is_exit evs = false → until_exit evs = evs.
Proof.
  induction evs as [|e evs IH]; simpl; [done|]. destruct (is_exit e); [done|]. simpl. intros H. by rewrite IH.
Qed.

Lemma until_exit_has evs : existsb is_exit (until_exit evs) = existsb is_exit evs.
Proof. induction evs as [|e evs IH]; simpl; [done|]. destruct (is_exit e) eqn:He; simpl; by rewrite He, ?IH. Qed.

Lemma split_open_absent id log : Opened id ∉ log → (split_open id log).2 = [].
Proof.
  induction log as [|[i|msg] log IH]; simpl; [done|..].
  - rewrite not_elem_of_cons. intros [Hne Hin]. case_decide; [congruence|auto].
  - rewrite not_elem_of_cons. intros [_ Hin]. specialize (IH Hin). destruct (split_open id log). done.
Qed.

Lemma frames_app l1 l2 : frames (l1 ++ l2) = frames l1 ++ frames l2.
Proof. apply omap_app. Qed.

Lemma split_open_app id log log' :
  Opened id ∈ log → (split_open id (log ++ log')).2 = (split_open id log).2 ++ frames log'.
Proof.
  induction log as [|[i|msg] log IH]; simpl; [by intros ?%elem_of_nil|..].
  - rewrite elem_of_cons. case_decide as Hi; [intros _; apply frames_app|]. intros [?|?]; [congruence|auto].
  - rewrite elem_of_cons. intros [?|Hin]; [done|]. specialize (IH Hin).
    destruct (split_open id (log ++ log')), (split_open id log). done.
Qed.

Lemma mux_run_snoc ops o : mux_run (ops ++ [o]) = mux_step o (mux_run ops).
Proof. unfold mux_run. by rewrite foldl_app. Qed.

Lemma mux_log_run ops :
  foldl (λ '(m, log) o, (mux_step o m, log ++ log_step o m)) (from_framed, []) ops = (mux_run ops, mux_log ops).
Proof.
  unfold mux_log. induction ops as [|o ops IH] using rev_ind; [done|].
  rewrite mux_run_snoc, !foldl_app. simpl. by rewrite IH.
Qed.

Lemma mux_log_snoc ops o : mux_log (ops ++ [o]) = mux_log ops ++ log_step o (mux_run ops).
Proof. unfold mux_log at 1. rewrite foldl_app, mux_log_run. done. Qed.

(** Session by session: the channel and what is left of it to come. *)
Record mux_ok (n : nat) (m : mux) (log : list entry) : Prop := {
  mo_next : (m_next_id m = N.of_nat n mod 2 ^ 64)%N;
  mo_fresh id : id ∈ dom (m_handles m) → (id < N.of_nat n)%N;
  mo_opened id : Opened id ∈ log ↔ id ∈ dom (m_handles m);
  mo_events id h : m_handles m !! id = Some h → h_seen h ++ h_queue h = events id log;
  mo_sender id sessions : m_registry m = Some sessions →
    id ∈ sessions ↔ id ∈ dom (m_handles m) ∧ existsb is_exit (events id log) = false;
  mo_reader : m_reader m = true → is_Some (m_registry m);
}.

Lemma events_other id log e :
  Opened id ∈ log → (∀ msg, e = Frame msg → event_of id msg = None) → events id (log ++ [e]) = events id log.
Proof.
  intros Hin He. unfold events. rewrite (split_open_app id log [e] Hin). destruct e as [i|msg]; simpl.
  - by rewrite app_nil_r.
  - rewrite omap_app. simpl. by rewrite (He msg eq_refl), app_nil_r.
Qed.

Lemma events_frame id log msg ev :
  Opened id ∈ log → event_of id msg = Some ev →
  events id (log ++ [Frame msg]) = if existsb is_exit (events id log) then events id log else events id log ++ [ev].
Proof.
  intros Hin He. unfold events. rewrite (split_open_app id log _ Hin). simpl. rewrite omap_app. simpl. rewrite He.
  rewrite until_exit_snoc, until_exit_has. destruct (existsb is_exit _) eqn:Hx; [done|]. by rewrite until_exit_none.
Qed.

Lemma events_new id log : Opened id ∉ log → events id (log ++ [Opened id]) = [].
Proof.
  intros Hn. unfold events. enough ((split_open id (log ++ [Opened id])).2 = []) as -> by done.
  induction log as [|[i|msg] log IH]; simpl.
  - by rewrite decide_True by done.
  - apply not_elem_of_cons in Hn as [Hne Hn]. rewrite decide_False by congruence. auto.
  - apply not_elem_of_cons in Hn as [_ Hn]. specialize (IH Hn). by destruct (split_open id (log ++ [Opened id])).
Qed.

Definition push (ev : SessionEvent) (h : Session) : Session :=
  {| h_pty := h_pty h; h_exited := h_exited h; h_queue := h_queue h ++ [ev]; h_seen := h_seen h |}.

Lemma deliver_handles id ev m sessions i :
  m_registry m = Some sessions →
  m_handles (deliver id ev m) !! i =
    if decide (i = id ∧ id ∈ sessions) then push ev <$> m_handles m !! i else m_handles m !! i.
Proof.
  intros Hr. unfold deliver. rewrite Hr. destruct (m_handles m !! id) as [h|] eqn:Hh.
  - destruct (decide (id ∈ sessions)); simpl.
    + destruct (decide (i = id)) as [->|Hne].
      * rewrite lookup_insert_eq, decide_True by done. by rewrite Hh.
      * rewrite lookup_insert_ne by done. by rewrite decide_False by naive_solver.
    + by rewrite decide_False by naive_solver.
  - case_decide as Hd; [|done]. destruct Hd as [-> _]. by rewrite Hh.
Qed.

(** A frame of session [id]: its channel gets the event, if it has a sender. *)
Lemma mux_ok_deliver n m m' log id msg ev sessions :
  mux_ok n m log → (∀ i, event_of i msg = if decide (id = i) then Some ev else None) →
  m_registry m = Some sessions → m_next_id m' = m_next_id m → m_handles m' = m_handles (deliver id ev m) →
  m_registry m' = Some (if is_exit ev then sessions ∖ {[id]} else sessions) →
  mux_ok n m' (log ++ [Frame msg]).
Proof.
  intros [Hnext Hfresh Hopened Hev Hs _] Hmsg Hr Hn' Hh' Hr'.
  assert (Hdom : ∀ i, i ∈ dom (m_handles m') ↔ i ∈ dom (m_handles m)).
  { intros i. rewrite Hh', !elem_of_dom, (deliver_handles _ _ _ sessions) by done.
    case_decide; [|done]. by rewrite fmap_is_Some. }
  assert (Hoth : ∀ i, i ≠ id → i ∈ dom (m_handles m) → events i (log ++ [Frame msg]) = events i log).
  { intros i Hne Hi. apply events_other; [by apply Hopened|]. intros msg' [= <-]. by rewrite Hmsg, decide_False. }
  assert (Hown : id ∈ dom (m_handles m) → events id (log ++ [Frame msg]) =
    if existsb is_exit (events id log) then events id log else events id log ++ [ev]).
  { intros Hi. apply events_frame; [by apply Hopened|]. by rewrite Hmsg, decide_True. }
  split.
  - by rewrite Hn'.
  - intros i Hi. by apply Hfresh, Hdom.
  - intros i. rewrite Hdom, <- Hopened. set_solver.
  - intros i h. rewrite Hh', (deliver_handles _ _ _ sessions) by done. intros Hl.
    destruct (decide (i = id)) as [->|Hne].
    + assert (Hid : id ∈ dom (m_handles m)) by (apply elem_of_dom; case_decide; [by apply fmap_Some in Hl as (? & -> & _)|done]).
      rewrite Hown by done. pose proof (Hs id sessions Hr) as Hss. case_decide as Hd.
      * destruct Hss as [Hss _]. destruct (Hss (proj2 Hd)) as [_ ->].
        apply fmap_Some in Hl as (h0 & Hl & ->). simpl. by rewrite app_assoc, (Hev id h0 Hl).
      * destruct (existsb is_exit (events id log)); [by apply Hev|]. naive_solver.
    + rewrite decide_False in Hl by naive_solver. rewrite Hoth by (done || by apply elem_of_dom). by apply Hev.
  - intros i sessions'. rewrite Hr', Hdom. intros [= <-]. pose proof (Hs i sessions Hr) as Hsi.
    destruct (decide (i = id)) as [->|Hne].
    + destruct (decide (id ∈ dom (m_handles m))) as [Hid|Hid]; [|destruct (is_exit ev); set_solver].
      rewrite Hown by done. destruct (existsb is_exit (events id log)) eqn:Hx.
      * rewrite Hx. destruct (is_exit ev); set_solver.
      * rewrite existsb_app, Hx. simpl. destruct (is_exit ev); set_solver.
    + transitivity (i ∈ sessions); [destruct (is_exit ev); set_solver|]. rewrite Hsi.
      split; intros [Hd Hx]; (split; [done|]); [by rewrite Hoth|by rewrite Hoth in Hx].
  - by rewrite Hr'.
Qed.

(** A step that touches no channel. *)
Lemma mux_ok_same n m m' log :
  mux_ok n m log → m_next_id m' = m_next_id m → m_handles m' = m_handles m →
  (m_registry m' = m_registry m ∨ m_registry m' = None) → (m_reader m' = true → is_Some (m_registry m')) →
  mux_ok n m' log.
Proof.
  intros [Hnext Hfresh Hopened Hev Hs Hrd] Hn Hh Hr Hrd'. split; rewrite ?Hn, ?Hh; try done.
  intros id sessions Hs'. destruct Hr as [Hr|Hr]; rewrite Hr in Hs'; [|done]. by apply Hs.
Qed.

Lemma mux_ok_open n spec m log :
  (N.of_nat n < 2 ^ 64)%N → mux_ok n m log →
  mux_ok (S n) (open spec m).1 (log ++ match (open spec m).2 with Ok id => [Opened id] | Err _ => [] end).
Proof.
  intros Hn [Hnext Hfresh Hopened Hev Hs Hrd]. rewrite N.mod_small in Hnext by done.
  assert (Hnext' : ((m_next_id m + 1) mod 2 ^ 64 = N.of_nat (S n) mod 2 ^ 64)%N) by (rewrite Hnext; f_equal; lia).
  assert (Hnew : m_next_id m ∉ dom (m_handles m)) by (intros Hd; apply Hfresh in Hd; lia).
  assert (Hfresh' : ∀ id, id ∈ dom (m_handles m) → (id < N.of_nat (S n))%N) by (intros id Hd; apply Hfresh in Hd; lia).
  unfold open. destruct (encode_frame _); simpl; [|by rewrite app_nil_r; split].
  destruct (m_registry m) as [sessions|] eqn:Hr; simpl; [|rewrite app_nil_r; split; simpl; rewrite ?Hr; naive_solver].
  destruct (m_writer m); simpl.
  2: { rewrite app_nil_r. split; simpl; try done. intros id s [= <-]. rewrite <- (Hs id sessions) by done.
       pose proof (Hs (m_next_id m) sessions eq_refl). set_solver. }
  assert (Hop : Opened (m_next_id m) ∉ log) by (by rewrite Hopened).
  assert (Hold : ∀ id, id ∈ dom (m_handles m) → events id (log ++ [Opened (m_next_id m)]) = events id log).
  { intros id Hid. apply events_other; [by apply Hopened|done]. }
  split; simpl; [done| | | | |done].
  - intros id. rewrite dom_insert_L. intros [->%elem_of_singleton|Hd]%elem_of_union; [lia|by apply Hfresh'].
  - intros id. rewrite dom_insert_L. pose proof (Hopened id). set_solver.
  - intros id h. rewrite lookup_insert_Some. intros [[<- <-]|[Hne Hl]]; [by rewrite events_new|].
    rewrite Hold by (by apply elem_of_dom). by apply Hev.
  - intros id s [= <-]. rewrite dom_insert_L. destruct (decide (id = m_next_id m)) as [->|Hne].
    + rewrite events_new by done. set_solver.
    + transitivity (id ∈ sessions); [set_solver|]. rewrite (Hs id sessions) by done.
      split; [intros [Hd Hx]; split; [set_solver|by rewrite Hold]|].
      intros [Hd Hx]. assert (id ∈ dom (m_handles m)) by set_solver. by rewrite Hold in Hx.
Qed.

Lemma send_same msg m :
  m_next_id (send msg m).1 = m_next_id m ∧ m_handles (send msg m).1 = m_handles m ∧
  m_registry (send msg m).1 = m_registry m ∧ m_reader (send msg m).1 = m_reader m.
Proof.
  unfold send. destruct (encode_frame msg); [|done]. destruct (m_registry m) eqn:Hr; [|done].
  destruct (m_writer m); simpl; rewrite ?Hr; done.
Qed.

Lemma mux_ok_recv n m log id h :
  mux_ok n m log → m_handles m !! id = Some h →
  mux_ok n (set_handles (<[id := (recv id h m).1]> (m_handles m)) m) log.
Proof.
  intros [Hnext Hfresh Hopened Hev Hs Hrd] Hh.
  assert (Hd : dom (<[id := (recv id h m).1]> (m_handles m)) = dom (m_handles m)).
  { apply dom_insert_lookup_L. by eexists. }
  split; simpl; rewrite ?Hd; try done.
  intros i h'. rewrite lookup_insert_Some. intros [[<- <-]|[_ Hl]]; [|by apply Hev].
  rewrite <- (Hev id h Hh). unfold recv. destruct (h_exited h); [done|].
  destruct (h_queue h) as [|ev q] eqn:Hq; [destruct (has_sender id m); simpl; by rewrite ?Hq|].
  simpl. by rewrite <- app_assoc.
Qed.

Lemma mux_ok_frame n m log msg :
  mux_ok n m log → m_reader m = true → mux_ok n (read_frame msg m) (log ++ [Frame msg]).
Proof.
  intros Hok Hrd. destruct (mo_reader _ _ _ Hok Hrd) as [sessions Hr].
  assert (Hreg : ∀ id ev, m_registry (deliver id ev m) = Some sessions).
  { intros id ev. unfold deliver. rewrite Hr. destruct (m_handles m !! id); [|done]. by case_decide. }
  assert (Hnid : ∀ id ev, m_next_id (deliver id ev m) = m_next_id m).
  { intros id ev. unfold deliver. rewrite Hr. destruct (m_handles m !! id); [|done]. by case_decide. }
  assert (Hnone : (∀ i, event_of i msg = None) → mux_ok n m (log ++ [Frame msg])).
  { intros Hno. destruct Hok as [H1 H2 H3 H4 H5 H6].
    assert (Hsame : ∀ id, id ∈ dom (m_handles m) → events id (log ++ [Frame msg]) = events id log).
    { intros id Hid. apply events_other; [by apply H3|]. by intros ? [= <-]. }
    split; [done|done| | | |done].
    - intros id. rewrite <- H3. set_solver.
    - intros id h Hl. rewrite Hsame by (by apply elem_of_dom). by apply H4.
    - intros id s Hs. rewrite (H5 id s Hs). split; intros [Hd Hx]; (split; [done|]); by rewrite Hsame in *. }
  destruct msg; simpl; try (by apply Hnone);
    try (eapply (mux_ok_deliver n m _ log session); [exact Hok| |exact Hr|apply Hnid|reflexivity|apply Hreg];
         intros i; unfold event_of; by case_decide).
  rewrite Hreg. eapply (mux_ok_deliver n m _ log session (SessionExit session code) (EvExit code)); [exact Hok| |exact Hr|apply Hnid|done|done].
  intros i. unfold event_of. by case_decide.
Qed.

Lemma mux_ok_run ops :
  (N.of_nat (length ops) <= 2 ^ 64)%N → ∃ n, n <= length ops ∧ mux_ok n (mux_run ops) (mux_log ops).
Proof.
  induction ops as [|o ops IH] using rev_ind.
  { intros _. exists 0. split; [done|]. split; simpl; set_solver. }
  rewrite length_app. simpl. intros Hlen. destruct IH as (n & Hn & Hok); [lia|].
  assert (Hstay : ∀ m', m' = mux_run ops → ∃ n, n <= length ops + 1 ∧ mux_ok n m' (mux_log ops ++ [])).
  { intros m' ->. exists n. rewrite app_nil_r. split; [lia|done]. }
  rewrite mux_run_snoc, mux_log_snoc. set (m := mux_run ops) in *. destruct o as [spec|id r|id|msg| | |]; simpl.
  - destruct (m_alive m); [|by apply Hstay]. exists (S n). split; [lia|]. apply mux_ok_open; [lia|done].
  - destruct (m_handles m !! id) as [h|]; [|by apply Hstay]. exists n. rewrite app_nil_r. split; [lia|].
    assert (Hsend : ∀ msg, mux_ok n (send msg m).1 (mux_log ops)).
    { intros msg. destruct (send_same msg m) as (H1 & H2 & H3 & H4).
      eapply mux_ok_same; [exact Hok|done|done|by left|]. rewrite H3, H4. apply (mo_reader _ _ _ Hok). }
    destruct r; simpl; [apply Hsend| |apply Hsend..]. by destruct (supports_stdin_close h); [apply Hsend|].
  - destruct (m_handles m !! id) as [h|] eqn:Hh; [|by apply Hstay]. exists n. rewrite app_nil_r. split; [lia|].
    by apply mux_ok_recv.
  - destruct (m_reader m) eqn:Hrd; [|by apply Hstay]. exists n. split; [lia|]. by apply mux_ok_frame.
  - destruct (m_reader m) eqn:Hrd; [|by apply Hstay]. exists n. rewrite app_nil_r. split; [lia|].
    eapply mux_ok_same; [exact Hok|done|done|by right|done].
  - exists n. rewrite app_nil_r. split; [lia|]. eapply mux_ok_same; [exact Hok|done|done|by left|]. apply (mo_reader _ _ _ Hok).
  - exists n. rewrite app_nil_r. split; [lia|]. by eapply mux_ok_same; [exact Hok|..|left|].
Qed.

(** Whatever the interleaving of opens, requests, receives and frames, what
    a session's handle has received and still holds is exactly the events of
    its own frames read since it was opened, in their order, up to and including
    the first exit. *)
Theorem demux_exact ops id h :
  (N.of_nat (length ops) <= 2 ^ 64)%N → m_handles (mux_run ops) !! id = Some h →
  h_seen h ++ h_queue h = events id (mux_log ops).
Proof. intros Hlen Hh. destruct (mux_ok_run ops Hlen) as (n & _ & Hok). by apply (mo_events _ _ _ Hok). Qed.

(** ** The end of a connection *)

Definition closed (m : mux) : Prop := m_registry m = None.

Lemma closed_step o m : closed m → closed (mux_step o m).
Proof.
  unfold closed. intros Hc. destruct o as [spec|id r|id|msg| | |]; simpl.
  - destruct (m_alive m); [|done]. unfold open. destruct (encode_frame _); [|done]. simpl. by rewrite Hc.
  - destruct (m_handles m !! id) as [h|]; [|done].
    assert (Hsend : ∀ msg, m_registry (send msg m).1 = None) by (intros msg; by rewrite (proj1 (proj2 (proj2 (send_same msg m))))).
    destruct r; simpl; [apply Hsend| |apply Hsend..]. by destruct (supports_stdin_close h); [apply Hsend|].
  - by destruct (m_handles m !! id).
  - destruct (m_reader m); [|done]. unfold read_frame, deliver. destruct msg; rewrite ?Hc; done.
  - by destruct (m_reader m).
  - done.
  - done.
Qed.

Lemma mux_run_app ops1 ops2 : mux_run (ops1 ++ ops2) = foldl (λ m o, mux_step o m) (mux_run ops1) ops2.
Proof. apply foldl_app. Qed.


(** A receive that nothing will ever end. *)
Definition hung (id : SessionId) (m : mux) : Prop :=
  m_alive m = false ∧ m_reader m = false ∧ has_sender id m = true ∧
  ∃ h, m_handles m !! id = Some h ∧ h_exited h = false ∧ h_queue h = [].

Lemma send_alive msg m : m_alive (send msg m).1 = m_alive m.
Proof. unfold send. destruct (encode_frame msg), (m_registry m), (m_writer m); done. Qed.

Lemma hung_step id o m : hung id m → hung id (mux_step o m).
Proof.
  intros Hm. pose proof Hm as (Ha & Hr & Hs & h & Hh & He & Hq). destruct o as [spec|i r|i|msg| | |]; simpl; rewrite ?Ha, ?Hr; try done.
  - destruct (m_handles m !! i) as [hi|]; [|done].
    assert (Hsend : ∀ msg, hung id (send msg m).1).
    { intros msg. destruct (send_same msg m) as (_ & H2 & H3 & H4). unfold hung, has_sender.
      rewrite send_alive, H2, H3, H4. exact Hm. }
    destruct r; simpl; [apply Hsend| |apply Hsend..]. by destruct (supports_stdin_close hi); [apply Hsend|].
  - destruct (m_handles m !! i) as [hi|] eqn:Hi; [|done]. split_and!; [done..|]. simpl.
    destruct (decide (i = id)) as [->|Hne]; [|exists h; by rewrite lookup_insert_ne].
    simplify_eq. exists h. rewrite lookup_insert_eq. unfold recv. rewrite He, Hq, Hs. done.
  - split_and!; [done|done|done|]. by exists h.
  - split_and!; [done|done|done|]. by exists h.
Qed.

(** Dropping the multiplexer aborts the reader before its last step, so the
    map with a session's sender lives on in the session's own handle: a receive
    on a drained session that has not exited waits forever, whatever is done
    with the handles that are left. *)
Theorem dropped_mux_recv_hangs ops1 ops2 id h :
  m_handles (mux_run ops1) !! id = Some h → h_exited h = false → h_queue h = [] →
  has_sender id (mux_run ops1) = true →
  let m := mux_run (ops1 ++ DropMux :: ops2) in
  ∃ h', m_handles m !! id = Some h' ∧ (recv id h' m).2 = Waits.
Proof.
  intros Hh He Hq Hs m.
  assert (Hm : hung id m).
  { unfold m. rewrite mux_run_app. simpl.
    assert (hung id (drop_mux (mux_run ops1))) as H0 by (split_and!; [done..|by exists h]). revert H0.
    generalize (drop_mux (mux_run ops1)). induction ops2 as [|o ops IH]; simpl; [done|]. intros m' H0.
    by apply IH, hung_step. }
  destruct Hm as (_ & _ & Hs' & h' & Hh' & He' & Hq'). exists h'. split; [done|].
  unfold recv. by rewrite He', Hq', Hs'.
Qed.

(** ** From the guest's child to the host's caller *)

(** The outcome of a list of events, read to its exit. *)
Definition outcome (evs : list SessionEvent) (o : ExecOutcome) : ExecOutcome :=
  foldl (λ o ev,
    match ev with
    | EvStdout d => {| oc_code := oc_code o; oc_stdout := oc_stdout o +:+ d; oc_stderr := oc_stderr o |}
    | EvStderr d => {| oc_code := oc_code o; oc_stdout := oc_stdout o; oc_stderr := oc_stderr o +:+ d |}
    | EvExit c => {| oc_code := c; oc_stdout := oc_stdout o; oc_stderr := oc_stderr o |}
    end) o evs.

Lemma recv_cons id h m ev q :
  h_exited h = false → h_queue h = ev :: q →
  recv id h m = ({| h_pty := h_pty h; h_exited := is_exit ev; h_queue := q; h_seen := h_seen h ++ [ev] |}, Got ev).
Proof. intros He Hq. unfold recv. by rewrite He, Hq. Qed.

Lemma wait_outcome fuel id h m evs code o :
  h_exited h = false → h_queue h = evs ++ [EvExit code] → existsb is_exit evs = false → length evs < fuel →
  wait fuel id h m o = Some (outcome (evs ++ [EvExit code]) o).
Proof.
  revert evs h o. induction fuel as [|fuel IH]; intros evs h o He Hq Hx Hlen; [lia|]. cbn [wait].
  destruct evs as [|ev evs]; [by rewrite (recv_cons id h m (EvExit code) [] He Hq)|].
  rewrite (recv_cons id h m ev (evs ++ [EvExit code]) He Hq). simpl in Hx, Hlen.
  destruct ev as [d|d|c]; [| |done]; by rewrite IH with (evs := evs) by (done || lia).
Qed.

Lemma events_terminal id ms : terminal ms → until_exit (omap (event_of id) ms) = omap (event_of id) ms.
Proof.
  induction ms as [|msg ms IH]; simpl; [done|]. intros [Hx Ht]. specialize (IH Ht).
  destruct (event_of id msg) as [ev|] eqn:He; [|done]. simpl. destruct (is_exit ev) eqn:Hex; [|f_equal; exact IH].
  f_equal. symmetry. assert (Hi : exit_id msg = Some id).
  { destruct msg; simpl in He; unfold event_of in He; try done; case_decide; simplify_eq/=; done. }
  specialize (Hx id Hi). clear -Hx. induction ms as [|m ms IH]; [done|]. simpl in *.
  destruct (event_of id m) as [e|] eqn:He.
  - exfalso. apply Hx. destruct m; unfold event_of in He; try done; case_decide; simplify_eq/=; by left.
  - apply IH. destruct (frame_id m); [|done]. set_solver.
Qed.

Lemma split_open_frames id log : Opened id ∈ log → (split_open id log).1 ++ (split_open id log).2 = frames log.
Proof.
  induction log as [|[i|msg] log IH]; simpl; [by intros ?%elem_of_nil|..]; rewrite elem_of_cons.
  - case_decide; [done|]. intros [?|?]; [congruence|auto].
  - intros [?|Hin]; [done|]. specialize (IH Hin). destruct (split_open id log). simpl in *. by rewrite IH.
Qed.

Lemma event_of_other id ms : id ∉ omap frame_id ms → omap (event_of id) ms = [].
Proof.
  induction ms as [|m ms IH]; [done|]. simpl. intros Hn. destruct (event_of id m) as [e|] eqn:He.
  - exfalso. apply Hn. destruct m; unfold event_of in He; try done; case_decide; simplify_eq/=; by left.
  - apply IH. destruct (frame_id m); [|done]. set_solver.
Qed.

Lemma terminal_drop ms1 ms2 : terminal (ms1 ++ ms2) → terminal ms2.
Proof. induction ms1; simpl; [done|]. intros [_ ?]. auto. Qed.

(** An exit among the events is the last of them. *)
Lemma until_exit_last evs :
  until_exit evs = evs → existsb is_exit evs = true → ∃ l code, evs = l ++ [EvExit code] ∧ existsb is_exit l = false.
Proof.
  induction evs as [|ev evs IH]; [done|]. simpl. destruct (is_exit ev) eqn:He.
  - intros [= <-] _. destruct ev as [| |c]; try done. by exists [], c.
  - intros [= Hu] Hx. simpl in Hx. destruct (IH Hu Hx) as (l & c & -> & Hl). exists (ev :: l), c. simpl. by rewrite He.
Qed.

Lemma exits_event id ms : id ∈ exits ms → existsb is_exit (omap (event_of id) ms) = true.
Proof.
  unfold exits. induction ms as [|m ms IH]; [by intros ?%elem_of_nil|]. simpl.
  destruct m; try exact IH; simpl; unfold event_of; try (case_decide; simpl; exact IH).
  rewrite elem_of_cons. case_decide; simpl; [done|]. intros [?|?]; [congruence|auto].
Qed.

End mux.

(** ** Two shells on one connection *)

Definition shell : SessionSpec := build (sb_with_pty 24 80 (SessionSpecBuilder_new ["sh"])).

Definition shell_wire : Postcard.
Proof.
  refine (table_postcard [(OpenSession 0 shell, "0"); (OpenSession 1 shell, "1"); (CloseSession 0, "c")] _).
  refine (bool_decide_unpack _ _). vm_compute. exact I.
Defined.

Definition demo_guest : list label :=
  [Registers; OpenSpawns 0 100 true; OpenRegisters; OpenSpawns 1 101 true; OpenRegisters;
   PumpSends 0 false "$ "; PumpSends 1 false "warning"; PumpSends 0 false "hi"; ChildExits 100;
   WaiterClaims 0 3; PumpEnds 0 false; WaiterReports 0].

Definition demo_ops : list mux_op :=
  [Open shell; Open shell; ReadFrame (SessionStdout 0 "$ "); ReadFrame (SessionStdout 1 "warning");
   ReadFrame (SessionStdout 0 "hi"); ReadFrame (SessionExit 0 3)].

Notation demo_mux := (mux_run (PC := shell_wire) demo_ops).
Notation demo_handle := (default {| h_pty := true; h_exited := true; h_queue := []; h_seen := [] |} (m_handles demo_mux !! 0%N)).

Lemma demo_handle_eq : m_handles demo_mux !! 0%N = Some demo_handle.
Proof. vm_compute. reflexivity. Defined.

Lemma demux_exact_witness :
  h_seen demo_handle ++ h_queue demo_handle = events 0 (mux_log (PC := shell_wire) demo_ops) ∧
  events 0 (mux_log (PC := shell_wire) demo_ops) = [EvStdout "$ "; EvStdout "hi"; EvExit 3].
Proof.
  split; [|vm_compute; reflexivity].
  apply (demux_exact (PC := shell_wire) demo_ops 0); [vm_compute; discriminate|exact demo_handle_eq].
Defined.


Lemma dropped_mux_recv_hangs_witness :
  ∃ h', m_handles (mux_run (PC := shell_wire) ([Open shell] ++ DropMux :: [Request 0 Close; Recv 0])) !! 0%N = Some h' ∧
    (recv 0 h' (mux_run (PC := shell_wire) ([Open shell] ++ DropMux :: [Request 0 Close; Recv 0]))).2 = Waits.
Proof.
  apply (dropped_mux_recv_hangs (PC := shell_wire) [Open shell] [Request 0 Close; Recv 0] 0
    {| h_pty := true; h_exited := false; h_queue := []; h_seen := [] |}); vm_compute; reflexivity.
Defined.

