(* ===== verification/Netif.v ===== *)
(** * The guest's interface after a restore

    Models [crates/vmcell-steward/src/netif.rs] and [handle_resync] of
    [exec.rs]: the identity a restored guest is given is installed with ioctls,
    each of which may fail.  [NetOps] is the source's trait with what its calls
    do to the interface as laws; the composition ([apply_resync_net]) is proved
    against them and [KernelNet], the production implementation, discharges
    them over a kernel whose every call may fail. *)

From S2P Require Import Prelude NetAddr Wire.

(** ** Addresses and [/proc/net/route] *)

(** [u32::to_le_bytes] and [u32::to_be_bytes]. *)
Definition le_octets (v : N) : Ipv4Addr :=
  (v mod 256, v / 2 ^ 8 mod 256, v / 2 ^ 16 mod 256, v / 2 ^ 24 mod 256)%N.

Definition be_octets (v : N) : Ipv4Addr :=
  (v / 2 ^ 24 mod 256, v / 2 ^ 16 mod 256, v / 2 ^ 8 mod 256, v mod 256)%N.

Definition netmask_octets (prefix_len : N) : Ipv4Addr :=
  be_octets
    (if (prefix_len =? 0)%N then 0
     else if (32 <=? prefix_len)%N then u32_max
     else N.lxor (N.shiftl 1 (32 - prefix_len) - 1) u32_max)%N.

Definition default_gateway_of (line : string) : option Ipv4Addr :=
  match split_whitespace line with
  | _ :: dest :: gw :: _ =>
      if decide (dest = "00000000") then le_octets <$> parse_hex u32_max gw else None
  | _ => None
  end.

Definition parse_default_gateways (proc_net_route : string) : list Ipv4Addr :=
  omap default_gateway_of (tail (str_lines proc_net_route)).

(** ** The interface and its operations *)

Record netdev := {
  nd_up : bool;
  nd_mac : list N;
  nd_addr : Ipv4Addr;
  nd_mask : Ipv4Addr;
  nd_routes : list Ipv4Addr;      (** the gateways of the default routes *)
}.

Definition with_routes (rs : list Ipv4Addr) (d : netdev) : netdev :=
  {| nd_up := nd_up d; nd_mac := nd_mac d; nd_addr := nd_addr d; nd_mask := nd_mask d; nd_routes := rs |}.

(** Taking the link down takes its routes with it. *)
Definition with_link (up : bool) (d : netdev) : netdev :=
  {| nd_up := up; nd_mac := nd_mac d; nd_addr := nd_addr d; nd_mask := nd_mask d;
     nd_routes := if up then nd_routes d else [] |}.

Definition with_mac (m : list N) (d : netdev) : netdev :=
  {| nd_up := nd_up d; nd_mac := m; nd_addr := nd_addr d; nd_mask := nd_mask d; nd_routes := nd_routes d |}.

Definition with_inet (a mask : Ipv4Addr) (rs : list Ipv4Addr) (d : netdev) : netdev :=
  {| nd_up := nd_up d; nd_mac := nd_mac d; nd_addr := a; nd_mask := mask; nd_routes := rs |}.

Notation io := (result unit).

Class NetOps (S : Type) := {
  default_gateways : S → io (list Ipv4Addr) * S;
  set_link_up : bool → S → io unit * S;
  set_mac : list N → S → io unit * S;
  set_addr : Ipv4Addr → N → S → io unit * S;
  replace_default_route : Ipv4Addr → S → io unit * S;
}.

(** What the calls do.  A new address may take routes with it; a replaced route
    may leave an old one behind, whose removal is not checked; a call that fails
    half-way has done its first half. *)
Class NetLaws (S : Type) `{NetOps S} := {
  view : S → netdev;
  gateways_law s : view (default_gateways s).2 = view s ∧
    ∀ gs, (default_gateways s).1 = Ok gs → gs = nd_routes (view s) ∧ Forall is_octets gs;
  link_law up s : view (set_link_up up s).2 =
    if is_ok (set_link_up up s).1 then with_link up (view s) else view s;
  mac_law m s : view (set_mac m s).2 = if is_ok (set_mac m s).1 then with_mac m (view s) else view s;
  addr_law a p s : ∃ mask rs,
    (view (set_addr a p s).2 = with_inet a mask rs (view s) ∨
     view (set_addr a p s).2 = view s ∧ is_ok (set_addr a p s).1 = false) ∧
    rs `sublist_of` nd_routes (view s) ∧ (is_ok (set_addr a p s).1 = true → mask = netmask_octets p);
  route_law gw s : is_octets gw → ∃ rs, rs `sublist_of` nd_routes (view s) ∧
    view (replace_default_route gw s).2 =
      with_routes (if is_ok (replace_default_route gw s).1 then gw :: rs else rs) (view s);
}.

(** ** The resync *)

Record Ipv4Args := { ia_addr : Ipv4Addr; ia_prefix_len : N; ia_gateway : Ipv4Addr }.

Record ResyncNetOutcome := { mac_applied : bool; ip_applied : bool; route_restored : bool }.

Definition resync_restores_route (bounced_link ipv4_installed_route : bool) : bool :=
  bounced_link && negb ipv4_installed_route.

Section resync.
Context {S : Type} {NO : NetOps S}.

(** The link is raised again on both exits. *)
Definition rotate_mac (mac : list N) (s : S) : io unit * S :=
  let s := (set_link_up false s).2 in
  match set_mac mac s with
  | (Ok _, s) => set_link_up true s
  | (Err e, s) => (Err e, (set_link_up true s).2)
  end.

Definition install_ipv4 (c : Ipv4Args) (s : S) : io unit * S :=
  match set_addr (ia_addr c) (ia_prefix_len c) s with
  | (Err e, s) => (Err e, s)
  | (Ok _, s) =>
      match set_link_up true s with
      | (Err e, s) => (Err e, s)
      | (Ok _, s) => replace_default_route (ia_gateway c) s
      end
  end.

(** The two arms and the route they owe, once the gateway is saved. *)
Definition resync_arms (mac : option (list N)) (ipv4 : option Ipv4Args) (saved : option Ipv4Addr) (s : S)
    : ResyncNetOutcome * S :=
  let '(m, s) := match mac with
                 | Some m => let '(r, s) := rotate_mac m s in (is_ok r, s)
                 | None => (false, s)
                 end in
  let '(i, s) := match ipv4 with
                 | Some c => let '(r, s) := install_ipv4 c s in (is_ok r, s)
                 | None => (false, s)
                 end in
  let '(r, s) := match saved with
                 | Some gw =>
                     if resync_restores_route (bool_decide (is_Some mac)) i
                     then let '(r, s) := replace_default_route gw s in (is_ok r, s) else (false, s)
                 | None => (false, s)
                 end in
  ({| mac_applied := m; ip_applied := i; route_restored := r |}, s).

Definition apply_resync_net (mac : option (list N)) (ipv4 : option Ipv4Args) (s : S) : ResyncNetOutcome * S :=
  match mac, ipv4 with
  | None, None => ({| mac_applied := false; ip_applied := false; route_restored := false |}, s)
  | None, Some _ => resync_arms mac ipv4 None s
  | Some _, _ =>
      match default_gateways s with
      | (Ok gateways, s) => resync_arms mac ipv4 (head gateways) s
      | (Err _, s) =>
          match ipv4 with
          | None => ({| mac_applied := false; ip_applied := false; route_restored := false |}, s)
          | Some _ => resync_arms mac ipv4 None s
          end
      end
  end.
End resync.

(** ** The answer to the host *)

(** [resync_timespec]; the seconds saturate at [i64::MAX]. *)
Definition resync_timespec (unix_secs unix_nanos : N) : N * N := (N.min unix_secs (2 ^ 63 - 1), unix_nanos)%N.

(** What the guest has besides the interface: the clock, and whether a call on
    it, the random pool and the socket answer. *)
Record resync_host := {
  rh_clock : N * N;
  rh_settime : N * N → option string;      (** the error of [clock_settime] *)
  rh_reseed : bool;                        (** [reseed_urandom_from_hwrng] succeeds *)
  rh_socket : bool;                        (** the config socket opens *)
}.

Definition set_clock (t : N * N) (h : resync_host) : resync_host :=
  {| rh_clock := t; rh_settime := rh_settime h; rh_reseed := rh_reseed h; rh_socket := rh_socket h |}.

Definition args_of (c : Ipv4Reconfig) : Ipv4Args :=
  {| ia_addr := addr c; ia_prefix_len := prefix_len c; ia_gateway := gateway c |}.

(** Every step is taken whatever the others answer, and the ack is always sent. *)
Definition handle_resync {S} `{NetOps S} (unix_secs unix_nanos : N) (mac : option (list N))
    (ipv4 : option Ipv4Reconfig) (h : resync_host) (s : S) : Message * resync_host * S :=
  let ts := resync_timespec unix_secs unix_nanos in
  let clock_error := rh_settime h ts in
  let h := match clock_error with None => set_clock ts h | Some _ => h end in
  let '(net, s) :=
    if rh_socket h then apply_resync_net mac (args_of <$> ipv4) s
    else ({| mac_applied := false; ip_applied := false; route_restored := false |}, s) in
  (ResyncAck clock_error (rh_reseed h) (mac_applied net) (ip_applied net), h, s).

(** ** The kernel behind the ioctls *)

Record kern := {
  k_up : bool;
  k_hw : list N;
  k_addr : Ipv4Addr;
  k_mask : Ipv4Addr;
  k_routes : list N;          (** default gateways, as the words the kernel prints *)
  k_calls : nat;
}.

Definition kset (up : bool) (hw : list N) (a mask : Ipv4Addr) (rs : list N) (k : kern) : kern :=
  {| k_up := up; k_hw := hw; k_addr := a; k_mask := mask; k_routes := rs; k_calls := k_calls k |}.

Definition called (k : kern) : kern :=
  {| k_up := k_up k; k_hw := k_hw k; k_addr := k_addr k; k_mask := k_mask k; k_routes := k_routes k;
     k_calls := S (k_calls k) |}.

(** [%08X] *)
Definition hex_upper (d : N) : ascii := ascii_of_N (if (d <? 10)%N then 48 + d else 55 + d)%N.

Fixpoint hex_pad (digits : nat) (v : N) : string :=
  match digits with
  | 0 => ""
  | S n => String (hex_upper (v / 16 ^ N.of_nat n mod 16)) (hex_pad n v)
  end.

Definition tab : ascii := ascii_of_N 9.

Definition route_header : string :=
  render_words [("Iface", tab); ("Destination", tab); ("Gateway", tab); ("Flags", tab)] "RefCnt".

Definition route_line (gw : N) : string :=
  render_words [("eth0", tab); (hex_pad 8 0, tab); (hex_pad 8 gw, tab); ("0003", tab); ("0", tab)] "0".

Definition proc_net_route (k : kern) : string := render_lines (route_header :: (route_line <$> k_routes k)).

Definition le_value (a : Ipv4Addr) : N :=
  let '(w, x, y, z) := a in (w + x * 2 ^ 8 + y * 2 ^ 16 + z * 2 ^ 24)%N.

Section kernel.
(** Which calls fail; which default routes survive a change of the address; the
    mask the kernel puts beside a new address. *)
Context (fails : nat → bool) (survives : N → bool) (default_mask : Ipv4Addr → Ipv4Addr).

Definition ioctl (f : kern → kern) (k : kern) : io unit * kern :=
  if fails (k_calls k) then (Err tt, called k) else (Ok tt, f (called k)).

Definition kernel_set_link_up (up : bool) (k : kern) : io unit * kern :=
  match ioctl id k with
  | (Err e, k) => (Err e, k)
  | (Ok _, k) =>
      ioctl (λ k, kset up (k_hw k) (k_addr k) (k_mask k) (if up then k_routes k else []) k) k
  end.

Definition set_hwaddr (mac : list N) : kern → io unit * kern :=
  ioctl (λ k, kset (k_up k) mac (k_addr k) (k_mask k) (k_routes k) k).

Definition set_inet_addr (a : Ipv4Addr) (prefix_len : N) (k : kern) : io unit * kern :=
  match ioctl (λ k, kset (k_up k) (k_hw k) a (default_mask a) (filter survives (k_routes k)) k) k with
  | (Err e, k) => (Err e, k)
  | (Ok _, k) =>
      ioctl (λ k, kset (k_up k) (k_hw k) a (netmask_octets prefix_len) (filter survives (k_routes k)) k) k
  end.

Definition read_gateways (k : kern) : io (list Ipv4Addr) * kern :=
  if fails (k_calls k) then (Err tt, called k) else (Ok (parse_default_gateways (proc_net_route k)), called k).

(** The answers of the deletions are not looked at. *)
Definition delete_routes (gws : list Ipv4Addr) (k : kern) : kern :=
  foldl (λ k gw, (ioctl (λ k, kset (k_up k) (k_hw k) (k_addr k) (k_mask k)
                                (filter (λ r, r ≠ le_value gw) (k_routes k)) k) k).2) k gws.

Definition kernel_replace_default_route (gw : Ipv4Addr) (k : kern) : io unit * kern :=
  match read_gateways k with
  | (Err e, k) => (Err e, k)
  | (Ok existing, k) =>
      ioctl (λ k, kset (k_up k) (k_hw k) (k_addr k) (k_mask k) (le_value gw :: k_routes k) k) (delete_routes existing k)
  end.

#[export] Instance KernelNet : NetOps kern := {|
  default_gateways := read_gateways;
  set_link_up := kernel_set_link_up;
  set_mac := set_hwaddr;
  set_addr := set_inet_addr;
  replace_default_route := kernel_replace_default_route |}.

Definition kernel_view (k : kern) : netdev :=
  {| nd_up := k_up k; nd_mac := k_hw k; nd_addr := k_addr k; nd_mask := k_mask k;
     nd_routes := le_octets <$> k_routes k |}.

(** *** Its file is read back *)

Lemma hex_digit_step max acc d s :
  (d < 16)%N → (acc * 16 + d <= max)%N →
  hex_digits max acc (String (hex_upper d) s) = hex_digits max (acc * 16 + d) s.
Proof.
  intros Hd Hm. cbn [hex_digits].
  assert (hex_value (hex_upper d) = Some d) as ->.
  { assert (Forall (λ n, hex_value (hex_upper (N.of_nat n)) = Some (N.of_nat n)) (seq 0 16)) as H
      by (refine (bool_decide_unpack _ _); vm_compute; exact I).
    rewrite Forall_forall in H. specialize (H (N.to_nat d)). rewrite N2Nat.id in H. apply H, elem_of_seq. lia. }
  cbn [mbind option_bind]. assert ((max <? acc * 16 + d)%N = false) as -> by (by apply N.ltb_ge). done.
Qed.

Lemma hex_digits_pad max n : ∀ acc v,
  (acc * 16 ^ N.of_nat n + v mod 16 ^ N.of_nat n <= max)%N →
  hex_digits max acc (hex_pad n v) = Some (acc * 16 ^ N.of_nat n + v mod 16 ^ N.of_nat n)%N.
Proof.
  induction n as [|n IH]; intros acc v Hm.
  { cbn. f_equal. rewrite N.mod_1_r. lia. }
  cbn [hex_pad]. rewrite Nat2N.inj_succ, N.pow_succ_r' in *. set (p := (16 ^ N.of_nat n)%N) in *.
  assert (p ≠ 0)%N as Hp by (by apply N.pow_nonzero).
  assert (v mod (16 * p) = p * (v / p mod 16) + v mod p)%N as E.
  { rewrite (N.mul_comm 16 p), N.Div0.mod_mul_r. lia. }
  assert (v / p mod 16 < 16)%N as Hd by (by apply N.mod_lt). rewrite E in *.
  generalize dependent (v / p mod 16)%N. intros d Hm E Hd.
  assert (acc * (16 * p) + (p * d + v mod p) = (acc * 16 + d) * p + v mod p)%N as E' by lia. rewrite E' in *.
  assert (acc * 16 + d <= (acc * 16 + d) * p)%N by (rewrite <- (N.mul_1_r (acc * 16 + d)) at 1; apply N.mul_le_mono_l; lia).
  rewrite hex_digit_step, IH; [done|done|done|]. etrans; [exact H|]. etrans; [apply N.le_add_r|exact Hm].
Qed.

Lemma hex_pad_graphic n v : Forall is_graphic (bytes (hex_pad n v)).
Proof.
  induction n as [|n IH]; cbn [hex_pad bytes]; constructor; [|done].
  assert (v / 16 ^ N.of_nat n mod 16 < 16)%N as Hd by (by apply N.mod_lt). generalize dependent (v / 16 ^ N.of_nat n mod 16)%N.
  intros d Hd. assert (Forall (λ k, is_graphic (hex_upper (N.of_nat k))) (seq 0 16)) as H
    by (refine (bool_decide_unpack _ _); vm_compute; exact I).
  rewrite Forall_forall in H. specialize (H (N.to_nat d)). rewrite N2Nat.id in H. apply H, elem_of_seq. lia.
Qed.

Lemma parse_hex_pad v : parse_hex u32_max (hex_pad 8 v) = Some (v mod 2 ^ 32)%N.
Proof.
  assert (hex_digits u32_max 0 (hex_pad 8 v) = Some (v mod 2 ^ 32)%N) as E.
  { assert (v mod 2 ^ 32 < 2 ^ 32)%N by (by apply N.mod_lt). rewrite hex_digits_pad; [done|].
    change (16 ^ N.of_nat 8)%N with (2 ^ 32)%N. unfold u32_max. lia. }
  rewrite <- E. unfold parse_hex. cbn [hex_pad]. set (d := (_ mod 16)%N).
  assert (d < 16)%N as Hd by (by apply N.mod_lt). clearbody d.
  assert (hex_upper d ≠ "+"%char) as Hne.
  { assert (Forall (λ k, hex_upper (N.of_nat k) ≠ "+"%char) (seq 0 16)) as H
      by (refine (bool_decide_unpack _ _); vm_compute; exact I).
    rewrite Forall_forall in H. specialize (H (N.to_nat d)). rewrite N2Nat.id in H. apply H, elem_of_seq. lia. }
  destruct (hex_upper d) as [[] [] [] [] [] [] [] []]; done.
Qed.

Lemma le_octets_mod v : le_octets (v mod 2 ^ 32) = le_octets v.
Proof.
  unfold le_octets.
  assert (∀ k, (k <= 24)%N → ((v mod 2 ^ 32) / 2 ^ k) mod 256 = (v / 2 ^ k) mod 256)%N as H.
  { intros k Hk. change 256%N with (2 ^ 8)%N. rewrite <- !N.land_ones, <- !N.shiftr_div_pow2.
    apply N.bits_inj. intros i. rewrite !N.land_spec, !N.shiftr_spec'.
    destruct (decide (i < 8)%N) as [Hi|Hi]; [|by rewrite N.ones_spec_high, !andb_false_r by lia].
    rewrite N.land_spec, N.ones_spec_low by lia. by rewrite andb_true_r. }
  pose proof (H 0%N ltac:(lia)) as H0. rewrite !N.pow_0_r, !N.div_1_r in H0. by rewrite H0, !H by lia.
Qed.

Lemma le_octets_octets v : is_octets (le_octets v).
Proof. unfold is_octets, le_octets. split_and!; by apply N.mod_lt. Qed.

Lemma le_value_octets a : is_octets a → le_octets (le_value a) = a.
Proof.
  destruct a as [[[w x] y] z]. cbn. intros (Hw & Hx & Hy & Hz). unfold le_octets, le_value.
  change (2 ^ 8)%N with 256%N. change (2 ^ 16)%N with 65536%N. change (2 ^ 24)%N with 16777216%N.
  assert (∀ q r k, (r < k)%N → (r + q * k) / k = q ∧ (r + q * k) mod k = r)%N as H.
  { intros q r k Hr. split; [symmetry; apply (N.div_unique _ _ _ r)|symmetry; apply (N.mod_unique _ _ q)]; lia. }
  replace (w + x * 256 + y * 65536 + z * 16777216)%N with (w + (x + (y + z * 256) * 256) * 256)%N by lia.
  replace 65536%N with (256 * 256)%N by done. replace 16777216%N with (256 * 256 * 256)%N by done.
  rewrite <- !N.Div0.div_div.
  destruct (H (x + (y + z * 256) * 256)%N w 256%N Hw) as [-> ->].
  destruct (H (y + z * 256)%N x 256%N Hx) as [-> ->]. destruct (H z y 256%N Hy) as [-> ->].
  by rewrite N.mod_small.
Qed.

Lemma route_line_parsed gw : default_gateway_of (route_line gw) = Some (le_octets gw).
Proof.
  unfold default_gateway_of, route_line. rewrite split_whitespace_render.
  - cbn [fmap list_fmap fst app]. change (hex_pad 8 0) with "00000000". rewrite decide_True by done.
    by rewrite parse_hex_pad, <- (le_octets_mod gw).
  - repeat (apply Forall_cons_2; [split; [done|split; [|done]];
      first [apply hex_pad_graphic|refine (bool_decide_unpack _ _); vm_compute; exact I]|]). apply Forall_nil_2.
  - refine (bool_decide_unpack _ _); vm_compute; exact I.
Qed.

Lemma route_lines gws : Forall is_line (route_header :: (route_line <$> gws)).
Proof.
  constructor; [apply inline_is_line; refine (bool_decide_unpack _ _); vm_compute; exact I|].
  apply Forall_fmap, Forall_true. intros gw. apply inline_is_line. unfold route_line. cbn [render_words foldr].
  assert (∀ s c r, Forall is_inline (bytes s) → is_inline c → Forall is_inline (bytes r) →
    Forall is_inline (bytes (s +:+ String c r))) as Happ.
  { intros s c r Hs Hc Hr. rewrite bytes_append. apply Forall_app. split; [done|]. by constructor. }
  repeat (apply Happ; [first [apply graphic_inline, hex_pad_graphic|refine (bool_decide_unpack _ _); vm_compute; exact I]|done|]).
  refine (bool_decide_unpack _ _); vm_compute; exact I.
Qed.

(** What [/proc/net/route] shows is read back, route by route. *)
Lemma proc_net_route_read k : parse_default_gateways (proc_net_route k) = le_octets <$> k_routes k.
Proof.
  unfold parse_default_gateways, proc_net_route. rewrite str_lines_render by apply route_lines. cbn [tail].
  induction (k_routes k) as [|gw rs IH]; [done|]. cbn [fmap list_fmap omap list_omap].
  rewrite route_line_parsed. by f_equal.
Qed.

(** *** It keeps the laws *)

Lemma ioctl_cases f k : ioctl f k = (Err tt, called k) ∨ ioctl f k = (Ok tt, f (called k)).
Proof. unfold ioctl. destruct (fails (k_calls k)); auto. Qed.

Lemma delete_routes_view gws k : ∃ rs, rs `sublist_of` k_routes k ∧
  kernel_view (delete_routes gws k) = with_routes (le_octets <$> rs) (kernel_view k) ∧ k_routes (delete_routes gws k) = rs.
Proof.
  unfold delete_routes. revert k. induction gws as [|gw gws IH]; intros k; cbn [foldl].
  { exists (k_routes k). by destruct k. }
  destruct (ioctl_cases (λ k, kset (k_up k) (k_hw k) (k_addr k) (k_mask k) (filter (λ r, r ≠ le_value gw) (k_routes k)) k) k)
    as [-> | ->]; cbn [snd].
  - destruct (IH (called k)) as (rs & Hs & Hv & Hr). by exists rs.
  - destruct (IH (kset (k_up (called k)) (k_hw (called k)) (k_addr (called k)) (k_mask (called k))
      (filter (λ r, r ≠ le_value gw) (k_routes (called k))) (called k))) as (rs & Hs & Hv & Hr).
    exists rs. split; [|done]. etrans; [exact Hs|]. cbn. apply sublist_filter.
Qed.

#[export, refine] Instance KernelLaws : NetLaws kern := {| view := kernel_view |}.
Proof.
  - intros k. unfold default_gateways, KernelNet, read_gateways. rewrite proc_net_route_read.
    destruct (fails (k_calls k)); cbn [fst snd]; (split; [done|]); [done|].
    intros gs [= <-]. split; [done|]. apply Forall_fmap, Forall_true, le_octets_octets.
  - intros up k. cbn. unfold kernel_set_link_up. destruct (ioctl_cases id k) as [-> | ->]; [done|].
    match goal with |- context [ioctl ?f (id (called k))] => destruct (ioctl_cases f (id (called k))) as [-> | ->] end; [done|].
    by destruct up.
  - intros m k. cbn. unfold set_hwaddr.
    match goal with |- context [ioctl ?f k] => destruct (ioctl_cases f k) as [-> | ->] end; done.
  - intros a p k. cbn. unfold set_inet_addr.
    match goal with |- context [ioctl ?f k] => destruct (ioctl_cases f k) as [-> | ->] end.
    { exists a, []. split; [by right|]. split; [apply sublist_nil_l|done]. }
    set (k1 := kset _ _ _ _ _ _).
    match goal with |- context [ioctl ?f k1] => destruct (ioctl_cases f k1) as [-> | ->] end.
    + exists (default_mask a), (le_octets <$> filter survives (k_routes k)). split; [by left|].
      split; [apply fmap_sublist, sublist_filter|done].
    + exists (netmask_octets p), (le_octets <$> filter survives (filter survives (k_routes k))). split; [by left|].
      split; [|done]. apply fmap_sublist. etrans; apply sublist_filter.
  - intros gw k Hgw. cbn. unfold kernel_replace_default_route, read_gateways. destruct (fails (k_calls k)).
    { exists (le_octets <$> k_routes k). split; [done|]. by destruct k. }
    destruct (delete_routes_view (parse_default_gateways (proc_net_route k)) (called k)) as (rs & Hs & Hv & Hr).
    exists (le_octets <$> rs). split; [by apply fmap_sublist|].
    match goal with |- context [ioctl ?f ?k'] => destruct (ioctl_cases f k') as [-> | ->] end; cbn [fst snd is_ok].
    + exact Hv.
    + set (k' := delete_routes _ _) in *. unfold kernel_view in Hv |- *. injection Hv as Hup Hmac Ha Hm Hrs.
      unfold with_routes. cbn -[le_octets]. rewrite Hup, Hmac, Ha, Hm, Hr, (le_value_octets gw Hgw). done.
Defined.
End kernel.

(** ** What the acknowledgement says is so *)

Section contract.
Context {S : Type} {NO : NetOps S} {NL : NetLaws S}.
Implicit Types s : S.

(** The link can be raised; routes can be set. *)
Definition raises : Prop := ∀ s, is_ok (set_link_up true s).1 = true.
Definition routes : Prop := ∀ gw s, is_ok (replace_default_route gw s).1 = true.

Lemma rotate_mac_spec m s r s' :
  rotate_mac m s = (r, s') →
  nd_addr (view s') = nd_addr (view s) ∧ nd_mask (view s') = nd_mask (view s) ∧
  (is_ok r = true → nd_mac (view s') = m) ∧ (raises → nd_up (view s') = true).
Proof.
  unfold rotate_mac. pose proof (link_law false s) as H1. destruct (set_link_up false s) as [r1 s1]. cbn [fst snd] in *.
  pose proof (mac_law m s1) as H2. destruct (set_mac m s1) as [r2 s2]. cbn [fst snd] in *.
  assert (nd_addr (view s2) = nd_addr (view s) ∧ nd_mask (view s2) = nd_mask (view s) ∧
    (is_ok r2 = true → nd_mac (view s2) = m)) as (Ha & Hm & Hmac).
  { rewrite H2. destruct (is_ok r2), (is_ok r1); cbn; rewrite H1; done. }
  pose proof (link_law true s2) as H3. destruct (set_link_up true s2) as [r3 s3] eqn:E3. cbn [fst snd] in H3.
  assert (raises → is_ok r3 = true) as Hr by (intros Hr; specialize (Hr s2); by rewrite E3 in Hr).
  destruct r2 as [u|e]; intros [= <- <-]; rewrite H3; (destruct (is_ok r3) eqn:E;
    [split_and!; try done; cbn; auto|split_and!; try done; intros; try (by apply Hmac); specialize (Hr ltac:(done)); congruence]).
Qed.

Lemma install_ipv4_spec c s r s' :
  install_ipv4 c s = (r, s') → is_octets (ia_gateway c) →
  nd_mac (view s') = nd_mac (view s) ∧
  (is_ok r = true → nd_up (view s') = true ∧ nd_addr (view s') = ia_addr c ∧
     nd_mask (view s') = netmask_octets (ia_prefix_len c) ∧ head (nd_routes (view s')) = Some (ia_gateway c)) ∧
  (raises → nd_up (view s) = true → nd_up (view s') = true).
Proof.
  unfold install_ipv4. intros E Hgw. destruct (addr_law (ia_addr c) (ia_prefix_len c) s) as (mask & rs & Hv & _ & Hmask).
  destruct (set_addr (ia_addr c) (ia_prefix_len c) s) as [r1 s1]. cbn [fst snd] in *.
  assert (nd_mac (view s1) = nd_mac (view s) ∧ nd_up (view s1) = nd_up (view s)) as [Hm1 Hu1].
  { destruct Hv as [-> | [-> _]]; done. }
  destruct r1 as [u1|e1]; [|injection E as <- <-; split_and!; [done|done|congruence]].
  destruct Hv as [Hv|[_ Hv]]; [|done]. rewrite (Hmask eq_refl) in Hv.
  pose proof (link_law true s1) as H2. destruct (set_link_up true s1) as [r2 s2] eqn:E2. cbn [fst snd] in H2.
  destruct r2 as [u2|e2]; cbn [is_ok] in H2.
  2: { injection E as <- <-. rewrite H2. split_and!; [done|done|]. intros Hr. specialize (Hr s1). by rewrite E2 in Hr. }
  destruct (route_law (ia_gateway c) s2 Hgw) as (rs2 & _ & H3). rewrite E in H3. cbn [fst snd] in H3.
  rewrite H3. split_and!; [cbn; by rewrite H2|intros Hr; rewrite Hr|intros; cbn; by rewrite H2].
  cbn. by rewrite H2, Hv.
Qed.

(** The arms and the route, given what was saved. *)
Lemma resync_arms_spec mac ipv4 saved s out s' :
  resync_arms mac ipv4 saved s = (out, s') →
  (∀ c, ipv4 = Some c → is_octets (ia_gateway c)) → (∀ gw, saved = Some gw → is_octets gw) →
  (mac_applied out = true → mac = Some (nd_mac (view s'))) ∧
  (ip_applied out = true → ∃ c, ipv4 = Some c ∧ nd_up (view s') = true ∧ nd_addr (view s') = ia_addr c ∧
     nd_mask (view s') = netmask_octets (ia_prefix_len c) ∧ head (nd_routes (view s')) = Some (ia_gateway c)) ∧
  (raises → nd_up (view s) = true → nd_up (view s') = true) ∧
  (routes → is_Some mac → ip_applied out = false → ∀ gw, saved = Some gw → head (nd_routes (view s')) = Some gw).
Proof.
  unfold resync_arms. intros E Hc Hsaved.
  destruct (match mac with Some m => _ | None => _ end) as [m s1] eqn:Em.
  assert ((m = true → mac = Some (nd_mac (view s1))) ∧ (raises → nd_up (view s) = true → nd_up (view s1) = true)) as [Hm1 Hu1].
  { destruct mac as [mm|]; [|by simplify_eq]. destruct (rotate_mac mm s) as [r s2] eqn:Er. injection Em as <- <-.
    apply rotate_mac_spec in Er as (_ & _ & Hm & Hu). split; [intros Hr; by rewrite (Hm Hr)|auto]. }
  destruct (match ipv4 with Some c => _ | None => _ end) as [i s2] eqn:Ei.
  assert (nd_mac (view s2) = nd_mac (view s1) ∧ (raises → nd_up (view s1) = true → nd_up (view s2) = true) ∧
    (i = true → ∃ c, ipv4 = Some c ∧ nd_up (view s2) = true ∧ nd_addr (view s2) = ia_addr c ∧
       nd_mask (view s2) = netmask_octets (ia_prefix_len c) ∧ head (nd_routes (view s2)) = Some (ia_gateway c)))
    as (Hm2 & Hu2 & Hi2).
  { destruct ipv4 as [c|]; [|by simplify_eq]. destruct (install_ipv4 c s1) as [r s3] eqn:Er. injection Ei as <- <-.
    apply install_ipv4_spec in Er as (Hm & Hok & Hu); [|by apply Hc]. split_and!; [done..|]. intros Hr. exists c. auto. }
  destruct saved as [gw|].
  2: { injection E as <- <-. split_and!; cbn; [by rewrite Hm2|done|auto|done]. }
  destruct (resync_restores_route (bool_decide (is_Some mac)) i) eqn:Erst.
  - destruct (route_law gw s2 (Hsaved gw eq_refl)) as (rs & _ & H3). destruct (replace_default_route gw s2) as [r s3] eqn:Er.
    injection E as <- <-. cbn [fst snd] in H3. cbn [mac_applied ip_applied]. rewrite H3.
    apply andb_true_iff in Erst as [_ Hi]. apply negb_true_iff in Hi. subst i.
    split_and!; [cbn; by rewrite Hm2|done|cbn; auto|]. intros Hr _ _ gw' [= <-]. specialize (Hr gw s2). rewrite Er in Hr.
    cbn in Hr. by rewrite Hr.
  - injection E as <- <-. cbn [mac_applied ip_applied]. split_and!; [by rewrite Hm2|done|auto|].
    intros _ Hmac Hi gw' [= <-]. unfold resync_restores_route in Erst. by rewrite bool_decide_true, Hi in Erst.
Qed.

(** What the resync of the interface leaves, whichever calls fail. *)
Lemma apply_resync_net_spec mac ipv4 s out s' :
  apply_resync_net mac ipv4 s = (out, s') → (∀ c, ipv4 = Some c → is_octets (ia_gateway c)) →
  (mac_applied out = true → mac = Some (nd_mac (view s'))) ∧
  (ip_applied out = true → ∃ c, ipv4 = Some c ∧ nd_up (view s') = true ∧ nd_addr (view s') = ia_addr c ∧
     nd_mask (view s') = netmask_octets (ia_prefix_len c) ∧ head (nd_routes (view s')) = Some (ia_gateway c)) ∧
  (raises → nd_up (view s) = true → nd_up (view s') = true) ∧
  (routes → ipv4 = None ∨ is_Some mac ∧ is_ok (default_gateways s).1 = true → ip_applied out = false →
     ∀ gw, head (nd_routes (view s)) = Some gw → head (nd_routes (view s')) = Some gw).
Proof.
  unfold apply_resync_net. intros E Hc. destruct (gateways_law s) as [Hv Hgs]. destruct mac as [m|].
  - destruct (default_gateways s) as [[gs|e] s1] eqn:Eg; cbn [fst snd] in Hv, Hgs.
    + destruct (Hgs gs eq_refl) as [-> Hoct]. apply resync_arms_spec in E as (H1 & H2 & H3 & H4); [|done|].
      2: { destruct (nd_routes (view s)); [done|]. intros gw [= <-]. by inversion Hoct. }
      rewrite Hv in H3. split_and!; [done..|]. intros Hr _ Hi gw Hgw. by apply H4.
    + destruct ipv4 as [c|].
      * apply resync_arms_spec in E as (H1 & H2 & H3 & _); [|done..]. rewrite Hv in H3. split_and!; [done..|].
        by intros _ [? | [_ ?]].
      * injection E as <- <-. rewrite Hv. by split_and!.
  - destruct ipv4 as [c|].
    + apply resync_arms_spec in E as (H1 & H2 & H3 & _); [|done..]. split_and!; [done..|].
      intros _ [? | [[? ?] _]]; done.
    + injection E as <- <-. by split_and!.
Qed.

End contract.

(** *** On a kernel *)

Definition example_kern : kern :=
  {| k_up := true; k_hw := [2; 0; 0; 0; 0; 7]%N; k_addr := (10, 200, 1, 2)%N; k_mask := (255, 255, 255, 252)%N;
     k_routes := [le_value (10, 200, 1, 1)%N]; k_calls := 0 |}.

Definition example_host : resync_host :=
  {| rh_clock := (5, 0)%N; rh_settime _ := None; rh_reseed := true; rh_socket := true |}.

Definition example_reconfig : Ipv4Reconfig :=
  {| addr := (10, 200, 2, 2)%N; prefix_len := 30; gateway := (10, 200, 2, 1)%N |}.

(** The netmask call fails: the old route is put back. *)
Definition netmask_fails (n : nat) : bool := bool_decide (n = 7).


(** Reading [/proc/net/route] fails, every other call succeeds. *)
Definition reads_fail (n : nat) : bool := bool_decide (n = 0 ∨ n = 10).

(** While [/proc/net/route] cannot be read, a resync with a hardware address
    and an IPv4 identity bounces the link, and the route the IPv4 arm was to
    install needs the same file: the guest has its new addresses, no default
    route at all, and [ip_applied] unset. *)
Theorem unreadable_routes_lose_gateway survives default_mask m c k :
  k_calls k = 0 →
  ∃ k', @apply_resync_net kern (KernelNet reads_fail survives default_mask) (Some m) (Some c) k =
      ({| mac_applied := true; ip_applied := false; route_restored := false |}, k') ∧
    kernel_view k' = {| nd_up := true; nd_mac := m; nd_addr := ia_addr c;
                        nd_mask := netmask_octets (ia_prefix_len c); nd_routes := [] |}.
Proof.
  destruct k as [up hw a mask rs n]. cbn [k_calls]. intros ->.
  exists {| k_up := true; k_hw := m; k_addr := ia_addr c; k_mask := netmask_octets (ia_prefix_len c);
            k_routes := []; k_calls := 11 |}.
  split; [|done]. vm_compute. reflexivity.
Qed.

Lemma unreadable_routes_lose_gateway_witness :
  ∃ k', @apply_resync_net kern (KernelNet reads_fail (λ _, true) id) (Some [2; 0; 0; 0; 0; 9]%N)
      (Some (args_of example_reconfig)) example_kern =
      ({| mac_applied := true; ip_applied := false; route_restored := false |}, k') ∧
    head (nd_routes (kernel_view example_kern)) = Some (10, 200, 1, 1)%N ∧ nd_routes (kernel_view k') = [].
Proof.
  destruct (unreadable_routes_lose_gateway (λ _, true) id [2; 0; 0; 0; 0; 9]%N (args_of example_reconfig)
    example_kern eq_refl) as (k' & E & Hv).
  exists k'. rewrite Hv. split_and!; [exact E|vm_compute; reflexivity|reflexivity].
Defined.
