(* ===== verification/Intake.v ===== *)
(** * Naming the destination of a transparent connection

    Models [crates/vmcell/src/proxy/transparent.rs]: the first bytes of a
    redirected connection are read until they are HTTP or a TLS ClientHello, the
    server name of the latter becomes a synthesized [CONNECT], and the connection
    is spliced onto the explicit proxy.  A peer is the bytes it will send and how
    its stream ends; how many of them a read returns is arbitrary.  Errors keep
    their kind. *)

From S2P Require Import Prelude PathLib Words NetAddr.

Definition MAX_INTAKE_PREFIX_BYTES : N := 8 * 1024.
Definition MAX_CONNECT_RESPONSE_BYTES : N := 4096.
Definition MAX_HOST_LEN : N := 253.

Inductive TransparentError := NoHost | BadAuthority | BadUri | BadClientHello.

Inductive Intake := Http | Tls (sni : option string).

Inductive Peek := NeedMore | Decided (i : Intake) | Malformed (e : TransparentError).

(** ** The bounds-checked reader *)

(** [Reader::take]; a reader is what is left of its slice. *)
Fixpoint take (n : nat) (s : string) : option (string * string) :=
  match n, s with
  | O, _ => Some ("", s)
  | S n, String c s => '(out, rest) ← take n s; Some (String c out, rest)
  | S _, EmptyString => None
  end.

(** [from_be_bytes] *)
Definition be_value (s : string) : N := foldl (λ acc c, acc * 256 + byte_N c)%N 0%N (bytes s).

Definition uint (width : nat) (r : string) : option (N * string) :=
  '(b, r) ← take width r; Some (be_value b, r).

Definition vec (width : nat) (r : string) : option (string * string) :=
  '(n, r) ← uint width r; take (N.to_nat n) r.

Notation u8 := (uint 1).
Notation u16 := (uint 2).
Notation u24 := (uint 3).
Notation vec8 := (vec 1).
Notation vec16 := (vec 2).

(** ** The ClientHello *)

Notation hello_res := (result TransparentError).
Notation some_or_bad e := (ok_or e BadClientHello).

(** The two loops; a round consumes a byte at least, and the fuel is the length
    of the slice. *)
Fixpoint server_name (fuel : nat) (entry : string) : hello_res (option string) :=
  match fuel with
  | O => Ok None
  | S fuel =>
      if decide (entry = "") then Ok None else
      let? (name_type, entry) := some_or_bad (u8 entry) in
      let? (name, entry) := some_or_bad (vec16 entry) in
      if (name_type =? 0)%N then (if is_utf8 name then Ok (Some name) else Err BadClientHello)
      else server_name fuel entry
  end.

Fixpoint extension_sni (fuel : nat) (ext : string) : hello_res (option string) :=
  match fuel with
  | O => Ok None
  | S fuel =>
      if decide (ext = "") then Ok None else
      let? (ext_type, ext) := some_or_bad (u16 ext) in
      let? (ext_data, ext) := some_or_bad (vec16 ext) in
      if negb (ext_type =? 0)%N then extension_sni fuel ext
      else let? (names, _) := some_or_bad (vec16 ext_data) in server_name (String.length names) names
  end.

Definition sni_from_client_hello (record : string) : hello_res (option string) :=
  let? (msg_type, r) := some_or_bad (u8 record) in
  if negb (msg_type =? 1)%N then Err BadClientHello else
  let? (body_len, r) := some_or_bad (u24 r) in
  let? (body, _) := some_or_bad (take (N.to_nat body_len) r) in
  let? (_, r) := some_or_bad (take 2 body) in
  let? (_, r) := some_or_bad (take 32 r) in
  let? (_, r) := some_or_bad (vec8 r) in
  let? (_, r) := some_or_bad (vec16 r) in
  let? (_, r) := some_or_bad (vec8 r) in
  match vec16 r with
  | None => Ok None
  | Some (extensions, _) => extension_sni (String.length extensions) extensions
  end.

(** [buf.get(from..from + len)] *)
Definition str_get (from len : nat) (buf : string) : option string :=
  '(_, r) ← take from buf; fst <$> take len r.

Definition classify (buf : string) : Peek :=
  match buf with
  | EmptyString => NeedMore
  | String first _ =>
      if negb (byte_N first =? 22)%N then Decided Http else
      match str_get 3 2 buf with
      | None => NeedMore
      | Some len =>
          let record_len := be_value len in
          if (record_len =? 0)%N then Malformed BadClientHello else
          match str_get 5 (N.to_nat record_len) buf with
          | None => if (MAX_INTAKE_PREFIX_BYTES <=? str_len buf)%N then Malformed BadClientHello else NeedMore
          | Some record =>
              match sni_from_client_hello record with
              | Ok sni => Decided (Tls sni)
              | Err e => Malformed e
              end
          end
      end
  end.

(** ** Authorities *)

Definition is_host_char (c : ascii) : bool :=
  is_ascii_alphanumeric c || bool_decide (c = "-"%char) || bool_decide (c = "."%char).

Definition u16_max : N := Eval vm_compute in umax 16.

Definition validate_authority_host (authority : string) : hello_res unit :=
  if decide (authority = "") then Err BadAuthority else
  let '(host, port) := match rsplit_once ":" authority with
                       | Some (h, p) => (h, Some p)
                       | None => (authority, None)
                       end in
  if decide (host = "") then Err BadAuthority
  else if (MAX_HOST_LEN <? str_len host)%N then Err BadAuthority
  else
    let core := default host (strip_suffix "." host) in
    if decide (core = "") then Err BadAuthority
    else if negb (forallb is_host_char (bytes core)) then Err BadAuthority
    else match port with
         | None => Ok tt
         | Some p => match parse_uint u16_max p with
                     | None | Some 0%N => Err BadAuthority
                     | Some _ => Ok tt
                     end
         end.

Definition connect_port (local_port proxy_port : N) : N :=
  if (local_port =? proxy_port)%N || (local_port =? 0)%N then 443 else local_port.

(** The listener's address is IPv4 ([proxy_bind_ip]). *)
Definition tls_authority (sni : option string) (local : Ipv4Addr * N) (proxy_port : N) : hello_res string :=
  let port := connect_port local.2 proxy_port in
  match sni with
  | Some sni => let? _ := validate_authority_host sni in Ok (sni +:+ ":" +:+ pretty port)
  | None =>
      if negb (local.2 =? proxy_port)%N && negb (local.2 =? 0)%N
      then Ok (ip_to_string local.1 +:+ ":" +:+ pretty port)
      else Err BadAuthority
  end.

(** ** Reading *)

(** How a peer's stream goes on after its last byte. *)
Inductive stream_end := Eof | Failed | Stalls.

Record peer := { sends : string; then_ : stream_end }.

(** What one [read] into a window of [n] bytes returns. *)
Fixpoint read_some (n : nat) (s : string) : string * string :=
  match n, s with
  | S n, String c s => let '(out, rest) := read_some n s in (String c out, rest)
  | _, _ => ("", s)
  end.

Section reading.
(** How many bytes have arrived when the reader has [k]; at least one, or the
    read would wait. *)
Context (arrived : nat → nat).

(** [read_intake]; [None] is a read that waits.  The prefix grows in each round,
    so the window is enough fuel. *)
Fixpoint read_intake_loop (fuel : nat) (prefix rest : string) (e : stream_end)
    : option (hello_res (Intake * string * string)) :=
  match classify prefix with
  | Decided i => Some (Ok (i, prefix, rest))
  | Malformed err => Some (Err err)
  | NeedMore =>
      let room := (MAX_INTAKE_PREFIX_BYTES - str_len prefix)%N in
      if (room =? 0)%N then Some (Err BadClientHello) else
      match rest, e with
      | EmptyString, Stalls => None
      | EmptyString, _ => Some (Err BadClientHello)
      | _, _ =>
          let n := N.to_nat (N.min room 2048) in
          let '(w, rest) := read_some (Nat.max 1 (Nat.min (arrived (String.length prefix)) n)) rest in
          match fuel with
          | O => None
          | S fuel => read_intake_loop fuel (prefix +:+ w) rest e
          end
      end
  end.

Definition read_intake (guest : peer) : option (hello_res (Intake * string * string)) :=
  read_intake_loop (N.to_nat MAX_INTAKE_PREFIX_BYTES) "" (sends guest) (then_ guest).

(** ** The synthesized [CONNECT] *)

Definition crlf : string := utf8 [13; 10]%N.

Definition connect_request (authority : string) : string :=
  "CONNECT " +:+ authority +:+ " HTTP/1.1" +:+ crlf +:+ "Host: " +:+ authority +:+ crlf +:+ crlf.

Definition connect_response_is_success (header : string) : bool :=
  match str_lines (from_utf8_lossy header) with
  | [] => false
  | status_line :: _ =>
      match split_whitespace status_line with
      | version :: code :: _ =>
          starts_with "HTTP/" version &&
          match parse_uint u16_max code with
          | Some code => (200 <=? code)%N && (code <? 300)%N
          | None => false
          end
      | _ => false
      end
  end.

(** The response, a byte at a time. *)
Fixpoint read_header (header rest : string) (e : stream_end) : option (result unit (string * string)) :=
  match rest with
  | EmptyString => match e with Stalls => None | _ => Some (Err tt) end
  | String b rest =>
      let header := header +:+ String b "" in
      if ends_with (crlf +:+ crlf) header then Some (Ok (header, rest))
      else if (MAX_CONNECT_RESPONSE_BYTES <=? str_len header)%N then Some (Err tt)
      else read_header header rest e
  end.

(** [synthesize_connect]: what the tunnel starts with. *)
Definition synthesize_connect (upstream : peer) : option (result unit string) :=
  match read_header "" (sends upstream) (then_ upstream) with
  | Some (Ok (header, rest)) => Some (if connect_response_is_success header then Ok rest else Err tt)
  | Some (Err e) => Some (Err e)
  | None => None
  end.

(** ** One connection *)

Inductive refusal := Unclassified (e : TransparentError) | ClassifyTimeout | NoAuthority | ConnectRefused | ConnectTimeout.

(** What became of it: what was written to the explicit proxy and to the guest. *)
Inductive outcome :=
  | Refused (why : refusal) (to_upstream : string)
  | Spliced (to_upstream to_guest : string)
  | NoUpstream.

(** [upstream] is [None] when the explicit proxy cannot be reached, and what it
    answers depends on the [CONNECT] it was sent. *)
Definition handle_intake (local : Ipv4Addr * N) (proxy_port : N) (guest : peer)
    (upstream : option (option string → peer)) : outcome :=
  match read_intake guest with
  | None => Refused ClassifyTimeout ""
  | Some (Err e) => Refused (Unclassified e) ""
  | Some (Ok (intake, prefix, rest)) =>
      match upstream with
      | None => NoUpstream
      | Some up =>
          match intake with
          | Http => Spliced (prefix +:+ rest) (sends (up None))
          | Tls sni =>
              match tls_authority sni local proxy_port with
              | Err e => Refused NoAuthority ""
              | Ok authority =>
                  match synthesize_connect (up (Some authority)) with
                  | None => Refused ConnectTimeout (connect_request authority)
                  | Some (Err _) => Refused ConnectRefused (connect_request authority)
                  | Some (Ok down) => Spliced (connect_request authority +:+ prefix +:+ rest) down
                  end
              end
          end
      end
  end.
End reading.

(** ** Reading from slices *)

Lemma take_Some n s a b : take n s = Some (a, b) ↔ s = a +:+ b ∧ String.length a = n.
Proof.
  revert s a b. induction n as [|n IH]; intros s a b; cbn [take].
  - split; [by intros [= <- <-]|]. intros [-> Ha]. destruct a; [done|discriminate Ha].
  - destruct s as [|c s].
    + split; [done|]. intros [H Ha]. destruct a; [discriminate Ha|discriminate H].
    + split.
      * destruct (take n s) as [[o r]|] eqn:E; [|done]. intros [= <- <-]. apply IH in E as [-> <-]. done.
      * intros [H Ha]. destruct a as [|c' a]; [discriminate Ha|]. cbn in H, Ha. injection H as <- H. injection Ha as Ha.
        by rewrite (proj2 (IH s a b)).
Qed.

Lemma take_app a b : take (String.length a) (a +:+ b) = Some (a, b).
Proof. by apply take_Some. Qed.

Lemma take_mono n s a b t : take n s = Some (a, b) → take n (s +:+ t) = Some (a, b +:+ t).
Proof. rewrite !take_Some. intros [-> H]. by rewrite append_assoc. Qed.

Lemma take_length n s : n ≤ String.length s → ∃ a b, take n s = Some (a, b).
Proof.
  revert s. induction n as [|n IH]; intros s Hn; [by exists "", s|]. destruct s as [|c s]; [cbn in Hn; lia|].
  cbn in Hn. destruct (IH s) as (a & b & E); [lia|]. exists (String c a), b. cbn. by rewrite E.
Qed.

Lemma str_get_mono f l s r t : str_get f l s = Some r → str_get f l (s +:+ t) = Some r.
Proof.
  unfold str_get. destruct (take f s) as [[a b]|] eqn:E; [|done]. rewrite (take_mono _ _ _ _ t E). cbn.
  destruct (take l b) as [[c d]|] eqn:E'; [|done]. by rewrite (take_mono _ _ _ _ t E').
Qed.

Lemma str_get_length f l s : str_get f l s = None → String.length s < f + l.
Proof.
  unfold str_get. destruct (take f s) as [[a b]|] eqn:E; cbn.
  - apply take_Some in E as [-> Ha]. rewrite length_append. intros H.
    destruct (Nat.lt_ge_cases (String.length b) l) as [|Hl]; [lia|]. destruct (take_length l b Hl) as (c & d & E).
    by rewrite E in H.
  - intros _. destruct (Nat.lt_ge_cases (String.length s) f) as [|Hl]; [lia|].
    destruct (take_length f s Hl) as (c & d & E'). by rewrite E' in E.
Qed.

Lemma read_some_Some n s a b : read_some n s = (a, b) → s = a +:+ b ∧ String.length a = Nat.min n (String.length s).
Proof.
  revert s a b. induction n as [|n IH]; intros s a b; cbn [read_some]; [by intros [= <- <-]|].
  destruct s as [|c s]; [by intros [= <- <-]|]. destruct (read_some n s) as [o r] eqn:E. intros [= <- <-].
  apply IH in E as [-> Hl]. cbn. by rewrite Hl.
Qed.

(** ** What is decided does not depend on how the bytes arrive *)

Lemma classify_decided_mono p q i : classify p = Decided i → classify (p +:+ q) = Decided i.
Proof.
  unfold classify. destruct p as [|c p]; [done|]. rewrite append_cons, <- append_cons.
  destruct (negb _); [done|]. destruct (str_get 3 2 (String c p)) as [l|] eqn:E; [|done].
  rewrite (str_get_mono _ _ _ _ q E). destruct (_ =? 0)%N; [done|].
  destruct (str_get 5 _ (String c p)) as [r|] eqn:E'; [by rewrite (str_get_mono _ _ _ _ q E')|].
  by destruct (_ <=? _)%N.
Qed.

Lemma classify_malformed_mono p q e :
  (str_len (p +:+ q) <= MAX_INTAKE_PREFIX_BYTES)%N → classify p = Malformed e → classify (p +:+ q) = Malformed e.
Proof.
  intros Hlen. unfold classify. destruct p as [|c p]; [done|]. rewrite append_cons in Hlen |- *. rewrite <- append_cons in Hlen |- *.
  destruct (negb _); [done|]. destruct (str_get 3 2 (String c p)) as [l|] eqn:E; [|done].
  rewrite (str_get_mono _ _ _ _ q E). destruct (_ =? 0)%N; [done|].
  destruct (str_get 5 _ (String c p)) as [r|] eqn:E'; [by rewrite (str_get_mono _ _ _ _ q E')|].
  destruct (N.leb_spec MAX_INTAKE_PREFIX_BYTES (str_len (String c p))) as [Hp|]; [|done].
  unfold str_len in *. rewrite length_append in Hlen. assert (String.length q = 0) as Hq by lia.
  destruct q; [|discriminate Hq]. rewrite append_nil_r, E'. by apply N.leb_le in Hp as ->.
Qed.

(** A full window is decided. *)
Lemma classify_full p : (MAX_INTAKE_PREFIX_BYTES <= str_len p)%N → classify p ≠ NeedMore.
Proof.
  intros Hlen. unfold classify. destruct p as [|c p]; [by vm_compute in Hlen|]. destruct (negb _); [done|].
  destruct (str_get 3 2 (String c p)) as [l|] eqn:E.
  - destruct (_ =? 0)%N; [done|]. destruct (str_get 5 _ (String c p)) as [r|]; [by destruct (sni_from_client_hello r)|].
    by apply N.leb_le in Hlen as ->.
  - apply str_get_length in E. unfold str_len, MAX_INTAKE_PREFIX_BYTES in Hlen. lia.
Qed.

(** The decision as a function of the whole stream. *)
Definition window (s : string) : string := (read_some (N.to_nat MAX_INTAKE_PREFIX_BYTES) s).1.

Definition decision (guest : peer) : option (hello_res Intake) :=
  match classify (window (sends guest)) with
  | Decided i => Some (Ok i)
  | Malformed e => Some (Err e)
  | NeedMore => match then_ guest with Stalls => None | _ => Some (Err BadClientHello) end
  end.

Lemma window_spec s : ∃ r, s = window s +:+ r ∧ (str_len (window s) <= MAX_INTAKE_PREFIX_BYTES)%N ∧
  (r ≠ "" → str_len (window s) = MAX_INTAKE_PREFIX_BYTES).
Proof.
  unfold window, str_len. destruct (read_some _ s) as [a b] eqn:E. apply read_some_Some in E as [Hs Hl]. cbn [fst].
  exists b. split; [done|]. rewrite Hl, Hs, length_append. split; [lia|]. intros Hb. destruct b; [done|]. cbn. 
  assert (String.length a = N.to_nat MAX_INTAKE_PREFIX_BYTES) as ->; [|lia].
  rewrite Hs, length_append in Hl. cbn in Hl. lia.
Qed.

Lemma append_prefix a b c d : a +:+ b = c +:+ d → String.length a ≤ String.length c → ∃ q, c = a +:+ q ∧ b = q +:+ d.
Proof.
  revert c. induction a as [|x a IH]; intros c H Hl; [by exists c|]. destruct c as [|y c]; [cbn in Hl; lia|].
  cbn in H, Hl. injection H as <- H. destruct (IH c H) as (q & -> & ->); [lia|]. by exists q.
Qed.

Lemma window_prefix p rest : (str_len p <= MAX_INTAKE_PREFIX_BYTES)%N →
  ∃ q, window (p +:+ rest) = p +:+ q ∧ (str_len (p +:+ q) <= MAX_INTAKE_PREFIX_BYTES)%N ∧ (rest = "" → q = "").
Proof.
  intros Hp. destruct (window_spec (p +:+ rest)) as (r & Hs & Hl & Hr).
  destruct (append_prefix p rest (window (p +:+ rest)) r) as (q & Hq & Hrest).
  - exact Hs.
  - destruct (decide (r = "")) as [->|Hne].
    + rewrite append_nil_r in Hs. rewrite <- Hs, length_append. lia.
    + specialize (Hr Hne). unfold str_len in *. lia.
  - exists q. rewrite <- Hq. split; [done|]. split; [done|]. intros ->. by destruct q.
Qed.

(** What is decided on the bytes read so far is the decision. *)
Lemma decision_prefix p rest e : (str_len p <= MAX_INTAKE_PREFIX_BYTES)%N →
  match classify p with
  | Decided i => decision {| sends := p +:+ rest; then_ := e |} = Some (Ok i)
  | Malformed er => decision {| sends := p +:+ rest; then_ := e |} = Some (Err er)
  | NeedMore => rest = "" → decision {| sends := p +:+ rest; then_ := e |} =
      match e with Stalls => None | _ => Some (Err BadClientHello) end
  end.
Proof.
  intros Hp. destruct (window_prefix p rest Hp) as (q & Hw & Hq & Hqr). unfold decision. cbn [sends then_]. rewrite Hw.
  destruct (classify p) as [|i|er] eqn:Ec.
  - intros Hr. by rewrite (Hqr Hr), append_nil_r, Ec.
  - by rewrite (classify_decided_mono _ q _ Ec).
  - by rewrite (classify_malformed_mono _ q _ Hq Ec).
Qed.

Lemma read_intake_loop_spec arrived fuel : ∀ prefix rest e,
  (MAX_INTAKE_PREFIX_BYTES <= str_len prefix + N.of_nat fuel)%N → (str_len prefix <= MAX_INTAKE_PREFIX_BYTES)%N →
  match read_intake_loop arrived fuel prefix rest e with
  | Some (Ok (i, p, r)) => decision {| sends := prefix +:+ rest; then_ := e |} = Some (Ok i) ∧
      p +:+ r = prefix +:+ rest ∧ (str_len p <= MAX_INTAKE_PREFIX_BYTES)%N
  | Some (Err er) => decision {| sends := prefix +:+ rest; then_ := e |} = Some (Err er)
  | None => decision {| sends := prefix +:+ rest; then_ := e |} = None
  end.
Proof.
  induction fuel as [|fuel IH]; intros prefix rest e Hf Hp; cbn [read_intake_loop];
    pose proof (decision_prefix prefix rest e Hp) as Hd; destruct (classify prefix) as [|i|er] eqn:Ec;
    try exact Hd; try (by split_and!); try (exfalso; apply (classify_full prefix); [lia|done]).
  destruct (N.eqb_spec (MAX_INTAKE_PREFIX_BYTES - str_len prefix) 0) as [H0|Hroom].
  { exfalso. apply (classify_full prefix); [lia|done]. }
  destruct rest as [|c rest]; [rewrite Hd by done; by destruct e|].
  destruct (read_some _ (String c rest)) as [w r] eqn:Er. apply read_some_Some in Er as [Es Hl].
  cbn [String.length] in Hl. rewrite Es. clear Hd Es.
  assert (1 ≤ String.length w ∧ (str_len (prefix +:+ w) <= MAX_INTAKE_PREFIX_BYTES)%N) as [H1 H2].
  { unfold str_len in *. rewrite length_append in *. lia. }
  specialize (IH (prefix +:+ w) r e). rewrite append_assoc in IH.
  destruct e; (apply IH; [unfold str_len in *; rewrite length_append; lia|exact H2]).
Qed.

(** Reference: the fate of a connection, with no mention of how it arrives. *)
Definition intake_spec (local : Ipv4Addr * N) (proxy_port : N) (guest : peer)
    (upstream : option (option string → peer)) : outcome :=
  match decision guest with
  | None => Refused ClassifyTimeout ""
  | Some (Err e) => Refused (Unclassified e) ""
  | Some (Ok intake) =>
      match upstream with
      | None => NoUpstream
      | Some up =>
          match intake with
          | Http => Spliced (sends guest) (sends (up None))
          | Tls sni =>
              match tls_authority sni local proxy_port with
              | Err _ => Refused NoAuthority ""
              | Ok authority =>
                  match synthesize_connect (up (Some authority)) with
                  | None => Refused ConnectTimeout (connect_request authority)
                  | Some (Err _) => Refused ConnectRefused (connect_request authority)
                  | Some (Ok down) => Spliced (connect_request authority +:+ sends guest) down
                  end
              end
          end
      end
  end.

Lemma intake_is_spec arrived local proxy_port guest upstream :
  handle_intake arrived local proxy_port guest upstream = intake_spec local proxy_port guest upstream ∧
  (∀ i p r, read_intake arrived guest = Some (Ok (i, p, r)) → (str_len p <= MAX_INTAKE_PREFIX_BYTES)%N).
Proof.
  unfold handle_intake, intake_spec, read_intake. destruct guest as [s e]. cbn [sends then_].
  assert (MAX_INTAKE_PREFIX_BYTES <= str_len "" + N.of_nat (N.to_nat MAX_INTAKE_PREFIX_BYTES))%N as Hf.
  { rewrite N2Nat.id. apply N.le_add_l. }
  generalize dependent (N.to_nat MAX_INTAKE_PREFIX_BYTES). intros fuel Hf.
  pose proof (read_intake_loop_spec arrived fuel "" s e Hf (N.le_0_l _)) as H.
  destruct (read_intake_loop _ _ _ _ _) as [[[[i p] r]|er]|] eqn:E; rewrite append_nil_l in H.
  - destruct H as (-> & Hs & Hl). rewrite Hs. split; [done|]. by intros ? ? ? [= <- <- <-].
  - by rewrite H.
  - by rewrite H.
Qed.


(** ** A ClientHello as a client writes it *)

Fixpoint be (width : nat) (n : N) : string :=
  match width with
  | O => ""
  | S w => be w (n / 256) +:+ String (ascii_of_N (n mod 256)) ""
  end.

Definition put_vec (width : nat) (s : string) : string := be width (str_len s) +:+ s.

Inductive extension :=
  | ServerName (names : list (N * string))
  | Other (ext_type : N) (data : string).

Record ClientHello := {
  ch_version : string;
  ch_random : string;
  ch_session : string;
  ch_ciphers : string;
  ch_compression : string;
  ch_extensions : option (list extension);
}.

Definition enc_name (n : N * string) : string := be 1 n.1 +:+ put_vec 2 n.2.
Definition enc_names (ns : list (N * string)) : string := foldr (λ n s, enc_name n +:+ s) "" ns.

Definition enc_extension (e : extension) : string :=
  match e with
  | ServerName ns => be 2 0 +:+ put_vec 2 (put_vec 2 (enc_names ns))
  | Other t d => be 2 t +:+ put_vec 2 d
  end.
Definition enc_extensions (es : list extension) : string := foldr (λ e s, enc_extension e +:+ s) "" es.

Definition hello_body (h : ClientHello) : string :=
  ch_version h +:+ ch_random h +:+ put_vec 1 (ch_session h) +:+ put_vec 2 (ch_ciphers h) +:+
  put_vec 1 (ch_compression h) +:+ match ch_extensions h with None => "" | Some es => put_vec 2 (enc_extensions es) end.

Definition handshake (h : ClientHello) : string := be 1 1 +:+ put_vec 3 (hello_body h).

(** One TLS record; its version is 3.1. *)
Definition tls_record (h : ClientHello) : string := be 1 22 +:+ be 2 769 +:+ put_vec 2 (handshake h).

(** Every length fits its field. *)
Definition name_wf (n : N * string) : Prop := (n.1 < 256)%N ∧ (str_len n.2 < 256 ^ 2)%N.
Definition extension_wf (e : extension) : Prop :=
  match e with
  | ServerName ns => Forall name_wf ns ∧ (str_len (put_vec 2 (enc_names ns)) < 256 ^ 2)%N
  | Other t d => t ≠ 0%N ∧ (t < 256 ^ 2)%N ∧ (str_len d < 256 ^ 2)%N
  end.
Definition hello_wf (h : ClientHello) : Prop :=
  String.length (ch_version h) = 2 ∧ String.length (ch_random h) = 32 ∧
  (str_len (ch_session h) < 256)%N ∧ (str_len (ch_ciphers h) < 256 ^ 2)%N ∧ (str_len (ch_compression h) < 256)%N ∧
  (∀ es, ch_extensions h = Some es → Forall extension_wf es) ∧ (str_len (handshake h) < 256 ^ 2)%N.

(** The server name it carries: the first host name of its first such extension. *)
Fixpoint names_sni (ns : list (N * string)) : hello_res (option string) :=
  match ns with
  | [] => Ok None
  | (t, name) :: ns =>
      if (t =? 0)%N then (if is_utf8 name then Ok (Some name) else Err BadClientHello) else names_sni ns
  end.

Fixpoint extensions_sni (es : list extension) : hello_res (option string) :=
  match es with
  | [] => Ok None
  | ServerName ns :: _ => names_sni ns
  | Other _ _ :: es => extensions_sni es
  end.

Definition hello_sni (h : ClientHello) : hello_res (option string) :=
  match ch_extensions h with None => Ok None | Some es => extensions_sni es end.

Lemma length_be w n : String.length (be w n) = w.
Proof. revert n. induction w as [|w IH]; intros n; [done|]. cbn [be]. rewrite length_append, IH. cbn. lia. Qed.

Lemma be_value_be w n : (n < 256 ^ N.of_nat w)%N → be_value (be w n) = n.
Proof.
  revert n. induction w as [|w IH]; intros n Hn; [cbn in *; lia|]. rewrite Nat2N.inj_succ, N.pow_succ_r' in Hn.
  unfold be_value in *. cbn [be]. rewrite bytes_append, foldl_app, IH by (by apply N.Div0.div_lt_upper_bound). cbn.
  unfold byte_N. rewrite N_ascii_embedding by (by apply N.mod_lt). pose proof (N.div_mod' n 256). lia.
Qed.

Lemma uint_be w n r : (n < 256 ^ N.of_nat w)%N → uint w (be w n +:+ r) = Some (n, r).
Proof.
  intros Hn. unfold uint. rewrite <- (length_be w n) at 1. rewrite take_app. cbn. by rewrite be_value_be.
Qed.

Lemma vec_put w s r : (str_len s < 256 ^ N.of_nat w)%N → vec w (put_vec w s +:+ r) = Some (s, r).
Proof.
  intros Hs. unfold vec, put_vec. rewrite append_assoc, uint_be by done. cbn. unfold str_len. by rewrite Nat2N.id, take_app.
Qed.

Lemma server_name_enc ns : ∀ fuel, Forall name_wf ns → String.length (enc_names ns) ≤ fuel →
  server_name fuel (enc_names ns) = names_sni ns.
Proof.
  induction ns as [|[t name] ns IH]; intros fuel Hwf Hf; [by destruct fuel|].
  inversion_clear Hwf as [|? ? [Ht Hn] Hwf']. cbn [enc_names foldr] in *. fold (enc_names ns) in *.
  unfold enc_name in *. rewrite !length_append, length_be in Hf. destruct fuel as [|fuel]; [lia|]. cbn [server_name].
  rewrite decide_False by (intros H; apply (f_equal String.length) in H; rewrite !length_append, length_be in H; cbn in H; lia).
  rewrite !append_assoc, uint_be by done. cbn [ok_or]. rewrite vec_put by done. cbn [ok_or fst snd names_sni].
  destruct (t =? 0)%N; [done|]. apply IH; [done|]. cbn [fst snd] in *. lia.
Qed.

Lemma extension_sni_enc es : ∀ fuel, Forall extension_wf es → String.length (enc_extensions es) ≤ fuel →
  extension_sni fuel (enc_extensions es) = extensions_sni es.
Proof.
  induction es as [|e es IH]; intros fuel Hwf Hf; [by destruct fuel|].
  inversion_clear Hwf as [|? ? He Hwf']. cbn [enc_extensions foldr] in *. fold (enc_extensions es) in *.
  rewrite length_append in Hf. destruct fuel as [|fuel].
  { destruct e; cbn [enc_extension] in Hf; rewrite length_append, length_be in Hf; lia. }
  cbn [extension_sni]. rewrite decide_False.
  2: { intros H. apply (f_equal String.length) in H. rewrite length_append in H.
       destruct e; cbn [enc_extension] in H; rewrite length_append, length_be in H; cbn in H; lia. }
  destruct e as [ns|t d]; cbn [enc_extension extension_wf extensions_sni] in *; rewrite !append_assoc.
  - destruct He as [Hns Hl]. rewrite uint_be by done. cbn [ok_or]. rewrite vec_put by done. cbn [ok_or fst snd N.eqb negb].
    rewrite <- (append_nil_r (put_vec 2 (enc_names ns))), vec_put; [cbn [ok_or]; by apply server_name_enc|].
    unfold put_vec, str_len in *. rewrite length_append, length_be in Hl. lia.
  - destruct He as (H0 & Ht & Hd). rewrite uint_be by done. cbn [ok_or]. rewrite vec_put by done. cbn [ok_or fst snd].
    apply N.eqb_neq in H0 as ->. cbn [negb]. apply IH; [done|]. rewrite length_append, length_be in Hf. lia.
Qed.

Lemma sni_enc h : hello_wf h → sni_from_client_hello (handshake h) = hello_sni h.
Proof.
  intros (Hv & Hr & Hs & Hc & Hm & Hes & Hl).
  assert (str_len (hello_body h) < 256 ^ 2)%N as Hb.
  { unfold handshake, put_vec, str_len in *. rewrite !length_append in Hl. lia. }
  unfold sni_from_client_hello, handshake. rewrite uint_be by done. cbn [ok_or N.eqb negb Pos.eqb].
  unfold put_vec. rewrite uint_be by (etrans; [exact Hb|done]). cbn [ok_or].
  rewrite <- (append_nil_r (hello_body h)) at 2. unfold str_len at 1. rewrite Nat2N.id, take_app. cbn [ok_or].
  unfold hello_body in *. rewrite <- Hv at 1. rewrite take_app. cbn [ok_or]. rewrite <- Hr at 1. rewrite take_app. cbn [ok_or].
  rewrite vec_put by done. cbn [ok_or]. rewrite vec_put by done. cbn [ok_or]. rewrite vec_put by done. cbn [ok_or].
  unfold hello_sni. destruct (ch_extensions h) as [es|] eqn:E; [|done].
  rewrite <- (append_nil_r (put_vec 2 (enc_extensions es))), vec_put; [apply extension_sni_enc; [by apply Hes|lia]|].
  unfold put_vec, str_len in *. rewrite !length_append in Hb. lia.
Qed.

Lemma str_get_at a b r : str_get (String.length a) (String.length b) (a +:+ b +:+ r) = Some b.
Proof. unfold str_get. rewrite take_app. cbn. by rewrite take_app. Qed.

Lemma classify_record h rest : hello_wf h →
  classify (tls_record h +:+ rest) = match hello_sni h with Ok sni => Decided (Tls sni) | Err e => Malformed e end.
Proof.
  intros Hwf. rewrite <- (sni_enc h Hwf). destruct Hwf as (_ & _ & _ & _ & _ & _ & Hl).
  unfold tls_record, put_vec. set (pre := be 1 22 +:+ be 2 769).
  assert ((be 1 22 +:+ be 2 769 +:+ be 2 (str_len (handshake h)) +:+ handshake h) +:+ rest =
    pre +:+ be 2 (str_len (handshake h)) +:+ handshake h +:+ rest) as E by (unfold pre; by rewrite !append_assoc).
  rewrite E. set (buf := pre +:+ _). assert (∃ s, buf = String (ascii_of_N 22) s) as [s Hs] by (by eexists).
  assert (str_get 3 2 buf = Some (be 2 (str_len (handshake h)))) as E1.
  { pose proof (str_get_at pre (be 2 (str_len (handshake h))) (handshake h +:+ rest)) as H. by rewrite length_be in H. }
  assert (str_get 5 (N.to_nat (str_len (handshake h))) buf = Some (handshake h)) as E2.
  { pose proof (str_get_at (pre +:+ be 2 (str_len (handshake h))) (handshake h) rest) as H.
    rewrite length_append, length_be, append_assoc in H. unfold str_len at 1. by rewrite Nat2N.id. }
  unfold classify. rewrite Hs. cbn [negb]. change (byte_N (ascii_of_N 22)) with 22%N. cbn [N.eqb Pos.eqb negb].
  rewrite <- Hs, E1, be_value_be by done. destruct (N.eqb_spec (str_len (handshake h)) 0) as [H0|_]; [|by rewrite E2].
  unfold handshake, str_len in H0. rewrite length_append, length_be in H0. lia.
Qed.

(** What the explicit proxy answers to a [CONNECT] it accepts. *)
Definition ok_header : string := "HTTP/1.1 200 OK" +:+ crlf +:+ crlf.

Lemma synthesize_connect_ok down e : synthesize_connect {| sends := ok_header +:+ down; then_ := e |} = Some (Ok down).
Proof. unfold synthesize_connect. cbn [sends then_]. by destruct e. Qed.


Definition example_hello (host : string) : ClientHello :=
  {| ch_version := utf8 [3; 3]%N; ch_random := String.concat "" (replicate 32 "r"); ch_session := "s";
     ch_ciphers := utf8 [19; 1]%N; ch_compression := utf8 [0]%N;
     ch_extensions := Some [Other 10 "groups"; ServerName [(1%N, "x"); (0%N, host)]; Other 16 "h2"] |}.


(** ** The synthesized request *)

(** The bytes an authority may consist of. *)
Definition is_authority_char (c : ascii) : bool :=
  is_host_char c || bool_decide (c = ":"%char) || bool_decide (c = "+"%char).

Lemma authority_char_graphic c : is_authority_char c → is_graphic c.
Proof. destruct c as [[] [] [] [] [] [] [] []]; done. Qed.

Lemma digit_authority_char c : is_ascii_digit c → is_authority_char c.
Proof. destruct c as [[] [] [] [] [] [] [] []]; done. Qed.

Lemma host_authority_char c : is_host_char c → is_authority_char c.
Proof. unfold is_authority_char. intros H. apply orb_True. left. apply orb_True. by left. Qed.

Lemma authority_app a b : Forall is_authority_char (bytes a) → Forall is_authority_char (bytes b) →
  Forall is_authority_char (bytes (a +:+ b)).
Proof. intros. rewrite bytes_append. by apply Forall_app. Qed.

Lemma pretty_authority (n : N) : Forall is_authority_char (bytes (pretty n)).
Proof. eapply Forall_impl; [apply pretty_digits|]. apply digit_authority_char. Qed.

Lemma parse_digits_chars max acc s n : parse_digits max acc s = Some n → Forall is_ascii_digit (bytes s).
Proof.
  revert acc. induction s as [|c s IH]; intros acc; [constructor|]. cbn [parse_digits bytes]. unfold digit_val.
  destruct (is_ascii_digit c) eqn:E; [|done]. destruct (_ <=? _)%N; [|done]. intros H. constructor; [by rewrite E|eauto].
Qed.

Lemma parse_uint_chars max s n : parse_uint max s = Some n → Forall is_authority_char (bytes s).
Proof.
  assert (∀ s acc n, parse_digits max acc s = Some n → Forall is_authority_char (bytes s)) as H.
  { intros s' acc n' H. eapply Forall_impl; [by eapply parse_digits_chars|]. apply digit_authority_char. }
  unfold parse_uint. destruct s as [|c s]; [done|]. intros E.
  destruct (decide (c = "+"%char)) as [->|Hne]; [destruct s as [|b s]; [done|]; constructor; [done|exact (H (String b s) 0%N n E)]|].
  apply (H _ 0%N n). destruct c as [[] [] [] [] [] [] [] []]; (exact E || done).
Qed.

Lemma validate_authority_chars a : validate_authority_host a = Ok tt → Forall is_authority_char (bytes a).
Proof.
  unfold validate_authority_host. case_decide; [done|].
  assert (∀ host, ¬ forallb is_host_char (bytes (default host (strip_suffix "." host))) = false →
    Forall is_authority_char (bytes host)) as Hhost.
  { intros host H'. apply not_false_is_true in H'. assert (Forall is_authority_char (bytes (default host (strip_suffix "." host)))).
    { eapply Forall_impl; [apply forallb_True; by rewrite H'|]. apply host_authority_char. }
    destruct (strip_suffix "." host) as [c|] eqn:E; [|done]. apply strip_suffix_spec in E as ->.
    apply authority_app; [done|]. by repeat constructor. }
  destruct (rsplit_once ":" a) as [[host p]|] eqn:E.
  - apply rsplit_once_Some in E as [-> _]. case_decide; [done|]. destruct (_ <? _)%N; [done|]. case_decide; [done|].
    destruct (forallb _ _) eqn:Hf; [|done]. cbn [negb]. destruct (parse_uint u16_max p) as [n|] eqn:Ep; [|done]. intros _.
    apply authority_app; [apply Hhost; by rewrite Hf|]. constructor; [done|by eapply parse_uint_chars].
  - case_decide; [done|]. destruct (_ <? _)%N; [done|]. case_decide; [done|].
    destruct (forallb _ _) eqn:Hf; [|done]. intros _. apply Hhost. by rewrite Hf.
Qed.

Lemma tls_authority_chars sni local pp a : tls_authority sni local pp = Ok a → Forall is_authority_char (bytes a).
Proof.
  unfold tls_authority. destruct sni as [sni|].
  - destruct (validate_authority_host sni) as [[]|] eqn:E; [|done]. intros [= <-].
    apply authority_app; [by apply validate_authority_chars|]. constructor; [done|apply pretty_authority].
  - destruct (_ && _); [|done]. intros [= <-]. destruct local as [[[[w x] y] z] p]. cbn [fst snd]. unfold ip_to_string.
    repeat (apply authority_app; [|try apply pretty_authority]); try apply pretty_authority; by repeat constructor.
Qed.

Lemma graphic_no_ctl n s : (n < 33)%N → Forall is_graphic (bytes s) → ascii_of_N n ∉ bytes s.
Proof.
  intros Hn Hs Hin. rewrite Forall_forall in Hs. specialize (Hs _ Hin). unfold is_graphic, byte_N in Hs.
  rewrite N_ascii_embedding in Hs by lia. apply andb_True in Hs as [Hs _]. apply Is_true_true, N.leb_le in Hs. lia.
Qed.

Lemma str_lines_crlf x y : ascii_of_N 10 ∉ bytes x → str_lines (x +:+ crlf +:+ y) = x :: str_lines y.
Proof.
  intros Hx. unfold str_lines.
  change (x +:+ crlf +:+ y) with (x +:+ utf8 [13%N] +:+ String (ascii_of_N 10) y). rewrite <- append_assoc, str_split_append.
  2: { rewrite bytes_append, elem_of_app. intros [H|H]; [done|]. by apply list_elem_of_singleton in H. }
  destruct (str_split (ascii_of_N 10) y) as [|p l] eqn:E; [by apply str_split_nonempty in E|]. cbn [lines_of].
  by rewrite (proj2 (strip_suffix_spec _ (x +:+ utf8 [13%N]) x)).
Qed.

(** The request that is written to the proxy on behalf of a TLS connection is
    one [CONNECT] and nothing more, whatever server name the guest chose: its
    lines are the request line, the [Host] header and the empty line, the request
    line has the three words it should have, and the authority has only letters,
    digits and the five marks of a host and port. *)
Theorem connect_is_one_request sni local proxy_port authority :
  tls_authority sni local proxy_port = Ok authority →
  str_lines (connect_request authority) =
    ["CONNECT " +:+ authority +:+ " HTTP/1.1"; "Host: " +:+ authority; ""] ∧
  split_whitespace ("CONNECT " +:+ authority +:+ " HTTP/1.1") = ["CONNECT"; authority; "HTTP/1.1"] ∧
  Forall is_authority_char (bytes authority).
Proof.
  intros Ha. pose proof (tls_authority_chars _ _ _ _ Ha) as Hc.
  assert (Forall is_graphic (bytes authority)) as Hg by (eapply Forall_impl; [exact Hc|apply authority_char_graphic]).
  pose proof (graphic_no_ctl 10 authority ltac:(done) Hg) as Hn.
  assert (authority ≠ "") as Hne.
  { intros ->. unfold tls_authority in Ha. destruct sni as [sni|].
    - destruct (validate_authority_host sni); [|done]. injection Ha as H. by destruct sni.
    - destruct (_ && _); [|done]. injection Ha as H. by destruct (ip_to_string local.1). }
  split_and!; [|..|exact Hc].
  - assert (∀ a b, ascii_of_N 10 ∉ bytes a → ascii_of_N 10 ∉ bytes b → ascii_of_N 10 ∉ bytes (a +:+ b)) as Happ.
    { intros a b H1 H2. rewrite bytes_append, elem_of_app. naive_solver. }
    assert (connect_request authority =
      ("CONNECT " +:+ authority +:+ " HTTP/1.1") +:+ crlf +:+ ("Host: " +:+ authority) +:+ crlf +:+ crlf) as ->
      by (unfold connect_request; by rewrite !append_assoc).
    rewrite str_lines_crlf, str_lines_crlf; [done|..]; repeat apply Happ; try done;
      apply (bool_decide_unpack _); vm_compute; exact I.
  - apply (split_whitespace_render [("CONNECT", " "%char); (authority, " "%char)] "HTTP/1.1").
    + repeat (apply Forall_cons_2; [split_and!; [done| |done]|]); [|done|apply Forall_nil_2].
      refine (bool_decide_unpack _ _). vm_compute. exact I.
    + refine (bool_decide_unpack _ _). vm_compute. exact I.
Qed.

Lemma connect_is_one_request_witness :
  tls_authority (Some "api.example.com") (10, 200, 1, 1, 3128)%N 3128 = Ok "api.example.com:443" ∧
  str_lines (connect_request "api.example.com:443") = ["CONNECT api.example.com:443 HTTP/1.1"; "Host: api.example.com:443"; ""].
Proof.
  split; [vm_compute; reflexivity|].
  apply (connect_is_one_request (Some "api.example.com") (10, 200, 1, 1, 3128)%N 3128). vm_compute. reflexivity.
Defined.

(** ** A refused [CONNECT] *)

Lemma lossy_ascii_app p s : forallb (λ c, byte_N c <? 128)%N (bytes p) = true →
  from_utf8_lossy (p +:+ s) = p +:+ from_utf8_lossy s.
Proof.
  induction p as [|a p IH]; [done|]. cbn [bytes forallb]. intros [Ha Hp]%andb_true_iff. rewrite !append_cons, <- IH by done.
  unfold from_utf8_lossy. cbn [String.length utf8_chunks]. unfold utf8_chunk. by rewrite Ha.
Qed.

(** The first line of a text begins as the text does. *)
Lemma str_lines_first p c s : ascii_of_N 10 ∉ bytes (p +:+ String c "") → c ≠ ascii_of_N 13 →
  ∃ l ls, str_lines ((p +:+ String c "") +:+ s) = ((p +:+ String c "") +:+ l) :: ls.
Proof.
  intros Hn Hc. set (q := p +:+ String c "") in *. assert (q ≠ "") as Hq by (unfold q; by destruct p).
  assert (∃ h t, str_split (ascii_of_N 10) (q +:+ s) = (q +:+ h) :: t) as (h & t & E).
  { clearbody q. clear Hq Hc. induction q as [|a q IH].
    - destruct (str_split (ascii_of_N 10) s) as [|h t] eqn:E; [by apply str_split_nonempty in E|]. by exists h, t.
    - cbn [bytes] in Hn. apply not_elem_of_cons in Hn as [Ha Hn]. destruct (IH Hn) as (h & t & E).
      exists h, t. rewrite !append_cons. cbn [str_split]. rewrite decide_False by congruence. by rewrite E. }
  unfold str_lines. rewrite E. destruct t as [|y t].
  { cbn [lines_of]. rewrite decide_False by (by destruct q). by eexists _, _. }
  change (lines_of ((q +:+ h) :: y :: t)) with (default (q +:+ h) (strip_suffix (utf8 [13%N]) (q +:+ h)) :: lines_of (y :: t)).
  destruct (strip_suffix _ (q +:+ h)) as [r|] eqn:Er; [|by eexists _, _]. apply strip_suffix_spec in Er. cbn [default].
  destruct h as [|b h].
  - exfalso. rewrite append_nil_r in Er. apply (f_equal bytes) in Er. unfold q in Er. rewrite !bytes_append in Er. cbn in Er.
    apply app_inj_tail in Er as [_ ->]. done.
  - destruct (append_prefix q (String b h) r (utf8 [13%N]) Er) as (x & -> & _); [|by eexists _, _].
    apply (f_equal String.length) in Er. rewrite !length_append in Er. cbn in Er. lia.
Qed.

Lemma read_header_Some e rest : ∀ header h r, read_header header rest e = Some (Ok (h, r)) →
  header +:+ rest = h +:+ r ∧ ends_with (crlf +:+ crlf) h = true.
Proof.
  induction rest as [|b rest IH]; intros header h r; cbn [read_header]; [by destruct e|].
  destruct (ends_with _ _) eqn:E.
  - intros [= <- <-]. split; [|done]. by rewrite append_assoc.
  - destruct (_ <=? _)%N; [done|]. intros H. apply IH in H as [H He]. by rewrite append_assoc in H.
Qed.

(** An answer whose status is not a success opens no tunnel. *)
Lemma connect_status_refused status upstream down :
  (status < 200 ∨ 300 <= status)%N → (status <= u16_max)%N →
  starts_with ("HTTP/1.1 " +:+ pretty status +:+ " ") (sends upstream) = true →
  synthesize_connect upstream ≠ Some (Ok down).
Proof.
  intros Hst Hmax [t Ht]%starts_with_spec. unfold synthesize_connect.
  destruct (read_header _ _ _) as [[[h r]|]|] eqn:E; [|done..]. apply read_header_Some in E as [E Hend]. rewrite append_nil_l, Ht in E.
  destruct (connect_response_is_success h) eqn:Hs; [|done]. exfalso. revert Hs.
  set (line := "HTTP/1.1 " +:+ pretty status) in *.
  assert ("HTTP/1.1 " +:+ pretty status +:+ " " = line +:+ String " " "") as El by (unfold line; by rewrite append_assoc).
  rewrite El in E. assert (Forall (λ c, is_graphic c ∨ c = " "%char) (bytes (line +:+ String " " ""))) as Hch.
  { unfold line. rewrite !bytes_append. apply Forall_app. split; [apply Forall_app; split|by repeat constructor; right].
    - refine (bool_decide_unpack _ _). vm_compute. exact I.
    - eapply Forall_impl; [apply pretty_graphic|]. by left. }
  assert (∀ n, (n < 32)%N → ascii_of_N n ∉ bytes (line +:+ String " " "")) as Hctl.
  { intros n Hn Hin. rewrite Forall_forall in Hch. destruct (Hch _ Hin) as [H|H].
    - unfold is_graphic, byte_N in H. rewrite N_ascii_embedding in H by lia. apply andb_True in H as [H _].
      apply Is_true_true, N.leb_le in H. lia.
    - apply (f_equal N_of_ascii) in H. rewrite N_ascii_embedding in H by lia. cbn in H. lia. }
  destruct (Nat.le_gt_cases (String.length (line +:+ String " " "")) (String.length h)) as [Hlen|Hlen].
  2: { symmetry in E. destruct (append_prefix _ _ _ _ E) as (q & Hq & _); [lia|].
       apply ends_with_spec in Hend as [x ->]. intros _. apply (Hctl 13%N ltac:(done)). rewrite Hq, !bytes_append, !elem_of_app. cbn. set_solver. }
  destruct (append_prefix _ _ _ _ E Hlen) as (q & -> & _). unfold connect_response_is_success. rewrite lossy_ascii_app.
  2: { apply forallb_forall. intros c Hc%list_elem_of_In. rewrite Forall_forall in Hch. destruct (Hch _ Hc) as [H| ->]; [|done].
       apply andb_True in H as [_ H]. apply Is_true_true, N.leb_le in H. apply N.ltb_lt. lia. }
  destruct (str_lines_first line " " (from_utf8_lossy q)) as (l & ls & ->); [by apply Hctl|done|].
  assert ((line +:+ String " " "") +:+ l = "HTTP/1.1" +:+ String space (pretty status +:+ String space l)) as ->
    by (unfold line; by rewrite !append_assoc).
  rewrite (split_whitespace_sep "HTTP/1.1"), split_whitespace_sep, (split_whitespace_word (pretty status)).
  2: { apply no_ws_graphic, pretty_graphic. }
  2: { apply pretty_nonempty. }
  change (split_whitespace "HTTP/1.1") with ["HTTP/1.1"]. cbn [app]. rewrite parse_pretty by done.
  rewrite andb_true_iff, andb_true_iff, N.leb_le, N.ltb_lt. lia.
Qed.

(** ** Flaws *)

(** A ClientHello whose extension block ends early is documented to be refused;
    it counts as one without a server name, and a connection whose original
    destination is known is passed on to it. *)
Theorem truncated_extensions_pass h n short :
  hello_wf h → ch_extensions h = None → (str_len short < n)%N → (n < 256 ^ 2)%N →
  (str_len (hello_body h +:+ be 2 n +:+ short) < 256 ^ 3)%N →
  sni_from_client_hello (be 1 1 +:+ put_vec 3 (hello_body h +:+ be 2 n +:+ short)) = Ok None.
Proof.
  intros (Hv & Hr & Hs & Hc & Hm & _) He Hn Hn2 Hb.
  unfold sni_from_client_hello. rewrite uint_be by done. cbn [ok_or N.eqb negb Pos.eqb].
  unfold put_vec at 1. rewrite uint_be by done. cbn [ok_or].
  rewrite <- (append_nil_r (hello_body h +:+ be 2 n +:+ short)) at 2. unfold str_len at 1. rewrite Nat2N.id, take_app. cbn [ok_or].
  unfold hello_body. rewrite He, append_nil_r, !append_assoc.
  rewrite <- Hv at 1. rewrite take_app. cbn [ok_or]. rewrite <- Hr at 1. rewrite take_app. cbn [ok_or].
  rewrite vec_put by done. cbn [ok_or]. rewrite vec_put by done. cbn [ok_or]. rewrite vec_put by done. cbn [ok_or].
  unfold vec. rewrite uint_be by done. cbn [mbind option_bind].
  destruct (take (N.to_nat n) short) as [[a b]|] eqn:E; [|done]. apply take_Some in E as [-> Ha].
  unfold str_len in Hn. rewrite length_append in Hn. lia.
Qed.

(** The gate on authorities is documented to accept a host with one trailing dot
    and a decimal port.  It lets through two dots and a port with a sign, and a
    server name with a port, to which a second port is then appended. *)
Theorem authority_gate_lax :
  validate_authority_host "example.com.." = Ok tt ∧ validate_authority_host "example.com:+80" = Ok tt ∧
  tls_authority (Some "example.com:22") (10, 200, 1, 1, 3128)%N 3128 = Ok "example.com:22:443" ∧
  validate_authority_host "example.com:22:443" = Err BadAuthority.
Proof. vm_compute. done. Qed.
