(* ===== verification/Cassette.v ===== *)
(** * Recorded interactions of the egress proxy

    Models [crates/vmcell/src/proxy/cassette.rs]: the key an interaction is
    recorded under, the encoding of a body, the JSON-lines file a recording
    appends to, and the replay that serves it back.  [serde_json] is a parameter
    with its round-trip law; [http::Uri] is what its accessors return. *)

From S2P Require Import Prelude PathLib.

(** ** Text *)

Definition lower_byte (c : ascii) : ascii := if is_ascii_upper c then ascii_of_N (byte_N c + 32) else c.
Definition upper_byte (c : ascii) : ascii := if is_ascii_lower c then ascii_of_N (byte_N c - 32) else c.

Fixpoint map_bytes (f : ascii → ascii) (s : string) : string :=
  match s with
  | EmptyString => EmptyString
  | String c s => String (f c) (map_bytes f s)
  end.

Notation to_ascii_lowercase := (map_bytes lower_byte).
Notation to_ascii_uppercase := (map_bytes upper_byte).

(** ** Requests *)

Record Uri := {
  uri_scheme : option string;
  uri_host : option string;
  uri_port : option N;
  uri_path : string;
  uri_query : option string;
}.

(** ** Options *)

Definition CASSETTE_FORMAT : string := "vmcell-cassette-v1".
Definition MAX_CASSETTE_BODY_BYTES : N := 1024 * 1024.
Definition REDACTED_QUERY_PARAMS : list string :=
  ["access_token"; "api_key"; "apikey"; "auth"; "key"; "nonce"; "password"; "secret"; "sig"; "signature"; "token"; "ts"].
Definition RECORDED_RESPONSE_HEADERS : list string := ["content-type"].

Definition is_recordable_response_header (name : string) : bool :=
  bool_decide (to_ascii_lowercase name ∈ RECORDED_RESPONSE_HEADERS).

Inductive CassetteError := Miss (key : string) | CassetteExists | Io | Parse (line : nat) | CassetteEmpty | BodyTooLarge
  | UnnamedDestination | UndecodableBody.

Record CassetteOptions := { redacted_query_params : list string; max_body_bytes : N }.

Definition default_options : CassetteOptions :=
  {| redacted_query_params := REDACTED_QUERY_PARAMS; max_body_bytes := MAX_CASSETTE_BODY_BYTES |}.

Definition redacting (o : CassetteOptions) (names : list string) : CassetteOptions :=
  {| redacted_query_params := redacted_query_params o ++ (map_bytes lower_byte <$> names);
     max_body_bytes := max_body_bytes o |}.

(** [eq_ignore_ascii_case] compares what the two names fold to. *)
Definition is_redacted (o : CassetteOptions) (name : string) : bool :=
  existsb (λ p, bool_decide (to_ascii_lowercase p = to_ascii_lowercase (to_ascii_lowercase name))) (redacted_query_params o).

(** ** Bodies *)

Inductive RecordedBody := Text (s : string) | Hex (s : string).

Fixpoint hex_of (s : string) : string :=
  match s with
  | EmptyString => EmptyString
  | String b s => hex2 (byte_N b) +:+ hex_of s
  end.

Definition body_from_bytes (b : string) : RecordedBody := if is_utf8 b then Text b else Hex (hex_of b).

(** The chunks of two; an odd length is refused before the loop. *)
Fixpoint unhex (h : string) : result CassetteError string :=
  match h with
  | EmptyString => Ok EmptyString
  | String hi (String lo h) =>
      match hex_value hi, hex_value lo with
      | Some a, Some b => let? rest := unhex h in Ok (String (ascii_of_N (a * 16 + b)) rest)
      | _, _ => Err UndecodableBody
      end
  | String _ EmptyString => Err UndecodableBody
  end.

Definition body_to_bytes (b : RecordedBody) : result CassetteError string :=
  match b with
  | Text s => Ok s
  | Hex h => if negb (str_len h mod 2 =? 0)%N then Err UndecodableBody else unhex h
  end.

Record RecordedInteraction := {
  ri_format : string;
  ri_key : string;
  ri_status : N;
  ri_headers : list (string * string);
  ri_body : RecordedBody;
}.

(** ** The key *)

#[local] Instance str_le_dec : RelDecision (λ s t, Is_true (str_le s t)).
Proof. intros s t. apply _. Defined.

Definition param_name (param : string) : string := match split_once "=" param with Some (k, _) => k | None => param end.

(** [filter] twice, [sort_unstable], [join]; equal parameters are the same text. *)
Definition kept_params (q : string) (o : CassetteOptions) : list string :=
  stable_sort str_le
    (filter (λ p, is_redacted o (param_name p) = false) (filter (λ p, p ≠ "") (str_split "&" q))).

Definition canonical_query (query : option string) (o : CassetteOptions) : string :=
  match query with
  | None => ""
  | Some q => match kept_params q o with [] => "" | kept => "?" +:+ str_join "&" kept end
  end.

Definition interaction_key (method : string) (u : Uri) (o : CassetteOptions) : result CassetteError string :=
  match uri_host u with
  | None => Err UnnamedDestination
  | Some host =>
      let scheme := match uri_scheme u with None => "http" | Some s => to_ascii_lowercase s end in
      let host := to_ascii_lowercase (default host (strip_suffix "." host)) in
      let default_port := if decide (scheme = "https") then 443%N else 80%N in
      let port := match uri_port u with
                  | Some p => if (p =? default_port)%N then "" else ":" +:+ pretty p
                  | None => ""
                  end in
      let path := if decide (uri_path u = "") then "/" else uri_path u in
      Ok (to_ascii_uppercase method +:+ " " +:+ scheme +:+ "://" +:+ host +:+ port +:+ path +:+ canonical_query (uri_query u) o)
  end.

(** ** The file and its two modes *)

Class Serde := {
  to_json : RecordedInteraction → option string;
  from_json : string → option RecordedInteraction;
  (** A line of JSON: read back, without line breaks, and not blank. *)
  json_law i l : to_json i = Some l → from_json l = Some i ∧ is_line l ∧ str_trim l ≠ "";
}.

Inductive CassetteState :=
  | Record_ (path : string) (opts : CassetteOptions)
  | Replay (path : string) (opts : CassetteOptions) (entries : list (RecordedInteraction * bool)) (misses : list string).

(** The files; what one call on them answers.  A write that fails may have
    written some of its bytes. *)
Notation files := (gmap string string).
Inductive io_answer := IoOk | IoRefused | IoTorn (written : nat).

Section cassette.
Context {SJ : Serde}.

Definition open_record (path : string) (o : CassetteOptions) (io : io_answer) (fs : files)
    : result CassetteError CassetteState * files :=
  match fs !! path, io with
  | Some _, _ => (Err CassetteExists, fs)
  | None, IoOk => (Ok (Record_ path o), <[path := ""]> fs)
  | None, _ => (Err Io, fs)
  end.

(** [parse_cassette], from line [idx] on. *)
Fixpoint parse_lines (idx : nat) (ls : list string) : result CassetteError (list RecordedInteraction) :=
  match ls with
  | [] => Ok []
  | line :: ls =>
      if decide (str_trim line = "") then parse_lines (S idx) ls else
      match from_json line with
      | None => Err (Parse (S idx))
      | Some i =>
          if decide (ri_format i = CASSETTE_FORMAT)
          then let? rest := parse_lines (S idx) ls in Ok (i :: rest)
          else Err (Parse (S idx))
      end
  end.

Definition parse_cassette (text : string) : result CassetteError (list RecordedInteraction) := parse_lines 0 (str_lines text).

Definition open_replay (path : string) (o : CassetteOptions) (io : io_answer) (fs : files)
    : result CassetteError CassetteState :=
  match fs !! path, io with
  | Some text, IoOk =>
      let? entries := parse_cassette text in
      if decide (entries = []) then Err CassetteEmpty else Ok (Replay path o ((λ e, (e, false)) <$> entries) [])
  | _, _ => Err Io
  end.

Definition options (c : CassetteState) : CassetteOptions := match c with Record_ _ o | Replay _ o _ _ => o end.

Definition is_replaying (c : CassetteState) : bool := match c with Replay _ _ _ _ => true | Record_ _ _ => false end.

Definition misses (c : CassetteState) : list string := match c with Replay _ _ _ ms => ms | Record_ _ _ => [] end.

Definition str_prefix (n : nat) (s : string) : string := String.substring 0 n s.

Definition newline : string := utf8 [10%N].

Definition append_line (path line : string) (io : io_answer) (fs : files) : result CassetteError unit * files :=
  match fs !! path, io with
  | None, _ | _, IoRefused => (Err Io, fs)
  | Some text, IoOk => (Ok tt, <[path := text +:+ line +:+ newline]> fs)
  | Some text, IoTorn n => (Err Io, <[path := text +:+ str_prefix n (line +:+ newline)]> fs)
  end.

Definition append (c : CassetteState) (key : string) (status : N) (headers : list (string * string)) (body : string)
    (io : io_answer) (fs : files) : result CassetteError unit * files :=
  match c with
  | Replay _ _ _ _ => (Ok tt, fs)
  | Record_ path o =>
      if (max_body_bytes o <? str_len body)%N then (Err BodyTooLarge, fs) else
      match to_json {| ri_format := CASSETTE_FORMAT; ri_key := key; ri_status := status; ri_headers := headers;
                       ri_body := body_from_bytes body |} with
      | None => (Err Io, fs)
      | Some line => append_line path line io fs
      end
  end.

(** The first entry under [key] that was not served; it is marked. *)
Fixpoint take_entry (key : string) (entries : list (RecordedInteraction * bool))
    : option (RecordedInteraction * list (RecordedInteraction * bool)) :=
  match entries with
  | [] => None
  | (e, consumed) :: rest =>
      if negb consumed && bool_decide (ri_key e = key) then Some (e, (e, true) :: rest)
      else '(i, rest) ← take_entry key rest; Some (i, (e, consumed) :: rest)
  end.

Definition take_hit (key : string) (c : CassetteState) : result CassetteError RecordedInteraction * CassetteState :=
  match c with
  | Record_ _ _ => (Err (Miss key), c)
  | Replay path o entries ms =>
      match take_entry key entries with
      | Some (i, entries) => (Ok i, Replay path o entries ms)
      | None => (Err (Miss key), Replay path o entries (ms ++ [key]))
      end
  end.
End cassette.

(** ** A body comes back *)

Lemma hex_value_char n : (n < 16)%N → hex_value (hex_char n) = Some n.
Proof.
  intros Hn. assert (Forall (λ k, hex_value (hex_char (N.of_nat k)) = Some (N.of_nat k)) (seq 0 16)) as H
    by (refine (bool_decide_unpack _ _); vm_compute; exact I).
  rewrite Forall_forall in H. specialize (H (N.to_nat n)). rewrite N2Nat.id in H. apply H, elem_of_seq. lia.
Qed.

Lemma unhex_hex_of s : unhex (hex_of s) = Ok s.
Proof.
  induction s as [|b s IH]; [done|]. cbn [hex_of]. unfold hex2. rewrite !append_cons, append_nil_l. cbn [unhex].
  assert (byte_N b < 256)%N as Hb by apply N_ascii_bounded.
  rewrite !hex_value_char by (by apply N.mod_lt || by apply N.Div0.div_lt_upper_bound). rewrite IH. cbn. do 2 f_equal.
  rewrite (N.mul_comm _ 16), <- N.div_mod'. apply ascii_N_embedding.
Qed.

Lemma length_hex_of s : String.length (hex_of s) = String.length s * 2.
Proof. induction s as [|b s IH]; [done|]. cbn [hex_of]. rewrite length_append, IH. cbn. lia. Qed.

Lemma body_roundtrip b : body_to_bytes (body_from_bytes b) = Ok b.
Proof.
  unfold body_from_bytes. destruct (is_utf8 b); [done|]. cbn [body_to_bytes]. unfold str_len. rewrite length_hex_of, Nat2N.inj_mul, N.Div0.mod_mul.
  apply unhex_hex_of.
Qed.

(** ** Replay serves each key in order *)

(** The first [c k] entries of each key [k] marked. *)
Fixpoint mark (c : string → nat) (es : list RecordedInteraction) : list (RecordedInteraction * bool) :=
  match es with
  | [] => []
  | e :: es =>
      match c (ri_key e) with
      | O => (e, false) :: mark c es
      | S n => (e, true) :: mark (λ k, if decide (k = ri_key e) then n else c k) es
      end
  end.

Definition under (k : string) (es : list RecordedInteraction) : list RecordedInteraction := filter (λ e, ri_key e = k) es.

Lemma mark_ext c c' es : (∀ k, c k = c' k) → mark c es = mark c' es.
Proof.
  revert c c'. induction es as [|e es IH]; intros c c' H; [done|]. cbn [mark]. rewrite <- H.
  destruct (c (ri_key e)); f_equal; apply IH; [done|]. intros k. by case_decide.
Qed.

Lemma mark_0 es : mark (λ _, 0) es = (λ e, (e, false)) <$> es.
Proof. induction es as [|e es IH]; [done|]. cbn. by rewrite IH. Qed.

Definition bump (k : string) (c : string → nat) : string → nat := λ k', if decide (k' = k) then S (c k') else c k'.

Lemma take_entry_mark k c es :
  take_entry k (mark c es) = (λ i, (i, mark (bump k c) es)) <$> under k es !! c k.
Proof.
  revert c. induction es as [|e es IH]; intros c; [by destruct (c k)|]. unfold under. rewrite filter_cons. cbn [mark].
  unfold bump at 1. destruct (c (ri_key e)) as [|n] eqn:Ec.
  - cbn [take_entry negb andb]. case_bool_decide as Hk.
    + subst k. rewrite !decide_True, Ec by done. cbn [lookup list_lookup fmap option_fmap option_map]. do 3 f_equal. apply mark_ext.
      intros k. unfold bump. repeat case_decide; congruence.
    + rewrite !decide_False, IH by congruence. fold (under k es). by destruct (under k es !! c k).
  - cbn [take_entry negb andb]. rewrite IH. fold (under k es). destruct (decide (ri_key e = k)) as [<-|Hk].
    + rewrite !decide_True, Ec by done. cbn. destruct (under (ri_key e) es !! n); [|done]. cbn. do 3 f_equal.
      apply mark_ext. intros k. unfold bump. repeat case_decide; congruence.
    + rewrite !decide_False by congruence. destruct (under k es !! c k); [|done]. cbn. do 3 f_equal.
      apply mark_ext. intros k'. unfold bump. repeat case_decide; congruence.
Qed.

(** A run of requests against a replaying cassette. *)
Fixpoint serve (ks : list string) (c : CassetteState) : list (result CassetteError RecordedInteraction) * CassetteState :=
  match ks with
  | [] => ([], c)
  | k :: ks =>
      let '(r, c) := take_hit k c in
      let '(rs, c) := serve ks c in
      (r :: rs, c)
  end.

Fixpoint serve_spec (c : string → nat) (es : list RecordedInteraction) (ks : list string)
    : list (result CassetteError RecordedInteraction) :=
  match ks with
  | [] => []
  | k :: ks =>
      match under k es !! c k with
      | Some i => Ok i
      | None => Err (Miss k)
      end :: serve_spec (match under k es !! c k with Some _ => bump k c | None => c end) es ks
  end.

Lemma serve_mark ks : ∀ c path o es ms, (serve ks (Replay path o (mark c es) ms)).1 = serve_spec c es ks.
Proof.
  induction ks as [|k ks IH]; intros c path o es ms; [done|]. cbn [serve take_hit serve_spec].
  rewrite take_entry_mark. destruct (under k es !! c k) as [i|]; cbn [fmap option_fmap option_map].
  - specialize (IH (bump k c) path o es ms). destruct (serve ks _) as [rs c']. cbn in *. by rewrite IH.
  - specialize (IH c path o es (ms ++ [k])). destruct (serve ks _) as [rs c']. cbn in *. by rewrite IH.
Qed.

(** ** The file of a recording loads *)

Section file.
Context {SJ : Serde}.

Definition is_entry (l : string) (i : RecordedInteraction) : Prop := to_json i = Some l ∧ ri_format i = CASSETTE_FORMAT.

Lemma parse_lines_entries ls es idx : Forall2 is_entry ls es → parse_lines idx ls = Ok es.
Proof.
  intros H. revert idx. induction H as [|l e ls es [Hj Hf] _ IH]; intros idx; [done|]. cbn [parse_lines].
  destruct (json_law _ _ Hj) as (Hl & _ & Hb). rewrite decide_False, Hl, decide_True, IH by done. done.
Qed.

Lemma parse_cassette_entries ls es : Forall2 is_entry ls es → parse_cassette (render_lines ls) = Ok es.
Proof.
  intros H. unfold parse_cassette. rewrite str_lines_render; [by apply parse_lines_entries|].
  induction H as [|l e ls es [Hj _] _ IH]; constructor; [|done]. by apply json_law in Hj as (_ & ? & _).
Qed.

Lemma render_lines_snoc ls l : render_lines (ls ++ [l]) = render_lines ls +:+ l +:+ newline.
Proof.
  induction ls as [|x ls IH]; [done|]. change (render_lines ((x :: ls) ++ [l])) with (x +:+ String (ascii_of_N 10) (render_lines (ls ++ [l]))).
  rewrite IH. change (render_lines (x :: ls)) with (x +:+ String (ascii_of_N 10) (render_lines ls)). by rewrite append_assoc.
Qed.
End file.

(** ** The key forgets exactly the order of the parameters and the redacted ones *)

Definition params (query : option string) (o : CassetteOptions) : list string :=
  match query with
  | None => []
  | Some q => filter (λ p, is_redacted o (param_name p) = false) (filter (λ p, p ≠ "") (str_split "&" q))
  end.

Lemma canonical_query_params query o :
  canonical_query query o = match stable_sort str_le (params query o) with [] => "" | kept => "?" +:+ str_join "&" kept end.
Proof. by destruct query. Qed.

Lemma params_no_amp query o : Forall (λ p, "&"%char ∉ bytes p) (stable_sort str_le (params query o)).
Proof.
  rewrite stable_sort_Permutation. apply Forall_forall. intros p. unfold params. destruct query as [q|]; [|by intros ?%not_elem_of_nil].
  rewrite !list_elem_of_filter. intros (_ & _ & Hp). by eapply str_split_no_char.
Qed.

(** The key of an interaction tells apart two query strings exactly when
    their parameters differ, other than in order and in those that are redacted:
    a secret or a nonce is never in a key, and nothing else is lost. *)
Theorem query_key_exact q q' o :
  canonical_query q o = canonical_query q' o ↔ params q o ≡ₚ params q' o.
Proof.
  rewrite !canonical_query_params. split.
  - intros H. rewrite <- (stable_sort_Permutation str_le (params q o)), <- (stable_sort_Permutation str_le (params q' o)).
    pose proof (params_no_amp q o) as H1. pose proof (params_no_amp q' o) as H2.
    destruct (stable_sort str_le (params q o)) as [|x l], (stable_sort str_le (params q' o)) as [|y l']; [done..|].
    apply append_inj_l, (f_equal (str_split "&")) in H. rewrite !str_split_join in H by done. by rewrite H.
  - intros H. erewrite (stable_sort_canonical str_le); [done| |exact H]. intros x y _ _. apply (anti_symm (R := (=)) str_le).
Qed.
