(* ===== verification/Egress.v ===== *)
(** * The egress proxy's decisions

    Models [proxy/doubles.rs] (the deny list, the bounded request log, test
    doubles), [proxy/handler.rs] (the order of the decisions and the cassette
    around them) and [reconstruct_absolute_uri] of [proxy/transparent.rs].  The
    HTTP machinery around them is [hudsucker]'s and [http]'s and is a parameter.
    A response keeps its status, its headers (a value that is not text is
    [None]) and its body ([None] when the upstream breaks it off). *)

From S2P Require Import Prelude PathLib Words NetAddr Intake Cassette.

(** ** The request log *)

Definition MAX_REQUEST_LOG_ENTRIES : nat := N.to_nat 1024.

Definition push_bounded {A} (log : list A) (entry : A) : list A :=
  (if decide (MAX_REQUEST_LOG_ENTRIES ≤ length log)
   then drop (length log + 1 - MAX_REQUEST_LOG_ENTRIES) log else log) ++ [entry].

(** ** The deny list *)

Definition normalize_host (h : string) : string := to_ascii_lowercase (default h (strip_suffix "." h)).

Definition is_blocked (host : string) (blocked : list string) : bool :=
  let host_norm := normalize_host host in
  existsb (λ domain, let domain_norm := normalize_host domain in
             bool_decide (host_norm = domain_norm) || ends_with ("." +:+ domain_norm) host_norm) blocked.

(** ** Requests and responses *)

Record Request := {
  rq_method : string;
  rq_uri : Uri;
  rq_host : option string;      (** the [Host] header, where it is text *)
  rq_rest : string;             (** the other headers and the body *)
}.

Record Response := {
  rs_status : N;
  rs_headers : list (string * option string);
  rs_body : option string;
}.

Inductive RequestOrResponse := Forward (r : Request) | Answer (r : Response).

Record TestDouble := { matcher : Request → bool; responder : Request → Response }.

Inductive log_entry :=
  | LogBlocked (host : string)
  | LogRequest (method uri : string)
  | LogUnnamed
  | LogHit (key : string)
  | LogMiss (key : string)
  | LogRecorded (key : string)
  | LogCassetteFailed.

Record proxy := {
  doubles : list TestDouble;
  blocked_domains : list string;
  requests : list log_entry;
  record_path : option string;
  cassette : option CassetteState;
  fs : files;
}.

Definition logged (e : log_entry) (p : proxy) : proxy :=
  {| doubles := doubles p; blocked_domains := blocked_domains p; requests := push_bounded (requests p) e;
     record_path := record_path p; cassette := cassette p; fs := fs p |}.

Definition with_cassette (c : option CassetteState) (p : proxy) : proxy :=
  {| doubles := doubles p; blocked_domains := blocked_domains p; requests := requests p;
     record_path := record_path p; cassette := c; fs := fs p |}.

Definition with_fs (f : files) (p : proxy) : proxy :=
  {| doubles := doubles p; blocked_domains := blocked_domains p; requests := requests p;
     record_path := record_path p; cassette := cassette p; fs := f |}.

Definition with_uri (u : Uri) (r : Request) : Request :=
  {| rq_method := rq_method r; rq_uri := u; rq_host := rq_host r; rq_rest := rq_rest r |}.

Definition is_connect (r : Request) : bool := bool_decide (rq_method r = "CONNECT").

Definition text_response (status : N) : Response :=
  {| rs_status := status; rs_headers := [("content-type", Some "text/plain; charset=utf-8")]; rs_body := Some "" |}.

Definition STATUS_UNNAMED : N := 400.
Definition STATUS_MISS : N := 504.
Definition STATUS_RECORD_FAILED : N := 502.

(** The host part of an authority. *)
Definition authority_host (a : string) : string := match rsplit_once ":" a with Some (h, _) => h | None => a end.

Class Http := {
  parse_uri : string → option Uri;
  display_uri : Uri → string;
  (** What a response builder accepts as a header. *)
  header_ok : string * string → bool;
  (** The authority of a parsed URI is what stands before its path. *)
  parse_uri_law host path u : validate_authority_host host = Ok tt → starts_with "/" path = true →
    parse_uri ("http://" +:+ host +:+ path) = Some u → uri_host u = Some (authority_host host);
}.

Section egress.
Context {HT : Http} {SJ : Serde}.

(** [u.path_and_query()] *)
Definition path_and_query (u : Uri) : string :=
  uri_path u +:+ match uri_query u with Some q => "?" +:+ q | None => "" end.

Definition reconstruct_absolute_uri (u : Uri) (host_header : option string) : result TransparentError (option Uri) :=
  match uri_host u with
  | Some _ => Ok None
  | None =>
      let? host := ok_or host_header NoHost in
      let host := str_trim host in
      let? _ := validate_authority_host host in
      match parse_uri ("http://" +:+ host +:+ path_and_query u) with
      | Some u => Ok (Some u)
      | None => Err BadUri
      end
  end.

(** ** [ProxyHandler] *)

(** The [record_to] line; its failure is logged only. *)
Definition record_line (req : Request) (io : io_answer) (p : proxy) : proxy :=
  match record_path p with
  | None => p
  | Some path =>
      let line := rq_method req +:+ " " +:+ display_uri (rq_uri req) +:+ newline in
      let text := default "" (fs p !! path) in
      match io with
      | IoRefused => p
      | IoOk => with_fs (<[path := text +:+ line]> (fs p)) p
      | IoTorn n => with_fs (<[path := text +:+ str_prefix n line]> (fs p)) p
      end
  end.

Definition route_request (req : Request) (io : io_answer) (p : proxy) : RequestOrResponse * proxy :=
  let passes :=
    let p := logged (LogRequest (rq_method req) (display_uri (rq_uri req))) p in
    let p := record_line req io p in
    if is_connect req then (Forward req, p) else
    match find (λ d, matcher d req) (doubles p) with
    | Some d => (Answer (responder d req), p)
    | None => (Forward req, p)
    end in
  match uri_host (rq_uri req) with
  | Some host =>
      if is_blocked host (blocked_domains p)
      then (Answer {| rs_status := 403; rs_headers := []; rs_body := Some ("Blocked by vmcell Proxy: " +:+ host) |},
            logged (LogBlocked host) p)
      else passes
  | None => passes
  end.

(** ** [EgressHandler] *)

Definition reconstruct (req : Request) (p : proxy) : RequestOrResponse * proxy :=
  if is_connect req then (Forward req, p) else
  match reconstruct_absolute_uri (rq_uri req) (rq_host req) with
  | Ok None => (Forward req, p)
  | Ok (Some u) => (Forward (with_uri u req), p)
  | Err _ => (Answer (text_response STATUS_UNNAMED), logged LogUnnamed p)
  end.

Definition replay_response (i : RecordedInteraction) : result CassetteError Response :=
  let? b := body_to_bytes (ri_body i) in
  if (100 <=? ri_status i)%N && (ri_status i <=? 999)%N && forallb header_ok (ri_headers i)
  then Ok {| rs_status := ri_status i; rs_headers := (λ h, (h.1, Some h.2)) <$> ri_headers i; rs_body := Some b |}
  else Err UndecodableBody.

(** The last component is the key a recording remembers for the response. *)
Definition cassette_stage (req : Request) (p : proxy) : RequestOrResponse * option string * proxy :=
  if is_connect req then (Forward req, None, p) else
  match cassette p with
  | None => (Forward req, None, p)
  | Some state =>
      match interaction_key (rq_method req) (rq_uri req) (options state) with
      | Err _ => (Answer (text_response STATUS_UNNAMED), None, logged LogUnnamed p)
      | Ok key =>
          if negb (is_replaying state) then (Forward req, Some key, p) else
          match take_hit key state with
          | (Ok i, state) =>
              let p := with_cassette (Some state) p in
              match replay_response i with
              | Ok res => (Answer res, None, logged (LogHit key) p)
              | Err _ => (Answer (text_response STATUS_RECORD_FAILED), None, logged LogCassetteFailed p)
              end
          | (Err _, state) =>
              (Answer (text_response STATUS_MISS), None, logged (LogMiss key) (with_cassette (Some state) p))
          end
      end
  end.

Definition route (req : Request) (io : io_answer) (p : proxy) : RequestOrResponse * option string * proxy :=
  match reconstruct req p with
  | (Answer res, p) => (Answer res, None, p)
  | (Forward req, p) =>
      match route_request req io p with
      | (Answer res, p) => (Answer res, None, p)
      | (Forward req, p) => cassette_stage req p
      end
  end.

Definition recorded_headers (hs : list (string * option string)) : list (string * string) :=
  omap (λ h, v ← h.2; Some (h.1, v)) (filter (λ h, is_recordable_response_header h.1 = true) hs).

Definition is_framing (name : string) : bool := bool_decide (name ∈ ["content-length"; "transfer-encoding"]).

Definition record_response (key : string) (res : Response) (io : io_answer) (p : proxy) : Response * proxy :=
  match cassette p with
  | None => (res, p)
  | Some state =>
      let failed := (text_response STATUS_RECORD_FAILED, logged LogCassetteFailed p) in
      match rs_body res with
      | None => failed
      | Some b =>
          if (max_body_bytes (options state) <? str_len b)%N then failed else
          match append state key (rs_status res) (recorded_headers (rs_headers res)) b io (fs p) with
          | (Err _, f) => (text_response STATUS_RECORD_FAILED, logged LogCassetteFailed (with_fs f p))
          | (Ok _, f) =>
              ({| rs_status := rs_status res; rs_headers := filter (λ h, is_framing h.1 = false) (rs_headers res);
                  rs_body := Some b |}, logged (LogRecorded key) (with_fs f p))
          end
      end
  end.

Definition respond (pending : option string) (res : Response) (io : io_answer) (p : proxy) : Response * proxy :=
  match pending with
  | Some key => record_response key res io p
  | None => (res, p)
  end.
End egress.

(** ** The deny list matches whole labels *)

Definition labels (name : string) : list string := str_split "." (normalize_host name).

(** A host is blocked exactly when the labels of a listed domain are the last
    labels of the host, both read without regard to case and with one trailing
    dot dropped: the domain itself and every subdomain of it, and no other name,
    a name that merely ends in the same letters included. *)
Theorem deny_list_exact host blocked :
  is_blocked host blocked = true ↔ ∃ domain, domain ∈ blocked ∧ labels domain `suffix_of` labels host.
Proof.
  unfold is_blocked, labels. rewrite existsb_exists. setoid_rewrite <- list_elem_of_In.
  apply exist_proper. intros d. apply and_iff_compat_l. rewrite orb_true_iff, bool_decide_eq_true, ends_with_spec.
  set (h := normalize_host host). set (n := normalize_host d). split.
  - intros [->|[r ->]]; [done|]. exists (str_split "." r). apply str_split_app.
  - intros [k Hk]. apply (f_equal (str_join ".")) in Hk. rewrite (str_join_split "." h) in Hk. destruct k as [|x k].
    + left. by rewrite app_nil_l, (str_join_split "." n) in Hk.
    + right. exists (str_join "." (x :: k)). rewrite Hk, str_join_app by (done || apply str_split_nonempty).
      by rewrite (str_join_split "." n).
Qed.

(** ** The log is bounded *)

Lemma push_bounded_length {A} (log : list A) e : length (push_bounded log e) ≤ Nat.max (S (length log) `min` MAX_REQUEST_LOG_ENTRIES) 1.
Proof.
  unfold push_bounded. rewrite length_app. cbn [length]. case_decide; [rewrite length_drop|]; lia.
Qed.

Section facts.
Context {HT : Http} {SJ : Serde}.

(** ** What leaves *)

(** The request with the destination it names. *)
Definition destination (req : Request) : result TransparentError Request :=
  if is_connect req then Ok req else
  let? u := reconstruct_absolute_uri (rq_uri req) (rq_host req) in
  Ok (match u with Some u => with_uri u req | None => req end).

Definition unblocked (p : proxy) (req : Request) : Prop :=
  ∀ h, uri_host (rq_uri req) = Some h → is_blocked h (blocked_domains p) = false.

Definition undoubled (p : proxy) (req : Request) : Prop := find (λ d, matcher d req) (doubles p) = None.

(** The stages only add to the log, the files and the cassette. *)
Definition same_rules (p p' : proxy) : Prop := doubles p' = doubles p ∧ blocked_domains p' = blocked_domains p.

Lemma record_line_rules req io p : same_rules p (record_line req io p) ∧ cassette (record_line req io p) = cassette p ∧
  (record_path p = None → record_line req io p = p).
Proof. unfold record_line. destruct (record_path p); [|done]. by destruct io. Qed.

Lemma is_connect_with_uri u req : is_connect (with_uri u req) = is_connect req.
Proof. done. Qed.

Lemma reconstruct_destination req p :
  reconstruct req p = match destination req with
                      | Ok r => (Forward r, p)
                      | Err _ => (Answer (text_response STATUS_UNNAMED), logged LogUnnamed p)
                      end.
Proof.
  unfold reconstruct, destination. destruct (is_connect req); [done|].
  by destruct (reconstruct_absolute_uri _ _) as [[u|]|].
Qed.

Lemma destination_connect req r : destination req = Ok r → is_connect r = is_connect req.
Proof.
  unfold destination. destruct (is_connect req) eqn:E; [by intros [= <-]|].
  destruct (reconstruct_absolute_uri _ _) as [[u|]|]; [by intros [= <-]|by intros [= <-]|done].
Qed.

(** A request that is not blocked. *)
Definition passed (req : Request) (io : io_answer) (p : proxy) : proxy :=
  record_line req io (logged (LogRequest (rq_method req) (display_uri (rq_uri req))) p).

Lemma route_request_unblocked req io p : unblocked p req →
  route_request req io p =
    (if is_connect req then Forward req
     else match find (λ d, matcher d req) (doubles p) with Some d => Answer (responder d req) | None => Forward req end,
     passed req io p).
Proof.
  intros Hu. unfold route_request, passed, unblocked in *.
  destruct (record_line_rules req io (logged (LogRequest (rq_method req) (display_uri (rq_uri req))) p)) as [[Hd _] _].
  rewrite Hd. destruct (uri_host (rq_uri req)) as [h|]; [rewrite (Hu h eq_refl)|];
    (destruct (is_connect req); [done|]; by destruct (find _ _)).
Qed.

Lemma route_request_blocked req io p h : uri_host (rq_uri req) = Some h → is_blocked h (blocked_domains p) = true →
  ∃ res, route_request req io p = (Answer res, logged (LogBlocked h) p) ∧ rs_status res = 403%N.
Proof. intros Hh Hb. unfold route_request. rewrite Hh, Hb. by eexists. Qed.

Lemma blocked_or_not p req : unblocked p req ∨ ∃ h, uri_host (rq_uri req) = Some h ∧ is_blocked h (blocked_domains p) = true.
Proof.
  unfold unblocked. destruct (uri_host (rq_uri req)) as [h|]; [|by left].
  destruct (is_blocked h (blocked_domains p)) eqn:E; [right; by exists h|left; by intros ? [= <-]].
Qed.

Lemma route_forward req io p r :
  (route req io p).1.1 = Forward r ↔
    destination req = Ok r ∧ unblocked p r ∧
    (is_connect r = false → undoubled p r ∧
       ∀ c, cassette p = Some c → is_replaying c = false ∧ is_ok (interaction_key (rq_method r) (rq_uri r) (options c)) = true).
Proof.
  unfold route. rewrite reconstruct_destination. destruct (destination req) as [r0|]; [|naive_solver].
  assert (cassette (passed r0 io p) = cassette p) as Hcas.
  { unfold passed. by destruct (record_line_rules r0 io (logged (LogRequest (rq_method r0) (display_uri (rq_uri r0))) p)) as (_ & -> & _). }
  destruct (blocked_or_not p r0) as [Hu|(h & Hh & Hb)].
  2: { destruct (route_request_blocked r0 io p h Hh Hb) as (res & -> & _). split; [done|]. intros ([= <-] & Hu & _).
       specialize (Hu h Hh). congruence. }
  rewrite route_request_unblocked by done. unfold undoubled. destruct (is_connect r0) eqn:Ec.
  { unfold cassette_stage. rewrite Ec. cbn. naive_solver congruence. }
  destruct (find _ _) as [d|] eqn:Ed; [naive_solver congruence|].
  unfold cassette_stage. rewrite Ec, Hcas. destruct (cassette p) as [c|] eqn:Eq; [|cbn; naive_solver congruence].
  destruct (interaction_key _ _ _) as [key|] eqn:Ek.
  - destruct (is_replaying c) eqn:Er; cbn [negb].
    + split; [|naive_solver congruence]. destruct (take_hit key c) as [[i|] c']; [|done]. by destruct (replay_response i).
    + cbn. split; [|naive_solver]. intros [= <-]. split_and!; [done..|]. intros _. split; [done|]. intros ? [= <-]. by rewrite Ek.
  - cbn. split; [done|]. intros (E & _ & H). injection E as <-. destruct (H Ec) as [_ H']. destruct (H' c eq_refl) as [_ H''].
    by rewrite Ek in H''.
Qed.

(** C12: A request leaves the proxy exactly when nothing forbids it.  The
    destination is the one the guest asked for, restored from the [Host] header
    where the request line does not carry it; it leaves when that destination
    can be named and is not on the deny list and, unless it is a tunnel whose
    requests are judged one by one, no test double matches it and no cassette
    replays.  A cassette that records must be able to give it a key. *)
Theorem request_leaves_iff req io p r :
  (route req io p).1.1 = Forward r ↔
    destination req = Ok r ∧ unblocked p r ∧
    (is_connect r = false → undoubled p r ∧
       ∀ c, cassette p = Some c → is_replaying c = false ∧ is_ok (interaction_key (rq_method r) (rq_uri r) (options c)) = true).
Proof. apply route_forward. Qed.

(** ** A blocked name is not reached *)

(** What the explicit proxy hands to the handler for a [CONNECT]. *)
Definition connect_to (authority : string) : Request :=
  {| rq_method := "CONNECT";
     rq_uri := {| uri_scheme := None; uri_host := Some (authority_host authority); uri_port := None;
                  uri_path := ""; uri_query := None |};
     rq_host := Some authority; rq_rest := "" |}.

(** It writes the status of the answer it is given. *)
Definition answers_connect (p : proxy) (up : option string → peer) : Prop :=
  ∀ a res, (route (connect_to a) IoOk p).1.1 = Answer res → (rs_status res <= u16_max)%N →
    starts_with ("HTTP/1.1 " +:+ pretty (rs_status res) +:+ " ") (sends (up (Some a))) = true.

Lemma authority_host_port sni (port : N) : authority_host (sni +:+ ":" +:+ pretty port) = sni.
Proof.
  unfold authority_host. change (sni +:+ ":" +:+ pretty port) with (sni +:+ String ":" (pretty port)).
  by rewrite rsplit_once_append by (by apply pretty_no_char).
Qed.

Lemma reconstructed_host req r hv :
  is_connect req = false → uri_host (rq_uri req) = None → starts_with "/" (uri_path (rq_uri req)) = true →
  rq_host req = Some hv → destination req = Ok r → uri_host (rq_uri r) = Some (authority_host (str_trim hv)).
Proof.
  intros Hc Hu Hp Hh. unfold destination, reconstruct_absolute_uri. rewrite Hc, Hu, Hh. cbn [ok_or].
  destruct (validate_authority_host _) as [[]|] eqn:Ev; [|done]. destruct (parse_uri _) as [u|] eqn:Ep; [|done]. intros [= <-].
  cbn. eapply parse_uri_law; [exact Ev| |exact Ep]. unfold path_and_query.
  apply starts_with_spec in Hp as [t ->]. rewrite append_assoc. apply starts_with_append.
Qed.

(** C22: A name on the deny list is not reached by a redirected connection.  A
    plain request whose [Host] header names it is answered, never forwarded; of
    a TLS connection whose ClientHello names it, however its bytes arrive, the
    proxy is sent the [CONNECT] and not one byte of the guest's. *)
Theorem blocked_name_not_reached p arrived local proxy_port guest up :
  answers_connect p up →
  (∀ req hv io r, is_connect req = false → uri_host (rq_uri req) = None →
     starts_with "/" (uri_path (rq_uri req)) = true → rq_host req = Some hv →
     is_blocked (authority_host (str_trim hv)) (blocked_domains p) = true → (route req io p).1.1 ≠ Forward r) ∧
  (∀ sni, decision guest = Some (Ok (Tls (Some sni))) → is_blocked sni (blocked_domains p) = true →
     ∃ why sent, handle_intake arrived local proxy_port guest (Some up) = Refused why sent ∧
       (sent = "" ∨ ∃ authority, tls_authority (Some sni) local proxy_port = Ok authority ∧ sent = connect_request authority)).
Proof.
  intros Hup. split.
  - intros req hv io r Hc Hu Hp Hh Hb Hr. apply route_forward in Hr as (Hd & Hun & _).
    specialize (Hun _ (reconstructed_host _ _ _ Hc Hu Hp Hh Hd)). congruence.
  - intros sni Hd Hb. rewrite (proj1 (intake_is_spec _ _ _ _ _)). unfold intake_spec. rewrite Hd.
    unfold tls_authority. destruct (validate_authority_host sni) as [[]|]; [|by eexists _, _; split; [|left]].
    set (a := sni +:+ _). cbn [authority_host]. assert (∀ down, synthesize_connect (up (Some a)) ≠ Some (Ok down)) as Hno.
    { intros down. pose proof (authority_host_port sni (connect_port local.2 proxy_port)) as Ha.
      destruct (route_request_blocked (connect_to a) IoOk p sni) as (res & Er & Hs); [exact (f_equal Some Ha)|done|].
      specialize (Hup a res). unfold route, reconstruct in Hup.
      change (is_connect (connect_to a)) with true in Hup. cbv iota beta in Hup. rewrite Er, Hs in Hup.
      apply (connect_status_refused 403); [right|..]; [done|done|]. by apply Hup. }
    destruct (synthesize_connect (up (Some a))) as [[down|[]]|] eqn:E; [by destruct (Hno down)| |];
      (eexists _, _; split; [done|]; right; by exists a).
Qed.

(** ** A recording replays *)

(** A request a cassette is asked about: named, not blocked, no double. *)
Definition plain (p : proxy) (req r : Request) : Prop :=
  is_connect req = false ∧ destination req = Ok r ∧ unblocked p r ∧ undoubled p r.

Lemma plain_rules p p' req r : same_rules p p' → plain p req r → plain p' req r.
Proof. intros [Hd Hb]. unfold plain, unblocked, undoubled. by rewrite Hd, Hb. Qed.

Lemma route_plain req r io p : plain p req r → route req io p = cassette_stage r (passed r io p).
Proof.
  intros (Hc & Hd & Hu & Hf). unfold route. rewrite reconstruct_destination, Hd, route_request_unblocked by done.
  by rewrite (destination_connect _ _ Hd), Hc, Hf.
Qed.

Lemma passed_spec r io p : same_rules p (passed r io p) ∧ cassette (passed r io p) = cassette p ∧
  (record_path p = None → record_path (passed r io p) = None ∧ fs (passed r io p) = fs p).
Proof.
  unfold passed. destruct (record_line_rules r io (logged (LogRequest (rq_method r) (display_uri (rq_uri r))) p)) as (H1 & H2 & H3).
  split_and!; [done..|]. intros Hr. by rewrite (H3 Hr).
Qed.

(** One exchange: a request and what the upstream answers if it is asked. *)
Record exchange := { ex_req : Request; ex_named : Request; ex_up : Response; ex_key : string; ex_body : string }.

Definition interaction (x : exchange) : RecordedInteraction :=
  {| ri_format := CASSETTE_FORMAT; ri_key := ex_key x; ri_status := rs_status (ex_up x);
     ri_headers := recorded_headers (rs_headers (ex_up x)); ri_body := body_from_bytes (ex_body x) |}.

(** What a cassette can hold. *)
Definition recordable (p : proxy) (o : CassetteOptions) (x : exchange) : Prop :=
  plain p (ex_req x) (ex_named x) ∧ interaction_key (rq_method (ex_named x)) (rq_uri (ex_named x)) o = Ok (ex_key x) ∧
  rs_body (ex_up x) = Some (ex_body x) ∧ (str_len (ex_body x) <= max_body_bytes o)%N ∧
  (100 <= rs_status (ex_up x) <= 999)%N ∧ forallb header_ok (recorded_headers (rs_headers (ex_up x))) = true ∧
  is_Some (to_json (interaction x)).

Definition exchanged (x : exchange) (p : proxy) : Response * proxy :=
  match route (ex_req x) IoOk p with
  | (Forward _, pending, p) => respond pending (ex_up x) IoOk p
  | (Answer res, _, p) => (res, p)
  end.

Definition record_run (l : list exchange) (p : proxy) : proxy := foldl (λ p x, (exchanged x p).2) p l.

Fixpoint replay_run (l : list Request) (p : proxy) : list RequestOrResponse * proxy :=
  match l with
  | [] => ([], p)
  | req :: l =>
      let '(r, _, p) := route req IoOk p in
      let '(rs, p) := replay_run l p in
      (r :: rs, p)
  end.

(** The response a replay gives for it. *)
Definition replayed (x : exchange) : Response :=
  {| rs_status := rs_status (ex_up x); rs_headers := (λ h, (h.1, Some h.2)) <$> recorded_headers (rs_headers (ex_up x));
     rs_body := Some (ex_body x) |}.

Lemma same_rules_refl p : same_rules p p.
Proof. done. Qed.

Lemma same_rules_trans p1 p2 p3 : same_rules p1 p2 → same_rules p2 p3 → same_rules p1 p3.
Proof. intros [H1 H2] [H3 H4]. split; congruence. Qed.

Lemma recordable_rules p p' o x : same_rules p p' → recordable p o x → recordable p' o x.
Proof. intros Hs (H1 & H). split; [by eapply plain_rules|done]. Qed.

(** Recording one exchange adds its line. *)
Lemma exchanged_records x o path p ls :
  recordable p o x → cassette p = Some (Record_ path o) → record_path p = None → fs p !! path = Some (render_lines ls) →
  ∃ line, to_json (interaction x) = Some line ∧
    let p' := (exchanged x p).2 in
    fs p' !! path = Some (render_lines (ls ++ [line])) ∧ cassette p' = Some (Record_ path o) ∧ record_path p' = None ∧ same_rules p p'.
Proof.
  intros (Hpl & Hk & Hb & Hcap & _ & _ & [line Hj]) Hc Hrp Hf. exists line. split; [done|]. cbn zeta.
  unfold exchanged. rewrite (route_plain _ _ _ _ Hpl). destruct Hpl as (Hcon & Hd & _).
  destruct (passed_spec (ex_named x) IoOk p) as (Hrules & Hcas & Hrec). destruct (Hrec Hrp) as [Hrp' Hfs].
  unfold cassette_stage. rewrite (destination_connect _ _ Hd), Hcon, Hcas, Hc. cbn [options is_replaying negb]. rewrite Hk.
  cbn [respond]. unfold record_response. rewrite Hcas, Hc, Hb. cbn [options append]. apply N.ltb_ge in Hcap as ->.
  rewrite Hfs. unfold append_line. fold (interaction x). rewrite Hj, Hf. cbn.
  rewrite lookup_insert, decide_True, render_lines_snoc by done.
  split; [done|]. split; [by rewrite Hcas|]. split; [done|exact Hrules].
Qed.

Lemma record_run_file l o path : ∀ p ls es,
  Forall (recordable p o) l → cassette p = Some (Record_ path o) → record_path p = None →
  fs p !! path = Some (render_lines ls) → Forall2 is_entry ls es →
  ∃ ls', fs (record_run l p) !! path = Some (render_lines ls') ∧ Forall2 is_entry ls' (es ++ (interaction <$> l)).
Proof.
  unfold record_run. induction l as [|x l IH]; intros p ls es Hl Hc Hrp Hf Hes; [exists ls; by rewrite app_nil_r|].
  inversion_clear Hl as [|? ? Hx Hl']. destruct (exchanged_records x o path p ls Hx Hc Hrp Hf) as (line & Hj & Hf' & Hc' & Hrp' & Hr).
  destruct (IH (exchanged x p).2 (ls ++ [line]) (es ++ [interaction x])) as (ls' & H1 & H2); [|done..| |].
  - eapply Forall_impl; [exact Hl'|]. intros y. by apply recordable_rules.
  - apply Forall2_app; [done|]. by repeat constructor.
  - exists ls'. cbn [foldl fmap list_fmap]. rewrite <- app_assoc in H2. done.
Qed.

(** Serving the keys of the entries in their order gives the entries. *)
Lemma serve_spec_ext es ks : ∀ c c', (∀ k, c k = c' k) → serve_spec c es ks = serve_spec c' es ks.
Proof.
  induction ks as [|k ks IH]; intros c c' H; [done|]. cbn [serve_spec]. rewrite <- H. f_equal. apply IH. intros k'.
  destruct (under k es !! c k); [|done]. unfold bump. by rewrite H.
Qed.

Lemma serve_spec_all es : ∀ pre,
  serve_spec (λ k, length (under k pre)) (pre ++ es) (ri_key <$> es) = Ok <$> es.
Proof.
  induction es as [|e es IH]; intros pre; [done|]. rewrite !fmap_cons. cbn [serve_spec].
  assert (under (ri_key e) (pre ++ e :: es) !! length (under (ri_key e) pre) = Some e) as E.
  { unfold under. rewrite filter_app, filter_cons, decide_True by done. by apply list_lookup_middle. }
  rewrite E. f_equal. rewrite cons_middle, app_assoc, <- (IH (pre ++ [e])). apply serve_spec_ext. intros k. unfold bump, under.
  rewrite filter_app, length_app, filter_cons. case_decide as Hk; case_decide as Hk'; cbn; try congruence; lia.
Qed.

Lemma replay_run_serve l o path : ∀ p es ms,
  Forall (λ x, recordable p o x) l → cassette p = Some (Replay path o es ms) →
  (serve (ex_key <$> l) (Replay path o es ms)).1 = Ok <$> (interaction <$> l) →
  (replay_run (ex_req <$> l) p).1 = (λ x, Answer (replayed x)) <$> l.
Proof.
  induction l as [|x l IH]; intros p es ms Hl Hc Hs; [done|]. inversion_clear Hl as [|? ? Hx Hl'].
  destruct Hx as (Hpl & Hk & Hb & Hcap & Hst & Hho & _). rewrite !fmap_cons in *. cbn [replay_run serve] in *.
  rewrite (route_plain _ _ _ _ Hpl). destruct Hpl as (Hcon & Hd & _).
  destruct (passed_spec (ex_named x) IoOk p) as (Hrules & Hcas & _).
  unfold cassette_stage. rewrite (destination_connect _ _ Hd), Hcon, Hcas, Hc. cbn [options is_replaying negb]. rewrite Hk.
  destruct (take_hit (ex_key x) (Replay path o es ms)) as [r c'] eqn:Et.
  assert (∃ es' ms', c' = Replay path o es' ms') as (es' & ms' & ->).
  { cbn [take_hit] in Et. destruct (take_entry _ _) as [[i es']|]; injection Et as _ <-; by eexists _, _. }
  destruct (serve (ex_key <$> l) (Replay path o es' ms')) as [rs c2] eqn:Er. cbn [fst] in Hs. injection Hs as -> Hrs.
  assert (replay_response (interaction x) = Ok (replayed x)) as ->.
  { unfold replay_response, interaction, replayed. cbn [ri_body ri_status ri_headers]. rewrite body_roundtrip, Hho.
    destruct Hst as [H1 H2]. by apply N.leb_le in H1 as ->, H2 as ->. }
  match goal with |- context [replay_run (ex_req <$> l) ?q] => pose proof (IH q es' ms') as H; destruct (replay_run _ q) as [rest p'] end.
  cbn [fst] in *. f_equal. apply H; [|done|by rewrite Er].
  eapply Forall_impl; [exact Hl'|]. intros y. apply recordable_rules. exact Hrules.
Qed.

(** C26: What was recorded is what is replayed.  Record any sequence of exchanges
    that a cassette can hold, then load the file: it loads, and a guest that
    makes the same requests in the same order is given for each the status, the
    body and the recorded headers of the response it got, without one request
    leaving, as often as it repeats a key and whatever the bodies are. *)
Theorem recording_replays l o path p :
  l ≠ [] → Forall (recordable p o) l →
  cassette p = Some (Record_ path o) → record_path p = None → fs p !! path = Some "" →
  ∃ c, open_replay path o IoOk (fs (record_run l p)) = Ok c ∧
    ∀ p', same_rules p p' → cassette p' = Some c → (replay_run (ex_req <$> l) p').1 = (λ x, Answer (replayed x)) <$> l.
Proof.
  intros Hne Hl Hc Hrp Hf. destruct (record_run_file l o path p [] [] Hl Hc Hrp Hf ltac:(constructor)) as (ls & Hfile & Hes).
  rewrite app_nil_l in Hes. unfold open_replay. rewrite Hfile, (parse_cassette_entries _ _ Hes).
  rewrite decide_False by (by destruct l). eexists. split; [done|]. intros p' Hr Hc'.
  eapply (replay_run_serve l o path p'); [|exact Hc'|].
  - eapply Forall_impl; [exact Hl|]. intros x. by apply recordable_rules.
  - rewrite <- mark_0, serve_mark. pose proof (serve_spec_all (interaction <$> l) []) as H.
    by rewrite <- list_fmap_compose in H.
Qed.
End facts.

(** ** The parameters can be met *)

Definition example_parse (s : string) : option Uri :=
  rest ← strip_prefix "http://" s;
  '(authority, path) ← split_once "/" rest;
  Some {| uri_scheme := Some "http"; uri_host := Some (authority_host authority);
          uri_port := '(_, p) ← rsplit_once ":" authority; parse_uint u16_max p; uri_path := "/" +:+ path; uri_query := None |}.

Program Definition example_http : Http :=
  {| parse_uri := example_parse; display_uri := λ u, default "" (uri_host u) +:+ uri_path u; header_ok := λ _, true |}.
Next Obligation.
  intros host path u Hv [t ->]%starts_with_spec H. unfold example_parse in H.
  rewrite (proj2 (strip_prefix_spec "http://" _ (host +:+ "/" +:+ t))) in H by done. cbn [mbind option_bind] in H.
  assert ("/"%char ∉ bytes host) as Hs.
  { apply validate_authority_chars in Hv. rewrite Forall_forall in Hv. intros Hin. by apply Hv in Hin. }
  change (host +:+ "/" +:+ t) with (host +:+ String "/" t) in H. rewrite split_once_append in H by done.
  by injection H as <-.
Qed.

Definition interaction_tuple (i : RecordedInteraction) :=
  (ri_format i, ri_key i, ri_status i, ri_headers i, match ri_body i with Text s => (true, s) | Hex s => (false, s) end).

#[local] Instance body_eq_dec : EqDecision RecordedBody.
Proof. solve_decision. Defined.
#[local] Instance interaction_eq_dec : EqDecision RecordedInteraction.
Proof. solve_decision. Defined.
#[local] Instance interaction_countable : Countable RecordedInteraction.
Proof.
  refine (inj_countable' interaction_tuple (λ '(f, k, s, h, b),
    {| ri_format := f; ri_key := k; ri_status := s; ri_headers := h; ri_body := (if b.1 : bool then Text b.2 else Hex b.2) |}) _).
  intros [f k s h []]; done.
Defined.

(** A line that is a number. *)
Definition json_max : N := 2 ^ 8000.

Program Definition example_serde : Serde :=
  {| to_json := λ i, let n := Npos (encode i) in if (n <=? json_max)%N then Some (pretty n) else None;
     from_json := λ l, n ← parse_uint json_max l; match n with Npos c => decode c | N0 => None end |}.
Next Obligation.
  intros i l H. cbv beta zeta in H. case_match eqn:Hle; [|done]. injection H as <-.
  rewrite parse_pretty by (by apply N.leb_le). cbn [mbind option_bind]. rewrite decode_encode. split_and!; [done|..].
  - split; [by apply pretty_no_char|]. destruct (strip_suffix _ _) as [r|] eqn:E; [|done]. exfalso.
    apply strip_suffix_spec in E. apply (pretty_no_char (ascii_of_N 13) (Npos (encode i)) eq_refl). rewrite E, bytes_append.
    apply elem_of_app. right. cbn. set_solver.
  - rewrite str_trim_pretty. apply pretty_nonempty.
Qed.

(** ** Runs *)

Definition origin (path : string) : Uri :=
  {| uri_scheme := None; uri_host := None; uri_port := None; uri_path := path; uri_query := None |}.

Definition example_request (path : string) : Request :=
  {| rq_method := "GET"; rq_uri := origin path; rq_host := Some "api.example.com:8080"; rq_rest := "" |}.

Definition example_named (path : string) : Request :=
  with_uri {| uri_scheme := Some "http"; uri_host := Some "api.example.com"; uri_port := Some 8080%N;
              uri_path := path; uri_query := None |} (example_request path).

Definition example_exchange (body : string) : exchange :=
  {| ex_req := example_request "/v1"; ex_named := example_named "/v1";
     ex_up := {| rs_status := 200; rs_headers := [("content-type", Some "text/plain"); ("set-cookie", Some "s")];
                 rs_body := Some body |};
     ex_key := "GET http://api.example.com:8080/v1"; ex_body := body |}.

Definition example_proxy (c : option CassetteState) : proxy :=
  {| doubles := []; blocked_domains := ["blocked.example"]; requests := []; record_path := None; cassette := c;
     fs := {["tape" := ""]} |}.

Lemma example_recordable c b :
  (str_len b <= max_body_bytes default_options)%N → is_Some (@to_json example_serde (interaction (example_exchange b))) →
  @recordable example_http example_serde (example_proxy c) default_options (example_exchange b).
Proof.
  intros Hb Hj. split; [split_and!; [done|vm_compute; reflexivity|by intros ? [= <-]|done]|].
  split; [vm_compute; reflexivity|]. split_and!; [done|done| | |done|done]; apply N.leb_le; reflexivity.
Qed.

Lemma recording_replays_witness :
  let _ := example_http in let _ := example_serde in
  let l := example_exchange <$> ["one"; utf8 [255; 0]%N; "one"] in
  ∃ c, open_replay "tape" default_options IoOk (fs (record_run l (example_proxy (Some (Record_ "tape" default_options))))) = Ok c ∧
    (replay_run (ex_req <$> l) (example_proxy (Some c))).1 = (λ x, Answer (replayed x)) <$> l.
Proof.
  intros HT SJ l.
  destruct (@recording_replays HT SJ l default_options "tape" (example_proxy (Some (Record_ "tape" default_options))))
    as (c & Hc & Hr).
  - discriminate.
  - repeat (apply Forall_cons_2; [apply example_recordable; [apply N.leb_le; vm_compute; reflexivity|vm_compute; by eexists]|]).
    apply Forall_nil_2.
  - reflexivity.
  - reflexivity.
  - vm_compute. reflexivity.
  - exists c. split; [exact Hc|]. apply Hr; [split; reflexivity|reflexivity].
Defined.

Definition example_up (a : option string) : peer :=
  {| sends := match a with Some _ => "HTTP/1.1 403 Forbidden" +:+ crlf +:+ crlf | None => "" end; then_ := Eof |}.

Lemma blocked_name_not_reached_witness :
  let _ := example_http in
  let p := {| doubles := []; blocked_domains := ["example"]; requests := []; record_path := None; cassette := None; fs := ∅ |} in
  let guest := {| sends := tls_record (example_hello "Blocked.EXAMPLE."); then_ := Stalls |} in
  ∃ why sent, handle_intake (λ _, 1) (10, 200, 1, 1, 3128)%N 3128 guest (Some example_up) = Refused why sent.
Proof.
  intros HT p guest.
  destruct (@blocked_name_not_reached HT p (λ _, 1) (10, 200, 1, 1, 3128)%N 3128 guest example_up) as [_ H].
  - intros a res. unfold route, reconstruct. change (is_connect (connect_to a)) with true. cbv iota beta.
    destruct (blocked_or_not p (connect_to a)) as [Hu|(h & Hh & Hb)].
    + rewrite route_request_unblocked by done. by intros.
    + destruct (route_request_blocked (connect_to a) IoOk p h Hh Hb) as (r & -> & Hs). intros [= <-] _. by rewrite Hs.
  - destruct (H "Blocked.EXAMPLE.") as (why & sent & E & _); [vm_compute; reflexivity|vm_compute; reflexivity|].
    by exists why, sent.
Defined.
