(* ===== verification/UserNet.v ===== *)
(** * The user-mode network

    Models [crates/vmcell/src/net/smoltcp.rs], the NAT a VM without a tap device
    gets: a vhost-user-net backend moves Ethernet frames between the guest's rings
    and two queues ([process_tx_queue], the delivery half of [run_network]), and a
    loop polls a TCP stack over those queues and splices each guest connection
    onto a host connection ([run_network]).

    The TCP stack is [smoltcp]'s and is a parameter ([Stack], with what its
    documentation says in [StackLaws]); so are guest memory and the rings, which
    are read at the moment of a pass, and the host side of a connection.  A host
    stream is an identity; what the loop does with it is the list of [act]s.  A
    panic of the loop's thread is [None]. *)

From S2P Require Import Prelude NetAddr.

Definition frame : Type := list N.
Definition len {A} (l : list A) : N := N.of_nat (length l).

Definition QUEUE_SIZE : N := 1024.
Definition VIRTIO_NET_HDR_SIZE : N := 12.
Definition MAX_FRAME_LEN : N := VIRTIO_NET_HDR_SIZE + 1500.
Definition MAX_TX_QUEUE_FRAMES : N := 4 * QUEUE_SIZE.
Definition TX_DROP_REPORT_EVERY : N := MAX_TX_QUEUE_FRAMES.
Definition HOST_NAT_MAC : list N := [0x02; 0x00; 0xff; 0x00; 0x00; 0xfe]%N.
Definition MAX_DYNAMIC_SOCKETS : N := 256.
Definition SYN_BURST : nat := 4.
Definition FORWARD_PORT_POOL : nat := 16.

Inductive io_error := WouldBlock | IoFailed.

Definition host_read_budget (send_capacity send_queue buf_len : N) : N :=
  N.min (send_capacity - send_queue) buf_len.

Definition drain_to_host (contiguous : frame) (write : frame → result io_error N) : N * result io_error N :=
  match contiguous with
  | [] => (0%N, Ok 0%N)
  | _ =>
      let res := write contiguous in
      (match res with Ok written => N.min written (len contiguous) | Err _ => 0%N end, res)
  end.

Definition bounded_tx_read (desc_len accumulated : N) : option N :=
  if (MAX_FRAME_LEN <? accumulated)%N then None else
  let remaining := (MAX_FRAME_LEN - accumulated)%N in
  if (remaining <? desc_len)%N then None else Some desc_len.

(** Whether the frame was queued, and the queue. *)
Definition push_tx_frame (tx_queue : list frame) (payload : frame) : bool * list frame :=
  if (MAX_TX_QUEUE_FRAMES <=? len tx_queue)%N then (false, tx_queue) else (true, tx_queue ++ [payload]).

Definition tx_drop_is_reportable (total : N) : bool :=
  (total =? 1)%N || (total mod TX_DROP_REPORT_EVERY =? 0)%N.

Definition nat_addrs (vmid : N) : result net_error (Ipv4Addr * Ipv4Addr) :=
  let? (host_gw, guest_ip, _) := ip_math vmid in Ok (host_gw, guest_ip).

Definition rx_used_len (offset frame_len : N) (write_failed : bool) : option N :=
  if write_failed || (offset <? frame_len)%N then None else Some frame_len.

(** ** The device *)

(** Guest memory: what a read of a range returns, and whether a write of one
    succeeds. *)
Record guest_mem := {
  read_slice : N → N → option frame;
  write_ok : N → frame → bool;
}.

Record descriptor := { d_addr : N; d_len : N }.
Record chain := { head_index : N; readable : list descriptor; writable : list descriptor }.

(** A ring at the moment of a pass: the chains the guest made available ([None]
    when [virtio-queue] refuses the ring) and which used entries it takes. *)
Record vring := { avail : option (list chain); add_used_ok : N → bool }.

Record SharedState := {
  tx_queue : list frame;             (** guest to host *)
  rx_queue : list frame;             (** host to guest *)
  mem : option guest_mem;
  vrings : option (list N);          (** which rings were latched *)
}.

Definition with_tx (q : list frame) (st : SharedState) : SharedState :=
  {| tx_queue := q; rx_queue := rx_queue st; mem := mem st; vrings := vrings st |}.
Definition with_rx (q : list frame) (st : SharedState) : SharedState :=
  {| tx_queue := tx_queue st; rx_queue := q; mem := mem st; vrings := vrings st |}.

Definition SharedState_new : SharedState := {| tx_queue := []; rx_queue := []; mem := None; vrings := None |}.

Definition reset_device_state (st : SharedState) : SharedState :=
  {| tx_queue := []; rx_queue := []; mem := None; vrings := None |}.

Definition update_memory (m : guest_mem) (st : SharedState) : SharedState :=
  {| tx_queue := tx_queue st; rx_queue := rx_queue st; mem := Some m; vrings := vrings st |}.

(** [handle_event] keeps the first rings it is shown. *)
Definition latch (rings : list N) (st : SharedState) : SharedState :=
  match vrings st with
  | Some _ => st
  | None => {| tx_queue := tx_queue st; rx_queue := rx_queue st; mem := mem st; vrings := Some rings |}
  end.

(** *** Guest to host *)

Inductive TxPass := Drained | Unreadable.

Inductive frame_drop := Oversized | ReadFailed.

Fixpoint read_chain (m : guest_mem) (descs : list descriptor) (packet : frame) : result frame_drop frame :=
  match descs with
  | [] => Ok packet
  | desc :: descs =>
      match bounded_tx_read (d_len desc) (len packet) with
      | None => Err Oversized
      | Some n =>
          match read_slice m (d_addr desc) n with
          | None => Err ReadFailed
          | Some buf => read_chain m descs (packet ++ buf)
          end
      end
  end.

(** The queue, the frames dropped so far and the totals that were logged. *)
Record tx_progress := { t_queue : list frame; t_drops : N; t_reports : list N }.

Definition tx_chain (m : guest_mem) (p : tx_progress) (c : chain) : tx_progress :=
  match read_chain m (readable c) [] with
  | Err _ => p
  | Ok packet =>
      if (len packet <? VIRTIO_NET_HDR_SIZE)%N then p else
      match push_tx_frame (t_queue p) (drop (N.to_nat VIRTIO_NET_HDR_SIZE) packet) with
      | (true, q) => {| t_queue := q; t_drops := t_drops p; t_reports := t_reports p |}
      | (false, q) =>
          let total := wrap64 (t_drops p + 1) in
          {| t_queue := q; t_drops := total;
             t_reports := t_reports p ++ if tx_drop_is_reportable total then [total] else [] |}
      end
  end.

(** The verdict, the state, the drop count, the logged totals and the used
    entries returned to the guest. *)
Definition process_tx_queue (st : SharedState) (ring : vring) (tx_drops : N) :
    TxPass * SharedState * N * list N * list (N * N) :=
  match mem st, avail ring with
  | Some m, Some chains =>
      let p := foldl (tx_chain m) {| t_queue := tx_queue st; t_drops := tx_drops; t_reports := [] |} chains in
      (Drained, with_tx (t_queue p) st, t_drops p, t_reports p, map (λ c, (head_index c, 0%N)) chains)
  | _, _ => (Unreadable, st, tx_drops, [], [])
  end.

Inductive event_error := NotEpollIn | TransmitqMissing.

(** The passes of one kick: each the ring it finds and what re-arming answers.
    [None] when the guest still supplies chains after the last of them. *)
Fixpoint tx_passes (event_idx : bool) (st : SharedState) (tx_drops : N)
    (passes : list (vring * result unit bool)) : option (SharedState * N) :=
  match passes with
  | [] => None
  | (ring, rearmed) :: passes =>
      let '(pass, st, tx_drops, _, _) := process_tx_queue st ring tx_drops in
      let more := match rearmed with Ok more => more | Err _ => false end in
      let keep_polling := match pass with
                          | Unreadable => false
                          | Drained => if negb event_idx then false else more
                          end in
      if keep_polling then tx_passes event_idx st tx_drops passes else Some (st, tx_drops)
  end.

Definition handle_event (event_idx : bool) (device_event : N) (evset_in : bool) (rings : list N)
    (st : SharedState) (tx_drops : N) (passes : list (vring * result unit bool)) :
    option (result event_error (SharedState * N)) :=
  if negb evset_in then Some (Err NotEpollIn) else
  let st := latch rings st in
  if (device_event =? 1)%N then
    match rings !! 1 with
    | None => Some (Err TransmitqMissing)
    | Some _ => Ok <$> tx_passes event_idx st tx_drops passes
    end
  else Some (Ok (st, tx_drops)).

(** *** Host to guest *)

(** How far the frame got, whether a write failed, and the writes. *)
Fixpoint write_chain (m : guest_mem) (full_packet : frame) (offset : N) (descs : list descriptor) :
    N * bool * list (N * frame) :=
  match descs with
  | [] => (offset, false, [])
  | desc :: descs =>
      let to_write := N.min (len full_packet - offset) (d_len desc) in
      if (0 <? to_write)%N then
        let chunk := take (N.to_nat to_write) (drop (N.to_nat offset) full_packet) in
        if write_ok m (d_addr desc) chunk then
          let '(o, failed, writes) := write_chain m full_packet (offset + to_write) descs in
          (o, failed, (d_addr desc, chunk) :: writes)
        else (offset, true, [])
      else write_chain m full_packet offset descs
  end.

Definition virtio_frame (packet : frame) : frame := replicate (N.to_nat VIRTIO_NET_HDR_SIZE) 0%N ++ packet.

(** One frame into one chain: the used entry and the writes. *)
Definition deliver_one (m : guest_mem) (packet : frame) (c : chain) : N * N * list (N * frame) :=
  let full_packet := virtio_frame packet in
  let '(offset, write_failed, writes) := write_chain m full_packet 0 (writable c) in
  (head_index c, default 0%N (rx_used_len offset (len full_packet) write_failed), writes).

(** What stays queued, and what the chains got. *)
Fixpoint deliver (m : guest_mem) (rx : list frame) (chains : list chain) :
    list frame * list (N * N * list (N * frame)) :=
  match rx, chains with
  | packet :: rx, c :: chains =>
      let '(rest, used) := deliver m rx chains in (rest, deliver_one m packet c :: used)
  | rx, _ => (rx, [])
  end.

(** The receiveq half of a tick: the state, the used entries and whether the
    guest is signalled. *)
Definition process_rx_queue (st : SharedState) (ring : vring) :
    SharedState * list (N * N * list (N * frame)) * bool :=
  match mem st, vrings st with
  | Some m, Some (_ :: _) =>
      match avail ring with
      | Some chains =>
          let '(rest, used) := deliver m (rx_queue st) chains in
          (with_rx rest st, used, existsb (λ u, add_used_ok ring u.1.1) used)
      | None => (st, [], false)
      end
  | _, _ => (st, [], false)
  end.

(** *** Connections *)

(** The backend across connections: the device, the exit-event pair reserved for
    the next daemon and the signals of the shared exit event nobody has read. *)
Record backend := { device : SharedState; exit_evt : bool; exit_signals : N }.

Definition with_device (st : SharedState) (b : backend) : backend :=
  {| device := st; exit_evt := exit_evt b; exit_signals := exit_signals b |}.

(** [arm_exit_event], where the two descriptors can be cloned. *)
Definition arm_exit_event (clone_ok : bool) (b : backend) : option backend :=
  if clone_ok then Some {| device := device b; exit_evt := true; exit_signals := exit_signals b |} else None.

(** Whether the framework gets an exit event, which takes the reserved pair. *)
Definition exit_event (clone_ok : bool) (b : backend) : bool * backend :=
  if exit_evt b then (true, {| device := device b; exit_evt := false; exit_signals := exit_signals b |})
  else (clone_ok, b).

Definition drain_exit_event (b : backend) : backend :=
  {| device := device b; exit_evt := exit_evt b; exit_signals := 0 |}.

(** What one turn of the serving loop meets: whether the stop flag is set, the
    socket can be bound, descriptors can be cloned (before and while the daemon
    is built), the daemon be built and started; the frames the network loop
    queues for the guest before the connection starts; what the connection
    makes of the device and how often its teardown signals the exit event. *)
Record turn := {
  stopping : bool;
  bind_ok : bool;
  clone_ok : bool;
  late_clone_ok : bool;
  daemon_ok : bool;
  daemon_starts : bool;
  queued : list frame;
  connection : SharedState → SharedState;
  signals : N;
}.

Inductive serving := Stopped | NoListener | NotArmed | NoDaemon | NotUp | StillServing.

(** How the loop ends, the backend, and what each connection that came up
    started from: whether it has an exit event, and the backend. *)
Fixpoint serve_vhost_connections (pending : bool) (turns : list turn) (b : backend) :
    serving * backend * list (bool * backend) :=
  match turns with
  | [] => (StillServing, b, [])
  | t :: turns =>
      if stopping t then (Stopped, b, []) else
      if negb (pending || bind_ok t) then (NoListener, b, []) else
      match arm_exit_event (clone_ok t) b with
      | None => (NotArmed, b, [])
      | Some b =>
          if negb (daemon_ok t) then (NoDaemon, b, []) else
          let '(has_exit, b) := exit_event (late_clone_ok t) b in
          if negb (daemon_starts t) then (NotUp, b, []) else
          let b := with_device (with_rx (rx_queue (device b) ++ queued t) (device b)) b in
          let after := {| device := connection t (device b); exit_evt := exit_evt b;
                          exit_signals := exit_signals b + signals t |} in
          let after := drain_exit_event after in
          let after := with_device (reset_device_state (device after)) after in
          let '(e, final, started) := serve_vhost_connections false turns after in
          (e, final, (has_exit, b) :: started)
      end
  end.

(** ** The TCP stack *)

(** [IpListenEndpoint]; no address means any. *)
Record endpoint := { ep_addr : option Ipv4Addr; ep_port : N }.

(** [smoltcp]: TCP sockets, the socket set's choice of a handle, the poll of an
    interface at a time (sockets and the frames received; the sockets after it,
    how many frames it took and the frames it sent) and the wire views.  A
    socket's [recv] runs its closure on [recv_run] and consumes what the closure
    says with [dequeue]. *)
Class Stack := {
  socket : Type;
  new_socket : socket;
  is_open : socket → bool;
  is_listening : socket → bool;
  can_send : socket → bool;
  can_recv : socket → bool;
  send_capacity : socket → N;
  send_queue : socket → N;
  listen : socket → endpoint → socket;
  close : socket → socket;
  send_slice : socket → frame → result unit N * socket;
  recv_run : socket → result unit frame;
  dequeue : socket → N → socket;
  fresh_handle : gmap N socket → N;
  poll : N → gmap N socket → list frame → gmap N socket * nat * list frame;
  ethernet : frame → option (N * frame);
  ipv4 : frame → option (N * frame);
  tcp : frame → option (N * bool * bool);
}.

(** What [smoltcp] documents of them.  [inbound] and [outbound] are the octets
    received and not yet read, and enqueued and not yet acknowledged;
    [listens_on] is the endpoint a socket was told to listen on. *)
Class StackLaws (TS : Stack) := {
  inbound : socket → frame;
  outbound : socket → frame;
  listens_on : socket → option endpoint;
  fresh_handle_new m : m !! fresh_handle m = None;
  poll_dom now m q : dom (poll now m q).1.1 = dom m;
  poll_mtu now m q : Forall (λ f, len f <= 1500)%N (poll now m q).2;
  poll_endpoint now m q h s s' : m !! h = Some s → (poll now m q).1.1 !! h = Some s' →
    listens_on s' = listens_on s ∨ listens_on s' = None;
  new_closed : is_open new_socket = false ∧ listens_on new_socket = None;
  listening_endpoint s : is_listening s = true → is_Some (listens_on s);
  listening_open s : is_listening s = true → is_open s = true;
  listening_idle s : is_listening s = true → can_send s = false ∧ can_recv s = false;
  listen_accepts s ep : is_open s = false → ep_port ep ≠ 0%N →
    is_listening (listen s ep) = true ∧ listens_on (listen s ep) = Some ep;
  listen_unaddressable s ep : ep_port ep = 0%N → listen s ep = s;
  send_room s : can_send s = true → (send_queue s < send_capacity s)%N;
  send_enqueues s data : can_send s = true → (len data <= send_capacity s - send_queue s)%N →
    ∃ s', send_slice s data = (Ok (len data), s') ∧ outbound s' = outbound s ++ data ∧
      inbound s' = inbound s ∧ can_recv s' = can_recv s ∧ listens_on s' = listens_on s;
  recv_offers s : can_recv s = true →
    ∃ run rest, recv_run s = Ok run ∧ run ≠ [] ∧ inbound s = run ++ rest;
  dequeue_drops s n : can_recv s = true →
    inbound (dequeue s n) = drop (N.to_nat n) (inbound s) ∧ outbound (dequeue s n) = outbound s ∧
    listens_on (dequeue s n) = listens_on s ∧ is_open (dequeue s n) = is_open s ∧
    can_recv (dequeue s n) = bool_decide (drop (N.to_nat n) (inbound s) ≠ []);
  close_transmit_half s : can_recv s = true →
    can_recv (close s) = true ∧ inbound (close s) = inbound s ∧ (is_open s = true → is_open (close s) = true);
  close_stops_sending s : can_send (close s) = false;
  close_endpoint s : listens_on (close s) = listens_on s ∨ listens_on (close s) = None;
}.

Section user_net.
Context `{TS : Stack}.

(** [EthernetProtocol::Ipv4] and [IpProtocol::Tcp]. *)
Definition ETHERTYPE_IPV4 : N := 0x0800.
Definition IP_PROTOCOL_TCP : N := 6.

(** The destination port of a frame that opens a TCP connection. *)
Definition syn_port (packet : frame) : option N :=
  '(ethertype, payload) ← ethernet packet;
  if negb (ethertype =? ETHERTYPE_IPV4)%N then None else
  '(next_header, payload) ← ipv4 payload;
  if negb (next_header =? IP_PROTOCOL_TCP)%N then None else
  '(dst_port, syn, ack) ← tcp payload;
  if syn && negb ack then Some dst_port else None.

(** ** Mappings *)

Record NatPortMapping := {
  listen_port : N;
  target_port : N;
  handle : N;
  host_stream : option N;
}.

Definition with_stream (st : option N) (m : NatPortMapping) : NatPortMapping :=
  {| listen_port := listen_port m; target_port := target_port m; handle := handle m; host_stream := st |}.

Inductive NatEgressPolicy := Allow | Deny.

(** What the loop does to the host. *)
Inductive act :=
  | Dial (port : N) (got : option N)
  | ToHost (stream : N) (data : frame)
  | ToGuest (stream : N) (data : frame)
  | ShutDown (stream : N)
  | Drop (stream : N).

(** The host's answers at the moment a mapping is served. *)
Record host := {
  dial : N → option N;
  try_read : N → N → result io_error frame;
  try_write : N → frame → result io_error N;
}.

Inductive HostDialRefusal := Policy | Failed.

Definition dial_host_target (egress : NatEgressPolicy) (target : N) (h : host) : result HostDialRefusal N :=
  match egress with
  | Deny => Err Policy
  | Allow => ok_or (dial h target) Failed
  end.

Definition take_and_shutdown_stream (stream : option N) : bool * list act :=
  match stream with Some s => (true, [ShutDown s]) | None => (false, []) end.

Definition nat_forward_endpoint (host_gw : Ipv4Addr) (port : N) : endpoint :=
  {| ep_addr := Some host_gw; ep_port := port |}.

(** Whether the mapping is to be skipped, the socket, the stream. *)
Definition rearm_or_release_closed (s : socket) (ep : endpoint) (stream : option N) (is_permanent : bool) :
    bool * socket * option N * list act :=
  let '(_, acts) := take_and_shutdown_stream stream in
  if is_permanent then (false, listen s ep, None, acts) else (true, s, None, acts).

(** *** The dynamic pool *)

(** The handles of the closed dynamic mappings, whose streams are shut down. *)
Fixpoint reclaimable (sockets : gmap N socket) (permanent_count idx : nat) (ms : list NatPortMapping) :
    option (list N * list act) :=
  match ms with
  | [] => Some ([], [])
  | m :: ms =>
      if decide (idx < permanent_count) then reclaimable sockets permanent_count (S idx) ms else
      s ← sockets !! handle m;
      '(reclaimed, acts) ← reclaimable sockets permanent_count (S idx) ms;
      if is_open s then Some (reclaimed, acts)
      else Some (handle m :: reclaimed, (take_and_shutdown_stream (host_stream m)).2 ++ acts)
  end.

Fixpoint remove_all (sockets : gmap N socket) (handles : list N) : option (gmap N socket) :=
  match handles with
  | [] => Some sockets
  | h :: handles => _ ← sockets !! h; remove_all (delete h sockets) handles
  end.

Definition reclaim_and_has_room (sockets : gmap N socket) (ms : list NatPortMapping)
    (permanent_count additional : nat) : option (bool * gmap N socket * list NatPortMapping * list act) :=
  '(reclaimed, acts) ← reclaimable sockets permanent_count 0 ms;
  let ms := filter (λ m, handle m ∉ reclaimed) ms in
  sockets ← remove_all sockets reclaimed;
  let dynamic_count := N.of_nat (length ms - permanent_count) in
  Some ((dynamic_count + N.of_nat additional <=? MAX_DYNAMIC_SOCKETS)%N, sockets, ms, acts).

Fixpoint served_from (sockets : gmap N socket) (permanent_count idx : nat) (ms : list NatPortMapping)
    (dst_port : N) : option bool :=
  match ms with
  | [] => Some false
  | m :: ms =>
      let next := served_from sockets permanent_count (S idx) ms dst_port in
      if negb (listen_port m =? dst_port)%N then next else
      if decide (idx < permanent_count) then Some true else
      s ← sockets !! handle m; if is_listening s then Some true else next
  end.

Definition syn_already_served (sockets : gmap N socket) (ms : list NatPortMapping)
    (permanent_count : nat) (dst_port : N) : option bool :=
  served_from sockets permanent_count 0 ms dst_port.

(** [n] more mappings, each of its own socket [s]. *)
Fixpoint add_mappings (n : nat) (s : socket) (listen target : N) (sockets : gmap N socket)
    (ms : list NatPortMapping) : gmap N socket * list NatPortMapping :=
  match n with
  | O => (sockets, ms)
  | S n =>
      let h := fresh_handle sockets in
      add_mappings n s listen target (<[h := s]> sockets)
        (ms ++ [{| listen_port := listen; target_port := target; handle := h; host_stream := None |}])
  end.

Definition admit_syn (sockets : gmap N socket) (ms : list NatPortMapping) (permanent_count : nat)
    (dst_port pxy_port : N) (burst : nat) : option (gmap N socket * list NatPortMapping * list act) :=
  served ← syn_already_served sockets ms permanent_count dst_port;
  if served : bool then Some (sockets, ms, []) else
  '(room, sockets, ms, acts) ← reclaim_and_has_room sockets ms permanent_count burst;
  if negb room then Some (sockets, ms, acts) else
  let s := listen new_socket {| ep_addr := None; ep_port := dst_port |} in
  let '(sockets, ms) := add_mappings burst s dst_port pxy_port sockets ms in
  Some (sockets, ms, acts).

Fixpoint scan_syns (sockets : gmap N socket) (ms : list NatPortMapping) (permanent_count : nat)
    (pxy_port : N) (packets : list frame) : option (gmap N socket * list NatPortMapping * list act) :=
  match packets with
  | [] => Some (sockets, ms, [])
  | packet :: packets =>
      '(sockets, ms, acts) ←
        match syn_port packet with
        | Some dst_port => admit_syn sockets ms permanent_count dst_port pxy_port SYN_BURST
        | None => Some (sockets, ms, [])
        end;
      '(sockets, ms, more) ← scan_syns sockets ms permanent_count pxy_port packets;
      Some (sockets, ms, acts ++ more)
  end.

(** *** Serving a mapping *)

(** Host to guest: whether the connection is to be closed, the socket.  The
    debug assertion that the whole read was enqueued is a panic. *)
Definition pump_from_host (h : host) (stream : N) (s : socket) : option (bool * socket * list act) :=
  if negb (can_send s) then Some (false, s, []) else
  let avail := host_read_budget (send_capacity s) (send_queue s) 8192 in
  match (if (avail =? 0)%N then Ok [] else try_read h stream avail) with
  | Ok [] => Some ((0 <? avail)%N, s, [])
  | Ok data =>
      match send_slice s data with
      | (Ok enqueued, s) => if (enqueued =? len data)%N then Some (false, s, [ToGuest stream data]) else None
      | (Err _, s) => Some (true, s, [])
      end
  | Err WouldBlock => Some (false, s, [])
  | Err IoFailed => Some (true, s, [])
  end.

(** Guest to host.  [recv] asserts that the closure consumes no more than it was
    offered. *)
Definition pump_to_host (h : host) (stream : N) (s : socket) : option (bool * socket * list act) :=
  if negb (can_recv s) then Some (false, s, []) else
  match recv_run s with
  | Err _ => Some (true, s, [])
  | Ok contiguous =>
      let '(consumed, res) := drain_to_host contiguous (try_write h stream) in
      if (len contiguous <? consumed)%N then None else
      Some (match res with Err IoFailed => true | _ => false end, dequeue s consumed,
            [ToHost stream (take (N.to_nat consumed) contiguous)])
  end.

(** Whether the dial was refused, and the stream. *)
Definition connect_host (egress : NatEgressPolicy) (h : host) (m : NatPortMapping) (stream : option N) :
    bool * option N * list act :=
  match stream with
  | Some x => (false, Some x, [])
  | None =>
      match dial_host_target egress (target_port m) h with
      | Ok x => (false, Some x, [Dial (target_port m) (Some x)])
      | Err Policy => (true, None, [])
      | Err Failed => (true, None, [Dial (target_port m) None])
      end
  end.

Definition splice (h : host) (refused : bool) (stream : option N) (s : socket) :
    option (bool * socket * list act) :=
  match stream with
  | None => Some (refused, s, [])
  | Some x =>
      '(closed, s, a) ← pump_from_host h x s;
      '(closed', s, b) ← pump_to_host h x s;
      Some (refused || closed || closed', s, a ++ b)
  end.

(** A mapping whose socket is not closed: dial where there is no stream, move
    bytes both ways, and let go of the stream when either end is done. *)
Definition serve_open (egress : NatEgressPolicy) (h : host) (m : NatPortMapping) (stream : option N)
    (s : socket) : option (NatPortMapping * socket * list act) :=
  if negb (can_send s || can_recv s) then Some (with_stream stream m, s, []) else
  let '(refused, stream, dialled) := connect_host egress h m stream in
  '(closed, s, moved) ← splice h refused stream s;
  if closed : bool
  then Some (with_stream None m, close s, dialled ++ moved ++ match stream with Some x => [Drop x] | None => [] end)
  else Some (with_stream stream m, s, dialled ++ moved).

(** One mapping of the loop's second half. *)
Definition serve_mapping (egress : NatEgressPolicy) (host_gw : Ipv4Addr) (is_permanent : bool) (h : host)
    (m : NatPortMapping) (s : socket) : option (NatPortMapping * socket * list act) :=
  let '(skip, s, stream, acts) :=
    if is_open s then (false, s, host_stream m, [])
    else rearm_or_release_closed s (nat_forward_endpoint host_gw (listen_port m)) (host_stream m) is_permanent in
  if skip : bool then Some (with_stream stream m, s, acts) else
  '(m, s, more) ← serve_open egress h m stream s;
  Some (m, s, acts ++ more).

Fixpoint serve_mappings (egress : NatEgressPolicy) (host_gw : Ipv4Addr) (permanent_count idx : nat)
    (hosts : nat → host) (sockets : gmap N socket) (ms : list NatPortMapping) :
    option (gmap N socket * list NatPortMapping * list act) :=
  match ms with
  | [] => Some (sockets, [], [])
  | m :: ms =>
      s ← sockets !! handle m;
      '(m', s', acts) ← serve_mapping egress host_gw (bool_decide (idx < permanent_count)) (hosts idx) m s;
      '(sockets, ms', more) ←
        serve_mappings egress host_gw permanent_count (S idx) hosts (<[handle m := s']> sockets) ms;
      Some (sockets, m' :: ms', acts ++ more)
  end.

(** ** The loop *)

(** How [SmoltcpProcess::start] was called, with the gateway of the vmid. *)
Record nat_config := {
  gateway : Ipv4Addr;
  forward_ports : list N;
  proxy_port : option N;
  egress : NatEgressPolicy;
}.

Record network := {
  shared : SharedState;
  tx_drops : N;
  sockets : gmap N socket;
  port_mappings : list NatPortMapping;
}.

Definition with_shared (st : SharedState) (n : network) : network :=
  {| shared := st; tx_drops := tx_drops n; sockets := sockets n; port_mappings := port_mappings n |}.

(** The mappings [run_network] starts with. *)
Definition permanent_mappings (ports : list N) : gmap N socket * list NatPortMapping :=
  foldl (λ acc port, add_mappings FORWARD_PORT_POOL new_socket port port acc.1 acc.2) (∅, []) ports.

Definition start (cfg : nat_config) : network :=
  let '(sockets, ms) := permanent_mappings (forward_ports cfg) in
  {| shared := SharedState_new; tx_drops := 0; sockets := sockets; port_mappings := ms |}.

Definition permanent_count (cfg : nat_config) : nat :=
  length (permanent_mappings (forward_ports cfg)).2.

(** The [/30] gateway of the vmid; the thread ends at once for a vmid outside
    the range. *)
Definition run_network_config (vmid : N) (ports : list N) (proxy : option N) (policy : NatEgressPolicy) :
    result net_error nat_config :=
  let? (host_gw, _) := nat_addrs vmid in
  Ok {| gateway := host_gw; forward_ports := ports; proxy_port := proxy; egress := policy |}.

(** One turn of the loop: [ring] is the receiveq, [hosts] the host's answers. *)
Definition tick (cfg : nat_config) (now : N) (ring : vring) (hosts : nat → host) (n : network) :
    option (network * list act) :=
  let '(st, _, _) := process_rx_queue (shared n) ring in
  '(socks, ms, acts) ←
    match proxy_port cfg with
    | Some pxy_port => scan_syns (sockets n) (port_mappings n) (permanent_count cfg) pxy_port (tx_queue st)
    | None => Some (sockets n, port_mappings n, [])
    end;
  let '(socks, taken, sent) := poll now socks (tx_queue st) in
  let st := with_rx (rx_queue st ++ sent) (with_tx (drop taken (tx_queue st)) st) in
  '(socks, ms, more) ← serve_mappings (egress cfg) (gateway cfg) (permanent_count cfg) 0 hosts socks ms;
  Some ({| shared := st; tx_drops := tx_drops n; sockets := socks; port_mappings := ms |}, acts ++ more).

(** What happens to the state the backend's worker and the loop share: each
    event holds the mutex once. *)
Inductive event :=
  | SetMemTable (m : guest_mem)
  | Latch (rings : list N)
  | TxKick (ring : vring)
  | Tick (now : N) (ring : vring) (hosts : nat → host)
  | Disconnect.

Definition step (cfg : nat_config) (e : event) (n : network) : option (network * list act) :=
  match e with
  | SetMemTable m => Some (with_shared (update_memory m (shared n)) n, [])
  | Latch rings => Some (with_shared (latch rings (shared n)) n, [])
  | TxKick ring =>
      let '(_, st, drops, _, _) := process_tx_queue (shared n) ring (tx_drops n) in
      Some ({| shared := st; tx_drops := drops; sockets := sockets n; port_mappings := port_mappings n |}, [])
  | Tick now ring hosts => tick cfg now ring hosts n
  | Disconnect => Some (with_shared (reset_device_state (shared n)) n, [])
  end.

Fixpoint run (cfg : nat_config) (es : list event) (n : network) : option (network * list act) :=
  match es with
  | [] => Some (n, [])
  | e :: es =>
      '(n, acts) ← step cfg e n;
      '(n, more) ← run cfg es n;
      Some (n, acts ++ more)
  end.

End user_net.
