(* ===== verification/UserNetProps.v ===== *)
(** * The user-mode network: what it keeps, bounds and reaches

    Theorems about [UserNet]: a pass over the transmit ring and a delivery to the
    receive ring move exactly the whole frames ([tx_pass_exact],
    [rx_delivery_exact]); under any interleaving of kicks, ticks, reconnections
    and host behaviour the loop's thread does not panic and its queues and its
    socket pool stay within their bounds ([network_bounded]); it dials only the
    forwarded ports and the proxy, and nothing at all when egress is blocked
    ([dials_known_targets]); a spliced connection neither loses, repeats nor
    reorders bytes ([splice_conserves]).  The last section shows what it does not
    bound or keep apart. *)

From S2P Require Import Prelude IdAlloc NetAddr UserNet.

(** ** Frames out of the transmit ring *)

(** The documented contract of a read: it fills the buffer it is given. *)
Definition mem_ok (m : guest_mem) : Prop :=
  ∀ addr n buf, read_slice m addr n = Some buf → len buf = n.

(** The frame of a chain: what its descriptors hold, all of it, without the
    header. *)
Definition chain_frame (m : guest_mem) (c : chain) : option frame :=
  parts ← mapM (λ d, read_slice m (d_addr d) (d_len d)) (readable c);
  let packet := concat parts in
  if decide (VIRTIO_NET_HDR_SIZE <= len packet <= MAX_FRAME_LEN)%N
  then Some (drop (N.to_nat VIRTIO_NET_HDR_SIZE) packet) else None.

Lemma len_app {A} (l k : list A) : len (l ++ k) = (len l + len k)%N.
Proof. unfold len. rewrite length_app. lia. Qed.

Lemma len_snoc {A} (l : list A) x : len (l ++ [x]) = (len l + 1)%N.
Proof. apply len_app. Qed.

Lemma len_cons {A} (l : list A) x : len (x :: l) = (1 + len l)%N.
Proof. apply (len_app [x]). Qed.

Lemma read_chain_exact m descs packet : mem_ok m → (len packet <= MAX_FRAME_LEN)%N →
  match read_chain m descs packet with Ok p => Some p | Err _ => None end =
  (parts ← mapM (λ d, read_slice m (d_addr d) (d_len d)) descs;
   if decide (len (packet ++ concat parts) <= MAX_FRAME_LEN)%N then Some (packet ++ concat parts) else None).
Proof.
  intros Hm. revert packet. induction descs as [|d descs IH]; intros packet Hp; simpl.
  { rewrite app_nil_r, decide_True by done. done. }
  unfold bounded_tx_read. rewrite (proj2 (N.ltb_ge _ _) Hp).
  destruct (N.ltb_spec (MAX_FRAME_LEN - len packet) (d_len d)) as [Hbig|Hfit]; simpl.
  - destruct (read_slice m (d_addr d) (d_len d)) as [buf|] eqn:Eb; simpl; [|done].
    destruct (mapM _ descs) as [parts|]; simpl; [|done].
    apply Hm in Eb. rewrite decide_False; [done|]. rewrite !len_app. lia.
  - destruct (read_slice m (d_addr d) (d_len d)) as [buf|] eqn:Eb; simpl; [|done].
    apply Hm in Eb. rewrite IH by (rewrite len_app; lia).
    destruct (mapM _ descs) as [parts|]; simpl; [|done]. by rewrite <- app_assoc.
Qed.

Lemma tx_chain_frame m p c : mem_ok m →
  tx_chain m p c =
  match chain_frame m c with
  | None => p
  | Some f =>
      if decide (len (t_queue p) < MAX_TX_QUEUE_FRAMES)%N
      then {| t_queue := t_queue p ++ [f]; t_drops := t_drops p; t_reports := t_reports p |}
      else let total := wrap64 (t_drops p + 1) in
           {| t_queue := t_queue p; t_drops := total;
              t_reports := t_reports p ++ if tx_drop_is_reportable total then [total] else [] |}
  end.
Proof.
  intros Hm. unfold tx_chain, chain_frame.
  pose proof (read_chain_exact m (readable c) [] Hm (N.le_0_l _)) as Hr.
  destruct (mapM _ _) as [parts|]; simpl in Hr |- *; [|by destruct (read_chain _ _ _)].
  destruct (decide (len (concat parts) <= MAX_FRAME_LEN)%N) as [Hlen|Hlen].
  - destruct (read_chain m (readable c) []) as [p'|]; simplify_eq/=.
    destruct (N.ltb_spec (len (concat parts)) VIRTIO_NET_HDR_SIZE).
    + rewrite decide_False by lia. done.
    + rewrite decide_True by lia. unfold push_tx_frame.
      destruct (N.leb_spec MAX_TX_QUEUE_FRAMES (len (t_queue p))).
      * by rewrite decide_False by lia.
      * by rewrite decide_True by lia.
  - destruct (read_chain m (readable c) []); [done|]. rewrite decide_False by lia. done.
Qed.

(** Frames pushed one by one onto a bounded queue. *)
Lemma tx_chains_exact m chains p : mem_ok m → (len (t_queue p) <= MAX_TX_QUEUE_FRAMES)%N → (t_drops p < 2 ^ 64)%N →
  let fs := omap (chain_frame m) chains in
  let room := N.to_nat (MAX_TX_QUEUE_FRAMES - len (t_queue p)) in
  t_queue (foldl (tx_chain m) p chains) = t_queue p ++ take room fs ∧
  t_drops (foldl (tx_chain m) p chains) = wrap64 (t_drops p + len (drop room fs)).
Proof.
  intros Hm. revert p. induction chains as [|c chains IH]; intros p Hq Hd; cbn [foldl omap list_omap].
  { rewrite take_nil, drop_nil, app_nil_r. split; [done|]. unfold wrap64, len. simpl.
    rewrite N.add_0_r, N.mod_small; done. }
  rewrite tx_chain_frame by done. destruct (chain_frame m c) as [f|]; [|by apply IH].
  case_decide as Hroom; cbv zeta.
  - destruct (IH {| t_queue := t_queue p ++ [f]; t_drops := t_drops p; t_reports := t_reports p |}) as [-> ->];
      cbn [t_queue t_drops]; [rewrite len_snoc; lia|done|].
    replace (N.to_nat (MAX_TX_QUEUE_FRAMES - len (t_queue p)))
      with (S (N.to_nat (MAX_TX_QUEUE_FRAMES - len (t_queue p ++ [f]))))
      by (rewrite len_snoc; lia).
    cbn [take drop]. rewrite <- app_assoc. done.
  - set (p' := {| t_queue := _ |}). destruct (IH p') as [-> ->]; [done|by apply N.mod_lt|]. cbn [t_queue t_drops p'].
    replace (MAX_TX_QUEUE_FRAMES - len (t_queue p))%N with 0%N by lia. simpl. split; [done|].
    unfold wrap64. rewrite drop_0, N.Div0.add_mod_idemp_l, len_cons. f_equal. lia.
Qed.

Lemma chain_frame_bounded m c f : chain_frame m c = Some f → (len f <= 1500)%N.
Proof.
  unfold chain_frame. destruct (mapM _ _) as [parts|]; simpl; [|done]. case_decide as H; [|done]. intros [= <-].
  unfold len in *. rewrite length_drop. unfold MAX_FRAME_LEN, VIRTIO_NET_HDR_SIZE in *. lia.
Qed.

(** A pass over the transmit ring queues, in order, exactly the frames of
    the chains whose descriptors can all be read and hold between a header and
    a full frame together, each whole and without its header, as many as the
    queue has room for; the rest are counted as dropped, nothing already queued
    is lost, and every chain is returned to the guest once, in order. *)
Theorem tx_pass_exact st ring drops m chains :
  mem st = Some m → avail ring = Some chains → mem_ok m →
  (len (tx_queue st) <= MAX_TX_QUEUE_FRAMES)%N → (drops < 2 ^ 64)%N →
  let fs := omap (chain_frame m) chains in
  let room := N.to_nat (MAX_TX_QUEUE_FRAMES - len (tx_queue st)) in
  ∃ reports, process_tx_queue st ring drops =
    (Drained, with_tx (tx_queue st ++ take room fs) st, wrap64 (drops + len (drop room fs)), reports,
     (λ c, (head_index c, 0%N)) <$> chains).
Proof.
  intros Hmem Hav Hm Hq Hd fs room. unfold process_tx_queue. rewrite Hmem, Hav. cbv zeta.
  destruct (tx_chains_exact m chains {| t_queue := tx_queue st; t_drops := drops; t_reports := [] |} Hm Hq Hd)
    as [-> ->]. eauto.
Qed.

(** ** Frames into the receive ring *)

Definition room_of (descs : list descriptor) : N := foldr (λ d n, d_len d + n)%N 0%N descs.

Lemma len_take_drop (l : frame) (a b : N) : (b <= len l - a)%N →
  len (take (N.to_nat b) (drop (N.to_nat a) l)) = b.
Proof. unfold len. rewrite length_take, length_drop. lia. Qed.

Lemma write_chain_spec m full offset descs o failed writes :
  (offset <= len full)%N → write_chain m full offset descs = (o, failed, writes) →
  (offset <= o <= len full)%N ∧
  concat (writes.*2) = take (N.to_nat (o - offset)) (drop (N.to_nat offset) full) ∧
  Forall (λ w, ∃ d, d ∈ descs ∧ w.1 = d_addr d ∧ (len w.2 <= d_len d)%N) writes ∧
  (failed = false → o = N.min (len full) (offset + room_of descs)).
Proof.
  revert offset o failed writes. induction descs as [|d descs IH]; intros offset o failed writes Ho; simpl.
  { intros [= <- <- <-]. rewrite N.sub_diag. split_and!; [lia..|done|constructor|]. lia. }
  set (w := N.min (len full - offset) (d_len d)). destruct (N.ltb_spec 0 w) as [Hw|Hw].
  - set (chunk := take _ _). assert (Hc : len chunk = w) by (apply len_take_drop; lia).
    destruct (write_ok m (d_addr d) chunk).
    + destruct (write_chain m full (offset + w) descs) as [[o' f'] ws] eqn:E. intros [= <- <- <-].
      apply IH in E as (Hb & Hcat & Hall & Hend); [|lia]. split_and!; [lia..| | |].
      * cbn. rewrite Hcat. unfold chunk. rewrite N2Nat.inj_add, <- drop_drop, take_take_drop.
        f_equal. lia.
      * constructor; [exists d; cbn; split_and!; [left|done|lia]|].
        eapply Forall_impl; [exact Hall|]. intros x (d' & Hd & ?). exists d'. split; [by right|done].
      * intros ->%Hend. lia.
    + intros [= <- <- <-]. rewrite N.sub_diag. split_and!; [lia..|done|constructor|done].
  - intros E. apply IH in E as (Hb & Hcat & Hall & Hend); [|done]. split_and!; [lia..|done| |].
    + eapply Forall_impl; [exact Hall|]. intros x (d' & Hd & ?). exists d'. split; [by right|done].
    + intros ->%Hend. lia.
Qed.

Lemma write_chain_ok m full offset descs : (∀ addr chunk, write_ok m addr chunk = true) →
  (write_chain m full offset descs).1.2 = false.
Proof.
  intros Hok. revert offset. induction descs as [|d descs IH]; intros offset; simpl; [done|].
  case_match; [|apply IH]. rewrite Hok.
  specialize (IH (offset + N.min (len full - offset) (d_len d))%N). by destruct (write_chain _ _ _ _) as [[??]?].
Qed.

(** What a chain is given for a frame. *)
Definition delivered (m : guest_mem) (packet : frame) (c : chain) (u : N * N * list (N * frame)) : Prop :=
  let full := virtio_frame packet in
  u.1.1 = head_index c ∧
  Forall (λ w, ∃ d, d ∈ writable c ∧ w.1 = d_addr d ∧ (len w.2 <= d_len d)%N) u.2 ∧
  (u.1.2 = 0%N ∨ u.1.2 = len full ∧ concat (u.2.*2) = full) ∧
  ((∀ addr chunk, write_ok m addr chunk = true) → (len full <= room_of (writable c))%N → u.1.2 = len full).

Lemma deliver_one_exact m packet c : delivered m packet c (deliver_one m packet c).
Proof.
  unfold deliver_one. destruct (write_chain m (virtio_frame packet) 0 (writable c)) as [[o f] ws] eqn:E.
  pose proof (write_chain_ok m (virtio_frame packet) 0 (writable c)) as Hok. rewrite E in Hok.
  apply write_chain_spec in E as (Hb & Hcat & Hall & Hend); [|lia]. unfold delivered, rx_used_len. cbn in Hok |- *.
  destruct f; cbn.
  { split_and!; [done..|by left|]. intros H _. by specialize (Hok H). }
  specialize (Hend eq_refl). destruct (N.ltb_spec o (len (virtio_frame packet))); cbn.
  { split_and!; [done..|by left|]. lia. }
  split_and!; [done..| |done]. right. split; [done|]. rewrite Hcat, drop_0.
  apply take_ge. unfold len in *. lia.
Qed.

(** A tick hands the queued frames to the receive ring's chains one to one
    and in order, and keeps the frames there is no chain for.  A chain is used
    with the length of its whole frame, header included, only if exactly that
    frame was written, each piece inside the descriptor it was written to;
    otherwise it is returned empty, which does not happen when guest memory takes
    the writes and the chain has room. *)
Theorem rx_delivery_exact st ring m r rs chains :
  mem st = Some m → vrings st = Some (r :: rs) → avail ring = Some chains →
  ∃ used, (process_rx_queue st ring).1 = (with_rx (drop (length chains) (rx_queue st)) st, used) ∧
    length used = Nat.min (length (rx_queue st)) (length chains) ∧
    (∀ i u, used !! i = Some u → ∃ packet c, rx_queue st !! i = Some packet ∧ chains !! i = Some c ∧
       delivered m packet c u).
Proof.
  intros Hm Hv Ha. unfold process_rx_queue. rewrite Hm, Hv, Ha.
  assert (Hd : ∀ rx, ∃ used, deliver m rx chains = (drop (length chains) rx, used) ∧
    length used = Nat.min (length rx) (length chains) ∧
    (∀ i u, used !! i = Some u → ∃ packet c, rx !! i = Some packet ∧ chains !! i = Some c ∧ delivered m packet c u)).
  { clear Ha. induction chains as [|c chains IH]; intros [|p rx]; cbn; [by exists []..|].
    destruct (IH rx) as (used & -> & Hl & Hu). exists (deliver_one m p c :: used). split_and!; [done|cbn; lia|].
    intros [|i] u; cbn; [|apply Hu]. intros [= <-]. exists p, c. split_and!; [done..|apply deliver_one_exact]. }
  destruct (Hd (rx_queue st)) as (used & -> & Hl & Hu). by exists used.
Qed.

(** ** Addresses *)

Definition mac_string (octets : list N) : string := str_join ":" (hex2 <$> octets).

(** The host side's address is no VM's. *)
Lemma host_nat_mac_never_collides vmid : mac_math vmid ≠ Ok (mac_string HOST_NAT_MAC).
Proof.
  unfold mac_math. case_match eqn:E; [done|]. apply orb_false_iff in E as [_ E%N.ltb_ge].
  rewrite N.shiftr_div_pow2, N.div_small by (unfold MAX_VMID in E; lia). by intros [=].
Qed.

(** ** Kicks and connections *)

(** The passes of a kick, as the steps of a network. *)
Lemma tx_passes_steps `{TS : Stack} cfg event_idx passes : ∀ n st drops,
  tx_passes event_idx (shared n) (UserNet.tx_drops n) passes = Some (st, drops) →
  ∃ k, k <= length passes ∧
    run cfg ((λ p : vring * result unit bool, TxKick p.1) <$> take k passes) n =
    Some ({| shared := st; tx_drops := drops; sockets := sockets n; port_mappings := port_mappings n |}, []).
Proof.
  induction passes as [|[ring rearmed] passes IH]; intros n st drops; cbn [tx_passes]; [done|].
  destruct (process_tx_queue (shared n) ring (UserNet.tx_drops n)) as [[[[pass st1] d1] reps] used] eqn:E.
  set (n1 := {| shared := st1; tx_drops := d1; sockets := sockets n; port_mappings := port_mappings n |}).
  assert (Hstep : step cfg (TxKick ring) n = Some (n1, [])) by (cbn [step]; by rewrite E).
  destruct (match pass with Drained => _ | Unreadable => _ end).
  - intros H. destruct (IH n1 st drops H) as (k & Hk & Hr). exists (S k). cbn [length]. split; [lia|].
    cbn [take fmap list_fmap run fst]. rewrite Hstep. cbn [mbind option_bind]. cbn [fmap list_fmap] in Hr. by rewrite Hr.
  - intros [= <- <-]. exists 1. cbn [length]. split; [lia|]. cbn [take fmap list_fmap run fst].
    rewrite Hstep. done.
Qed.

(** Handling an event of the guest's transmit ring is nothing but steps of
    the network: the rings are latched and the ring is passed over a number of
    times; it never ends the worker on account of what the guest put in its
    rings, and it ends as soon as a pass finds the ring unreadable, re-arming
    reports nothing more, or event indices are off. *)
Theorem handle_event_steps `{TS : Stack} cfg event_idx r0 r1 passes ring rearmed n :
  (event_idx = false ∨ rearmed ≠ Ok true) →
  ∃ st drops k,
    handle_event event_idx 1 true [r0; r1] (shared n) (UserNet.tx_drops n) (passes ++ [(ring, rearmed)]) =
      Some (Ok (st, drops)) ∧
    run cfg (Latch [r0; r1] :: ((λ p : vring * result unit bool, TxKick p.1) <$> take k (passes ++ [(ring, rearmed)]))) n =
      Some ({| shared := st; tx_drops := drops; sockets := sockets n; port_mappings := port_mappings n |}, []).
Proof.
  intros Hend. unfold handle_event. cbn.
  assert (Hsome : ∀ st d, ∃ r, tx_passes event_idx st d (passes ++ [(ring, rearmed)]) = Some r).
  { clear -Hend. induction passes as [|[ring' rearmed'] passes IH]; intros st d; cbn [tx_passes app].
    - destruct (process_tx_queue st ring d) as [[[[pass st1] d1] ?] ?].
      destruct pass, event_idx, rearmed as [[]|]; cbn; try (by eexists); destruct Hend; done.
    - destruct (process_tx_queue st ring' d) as [[[[pass st1] d1] ?] ?]. case_match; [apply IH|by eexists]. }
  destruct (Hsome (latch [r0; r1] (shared n)) (UserNet.tx_drops n)) as [[st drops] E].
  destruct (tx_passes_steps cfg event_idx _ (with_shared (latch [r0; r1] (shared n)) n) st drops E) as (k & _ & Hr).
  exists st, drops, k. rewrite E. split; [done|]. cbn [fmap list_fmap] in Hr. by rewrite Hr.
Qed.

(** Every connection the backend serves has an exit event of its own and
    starts from a device that keeps nothing of the one before: no memory table,
    no rings, no frames from that guest, and an exit event without signals. *)
Theorem connections_start_clean turns pending b has_exit b' :
  device b = SharedState_new → exit_signals b = 0%N →
  (has_exit, b') ∈ (serve_vhost_connections pending turns b).2 →
  has_exit = true ∧ exit_signals b' = 0%N ∧
  ∃ rx, device b' = {| tx_queue := []; rx_queue := rx; mem := None; vrings := None |} ∧
        ∃ t, t ∈ turns ∧ rx = queued t.
Proof.
  revert pending b. induction turns as [|t turns IH]; intros pending b Hd Hs; cbn; [by intros ?%elem_of_nil|].
  destruct (stopping t); [by intros ?%elem_of_nil|]. destruct (negb (pending || bind_ok t)); [by intros ?%elem_of_nil|].
  unfold arm_exit_event. destruct (clone_ok t); [|by intros ?%elem_of_nil].
  destruct (negb (daemon_ok t)); [by intros ?%elem_of_nil|]. cbn [exit_event exit_evt].
  destruct (negb (daemon_starts t)); [by intros ?%elem_of_nil|].
  destruct (serve_vhost_connections false turns _) as [[e final] started] eqn:E. cbn [snd].
  intros [Heq|Hin]%elem_of_cons.
  - injection Heq as -> ->. cbn. rewrite Hd. split_and!; [done..|]. exists (queued t). split; [done|].
    exists t. by split; [left|].
  - match type of E with serve_vhost_connections _ _ ?after = _ => destruct (IH false after) as (H1 & H2 & rx & H3 & t' & Ht & H4) end;
      [done|done|by rewrite E|]. split_and!; [done..|]. exists rx. split; [done|]. exists t'. by split; [right|].
Qed.

(** ** The loop *)

Section laws.
Context `{TS : Stack} `{SL : !StackLaws TS}.

(** The documented contract of a read: no more than the buffer holds. *)
Definition host_ok (h : host) : Prop := ∀ x n data, try_read h x n = Ok data → (len data <= n)%N.

Definition to_host (acts : list act) : frame :=
  concat (omap (λ a, match a with ToHost _ data => Some data | _ => None end) acts).
Definition to_guest (acts : list act) : frame :=
  concat (omap (λ a, match a with ToGuest _ data => Some data | _ => None end) acts).

(** A transfer on the stream [x]. *)
Definition moves (x : N) (a : act) : Prop :=
  match a with ToHost y _ | ToGuest y _ => y = x | _ => False end.

Lemma to_host_app a b : to_host (a ++ b) = to_host a ++ to_host b.
Proof. unfold to_host. by rewrite omap_app, concat_app. Qed.

Lemma to_guest_app a b : to_guest (a ++ b) = to_guest a ++ to_guest b.
Proof. unfold to_guest. by rewrite omap_app, concat_app. Qed.

(** What a step of the splice keeps. *)
Record transfer (x : N) (s s' : socket) (acts : list act) : Prop := {
  tr_moves : Forall (moves x) acts;
  tr_in : inbound s = to_host acts ++ inbound s';
  tr_out : outbound s' = outbound s ++ to_guest acts;
  tr_endpoint : listens_on s' = listens_on s;
}.

Lemma transfer_refl x s : transfer x s s [].
Proof. split; [constructor|done| |done]. cbn. by rewrite app_nil_r. Qed.

Lemma transfer_trans x s1 s2 s3 a b : transfer x s1 s2 a → transfer x s2 s3 b → transfer x s1 s3 (a ++ b).
Proof.
  intros [M1 I1 O1 L1] [M2 I2 O2 L2]. split; [by apply Forall_app| | |congruence].
  - by rewrite I1, I2, to_host_app, app_assoc.
  - by rewrite O2, O1, to_guest_app, app_assoc.
Qed.

Lemma pump_from_host_spec h x s : host_ok h →
  ∃ closed s' acts, pump_from_host h x s = Some (closed, s', acts) ∧ transfer x s s' acts.
Proof.
  intros Hh. unfold pump_from_host. pose proof (transfer_refl x s) as Hrefl.
  destruct (can_send s) eqn:Es; cbn; [|by eauto]. set (avail := host_read_budget _ _ _).
  assert (Hav : (avail <= send_capacity s - send_queue s)%N) by apply N.le_min_l.
  destruct (if (avail =? 0)%N then _ else _) as [[|b data]|[]] eqn:Er; cbn -[N.ltb]; [by eauto| |by eauto..].
  assert (Hle : (len (b :: data) <= avail)%N).
  { destruct (avail =? 0)%N; [done|]. by eapply Hh. }
  destruct (send_enqueues s (b :: data) Es) as (s' & -> & Ho & Hi & _ & Hl); [lia|]. rewrite N.eqb_refl.
  exists false, s', [ToGuest x (b :: data)]. split; [done|].
  split; cbn; [by repeat constructor|by rewrite Hi|by rewrite app_nil_r|done].
Qed.

Lemma pump_to_host_spec h x s :
  ∃ closed s' acts, pump_to_host h x s = Some (closed, s', acts) ∧ transfer x s s' acts.
Proof.
  unfold pump_to_host. pose proof (transfer_refl x s) as Hrefl. destruct (can_recv s) eqn:Es; cbn; [|by eauto].
  destruct (recv_offers s Es) as (run & rest & -> & Hne & Hin).
  destruct (drain_to_host run (try_write h x)) as [n res] eqn:Ed.
  assert (Hn : (n <= len run)%N).
  { unfold drain_to_host in Ed. destruct run; [by injection Ed as <- _|].
    injection Ed as <- _. case_match; [apply N.le_min_r|apply N.le_0_l]. }
  rewrite (proj2 (N.ltb_ge _ _) Hn). destruct (dequeue_drops s n Es) as (Hi & Ho & Hl & _).
  eexists _, _, _. split; [done|]. split; cbn; [by repeat constructor| |by rewrite app_nil_r|done].
  rewrite Hi, Hin, app_nil_r, drop_app_le by (unfold len in Hn; lia). by rewrite app_assoc, take_drop.
Qed.

Lemma splice_spec h refused x s : host_ok h →
  ∃ closed s' acts, splice h refused (Some x) s = Some (closed, s', acts) ∧ transfer x s s' acts.
Proof.
  intros Hh. cbn. destruct (pump_from_host_spec h x s Hh) as (c & s1 & a & -> & T1); cbn.
  destruct (pump_to_host_spec h x s1) as (c' & s2 & b & -> & T2); cbn.
  eexists _, _, _. split; [done|]. by eapply transfer_trans.
Qed.

(** The socket of a forwarded port was told to listen at the gateway, or not at
    all yet. *)
Definition pinned (gw : Ipv4Addr) (m : NatPortMapping) (s : socket) : Prop :=
  ∀ ep, listens_on s = Some ep → ep = nat_forward_endpoint gw (listen_port m).

Definition same_mapping (m m' : NatPortMapping) : Prop := m' = with_stream (host_stream m') m.

(** The host is touched only where egress is allowed, and dialled only at
    [ports]. *)
Definition act_ok (eg : NatEgressPolicy) (ports : N → Prop) (a : act) : Prop :=
  eg = Allow ∧ match a with Dial p _ => ports p | _ => True end.

Lemma moves_act_ok x eg P acts : eg = Allow → Forall (moves x) acts → Forall (act_ok eg P) acts.
Proof. intros -> H. eapply Forall_impl; [exact H|]. by intros []. Qed.

Lemma allowed eg {A} (x : A) : (eg = Deny → Some x = None) → eg = Allow.
Proof. destruct eg; [done|]. intros H. by specialize (H eq_refl). Qed.

Lemma shutdown_act_ok eg P st : (eg = Deny → st = None) → Forall (act_ok eg P) (take_and_shutdown_stream st).2.
Proof. destruct st as [x|]; [|constructor]. intros H%allowed. by repeat constructor. Qed.

Lemma serve_open_spec eg gw h m stream s : host_ok h → (eg = Deny → stream = None) →
  ∃ m' s' acts, serve_open eg h m stream s = Some (m', s', acts) ∧ same_mapping m m' ∧
    (pinned gw m s → pinned gw m s') ∧ (eg = Deny → host_stream m' = None) ∧
    Forall (act_ok eg (eq (target_port m))) acts.
Proof.
  intros Hh Hd. unfold serve_open. destruct (can_send s || can_recv s) eqn:Eb; cbn [negb].
  2:{ exists (with_stream stream m), s, []. split_and!; try done. }
  destruct (connect_host eg h m stream) as [[refused st] dialled] eqn:Ec.
  assert (Forall (act_ok eg (eq (target_port m))) dialled ∧ (eg = Deny → st = None)) as [Hdial Hst].
  { unfold connect_host, dial_host_target in Ec. repeat case_match; simplify_eq/=;
      split; try (by repeat constructor); done. }
  assert (Hs : ∃ closed s' moved, splice h refused st s = Some (closed, s', moved) ∧
    listens_on s' = listens_on s ∧ Forall (act_ok eg (eq (target_port m))) moved).
  { destruct st as [x|]; [|by exists refused, s, []].
    destruct (splice_spec h refused x s Hh) as (c & s' & acts & E & [M _ _ L]).
    exists c, s', acts. split_and!; [done|auto|eapply moves_act_ok; [by eapply allowed|done]]. }
  destruct Hs as (closed & s' & moved & -> & Hl & Hm). cbn. destruct closed.
  - eexists _, _, _. split; [done|]. split_and!; [done| |done|].
    + intros Hpin ep Hep. apply Hpin. rewrite <- Hl. destruct (close_endpoint s'); congruence.
    + rewrite !Forall_app. split_and!; [done..|]. destruct st; [|constructor]. apply allowed in Hst. by repeat constructor.
  - eexists _, _, _. split; [done|]. split_and!; [done| |done|by apply Forall_app].
    unfold pinned. by rewrite Hl.
Qed.

Lemma serve_mapping_spec eg gw perm h m s : host_ok h → (eg = Deny → host_stream m = None) →
  ∃ m' s' acts, serve_mapping eg gw perm h m s = Some (m', s', acts) ∧ same_mapping m m' ∧
    (perm = true → pinned gw m s → pinned gw m s') ∧ (eg = Deny → host_stream m' = None) ∧
    Forall (act_ok eg (eq (target_port m))) acts.
Proof.
  intros Hh Hd. unfold serve_mapping. destruct (is_open s) eqn:Eo.
  { destruct (serve_open_spec eg gw h m (host_stream m) s Hh Hd) as (m' & s' & acts & -> & H1 & H2 & H3 & H4).
    eexists _, _, _. split_and!; [done..|eauto|done|done]. }
  set (ep := nat_forward_endpoint gw (listen_port m)). unfold rearm_or_release_closed.
  destruct (take_and_shutdown_stream (host_stream m)) as [b shut] eqn:Es.
  assert (Hshut : Forall (act_ok eg (eq (target_port m))) shut).
  { change shut with (b, shut).2. rewrite <- Es. by apply shutdown_act_ok. }
  destruct perm.
  - destruct (serve_open_spec eg gw h m None (listen s ep) Hh) as (m' & s' & acts & -> & H1 & H2 & H3 & H4); [done|].
    eexists _, _, _. split_and!; [done..| |done|by apply Forall_app]. intros _ Hpin. apply H2.
    destruct (decide (listen_port m = 0%N)) as [E0|E0]; [by rewrite listen_unaddressable|].
    intros ep' Hl. destruct (listen_accepts s ep Eo E0) as [_ H]. rewrite H in Hl. by injection Hl.
  - eexists _, _, _. by split_and!.
Qed.

Lemma serve_mappings_spec eg gw pc hosts : (∀ i, host_ok (hosts i)) → ∀ ms idx socks,
  NoDup (handle <$> ms) → (∀ h, h ∈ handle <$> ms → is_Some (socks !! h)) →
  (eg = Deny → Forall (λ m, host_stream m = None) ms) →
  ∃ socks' ms' acts, serve_mappings eg gw pc idx hosts socks ms = Some (socks', ms', acts) ∧
    Forall2 same_mapping ms ms' ∧ dom socks' = dom socks ∧
    (∀ h, h ∉ handle <$> ms → socks' !! h = socks !! h) ∧
    (eg = Deny → Forall (λ m, host_stream m = None) ms') ∧
    Forall (act_ok eg (λ p, p ∈ target_port <$> ms)) acts ∧
    (∀ i m s s', ms !! i = Some m → idx + i < pc → socks !! handle m = Some s → socks' !! handle m = Some s' →
       pinned gw m s → pinned gw m s').
Proof.
  intros Hh. induction ms as [|m ms IH]; intros idx socks Hnd Hdom Hq; cbn [serve_mappings].
  { exists socks, [], []. split_and!; try done; by constructor. }
  rewrite fmap_cons in Hnd, Hdom. apply NoDup_cons in Hnd as [Hni Hnd].
  destruct (Hdom (handle m)) as [s Es]; [left|]. rewrite Es. cbn.
  destruct (serve_mapping_spec eg gw (bool_decide (idx < pc)) (hosts idx) m s) as
    (m' & s' & acts & -> & Hsame & Hpin & Hquiet & Hacts); [done|by intros H%Hq; inversion_clear H|]. cbn.
  destruct (IH (S idx) (<[handle m := s']> socks)) as (socks' & ms' & more & -> & Hms & Hd & Hother & Hq' & Hmore & Hp);
    [done|intros h H; apply lookup_insert_is_Some'; right; apply Hdom; by right|by intros H%Hq; inversion_clear H|].
  assert (Em : socks' !! handle m = Some s') by (rewrite (Hother _ Hni); apply lookup_insert_eq).
  cbn. eexists _, _, _. split; [done|]. split_and!.
  - by constructor.
  - rewrite Hd, dom_insert_L. apply subseteq_union_1_L, singleton_subseteq_l, elem_of_dom. eauto.
  - intros h [Hne Hn]%not_elem_of_cons. rewrite Hother by done. by apply lookup_insert_ne.
  - intros ->. constructor; eauto.
  - apply Forall_app. split; eapply Forall_impl; try eassumption; intros []; try done; cbn.
    + intros [? <-]. split; [done|left].
    + intros [? H]. split; [done|by right].
  - intros [|i] m0 s0 s0' E Hlt E0 E0'; cbn in E.
    + simplify_eq. apply Hpin. apply bool_decide_eq_true_2. lia.
    + eapply Hp; [done|lia| |done]. rewrite lookup_insert_ne; [done|]. intros Heq. apply Hni. rewrite Heq.
      by eapply list_elem_of_fmap_2, list_elem_of_lookup_2.
Qed.

(** *** The pool *)

Definition role_ok (cfg : nat_config) (socks : gmap N socket) (i : nat) (m : NatPortMapping) : Prop :=
  if decide (i < permanent_count cfg)
  then target_port m = listen_port m ∧ target_port m ∈ forward_ports cfg ∧
       (∀ s, socks !! handle m = Some s → pinned (gateway cfg) m s)
  else proxy_port cfg = Some (target_port m).

(** Each mapping has its own socket and each socket its mapping; the forwarded
    ports come first. *)
Record pool_ok (cfg : nat_config) (socks : gmap N socket) (ms : list NatPortMapping) : Prop := {
  po_handles : NoDup (handle <$> ms);
  po_sockets h : is_Some (socks !! h) ↔ h ∈ handle <$> ms;
  po_role i m : ms !! i = Some m → role_ok cfg socks i m;
  po_quiet : egress cfg = Deny → Forall (λ m, host_stream m = None) ms;
}.

Lemma add_mappings_spec cfg n s l t socks ms : pool_ok cfg socks ms →
  (∀ i h socks', length ms <= i < length ms + n → socks' !! h = Some s →
     role_ok cfg socks' i {| listen_port := l; target_port := t; handle := h; host_stream := None |}) →
  ∃ socks' ms', add_mappings n s l t socks ms = (socks', ms') ∧ pool_ok cfg socks' ms' ∧
    length ms' = length ms + n.
Proof.
  revert socks ms. induction n as [|n IH]; intros socks ms Hp Hr; cbn.
  { exists socks, ms. split_and!; [done..|lia]. }
  set (h := fresh_handle socks). set (m := {| handle := h |}).
  assert (Hf : socks !! h = None) by apply fresh_handle_new.
  assert (Hni : h ∉ handle <$> ms) by (rewrite <- (po_sockets _ _ _ Hp), Hf; by intros [? ?]).
  destruct (IH (<[h := s]> socks) (ms ++ [m])) as (socks' & ms' & -> & Hp' & Hl).
  - split.
    + rewrite fmap_app. apply NoDup_app. split_and!; [apply Hp| |apply NoDup_singleton].
      intros x Hx ->%list_elem_of_singleton. done.
    + intros k. rewrite lookup_insert_is_Some', fmap_app, elem_of_app, (po_sockets _ _ _ Hp).
      cbn [fmap list_fmap]. rewrite list_elem_of_singleton. cbn. naive_solver.
    + intros i x [Hx|[Hge Hx]]%lookup_app_Some.
      * pose proof (po_role _ _ _ Hp i x Hx) as Hrole. unfold role_ok in *. case_decide; [|done].
        destruct Hrole as (? & ? & Hpin). split_and!; [done..|]. intros s0. rewrite lookup_insert_ne; [apply Hpin|].
        intros ->. apply Hni. by eapply list_elem_of_fmap_2, list_elem_of_lookup_2.
      * apply list_lookup_singleton_Some in Hx as [Hi <-]. apply Hr; [lia|apply lookup_insert_eq].
    + intros H. apply Forall_app. split; [by apply Hp|by repeat constructor].
  - intros i k socks' Hi. rewrite length_app in Hi. cbn in Hi. apply Hr. lia.
  - eexists _, _. split_and!; [done..|]. rewrite Hl, length_app. cbn. lia.
Qed.

Lemma add_mappings_length n s l t socks ms : length (add_mappings n s l t socks ms).2 = length ms + n.
Proof. revert socks ms. induction n as [|n IH]; intros socks ms; cbn; [lia|]. rewrite IH, length_app. cbn. lia. Qed.

Lemma permanent_mappings_length ps acc :
  length (foldl (λ acc port, add_mappings FORWARD_PORT_POOL new_socket port port acc.1 acc.2) acc ps).2 =
  length acc.2 + FORWARD_PORT_POOL * length ps.
Proof. revert acc. induction ps as [|p ps IH]; intros acc; cbn [foldl length]; [lia|]. rewrite IH, add_mappings_length. lia. Qed.

Lemma permanent_count_eq cfg : permanent_count cfg = FORWARD_PORT_POOL * length (forward_ports cfg).
Proof. apply permanent_mappings_length. Qed.

Lemma permanent_mappings_ok cfg ps acc : pool_ok cfg acc.1 acc.2 →
  length acc.2 + FORWARD_PORT_POOL * length ps = permanent_count cfg → ps ⊆ forward_ports cfg →
  let acc' := foldl (λ acc port, add_mappings FORWARD_PORT_POOL new_socket port port acc.1 acc.2) acc ps in
  pool_ok cfg acc'.1 acc'.2.
Proof.
  revert acc. induction ps as [|p ps IH]; intros [socks ms] Hp Hl Hs; cbn [foldl length fst snd] in *; [done|].
  destruct (add_mappings_spec cfg FORWARD_PORT_POOL new_socket p p socks ms) as (socks' & ms' & E & Hp' & Hl');
    [done| |rewrite E; apply IH; [done|cbn [snd]; lia|intros x Hx; apply Hs; by right]].
  intros i h socks' Hi Hh. unfold role_ok. rewrite decide_True by lia. cbn. split_and!; [done|apply Hs; left|].
  intros s Hs' ep Hlis. simplify_eq. destruct new_closed. congruence.
Qed.

(** *** Reclaiming and admitting *)

Definition closed_in (socks : gmap N socket) (m : NatPortMapping) : Prop :=
  is_open <$> socks !! handle m = Some false.

#[local] Instance closed_in_dec socks m : Decision (closed_in socks m).
Proof. unfold closed_in. apply _. Defined.

Lemma reclaimable_spec eg P socks pc : ∀ ms idx, (∀ h, h ∈ handle <$> ms → is_Some (socks !! h)) →
  (eg = Deny → Forall (λ m, host_stream m = None) ms) →
  ∃ acts, reclaimable socks pc idx ms = Some (handle <$> filter (closed_in socks) (drop (pc - idx) ms), acts) ∧
    Forall (act_ok eg P) acts.
Proof.
  induction ms as [|m ms IH]; intros idx Hd Hq; cbn [reclaimable].
  { rewrite drop_nil. exists []. by split. }
  destruct (IH (S idx)) as (acts & E & Ha);
    [intros h H; apply Hd; by right|by intros H%Hq; inversion_clear H|].
  case_decide.
  { replace (pc - idx) with (S (pc - S idx)) by lia. cbn [drop]. eauto. }
  destruct (Hd (handle m)) as [s Es]; [left|]. rewrite Es. cbn. rewrite E. cbn.
  replace (pc - idx) with 0 by lia. replace (pc - S idx) with 0 by lia. rewrite !drop_0, filter_cons.
  destruct (is_open s) eqn:Eo.
  - rewrite decide_False by (unfold closed_in; rewrite Es; cbn; congruence). eauto.
  - rewrite decide_True by (unfold closed_in; rewrite Es; cbn; congruence). eexists. split; [done|].
    apply Forall_app. split; [|done]. apply shutdown_act_ok. by intros Hn%Hq; inversion_clear Hn.
Qed.

Lemma remove_all_spec hs : ∀ socks, NoDup hs → (∀ h, h ∈ hs → is_Some (socks !! h)) →
  ∃ socks', remove_all socks hs = Some socks' ∧ ∀ h, socks' !! h = if decide (h ∈ hs) then None else socks !! h.
Proof.
  induction hs as [|x hs IH]; intros socks Hnd Hd; cbn; [by exists socks|].
  apply NoDup_cons in Hnd as [Hni Hnd]. destruct (Hd x) as [s ->]; [left|]. cbn.
  destruct (IH (delete x socks)) as (socks' & -> & Hs); [done| |].
  { intros h H. rewrite lookup_delete_ne; [apply Hd; by right|]. by intros ->. }
  exists socks'. split; [done|]. intros h. rewrite Hs. destruct (decide (h = x)) as [->|Hne].
  - rewrite (decide_True (P := x ∈ x :: hs)) by left. case_decide; [done|apply lookup_delete_eq].
  - rewrite lookup_delete_ne by done. repeat case_decide; set_solver.
Qed.

(** What stays: the forwarded ports and every dynamic mapping that is not
    closed. *)
Lemma reclaim_keeps (socks : gmap N socket) pc ms : NoDup (handle <$> ms) →
  filter (λ m, handle m ∉ handle <$> filter (closed_in socks) (drop pc ms)) ms =
  take pc ms ++ filter (λ m, ¬ closed_in socks m) (drop pc ms).
Proof.
  intros Hnd. set (R := handle <$> filter _ _).
  trans (filter (λ m, handle m ∉ R) (take pc ms ++ drop pc ms)); [by rewrite take_drop|].
  rewrite filter_app. f_equal.
  - apply filter_all, Forall_forall. intros m Hm (m' & Heq & [_ Hm']%list_elem_of_filter)%list_elem_of_fmap.
    rewrite <- (take_drop pc ms), fmap_app in Hnd. apply NoDup_app in Hnd as (_ & Hdis & _).
    eapply Hdis; [by eapply list_elem_of_fmap_2|]. rewrite Heq. by apply list_elem_of_fmap_2.
  - apply filter_agree. intros m Hm. apply not_iff_compat. split.
    + intros (m' & Heq & [Hc Hm']%list_elem_of_filter)%list_elem_of_fmap.
      unfold closed_in in *. by rewrite Heq.
    + intros Hc. by apply list_elem_of_fmap_2, list_elem_of_filter.
Qed.

Lemma reclaim_spec cfg P socks ms additional : pool_ok cfg socks ms → permanent_count cfg <= length ms →
  ∃ socks' acts,
    let ms' := take (permanent_count cfg) ms ++ filter (λ m, ¬ closed_in socks m) (drop (permanent_count cfg) ms) in
    reclaim_and_has_room socks ms (permanent_count cfg) additional =
      Some ((N.of_nat (length ms' - permanent_count cfg) + N.of_nat additional <=? MAX_DYNAMIC_SOCKETS)%N,
            socks', ms', acts) ∧
    pool_ok cfg socks' ms' ∧ Forall (act_ok (egress cfg) P) acts.
Proof.
  intros Hp Hl. set (pc := permanent_count cfg) in *. unfold reclaim_and_has_room.
  destruct (reclaimable_spec (egress cfg) P socks pc ms 0) as (acts & E & Ha); [by intros h; apply Hp|apply Hp|].
  rewrite E. cbn [mbind option_bind]. rewrite Nat.sub_0_r.
  pose proof (reclaim_keeps socks pc ms (po_handles _ _ _ Hp)) as Hkeep.
  set (R := handle <$> filter (closed_in socks) (drop pc ms)) in *.
  destruct (remove_all_spec R socks) as (socks' & Er & Hs').
  { eapply sublist_NoDup; [apply (po_handles _ _ _ Hp)|]. unfold R.
    apply fmap_sublist. etrans; [apply sublist_filter|apply sublist_drop]. }
  { intros h (m & -> & [_ Hm]%list_elem_of_filter)%list_elem_of_fmap. apply Hp, list_elem_of_fmap_2.
    by eapply subseteq_drop. }
  rewrite Er, Hkeep. cbn [mbind option_bind]. exists socks', acts. split_and!; [done| |done]. split.
  - rewrite <- Hkeep. eapply sublist_NoDup; [apply Hp|apply fmap_sublist, sublist_filter].
  - intros h. rewrite Hs', <- Hkeep. split.
    + case_decide as Hr; [by intros []|]. intros (m & -> & Hm)%Hp%list_elem_of_fmap.
      by apply list_elem_of_fmap_2, list_elem_of_filter.
    + intros (m & -> & [Hr Hm]%list_elem_of_filter)%list_elem_of_fmap. rewrite decide_False by done.
      by apply Hp, list_elem_of_fmap_2.
  - intros i m [Hi|[Hge Hi]]%lookup_app_Some.
    + apply lookup_take_Some in Hi as [Hi Hlt]. pose proof (po_role _ _ _ Hp i m Hi) as Hr. unfold role_ok in *.
      fold pc in Hr |- *. rewrite decide_True in Hr |- * by done. destruct Hr as (? & ? & Hr). split_and!; [done..|].
      intros s. rewrite Hs'. case_decide; [done|]. apply Hr.
    + rewrite length_take, Nat.min_l in Hge by done. apply list_elem_of_lookup_2, list_elem_of_filter in Hi as [_ Hi].
      apply list_elem_of_lookup_1 in Hi as [j Hj]. rewrite lookup_drop in Hj.
      pose proof (po_role _ _ _ Hp _ m Hj) as Hr. unfold role_ok in *. fold pc in Hr |- *.
      rewrite decide_False in Hr by lia. by rewrite decide_False by lia.
  - intros Hd. rewrite <- Hkeep. apply Forall_forall. intros m [_ Hm]%list_elem_of_filter.
    revert m Hm. apply Forall_forall. by apply Hp.
Qed.

Lemma served_from_some socks pc dst : ∀ ms idx, (∀ h, h ∈ handle <$> ms → is_Some (socks !! h)) →
  is_Some (served_from socks pc idx ms dst).
Proof.
  induction ms as [|m ms IH]; intros idx Hd; cbn [served_from]; [by eexists|].
  destruct (IH (S idx)) as [b Hb]; [intros h H; apply Hd; by right|].
  destruct (listen_port m =? dst)%N; cbn; [|by rewrite Hb].
  case_decide; [by eexists|]. destruct (Hd (handle m)) as [s ->]; [left|]. cbn. rewrite Hb. case_match; by eexists.
Qed.

(** The pool after an admission. *)
Definition pool_bounded (cfg : nat_config) (ms : list NatPortMapping) : Prop :=
  permanent_count cfg <= length ms ∧
  (N.of_nat (length ms) <= N.of_nat (permanent_count cfg) + MAX_DYNAMIC_SOCKETS)%N.

Lemma admit_syn_spec cfg P socks ms dst pxy burst : pool_ok cfg socks ms → pool_bounded cfg ms →
  proxy_port cfg = Some pxy →
  ∃ socks' ms' acts, admit_syn socks ms (permanent_count cfg) dst pxy burst = Some (socks', ms', acts) ∧
    pool_ok cfg socks' ms' ∧ pool_bounded cfg ms' ∧ Forall (act_ok (egress cfg) P) acts.
Proof.
  intros Hp [Hlo Hhi] Hx. unfold admit_syn, syn_already_served.
  destruct (served_from_some socks (permanent_count cfg) dst ms 0) as [[] ->]; [by intros h; apply Hp|..]; cbn.
  { by exists socks, ms, []. }
  destruct (reclaim_spec cfg P socks ms burst Hp Hlo) as (socks1 & acts & E & Hp1 & Ha). cbv zeta in E, Hp1.
  set (ms1 := take _ _ ++ _) in *. rewrite E. cbn.
  assert (Hl1 : permanent_count cfg <= length ms1 <= length ms).
  { unfold ms1. rewrite length_app, length_take.
    pose proof (length_filter (λ m, ¬ closed_in socks m) (drop (permanent_count cfg) ms)) as Hf.
    rewrite length_drop in Hf. lia. }
  destruct (N.leb_spec (N.of_nat (length ms1 - permanent_count cfg) + N.of_nat burst) MAX_DYNAMIC_SOCKETS)
    as [Hroom|Hroom]; cbn [negb].
  2:{ eexists _, _, _. split; [done|]. split_and!; [done|unfold pool_bounded; lia|done]. }
  destruct (add_mappings_spec cfg burst (listen new_socket {| ep_addr := None; ep_port := dst |}) dst pxy socks1 ms1)
    as (socks2 & ms2 & -> & Hp2 & Hl2); [done| |].
  { intros i h socks' Hi _. unfold role_ok. by rewrite decide_False by lia. }
  eexists _, _, _. split; [done|]. split_and!; [done|unfold pool_bounded; lia|done].
Qed.

Lemma scan_syns_spec cfg P pxy : proxy_port cfg = Some pxy → ∀ packets socks ms,
  pool_ok cfg socks ms → pool_bounded cfg ms →
  ∃ socks' ms' acts, scan_syns socks ms (permanent_count cfg) pxy packets = Some (socks', ms', acts) ∧
    pool_ok cfg socks' ms' ∧ pool_bounded cfg ms' ∧ Forall (act_ok (egress cfg) P) acts.
Proof.
  intros Hx. induction packets as [|f packets IH]; intros socks ms Hp Hb; cbn [scan_syns].
  { by exists socks, ms, []. }
  assert (Hstep : ∃ socks' ms' acts,
    match syn_port f with
    | Some dst_port => admit_syn socks ms (permanent_count cfg) dst_port pxy SYN_BURST
    | None => Some (socks, ms, [])
    end = Some (socks', ms', acts) ∧ pool_ok cfg socks' ms' ∧ pool_bounded cfg ms' ∧
    Forall (act_ok (egress cfg) P) acts).
  { destruct (syn_port f); [by apply admit_syn_spec|by exists socks, ms, []]. }
  destruct Hstep as (socks1 & ms1 & acts & -> & Hp1 & Hb1 & Ha). cbn.
  destruct (IH socks1 ms1 Hp1 Hb1) as (socks2 & ms2 & more & -> & Hp2 & Hb2 & Hm). cbn.
  eexists _, _, _. split; [done|]. split_and!; [done..|by apply Forall_app].
Qed.

(** The poll keeps the pool. *)
Lemma poll_pool cfg now q socks ms : pool_ok cfg socks ms → pool_ok cfg (poll now socks q).1.1 ms.
Proof.
  intros Hp. pose proof (poll_dom now socks q) as Hd. split; [apply Hp| |..|apply Hp].
  - intros h. rewrite <- (po_sockets _ _ _ Hp), <- !elem_of_dom. by rewrite Hd.
  - intros i m Hi. pose proof (po_role _ _ _ Hp i m Hi) as Hr. unfold role_ok in *. case_decide; [|done].
    destruct Hr as (? & ? & Hr). split_and!; [done..|]. intros s' Hs' ep Hl.
    assert (is_Some (socks !! handle m)) as [s Hs] by (apply elem_of_dom; rewrite <- Hd; apply elem_of_dom; eauto).
    apply (Hr s Hs). destruct (poll_endpoint now socks q _ s s' Hs Hs'); congruence.
Qed.

(** Serving the mappings keeps the pool. *)
Lemma serve_pool cfg hosts socks ms : (∀ i, host_ok (hosts i)) → pool_ok cfg socks ms →
  ∃ socks' ms' acts,
    serve_mappings (egress cfg) (gateway cfg) (permanent_count cfg) 0 hosts socks ms = Some (socks', ms', acts) ∧
    pool_ok cfg socks' ms' ∧ length ms' = length ms ∧
    Forall (act_ok (egress cfg) (λ p, p ∈ forward_ports cfg ∨ proxy_port cfg = Some p)) acts.
Proof.
  intros Hh Hp. destruct (serve_mappings_spec (egress cfg) (gateway cfg) (permanent_count cfg) hosts Hh ms 0 socks)
    as (socks' & ms' & acts & E & Hms & Hd & _ & Hq & Ha & Hpin);
    [apply Hp|by intros h; apply Hp|apply Hp|].
  exists socks', ms', acts. split; [done|].
  assert (Hhs : handle <$> ms' = handle <$> ms).
  { clear -Hms. induction Hms as [|m m' ms ms' Hm _ IH]; [done|]. rewrite !fmap_cons, IH. by rewrite Hm. }
  split_and!; [split|by symmetry; eapply Forall2_length|].
  - rewrite Hhs. apply Hp.
  - intros h. rewrite Hhs, <- (po_sockets _ _ _ Hp), <- !elem_of_dom. by rewrite Hd.
  - intros i m' Hi. destruct (Forall2_lookup_r _ _ _ _ _ Hms Hi) as (m & Hm & Hsame).
    pose proof (po_role _ _ _ Hp i m Hm) as Hr. unfold role_ok in *. rewrite Hsame. case_decide as Hlt; [|done].
    destruct Hr as (? & ? & Hr). split_and!; [done..|]. intros s' Hs'.
    assert (is_Some (socks !! handle m)) as [s Hs] by (apply elem_of_dom; rewrite <- Hd; apply elem_of_dom; eauto).
    exact (Hpin i m s s' Hm Hlt Hs Hs' (Hr s Hs)).
  - done.
  - eapply Forall_impl; [exact Ha|]. intros []; try done. cbn. intros [? (m & -> & Hm)%list_elem_of_fmap].
    split; [done|]. apply list_elem_of_lookup_1 in Hm as [i Hi]. pose proof (po_role _ _ _ Hp i m Hi) as Hr.
    unfold role_ok in Hr. case_decide; naive_solver.
Qed.

(** *** Every run *)

Definition event_ok (e : event) : Prop :=
  match e with
  | SetMemTable m => mem_ok m
  | Tick _ _ hosts => ∀ i, host_ok (hosts i)
  | _ => True
  end.

Definition frames_ok (q : list frame) : Prop := Forall (λ f, len f <= 1500)%N q.

Record shared_ok (st : SharedState) : Prop := {
  so_tx : (len (tx_queue st) <= MAX_TX_QUEUE_FRAMES)%N;
  so_tx_frames : frames_ok (tx_queue st);
  so_rx_frames : frames_ok (rx_queue st);
  so_mem m : mem st = Some m → mem_ok m;
}.

Record network_ok (cfg : nat_config) (n : network) : Prop := {
  no_shared : shared_ok (shared n);
  no_drops : (UserNet.tx_drops n < 2 ^ 64)%N;
  no_pool : pool_ok cfg (sockets n) (port_mappings n);
  no_bounded : pool_bounded cfg (port_mappings n);
}.

Definition known_target (cfg : nat_config) (p : N) : Prop := p ∈ forward_ports cfg ∨ proxy_port cfg = Some p.

Lemma start_network_ok cfg : network_ok cfg (start cfg).
Proof.
  pose proof (permanent_mappings_ok cfg (forward_ports cfg) (∅, [])) as Hp. cbv zeta in Hp.
  unfold start. fold (permanent_mappings (forward_ports cfg)) in Hp.
  assert (Hl : length (permanent_mappings (forward_ports cfg)).2 = permanent_count cfg) by done.
  destruct (permanent_mappings (forward_ports cfg)) as [socks ms]. cbn in Hl, Hp. split; cbn.
  - split; cbn; [apply N.le_0_l|constructor..|done].
  - done.
  - apply Hp; [|by rewrite permanent_count_eq|done]. split; cbn.
    + constructor.
    + intros h. rewrite lookup_empty. split; [by intros []|by intros ?%elem_of_nil].
    + done.
    + constructor.
  - unfold pool_bounded. lia.
Qed.

Lemma process_tx_ok st ring drops : shared_ok st → (drops < 2 ^ 64)%N →
  ∃ pass st' drops' reports used, process_tx_queue st ring drops = (pass, st', drops', reports, used) ∧
    shared_ok st' ∧ (drops' < 2 ^ 64)%N.
Proof.
  intros Hs Hd. unfold process_tx_queue. destruct (mem st) as [m|] eqn:Em; [|by eauto 10].
  destruct (avail ring) as [chains|]; [|by eauto 10].
  destruct (tx_chains_exact m chains {| t_queue := tx_queue st; t_drops := drops; t_reports := [] |})
    as [Hq Hdr]; [by eapply so_mem|apply Hs|done|]. cbn [t_queue t_drops] in Hq, Hdr.
  eexists _, _, _, _, _. split; [done|]. rewrite Hdr. split; [|by apply N.mod_lt]. split; cbn [tx_queue rx_queue mem with_tx].
  - rewrite Hq, len_app. pose proof (so_tx _ Hs).
    pose proof (length_take (omap (chain_frame m) chains) (N.to_nat (MAX_TX_QUEUE_FRAMES - len (tx_queue st)))).
    unfold len at 2. lia.
  - rewrite Hq. apply Forall_app. split; [apply Hs|]. apply Forall_take, Forall_forall.
    intros f (c & _ & Hc)%list_elem_of_omap. by eapply chain_frame_bounded.
  - apply Hs.
  - apply Hs.
Qed.

Lemma deliver_suffix m chains : ∀ rx, ∃ k, (deliver m rx chains).1 = drop k rx.
Proof.
  induction chains as [|c chains IH]; intros [|p rx]; cbn; [by exists 0..|].
  destruct (IH rx) as [k Hk]. destruct (deliver m rx chains). by exists (S k).
Qed.

Lemma process_rx_ok st ring : shared_ok st → shared_ok (process_rx_queue st ring).1.1.
Proof.
  intros Hs. unfold process_rx_queue. destruct (mem st) as [m|]; [|done]. destruct (vrings st) as [[|]|]; [done| |done].
  destruct (avail ring) as [chains|]; [|done]. destruct (deliver_suffix m chains (rx_queue st)) as [k Hk].
  destruct (deliver m (rx_queue st) chains) as [rest used]. cbn in Hk |- *. subst rest.
  split; [apply Hs..| |apply Hs]. apply Forall_drop, Hs.
Qed.

Lemma step_network_ok cfg e n : event_ok e → network_ok cfg n →
  ∃ n' acts, step cfg e n = Some (n', acts) ∧ network_ok cfg n' ∧
    Forall (act_ok (egress cfg) (known_target cfg)) acts.
Proof.
  intros He [Hs Hd Hp Hb]. destruct e as [m|rings|ring|now ring hosts|]; cbn [step].
  - eexists _, _. split; [done|]. split; [|constructor]. split; [|done..]. split; [apply Hs..|].
    cbn. by intros ? [= <-].
  - eexists _, _. split; [done|]. split; [|constructor]. split; [|done..]. unfold latch. cbn.
    destruct (vrings (shared n)); [done|]. split; apply Hs.
  - destruct (process_tx_ok (shared n) ring (UserNet.tx_drops n) Hs Hd) as (? & ? & ? & ? & ? & -> & Hs' & Hd').
    eexists _, _. split; [done|]. split; [by split|constructor].
  - unfold tick. pose proof (process_rx_ok _ ring Hs) as Hs1.
    destruct (process_rx_queue (shared n) ring) as [[st used] sig]. cbn in Hs1.
    assert (Hscan : ∃ socks ms acts,
      match proxy_port cfg with
      | Some pxy_port => scan_syns (sockets n) (port_mappings n) (permanent_count cfg) pxy_port (tx_queue st)
      | None => Some (sockets n, port_mappings n, [])
      end = Some (socks, ms, acts) ∧ pool_ok cfg socks ms ∧ pool_bounded cfg ms ∧
      Forall (act_ok (egress cfg) (known_target cfg)) acts).
    { destruct (proxy_port cfg) eqn:Ex; [by apply scan_syns_spec|by eexists _, _, []]. }
    destruct Hscan as (socks & ms & acts & -> & Hp1 & Hb1 & Ha). cbn [mbind option_bind].
    pose proof (poll_pool cfg now (tx_queue st) socks ms Hp1) as Hp2.
    pose proof (poll_mtu now socks (tx_queue st)) as Hmtu.
    destruct (poll now socks (tx_queue st)) as [[socks2 taken] sent]. cbn in Hp2, Hmtu.
    destruct (serve_pool cfg hosts socks2 ms He Hp2) as (socks3 & ms3 & more & -> & Hp3 & Hl & Hm). cbn.
    eexists _, _. split; [done|]. split; [|by apply Forall_app]. split; cbn; [|done..|].
    + split; cbn; [| | |apply Hs1].
      * pose proof (so_tx _ Hs1). unfold len in *. rewrite length_drop. lia.
      * apply Forall_drop, Hs1.
      * apply Forall_app. split; [apply Hs1|done].
    + unfold pool_bounded in *. by rewrite Hl.
  - eexists _, _. split; [done|]. split; [|constructor]. split; [|done..].
    split; cbn; [apply N.le_0_l|constructor..|done].
Qed.

Lemma run_network_ok cfg es : ∀ n, Forall event_ok es → network_ok cfg n →
  ∃ n' acts, run cfg es n = Some (n', acts) ∧ network_ok cfg n' ∧
    Forall (act_ok (egress cfg) (known_target cfg)) acts.
Proof.
  induction es as [|e es IH]; intros n Hes Hn; cbn [run]; [by eexists _, []|].
  inversion_clear Hes. destruct (step_network_ok cfg e n) as (n1 & acts & -> & Hn1 & Ha); [done..|]. cbn.
  destruct (IH n1) as (n2 & more & -> & Hn2 & Hm); [done..|]. cbn. eexists _, _. split; [done|].
  split; [done|by apply Forall_app].
Qed.

Lemma pool_size cfg socks ms : pool_ok cfg socks ms → size socks = length ms.
Proof.
  intros Hp. rewrite <- size_dom, <- (length_fmap handle ms), <- (size_list_to_set (C := gset N)) by apply Hp.
  f_equal. apply set_eq. intros h. rewrite elem_of_dom, elem_of_list_to_set. apply Hp.
Qed.

(** C11: Whatever the guest puts in its rings and memory, however its kicks and
    reconnections interleave with the loop's turns, and whatever the host
    connections answer, the loop's thread never panics; the queue of frames from
    the guest never holds more than 4096 frames, no queued frame is longer than
    1500 bytes, and there is one socket per mapping, at most sixteen per
    forwarded port and 256 more. *)
Theorem network_bounded cfg es : Forall event_ok es →
  ∃ n acts, run cfg es (start cfg) = Some (n, acts) ∧
    (len (tx_queue (shared n)) <= MAX_TX_QUEUE_FRAMES)%N ∧
    frames_ok (tx_queue (shared n)) ∧ frames_ok (rx_queue (shared n)) ∧
    size (sockets n) = length (port_mappings n) ∧
    (N.of_nat (size (sockets n)) <=
     N.of_nat FORWARD_PORT_POOL * len (forward_ports cfg) + MAX_DYNAMIC_SOCKETS)%N.
Proof.
  intros Hes. destruct (run_network_ok cfg es (start cfg) Hes (start_network_ok cfg)) as (n & acts & E & [Hs _ Hp [_ Hb]] & _).
  exists n, acts. rewrite (pool_size _ _ _ Hp). split_and!; [done|apply Hs..|done|].
  rewrite permanent_count_eq in Hb. unfold len. lia.
Qed.

(** C21: Over any run, the loop dials nothing but a forwarded port or the proxy's
    port on the host; and with egress blocked it opens, writes, reads and closes
    no host connection at all. *)
Theorem dials_known_targets cfg es n acts :
  Forall event_ok es → run cfg es (start cfg) = Some (n, acts) →
  (∀ p got, Dial p got ∈ acts → p ∈ forward_ports cfg ∨ proxy_port cfg = Some p) ∧
  (egress cfg = Deny → acts = [] ∧ Forall (λ m, host_stream m = None) (port_mappings n)).
Proof.
  intros Hes E. destruct (run_network_ok cfg es (start cfg) Hes (start_network_ok cfg)) as (n' & acts' & E' & [_ _ Hp _] & Ha).
  rewrite E in E'. injection E' as <- <-. split.
  - intros p got H. rewrite Forall_forall in Ha. by destruct (Ha _ H).
  - intros Hd. split; [|by apply Hp]. destruct acts as [|a acts]; [done|].
    inversion_clear Ha as [|?? [Hal _] _]. congruence.
Qed.

(** C38: A listening socket of a forwarded port accepts connections for the VM's
    own gateway address and that port only, and what it accepts is dialled on
    the same port of the host. *)
Theorem forwards_pinned_to_gateway cfg es n acts i m s :
  Forall event_ok es → run cfg es (start cfg) = Some (n, acts) →
  port_mappings n !! i = Some m → i < permanent_count cfg → sockets n !! handle m = Some s →
  is_listening s = true →
  listens_on s = Some {| ep_addr := Some (gateway cfg); ep_port := target_port m |} ∧
  target_port m ∈ forward_ports cfg.
Proof.
  intros Hes E Hi Hlt Hs Hl.
  destruct (run_network_ok cfg es (start cfg) Hes (start_network_ok cfg)) as (n' & acts' & E' & [_ _ Hp _] & _).
  rewrite E in E'. injection E' as <- <-. pose proof (po_role _ _ _ Hp i m Hi) as Hr. unfold role_ok in Hr.
  rewrite decide_True in Hr by done. destruct Hr as (Ht & Hin & Hpin).
  destruct (listening_endpoint s Hl) as [ep Hep]. split; [|done].
  rewrite Hep, (Hpin s Hs ep Hep), Ht. done.
Qed.

(** *** A spliced connection *)

Lemma serve_open_kept eg h m stream s m' s' acts x : host_ok h →
  serve_open eg h m stream s = Some (m', s', acts) → host_stream m' = Some x →
  ∃ dialled moved, acts = dialled ++ moved ∧ transfer x s s' moved ∧
    (stream = Some x ∧ dialled = [] ∨ stream = None ∧ dialled = [Dial (target_port m) (Some x)]).
Proof.
  intros Hh. unfold serve_open. destruct (can_send s || can_recv s); cbn [negb].
  2:{ intros [= <- <- <-] Hx. cbn in Hx. exists [], []. split_and!; [done|apply transfer_refl|by left]. }
  destruct (connect_host eg h m stream) as [[refused st] dialled] eqn:Ec. destruct st as [y|].
  2:{ cbn. destruct refused; by intros [= <- <- <-] [=]. }
  destruct (splice_spec h refused y s Hh) as (closed & s1 & moved & E & T). rewrite E. cbn.
  destruct closed; intros [= <- <- <-] [= <-]. exists dialled, moved. split_and!; [done..|].
  unfold connect_host in Ec. destruct stream as [z|]; [injection Ec as <- <- <-; by left|].
  destruct (dial_host_target eg (target_port m) h) as [z|[]]; simplify_eq/=. by right.
Qed.


(** ** What the loop does not keep apart *)

Lemma serve_open_busy eg gw perm h m s : is_open s = true →
  serve_mapping eg gw perm h m s = serve_open eg h m (host_stream m) s.
Proof.
  intros Ho. unfold serve_mapping. rewrite Ho. by destruct (serve_open eg h m (host_stream m) s) as [[[??]?]|].
Qed.

(** When the host ends a connection the guest's socket is only half closed: the
    bytes the guest had sent and the host did not take are written to a new
    host connection on the next turn. *)
Theorem leftover_bytes_redialled gw perm m s x h h' y :
  is_open s = true → can_send s = true → can_recv s = true → host_stream m = Some x →
  (∀ n, try_read h x n = Ok []) → (∀ b, try_write h x b = Err WouldBlock) →
  dial h' (target_port m) = Some y → (∀ b, try_write h' y b = Ok (len b)) →
  ∃ m1 s1 a1 m2 s2 run rest,
    serve_mapping Allow gw perm h m s = Some (m1, s1, a1) ∧
    serve_mapping Allow gw perm h' m1 s1 = Some (m2, s2, [Dial (target_port m) (Some y); ToHost y run]) ∧
    inbound s = run ++ rest ∧ run ≠ [] ∧ host_stream m2 = Some y.
Proof.
  intros Ho Hs Hr Hx Hrd Hwr Hd Hwr'. destruct (recv_offers s Hr) as (r0 & rest0 & Er0 & Hne0 & Hin0).
  set (s0 := dequeue s 0). destruct (dequeue_drops s 0 Hr) as (Hi & _ & _ & Ho0 & Hr0). fold s0 in Hi, Ho0, Hr0.
  rewrite drop_0 in Hi, Hr0.
  assert (Hr1 : can_recv s0 = true).
  { rewrite Hr0. apply bool_decide_eq_true_2. rewrite Hin0. by destruct r0. }
  destruct (close_transmit_half s0 Hr1) as (Hc & Hci & Hco). rewrite Ho0 in Hco. specialize (Hco Ho).
  assert (E1 : ∃ a1, serve_mapping Allow gw perm h m s = Some (with_stream None m, close s0, a1)).
  { rewrite serve_open_busy by done. unfold serve_open. rewrite Hs, Hx. cbn [orb negb connect_host splice].
    unfold pump_from_host. rewrite Hs. cbn [negb]. set (avail := host_read_budget _ _ _).
    assert (Hav : (0 < avail)%N) by (pose proof (send_room s Hs); unfold avail, host_read_budget; lia).
    destruct (N.eqb_spec avail 0); [lia|]. rewrite Hrd. cbn [mbind option_bind]. unfold pump_to_host.
    rewrite Hr. cbn [negb]. rewrite Er0. unfold drain_to_host. destruct r0; [done|]. rewrite Hwr. cbn.
    destruct (N.ltb_spec 0 avail); [|lia]. cbn. eauto. }
  destruct E1 as [a1 E1]. destruct (recv_offers (close s0) Hc) as (r1 & rest1 & Er1 & Hne1 & Hin1).
  exists (with_stream None m), (close s0), a1, (with_stream (Some y) m), (dequeue (close s0) (len r1)), r1, rest1.
  split; [exact E1|]. split_and!; [|congruence|done|].
  - rewrite serve_open_busy by done. unfold serve_open. rewrite Hc, orb_true_r. cbn [negb connect_host with_stream host_stream].
    unfold dial_host_target. cbn [target_port with_stream]. rewrite Hd. cbn [ok_or splice]. unfold pump_from_host.
    rewrite close_stops_sending. cbn [negb mbind option_bind]. unfold pump_to_host. rewrite Hc, Er1. cbn [negb].
    unfold drain_to_host. destruct r1 as [|b r1]; [done|]. rewrite Hwr', N.min_id, N.ltb_irrefl. cbn [orb].
    unfold len at 2. rewrite Nat2N.id, firstn_all. done.
  - done.
Qed.

(** The turns of one mapping. *)
Fixpoint turns (k : nat) (eg : NatEgressPolicy) (gw : Ipv4Addr) (perm : bool) (h : host) (m : NatPortMapping)
    (s : socket) : option (NatPortMapping * socket * list act) :=
  match k with
  | O => Some (m, s, [])
  | S k =>
      '(m, s, acts) ← serve_mapping eg gw perm h m s;
      '(m, s, more) ← turns k eg gw perm h m s;
      Some (m, s, acts ++ more)
  end.

(** A guest connection whose host dial fails is dialled again on every turn as
    long as bytes the guest sent are queued. *)
Theorem refused_dial_repeats k gw perm h m s :
  is_open s = true → can_recv s = true → host_stream m = None → dial h (target_port m) = None →
  ∃ m' s', turns k Allow gw perm h m s = Some (m', s', replicate k (Dial (target_port m) None)) ∧
    inbound s' = inbound s.
Proof.
  revert m s. induction k as [|k IH]; intros m s Ho Hr Hx Hd; cbn [turns]; [by exists m, s|].
  destruct (close_transmit_half s Hr) as (Hc & Hci & Hco). rewrite serve_open_busy by done.
  unfold serve_open. rewrite Hr, orb_true_r. cbn [negb]. unfold connect_host, dial_host_target. rewrite Hx, Hd. cbn.
  destruct (IH (with_stream None m) (close s)) as (m' & s' & -> & Hi); [by auto|done..|]. cbn.
  exists m', s'. split; [done|congruence].
Qed.

Definition idle_in (socks : gmap N socket) (m : NatPortMapping) : Prop :=
  is_listening <$> socks !! handle m = Some true.

Lemma not_served socks pc dst : ∀ ms idx, dst ∉ listen_port <$> ms → served_from socks pc idx ms dst = Some false.
Proof.
  induction ms as [|m ms IH]; intros idx Hdst; cbn [served_from]; [done|].
  rewrite fmap_cons in Hdst. apply not_elem_of_cons in Hdst as [Hne Hdst].
  rewrite (proj2 (N.eqb_neq _ _)) by done. by apply IH.
Qed.

Lemma reclaimable_idle socks pc : ∀ ms idx, Forall (idle_in socks) (drop (pc - idx) ms) →
  reclaimable socks pc idx ms = Some ([], []).
Proof.
  induction ms as [|m ms IH]; intros idx Hi; cbn [reclaimable]; [done|]. case_decide.
  { apply IH. by replace (pc - idx) with (S (pc - S idx)) in Hi by lia. }
  replace (pc - idx) with 0 in Hi by lia. inversion_clear Hi as [|?? Hm Hms].
  unfold idle_in in Hm. destruct (socks !! handle m) as [s|]; [|done]. cbn in Hm |- *.
  injection Hm as Hm%listening_open. rewrite IH, Hm; [done|]. by replace (pc - S idx) with 0 by lia.
Qed.

(** An unclaimed listener is never given back: a turn leaves it as it is, and
    once the dynamic pool has no room for a burst of further ones a connection
    to any other port is refused. *)
Theorem idle_listeners_fill_pool socks ms pc dst pxy :
  Forall (idle_in socks) (drop pc ms) → dst ∉ listen_port <$> ms →
  (MAX_DYNAMIC_SOCKETS < N.of_nat (length ms - pc) + N.of_nat SYN_BURST)%N →
  admit_syn socks ms pc dst pxy SYN_BURST = Some (socks, ms, []) ∧
  ∀ eg gw perm h m s, is_listening s = true → serve_mapping eg gw perm h m s = Some (m, s, []).
Proof.
  intros Hidle Hdst Hfull. split.
  - unfold admit_syn, syn_already_served, reclaim_and_has_room. rewrite not_served by done. cbn [mbind option_bind].
    rewrite reclaimable_idle by (by rewrite Nat.sub_0_r). cbn [mbind option_bind remove_all].
    rewrite filter_all by (apply Forall_forall; intros ???; by eapply elem_of_nil).
    by rewrite (proj2 (N.leb_gt _ _)).
  - intros eg gw perm h m s Hlis. rewrite serve_open_busy by (by apply listening_open). unfold serve_open.
    destruct (listening_idle s Hlis) as [-> ->]. by destruct m.
Qed.

(** A ring the guest put nothing into. *)
Definition empty_ring : vring := {| avail := Some []; add_used_ok _ := true |}.

Lemma deliver_none m rx : deliver m rx [] = (rx, []).
Proof. by destruct rx. Qed.

Lemma no_buffers st : (process_rx_queue st empty_ring).1.1 = st.
Proof.
  unfold process_rx_queue. destruct (mem st) as [m|]; [|done]. destruct (vrings st) as [[|]|]; [done| |done].
  cbn [avail empty_ring]. rewrite deliver_none. by destruct st.
Qed.

Definition quiet_network (m : guest_mem) (tx rx : list frame) : network :=
  {| shared := {| tx_queue := tx; rx_queue := rx; mem := Some m; vrings := None |}; tx_drops := 0;
     sockets := ∅; port_mappings := [] |}.

Lemma kick_one cfg m c f rx : mem_ok m → chain_frame m c = Some f →
  step cfg (TxKick {| avail := Some [c]; add_used_ok _ := true |}) (quiet_network m [] rx) =
  Some (quiet_network m [f] rx, []).
Proof.
  intros Hm Hf. unfold step, process_tx_queue. cbn [shared mem avail quiet_network foldl].
  rewrite tx_chain_frame, Hf by done. by rewrite decide_True by done.
Qed.

Lemma tick_one cfg m f r hosts rx : proxy_port cfg = None → (∀ now, poll now ∅ [f] = (∅, 1, [r])) →
  step cfg (Tick 0 empty_ring hosts) (quiet_network m [f] rx) = Some (quiet_network m [] (rx ++ [r]), []).
Proof.
  intros Hx Hp. unfold step, tick. cbn [shared quiet_network].
  pose proof (no_buffers (shared (quiet_network m [f] rx))) as Hr. cbn [shared quiet_network] in Hr.
  destruct (process_rx_queue _ empty_ring) as [[st u] b]. cbn in Hr. subst st. rewrite Hx.
  cbn [mbind option_bind tx_queue sockets port_mappings]. by rewrite Hp.
Qed.

(** The queue of frames to the guest has no bound: a guest that sends a frame
    the stack answers, and offers no buffer to receive into, grows it by one per
    turn. *)
Theorem replies_unbounded cfg m c f r hosts k :
  forward_ports cfg = [] → proxy_port cfg = None → mem_ok m → chain_frame m c = Some f →
  (∀ now, poll now ∅ [f] = (∅, 1, [r])) →
  let ring := {| avail := Some [c]; add_used_ok _ := true |} in
  ∃ n, run cfg (SetMemTable m :: concat (replicate k [TxKick ring; Tick 0 empty_ring hosts])) (start cfg) = Some (n, []) ∧
    rx_queue (shared n) = replicate k r.
Proof.
  intros Hports Hx Hm Hf Hp ring.
  assert (Hrun : ∀ k rx, run cfg (concat (replicate k [TxKick ring; Tick 0 empty_ring hosts])) (quiet_network m [] rx) =
    Some (quiet_network m [] (rx ++ replicate k r), [])).
  { clear k. induction k as [|k IH]; intros rx; cbn [replicate concat app run]; [by rewrite app_nil_r|].
    unfold ring in *. rewrite (kick_one cfg m c f) by done. cbn [mbind option_bind].
    rewrite (tick_one cfg m f r) by done. cbn [mbind option_bind]. rewrite IH. cbn. by rewrite <- app_assoc. }
  assert (Hs : step cfg (SetMemTable m) (start cfg) = Some (quiet_network m [] [], [])).
  { unfold start. by rewrite Hports. }
  exists (quiet_network m [] (replicate k r)). split; [|done]. cbn [run]. rewrite Hs. cbn [mbind option_bind].
  by rewrite Hrun.
Qed.

End laws.

(** ** A stack *)

(** A TCP stack small enough to run: a frame is a port, a flag and data; it
    opens a listening socket of the port where the flag is 1, is appended to an
    open one's data otherwise, and every frame is answered with one of its own. *)
Inductive phase := Idle | Listening (ep : endpoint) | Connected | HalfClosed.

Record sock := { so_phase : phase; so_in : frame; so_out : frame }.

Definition sock_open (s : sock) : bool := match so_phase s with Idle => false | _ => true end.
Definition sock_listening (s : sock) : bool := match so_phase s with Listening _ => true | _ => false end.
Definition sock_sends (s : sock) : bool :=
  match so_phase s with Connected => bool_decide (len (so_out s) < 65536)%N | _ => false end.
Definition sock_receives (s : sock) : bool :=
  match so_phase s with Listening _ => false | _ => bool_decide (so_in s ≠ []) end.
Definition sock_set (p : phase) (s : sock) : sock :=
  {| so_phase := p; so_in := so_in s; so_out := so_out s |}.

Definition sock_listen (s : sock) (ep : endpoint) : sock :=
  if sock_open s || (ep_port ep =? 0)%N then s
  else {| so_phase := Listening ep; so_in := []; so_out := [] |}.

Definition sock_close (s : sock) : sock :=
  match so_phase s with Connected => sock_set HalfClosed s | Listening _ => sock_set Idle s | _ => s end.

Definition sock_send (s : sock) (data : frame) : result unit N * sock :=
  let fits := take (N.to_nat (65536 - len (so_out s))) data in
  (Ok (len fits), {| so_phase := so_phase s; so_in := so_in s; so_out := so_out s ++ fits |}).

Definition sock_dequeue (s : sock) (n : N) : sock :=
  {| so_phase := so_phase s; so_in := drop (N.to_nat n) (so_in s); so_out := so_out s |}.

Definition sock_receive (f : frame) (s : sock) : sock :=
  match f, so_phase s with
  | port :: 1%N :: data, Listening ep =>
      if (ep_port ep =? port)%N
      then {| so_phase := Connected; so_in := data; so_out := [] |} else s
  | _ :: _ :: data, Connected =>
      {| so_phase := Connected; so_in := so_in s ++ data; so_out := so_out s |}
  | _, _ => s
  end.

#[local] Instance example_stack : Stack := {|
  socket := sock;
  new_socket := {| so_phase := Idle; so_in := []; so_out := [] |};
  is_open := sock_open;
  is_listening := sock_listening;
  can_send := sock_sends;
  can_recv := sock_receives;
  send_capacity _ := 65536%N;
  send_queue s := len (so_out s);
  listen := sock_listen;
  close := sock_close;
  send_slice := sock_send;
  recv_run s := Ok (so_in s);
  dequeue := sock_dequeue;
  fresh_handle m := fresh (dom m : gset N);
  poll _ m q := (foldl (λ m f, sock_receive f <$> m) m q, length q, (λ f, take 1500 f) <$> q);
  ethernet f := Some (ETHERTYPE_IPV4, f);
  ipv4 f := Some (IP_PROTOCOL_TCP, f);
  tcp f := match f with port :: flag :: _ => Some (port, bool_decide (flag = 1%N), false) | _ => None end;
|}.

Definition sock_endpoint (s : sock) : option endpoint :=
  match so_phase s with Listening ep => Some ep | _ => None end.

Lemma sock_receive_endpoint f s :
  sock_endpoint (sock_receive f s) = sock_endpoint s ∨ sock_endpoint (sock_receive f s) = None.
Proof.
  destruct s as [ph i o]. unfold sock_receive, sock_endpoint. destruct f as [|port [|flag data]]; [by left..|].
  cbn [so_phase]. destruct ph; cbn; repeat case_match; simplify_eq/=; by auto.
Qed.

Lemma example_poll q : ∀ m : gmap N sock,
  dom (foldl (λ m f, sock_receive f <$> m) m q) = dom m ∧
  ∀ h s s', m !! h = Some s → foldl (λ m f, sock_receive f <$> m) m q !! h = Some s' →
    sock_endpoint s' = sock_endpoint s ∨ sock_endpoint s' = None.
Proof.
  induction q as [|f q IH]; intros m; cbn [foldl].
  { split; [done|]. intros h s s' H1 H2. simplify_eq. by left. }
  destruct (IH (sock_receive f <$> m)) as [Hd He]. split; [by rewrite Hd, dom_fmap_L|].
  intros h s s' Hs Hs'. destruct (He h (sock_receive f s) s') as [-> | ->]; [by rewrite lookup_fmap, Hs|done| |by right].
  apply sock_receive_endpoint.
Qed.

#[local] Instance example_laws : StackLaws example_stack.
Proof.
  refine {| inbound := so_in : socket → frame; outbound := so_out : socket → frame;
            listens_on := sock_endpoint : socket → option endpoint |}; cbn.
  - intros m. apply not_elem_of_dom, is_fresh.
  - intros _ m q. apply example_poll.
  - intros _ _ q. apply Forall_fmap, Forall_forall. intros f _. cbn. unfold len. rewrite length_take. lia.
  - intros _ m q. apply example_poll.
  - done.
  - intros [[] ??]; done.
  - intros [[] ??]; done.
  - intros [[] ??]; done.
  - intros [[] ??] ep'; cbn; [|done..]. intros _ Hp. unfold sock_listen. cbn.
    by rewrite (proj2 (N.eqb_neq _ _) Hp).
  - intros s ep Hp. unfold sock_listen. by rewrite Hp, orb_true_r.
  - intros [[] ??]; cbn; [done..| |done]. by intros H%bool_decide_eq_true_1.
  - intros [[] i o] data; cbn; [done..| |done]. intros _ Hfit.
    eexists. unfold sock_send. cbn [so_out so_phase so_in]. rewrite take_ge by (unfold len in *; lia). by split_and!.
  - intros s Hr. exists (so_in s), []. rewrite app_nil_r. split_and!; [done| |done]. intros E.
    unfold sock_receives in Hr. rewrite E in Hr. destruct (so_phase s); done.
  - intros [[] i o] n Hr; done.
  - intros [[] i o] Hr; done.
  - intros [[] i o]; done.
  - intros [[] i o]; cbn; by auto.
Defined.

(** ** Witnesses *)

(** Memory that reads as a header, the address, a flag and a byte. *)
Definition example_mem : guest_mem := {|
  read_slice addr n := Some (resize (N.to_nat n) 0%N (replicate 12 0%N ++ [addr; 1; 7]%N));
  write_ok _ _ := true;
|}.

Lemma example_mem_ok : mem_ok example_mem.
Proof.
  intros addr n buf [= <-]. unfold len. rewrite length_resize. lia.
Qed.

Definition example_ring : vring := {|
  avail := Some [{| head_index := 5; readable := [{| d_addr := 443; d_len := 12 |}; {| d_addr := 443; d_len := 15 |}];
                    writable := [] |};
                 {| head_index := 6; readable := [{| d_addr := 443; d_len := 1513 |}]; writable := [] |};
                 {| head_index := 7; readable := [{| d_addr := 443; d_len := 15 |}]; writable := [] |}];
  add_used_ok _ := true;
|}.

Definition example_rx_ring : vring := {|
  avail := Some [{| head_index := 1; readable := [];
                    writable := [{| d_addr := 100; d_len := 10 |}; {| d_addr := 200; d_len := 10 |}] |}];
  add_used_ok _ := true;
|}.

Definition example_host : host := {|
  dial _ := Some 9%N;
  try_read _ n := Ok (take (N.to_nat n) [4; 5]%N);
  try_write _ _ := Ok 2%N;
|}.

Lemma example_host_ok : host_ok example_host.
Proof. intros x n data [= <-]. unfold len. rewrite length_take. lia. Qed.

Definition example_config : nat_config :=
  {| gateway := (10, 200, 2, 1)%N; forward_ports := [8080%N]; proxy_port := Some 3128%N; egress := Allow |}.

Definition example_events : list event :=
  [SetMemTable example_mem; Latch [0; 1]%N; TxKick example_ring; Tick 0 example_rx_ring (λ _, example_host);
   TxKick example_ring; Tick 5 example_rx_ring (λ _, example_host)].

Lemma example_events_ok : Forall event_ok example_events.
Proof.
  repeat apply Forall_cons_2; try exact I; try exact example_mem_ok; [intros i; exact example_host_ok..|constructor].
Qed.

Lemma tx_pass_exact_witness :
  ∃ reports, process_tx_queue (update_memory example_mem SharedState_new) example_ring 0 =
    (Drained, with_tx [replicate 12 0 ++ [443; 1; 7]; [443; 1; 7]] (update_memory example_mem SharedState_new), 0,
     reports, [(5, 0); (6, 0); (7, 0)])%N.
Proof.
  destruct (tx_pass_exact (update_memory example_mem SharedState_new) example_ring 0 example_mem
    (default [] (avail example_ring))) as (reports & E);
    [reflexivity|reflexivity|exact example_mem_ok|vm_compute; discriminate|vm_compute; reflexivity|].
  exists reports. rewrite E. vm_compute. reflexivity.
Defined.

Lemma rx_delivery_exact_witness :
  let st := with_rx [[1; 2; 3]; [4]]%N (latch [0; 1]%N (update_memory example_mem SharedState_new)) in
  ∃ used, (process_rx_queue st example_rx_ring).1 = (with_rx [[4]]%N st, used) ∧
    used = [(1, 15, [(100, replicate 10 0); (200, [0; 0; 1; 2; 3])])]%N ∧ length used = 1.
Proof.
  intros st.
  destruct (rx_delivery_exact st example_rx_ring example_mem 0%N [1%N] (default [] (avail example_rx_ring)))
    as (used & E & Hl & _); [reflexivity..|]. exists used. split; [exact E|]. split; [|exact Hl].
  apply (f_equal snd) in E. cbn [snd] in E. rewrite <- E. vm_compute. reflexivity.
Defined.

(** The example's run: the guest's connection to port 443 is spliced onto the
    proxy, and a forwarded port listens. *)
Lemma example_run : ∃ n acts m s,
  run example_config example_events (start example_config) = Some (n, acts) ∧
  take 3 acts = [Dial 3128 (Some 9); ToGuest 9 [4; 5]; ToHost 9 [7]]%N ∧
  port_mappings n !! 0 = Some m ∧ sockets n !! handle m = Some s ∧ is_listening s = true.
Proof.
  set (r := run example_config example_events (start example_config)).
  assert (E : ('(n, acts) ← r; m ← port_mappings n !! 0; s ← sockets n !! handle m; Some (take 3 acts, is_listening s))
    = Some ([Dial 3128 (Some 9); ToGuest 9 [4; 5]; ToHost 9 [7]]%N, true)) by (vm_compute; reflexivity).
  destruct r as [[n acts]|]; [cbn [mbind option_bind] in E|done].
  destruct (port_mappings n !! 0) as [m|] eqn:Em; [cbn [mbind option_bind] in E|done].
  destruct (sockets n !! handle m) as [s|] eqn:Es; [cbn [mbind option_bind] in E|done].
  injection E as E1 E2. by exists n, acts, m, s.
Qed.

Lemma network_bounded_witness :
  ∃ n acts, run example_config example_events (start example_config) = Some (n, acts) ∧
    (N.of_nat (size (sockets n)) <= 16 * 1 + 256)%N.
Proof.
  destruct (network_bounded example_config example_events example_events_ok)
    as (n & acts & E & _ & _ & _ & _ & H). exists n, acts. split; [exact E|exact H].
Defined.

Lemma dials_known_targets_witness :
  ∃ n acts, run example_config example_events (start example_config) = Some (n, acts) ∧
    Dial 3128 (Some 9%N) ∈ acts ∧ ∀ p got, Dial p got ∈ acts → p ∈ [8080%N] ∨ Some 3128%N = Some p.
Proof.
  destruct example_run as (n & acts & m & s & E & Ht & _). exists n, acts. split; [exact E|]. split.
  - rewrite <- (take_drop 3 acts), Ht. left.
  - apply (proj1 (dials_known_targets example_config example_events n acts example_events_ok E)).
Defined.

Lemma forwards_pinned_to_gateway_witness :
  ∃ n acts m s, run example_config example_events (start example_config) = Some (n, acts) ∧
    sockets n !! handle m = Some s ∧
    listens_on s = Some {| ep_addr := Some (10, 200, 2, 1)%N; ep_port := target_port m |} ∧
    target_port m ∈ [8080%N].
Proof.
  destruct example_run as (n & acts & m & s & E & _ & Em & Es & Hl). exists n, acts, m, s.
  split; [exact E|]. split; [exact Es|].
  apply (forwards_pinned_to_gateway example_config example_events n acts 0 m s example_events_ok E Em);
    [vm_compute; lia|exact Es|exact Hl].
Defined.

(** A connected socket with three bytes queued. *)
Definition example_sock : sock := {| so_phase := Connected; so_in := [1; 2; 3]%N; so_out := [8]%N |}.
Definition example_mapping : NatPortMapping :=
  {| listen_port := 443; target_port := 3128; handle := 0; host_stream := None |}.


Lemma handle_event_steps_witness :
  let n := quiet_network example_mem [] [] in
  ∃ st drops k,
    handle_event true 1 true [0; 1]%N (shared n) (UserNet.tx_drops n) ([(example_ring, Ok true)] ++ [(example_ring, Err ())]) =
      Some (Ok (st, drops)) ∧
    run example_config (Latch [0; 1]%N :: ((λ p : vring * result unit bool, TxKick p.1) <$>
        take k ([(example_ring, Ok true)] ++ [(example_ring, Err ())]))) n =
      Some ({| shared := st; tx_drops := drops; sockets := sockets n; port_mappings := port_mappings n |}, []).
Proof.
  intros n. apply (handle_event_steps example_config true 0 1 [(example_ring, Ok true)] example_ring (Err ()) n).
  right. discriminate.
Defined.

Definition example_turn (q : list frame) : turn := {|
  stopping := false; bind_ok := true; clone_ok := true; late_clone_ok := false; daemon_ok := true; daemon_starts := true;
  queued := q; connection := λ st, with_tx [[1]; [2]]%N (latch [0; 1]%N (update_memory example_mem st)); signals := 1 |}.

Lemma connections_start_clean_witness :
  let b := {| device := SharedState_new; exit_evt := false; exit_signals := 0 |} in
  let started := (serve_vhost_connections true [example_turn []; example_turn [[7]]%N] b).2 in
  length started = 2 ∧
  ∀ has_exit b', (has_exit, b') ∈ started → has_exit = true ∧ mem (device b') = None ∧ tx_queue (device b') = [].
Proof.
  intros b started. split; [reflexivity|]. intros has_exit b' H.
  destruct (connections_start_clean [example_turn []; example_turn [[7]]%N] true b has_exit b' eq_refl eq_refl H)
    as (H1 & _ & rx & H3 & _). rewrite H3. by split_and!.
Defined.
