(* ===== verification/Broker.v ===== *)
(** * The setup broker

    Models [crates/vmcell-broker/src/lib.rs]: the process that keeps the
    capabilities and performs the privileged steps another process asks for over
    a framed channel.  The steps themselves are [Tap]'s namespaces, [Cgroup]'s
    slices and [Sweep]'s pass; the broker owns the namespaces it made.  The
    serialisation is [postcard]'s and is a parameter, as are the scans and the
    answers of the host a sweep meets.  Error texts are kept as their kind. *)

From S2P Require Import Prelude Naming IdAlloc NetAddr Wire Tap Cgroup Sweep.

Definition MAX_BROKER_FRAME_BYTES : N := 2 ^ 20.

(** ** Messages *)

Record BrokerIoMax := {
  b_device : string;
  b_rbps : option N;
  b_wbps : option N;
  b_riops : option N;
  b_wiops : option N;
}.

Record BrokerLimits := {
  b_mem_max_mib : option N;
  b_cpu_max_pct : option N;
  b_pids_max : option N;
  b_io_max : option BrokerIoMax;
}.

Definition into_resource_limits (l : BrokerLimits) : ResourceLimits := {|
  mem_max_mib := b_mem_max_mib l; cpu_max_pct := b_cpu_max_pct l; pids_max := b_pids_max l;
  io_max := (λ io, {| device := b_device io; rbps := b_rbps io; wbps := b_wbps io;
                      riops := b_riops io; wiops := b_wiops io |}) <$> b_io_max l;
|}.

Definition from_resource_limits (l : ResourceLimits) : BrokerLimits := {|
  b_mem_max_mib := mem_max_mib l; b_cpu_max_pct := cpu_max_pct l; b_pids_max := pids_max l;
  b_io_max := (λ io, {| b_device := device io; b_rbps := rbps io; b_wbps := wbps io;
                        b_riops := riops io; b_wiops := wiops io |}) <$> io_max l;
|}.

Inductive BrokerRequest :=
  | Health
  | SetupNetwork (vmid : N) (prefix : string) (proxy_port : option N)
  | CreateCgroup (vmid : N) (prefix : string) (limits : BrokerLimits)
  | SpawnVmm (vmid : N) (argv : list string) (netns cgroup : string)
  | Teardown (vmid : N) (prefix : string)
  | SweepRequest (prefix : string) (live_vmids live_segids : list N)
  | Shutdown.

Inductive broker_fault :=
  | SetupNetns (e : nl_error)
  | HostIp (e : nl_error)
  | EmitRules (e : nl_error)
  | CreateSlice (e : cg_error)
  | NoSpawner
  | DeleteFailed (netns : option nl_error) (slice : option cg_error).

Inductive BrokerReply :=
  | Done
  | NetworkReady (tap netns host_ip : string)
  | CgroupReady (name : string)
  | SweepDone (netns segment_netns cgroup_slices : list string) (scratch_dirs : list (string * string))
  | BrokerErr (e : broker_fault).

(** ** Frames *)

Definition write_frame (out payload : string) : result io_error string :=
  if (u32_max <? str_len payload)%N || (MAX_BROKER_FRAME_BYTES <? str_len payload)%N then Err InvalidData
  else Ok (out +:+ to_be_bytes (str_len payload) +:+ payload).

Definition read_frame (stream : string) : result io_error (string * string) :=
  let? (len_buf, rest) := read_exact 4 stream in
  match len_buf with
  | String a (String b (String c (String d _))) =>
      let len := from_be_bytes a b c d in
      if (MAX_BROKER_FRAME_BYTES <? len)%N then Err InvalidData else read_exact (N.to_nat len) rest
  | _ => Err UnexpectedEof
  end.

(** [postcard] on the two message types. *)
Class BrokerCodec := {
  enc_request : BrokerRequest → option string;
  dec_request : string → option BrokerRequest;
  enc_reply : BrokerReply → option string;
  dec_reply : string → option BrokerReply;
  request_law r b : enc_request r = Some b → dec_request b = Some r;
  reply_law r b : enc_reply r = Some b → dec_reply b = Some r;
}.

Definition send_msg {A} (enc : A → option string) (out : string) (msg : A) : result io_error string :=
  match enc msg with None => Err InvalidData | Some bytes => write_frame out bytes end.

Definition recv_msg {A} (dec : string → option A) (stream : string) : result io_error (A * string) :=
  let? (bytes, rest) := read_frame stream in
  match dec bytes with None => Err InvalidData | Some a => Ok (a, rest) end.

(** ** The server *)

Record world := { kern : kernel; slices : cgfs }.

Definition with_kern (k : kernel) (w : world) : world := {| kern := k; slices := slices w |}.
Definition with_slices (fs : cgfs) (w : world) : world := {| kern := kern w; slices := fs |}.

(** What the host shows a sweep of a prefix and answers its removals, and this
    process's [/proc/self/cgroup]. *)
Class BrokerHost := {
  new_scanner : string → world → OrphanScanner;
  sweep_netlink : world → Sweep.Netlink;
  remove_dir : world → string * string → rm_answer;
  self_cgroup : option string;
}.

Section server.
Context {NH : NetHost} {NL : Tap.Netlink} {CG : CgroupHost} {BH : BrokerHost}.

Record BrokerServer := { netns_by_vmid : gmap N NetNamespace }.

Definition BrokerServer_new : BrokerServer := {| netns_by_vmid := ∅ |}.

Definition drop_opt (n : option NetNamespace) (k : kernel) : kernel :=
  match n with Some n => ns_drop n k | None => k end.

Definition setup_network (vmid : N) (prefix : string) (proxy_port : option N) (b : BrokerServer) (w : world) :
    BrokerReply * BrokerServer * world :=
  match ns_create prefix vmid (kern w) with
  | (Err e, k) => (BrokerErr (SetupNetns e), b, with_kern k w)
  | (Ok ns, k) =>
      match host_ip ns with
      | Err e => (BrokerErr (HostIp e), b, with_kern (ns_drop ns k) w)
      | Ok ip =>
          let '(emitted, k) := match proxy_port with
                               | Some port => emit_proxy_rules apply_rules ns port k
                               | None => (Ok tt, k)
                               end in
          match emitted with
          | Err e => (BrokerErr (EmitRules e), b, with_kern (ns_drop ns k) w)
          | Ok _ =>
              (NetworkReady (nn_tap_name ns) (nn_name ns) ip,
               {| netns_by_vmid := <[vmid := ns]> (netns_by_vmid b) |},
               with_kern (drop_opt (netns_by_vmid b !! vmid) k) w)
          end
      end
  end.

Definition create_cgroup (vmid : N) (prefix : string) (limits : BrokerLimits) (w : world) : BrokerReply * world :=
  let name := vm_slice_name self_cgroup prefix vmid in
  match create_slice_at name (into_resource_limits limits) (slices w) with
  | (Ok _, fs) => (CgroupReady name, with_slices fs w)
  | (Err e, fs) => (BrokerErr (CreateSlice e), with_slices fs w)
  end.

Definition err_of {E A} (r : result E A) : option E := match r with Ok _ => None | Err e => Some e end.

Definition teardown (vmid : N) (prefix : string) (b : BrokerServer) (w : world) : BrokerReply * BrokerServer * world :=
  let '(deleted, k) := match netns_by_vmid b !! vmid with
                       | Some ns => let '(r, ns, k) := ns_delete ns (kern w) in (err_of r, ns_drop ns k)
                       | None => (None, kern w)
                       end in
  let '(r, fs) := Cgroup.delete_slice (vm_slice_name self_cgroup prefix vmid) (slices w) in
  (match deleted, err_of r with None, None => Done | d, s => BrokerErr (DeleteFailed d s) end,
   {| netns_by_vmid := delete vmid (netns_by_vmid b) |}, {| kern := k; slices := fs |}).

(** What a sweep's removals do to the host, where they were answered. *)
Definition apply_removal (nl : Sweep.Netlink) (r : removal) (w : world) : world :=
  match r with
  | RmNetns name =>
      if Sweep.delete_netns nl name
      then with_kern {| nets := delete name (nets (kern w)); calls := calls (kern w) |} w else w
  | RmLink ns link =>
      if Sweep.delete_link nl ns link
      then with_kern {| nets := alter (λ s, with_links s (delete link (links s))) ns (nets (kern w));
                        calls := calls (kern w) |} w else w
  | RmSlice name => with_slices (Cgroup.delete_slice name (slices w)).2 w
  | RmScratch _ => w
  end.

Definition sweep (prefix : string) (live_vmids live_segids : list N) (w : world) : BrokerReply * world :=
  let nl := sweep_netlink w in
  let s := sweep_orphans (new_scanner prefix w) nl (default_cgroup_fs (slices w)) (remove_dir w)
             (list_to_set live_vmids) (list_to_set live_segids) in
  (SweepDone (r_netns (report s)) (r_segment_netns (report s)) (r_cgroup_slices (report s)) (r_scratch_dirs (report s)),
   foldl (λ w r, apply_removal nl r w) w (trace s)).

Definition dispatch (req : BrokerRequest) (b : BrokerServer) (w : world) : BrokerReply * BrokerServer * world :=
  match req with
  | Health | Shutdown => (Done, b, w)
  | SetupNetwork vmid prefix proxy_port => setup_network vmid prefix proxy_port b w
  | CreateCgroup vmid prefix limits => let '(r, w) := create_cgroup vmid prefix limits w in (r, b, w)
  | SpawnVmm _ _ _ _ => (BrokerErr NoSpawner, b, w)
  | Teardown vmid prefix => teardown vmid prefix b w
  | SweepRequest prefix live_vmids live_segids => let '(r, w) := sweep prefix live_vmids live_segids w in (r, b, w)
  end.

(** ** The channel *)

Definition is_shutdown (req : BrokerRequest) : bool := match req with Shutdown => true | _ => false end.

Context {BC : BrokerCodec}.

(** What the peer sends is [stream]; the result, what was sent back, the server
    and the host.  Every request takes at least four bytes of fuel. *)
Fixpoint serve (fuel : nat) (stream out : string) (b : BrokerServer) (w : world) :
    option (result io_error unit * string * BrokerServer * world) :=
  match fuel with
  | O => None
  | S fuel =>
      match recv_msg dec_request stream with
      | Err UnexpectedEof => Some (Ok tt, out, b, w)
      | Err e => Some (Err e, out, b, w)
      | Ok (req, stream) =>
          let '(reply, b, w) := dispatch req b w in
          match send_msg enc_reply out reply with
          | Err e => Some (Err e, out, b, w)
          | Ok out => if is_shutdown req then Some (Ok tt, out, b, w) else serve fuel stream out b w
          end
      end
  end.

(** The parent's side: one request, one reply. *)
Definition client_request (req : BrokerRequest) (out replies : string) :
    result io_error (BrokerReply * string * string) :=
  let? out := send_msg enc_request out req in
  let? (reply, replies) := recv_msg dec_reply replies in
  Ok (reply, out, replies).
End server.

(** ** Limits cross the channel *)

Lemma limits_roundtrip l : into_resource_limits (from_resource_limits l) = l.
Proof. by destruct l as [m c p [[]|]]. Qed.

(** ** Frames *)

Lemma write_frame_Ok out payload : (str_len payload <= MAX_BROKER_FRAME_BYTES)%N →
  write_frame out payload = Ok (out +:+ frame payload).
Proof.
  intros H. assert (str_len payload <= u32_max)%N as Hu by (etrans; [exact H|by vm_compute]).
  unfold write_frame. by rewrite !(proj2 (N.ltb_ge _ _)).
Qed.

Lemma write_frame_inv out payload s : write_frame out payload = Ok s →
  (str_len payload <= MAX_BROKER_FRAME_BYTES)%N ∧ s = out +:+ frame payload.
Proof.
  unfold write_frame. destruct (_ <? _)%N; [done|]. destruct (N.ltb_spec MAX_BROKER_FRAME_BYTES (str_len payload)); [done|].
  by intros [= <-].
Qed.

Lemma read_frame_frame data s : (str_len data <= MAX_BROKER_FRAME_BYTES)%N →
  read_frame (frame data +:+ s) = Ok (data, s).
Proof.
  intros H. assert (str_len data <= u32_max)%N as Hu by (etrans; [exact H|by vm_compute]).
  unfold frame. rewrite append_assoc. unfold read_frame, to_be_bytes. rewrite !append_cons, append_nil_l.
  cbn [read_exact]. rewrite be_bytes_roundtrip by done. rewrite (proj2 (N.ltb_ge _ _)) by done.
  unfold str_len. rewrite Nat2N.id. apply read_exact_append.
Qed.

(** An announced length over the cap is refused whatever follows it. *)
Lemma read_frame_over_cap n s : (MAX_BROKER_FRAME_BYTES < n <= u32_max)%N →
  read_frame (to_be_bytes n +:+ s) = Err InvalidData.
Proof.
  intros [Hc Hu]. unfold read_frame, to_be_bytes. rewrite !append_cons, append_nil_l. cbn [read_exact].
  rewrite be_bytes_roundtrip by done. by rewrite (proj2 (N.ltb_lt _ _)).
Qed.

Section facts.
Context {NH : NetHost} {NL : Tap.Netlink} {CG : CgroupHost} {BH : BrokerHost} {BC : BrokerCodec}.

Fixpoint send_all {A} (enc : A → option string) (ms : list A) : result io_error string :=
  match ms with
  | [] => Ok ""
  | m :: ms => let? first := send_msg enc "" m in let? rest := send_all enc ms in Ok (first +:+ rest)
  end.

Lemma send_msg_out {A} (enc : A → option string) out m s : send_msg enc "" m = Ok s → send_msg enc out m = Ok (out +:+ s).
Proof.
  unfold send_msg. destruct (enc m); [|done]. intros [Hl ->]%write_frame_inv. by rewrite write_frame_Ok.
Qed.

Lemma recv_sent {A} (enc : A → option string) dec m s t :
  (∀ m b, enc m = Some b → dec b = Some m) → send_msg enc "" m = Ok s → recv_msg dec (s +:+ t) = Ok (m, t).
Proof.
  intros Hlaw. unfold send_msg, recv_msg. destruct (enc m) as [b|] eqn:E; [|done].
  intros [Hl ->]%write_frame_inv. rewrite append_nil_l, read_frame_frame by done. by rewrite (Hlaw m b E).
Qed.

Fixpoint recv_all {A} (dec : string → option A) (n : nat) (stream : string) : result io_error (list A) :=
  match n with
  | O => Ok []
  | S n => let? (a, stream) := recv_msg dec stream in let? rest := recv_all dec n stream in Ok (a :: rest)
  end.

Lemma recv_all_sent {A} (enc : A → option string) dec : (∀ m b, enc m = Some b → dec b = Some m) → ∀ ms s,
  send_all enc ms = Ok s → recv_all dec (length ms) s = Ok ms.
Proof.
  intros Hlaw. induction ms as [|m ms IH]; intros s; cbn; [done|].
  destruct (send_msg enc "" m) as [s1|] eqn:E; [|done]. destruct (send_all enc ms) as [s2|]; [|done].
  intros [= <-]. rewrite (recv_sent enc dec m) by done. by rewrite IH.
Qed.

(** The answers to a list of requests, one by one. *)
Fixpoint respond (rs : list BrokerRequest) (b : BrokerServer) (w : world) : list BrokerReply * BrokerServer * world :=
  match rs with
  | [] => ([], b, w)
  | r :: rs =>
      let '(reply, b, w) := dispatch r b w in
      let '(replies, b, w) := respond rs b w in (reply :: replies, b, w)
  end.

Lemma respond_length rs : ∀ b w replies b' w', respond rs b w = (replies, b', w') → length replies = length rs.
Proof.
  induction rs as [|r rs IH]; intros b w replies b' w'; cbn; [by intros [= <- _ _]|].
  destruct (dispatch r b w) as [[reply b1] w1]. destruct (respond rs b1 w1) as [[rest b2] w2] eqn:E.
  intros [= <- <- <-]. cbn. f_equal. by eapply IH.
Qed.

Lemma serve_requests rs : ∀ fuel s t out b w replies b' w' answered,
  Forall (λ r, is_shutdown r = false) rs → send_all enc_request rs = Ok s →
  respond rs b w = (replies, b', w') → send_all enc_reply replies = Ok answered →
  serve (length rs + fuel) (s +:+ t) out b w = serve fuel t (out +:+ answered) b' w'.
Proof.
  induction rs as [|r rs IH]; intros fuel s t out b w replies b' w' answered Hsh; cbn [send_all respond].
  { intros [= <-] [= <- <- <-] [= <-]. by rewrite append_nil_l, append_nil_r. }
  inversion_clear Hsh as [|?? Hr Hrs].
  destruct (send_msg enc_request "" r) as [s1|] eqn:E1; [|done].
  destruct (send_all enc_request rs) as [s2|] eqn:E2; [|done]. intros [= <-].
  destruct (dispatch r b w) as [[reply b1] w1] eqn:Ed. destruct (respond rs b1 w1) as [[rest b2] w2] eqn:Er.
  intros [= <- <- <-]. cbn [send_all]. destruct (send_msg enc_reply "" reply) as [a1|] eqn:Ea; [|done].
  destruct (send_all enc_reply rest) as [a2|] eqn:Ea2; [|done]. intros [= <-].
  cbn [length Nat.add serve]. rewrite append_assoc, (recv_sent enc_request dec_request r) by (done || apply request_law).
  rewrite Ed, (send_msg_out _ _ _ _ Ea), Hr, (IH fuel s2 t (out +:+ a1) b1 w1 rest b2 w2 a2) by done. by rewrite append_assoc.
Qed.

(** The broker answers a sequence of requests one by one and in order, each
    after carrying it out on what the requests before it left; it ends without
    an error where the peer closes, and after answering the first [Shutdown],
    whatever is sent behind it; and what the peer reads back are exactly those
    answers. *)
Theorem broker_serves_in_order rs s b w replies b' w' answered :
  Forall (λ r, is_shutdown r = false) rs → send_all enc_request rs = Ok s →
  respond rs b w = (replies, b', w') → send_all enc_reply replies = Ok answered →
  serve (S (length rs)) s "" b w = Some (Ok tt, answered, b', w') ∧
  (∀ stop done_ t, send_msg enc_request "" Shutdown = Ok stop → send_msg enc_reply "" Done = Ok done_ →
     serve (S (length rs)) (s +:+ stop +:+ t) "" b w = Some (Ok tt, answered +:+ done_, b', w')) ∧
  length replies = length rs ∧ recv_all dec_reply (length rs) answered = Ok replies.
Proof.
  intros Hsh Hs Hr Ha. rewrite <- (Nat.add_1_r (length rs)). split_and!.
  - rewrite <- (append_nil_r s). rewrite (serve_requests rs 1 s "" "" b w replies b' w' answered) by done.
    cbn [serve]. by rewrite append_nil_l.
  - intros stop done_ t Hstop Hdone. rewrite (serve_requests rs 1 s (stop +:+ t) "" b w replies b' w' answered) by done.
    cbn [serve]. rewrite (recv_sent enc_request dec_request Shutdown) by (done || apply request_law).
    cbn [dispatch]. by rewrite append_nil_l, (send_msg_out _ _ _ _ Hdone).
  - by eapply respond_length.
  - rewrite <- (respond_length rs b w replies b' w' Hr). exact (recv_all_sent enc_reply dec_reply reply_law _ _ Ha).
Qed.

(** ** Setting up and tearing down *)

(** A namespace made on a free name, and what undoes it. *)
Lemma drop_made name n k k1 : nn_name n = name → nn_deleted n = false → nets k !! name = None →
  only_ns name (nets k) (nets k1) →
  nets (ns_drop n k1) = nets k ∨ ∃ e, (Tap.delete_netns name k1).1 = Err e.
Proof.
  intros <- Hd Hfree Ho. unfold ns_drop, ns_delete. rewrite Hd.
  destruct (Tap.delete_netns (nn_name n) k1) as [r k2] eqn:E.
  destruct (undo_made_ns (nn_name n) k k1 r k2 Hfree Ho E) as [Hk|(s & e & _ & ->)]; [|right; by exists e].
  left. by destruct r.
Qed.

Lemma delete_made name n k k1 u n' k2 : nn_name n = name → nn_deleted n = false → nets k !! name = None →
  only_ns name (nets k) (nets k1) → ns_delete n k1 = (Ok u, n', k2) → nets (ns_drop n' k2) = nets k.
Proof.
  intros <- Hd Hfree Ho. unfold ns_delete. rewrite Hd.
  destruct (Tap.delete_netns (nn_name n) k1) as [r k3] eqn:E. destruct r as [v|]; [|done]. intros [= <- <- <-].
  destruct (undo_made_ns (nn_name n) k k1 (Ok v) k3 Hfree Ho E) as [Hk|(s & e & _ & [=])]. done.
Qed.


(** ** What teardown and setup do not promise *)

Lemma slice_name_nonempty proc prefix vmid : vm_slice_name proc prefix vmid ≠ "".
Proof.
  unfold vm_slice_name, cgroup_slice_name. destruct (proc ≫= cgroup_base_from_proc) as [base|].
  - by destruct base.
  - by destruct prefix.
Qed.

(** A teardown whose deletion fails forgets the namespace: asked again it
    answers Done while the namespace is still there. *)
Theorem teardown_forgets_netns vmid prefix b w n :
  netns_by_vmid b !! vmid = Some n → nn_deleted n = false → is_Some (nets (kern w) !! nn_name n) →
  (∀ k, is_err (Tap.delete_netns (nn_name n) k).1 = true) →
  let '(_, b1, w1) := dispatch (Teardown vmid prefix) b w in
  let '(reply, _, w2) := dispatch (Teardown vmid prefix) b1 w1 in
  reply = Done ∧ is_Some (nets (kern w2) !! nn_name n).
Proof.
  intros Hn Hd Hs Hfail. cbn [dispatch]. unfold teardown. rewrite Hn. unfold ns_delete at 1. rewrite Hd.
  assert (Hkeep : ∀ k, nets (Tap.delete_netns (nn_name n) k).2 = nets k).
  { intros k. pose proof (delete_netns_law (nn_name n) k) as L. specialize (Hfail k).
    by destruct (Tap.delete_netns (nn_name n) k) as [[]]. }
  pose proof (Hkeep (kern w)) as H1. specialize (Hfail (kern w)).
  destruct (Tap.delete_netns (nn_name n) (kern w)) as [[|e] k1]; [done|]. cbn in H1.
  assert (H2 : nets (ns_drop n k1) = nets (kern w)).
  { unfold ns_drop, ns_delete. rewrite Hd, <- H1, <- (Hkeep k1).
    by destruct (Tap.delete_netns (nn_name n) k1) as [[]]. }
  unfold Cgroup.delete_slice. rewrite !decide_False by apply slice_name_nonempty.
  cbn [netns_by_vmid kern slices]. rewrite lookup_delete_eq. cbn. by rewrite H2.
Qed.
End facts.

(** *** A broker on a host where every call works *)

Definition example_broker_host : BrokerHost := {|
  new_scanner prefix w := host_orphan_scanner (CH := demo_claims) prefix demo_host demo_claimed demo_claimed;
  sweep_netlink w := demo_netlink;
  remove_dir w d := RmOk;
  self_cgroup := None;
|}.

Definition example_dispatch : BrokerRequest → BrokerServer → world → BrokerReply * BrokerServer * world :=
  dispatch (NH := demo_net) (NL := RtNetlink (NH := demo_net)) (CG := demo_cgroup_host) (BH := example_broker_host).

Definition example_world : world := {| kern := demo_kernel; slices := demo_cgfs |}.

(** The prefix is not validated: a request names a namespace outside the
    directory of namespaces.  And a second set-up of a vmid, under another
    prefix, removes the namespace of the first. *)
Theorem broker_fields_unchecked :
  (let '(reply, _, w) := example_dispatch (SetupNetwork 7 "../../etc/x" None) BrokerServer_new example_world in
   is_err (validate_resource_prefix "../../etc/x") = true ∧ is_Some (nets (kern w) !! "../../etc/x-net-7") ∧
   ∃ tap ip, reply = NetworkReady tap "../../etc/x-net-7" ip) ∧
  (let '(_, b, w) := example_dispatch (SetupNetwork 300 "first" None) BrokerServer_new example_world in
   let '(_, _, w') := example_dispatch (SetupNetwork 300 "second" None) b w in
   is_Some (nets (kern w) !! "first-net-300") ∧ nets (kern w') !! "first-net-300" = None).
Proof.
  split.
  - destruct (example_dispatch _ _ _) as [[reply b] w] eqn:E. vm_compute in E. injection E as <- <- <-.
    split_and!; [vm_compute; reflexivity|vm_compute; by eexists|by eexists _, _].
  - destruct (example_dispatch (SetupNetwork 300 "first" None) _ _) as [[r b] w] eqn:E. vm_compute in E.
    injection E as <- <- <-. destruct (example_dispatch _ _ _) as [[r' b'] w'] eqn:E'. vm_compute in E'.
    injection E' as <- <- <-. split; [vm_compute; by eexists|vm_compute; reflexivity].
Qed.

(** *** Witnesses *)

(** A codec for the messages of the example. *)
Definition example_codec : BrokerCodec.
Proof.
  refine {|
    enc_request r := match r with
                     | Health => Some "H"
                     | Shutdown => Some "S"
                     | SetupNetwork vmid prefix None => if decide ((vmid, prefix) = (300%N, "vmcell")) then Some "N" else None
                     | _ => None
                     end;
    dec_request b := if decide (b = "H") then Some Health else if decide (b = "S") then Some Shutdown
                     else if decide (b = "N") then Some (SetupNetwork 300 "vmcell" None) else None;
    enc_reply r := match r with
                   | Done => Some "D"
                   | NetworkReady tap ns ip =>
                       if decide ((tap, ns, ip) = ("vmcell-tap-300", "vmcell-net-300", "10.200.47.5")) then Some "R" else None
                   | _ => None
                   end;
    dec_reply b := if decide (b = "D") then Some Done
                   else if decide (b = "R") then Some (NetworkReady "vmcell-tap-300" "vmcell-net-300" "10.200.47.5") else None;
  |}.
  - intros r b. destruct r as [|vmid prefix [|]| | | | |]; try done; try (by intros [= <-]).
    case_decide as H; [|done]. injection H as -> ->. by intros [= <-].
  - intros r b. destruct r; try done; try (by intros [= <-]). case_decide as H; [|done].
    injection H as -> -> ->. by intros [= <-].
Defined.

Definition example_requests : list BrokerRequest := [Health; SetupNetwork 300 "vmcell" None].

Lemma broker_serves_in_order_witness :
  let ser fuel s := serve (NH := demo_net) (NL := RtNetlink (NH := demo_net)) (CG := demo_cgroup_host)
    (BH := example_broker_host) (BC := example_codec) fuel s "" BrokerServer_new example_world in
  ∃ s answered b w, send_all (enc_request (BrokerCodec := example_codec)) example_requests = Ok s ∧
    ser 3 s = Some (Ok tt, answered, b, w) ∧ netns_by_vmid b !! 300%N ≠ None ∧
    recv_all (dec_reply (BrokerCodec := example_codec)) 2 answered =
      Ok [Done; NetworkReady "vmcell-tap-300" "vmcell-net-300" "10.200.47.5"].
Proof.
  intros ser.
  destruct (respond (NH := demo_net) (NL := RtNetlink (NH := demo_net)) (CG := demo_cgroup_host)
    (BH := example_broker_host) example_requests BrokerServer_new example_world) as [[replies b] w] eqn:Er.
  assert (Hrep : replies = [Done; NetworkReady "vmcell-tap-300" "vmcell-net-300" "10.200.47.5"]).
  { vm_compute in Er. injection Er as <- _ _. reflexivity. }
  assert (Hb : netns_by_vmid b !! 300%N ≠ None).
  { vm_compute in Er. injection Er as _ <- _. vm_compute. discriminate. }
  destruct (send_all (enc_request (BrokerCodec := example_codec)) example_requests) as [s|] eqn:Es; [|discriminate Es].
  destruct (send_all (enc_reply (BrokerCodec := example_codec)) replies) as [answered|] eqn:Ea;
    [|rewrite Hrep in Ea; discriminate Ea].
  destruct (broker_serves_in_order (NH := demo_net) (NL := RtNetlink (NH := demo_net)) (CG := demo_cgroup_host)
    (BH := example_broker_host) (BC := example_codec) example_requests s BrokerServer_new example_world
    replies b w answered) as (H1 & _ & _ & H4); [by repeat constructor|exact Es|exact Er|exact Ea|].
  exists s, answered, b, w. split; [reflexivity|]. split; [exact H1|]. split; [exact Hb|].
  rewrite <- Hrep. exact H4.
Defined.

