(* ===== verification/Privilege.v ===== *)
(** * Dropping and delivering capabilities

    Models [crates/vmcell-privilege/src/lib.rs]: the blessing check, the plan by
    which the runner hands exactly the needed capabilities to the program it
    executes, and the plan by which the broker's parent gives all of them up.
    The kernel follows capabilities(7) and prctl(2): who may change which set,
    what a change of user ids clears and what a program started by [execve]
    gets; any call may also fail.  A capability is its number; a [CapSet] is a
    set of them. *)

From S2P Require Import Prelude.

Notation caps := (gset N).

Definition CAP_DAC_OVERRIDE : N := 1.
Definition CAP_SETGID : N := 6.
Definition CAP_SETUID : N := 7.
Definition CAP_SETPCAP : N := 8.
Definition CAP_NET_ADMIN : N := 12.
Definition CAP_SYS_ADMIN : N := 21.

Definition PRIVILEGED_CAPS : list N := [CAP_NET_ADMIN; CAP_SYS_ADMIN; CAP_DAC_OVERRIDE].
Definition BLESSED_FILE_CAPS : list N := [CAP_NET_ADMIN; CAP_SYS_ADMIN; CAP_DAC_OVERRIDE; CAP_SETPCAP].

(** ** The kernel's side of a process *)

Record proc := {
  ruid : N; euid : N; suid : N;
  gids : N * N * N;                  (** real, effective, saved *)
  groups : list N;
  permitted : caps;
  effective : caps;
  inheritable : caps;
  ambient : caps;
  bounding : caps;
  keepcaps : bool;
  no_new_privs : bool;
}.

Definition with_caps (p e i a : caps) (s : proc) : proc := {|
  ruid := ruid s; euid := euid s; suid := suid s; gids := gids s; groups := groups s;
  permitted := p; effective := e; inheritable := i; ambient := a; bounding := bounding s;
  keepcaps := keepcaps s; no_new_privs := no_new_privs s |}.

Inductive cap_call :=
  | GetCaps | SetCaps | SetKeepcaps | SetResGid | SetGroups | SetResUid | BoundingDrop (c : N)
  | AmbientRaise (c : N) | AmbientClear | SetNoNewPrivs.

(** Which calls fail for reasons of their own, and the kernel's capabilities. *)
Class CapKernel := {
  call_fails : cap_call → proc → bool;
  all_caps : caps;
}.

Section kernel.
Context {CK : CapKernel}.

(** [capset(2)]; an ambient capability that leaves either set is lowered. *)
Definition capset (p e i : caps) (s : proc) : option proc :=
  if call_fails SetCaps s then None else
  if decide (p ⊆ permitted s ∧ e ⊆ p ∧ i ⊆ inheritable s ∪ bounding s ∧
             (CAP_SETPCAP ∉ effective s → i ⊆ inheritable s ∪ permitted s))
  then Some (with_caps p e i (ambient s ∩ p ∩ i) s) else None.

Definition set_keepcaps (s : proc) : option proc :=
  if call_fails SetKeepcaps s then None else Some {|
    ruid := ruid s; euid := euid s; suid := suid s; gids := gids s; groups := groups s;
    permitted := permitted s; effective := effective s; inheritable := inheritable s; ambient := ambient s;
    bounding := bounding s; keepcaps := true; no_new_privs := no_new_privs s |}.

Definition setresgid (g : N) (s : proc) : option proc :=
  let '(r, e, sv) := gids s in
  if call_fails SetResGid s then None else
  if decide (CAP_SETGID ∈ effective s ∨ g = r ∨ g = e ∨ g = sv) then Some {|
    ruid := ruid s; euid := euid s; suid := suid s; gids := (g, g, g); groups := groups s;
    permitted := permitted s; effective := effective s; inheritable := inheritable s; ambient := ambient s;
    bounding := bounding s; keepcaps := keepcaps s; no_new_privs := no_new_privs s |} else None.

Definition setgroups (l : list N) (s : proc) : option proc :=
  if call_fails SetGroups s then None else
  if decide (CAP_SETGID ∈ effective s) then Some {|
    ruid := ruid s; euid := euid s; suid := suid s; gids := gids s; groups := l;
    permitted := permitted s; effective := effective s; inheritable := inheritable s; ambient := ambient s;
    bounding := bounding s; keepcaps := keepcaps s; no_new_privs := no_new_privs s |} else None.

(** Leaving user id 0 altogether clears the effective and the ambient set, and
    the permitted one unless [PR_SET_KEEPCAPS] is set. *)
Definition setresuid (u : N) (s : proc) : option proc :=
  if call_fails SetResUid s then None else
  if decide (CAP_SETUID ∈ effective s ∨ u = ruid s ∨ u = euid s ∨ u = suid s) then
    let left_root := bool_decide (u ≠ 0%N ∧ (ruid s = 0%N ∨ euid s = 0%N ∨ suid s = 0%N)) in
    let left_euid := bool_decide (u ≠ 0%N ∧ euid s = 0%N) in
    Some {|
      ruid := u; euid := u; suid := u; gids := gids s; groups := groups s;
      permitted := if left_root && negb (keepcaps s) then ∅ else permitted s;
      effective := if left_root || left_euid then ∅ else effective s;
      inheritable := inheritable s;
      ambient := if left_root then ∅ else ambient s;
      bounding := bounding s; keepcaps := keepcaps s; no_new_privs := no_new_privs s |}
  else None.

Definition bounding_drop (c : N) (s : proc) : option proc :=
  if call_fails (BoundingDrop c) s then None else
  if decide (CAP_SETPCAP ∈ effective s) then Some {|
    ruid := ruid s; euid := euid s; suid := suid s; gids := gids s; groups := groups s;
    permitted := permitted s; effective := effective s; inheritable := inheritable s; ambient := ambient s;
    bounding := bounding s ∖ {[c]}; keepcaps := keepcaps s; no_new_privs := no_new_privs s |} else None.

Definition ambient_raise (c : N) (s : proc) : option proc :=
  if call_fails (AmbientRaise c) s then None else
  if decide (c ∈ permitted s ∧ c ∈ inheritable s)
  then Some (with_caps (permitted s) (effective s) (inheritable s) ({[c]} ∪ ambient s) s) else None.

Definition ambient_clear (s : proc) : option proc :=
  if call_fails AmbientClear s then None
  else Some (with_caps (permitted s) (effective s) (inheritable s) ∅ s).

Definition set_no_new_privs (s : proc) : option proc :=
  if call_fails SetNoNewPrivs s then None else Some {|
    ruid := ruid s; euid := euid s; suid := suid s; gids := gids s; groups := groups s;
    permitted := permitted s; effective := effective s; inheritable := inheritable s; ambient := ambient s;
    bounding := bounding s; keepcaps := keepcaps s; no_new_privs := true |}.

(** An executable: its file capabilities and whether it is set-user-ID root. *)
Record exe := { f_permitted : caps; f_inheritable : caps; f_effective : bool; setuid_root : bool }.

(** [execve]: the capabilities of the program.  A root program counts as one
    whose file has every capability; under [no_new_privs] the file's privileges
    are ignored and nothing that was not permitted becomes so. *)
Definition exec_caps (f : exe) (s : proc) : caps * caps * caps :=
  let honoured := negb (no_new_privs s) in
  let eu := if setuid_root f && honoured then 0%N else euid s in
  let privileged := honoured && (setuid_root f || bool_decide (f_permitted f ∪ f_inheritable f ≠ ∅)) in
  let amb := if privileged then ∅ else ambient s in
  let is_root := bool_decide (eu = 0%N ∨ ruid s = 0%N) in
  let fp := if is_root then all_caps else if honoured then f_permitted f else ∅ in
  let fi := if is_root then all_caps else if honoured then f_inheritable f else ∅ in
  let fe := bool_decide (eu = 0%N) || (honoured && f_effective f) in
  let p := (inheritable s ∩ fi) ∪ (fp ∩ bounding s) ∪ amb in
  let p := if honoured then p else p ∩ permitted s in
  (p, (if fe then p else amb ∩ p), amb ∩ p).

(** ** The blessing check *)

Inductive BlessingRefusal := Unblessed (missing : list N) | NarrowedRoot (missing : list N).

Definition missing (r : BlessingRefusal) : list N := match r with Unblessed m | NarrowedRoot m => m end.

Definition compute_missing (effective : caps) (need : list N) : list N := filter (λ c, c ∉ effective) need.

Definition blessing_verdict (euid : N) (effective : caps) (need : list N) : result BlessingRefusal unit :=
  match compute_missing effective need with
  | [] => Ok tt
  | m => Err (if (euid =? 0)%N then NarrowedRoot m else Unblessed m)
  end.

(** [str::replace] of a single quote by the four bytes that close the quotes,
    escape one and open them again. *)
Definition squote : ascii := ascii_of_N 39.
Definition backslash : ascii := ascii_of_N 92.

Fixpoint escape_quotes (s : string) : string :=
  match s with
  | "" => ""
  | String c s =>
      if decide (c = squote)
      then String squote (String backslash (String squote (String squote (escape_quotes s))))
      else String c (escape_quotes s)
  end.

Definition shell_single_quote (p : string) : string := String squote (escape_quotes p +:+ String squote "").

(** ** The runner's transition *)

Definition merge_preserved_groups (gid : N) (kvm_gid : option N) (held : list N) : list N :=
  gid :: match kvm_gid with
         | Some kvm => if bool_decide (kvm ≠ gid) && bool_decide (kvm ∈ held) then [kvm] else []
         | None => []
         end.

Record UidDrop := { u_gid : N; u_groups : list N; u_uid : N }.

Record PrivilegePlan := {
  uid_drop : option UidDrop;
  inheritable_add : list N;
  plan_bounding_drop : list N;
  plan_ambient_raise : list N;
  final_caps : list N;
}.

Definition plan_privilege_transition (need supported : list N) (euid uid gid : N) (kvm_gid : option N)
    (held_groups : list N) : PrivilegePlan := {|
  uid_drop := if (euid =? 0)%N && negb (uid =? 0)%N
              then Some {| u_gid := gid; u_groups := merge_preserved_groups gid kvm_gid held_groups; u_uid := uid |}
              else None;
  inheritable_add := need;
  plan_bounding_drop := filter (λ c, c ∉ need) supported;
  plan_ambient_raise := need;
  final_caps := need;
|}.

Inductive PrivilegeStep :=
  | DropUid (d : UidDrop)
  | AddInheritable (cs : list N)
  | ShrinkBounding (cs : list N)
  | RaiseAmbient (cs : list N)
  | TrimCaps (cs : list N).

Definition steps (plan : PrivilegePlan) : list PrivilegeStep :=
  (match uid_drop plan with Some d => [DropUid d] | None => [] end) ++
  [AddInheritable (inheritable_add plan); ShrinkBounding (plan_bounding_drop plan);
   RaiseAmbient (plan_ambient_raise plan); TrimCaps (final_caps plan)].

(** A call sequence: whether it succeeded, and the process it leaves. *)
Definition act : Type := proc → bool * proc.

Definition call (f : proc → option proc) : act := λ s, match f s with Some s' => (true, s') | None => (false, s) end.

Definition then_ (a b : act) : act := λ s, let '(ok, s) := a s in if ok then b s else (false, s).

(** Every capability is tried; how many could not be dropped. *)
Fixpoint shrink_bounding_set (cs : list N) (s : proc) : N * proc :=
  match cs with
  | [] => (0%N, s)
  | c :: cs =>
      let '(ok, s) := call (bounding_drop c) s in
      let '(failures, s) := shrink_bounding_set cs s in
      (((if ok then 0 else 1) + failures)%N, s)
  end.

Definition bounding_drop_warning (failures : N) : option N := if (failures =? 0)%N then None else Some failures.

(** Dropping needs [CAP_SETPCAP] in effect: it is raised where it is permitted. *)
Definition raise_setpcap (s : proc) : proc :=
  if negb (call_fails GetCaps s) && bool_decide (CAP_SETPCAP ∈ permitted s ∧ CAP_SETPCAP ∉ effective s)
  then (call (capset (permitted s) ({[CAP_SETPCAP]} ∪ effective s) (inheritable s)) s).2 else s.

(** The warning, and the process after it. *)
Definition shrink_bounding_set_live (cs : list N) (s : proc) : option N * proc :=
  let '(failures, s) := shrink_bounding_set cs (raise_setpcap s) in
  (bounding_drop_warning failures, s).

Fixpoint raise_all (cs : list N) : act :=
  match cs with
  | [] => λ s, (true, s)
  | c :: cs => then_ (call (ambient_raise c)) (raise_all cs)
  end.

Definition get_caps : act := λ s, (negb (call_fails GetCaps s), s).

Definition apply_privilege_step (st : PrivilegeStep) : act :=
  match st with
  | DropUid d =>
      then_ (call set_keepcaps) (then_ (call (setresgid (u_gid d)))
        (then_ (call (setgroups (u_groups d))) (call (setresuid (u_uid d)))))
  | AddInheritable cs =>
      then_ get_caps (λ s, call (capset (permitted s) (effective s) (list_to_set cs ∪ inheritable s)) s)
  | ShrinkBounding cs => λ s, (true, (shrink_bounding_set_live cs s).2)
  | RaiseAmbient cs => raise_all cs
  | TrimCaps cs =>
      then_ get_caps (λ s, call (capset (list_to_set cs) (list_to_set cs) (inheritable s)) s)
  end.

Fixpoint execute_privilege_steps (sts : list PrivilegeStep) : act :=
  match sts with
  | [] => λ s, (true, s)
  | st :: sts => then_ (apply_privilege_step st) (execute_privilege_steps sts)
  end.

Definition apply_privilege_transition (plan : PrivilegePlan) : act := execute_privilege_steps (steps plan).

(** ** The broker's parent *)

Record BrokerParentDropPlan := {
  bp_bounding_drop : list N;
  bp_clear_ambient : bool;
  bp_no_new_privs : bool;
  bp_final_caps : list N;
}.

Definition plan_broker_parent_drop (supported : list N) : BrokerParentDropPlan :=
  {| bp_bounding_drop := supported; bp_clear_ambient := true; bp_no_new_privs := true; bp_final_caps := [] |}.

Definition apply_broker_parent_drop (plan : BrokerParentDropPlan) : act :=
  then_ (if bp_clear_ambient plan then call ambient_clear else λ s, (true, s))
  (then_ (λ s, (true, (shrink_bounding_set_live (bp_bounding_drop plan) s).2))
  (then_ (if bp_no_new_privs plan then call set_no_new_privs else λ s, (true, s))
  (then_ get_caps
         (λ s, call (capset (list_to_set (bp_final_caps plan)) (list_to_set (bp_final_caps plan)) ∅) s)))).
End kernel.

(** ** The check and the quoting *)

(** The check passes exactly on an effective set with every needed capability,
    whoever runs it; a refusal names exactly the missing ones. *)
Lemma blessing_verdict_exact eu eff need :
  match blessing_verdict eu eff need with
  | Ok _ => ∀ c, c ∈ need → c ∈ eff
  | Err r => missing r ≠ [] ∧ (∀ c, c ∈ missing r ↔ c ∈ need ∧ c ∉ eff) ∧
      (r = NarrowedRoot (missing r) ↔ eu = 0%N)
  end.
Proof.
  unfold blessing_verdict. assert (H : ∀ c, c ∈ compute_missing eff need ↔ c ∉ eff ∧ c ∈ need)
    by (intros c; unfold compute_missing; by rewrite list_elem_of_filter).
  destruct (compute_missing eff need) as [|x l].
  - intros c Hc. destruct (decide (c ∈ eff)); [done|]. exfalso. eapply elem_of_nil, H. eauto.
  - destruct (N.eqb_spec eu 0); cbn [missing]; split_and!; try done; naive_solver.
Qed.

(** A shell's reading of one word of quoted parts and escapes; anything else
    would end or split the word. *)
Fixpoint sh_word (quoted : bool) (s : string) : option string :=
  match s with
  | "" => if quoted then None else Some ""
  | String c s =>
      if quoted then if decide (c = squote) then sh_word false s else String c <$> sh_word true s
      else if decide (c = squote) then sh_word true s
      else if decide (c = backslash) then match s with String c s => String c <$> sh_word false s | "" => None end
      else None
  end.

(** The quoted path is one word for the shell, and that word is the path. *)
Lemma shell_quote_roundtrip p : sh_word false (shell_single_quote p) = Some p.
Proof.
  unfold shell_single_quote. cbn [sh_word]. rewrite decide_True by done.
  induction p as [|c p IH]; [done|]. cbn [escape_quotes]. case_decide as Hc.
  - subst c. rewrite !append_cons. cbn [sh_word]. rewrite !decide_True by done. rewrite decide_False by done.
    by rewrite IH.
  - rewrite append_cons. cbn [sh_word]. rewrite decide_False by done. by rewrite IH.
Qed.

(** ** The transition *)

Section transition.
Context {CK : CapKernel}.

(** What only a change of user ids changes. *)
Definition same_ids (s s' : proc) : Prop :=
  ruid s' = ruid s ∧ euid s' = euid s ∧ suid s' = suid s ∧ gids s' = gids s ∧ groups s' = groups s.

Lemma call_inv f s ok s' : call f s = (ok, s') → ok = true ∧ f s = Some s' ∨ ok = false ∧ s' = s.
Proof. unfold call. destruct (f s); intros [= <- <-]; by auto. Qed.

Lemma then_inv a b s ok s' : then_ a b s = (ok, s') →
  (∃ s1, a s = (true, s1) ∧ b s1 = (ok, s')) ∨ ok = false ∧ a s = (false, s').
Proof. unfold then_. destruct (a s) as [[] s1]; [eauto|]. intros [= <- <-]. by auto. Qed.

Lemma capset_inv p e i s s' : capset p e i s = Some s' →
  s' = with_caps p e i (ambient s ∩ p ∩ i) s ∧ p ⊆ permitted s ∧ e ⊆ p.
Proof. unfold capset. destruct (call_fails _ _); [done|]. case_decide as H; [|done]. intros [= <-]. naive_solver. Qed.

Lemma shrink_set_inv cs : ∀ s failures s', shrink_bounding_set cs s = (failures, s') →
  same_ids s s' ∧ permitted s' = permitted s ∧ effective s' = effective s ∧ inheritable s' = inheritable s ∧
  ambient s' = ambient s ∧ bounding s' ⊆ bounding s ∧ no_new_privs s' = no_new_privs s.
Proof.
  induction cs as [|c cs IH]; intros s failures s'; cbn; [by intros [= <- <-]|].
  destruct (call (bounding_drop c) s) as [ok s1] eqn:E. destruct (shrink_bounding_set cs s1) as [f s2] eqn:E2.
  intros [= <- <-]. apply IH in E2. apply call_inv in E as [[-> E]|[-> ->]]; [|done].
  unfold bounding_drop in E. destruct (call_fails _ _); [done|]. case_decide; [|done]. injection E as <-.
  unfold same_ids in *. cbn in E2. set_solver.
Qed.

Lemma raise_setpcap_inv s :
  let s1 := raise_setpcap s in
  same_ids s s1 ∧ permitted s1 = permitted s ∧ inheritable s1 = inheritable s ∧
  ambient s1 ⊆ ambient s ∧ bounding s1 = bounding s ∧ no_new_privs s1 = no_new_privs s.
Proof.
  unfold raise_setpcap. case_match; [|done]. destruct (call _ s) as [ok s2] eqn:E. cbn.
  apply call_inv in E as [[-> [-> _]%capset_inv]|[-> ->]]; [|done]. unfold same_ids. cbn. split_and!; set_solver.
Qed.

Lemma shrink_live_inv cs s w s' : shrink_bounding_set_live cs s = (w, s') →
  same_ids s s' ∧ permitted s' = permitted s ∧ inheritable s' = inheritable s ∧
  ambient s' ⊆ ambient s ∧ bounding s' ⊆ bounding s ∧ no_new_privs s' = no_new_privs s.
Proof.
  unfold shrink_bounding_set_live. pose proof (raise_setpcap_inv s) as H1. cbv zeta in H1.
  destruct (shrink_bounding_set cs (raise_setpcap s)) as [f s2] eqn:E. intros [= <- <-]. apply shrink_set_inv in E.
  unfold same_ids in *. destruct H1 as ((?&?&?&?&?)&?&?&?&?&?). destruct E as ((?&?&?&?&?)&?&?&?&?&?&?).
  split_and!; (congruence || set_solver).
Qed.

Lemma raise_all_inv cs : ∀ s ok s', raise_all cs s = (ok, s') →
  same_ids s s' ∧ permitted s' = permitted s ∧ effective s' = effective s ∧ inheritable s' = inheritable s ∧
  bounding s' = bounding s ∧ no_new_privs s' = no_new_privs s ∧
  (ok = true → ambient s' = list_to_set cs ∪ ambient s).
Proof.
  induction cs as [|c cs IH]; intros s ok s'; cbn [raise_all].
  { intros [= <- <-]. split_and!; try done. intros _. cbn. set_solver. }
  intros [(s1 & E & E2)|[-> E]]%then_inv.
  - apply call_inv in E as [[_ E]|[[=] _]]. unfold ambient_raise in E. destruct (call_fails _ _); [done|].
    case_decide; [|done]. injection E as <-. apply IH in E2. unfold same_ids in *. cbn in *.
    destruct E2 as ((? & ? & ? & ? & ?) & ? & ? & ? & ? & ? & Ha). split_and!; try done. intros ->%Ha. set_solver.
  - apply call_inv in E as [[[=] _]|[_ ->]]. by split_and!.
Qed.

Lemma add_inheritable_inv cs s ok s' : apply_privilege_step (AddInheritable cs) s = (ok, s') →
  same_ids s s' ∧ ambient s' ⊆ ambient s ∧ bounding s' = bounding s ∧ no_new_privs s' = no_new_privs s ∧
  permitted s' = permitted s ∧
  (ok = true → effective s' = effective s ∧ inheritable s' = list_to_set cs ∪ inheritable s).
Proof.
  cbn [apply_privilege_step]. intros [(s1 & [= _ <-] & E)|[-> [= _ <-]]]%then_inv; [|by split_and!].
  apply call_inv in E as [[-> [-> _]%capset_inv]|[-> ->]]; [|by split_and!].
  unfold same_ids. cbn. split_and!; try done. set_solver.
Qed.

Lemma trim_inv cs s ok s' : apply_privilege_step (TrimCaps cs) s = (ok, s') →
  same_ids s s' ∧ ambient s' ⊆ ambient s ∧ bounding s' = bounding s ∧ no_new_privs s' = no_new_privs s ∧
  inheritable s' = inheritable s ∧
  (ok = true → permitted s' = list_to_set cs ∧ effective s' = list_to_set cs ∧
     ambient s' = ambient s ∩ list_to_set cs ∩ inheritable s).
Proof.
  cbn [apply_privilege_step]. intros [(s1 & [= _ <-] & E)|[-> [= _ <-]]]%then_inv; [|by split_and!].
  apply call_inv in E as [[-> [-> _]%capset_inv]|[-> ->]]; [|by split_and!].
  unfold same_ids. cbn. split_and!; try done. set_solver.
Qed.

(** The user ids are dropped last, so a failure before that leaves them. *)
Lemma drop_uid_inv d s ok s' : apply_privilege_step (DropUid d) s = (ok, s') →
  euid s = 0%N → u_uid d ≠ 0%N →
  ambient s' ⊆ ambient s ∧ bounding s' = bounding s ∧ inheritable s' = inheritable s ∧
  no_new_privs s' = no_new_privs s ∧ permitted s' = permitted s ∧
  (ok = true → ruid s' = u_uid d ∧ euid s' = u_uid d ∧ suid s' = u_uid d ∧
     gids s' = (u_gid d, u_gid d, u_gid d) ∧ groups s' = u_groups d ∧ effective s' = ∅ ∧ ambient s' = ∅).
Proof.
  intros E H0 Hu. cbn [apply_privilege_step] in E.
  apply then_inv in E as [(s1 & E1 & E)|[-> E]]; [|apply call_inv in E as [[[=] _]|[_ ->]]; by split_and!].
  apply call_inv in E1 as [[_ E1]|[[=] _]]. unfold set_keepcaps in E1. destruct (call_fails _ _); [done|].
  injection E1 as <-.
  apply then_inv in E as [(s2 & E2 & E)|[-> E]]; [|apply call_inv in E as [[[=] _]|[_ ->]]; by split_and!].
  apply call_inv in E2 as [[_ E2]|[[=] _]]. unfold setresgid in E2. cbn in E2. destruct (gids s) as [[r e] sv].
  destruct (call_fails _ _); [done|]. case_decide; [|done]. injection E2 as <-.
  apply then_inv in E as [(s3 & E3 & E)|[-> E]]; [|apply call_inv in E as [[[=] _]|[_ ->]]; by split_and!].
  apply call_inv in E3 as [[_ E3]|[[=] _]]. unfold setgroups in E3. destruct (call_fails _ _); [done|].
  case_decide; [|done]. injection E3 as <-.
  apply call_inv in E as [[-> E]|[-> ->]]; [|by split_and!]. unfold setresuid in E. cbn in E.
  destruct (call_fails _ _); [done|]. case_decide; [|done]. injection E as <-. cbn.
  rewrite !(bool_decide_eq_true_2 (u_uid d ≠ 0%N ∧ _)) by auto. cbn. split_and!; try done.
Qed.

(** The later steps leave the ids alone. *)
Lemma later_step_ids st s ok s' : (∀ d, st ≠ DropUid d) → apply_privilege_step st s = (ok, s') → same_ids s s'.
Proof.
  destruct st as [d|cs|cs|cs|cs]; intros Hd E.
  - by destruct (Hd d).
  - by apply add_inheritable_inv in E as [? _].
  - cbn in E. destruct (shrink_bounding_set_live cs s) as [w s1] eqn:E1. injection E as <- <-.
    by apply shrink_live_inv in E1 as [? _].
  - by apply raise_all_inv in E as [? _].
  - by apply trim_inv in E as [? _].
Qed.

Lemma same_ids_trans s1 s2 s3 : same_ids s1 s2 → same_ids s2 s3 → same_ids s1 s3.
Proof. unfold same_ids. intuition congruence. Qed.

Lemma later_steps_ids sts : ∀ s ok s', Forall (λ st, ∀ d, st ≠ DropUid d) sts →
  execute_privilege_steps sts s = (ok, s') → same_ids s s'.
Proof.
  induction sts as [|st sts IH]; intros s ok s' Hst; cbn; [by intros [= <- <-]|]. inversion_clear Hst.
  intros [(s1 & E1 & E)|[-> E]]%then_inv; [|by eapply later_step_ids].
  eapply same_ids_trans; [by eapply later_step_ids|by eapply IH].
Qed.

(** Where calls work and [CAP_SETPCAP] is permitted, the shrink is complete. *)
Lemma shrink_set_drops cs : (∀ c st, call_fails c st = false) → ∀ s, CAP_SETPCAP ∈ effective s →
  bounding (shrink_bounding_set cs s).2 = bounding s ∖ list_to_set cs.
Proof.
  intros Hok. induction cs as [|c cs IH]; intros s Hs; cbn [shrink_bounding_set]; [set_solver|].
  unfold call at 1, bounding_drop. rewrite Hok, decide_True by done.
  set (s1 := {| ruid := _ |}). specialize (IH s1 Hs). destruct (shrink_bounding_set cs s1) as [f s2]. cbn in IH |- *.
  rewrite IH. set_solver.
Qed.

Lemma shrink_live_drops cs s : (∀ c st, call_fails c st = false) → effective s ⊆ permitted s →
  CAP_SETPCAP ∈ permitted s → bounding (shrink_bounding_set_live cs s).2 = bounding s ∖ list_to_set cs.
Proof.
  intros Hok Hsub Hp. assert (H1 : CAP_SETPCAP ∈ effective (raise_setpcap s)).
  { unfold raise_setpcap. rewrite Hok. cbn. case_bool_decide as Hd.
    - unfold call, capset. rewrite Hok, decide_True; [apply elem_of_union; left; by apply elem_of_singleton|].
      split_and!; [done|set_solver|set_solver|set_solver].
    - destruct (decide (CAP_SETPCAP ∈ effective s)); naive_solver. }
  pose proof (raise_setpcap_inv s) as (_ & _ & _ & _ & Hb & _).
  pose proof (shrink_set_drops cs Hok (raise_setpcap s) H1) as Hd. unfold shrink_bounding_set_live.
  destruct (shrink_bounding_set cs (raise_setpcap s)) as [f s2]. cbn in *. by rewrite Hd, Hb.
Qed.

(** The part of the transition both forms share. *)
Lemma deliver_inv need drop s s' :
  execute_privilege_steps [AddInheritable need; ShrinkBounding drop; RaiseAmbient need; TrimCaps need] s = (true, s') →
  same_ids s s' ∧ permitted s' = list_to_set need ∧ effective s' = list_to_set need ∧ ambient s' = list_to_set need ∧
  inheritable s' = list_to_set need ∪ inheritable s ∧ bounding s' ⊆ bounding s ∧ no_new_privs s' = no_new_privs s ∧
  ((∀ c st, call_fails c st = false) → effective s ⊆ permitted s → CAP_SETPCAP ∈ permitted s →
     bounding s' = bounding s ∖ list_to_set drop).
Proof.
  cbn [execute_privilege_steps].
  intros [(s1 & E1 & [(s2 & E2 & [(s3 & E3 & [(s4 & E4 & [= <-])|[[=] _]]%then_inv)|[[=] _]]%then_inv)|[[=] _]]%then_inv)|[[=] _]]%then_inv.
  apply add_inheritable_inv in E1 as (I1 & _ & B1 & N1 & P1 & X1).
  destruct (X1 eq_refl) as [F1 H1]. pose proof (shrink_live_drops drop s1) as D2.
  cbn in E2. destruct (shrink_bounding_set_live drop s1) as [w s2'] eqn:E. injection E2 as <-.
  apply shrink_live_inv in E as (I2 & P2 & H2 & _ & B2 & N2).
  apply raise_all_inv in E3 as (I3 & P3 & _ & H3 & B3 & N3 & A3). specialize (A3 eq_refl).
  apply trim_inv in E4 as (I4 & _ & B4 & N4 & H4 & X4).
  destruct (X4 eq_refl) as (P4 & F4 & A4).
  split_and!; [by repeat (eapply same_ids_trans; [eassumption|])|done|done| |congruence| |congruence|].
  - rewrite A4, A3, H3, H2, H1. set_solver.
  - rewrite B4, B3, B2, B1. done.
  - intros Hok Hsub Hpc. rewrite B4, B3, <- B1. apply D2; [done|by rewrite F1, P1|by rewrite P1].
Qed.

(** What a program can get, and what an ordinary one does. *)
Lemma exec_permitted f s c : c ∈ (exec_caps f s).1.1 → c ∈ inheritable s ∨ c ∈ bounding s ∨ c ∈ ambient s.
Proof.
  unfold exec_caps. cbn [fst]. set (p := (_ ∩ _) ∪ _ ∪ _). intros Hc.
  assert (Hp : c ∈ p) by (destruct (negb (no_new_privs s)); [done|by apply elem_of_intersection in Hc as [? _]]).
  unfold p in Hp. rewrite !elem_of_union, !elem_of_intersection in Hp. destruct Hp as [[[? _]|[_ ?]]|Ha]; [by auto..|].
  case_match; [by apply elem_of_empty in Ha|by auto].
Qed.

Lemma exec_plain f s : setuid_root f = false → f_permitted f ∪ f_inheritable f = ∅ → ambient s ⊆ permitted s →
  ambient s ⊆ (exec_caps f s).1.1 ∧ ambient s ⊆ (exec_caps f s).1.2.
Proof.
  intros Hs Hf Ha. unfold exec_caps. rewrite Hs, Hf, (bool_decide_eq_false_2 (∅ ≠ ∅)), !andb_false_r by auto. cbn [fst snd].
  set (p := _ ∪ _ ∪ ambient s). assert (Hp : ambient s ⊆ p) by apply union_subseteq_r.
  set (q := if negb (no_new_privs s) then p else p ∩ permitted s).
  assert (Hq : ambient s ⊆ q).
  { unfold q. destruct (negb _); [done|]. intros c Hc. apply elem_of_intersection. auto. }
  split; [done|]. case_match; [done|]. intros c Hc. apply elem_of_intersection. auto.
Qed.

(** C14: When the runner's transition succeeds, the process has exactly the needed
    capabilities, permitted, in effect and ambient, and the bounding set has not
    grown; in the setuid-root form it is the invoking user in every user and
    group id, with the groups it is allowed to keep; with [CAP_SETPCAP] permitted
    and no call failing, nothing but the needed capabilities is left in the
    bounding set.  If that is so and its inheritable set was within the needed
    ones, then no program it executes, whatever capabilities its file has and
    even set-user-ID root, gets any other capability, and an ordinary program
    gets exactly the needed ones. *)
Theorem transition_delivers_need need supported gid kvm held s s' :
  let plan := plan_privilege_transition need supported (euid s) (ruid s) gid kvm held in
  let needed : caps := list_to_set need in
  apply_privilege_transition plan s = (true, s') →
  (permitted s' = needed ∧ effective s' = needed ∧ ambient s' = needed ∧ bounding s' ⊆ bounding s) ∧
  (euid s = 0%N → ruid s ≠ 0%N →
     (ruid s', euid s', suid s') = (ruid s, ruid s, ruid s) ∧ gids s' = (gid, gid, gid) ∧
     groups s' = merge_preserved_groups gid kvm held) ∧
  ((∀ c st, call_fails c st = false) → effective s ⊆ permitted s → CAP_SETPCAP ∈ permitted s →
     bounding s ⊆ list_to_set supported → bounding s' ⊆ needed) ∧
  (inheritable s ⊆ needed → bounding s' ⊆ needed → ∀ f,
     (exec_caps f s').1.1 ⊆ needed ∧
     (setuid_root f = false → f_permitted f ∪ f_inheritable f = ∅ →
        (exec_caps f s').1.1 = needed ∧ needed ⊆ (exec_caps f s').1.2)).
Proof.
  intros plan needed E.
  assert (Hmid : ∃ s1, execute_privilege_steps [AddInheritable need; ShrinkBounding (plan_bounding_drop plan);
      RaiseAmbient need; TrimCaps need] s1 = (true, s') ∧ inheritable s1 = inheritable s ∧ bounding s1 = bounding s ∧
    permitted s1 = permitted s ∧ (effective s ⊆ permitted s → effective s1 ⊆ permitted s1) ∧
    (euid s = 0%N → ruid s ≠ 0%N → (ruid s1, euid s1, suid s1) = (ruid s, ruid s, ruid s) ∧
       gids s1 = (gid, gid, gid) ∧ groups s1 = merge_preserved_groups gid kvm held)).
  { unfold apply_privilege_transition, steps, plan, plan_privilege_transition in E. cbn [uid_drop inheritable_add
      plan_bounding_drop plan_ambient_raise final_caps] in E.
    destruct (N.eqb_spec (euid s) 0) as [He|He], (N.eqb_spec (ruid s) 0) as [Hr|Hr]; cbn [andb negb app] in E;
      try (exists s; by split_and!).
    cbn [execute_privilege_steps] in E. apply then_inv in E as [(s1 & E1 & E)|[[=] _]]. exists s1.
    apply drop_uid_inv in E1 as (_ & Hb & Hi & _ & Hp & X); [|done..].
    destruct (X eq_refl) as (-> & -> & -> & ? & ? & He1 & _). split_and!; try done. intros _. rewrite He1. set_solver. }
  destruct Hmid as (s1 & Ed & Hi & Hb & Hperm & Heff & Hids).
  apply deliver_inv in Ed as ((R & U & V & G & Gr) & P & F & A & I & B & _ & D).
  rewrite Hb in B. split_and!; [done..| | |].
  - intros He Hr. rewrite R, U, V, G, Gr. by apply Hids.
  - intros Hok Hsub Hpc Hsup. rewrite D, Hb by (done || (by apply Heff) || by rewrite Hperm).
    intros c [Hc Hd]%elem_of_difference. apply elem_of_list_to_set. destruct (decide (c ∈ need)) as [|Hn]; [done|].
    exfalso. apply Hd, elem_of_list_to_set, list_elem_of_filter. split; [done|]. by apply Hsup, elem_of_list_to_set in Hc.
  - intros Hin Hbo f. rewrite Hi in I.
    assert (Hsub : (exec_caps f s').1.1 ⊆ needed).
    { intros c [Hc|[Hc|Hc]]%exec_permitted; [|by apply Hbo|by rewrite A in Hc].
      rewrite I in Hc. apply elem_of_union in Hc as [Hc|Hc]; [done|by apply Hin]. }
    split; [done|]. intros Hs Hf. destruct (exec_plain f s' Hs Hf) as [H1 H2]; [by rewrite A, P|]. rewrite A in H1, H2.
    split; [|done]. by apply (anti_symm (⊆)).
Qed.

(** However the transition of a setuid-root runner fails, and after however
    many of its steps, no ambient capability has been raised while the process
    was still root: either none is ambient, or all its user ids are the invoking
    user's. *)
Theorem no_ambient_while_root need supported gid kvm held s k ok s' :
  let plan := plan_privilege_transition need supported (euid s) (ruid s) gid kvm held in
  euid s = 0%N → ruid s ≠ 0%N → ambient s = ∅ →
  execute_privilege_steps (take k (steps plan)) s = (ok, s') →
  ambient s' = ∅ ∨ (ruid s', euid s', suid s') = (ruid s, ruid s, ruid s).
Proof.
  intros plan He Hr Ha. unfold steps, plan, plan_privilege_transition. cbn [uid_drop]. rewrite He. cbn [N.eqb].
  rewrite (proj2 (N.eqb_neq _ _) Hr). cbn [andb negb app inheritable_add plan_bounding_drop plan_ambient_raise final_caps].
  destruct k as [|k]; cbn [take execute_privilege_steps]; [intros [= <- <-]; by left|].
  set (later := take k _). intros [(s1 & E1 & E)|[-> E]]%then_inv.
  - apply drop_uid_inv in E1 as (_ & _ & _ & _ & _ & X); [|done..]. destruct (X eq_refl) as (H1 & H2 & H3 & _).
    cbn in H1, H2, H3. apply later_steps_ids in E as (-> & -> & -> & _); [right; congruence|].
    unfold later. apply Forall_take. by repeat constructor.
  - apply drop_uid_inv in E as (Hs & _); [|done..]. left. rewrite Ha in Hs. set_solver.
Qed.

(** *** The broker's parent *)

(** A program started, and everything else a process can do to its sets. *)
Definition exec_proc (f : exe) (s : proc) : proc :=
  let '(p, e, a) := exec_caps f s in
  let eu := if setuid_root f && negb (no_new_privs s) then 0%N else euid s in {|
    ruid := ruid s; euid := eu; suid := eu; gids := gids s; groups := groups s;
    permitted := p; effective := e; inheritable := inheritable s; ambient := a; bounding := bounding s;
    keepcaps := false; no_new_privs := no_new_privs s |}.

Inductive does (s : proc) : proc → Prop :=
  | DoesCapset p e i s' : capset p e i s = Some s' → does s s'
  | DoesKeepcaps s' : set_keepcaps s = Some s' → does s s'
  | DoesGid g s' : setresgid g s = Some s' → does s s'
  | DoesGroups l s' : setgroups l s = Some s' → does s s'
  | DoesUid u s' : setresuid u s = Some s' → does s s'
  | DoesBounding c s' : bounding_drop c s = Some s' → does s s'
  | DoesAmbient c s' : ambient_raise c s = Some s' → does s s'
  | DoesClear s' : ambient_clear s = Some s' → does s s'
  | DoesNnp s' : set_no_new_privs s = Some s' → does s s'
  | DoesExec f : does s (exec_proc f s).

Definition powerless (s : proc) : Prop :=
  permitted s = ∅ ∧ effective s = ∅ ∧ ambient s = ∅ ∧ no_new_privs s = true.

Lemma powerless_closed s s' : does s s' → powerless s → powerless s'.
Proof.
  intros Hd (Hp & He & Ha & Hn). unfold powerless. destruct Hd as [p e i s' H|s' H|g s' H|l s' H|u s' H|c s' H|c s' H|s' H|s' H|f].
  - apply capset_inv in H as (-> & H1 & H2). cbn. rewrite Hp in H1. rewrite Ha, Hn. split_and!; [set_solver..|done].
  - unfold set_keepcaps in H. repeat case_match; simplify_eq/=; by split_and!.
  - unfold setresgid in H. destruct (gids s) as [[??]?]. repeat case_match; simplify_eq/=; by split_and!.
  - unfold setgroups in H. repeat case_match; simplify_eq/=; by split_and!.
  - unfold setresuid in H. destruct (call_fails _ _); [done|]. case_decide; [|done]. injection H as <-. cbn.
    rewrite Hp, He, Ha, Hn. split_and!; [by case_match..|done].
  - unfold bounding_drop in H. repeat case_match; simplify_eq/=; by split_and!.
  - unfold ambient_raise in H. destruct (call_fails _ _); [done|]. case_decide as Hc; [|done].
    rewrite Hp in Hc. destruct Hc as [Hc _]. by apply elem_of_empty in Hc.
  - unfold ambient_clear in H. repeat case_match; simplify_eq/=; by split_and!.
  - unfold set_no_new_privs in H. repeat case_match; simplify_eq/=; by split_and!.
  - unfold exec_proc, exec_caps. rewrite Hn, Hp, Ha. cbn. split_and!; try done; [set_solver|case_match; set_solver|set_solver].
Qed.


(** *** What the transition leaves *)

(** Inheritable capabilities the runner was started with are kept, and a
    set-user-ID root program gets them whatever the bounding set. *)
Theorem stale_inheritable_survives need supported gid kvm held s s' c f :
  apply_privilege_transition (plan_privilege_transition need supported (euid s) (ruid s) gid kvm held) s = (true, s') →
  (euid s ≠ 0 ∨ ruid s = 0)%N → c ∈ inheritable s → c ∈ all_caps → setuid_root f = true → no_new_privs s = false →
  c ∈ (exec_caps f s').1.1.
Proof.
  intros E Hform Hc Hall Hf Hn. unfold apply_privilege_transition, steps, plan_privilege_transition in E.
  cbn [uid_drop inheritable_add plan_bounding_drop plan_ambient_raise final_caps] in E.
  assert (Hif : ((euid s =? 0)%N && negb (ruid s =? 0)%N) = false).
  { destruct (N.eqb_spec (euid s) 0), (N.eqb_spec (ruid s) 0); naive_solver. }
  rewrite Hif in E. apply deliver_inv in E as (_ & _ & _ & _ & I & _ & N & _).
  unfold exec_caps. rewrite Hf, N, Hn, I. cbn. set_solver.
Qed.
End transition.

(** ** Witnesses *)

Definition example_kernel : CapKernel :=
  {| call_fails _ _ := false; all_caps := list_to_set (N.of_nat <$> seq 0 41) |}.

Definition example_supported : list N := N.of_nat <$> seq 0 41.

(** The blessed runner of an ordinary user, and a setuid-root one. *)
Definition blessed : proc := {|
  ruid := 1000; euid := 1000; suid := 1000; gids := (1000, 1000, 1000)%N; groups := [1000; 36]%N;
  permitted := list_to_set BLESSED_FILE_CAPS; effective := list_to_set BLESSED_FILE_CAPS; inheritable := ∅;
  ambient := ∅; bounding := list_to_set example_supported; keepcaps := false; no_new_privs := false |}.

Definition setuid_runner : proc := {|
  ruid := 1000; euid := 0; suid := 0; gids := (1000, 1000, 1000)%N; groups := [1000; 36]%N;
  permitted := list_to_set example_supported; effective := list_to_set example_supported; inheritable := ∅;
  ambient := ∅; bounding := list_to_set example_supported; keepcaps := false; no_new_privs := false |}.

Definition example_transition (s : proc) : bool * proc :=
  apply_privilege_transition (CK := example_kernel)
    (plan_privilege_transition PRIVILEGED_CAPS example_supported (euid s) (ruid s) 1000 (Some 36%N) [36%N]) s.

Lemma transition_delivers_need_witness :
  (permitted (example_transition setuid_runner).2 = list_to_set PRIVILEGED_CAPS ∧
   euid (example_transition setuid_runner).2 = 1000%N ∧ groups (example_transition setuid_runner).2 = [1000; 36]%N) ∧
  ∀ f, (exec_caps (CK := example_kernel) f (example_transition blessed).2).1.1 ⊆ list_to_set PRIVILEGED_CAPS.
Proof.
  split.
  - assert (E : example_transition setuid_runner = (true, (example_transition setuid_runner).2)) by (vm_compute; reflexivity).
    destruct (transition_delivers_need (CK := example_kernel) PRIVILEGED_CAPS example_supported 1000 (Some 36%N) [36%N]
      setuid_runner _ E) as ((H1 & _) & H2 & _). split; [exact H1|].
    destruct H2 as (H2 & _ & H4); [reflexivity|discriminate|].
    split; [exact (f_equal (λ p, p.1.2) H2)|exact H4].
  - assert (E : example_transition blessed = (true, (example_transition blessed).2)) by (vm_compute; reflexivity).
    destruct (transition_delivers_need (CK := example_kernel) PRIVILEGED_CAPS example_supported 1000 (Some 36%N) [36%N]
      blessed _ E) as (_ & _ & H3 & H4). intros f. apply H4; [apply empty_subseteq|].
    apply H3; [reflexivity|apply reflexivity|refine (bool_decide_unpack _ _); vm_compute; exact I|apply reflexivity].
Defined.

Lemma no_ambient_while_root_witness :
  let r := execute_privilege_steps (CK := example_kernel) (take 4 (steps (plan_privilege_transition PRIVILEGED_CAPS
    example_supported 0 1000 1000 (Some 36%N) [36%N]))) setuid_runner in
  CAP_NET_ADMIN ∈ ambient r.2 ∧
  (ambient r.2 = ∅ ∨ (ruid r.2, euid r.2, suid r.2) = (1000, 1000, 1000)%N).
Proof.
  intros r. split; [refine (bool_decide_unpack _ _); vm_compute; exact I|].
  apply (no_ambient_while_root (CK := example_kernel) PRIVILEGED_CAPS example_supported 1000 (Some 36%N) [36%N]
    setuid_runner 4 r.1 r.2); [reflexivity|discriminate|reflexivity|]. apply surjective_pairing.
Defined.

Definition sudo : exe := {| f_permitted := ∅; f_inheritable := ∅; f_effective := false; setuid_root := true |}.

