(* ===== verification/Bridge.v ===== *)
(** * The daemon's broker bridge

    Models [crates/vmcell-daemon/src/bridge.rs]: the network-facing parent
    forwards each VM operation over a socket pair to the broker child that owns
    the engine, several at a time, told apart by a request id.  The two
    processes, the two byte streams between them and the clock are one state;
    every point at which a task can be interrupted is an event.  The engine
    behind [VmEngine] is a class, the serialisation is [serde_json]'s and a
    parameter with its round trips as laws.  Error texts are kept as their
    kind, times are nanoseconds. *)

From S2P Require Import Prelude ArtifactName DaemonTypes Wire.

(** ** Bounds and budgets *)

Definition MAX_BRIDGE_FRAME_BYTES : N := 256 * 1024 * 1024.
Definition EXEC_REPLY_ENVELOPE_RESERVE : N := 64 * 1024.
Definition MAX_EXEC_CAPTURE_B64_BYTES : N := MAX_BRIDGE_FRAME_BYTES - EXEC_REPLY_ENVELOPE_RESERVE.
Definition MAX_EXEC_CAPTURE_BYTES : N := MAX_EXEC_CAPTURE_B64_BYTES / 4 * 3.

(** [Duration] and [Instant]: nanoseconds, at the widths [std] gives them. *)
Definition from_secs (s : N) : N := s * 10 ^ 9.
Definition DURATION_MAX : N := from_secs (2 ^ 64 - 1) + (10 ^ 9 - 1).
Definition INSTANT_MAX : N := from_secs (2 ^ 63 - 1) + (10 ^ 9 - 1).
Definition saturating_add (a b : N) : N := N.min (a + b) DURATION_MAX.
Definition checked_add (now d : N) : option N := if (now + d <=? INSTANT_MAX)%N then Some (now + d)%N else None.

Definition SHUTDOWN_DRAIN_BUDGET : N := from_secs 60.
Definition BROKER_CONTROL_CALL_BUDGET : N := from_secs 60.
Definition BROKER_VM_CALL_BUDGET : N := from_secs 900.
Definition EXEC_BUDGET_MARGIN : N := from_secs 60.
Definition CALL_DEADLINE_HORIZON : N := from_secs (365 * 24 * 60 * 60).

(** ** Messages *)

Record ExecRequestDto := {
  argv : list string;
  env : list (string * string);
  cwd : option string;
  timeout_secs : option N;
}.

Record ExecOutcomeDto := { code : Z; stdout_b64 : string; stderr_b64 : string }.

Record ResourceUsageDto := {
  mem_peak_mib : N;
  mem_current_mib : N;
  cpu_usec : N;
  io_read_bytes : N;
  io_write_bytes : N;
  mem_limit_enforced : bool;
  mem_read_ok : bool;
  cpu_read_ok : bool;
  io_read_ok : bool;
}.

Record SnapshotInfo := { artifact_prefix : string; files : list string }.
Record CreateVmResponse := { vm : VmInfo; exec_outcome : option ExecOutcomeDto }.

Record WireError := { kind : ErrorKind }.

Definition wire_error (e : DaemonError) : WireError := {| kind := error_kind e |}.

Definition daemon_error_from_wire (w : WireError) : DaemonError :=
  match kind w with
  | KNotFound => ENotFound
  | KAlreadyExists => EAlreadyExists
  | KInUse => EInUse
  | KConflict => EConflict
  | KInvalidName | KBadRequest => EBadRequest
  | KUnauthorized => EUnauthorized
  | KForbidden => EForbidden
  | KUnsupported => EUnsupported
  | KPayloadTooLarge => EPayloadTooLarge
  | KInternal => EInternal
  end.

Inductive EngineRequest :=
  | Create (r : CreateVmRequest)
  | ListVms
  | Get (id : string)
  | Exec (id : string) (r : ExecRequestDto)
  | Stats (id : string)
  | Pause (id : string)
  | Resume (id : string)
  | Snapshot (id prefix : string)
  | Destroy (id : string)
  | IsArtifactInUse (name : string)
  | DeleteArtifactIfUnused (name : string)
  | ShutdownAll.

Inductive EngineReply :=
  | RCreated (v : CreateVmResponse)
  | RList (v : list VmInfo)
  | RInfo (v : VmInfo)
  | RExec (v : ExecOutcomeDto)
  | RStats (v : ResourceUsageDto)
  | RSnapshot (v : SnapshotInfo)
  | RDestroyed
  | RInUse (v : bool)
  | RArtifactDeleted
  | RShutdownAllDone
  | RErr (w : WireError).

Definition RInternal : EngineReply := RErr {| kind := KInternal |}.

(** ** The engine and its capture ceiling *)

Definition enforce_exec_capture_ceiling (outcome : ExecOutcomeDto) : result DaemonError unit :=
  if (str_len (stdout_b64 outcome) + str_len (stderr_b64 outcome) <=? MAX_EXEC_CAPTURE_B64_BYTES)%N
  then Ok tt else Err EPayloadTooLarge.

(** What [impl VmEngine for Registry] makes of the registry's own answers to
    [create] and [exec]; its other methods pass them on. *)
Definition registry_create (c : result DaemonError (VmInfo * option ExecOutcomeDto)) :
    result DaemonError CreateVmResponse :=
  let? (info, outcome) := c in
  let? _ := match outcome with Some o => enforce_exec_capture_ceiling o | None => Ok tt end in
  Ok {| vm := info; exec_outcome := outcome |}.

Definition registry_exec (o : result DaemonError ExecOutcomeDto) : result DaemonError ExecOutcomeDto :=
  let? outcome := o in
  let? _ := enforce_exec_capture_ceiling outcome in
  Ok outcome.

Class VmEngine (E : Type) := {
  create : CreateVmRequest → E → result DaemonError CreateVmResponse * E;
  list_vms : E → result DaemonError (list VmInfo) * E;
  get : string → E → result DaemonError VmInfo * E;
  exec : string → ExecRequestDto → E → result DaemonError ExecOutcomeDto * E;
  stats : string → E → result DaemonError ResourceUsageDto * E;
  pause : string → E → result DaemonError VmInfo * E;
  resume : string → E → result DaemonError VmInfo * E;
  snapshot : string → string → E → result DaemonError SnapshotInfo * E;
  destroy : string → E → result DaemonError unit * E;
  is_artifact_in_use : string → E → result DaemonError bool * E;
  delete_artifact_if_unused : string → E → result DaemonError unit * E;
  shutdown_all : E → E;
}.

Definition reply_of {A E} (ok : A → EngineReply) (r : result DaemonError A * E) : EngineReply * E :=
  (match r.1 with Ok v => ok v | Err e => RErr (wire_error e) end, r.2).

Definition dispatch `{VmEngine E} (req : EngineRequest) (e : E) : EngineReply * E :=
  match req with
  | Create r => reply_of RCreated (create r e)
  | ListVms => reply_of RList (list_vms e)
  | Get id => reply_of RInfo (get id e)
  | Exec id r => reply_of RExec (exec id r e)
  | Stats id => reply_of RStats (stats id e)
  | Pause id => reply_of RInfo (pause id e)
  | Resume id => reply_of RInfo (resume id e)
  | Snapshot id prefix => reply_of RSnapshot (snapshot id prefix e)
  | Destroy id => reply_of (λ _, RDestroyed) (destroy id e)
  | IsArtifactInUse name => reply_of RInUse (is_artifact_in_use name e)
  | DeleteArtifactIfUnused name => reply_of (λ _, RArtifactDeleted) (delete_artifact_if_unused name e)
  | ShutdownAll => (RShutdownAllDone, shutdown_all e)
  end.

(** ** Frames *)

Definition frame_len_prefix (payload : string) : result io_error string :=
  if (str_len payload <=? u32_max)%N && (str_len payload <=? MAX_BRIDGE_FRAME_BYTES)%N
  then Ok (to_be_bytes (str_len payload)) else Err InvalidData.

Definition write_frame (out payload : string) : result io_error string :=
  let? len := frame_len_prefix payload in
  Ok (out +:+ len +:+ payload).

(** What is left of the stream is [stream]; a frame that is not complete is
    [UnexpectedEof] where the peer has closed, and the reader waits where it has
    not. *)
Definition read_frame (stream : string) : result io_error (string * string) :=
  let? (len_buf, rest) := read_exact 4 stream in
  match len_buf with
  | String a (String b (String c (String d _))) =>
      let len := from_be_bytes a b c d in
      if (MAX_BRIDGE_FRAME_BYTES <? len)%N then Err InvalidData else read_exact (N.to_nat len) rest
  | _ => Err UnexpectedEof
  end.

(** [serde_json] on [(u64, EngineRequest)] and [(u64, EngineReply)], and the
    permissive decode that recovers the id alone. *)
Class BridgeCodec := {
  enc_request : N → EngineRequest → option string;
  dec_request : string → option (N * EngineRequest);
  dec_id : string → option N;
  enc_reply : N → EngineReply → option string;
  dec_reply : string → option (N * EngineReply);
  request_law id r b : enc_request id r = Some b → dec_request b = Some (id, r);
  reply_law id r b : enc_reply id r = Some b → dec_reply b = Some (id, r);
}.

(** ** Budgets *)

Definition call_budget (req : EngineRequest) : N :=
  match req with
  | Exec _ r =>
      match timeout_secs r with
      | Some secs => N.max (saturating_add (from_secs secs) EXEC_BUDGET_MARGIN) BROKER_VM_CALL_BUDGET
      | None => BROKER_VM_CALL_BUDGET
      end
  | Create _ | Pause _ | Resume _ | Snapshot _ _ | Destroy _ | ShutdownAll => BROKER_VM_CALL_BUDGET
  | ListVms | Get _ | Stats _ | IsArtifactInUse _ | DeleteArtifactIfUnused _ => BROKER_CONTROL_CALL_BUDGET
  end.

Definition deadline_from (now budget : N) : N := default (now + CALL_DEADLINE_HORIZON)%N (checked_add now budget).

(** ** The parent *)

(** Where a [call] is suspended: waiting for the writer's lock with its encoded
    request, in the middle of the framed write, or waiting for the reply. *)
Inductive phase := Locking (payload : string) | Writing (rest : string) | Awaiting.

(** [BrokerClientEngine], with what its tasks hold: [lock] is the call that has
    the writer, [calls] the calls in progress with their deadlines, [oneshots]
    the replies sent and not yet received, [results] what the calls returned and
    [reading] whether the reply reader still runs. *)
Record BrokerClientEngine := {
  wr : bool;
  lock : option N;
  pending : gset N;
  next_id : N;
  calls : gmap N (phase * N);
  oneshots : gmap N EngineReply;
  results : gmap N (result DaemonError EngineReply);
  reading : bool;
}.

Definition with_writer (open : bool) (holder : option N) (c : BrokerClientEngine) : BrokerClientEngine :=
  {| wr := open; lock := holder; pending := pending c; next_id := next_id c; calls := calls c;
     oneshots := oneshots c; results := results c; reading := reading c |}.

Definition with_call (id : N) (p : phase) (deadline : N) (c : BrokerClientEngine) : BrokerClientEngine :=
  {| wr := wr c; lock := lock c; pending := pending c; next_id := next_id c; calls := <[id := (p, deadline)]> (calls c);
     oneshots := oneshots c; results := results c; reading := reading c |}.

Definition forget (id : N) (c : BrokerClientEngine) : BrokerClientEngine :=
  {| wr := wr c; lock := lock c; pending := pending c ∖ {[id]}; next_id := next_id c; calls := calls c;
     oneshots := oneshots c; results := results c; reading := reading c |}.

(** The call returns. *)
Definition return_ (id : N) (r : result DaemonError EngineReply) (c : BrokerClientEngine) : BrokerClientEngine :=
  {| wr := wr c; lock := lock c; pending := pending c; next_id := next_id c; calls := delete id (calls c);
     oneshots := delete id (oneshots c); results := <[id := r]> (results c); reading := reading c |}.

(** The call's future is dropped: the lock's guard and the receiver go with it. *)
Definition cancel (id : N) (c : BrokerClientEngine) : BrokerClientEngine :=
  {| wr := wr c; lock := if bool_decide (lock c = Some id) then None else lock c; pending := pending c;
     next_id := next_id c; calls := delete id (calls c); oneshots := delete id (oneshots c);
     results := results c; reading := reading c |}.

(** [tx.send]: taken out of the table; lost where the receiver is gone. *)
Definition resolve (id : N) (reply : EngineReply) (c : BrokerClientEngine) : BrokerClientEngine :=
  if bool_decide (id ∈ pending c) then
    {| wr := wr c; lock := lock c; pending := pending c ∖ {[id]}; next_id := next_id c; calls := calls c;
       oneshots := if bool_decide (is_Some (calls c !! id)) then <[id := reply]> (oneshots c) else oneshots c;
       results := results c; reading := reading c |}
  else c.

(** The reader's end: every slot still in the table is failed. *)
Definition fail_pending (c : BrokerClientEngine) : BrokerClientEngine :=
  {| wr := wr c; lock := lock c; pending := ∅; next_id := next_id c; calls := calls c;
     oneshots := map_imap (λ id _, if bool_decide (id ∈ pending c) then Some RInternal else oneshots c !! id) (calls c);
     results := results c; reading := false |}.

Definition client_new : BrokerClientEngine :=
  {| wr := true; lock := None; pending := ∅; next_id := 1; calls := ∅; oneshots := ∅; results := ∅; reading := true |}.

Section parent.
Context {BC : BridgeCodec}.

(** [call] up to its first wait: the id, the slot in the table, the encoding and
    the frame cap.  [budget] overrides the per-request one. *)
Definition begin_call (budget : option N) (now : N) (req : EngineRequest) (c : BrokerClientEngine) : BrokerClientEngine :=
  let deadline := deadline_from now (default (call_budget req) budget) in
  let id := next_id c in
  let c := {| wr := wr c; lock := lock c; pending := {[id]} ∪ pending c; next_id := (id + 1) mod 2 ^ 64;
              calls := calls c; oneshots := oneshots c; results := results c; reading := reading c |} in
  match enc_request id req with
  | None => forget id (return_ id (Err EInternal) c)
  | Some bytes =>
      match frame_len_prefix bytes with
      | Err _ => forget id (return_ id (Err EPayloadTooLarge) c)
      | Ok _ => with_call id (Locking bytes) deadline c
      end
  end.
End parent.

(** The writer's lock is granted. *)
Definition acquire (id : N) (c : BrokerClientEngine) : BrokerClientEngine :=
  match calls c !! id, lock c with
  | Some (Locking bytes, deadline), None =>
      if wr c then
        match write_frame "" bytes with
        | Ok framed => with_call id (Writing framed) deadline (with_writer (wr c) (Some id) c)
        | Err _ => forget id (return_ id (Err EInternal) (with_writer false None c))
        end
      else forget id (return_ id (Err EInternal) c)
  | _, _ => c
  end.

(** The socket takes [n] more bytes of the frame, at least one. *)
Definition write_some (id : N) (n : nat) (c : BrokerClientEngine) (stream : string) : BrokerClientEngine * string :=
  match calls c !! id with
  | Some (Writing rest, deadline) =>
      match read_exact (S n) rest with
      | Ok (chunk, "") => (with_call id Awaiting deadline (with_writer (wr c) None c), stream +:+ chunk)
      | Ok (chunk, rest) => (with_call id (Writing rest) deadline c, stream +:+ chunk)
      | Err _ => (c, stream)
      end
  | _ => (c, stream)
  end.

(** A write that fails part-way takes the writer out of its slot. *)
Definition write_error (id : N) (c : BrokerClientEngine) : BrokerClientEngine :=
  match calls c !! id with
  | Some (Writing _, _) => forget id (return_ id (Err EInternal) (with_writer false None c))
  | _ => c
  end.

(** The reply, or the end of its channel, reaches the waiting call. *)
Definition receive (id : N) (c : BrokerClientEngine) : BrokerClientEngine :=
  match calls c !! id with
  | Some (Awaiting, _) =>
      match oneshots c !! id with
      | Some reply => return_ id (Ok reply) c
      | None => if bool_decide (id ∈ pending c) then c else return_ id (Err EInternal) c
      end
  | _ => c
  end.

(** The call is woken at its deadline, wherever it is suspended; what it was
    waiting for wins if it is there. *)
Definition expire (now id : N) (c : BrokerClientEngine) : BrokerClientEngine :=
  match calls c !! id with
  | Some (p, deadline) =>
      if (now <? deadline)%N then c
      else match p with
           | Locking _ => forget id (return_ id (Err EInternal) c)
           | Writing _ => write_error id c
           | Awaiting => if bool_decide (is_Some (oneshots c !! id)) then receive id c
                         else forget id (return_ id (Err EInternal) c)
           end
  | None => c
  end.

(** One turn of the reply reader; [closed] is whether the broker's end is gone. *)
Definition read_reply {BC : BridgeCodec} (closed : bool) (c : BrokerClientEngine) (stream : string) :
    BrokerClientEngine * string :=
  if reading c then
    match read_frame stream with
    | Ok (bytes, rest) =>
        (match dec_reply bytes with Some (id, reply) => resolve id reply c | None => c end, rest)
    | Err UnexpectedEof => if closed then (fail_pending c, "") else (c, stream)
    | Err _ => (fail_pending c, stream)
    end
  else (c, stream).

(** ** The broker *)

Definition write_reply {BC : BridgeCodec} (id : N) (reply : EngineReply) (out : string) : string :=
  let sent := match enc_reply id reply with
              | Some bytes => write_frame out bytes
              | None => Err InvalidData
              end in
  match sent with
  | Ok out => out
  | Err _ =>
      match enc_reply id RInternal with
      | Some bytes => match write_frame out bytes with Ok out => out | Err _ => out end
      | None => out
      end
  end.

(** [Draining] is [drain_dispatch_jobs] with its deadline, for the shutdown
    request named or for the end of the stream; [Exited] is the process gone. *)
Inductive broker_status := Serving | Draining (shutdown : option N) (deadline : N) | Exited.

(** The broker's end: the dispatch jobs that still run, and the engine.
    [accepted] and [dispatched] record the requests read off the stream and the
    engine calls made, in order. *)
Record broker (E : Type) := {
  status : broker_status;
  jobs : list (N * EngineRequest);
  engine : E;
  accepted : list (N * EngineRequest);
  dispatched : list (N * EngineRequest * EngineReply);
}.
Arguments status {E}.
Arguments jobs {E}.
Arguments engine {E}.
Arguments accepted {E}.
Arguments dispatched {E}.

Definition broker_new {E} (e : E) : broker E :=
  {| status := Serving; jobs := []; engine := e; accepted := []; dispatched := [] |}.

Definition with_status {E} (st : broker_status) (b : broker E) : broker E :=
  {| status := st; jobs := jobs b; engine := engine b; accepted := accepted b; dispatched := dispatched b |}.

Definition accept {E} (id : N) (req : EngineRequest) (b : broker E) : broker E :=
  {| status := status b; jobs := jobs b; engine := engine b; accepted := accepted b ++ [(id, req)];
     dispatched := dispatched b |}.

Definition spawn_job {E} (id : N) (req : EngineRequest) (b : broker E) : broker E :=
  {| status := status b; jobs := jobs b ++ [(id, req)]; engine := engine b; accepted := accepted b;
     dispatched := dispatched b |}.

Section broker_side.
Context `{VmEngine E} {BC : BridgeCodec}.

(** One turn of [serve_engine]'s loop; [closed] is whether the parent's write
    half is shut down.  The finished jobs it reaps are not in [jobs]. *)
Definition read_request (now : N) (closed : bool) (b : broker E) (stream out : string) : broker E * string * string :=
  let drain shutdown := with_status (Draining shutdown (now + SHUTDOWN_DRAIN_BUDGET)) in
  match status b with
  | Serving =>
      match read_frame stream with
      | Ok (bytes, rest) =>
          match dec_request bytes with
          | Some (id, ShutdownAll) => (drain (Some id) (accept id ShutdownAll b), rest, out)
          | Some (id, req) => (spawn_job id req (accept id req b), rest, out)
          | None => (b, rest, match dec_id bytes with Some id => write_reply id RInternal out | None => out end)
          end
      | Err UnexpectedEof => if closed then (drain None b, stream, out) else (b, stream, out)
      | Err _ => (drain None b, stream, out)
      end
  | _ => (b, stream, out)
  end.

(** The body of a dispatch job. *)
Definition run_job (id : N) (req : EngineRequest) (b : broker E) (out : string) : broker E * string :=
  let '(reply, e) := dispatch req (engine b) in
  ({| status := status b; jobs := jobs b; engine := e; accepted := accepted b;
      dispatched := dispatched b ++ [(id, req, reply)] |}, write_reply id reply out).

Definition finish_job (k : nat) (b : broker E) (out : string) : broker E * string :=
  match status b, jobs b !! k with
  | Exited, _ | _, None => (b, out)
  | _, Some (id, req) =>
      run_job id req {| status := status b; jobs := delete k (jobs b); engine := engine b;
                        accepted := accepted b; dispatched := dispatched b |} out
  end.

Definition exit_ (b : broker E) : broker E :=
  {| status := Exited; jobs := []; engine := engine b; accepted := accepted b; dispatched := dispatched b |}.

(** The drain ends when no job is left or its deadline has come; a shutdown is
    then run inline, and the process exits. *)
Definition end_drain (now : N) (b : broker E) (out : string) : broker E * string :=
  match status b with
  | Draining shutdown deadline =>
      if bool_decide (jobs b = []) || (deadline <=? now)%N then
        let '(b, out) := match shutdown with Some id => run_job id ShutdownAll b out | None => (b, out) end in
        (exit_ b, out)
      else (b, out)
  | _ => (b, out)
  end.
End broker_side.

(** ** Both ends *)

Record bridge (E : Type) := {
  now : N;
  client : BrokerClientEngine;
  server : broker E;
  requests : string;
  replies : string;
  asked : gmap N EngineRequest;
}.
Arguments now {E}.
Arguments client {E}.
Arguments server {E}.
Arguments requests {E}.
Arguments replies {E}.
Arguments asked {E}.

Definition bridge_new {E} (t : N) (e : E) : bridge E :=
  {| now := t; client := client_new; server := broker_new e; requests := ""; replies := ""; asked := ∅ |}.

Inductive event :=
  | Elapse (d : N)
  | Call (req : EngineRequest)
  | Acquire (id : N)
  | WriteSome (id : N) (n : nat)
  | WriteError (id : N)
  | Receive (id : N)
  | Expire (id : N)
  | Cancel (id : N)
  | ReadReply
  | ReadRequest
  | FinishJob (k : nat)
  | EndDrain.

Definition on_client {E} (c : BrokerClientEngine) (s : bridge E) : bridge E :=
  {| now := now s; client := c; server := server s; requests := requests s; replies := replies s; asked := asked s |}.

Definition on_server {E} (b : broker E) (rq rp : string) (s : bridge E) : bridge E :=
  {| now := now s; client := client s; server := b; requests := rq; replies := rp; asked := asked s |}.

Section both.
Context `{VmEngine E} {BC : BridgeCodec} (budget : option N).

Definition exited (s : bridge E) : bool := match status (server s) with Exited => true | _ => false end.

(** An event that cannot happen in a state leaves it as it is; nothing can be
    written to a broker that is gone. *)
Definition step (ev : event) (s : bridge E) : bridge E :=
  match ev with
  | Elapse d => {| now := now s + d; client := client s; server := server s; requests := requests s;
                   replies := replies s; asked := asked s |}
  | Call req => {| now := now s; client := begin_call budget (now s) req (client s); server := server s;
                   requests := requests s; replies := replies s;
                   asked := <[next_id (client s) := req]> (asked s) |}
  | Acquire id => on_client (acquire id (client s)) s
  | WriteSome id n =>
      if exited s then s
      else let '(c, rq) := write_some id n (client s) (requests s) in
           on_server (server s) rq (replies s) (on_client c s)
  | WriteError id => on_client (write_error id (client s)) s
  | Receive id => on_client (receive id (client s)) s
  | Expire id => on_client (expire (now s) id (client s)) s
  | Cancel id => on_client (cancel id (client s)) s
  | ReadReply =>
      let '(c, rp) := read_reply (exited s) (client s) (replies s) in
      on_server (server s) (requests s) rp (on_client c s)
  | ReadRequest =>
      let '(b, rq, rp) := read_request (now s) (negb (wr (client s))) (server s) (requests s) (replies s) in
      on_server b rq rp s
  | FinishJob k => let '(b, rp) := finish_job k (server s) (replies s) in on_server b (requests s) rp s
  | EndDrain => let '(b, rp) := end_drain (now s) (server s) (replies s) in on_server b (requests s) rp s
  end.

Definition run (evs : list event) (s : bridge E) : bridge E := foldl (λ s ev, step ev s) s evs.
End both.

(** ** The forwarding methods *)

(** [impl VmEngine for BrokerClientEngine]: each method's reading of the reply
    to its request. *)
Definition forwarded {A} (pick : EngineReply → option A) (r : result DaemonError EngineReply) : result DaemonError A :=
  let? reply := r in
  match pick reply with
  | Some v => Ok v
  | None => match reply with RErr w => Err (daemon_error_from_wire w) | _ => Err EInternal end
  end.

Definition client_create := forwarded (λ r, match r with RCreated v => Some v | _ => None end).
Definition client_list := forwarded (λ r, match r with RList v => Some v | _ => None end).
Definition client_info := forwarded (λ r, match r with RInfo v => Some v | _ => None end).
Definition client_exec := forwarded (λ r, match r with RExec v => Some v | _ => None end).
Definition client_stats := forwarded (λ r, match r with RStats v => Some v | _ => None end).
Definition client_snapshot := forwarded (λ r, match r with RSnapshot v => Some v | _ => None end).
Definition client_destroy := forwarded (λ r, match r with RDestroyed => Some tt | _ => None end).
Definition client_in_use := forwarded (λ r, match r with RInUse v => Some v | _ => None end).
Definition client_delete := forwarded (λ r, match r with RArtifactDeleted => Some tt | _ => None end).
