(* ===== verification/BridgeProps.v ===== *)
(** * The broker bridge: what it guarantees

    An invariant of every run in which no call is dropped in the middle of its
    write: the request stream is a sequence of whole frames with at most one
    unfinished frame behind them, so each request reaches the engine at most
    once and each reply the call that asked.  Calls end by their deadlines and a
    shutdown runs behind the jobs it drained in all runs; the errors a forwarded
    operation reports are the engine's.  The run that drops a call in the middle
    of its write is the counterexample at the end. *)

From S2P Require Import Prelude ArtifactName DaemonTypes Wire Bridge.

(** ** Frames *)

Lemma read_exact_split n s d r : read_exact n s = Ok (d, r) → s = d +:+ r.
Proof.
  revert s d. induction n as [|n IH]; intros s d; cbn; [by intros [= <- <-]|]. destruct s as [|c s]; [done|].
  destruct (read_exact n s) as [[d' r']|] eqn:E; [|done]. intros [= <- <-]. by rewrite append_cons, (IH _ _ E).
Qed.

Lemma cap_u32 n : (n <= MAX_BRIDGE_FRAME_BYTES)%N → (n <= u32_max)%N.
Proof. intros H. etrans; [exact H|]. by vm_compute. Qed.

Lemma write_frame_cases out payload :
  (str_len payload <= MAX_BRIDGE_FRAME_BYTES)%N ∧ write_frame out payload = Ok (out +:+ frame payload) ∨
  (MAX_BRIDGE_FRAME_BYTES < str_len payload)%N ∧ write_frame out payload = Err InvalidData.
Proof.
  unfold write_frame, frame_len_prefix. destruct (N.leb_spec (str_len payload) MAX_BRIDGE_FRAME_BYTES) as [H|H].
  - left. split; [done|]. by rewrite (proj2 (N.leb_le _ _) (cap_u32 _ H)).
  - right. split; [done|]. by rewrite andb_false_r.
Qed.

Lemma read_frame_header data s : (str_len data <= MAX_BRIDGE_FRAME_BYTES)%N →
  read_frame (to_be_bytes (str_len data) +:+ s) = read_exact (String.length data) s.
Proof.
  intros H. unfold read_frame, to_be_bytes. rewrite !append_cons, append_nil_l. cbn [read_exact].
  rewrite be_bytes_roundtrip by (by apply cap_u32). rewrite (proj2 (N.ltb_ge _ _)) by done.
  unfold str_len. by rewrite Nat2N.id.
Qed.

Lemma read_frame_whole data s : (str_len data <= MAX_BRIDGE_FRAME_BYTES)%N →
  read_frame (frame data +:+ s) = Ok (data, s).
Proof. intros H. unfold frame. rewrite append_assoc, read_frame_header by done. apply read_exact_append. Qed.

(** A frame that was cut short is no frame. *)
Lemma read_frame_cut data p t : (str_len data <= MAX_BRIDGE_FRAME_BYTES)%N → t ≠ "" → p +:+ t = frame data →
  read_frame p = Err UnexpectedEof.
Proof.
  intros H Ht Hp. destruct (decide (String.length p < 4)) as [H4|H4].
  { unfold read_frame. by rewrite read_exact_short. }
  assert (String.length p < String.length (frame data)) as Hl.
  { rewrite <- Hp, length_append. destruct t; [done|cbn; lia]. }
  unfold frame in Hp. destruct (string_prefix_split _ _ _ _ Hp) as [(p' & -> & Hp')|?]; [|cbn in *; lia].
  rewrite read_frame_header by done. apply read_exact_short.
  unfold frame in Hl. rewrite !length_append in Hl. lia.
Qed.

Fixpoint wire {A} (f : A → string) (xs : list A) : string :=
  match xs with [] => "" | x :: xs => f x +:+ wire f xs end.

Lemma wire_app {A} (f : A → string) xs ys : wire f (xs ++ ys) = wire f xs +:+ wire f ys.
Proof. induction xs as [|x xs IH]; cbn; [done|]. by rewrite IH, append_assoc. Qed.

Section bridge.
Context `{VmEngine E} {BC : BridgeCodec}.

(** ** The request stream *)

Definition sendable (id : N) (req : EngineRequest) (b : string) : Prop :=
  enc_request id req = Some b ∧ (str_len b <= MAX_BRIDGE_FRAME_BYTES)%N.

Definition req_frame (x : N * EngineRequest) : string := frame (default "" (enc_request x.1 x.2)).

(** What the writer's slot and the call that holds it say of the bytes behind
    the whole frames. *)
Definition tail_ok (w : bool) (l : option N) (cs : gmap N (phase * N)) (ask : gmap N EngineRequest) (tail : string) : Prop :=
  match l with
  | Some id => w = true ∧ ∃ rest dl req b, cs !! id = Some (Writing rest, dl) ∧ ask !! id = Some req ∧
      sendable id req b ∧ rest ≠ "" ∧ tail +:+ rest = frame b
  | None => (w = true → tail = "") ∧ ∃ rest b, rest ≠ "" ∧ (str_len b <= MAX_BRIDGE_FRAME_BYTES)%N ∧ tail +:+ rest = frame b
  end.

Definition call_ok (l : option N) (ask : gmap N EngineRequest) (id : N) (p : phase) : Prop :=
  ∃ req, ask !! id = Some req ∧
    match p with Locking b => sendable id req b | Writing _ => l = Some id | Awaiting => True end.

(** A request on the stream or behind it: the one asked under its id, whose call
    has nothing left to write. *)
Definition sent_ok (cs : gmap N (phase * N)) (ask : gmap N EngineRequest) (x : N * EngineRequest) : Prop :=
  ask !! x.1 = Some x.2 ∧ ∀ p dl, cs !! x.1 = Some (p, dl) → p = Awaiting.

Record link_ok (w : bool) (l : option N) (n : N) (cs : gmap N (phase * N)) (ask : gmap N EngineRequest)
    (acc : list (N * EngineRequest)) (rq : string) : Prop := {
  link_fresh id : is_Some (ask !! id) → (id < n)%N;
  link_calls id p dl : cs !! id = Some (p, dl) → call_ok l ask id p;
  link_stream : ∃ inflight tail, rq = wire req_frame inflight +:+ tail ∧
    Forall (λ x, ∃ b, sendable x.1 x.2 b) inflight ∧
    NoDup ((acc ++ inflight).*1) ∧ Forall (sent_ok cs ask) (acc ++ inflight) ∧ tail_ok w l cs ask tail;
}.

Lemma call_fresh w l n cs ask acc rq : link_ok w l n cs ask acc rq → cs !! n = None ∧ ask !! n = None.
Proof.
  intros [Hf Hc _]. assert (ask !! n = None) as Ha.
  { apply eq_None_not_Some. intros Hs%Hf. lia. }
  split; [|done]. destruct (cs !! n) as [[p dl]|] eqn:Ec; [|done].
  destruct (Hc n p dl Ec) as (req & Hr & _). congruence.
Qed.

(** Leaving a map alone at the ids a predicate looks at. *)
Lemma sent_ok_calls cs cs' ask x : (∀ p dl, cs' !! x.1 = Some (p, dl) → p = Awaiting ∨ cs !! x.1 = Some (p, dl)) →
  sent_ok cs ask x → sent_ok cs' ask x.
Proof. intros Hcs [Ha Hp]. split; [done|]. intros p dl Hx. destruct (Hcs p dl Hx); [done|by eapply Hp]. Qed.

(** A call that is still writing is not on the stream. *)
Lemma sent_ok_ne cs ask x id p dl : sent_ok cs ask x → cs !! id = Some (p, dl) → p ≠ Awaiting → x.1 ≠ id.
Proof. intros [_ Hp] Hx Hn <-. by apply Hn, (Hp p dl). Qed.

Lemma sent_ok_insert cs ask x id p dl v : cs !! id = Some (p, dl) → p ≠ Awaiting →
  sent_ok cs ask x → sent_ok (<[id := v]> cs) ask x.
Proof.
  intros Hx Hn Hok. pose proof (sent_ok_ne _ _ _ _ _ _ Hok Hx Hn). apply (sent_ok_calls cs); [|done].
  intros p' dl' Hy. rewrite lookup_insert_ne in Hy by done. by right.
Qed.

Lemma link_call w l n cs ask acc rq req : link_ok w l n cs ask acc rq →
  link_ok w l (n + 1) cs (<[n := req]> ask) acc rq.
Proof.
  intros Hl. destruct (call_fresh _ _ _ _ _ _ _ Hl) as [Hcn Han]. destruct Hl as [Hf Hc (inf & tail & -> & Hs & Hnd & Hok & Ht)].
  assert (Hkeep : ∀ id r, ask !! id = Some r → <[n := req]> ask !! id = Some r).
  { intros id r Hr. rewrite lookup_insert_ne; congruence. }
  split.
  - intros id. destruct (decide (id = n)) as [->|Hne]; [lia|]. rewrite lookup_insert_ne by done. intros Hx%Hf. lia.
  - intros id p dl Hx. destruct (Hc id p dl Hx) as (r & Hr & Hp). exists r. by rewrite (Hkeep id r Hr).
  - exists inf, tail. split_and!; [done..| |].
    + eapply Forall_impl; [exact Hok|]. intros x [Ha Hp]. split; [by apply Hkeep|done].
    + destruct l as [id|]; [|done]. destruct Ht as (Hw & rest & dl & r & b & Hcs & Ha & Hrest).
      split; [done|]. exists rest, dl, r, b. by rewrite (Hkeep id r Ha).
Qed.

(** A new call: its request is on no stream yet. *)
Lemma link_begin w l n cs ask acc rq req b dl : link_ok w l n cs ask acc rq → sendable n req b →
  link_ok w l (n + 1) (<[n := (Locking b, dl)]> cs) (<[n := req]> ask) acc rq.
Proof.
  intros Hl Hb. destruct (call_fresh _ _ _ _ _ _ _ Hl) as [Hcn Han].
  destruct (link_call _ _ _ _ _ _ _ req Hl) as [Hf Hc _].
  split; [done| |].
  - intros id p dl' Hx. destruct (decide (id = n)) as [->|Hne].
    + rewrite lookup_insert_eq in Hx. injection Hx as <- _. exists req. by rewrite lookup_insert_eq.
    + rewrite lookup_insert_ne in Hx by done. by eapply Hc.
  - destruct Hl as [_ _ (inf' & tail' & Hrq' & Hs' & Hnd' & Hok' & Ht')]. exists inf', tail'. split_and!; [done..| |].
    + eapply Forall_impl; [exact Hok'|]. intros x [Ha Hp]. assert (x.1 ≠ n) by congruence.
      split; [by rewrite lookup_insert_ne by congruence|]. intros p dl'. rewrite lookup_insert_ne by done. apply Hp.
    + destruct l as [id|]; [|done]. destruct Ht' as (Hw & rest & dl' & r & b' & Hcs & Ha & Hrest).
      assert (id ≠ n) by congruence. split; [done|]. exists rest, dl', r, b'.
      by rewrite !lookup_insert_ne by done.
Qed.

(** A call that does not hold the writer ends. *)
Lemma link_drop w l n cs ask acc rq id : link_ok w l n cs ask acc rq → l ≠ Some id →
  link_ok w l n (delete id cs) ask acc rq.
Proof.
  intros [Hf Hc (inf & tail & -> & Hs & Hnd & Hok & Ht)] Hl. split; [done| |].
  - intros id' p dl [_ Hx]%lookup_delete_Some. by eapply Hc.
  - exists inf, tail. split_and!; [done..| |].
    + eapply Forall_impl; [exact Hok|]. intros x. apply sent_ok_calls. intros p dl [_ Hx]%lookup_delete_Some. by right.
    + destruct l as [id'|]; [|done]. destruct Ht as (Hw & rest & dl & r & b & Hcs & Ha & Hrest).
      split; [done|]. exists rest, dl, r, b. by rewrite lookup_delete_ne by congruence.
Qed.

(** Only the holder of the lock writes. *)
Lemma writing_holds w l n cs ask acc rq id rest dl : link_ok w l n cs ask acc rq →
  cs !! id = Some (Writing rest, dl) → l = Some id.
Proof. intros Hl Hx. by destruct (link_calls _ _ _ _ _ _ _ Hl _ _ _ Hx) as (r & _ & Hp). Qed.

Lemma link_acquire n cs ask acc rq id b dl : link_ok true None n cs ask acc rq → cs !! id = Some (Locking b, dl) →
  (str_len b <= MAX_BRIDGE_FRAME_BYTES)%N ∧ link_ok true (Some id) n (<[id := (Writing (frame b), dl)]> cs) ask acc rq.
Proof.
  intros Hl Hx. pose proof (link_calls _ _ _ _ _ _ _ Hl _ _ _ Hx) as (req & Ha & Hb). split; [apply Hb|].
  destruct Hl as [Hf Hc (inf & tail & -> & Hs & Hnd & Hok & [Ht _])]. rewrite (Ht eq_refl) in *. split; [done| |].
  - intros id' p dl' Hy. destruct (decide (id' = id)) as [->|Hne].
    + rewrite lookup_insert_eq in Hy. injection Hy as <- _. by exists req.
    + rewrite lookup_insert_ne in Hy by done. destruct (Hc id' p dl' Hy) as (r & Hr & Hp). exists r. by destruct p.
  - exists inf, "". split_and!; [done..| |].
    + eapply Forall_impl; [exact Hok|]. intros x Hxo. by eapply sent_ok_insert.
    + split; [done|]. exists (frame b), dl, req, b. rewrite lookup_insert_eq. by split_and!.
Qed.

Lemma link_write w l n cs ask acc rq id chunk rest dl : link_ok w l n cs ask acc rq →
  cs !! id = Some (Writing (chunk +:+ rest), dl) → rest ≠ "" →
  link_ok w l n (<[id := (Writing rest, dl)]> cs) ask acc (rq +:+ chunk).
Proof.
  intros Hl Hx Hr. pose proof (writing_holds _ _ _ _ _ _ _ _ _ _ Hl Hx) as ->.
  destruct Hl as [Hf Hc (inf & tail & -> & Hs & Hnd & Hok & Hw & rest' & dl' & req & b & Hcs & Ha & Hb & _ & Hfr)].
  rewrite Hx in Hcs. injection Hcs as <- <-. split; [done| |].
  - intros id' p dl' Hy. destruct (decide (id' = id)) as [->|Hne].
    + rewrite lookup_insert_eq in Hy. injection Hy as <- _. by exists req.
    + rewrite lookup_insert_ne in Hy by done. by eapply Hc.
  - exists inf, (tail +:+ chunk). rewrite append_assoc. split_and!; [done..| |].
    + eapply Forall_impl; [exact Hok|]. intros x Hxo. by eapply sent_ok_insert.
    + split; [done|]. exists rest, dl, req, b. rewrite lookup_insert_eq, append_assoc. by split_and!.
Qed.

Lemma link_written w l n cs ask acc rq id chunk dl : link_ok w l n cs ask acc rq →
  cs !! id = Some (Writing chunk, dl) → link_ok w None n (<[id := (Awaiting, dl)]> cs) ask acc (rq +:+ chunk).
Proof.
  intros Hl Hx. pose proof (writing_holds _ _ _ _ _ _ _ _ _ _ Hl Hx) as ->.
  destruct Hl as [Hf Hc (inf & tail & -> & Hs & Hnd & Hok & -> & rest' & dl' & req & b & Hcs & Ha & Hb & _ & Hfr)].
  rewrite Hx in Hcs. injection Hcs as <- <-. split; [done| |].
  - intros id' p dl' Hy. destruct (decide (id' = id)) as [->|Hne].
    + rewrite lookup_insert_eq in Hy. injection Hy as <- _. by exists req.
    + rewrite lookup_insert_ne in Hy by done. destruct (Hc id' p dl' Hy) as (r & Hr & Hp). exists r. by destruct p; simplify_eq.
  - exists (inf ++ [(id, req)]), "". rewrite wire_app, append_nil_r, app_assoc, fmap_app. split_and!.
    + cbn [wire]. unfold req_frame. cbn. destruct Hb as [-> _]. by rewrite append_nil_r, append_assoc, Hfr.
    + apply Forall_app. split; [done|]. apply Forall_singleton. by exists b.
    + apply NoDup_app. split_and!; [done| |apply NoDup_singleton].
      intros y (x & -> & Hin)%list_elem_of_fmap Hy. apply list_elem_of_singleton in Hy.
      rewrite Forall_forall in Hok. by apply (sent_ok_ne _ _ _ _ _ _ (Hok x Hin) Hx).
    + apply Forall_app. split; [|apply Forall_singleton; split; [done|by cbn; rewrite lookup_insert_eq; naive_solver]].
      eapply Forall_impl; [exact Hok|]. intros x Hxo. by eapply sent_ok_insert.
    + split; [done|]. exists (frame ""), "". by split_and!.
Qed.

(** A write cut short tears the stream down behind the frames that are whole. *)
Lemma link_tear w l n cs ask acc rq id rest dl : link_ok w l n cs ask acc rq →
  cs !! id = Some (Writing rest, dl) → link_ok false None n (delete id cs) ask acc rq.
Proof.
  intros Hl Hx. pose proof (writing_holds _ _ _ _ _ _ _ _ _ _ Hl Hx) as ->.
  destruct Hl as [Hf Hc (inf & tail & -> & Hs & Hnd & Hok & -> & rest' & dl' & req & b & Hcs & Ha & Hb & Hne & Hfr)].
  split; [done| |].
  - intros id' p dl'' [Hn Hy]%lookup_delete_Some. destruct (Hc id' p dl'' Hy) as (r & Hr & Hp).
    exists r. by destruct p; simplify_eq.
  - exists inf, tail. split_and!; [done..| |].
    + eapply Forall_impl; [exact Hok|]. intros x. apply sent_ok_calls. intros p dl'' [_ Hy]%lookup_delete_Some. by right.
    + split; [done|]. exists rest', b. by split_and!; [|apply Hb|].
Qed.

(** The broker finds no frame, or the next request that was sent. *)
Lemma link_read w l n cs ask acc rq : link_ok w l n cs ask acc rq →
  read_frame rq = Err UnexpectedEof ∨
  ∃ id req b rest, read_frame rq = Ok (b, rest) ∧ dec_request b = Some (id, req) ∧
    link_ok w l n cs ask (acc ++ [(id, req)]) rest.
Proof.
  intros [Hf Hc (inf & tail & -> & Hs & Hnd & Hok & Ht)]. destruct inf as [|[id req] inf].
  - left. cbn [wire]. rewrite append_nil_l. destruct l as [id|].
    + destruct Ht as (_ & rest & dl & req & b & _ & _ & [_ Hb] & Hne & Hfr). by eapply read_frame_cut.
    + destruct Ht as (_ & rest & b & Hne & Hb & Hfr). by eapply read_frame_cut.
  - right. apply Forall_cons in Hs as [[b [He Hb]] Hs]. cbn in He. exists id, req, b, (wire req_frame inf +:+ tail).
    cbn [wire]. unfold req_frame at 1. cbn. rewrite He. cbn. rewrite append_assoc, read_frame_whole by done.
    split_and!; [done|by apply request_law|]. split; [done..|]. exists inf, tail.
    replace ((acc ++ [(id, req)]) ++ inf) with (acc ++ (id, req) :: inf) by (by rewrite <- app_assoc). done.
Qed.

(** ** Replies *)

(** A reply a call may be given: the engine's to that id, or the internal error. *)
Definition genuine (log : list (N * EngineRequest * EngineReply)) (id : N) (reply : EngineReply) : Prop :=
  reply = RInternal ∨ ∃ req, (id, req, reply) ∈ log.

Definition rep_frame (x : N * EngineReply) : string := frame (default "" (enc_reply x.1 x.2)).

Definition replies_ok (log : list (N * EngineRequest * EngineReply)) (out : string) : Prop :=
  ∃ rs, out = wire rep_frame rs ∧
    Forall (λ x, genuine log x.1 x.2 ∧ ∃ b, enc_reply x.1 x.2 = Some b ∧ (str_len b <= MAX_BRIDGE_FRAME_BYTES)%N) rs.

Definition given_ok (log : list (N * EngineRequest * EngineReply)) (c : BrokerClientEngine) : Prop :=
  (∀ id r, oneshots c !! id = Some r → genuine log id r) ∧ (∀ id r, results c !! id = Some (Ok r) → genuine log id r).

Lemma genuine_app log log' id r : genuine log id r → genuine (log ++ log') id r.
Proof. intros [?|[req Hr]]; [by left|right]. exists req. apply elem_of_app. by left. Qed.

Lemma replies_ok_app log log' out : replies_ok log out → replies_ok (log ++ log') out.
Proof.
  intros (rs & -> & Hrs). exists rs. split; [done|]. eapply Forall_impl; [exact Hrs|].
  intros x [Hg Hb]. split; [by apply genuine_app|done].
Qed.

Lemma given_ok_app log log' c : given_ok log c → given_ok (log ++ log') c.
Proof. intros [Ho Hr]. split; intros id r Hx; apply genuine_app; [by apply Ho|by apply Hr]. Qed.

Lemma replies_snoc log out id r b : replies_ok log out → genuine log id r → enc_reply id r = Some b →
  (str_len b <= MAX_BRIDGE_FRAME_BYTES)%N → replies_ok log (out +:+ frame b).
Proof.
  intros (rs & -> & Hrs) Hg He Hb. exists (rs ++ [(id, r)]). rewrite wire_app. split.
  - cbn. unfold rep_frame. cbn. by rewrite He, append_nil_r.
  - apply Forall_app. split; [done|]. apply Forall_singleton. cbn. eauto.
Qed.

Lemma write_reply_ok log id reply out : replies_ok log out → genuine log id reply → replies_ok log (write_reply id reply out).
Proof.
  intros Hok Hg. unfold write_reply.
  assert (Hfb : replies_ok log (match enc_reply id RInternal with
      | Some bytes => match write_frame out bytes with Ok out => out | Err _ => out end | None => out end)).
  { destruct (enc_reply id RInternal) as [b|] eqn:Ee; [|done].
    destruct (write_frame_cases out b) as [[Hb ->]|[_ ->]]; [|done]. eapply replies_snoc; [done|by left|done..]. }
  destruct (enc_reply id reply) as [b|] eqn:Ee; [|done].
  destruct (write_frame_cases out b) as [[Hb ->]|[_ ->]]; [|done]. by eapply replies_snoc.
Qed.

Lemma resolve_ok log id r c : given_ok log c → genuine log id r → given_ok log (resolve id r c).
Proof.
  intros [Ho Hr] Hg. unfold resolve. case_bool_decide; [|done]. split; [|done]. cbn. intros id' r' Hx.
  case_bool_decide; [|by apply Ho]. apply lookup_insert_Some in Hx as [[<- <-]|[_ Hx]]; [done|by apply Ho].
Qed.

Lemma fail_pending_ok log c : given_ok log c → given_ok log (fail_pending c).
Proof.
  intros [Ho Hr]. split; [|done]. cbn. intros id r. rewrite map_lookup_imap.
  destruct (calls c !! id); [|done]. cbn. case_bool_decide; [intros [= <-]; by left|apply Ho].
Qed.

Lemma return_ok log id r c : given_ok log c → (∀ reply, r = Ok reply → genuine log id reply) → given_ok log (return_ id r c).
Proof.
  intros [Ho Hr] Hg. split; cbn; intros id' r' Hx.
  - apply lookup_delete_Some in Hx as [_ Hx]. by apply Ho.
  - apply lookup_insert_Some in Hx as [[<- ->]|[_ Hx]]; [by apply Hg|by apply Hr].
Qed.

Lemma read_reply_ok log closed c out : given_ok log c → replies_ok log out →
  given_ok log (read_reply closed c out).1 ∧ replies_ok log (read_reply closed c out).2.
Proof.
  intros Hg (rs & -> & Hrs). unfold read_reply. destruct (reading c); [|split; [done|by exists rs]].
  destruct rs as [|[id r] rs].
  - change (read_frame (wire rep_frame [])) with (@Err _ (string * string) UnexpectedEof).
    destruct closed; (split; [|by exists []]); [by apply fail_pending_ok|done].
  - apply Forall_cons in Hrs as [(Hgr & b & He & Hb) Hrs]. cbn in Hgr, He.
    assert (wire rep_frame ((id, r) :: rs) = frame b +:+ wire rep_frame rs) as ->.
    { cbn. unfold rep_frame at 1. cbn. by rewrite He. }
    rewrite read_frame_whole by done. rewrite (reply_law id r b He). cbn. split; [by apply resolve_ok|by exists rs].
Qed.

(** ** The broker's accounts *)

Definition draining (st : broker_status) : list (N * EngineRequest) :=
  match st with Draining (Some id) _ => [(id, ShutdownAll)] | _ => [] end.

(** Every request read is running, awaited by the drain or done; an exit may
    lose the ones that still ran. *)
Definition broker_ok (b : broker E) : Prop :=
  ∃ lost, accepted b ≡ₚ lost ++ jobs b ++ draining (status b) ++ (dispatched b).*1 ∧ (status b ≠ Exited → lost = []).

Lemma dispatched_nodup b : broker_ok b → NoDup ((accepted b).*1) → NoDup ((dispatched b).*1.*1).
Proof.
  intros (lost & Hp & _) Hnd. rewrite Hp, !fmap_app in Hnd. rewrite !NoDup_app in Hnd. tauto.
Qed.

Lemma dispatched_accepted b id req r : broker_ok b → (id, req, r) ∈ dispatched b → (id, req) ∈ accepted b.
Proof.
  intros (lost & Hp & _) Hin. rewrite Hp, !elem_of_app. do 3 right. apply list_elem_of_fmap. by exists (id, req, r).
Qed.

Lemma run_job_ok id req (b : broker E) out lost : accepted b ≡ₚ lost ++ (id, req) :: jobs b ++ draining (status b) ++ (dispatched b).*1 →
  (status b ≠ Exited → lost = []) → broker_ok (run_job id req b out).1.
Proof.
  intros Hp Hl. unfold run_job. destruct (dispatch req (engine b)) as [reply e]. exists lost. split; [|done].
  cbn. rewrite Hp, fmap_app. cbn. solve_Permutation.
Qed.

Lemma finish_job_ok k b out : broker_ok b → broker_ok (finish_job k b out).1.
Proof.
  intros Hok. unfold finish_job. destruct (status b) eqn:Es; [..|done]; (destruct (jobs b !! k) as [[id req]|] eqn:Ek; [|done]);
    destruct Hok as (lost & Hp & Hl); rewrite Es in Hp, Hl; apply (run_job_ok _ _ _ _ lost); [|done| |done]; cbn;
    rewrite Hp, (delete_Permutation _ _ _ Ek) at 1; cbn; solve_Permutation.
Qed.

(** ** The invariant *)

Definition client_ok (c : BrokerClientEngine) (ask : gmap N EngineRequest) (acc : list (N * EngineRequest)) (rq : string) : Prop :=
  link_ok (wr c) (lock c) (next_id c) (calls c) ask acc rq.

Record bridge_ok (s : bridge E) : Prop := {
  ok_link : client_ok (client s) (asked s) (accepted (server s)) (requests s);
  ok_broker : broker_ok (server s);
  ok_replies : replies_ok (dispatched (server s)) (replies s);
  ok_given : given_ok (dispatched (server s)) (client s);
}.

Lemma bridge_new_ok t e : bridge_ok (bridge_new t e).
Proof.
  split.
  - split; [by intros id [? ?]|done|]. exists [], "". split_and!; try done; [constructor|].
    split; [done|]. exists (frame ""), "". by split_and!.
  - exists []. by split.
  - by exists [].
  - by split.
Qed.

Lemma begin_call_link budget t req c ask acc rq : client_ok c ask acc rq → (next_id c + 1 < 2 ^ 64)%N →
  client_ok (begin_call budget t req c) (<[next_id c := req]> ask) acc rq.
Proof.
  intros Hl Hn. destruct (call_fresh _ _ _ _ _ _ _ Hl) as [Hc _]. unfold begin_call, client_ok.
  pose proof (N.mod_small _ _ Hn) as Hm.
  destruct (enc_request (next_id c) req) as [b|] eqn:He; [unfold frame_len_prefix; destruct (_ && _)%bool eqn:Hb|];
    cbn; rewrite Hm; [|rewrite delete_id by done; by apply link_call..].
  apply link_begin; [done|]. apply andb_true_iff in Hb as [_ Hb%N.leb_le]. by split.
Qed.

Lemma acquire_link id c ask acc rq : client_ok c ask acc rq → client_ok (acquire id c) ask acc rq.
Proof.
  intros Hl. unfold acquire. destruct (calls c !! id) as [[[b| |] dl]|] eqn:Hx; [|done..].
  destruct (lock c) eqn:El; [done|]. unfold client_ok in *. rewrite El in Hl. destruct (wr c) eqn:Ew.
  - destruct (link_acquire _ _ _ _ _ _ _ _ Hl Hx) as [Hb Hl']. destruct (write_frame_cases "" b) as [[_ ->]|[? _]]; [|lia].
    cbn. done.
  - cbn. rewrite El, Ew. by apply link_drop.
Qed.

Lemma write_some_link id n c ask acc rq : client_ok c ask acc rq →
  client_ok (write_some id n c rq).1 ask acc (write_some id n c rq).2.
Proof.
  intros Hl. unfold write_some. destruct (calls c !! id) as [[[|rest|] dl]|] eqn:Hx; [done| |done..].
  destruct (read_exact (S n) rest) as [[chunk rest']|] eqn:Hr; [|done]. apply read_exact_split in Hr as ->.
  destruct rest' as [|a rest'].
  - rewrite append_nil_r in Hx. by eapply link_written.
  - by eapply link_write.
Qed.

Lemma write_error_link id c ask acc rq : client_ok c ask acc rq → client_ok (write_error id c) ask acc rq.
Proof.
  intros Hl. unfold write_error. destruct (calls c !! id) as [[[|rest|] dl]|] eqn:Hx; [done| |done..].
  by eapply link_tear.
Qed.

(** A call that is not writing does not hold the lock. *)
Lemma not_holder c ask acc rq id p dl : client_ok c ask acc rq → calls c !! id = Some (p, dl) →
  (∀ rest, p ≠ Writing rest) → lock c ≠ Some id.
Proof.
  intros [_ _ (inf & tail & _ & _ & _ & _ & Ht)] Hx Hp Hlk. rewrite Hlk in Ht.
  destruct Ht as (_ & rest & dl' & r & b & Hx' & _). rewrite Hx in Hx'. injection Hx' as -> _. by eapply Hp.
Qed.

Lemma receive_link id c ask acc rq : client_ok c ask acc rq → client_ok (receive id c) ask acc rq.
Proof.
  intros Hl. unfold receive. destruct (calls c !! id) as [[[| |] dl]|] eqn:Hx; [done..| |done].
  assert (lock c ≠ Some id) by (by eapply not_holder).
  destruct (oneshots c !! id); [|case_bool_decide; [done|]]; by apply link_drop.
Qed.

Lemma expire_link t id c ask acc rq : client_ok c ask acc rq → client_ok (expire t id c) ask acc rq.
Proof.
  intros Hl. unfold expire. destruct (calls c !! id) as [[p dl]|] eqn:Hx; [|done]. destruct (_ <? _)%N; [done|].
  destruct p; [|by apply write_error_link|case_bool_decide; [by apply receive_link|]];
    (apply link_drop; [done|]); by eapply (not_holder c).
Qed.

Lemma cancel_link id c ask acc rq : client_ok c ask acc rq → lock c ≠ Some id → client_ok (cancel id c) ask acc rq.
Proof. intros Hl Hne. unfold client_ok. cbn. rewrite bool_decide_false by done. by apply link_drop. Qed.

Lemma read_reply_link closed c rp ask acc rq : client_ok c ask acc rq → client_ok (read_reply closed c rp).1 ask acc rq.
Proof.
  intros Hl. unfold read_reply. destruct (reading c); [|done].
  destruct (read_frame rp) as [[b rest]|[]]; [|by destruct closed..]. cbn.
  destruct (dec_reply b) as [[id r]|]; [|done]. unfold resolve. by case_bool_decide.
Qed.

Lemma return_err_ok log id e c : given_ok log c → given_ok log (return_ id (Err e) c).
Proof. intros Hg. by apply return_ok. Qed.

Lemma receive_given log id c : given_ok log c → given_ok log (receive id c).
Proof.
  intros Hg. unfold receive. destruct (calls c !! id) as [[[] dl]|]; [done..| |done].
  destruct (oneshots c !! id) as [r|] eqn:Ho.
  - apply return_ok; [done|]. intros reply [= <-]. by apply (proj1 Hg).
  - case_bool_decide; [done|]. by apply return_err_ok.
Qed.

(** Whatever a client step does beyond [receive] and [read_reply], it gives no
    call a reply. *)
Lemma client_given log c : given_ok log c →
  (∀ budget t req, given_ok log (begin_call budget t req c)) ∧ (∀ id, given_ok log (acquire id c)) ∧
  (∀ id n rq, given_ok log (write_some id n c rq).1) ∧ (∀ id, given_ok log (write_error id c)) ∧
  (∀ t id, given_ok log (expire t id c)) ∧ (∀ id, given_ok log (cancel id c)).
Proof.
  intros Hg. assert (Hwe : ∀ id, given_ok log (write_error id c)).
  { intros id. unfold write_error. destruct (calls c !! id) as [[[] dl]|]; [done| |done..].
    by apply (return_err_ok log id EInternal (with_writer false None c)). }
  split_and!; [..|done| |].
  - intros budget t req. unfold begin_call. destruct (enc_request _ _); [destruct (frame_len_prefix _)|];
      [done|by apply (return_err_ok log (next_id c) _ c)..].
  - intros id. unfold acquire. destruct (calls c !! id) as [[[] dl]|]; [|done..]. destruct (lock c); [done|].
    destruct (wr c); [destruct (write_frame _ _); [done|]|]; by apply (return_err_ok log id EInternal c).
  - intros id n rq. unfold write_some. destruct (calls c !! id) as [[[] dl]|]; [done| |done..].
    by destruct (read_exact _ _) as [[? []]|].
  - intros t id. unfold expire. destruct (calls c !! id) as [[[] dl]|]; [..|done]; (destruct (_ <? _)%N; [done|]).
    + by apply (return_err_ok log id EInternal c).
    + apply Hwe.
    + case_bool_decide; [by apply receive_given|by apply (return_err_ok log id EInternal c)].
  - intros id. destruct Hg as [Ho Hr]. split; [|done]. cbn. intros id' r [_ Hx]%lookup_delete_Some. by apply Ho.
Qed.

Lemma read_request_ok t closed b c ask rq rp : broker_ok b → replies_ok (dispatched b) rp →
  client_ok c ask (accepted b) rq →
  let '(b', rq', rp') := read_request t closed b rq rp in
  broker_ok b' ∧ replies_ok (dispatched b') rp' ∧ client_ok c ask (accepted b') rq' ∧ dispatched b' = dispatched b.
Proof.
  intros Hb Hr Hl. unfold read_request. destruct (status b) eqn:Es; [|done..].
  destruct Hb as (lost & Hp & Hlost). rewrite Es in Hp, Hlost. rewrite Hlost in Hp by done. cbn in Hp.
  destruct (link_read _ _ _ _ _ _ _ Hl) as [->|(id & req & bytes & rest & -> & -> & Hl')].
  - destruct closed; (split_and!; [|done..]); exists []; cbn; rewrite ?Es; done.
  - destruct req; (split_and!; [|done..]); exists []; (split; [|done]); cbn; rewrite Hp, ?Es; cbn; solve_Permutation.
Qed.

Lemma run_job_log id req (b : broker E) out : ∃ reply, dispatched (run_job id req b out).1 = dispatched b ++ [(id, req, reply)] ∧
  accepted (run_job id req b out).1 = accepted b ∧ (run_job id req b out).2 = write_reply id reply out.
Proof. unfold run_job. destruct (dispatch req (engine b)) as [reply e]. by exists reply. Qed.

(** What the broker's engine steps keep: the requests read, and the log up to
    its end. *)
Lemma job_replies id req (b : broker E) out : replies_ok (dispatched b) out →
  let '(b', out') := run_job id req b out in
  accepted b' = accepted b ∧ (∃ log, dispatched b' = dispatched b ++ log) ∧ replies_ok (dispatched b') out'.
Proof.
  intros Hr. destruct (run_job_log id req b out) as (reply & Hd & Ha & Ho).
  destruct (run_job id req b out) as [b' out']. cbn in *. rewrite Hd, Ho. split_and!; [done|by eexists|].
  apply write_reply_ok; [by apply replies_ok_app|]. right. exists req. apply elem_of_app. right. by constructor.
Qed.

Lemma finish_job_replies k b out : replies_ok (dispatched b) out →
  let '(b', out') := finish_job k b out in
  accepted b' = accepted b ∧ (∃ log, dispatched b' = dispatched b ++ log) ∧ replies_ok (dispatched b') out'.
Proof.
  intros Hr. unfold finish_job. destruct (status b); (destruct (jobs b !! k) as [[id req]|]);
    try (split_and!; [done|exists []; by rewrite app_nil_r|done]);
    match goal with |- context [run_job ?i ?r ?b' ?o] => exact (job_replies i r b' o Hr) end.
Qed.

Lemma end_drain_ok t b out : broker_ok b → replies_ok (dispatched b) out →
  let '(b', out') := end_drain t b out in
  broker_ok b' ∧ accepted b' = accepted b ∧ (∃ log, dispatched b' = dispatched b ++ log) ∧ replies_ok (dispatched b') out'.
Proof.
  intros Hb Hr. unfold end_drain.
  assert (Hsame : broker_ok b ∧ accepted b = accepted b ∧ (∃ log, dispatched b = dispatched b ++ log) ∧ replies_ok (dispatched b) out).
  { split_and!; [done..|exists []; by rewrite app_nil_r|done]. }
  destruct (status b) as [|sh dl|] eqn:Es; [done| |done]. destruct (_ || _)%bool; [|done].
  destruct Hb as (lost & Hp & Hlost). rewrite Es in Hp, Hlost. rewrite Hlost in Hp by done. cbn in Hp. destruct sh as [id|].
  - pose proof (job_replies id ShutdownAll b out Hr) as Hj. destruct (run_job_log id ShutdownAll b out) as (reply & Hd & _).
    destruct (run_job id ShutdownAll b out) as [b' out']. cbn in *. destruct Hj as (Ha & Hlog & Hr'). split_and!; [|done..].
    exists (jobs b). split; [|done]. cbn. rewrite Ha, Hd, Hp, fmap_app. cbn. solve_Permutation.
  - split_and!; [|apply Hsame..]. exists (jobs b). by split.
Qed.

(** The event drops a call in the middle of its framed write. *)
Definition cuts_write (ev : event) (s : bridge E) : bool :=
  match ev with Cancel id => bool_decide (lock (client s) = Some id) | _ => false end.

Lemma on_client_ok c s : bridge_ok s → client_ok c (asked s) (accepted (server s)) (requests s) →
  given_ok (dispatched (server s)) c → bridge_ok (on_client c s).
Proof. intros [_ Hb Hr _] Hl Hg. by split. Qed.

Lemma on_server_ok b rp s log : bridge_ok s → broker_ok b → accepted b = accepted (server s) →
  dispatched b = dispatched (server s) ++ log → replies_ok (dispatched b) rp → bridge_ok (on_server b (requests s) rp s).
Proof.
  intros [Hl _ _ Hg] Hb Ha Hd Hr. split; cbn; [by rewrite Ha|done..|]. rewrite Hd. by apply given_ok_app.
Qed.

Lemma step_ok budget ev s : bridge_ok s → (next_id (client s) + 1 < 2 ^ 64)%N → cuts_write ev s = false →
  bridge_ok (step budget ev s).
Proof.
  intros Hs Hn Hev. pose proof Hs as [Hl Hb Hr Hg].
  destruct (client_given _ _ Hg) as (Gc & Ga & Gw & Ge & Gx & Gn). destruct ev; cbn [step].
  - by split.
  - split; cbn; [by apply begin_call_link|done..|apply Gc].
  - apply on_client_ok; [done|by apply acquire_link|apply Ga].
  - destruct (exited s); [done|]. pose proof (write_some_link id n (client s) _ _ _ Hl) as Hw.
    specialize (Gw id n (requests s)). destruct (write_some id n (client s) (requests s)) as [c rq]. by split.
  - apply on_client_ok; [done|by apply write_error_link|apply Ge].
  - apply on_client_ok; [done|by apply receive_link|by apply receive_given].
  - apply on_client_ok; [done|by apply expire_link|apply Gx].
  - apply bool_decide_eq_false in Hev. apply on_client_ok; [done|by apply cancel_link|apply Gn].
  - pose proof (read_reply_link (exited s) (client s) (replies s) _ _ _ Hl) as Hl'.
    pose proof (read_reply_ok _ (exited s) _ _ Hg Hr) as [Hg' Hr'].
    destruct (read_reply (exited s) (client s) (replies s)) as [c rp]. by split.
  - pose proof (read_request_ok (now s) (negb (wr (client s))) (server s) (client s) _ _ _ Hb Hr Hl) as Hq.
    destruct (read_request _ _ _ _ _) as [[b rq] rp]. destruct Hq as (Hb' & Hr' & Hl' & Hd). split; cbn; [done..|]. by rewrite Hd.
  - pose proof (finish_job_ok k _ (replies s) Hb) as Hb'. pose proof (finish_job_replies k _ _ Hr) as Hj.
    destruct (finish_job k (server s) (replies s)) as [b rp]. destruct Hj as (Ha & [log Hd] & Hr'). by eapply on_server_ok.
  - pose proof (end_drain_ok (now s) _ _ Hb Hr) as Hj. destruct (end_drain (now s) (server s) (replies s)) as [b rp].
    destruct Hj as (Hb' & Ha & [log Hd] & Hr'). by eapply on_server_ok.
Qed.

(** Ids are handed out by [Call] only, one at a time. *)
Lemma step_next budget ev s : (next_id (client (step budget ev s)) <= next_id (client s) + 1)%N.
Proof.
  assert (Hid : ∀ n : N, (n <= n + 1)%N) by lia.
  destruct ev; cbn [step]; unfold begin_call, acquire, write_some, write_error, expire, receive, write_error, read_reply, resolve;
    repeat (case_match; simplify_eq/=); try apply Hid; cbn; try apply N.Div0.mod_le.
Qed.

Fixpoint uncut (budget : option N) (evs : list event) (s : bridge E) : bool :=
  match evs with
  | [] => true
  | ev :: evs => negb (cuts_write ev s) && uncut budget evs (step budget ev s)
  end.

Lemma run_ok budget evs : ∀ s, bridge_ok s → (next_id (client s) + N.of_nat (length evs) < 2 ^ 64)%N →
  uncut budget evs s = true → bridge_ok (run budget evs s).
Proof.
  induction evs as [|ev evs IH]; intros s Hs Hn; [done|]. cbn [uncut length] in *.
  intros [Hc%negb_true_iff Hu]%andb_true_iff. apply IH; [apply step_ok; [done|lia|done]| |done].
  pose proof (step_next budget ev s). lia.
Qed.

(** ** The table of waiting calls *)

(** A call in progress has its sender in the table until it has its reply. *)
Record slots_ok (c : BrokerClientEngine) : Prop := {
  slot_fresh id : is_Some (calls c !! id) → (id < next_id c)%N;
  slot_waits id : is_Some (calls c !! id) → id ∈ pending c ↔ oneshots c !! id = None;
  slot_owned id : is_Some (oneshots c !! id) → is_Some (calls c !! id);
}.

Lemma slots_ended id c c' : slots_ok c → calls c' = delete id (calls c) → oneshots c' = delete id (oneshots c) →
  next_id c' = next_id c → (pending c' = pending c ∨ pending c' = pending c ∖ {[id]}) → slots_ok c'.
Proof.
  intros [Hf Hw Ho] Hc Hs Hn Hp. split; intros id'; rewrite ?Hc, ?Hs, ?Hn.
  - intros [v [_ Hv]%lookup_delete_Some]. by apply Hf.
  - intros [v [Hne Hv]%lookup_delete_Some]. rewrite lookup_delete_ne by done.
    rewrite <- Hw by done. destruct Hp as [->| ->]; set_solver.
  - intros [v [Hne Hv]%lookup_delete_Some]. rewrite lookup_delete_ne by done. by apply Ho.
Qed.

Lemma slots_moved id p dl c c' : slots_ok c → is_Some (calls c !! id) → calls c' = <[id := (p, dl)]> (calls c) →
  oneshots c' = oneshots c → next_id c' = next_id c → pending c' = pending c → slots_ok c'.
Proof.
  intros [Hf Hw Ho] Hid Hc Hs Hn Hp.
  assert (Hd : ∀ id', is_Some (calls c' !! id') ↔ is_Some (calls c !! id')).
  { intros id'. rewrite Hc. destruct (decide (id' = id)) as [->|?]; [rewrite lookup_insert_eq; by split|by rewrite lookup_insert_ne]. }
  split; intros id'; rewrite ?Hd, ?Hs, ?Hn, ?Hp; auto.
Qed.

Lemma begin_call_slots budget t req c : slots_ok c → (next_id c + 1 < 2 ^ 64)%N → slots_ok (begin_call budget t req c).
Proof.
  intros [Hf Hw Ho] Hn. pose proof (N.mod_small _ _ Hn) as Hm.
  assert (Hc : calls c !! next_id c = None).
  { apply eq_None_not_Some. intros Hs%Hf. lia. }
  assert (Hos : oneshots c !! next_id c = None).
  { apply eq_None_not_Some. intros Hs%Ho. rewrite Hc in Hs. by destruct Hs. }
  set (c1 := {| wr := wr c; lock := lock c; pending := {[next_id c]} ∪ pending c; next_id := (next_id c + 1) mod 2 ^ 64;
               calls := calls c; oneshots := oneshots c; results := results c; reading := reading c |}).
  assert (slots_ok c1) as H1.
  { split; cbn; [intros id Hid%Hf; lia| |done]. intros id Hid. rewrite <- Hw by done.
    assert (id ≠ next_id c) by (intros ->; rewrite Hc in Hid; by destruct Hid). set_solver. }
  unfold begin_call. fold c1. destruct (enc_request (next_id c) req); [destruct (frame_len_prefix _)|];
    [|eapply (slots_ended (next_id c) c1); try done; by right..].
  destruct H1 as [Hf1 Hw1 Ho1]. split; intros id; cbn.
  - destruct (decide (id = next_id c)) as [->|?]; [lia|rewrite lookup_insert_ne by done; apply Hf1].
  - destruct (decide (id = next_id c)) as [->|?]; [rewrite Hos; set_solver|rewrite lookup_insert_ne by done; apply Hw1].
  - intros Hid. destruct (decide (id = next_id c)) as [->|?]; [by rewrite lookup_insert_eq|].
    rewrite lookup_insert_ne by done. by apply Ho1.
Qed.

Lemma resolve_slots id r c : slots_ok c → slots_ok (resolve id r c).
Proof.
  intros [Hf Hw Ho]. unfold resolve. case_bool_decide as Hp; [|done]. split; cbn; [done|..].
  - intros id' Hid. destruct (decide (id' = id)) as [->|Hne].
    + rewrite bool_decide_true by done. rewrite lookup_insert_eq. set_solver.
    + transitivity (id' ∈ pending c); [set_solver|]. rewrite Hw by done.
      case_bool_decide; [by rewrite lookup_insert_ne|done].
  - intros id'. case_bool_decide as Hc; [|apply Ho].
    destruct (decide (id' = id)) as [->|Hne]; [done|]. rewrite lookup_insert_ne by done. apply Ho.
Qed.

Lemma fail_pending_slots c : slots_ok c → slots_ok (fail_pending c).
Proof.
  intros [Hf Hw Ho]. split; cbn; [done|..]; intros id; rewrite map_lookup_imap.
  - intros [v Hv]. rewrite Hv. cbn. pose proof (Hw id (mk_is_Some _ _ Hv)) as Hi. split; [set_solver|].
    case_bool_decide; [done|]. by intros ?%Hi.
  - intros [v Hv]. destruct (calls c !! id) eqn:Hc; [by eexists|done].
Qed.

Lemma client_slots budget t c : slots_ok c → (next_id c + 1 < 2 ^ 64)%N →
  (∀ req, slots_ok (begin_call budget t req c)) ∧ (∀ id, slots_ok (acquire id c)) ∧
  (∀ id n rq, slots_ok (write_some id n c rq).1) ∧ (∀ id, slots_ok (write_error id c)) ∧ (∀ id, slots_ok (receive id c)) ∧
  (∀ id, slots_ok (expire t id c)) ∧ (∀ id, slots_ok (cancel id c)) ∧ (∀ closed rp, slots_ok (read_reply closed c rp).1).
Proof.
  intros Hs Hn.
  assert (Hend : ∀ id r w l, slots_ok (forget id (return_ id r (with_writer w l c)))).
  { intros. eapply (slots_ended id c); try done. by right. }
  assert (Hret : ∀ id r, slots_ok (return_ id r c)) by (intros; eapply (slots_ended id c); try done; by left).
  assert (Hwe : ∀ id, slots_ok (write_error id c)).
  { intros id. unfold write_error. destruct (calls c !! id) as [[[] dl]|]; [done|apply Hend|done..]. }
  assert (Hre : ∀ id, slots_ok (receive id c)).
  { intros id. unfold receive. destruct (calls c !! id) as [[[] dl]|]; [done..| |done].
    destruct (oneshots c !! id); [apply Hret|case_bool_decide; [done|apply Hret]]. }
  split_and!; [|..|done|done| | |].
  - intros req. by apply begin_call_slots.
  - intros id. unfold acquire. destruct (calls c !! id) as [[[] dl]|] eqn:Hc; [|done..]. destruct (lock c); [done|].
    destruct (wr c); [destruct (write_frame _ _)|]; [by eapply (slots_moved id _ _ c)|apply Hend|apply (Hend id _ (wr c) (lock c))].
  - intros id n rq. unfold write_some. destruct (calls c !! id) as [[[] dl]|] eqn:Hc; [done| |done..].
    destruct (read_exact _ _) as [[? []]|]; [by eapply (slots_moved id _ _ c)..|done].
  - intros id. unfold expire. destruct (calls c !! id) as [[[] dl]|]; [..|done]; (destruct (_ <? _)%N; [done|]);
      [apply (Hend id _ (wr c) (lock c))|apply Hwe|case_bool_decide; [apply Hre|apply (Hend id _ (wr c) (lock c))]].
  - intros id. eapply (slots_ended id c); try done. by left.
  - intros closed rp. unfold read_reply. destruct (reading c); [|done].
    destruct (read_frame rp) as [[b rest]|[]]; [|destruct closed..]; try done; try by apply fail_pending_slots.
    cbn. destruct (dec_reply b) as [[id r]|]; [by apply resolve_slots|done].
Qed.

Lemma run_slots budget evs : ∀ s, slots_ok (client s) → (next_id (client s) + N.of_nat (length evs) < 2 ^ 64)%N →
  slots_ok (client (run budget evs s)).
Proof.
  induction evs as [|ev evs IH]; intros s Hs Hn; [done|]. cbn [length] in Hn. apply IH.
  2:{ pose proof (step_next budget ev s). lia. }
  destruct (client_slots budget (now s) _ Hs ltac:(lia)) as (? & ? & Hw & ? & ? & ? & ? & Hr).
  destruct ev; cbn [step]; try done; cbn; auto.
  - destruct (exited s); [done|]. specialize (Hw id n (requests s)). by destruct (write_some _ _ _ _).
  - specialize (Hr (exited s) (replies s)). by destruct (read_reply _ _ _).
  - by destruct (read_request _ _ _ _ _) as [[??]?].
  - by destruct (finish_job _ _ _).
  - by destruct (end_drain _ _ _).
Qed.

(** ** Theorems *)

(** C5: However the calls, the two streams and the broker's jobs interleave, as
    long as no call is dropped in the middle of its write: the engine is called
    at most once for each request id, and with the request asked under that id;
    and a reply a call returns is the engine's reply to that call's own request,
    or the internal error. *)
Theorem bridge_never_crosses budget evs t e :
  (N.of_nat (length evs) < 2 ^ 64 - 1)%N → uncut budget evs (bridge_new t e) = true →
  let s := run budget evs (bridge_new t e) in
  NoDup ((dispatched (server s)).*1.*1) ∧
  (∀ id req reply, (id, req, reply) ∈ dispatched (server s) → asked s !! id = Some req) ∧
  (∀ id reply, results (client s) !! id = Some (Ok reply) → reply = RInternal ∨
     ∃ req, asked s !! id = Some req ∧ (id, req, reply) ∈ dispatched (server s)).
Proof.
  intros Hn Hu s. assert (bridge_ok s) as [Hl Hb _ Hg].
  { apply run_ok; [apply bridge_new_ok|cbn; lia|done]. }
  destruct Hl as [_ _ (inf & tail & _ & _ & Hnd & Hok & _)].
  rewrite fmap_app in Hnd. apply NoDup_app in Hnd as [Hnd _]. apply Forall_app in Hok as [Hok _]. rewrite Forall_forall in Hok.
  assert (Hask : ∀ id req reply, (id, req, reply) ∈ dispatched (server s) → asked s !! id = Some req).
  { intros id req reply Hin. by apply (Hok (id, req)), (dispatched_accepted _ _ _ reply). }
  split_and!; [by apply dispatched_nodup|done|]. intros id reply Hr.
  destruct (proj2 Hg id reply Hr) as [?|[req Hin]]; [by left|right]. exists req. split; [by eapply Hask|done].
Qed.

(** C31: Whatever happens on either side, a call ends: woken at or after its
    deadline it returns, wherever it was suspended, and its slot leaves the
    table; and a call that waits for its reply when the broker is gone returns
    without its deadline, once the reader has come to the end of the stream. *)
Theorem calls_return budget evs t e id p dl :
  (N.of_nat (length evs) < 2 ^ 64 - 1)%N →
  let s := run budget evs (bridge_new t e) in
  let ended s := calls (client s) !! id = None ∧ is_Some (results (client s) !! id) ∧ id ∉ pending (client s) in
  calls (client s) !! id = Some (p, dl) →
  (∀ d, (dl <= now s + d)%N → ended (run budget [Elapse d; Expire id] s)) ∧
  (p = Awaiting → reading (client s) = true → exited s = true → read_frame (replies s) = Err UnexpectedEof →
   ended (run budget [ReadReply; Receive id] s)).
Proof.
  intros Hn s ended Hc. assert (slots_ok (client s)) as [_ Hw _].
  { apply run_slots; [|cbn; lia]. split; cbn; intros ? [? ?]; done. }
  specialize (Hw id (mk_is_Some _ _ Hc)). unfold ended. split.
  - intros d Hd. cbn. unfold expire. rewrite Hc, (proj2 (N.ltb_ge _ _)) by done.
    destruct p; [|unfold write_error; rewrite Hc|]; cbn; [split_and!; [apply lookup_delete_eq|by rewrite lookup_insert_eq|set_solver]..|].
    case_bool_decide as Ho; [unfold receive; rewrite Hc; destruct Ho as [r Ho]; rewrite Ho|]; cbn;
      (split_and!; [apply lookup_delete_eq|by rewrite lookup_insert_eq|]); [by rewrite Hw, Ho|set_solver].
  - intros -> Hr He Hf. cbn. unfold read_reply. rewrite Hr, Hf, He. cbn. unfold receive. cbn. rewrite Hc, map_lookup_imap, Hc. cbn.
    case_bool_decide as Hp; [|destruct (oneshots (client s) !! id) eqn:Ho; [|by destruct Hp; apply Hw]]; cbn;
      (split_and!; [apply lookup_delete_eq|by rewrite lookup_insert_eq|set_solver]).
Qed.

Lemma exited_stays budget evs : ∀ s, status (server s) = Exited → server (run budget evs s) = server s.
Proof.
  induction evs as [|ev evs IH]; intros s Hs; [done|].
  assert (server (step budget ev s) = server s) as He; [|rewrite <- He; apply IH; by rewrite He].
  destruct ev; cbn [step]; try done.
  - unfold exited. by rewrite Hs.
  - by destruct (read_reply _ _ _).
  - unfold read_request. by rewrite Hs.
  - unfold finish_job. by rewrite Hs.
  - unfold end_drain. by rewrite Hs.
Qed.

(** A shutdown whose drain leaves no job behind runs last: by then the engine
    has been called for every request the broker read, the shutdown is the
    engine's last call and its answer is on the stream, and whatever is still
    sent the engine is never called again. *)
Theorem shutdown_runs_last budget evs t e id dl :
  (N.of_nat (length evs) < 2 ^ 64 - 1)%N → uncut budget evs (bridge_new t e) = true →
  let s := run budget evs (bridge_new t e) in
  status (server s) = Draining (Some id) dl → jobs (server s) = [] →
  let s' := step budget EndDrain s in
  dispatched (server s') = dispatched (server s) ++ [(id, ShutdownAll, RShutdownAllDone)] ∧
  (dispatched (server s')).*1 ≡ₚ accepted (server s) ∧
  engine (server s') = shutdown_all (engine (server s)) ∧
  replies s' = write_reply id RShutdownAllDone (replies s) ∧
  ∀ evs', server (run budget evs' s') = server s'.
Proof.
  intros Hn Hu s Hst Hj. assert (bridge_ok s) as [_ (lost & Hp & Hl) _ _].
  { apply run_ok; [apply bridge_new_ok|cbn; lia|done]. }
  rewrite Hst in Hp, Hl. rewrite Hl, Hj in Hp by done. cbn [step]. unfold end_drain. rewrite Hst, Hj. cbn. split_and!; [done| |done..|].
  - rewrite Hp, fmap_app. cbn. solve_Permutation.
  - intros evs'. by apply exited_stays.
Qed.
End bridge.

(** ** Budgets *)

(** A call's deadline is an instant that exists, whatever timeout a client
    asks for, and at least the control budget away; and the deadline of an exec
    with a timeout of its own lies the margin behind the guest's, unless that is
    beyond the clock, where it is the horizon. *)
Theorem call_deadline_bounds t req :
  (t + CALL_DEADLINE_HORIZON <= INSTANT_MAX)%N →
  let dl := deadline_from t (call_budget req) in
  (t + BROKER_CONTROL_CALL_BUDGET <= dl <= INSTANT_MAX)%N ∧
  ∀ id r secs, req = Exec id r → timeout_secs r = Some secs → (secs <= u64_max)%N →
    (t + from_secs secs + EXEC_BUDGET_MARGIN <= dl)%N ∨
    (INSTANT_MAX < t + from_secs secs + EXEC_BUDGET_MARGIN)%N ∧ dl = (t + CALL_DEADLINE_HORIZON)%N.
Proof.
  intros Ht dl. assert (BROKER_CONTROL_CALL_BUDGET <= BROKER_VM_CALL_BUDGET)%N as Hv by (by vm_compute).
  assert (BROKER_CONTROL_CALL_BUDGET <= call_budget req)%N as Hb.
  { destruct req as [| | |? r| | | | | | | |]; cbn [call_budget]; try exact Hv; try apply N.le_refl.
    destruct (timeout_secs r); [|exact Hv]. etrans; [exact Hv|apply N.le_max_r]. }
  assert (BROKER_CONTROL_CALL_BUDGET <= CALL_DEADLINE_HORIZON)%N as Hh by (by vm_compute).
  unfold dl, deadline_from, checked_add. split.
  - destruct (N.leb_spec (t + call_budget req) INSTANT_MAX); cbn [default from_option]; unfold id; lia.
  - intros id r secs -> Hr Hs. cbn [call_budget]. rewrite Hr. unfold saturating_add.
    assert (INSTANT_MAX < DURATION_MAX)%N as Hw by (by vm_compute).
    destruct (N.leb_spec (t + N.max (N.min (from_secs secs + EXEC_BUDGET_MARGIN) DURATION_MAX) BROKER_VM_CALL_BUDGET) INSTANT_MAX)
      as [Hf|Hf]; cbn [default from_option]; unfold Datatypes.id; [left; lia|].
    destruct (N.le_gt_cases (t + from_secs secs + EXEC_BUDGET_MARGIN) (t + CALL_DEADLINE_HORIZON)) as [Hc|Hc]; [by left|right].
    split; [|done]. assert (BROKER_VM_CALL_BUDGET <= CALL_DEADLINE_HORIZON)%N by (by vm_compute). lia.
Qed.

(** ** Forwarding *)

Definition over_wire (e : DaemonError) : DaemonError := daemon_error_from_wire (wire_error e).

Definition map_err {A} (r : result DaemonError A) : result DaemonError A :=
  match r with Ok v => Ok v | Err e => Err (over_wire e) end.

Lemma forwarded_reply {A E} (pick : EngineReply → option A) (ok : A → EngineReply) (r : result DaemonError A * E) :
  (∀ v, pick (ok v) = Some v) → (∀ w, pick (RErr w) = None) → forwarded pick (Ok (reply_of ok r).1) = map_err r.1.
Proof. intros Hok Herr. destruct r as [[v|e] s]; cbn; [by rewrite Hok|by rewrite Herr]. Qed.

(** A forwarded operation reports what the engine answered: the same value,
    and for an error one with the same HTTP status, the very same error except
    for a refused artifact name. *)
Theorem forwarding_transparent `{VmEngine E} (e : E) :
  (∀ r, client_create (Ok (dispatch (Create r) e).1) = map_err (create r e).1) ∧
  client_list (Ok (dispatch ListVms e).1) = map_err (list_vms e).1 ∧
  (∀ id, client_info (Ok (dispatch (Get id) e).1) = map_err (get id e).1) ∧
  (∀ id r, client_exec (Ok (dispatch (Exec id r) e).1) = map_err (exec id r e).1) ∧
  (∀ id, client_stats (Ok (dispatch (Stats id) e).1) = map_err (stats id e).1) ∧
  (∀ id, client_info (Ok (dispatch (Pause id) e).1) = map_err (pause id e).1) ∧
  (∀ id, client_info (Ok (dispatch (Resume id) e).1) = map_err (resume id e).1) ∧
  (∀ id prefix, client_snapshot (Ok (dispatch (Snapshot id prefix) e).1) = map_err (snapshot id prefix e).1) ∧
  (∀ id, client_destroy (Ok (dispatch (Destroy id) e).1) = map_err (destroy id e).1) ∧
  (∀ name, client_in_use (Ok (dispatch (IsArtifactInUse name) e).1) = map_err (is_artifact_in_use name e).1) ∧
  (∀ name, client_delete (Ok (dispatch (DeleteArtifactIfUnused name) e).1) = map_err (delete_artifact_if_unused name e).1) ∧
  (∀ err, (into_response (over_wire err)).1.1 = (into_response err).1.1) ∧
  (∀ err, (∀ n, err ≠ EInvalidName n) → over_wire err = err).
Proof.
  split_and!; intros; try (apply forwarded_reply; intros; by repeat match goal with u : unit |- _ => destruct u end).
  - by destruct err.
  - destruct err; naive_solver.
Qed.

(** ** An engine without VMs, and ids of one byte *)

Definition no_vm {A} (e : unit) : result DaemonError A * unit := (Err ENotFound, e).

Definition empty_engine : VmEngine unit := {|
  create _ := no_vm; list_vms e := (Ok [], e); get _ := no_vm; exec _ _ := no_vm; stats _ := no_vm; pause _ := no_vm;
  resume _ := no_vm; snapshot _ _ := no_vm; destroy _ := no_vm; is_artifact_in_use _ e := (Ok false, e);
  delete_artifact_if_unused _ e := (Ok tt, e); shutdown_all e := e |}.

Definition tagged (id : N) (tag : option string) : option string :=
  if (id <? 256)%N then String (byte id) <$> tag else None.

Definition untag {A} (tags : string → option A) (b : string) : option (N * A) :=
  match b with String c tag => (byte_N c,.) <$> tags tag | "" => None end.

Lemma untag_tagged {A} (tags : string → option A) id tag b a : tagged id (Some tag) = Some b → tags tag = Some a →
  untag tags b = Some (id, a).
Proof.
  unfold tagged. destruct (N.ltb_spec id 256) as [H|]; [|done]. intros [= <-] Ht. cbn.
  by rewrite byte_N_byte, Ht, N.mod_small.
Qed.

Definition example_codec : BridgeCodec.
Proof.
  refine {|
    enc_request id r := tagged id (match r with ListVms => Some "L" | ShutdownAll => Some "S" | _ => None end);
    dec_request := untag (λ t, if decide (t = "L") then Some ListVms else if decide (t = "S") then Some ShutdownAll else None);
    dec_id b := fst <$> untag (λ _, Some ()) b;
    enc_reply id r := tagged id (match r with
      | RList [] => Some "L" | RShutdownAllDone => Some "D" | RErr {| kind := KInternal |} => Some "E" | _ => None end);
    dec_reply := untag (λ t, if decide (t = "L") then Some (RList []) else if decide (t = "D") then Some RShutdownAllDone
                             else if decide (t = "E") then Some RInternal else None);
  |}.
  - intros id r b. destruct r; try (unfold tagged; by destruct (_ <? _)%N); intros Hb; by apply (untag_tagged _ _ _ _ _ Hb).
  - intros id r b. destruct r as [|[]| | | | | | | | |[[]]]; try (unfold tagged; by destruct (_ <? _)%N); intros Hb;
      by apply (untag_tagged _ _ _ _ _ Hb).
Defined.

Definition example_run (evs : list event) : bridge unit :=
  run (H := empty_engine) (BC := example_codec) None evs (bridge_new 0 ()).

(** Two calls whose requests and replies overtake each other. *)
Definition two_calls : list event :=
  [Call ListVms; Call ListVms; Acquire 2; WriteSome 2 2; ReadRequest; WriteSome 2 2; ReadRequest; Acquire 1; WriteSome 1 5;
   ReadRequest; FinishJob 1; FinishJob 0; ReadReply; Receive 1; ReadReply; Receive 2].

Lemma bridge_never_crosses_witness :
  let s := example_run two_calls in
  results (client s) = {[1%N := Ok (RList []); 2%N := Ok (RList [])]} ∧
  NoDup ((dispatched (server s)).*1.*1) ∧ (dispatched (server s)).*1.*1 = [1%N; 2%N] ∧
  ∃ req, asked s !! 1%N = Some req ∧ (1%N, req, RList []) ∈ dispatched (server s).
Proof.
  intros s. destruct (bridge_never_crosses (H := empty_engine) (BC := example_codec) None two_calls 0 ()) as (H1 & _ & H3).
  - vm_compute. reflexivity.
  - vm_compute. reflexivity.
  - split; [vm_compute; reflexivity|]. split; [exact H1|]. split; [vm_compute; reflexivity|].
    destruct (H3 1%N (RList [])) as [Hx|Hx]; [vm_compute; reflexivity|discriminate Hx|exact Hx].
Defined.

(** The first call never gets the writer, the second no answer. *)
Definition stalled : list event := [Call ListVms; Call ListVms; Acquire 2; WriteSome 2 5; ReadRequest].

Lemma calls_return_witness :
  let s := run (H := empty_engine) (BC := example_codec) None [Elapse (from_secs 60); Expire 2] (example_run stalled) in
  calls (client s) !! 2%N = None ∧ is_Some (results (client s) !! 2%N) ∧ 2%N ∉ pending (client s).
Proof.
  refine (proj1 (calls_return (H := empty_engine) (BC := example_codec) None stalled 0 () 2 Awaiting (from_secs 60) _ _) _ _).
  - vm_compute. reflexivity.
  - vm_compute. reflexivity.
  - vm_compute. discriminate.
Defined.

Definition shutting_down : list event :=
  [Call ListVms; Acquire 1; WriteSome 1 5; Call ShutdownAll; Acquire 2; WriteSome 2 5; ReadRequest; ReadRequest; FinishJob 0].

Lemma shutdown_runs_last_witness :
  let s := step (H := empty_engine) (BC := example_codec) None EndDrain (example_run shutting_down) in
  dispatched (server s) = [(1%N, ListVms, RList []); (2%N, ShutdownAll, RShutdownAllDone)] ∧
  ∀ evs, server (run (H := empty_engine) (BC := example_codec) None evs s) = server s.
Proof.
  destruct (shutdown_runs_last (H := empty_engine) (BC := example_codec) None shutting_down 0 () 2 (from_secs 60))
    as (H1 & _ & _ & _ & H5); [vm_compute; reflexivity..|].
  split; [|exact H5]. vm_compute. reflexivity.
Defined.

Lemma call_deadline_bounds_witness :
  let r := {| argv := ["make"]; env := []; cwd := None; timeout_secs := Some 3600%N |} in
  (0 + from_secs 3600 + EXEC_BUDGET_MARGIN <= deadline_from 0 (call_budget (Exec "vm" r)))%N.
Proof.
  intros r. destruct (call_deadline_bounds 0 (Exec "vm" r)) as [_ Hb]; [vm_compute; discriminate|].
  specialize (Hb "vm" r 3600%N eq_refl eq_refl).
  destruct Hb as [Hd|[Hd _]].
  - vm_compute. discriminate.
  - exact Hd.
  - apply N.lt_nge in Hd. destruct Hd. vm_compute. discriminate.
Defined.

(** ** What dropping a call leaves behind *)

(** A call dropped in the middle of its write frees the writer and leaves it in
    its slot: the next request lands inside the unfinished frame, the broker
    waits for a frame that is never completed, and that call, though written in
    full to a healthy broker, ends in the internal error at its deadline. *)
Theorem cancelled_write_desyncs :
  let s := example_run [Call ListVms; Acquire 1; WriteSome 1 1; Cancel 1; Call ListVms; Acquire 2; WriteSome 2 5;
                        ReadRequest; ReadRequest] in
  wr (client s) = true ∧ status (server s) = Serving ∧ calls (client s) !! 2%N = Some (Awaiting, from_secs 60) ∧
  accepted (server s) = [] ∧ read_frame (requests s) = Err UnexpectedEof ∧
  results (client (example_run [Call ListVms; Acquire 1; WriteSome 1 1; Cancel 1; Call ListVms; Acquire 2; WriteSome 2 5;
                                ReadRequest; ReadRequest; Elapse (from_secs 60); Expire 2])) !! 2%N = Some (Err EInternal).
Proof. split_and!; vm_compute; reflexivity. Qed.

(** A call dropped while it waits leaves its slot in the table, until the broker
    answers. *)
Theorem cancel_keeps_slot :
  let s := example_run [Call ListVms; Acquire 1; WriteSome 1 5; Cancel 1; Elapse (from_secs 1000); Expire 1] in
  1%N ∈ pending (client s) ∧ calls (client s) = ∅.
Proof. split; [apply (bool_decide_unpack _)|]; vm_compute; [exact I|reflexivity]. Qed.

(** A refused artifact name is another wire kind behind the bridge than in a
    single process, under the same status. *)
Theorem invalid_name_renamed n :
  into_response (EInvalidName n) = (400%N, "invalid_name", false) ∧
  into_response (over_wire (EInvalidName n)) = (400%N, "bad_request", false).
Proof. done. Qed.
